(* ===== verification/_CoqProject ===== *)
-Q . S2P
Prelude.v
Property.v
Message.v
JsonInstance.v
MessageFacts.v
StorageRecord.v
PriorityQueue.v
Semaphore.v
BlockingQueue.v
Double.v
World.v
DeliveryScheduler.v
BTree.v
BTreeRep.v
BTreeOps.v
BTreeSplit.v
BTreePath.v
BTreeSearch.v
BTreeReplace.v
BTreeInsert.v
BTreeErase.v
BTreeSwap.v
BTreeEraseLoop.v
BTreeTree.v
BTreeMap.v
BTreeVerify.v
LinearStorage.v
StorageIndex.v
StorageWorker.v
WorkerLifecycle.v
TransactionBuffer.v
InFlight.v
Broker.v
Consumer.v
Destination.v
Session.v
Connection.v
ConnectionFacts.v
Selector.v
SelectorFacts.v
SelectorGrammar.v
ConsumerFacts.v
SendFacts.v
Durability.v
Replay.v
Subscriptions.v
Staging.v
Delays.v
Receives.v
ProducerFacts.v
Commits.v
Scenarios.v
