(* ===== verification/Prelude.v ===== *)
(** * tiny-mq: a verification of the broker

    tiny-mq is an in-process JMS broker in C++: applications open connections and
    sessions, producers send messages to queues and topics, consumers receive and
    acknowledge them; persistent messages are kept in append-only files, transacted
    ones in a buffer with a log until they are committed. This library translates the
    classes under src/ into Rocq, one operation per member function, and proves what
    makes them correct. Where the code does something else than its comments say, a
    theorem shows what it does.

    ** How the parts interact

    An application's call enters through Connection and Session, which create
    destinations (Exchange::create), consumers and producers. Producer::send fills the
    headers and calls Destination::save, which pushes a copy to the consumers
    (Consumer::push): into the queue of the consumer (PriorityQueueT), or with a
    delivery time into the DeliveryScheduler, or in a transaction into the producer's
    own queue; a persistent copy is first appended to the storage
    (ConcurrentLinearStorage, whose worker thread owns a linear_storage::Storage) or,
    in a transaction, to the TransactionBuffer. Consumer::recv takes from the queue,
    parses the stored bytes, and links the message into the consumer's in-flight chain;
    acknowledge unlinks it and removes its record, recover and rollback put it back or
    dead-letter it. Commit moves the buffered records to the storage and delivers the
    staged copies. After a restart the storage is scanned and replayed into the queues.

    ** The files, and the code they model

    - Prelude: the effects ([M S A], a state monad whose results are [Ok], [Exn] and
      [UB]), fixed-width integers, bytes, the development's hints and tactics.
    - Property (MessageProperty.h/.cpp, PocoAnyVisitor.h), Message (Message.h/.cpp, TextMessage,
      BytesMessage, MapMessage, StreamMessage, ObjectMessage), JsonInstance (an instance
      of the JSON parameters), MessageFacts: message data, the wire format, its round
      trip and its memory safety.
    - StorageRecord: what Message.cpp, TransactionBuffer.cpp, Destination.cpp and
      ConcurrentLinearStorage.cpp read or patch at fixed offsets of a stored record.
    - PriorityQueue (PriorityQueueT in Message.h): [Seq], the operations one at a time
      against an abstract priority queue; [Conc], their atomic accesses interleaved.
    - Semaphore (LightweightSemaphore and the POSIX semaphore under it, in
      external/concurrent_queue/lightweightsemaphore.h): its operations at their atomic
      accesses. BlockingQueue (blockingconcurrentqueue.h): the wrapper of that semaphore
      and a concurrent queue; [ConcurrentQueue] is the interface of the latter, in which a
      look at the queue may miss items that others are taking; [lanes] is its list of
      producers (concurrentqueue.h), which implements it.
    - Double: binary64 numbers (the Standard Library's SpecFloat), the conversions between
      them and integers, pow(2, n) and the product, for the backoff of a redelivery and
      the numbers of a selector.
    - World: the store of messages and queues that shared pointers lead to.
    - DeliveryScheduler (DeliveryScheduler.h/.cpp): senders, worker and stop as interleaved
      critical sections; what is pending when stop has joined the worker is discarded.
    - BTree (btree.h and DiskBTreeMap of disk_btree.h, in external/btree/include/fc): the
      tree that indexes a storage, as nodes at addresses with the members of
      BTreeBase::Node, one Definition per member function. BTreeRep: the trees such a heap
      lays out ([rep]), their shape and bounds, and how a change of a part changes the
      whole. BTreeOps (left_rotate, right_rotate, merge_child), BTreeSplit (split_child),
      BTreePath (the counts up to the root, insert_leaf, erase_leaf), BTreeSearch,
      BTreeReplace (a pair replaced in place), BTreeInsert (insert_lb), BTreeErase,
      BTreeSwap and BTreeEraseLoop (erase_lb): what each operation makes of the tree.
      BTreeTree: the invariant of a whole tree between two calls. BTreeMap: the tree as a
      finite map. BTreeVerify: its own verify(), and its height.
    - LinearStorage (LinearStorage.h/.cpp): tom files as bytes, the storage, its scan and
      index, as a map from uuids to data that survives reopening. Its index is an interface
      ([Index]) that a finite map implements, on which the other files build, and that a
      DiskBTreeMap implements in StorageIndex, where a simulation carries the theorem on
      the storage over to the storage on its tree.
    - StorageWorker (ConcurrentLinearStorage.h/.cpp): requests and their dispatch, the
      worker's loop with its sweep of expired records; [Posted] holds the removals that a
      client posts without waiting back in a queue. WorkerLifecycle: its start, run and
      stop, interleaved with the threads that post requests to its queue.
    - TransactionBuffer (TransactionBuffer.h/.cpp): open transactions, the log, recovery.
    - InFlight (Message::InFlightLink, Consumer.cpp): the intrusive chains.
    - Broker: the state of a process with all its objects under identities, lifted
      operations, and what Destination offers the other classes; Consumer (Consumer.h/.cpp),
      Destination (Destination.h/.cpp, RedeliveryPolicy.h), Session (Producer.h/.cpp, Session.h/.cpp),
      Connection (Connection.h/.cpp, ConnectionFactory.h/.cpp, Exchange.h/.cpp, DestinationHash.cpp).
    - Selector (Selector.h/.cpp): tokenizer, parser and evaluation of message selectors, the
      instance of the interface [MessageFilter] through which the broker uses them.
    - ConnectionFacts, SelectorFacts, SelectorGrammar, ConsumerFacts, SendFacts,
      Durability (what is stored), Replay (what a restart delivers), Subscriptions (sends
      with several recipients, durable subscribers that are away), ProducerFacts (sends
      with options), Staging (the batch of a transaction, staged and buffered), Delays
      (delivery delays that start at the commit), Commits (transactions of a producer),
      Receives (transactions of a consumer): the theorems on the files above. Scenarios: a
      concrete process, the runs that show divergent behaviour, and the theorems applied
      to it.

    An object's record has the fields of the class that its operations read or write,
    an object held by pointer or reference is named by an identity (a nat), a method is
    a Definition of the same name, its guards and early returns in the code's order; an
    exception is [Exn], a dangling or null pointer, an access out of bounds and a signed
    overflow are [UB], which no theorem that promises a result allows.

    ** What the theorems show

    - Messages: parsing inverts serialisation; serialisation fills its buffer exactly;
      parsing any bytes stays inside them; patching or reading a field at its fixed
      offset agrees with the serialiser; reading a property stream is typed.
    - Queues: enqueue and dequeue refine a priority queue that is FIFO per priority;
      interleaved at their atomic accesses they lose no message, and the bitmask may
      lag behind, which only the fallback scan repairs. The semaphore loses and invents
      no token, also where waits time out; the blocking queue hands out what each
      producer put in, once and in order, and its consumers sleep only when every item
      in it is spoken for by a consumer that has its token.
    - Scheduling: no sequence of events loses or doubles a delayed message, apart from
      persistent ones that arrive after stop(), which their records keep, and those
      still pending when stop() has joined the worker, which are discarded; a timed-out
      wait delivers what is due; stop() ends the worker.
    - Storage: the files with their index refine a map over every sequence of
      operations and reopenings; a sweep removes exactly
      what has expired at its clock reading, and the idle worker judges each record at
      the readings of its chunks, while the clock moves on; a removal that is posted is
      to the requests of its client as if done at once; stop() serves what its own thread queued before it, but may overtake
      other threads' requests, which are never answered, and run(), when it never returns;
      a torn record hides its successor or keeps the storage from opening.
    - The index: any sequence of assignments, insertions, searches and erasures on the
      B-tree runs without following a dangling pointer or failing an assertion, answers
      like a finite map and ends in a tree that represents it, as long as its counts stay
      in the 32 bits of attr_t; the tree passes its own verify() and its height is
      logarithmic in its size. The storage on that tree is the map from uuids to data.
    - Transactions: the buffer refines a map from transactions to their messages across
      restarts and its log tells exactly the open ones; the transaction of a producer on
      a queue destination is all or nothing: nothing is visible before, a commit delivers it in
      order and stores it whole, a rollback leaves no trace; a delivery delay counts from
      the commit, which hands the message to the scheduler and stores what a send with
      that delivery time stores. The receipts of a session are all or nothing as well: a
      commit acknowledges them, a rollback puts those within their redelivery limit back
      (under a policy without backoff). A crash between the two
      halves of a commit loses it.
    - Delivery: a producer's options are validated, and the headers they set are those
      of the message delivered; the chains implement one list per consumer; a send reaches exactly the
      consumers it is for; recv skips what expires before it looks and returns the first message that is
      still live; recover puts the messages within their limit back in order (without
      backoff); redelivery counts, backs off and dead-letters, and moves the record of a
      persistent dead letter to the storage of its queue; the backoff, computed in
      binary64, is min(backoffMs * 2^(n-1), maxBackoffMs).
    - Durability: a persistent send is stored, for each of its recipients (with storages
      of their own) and each durable subscriber that is away, before it returns; the
      acknowledgement drops exactly its record, at once or, by the mode of the session,
      with a batch or at the commit; shutting down and reopening keep the records, and a
      consumer created then on an empty queue is delivered each message once, complete,
      by priority, or finds it on the scheduler when it is not due; a durable subscriber
      misses none of the persistent messages sent outside transactions while it is away.
    - Processes: every operation of the broker leaves sessions and destinations what
      they are, so that in every reachable process sessions carry their connection's
      client id and the registry leads to the right destination; close() is final.
    - Selectors: the parser accepts exactly the documented grammar and returns what it
      derives; parsing ends; LIKE is SQL's within a line; the connectives are Kleene's.

    ** Parameters

    Code that is not in the repository is a parameter, with what the sources rely on as
    the laws of a class: Poco's JSON ([PocoJson], [PocoJsonOk]), UUID text ([PocoUUID]),
    time formatting and tokenizer ([PocoText], [PocoTextOk]), and in [Environment] the
    clock, the random ids, the hash of strings, the iteration orders of the hash maps
    and whether a log file opens ([EnvironmentOk]). Scenarios instantiates all of them.
    Of the vendored containers, a band of PriorityQueueT is a FIFO list (moodycamel's
    queue promises that order per enqueuing thread only) and its semaphore a counter;
    a hash map is a finite map with an iteration order; a written file keeps what was written.
    The order of the B-tree's keys is an interface ([KeyOrder], [KeyOrderOk]) that the
    lexicographic order of a uuid's bytes implements.

    ** Fuel

    Loops that are not structural take fuel, and [UB] or [None] when it ends; theorems
    that promise results show that it does not. The queue walk has 17 rounds ([walkFuel];
    each clears a bit of a mask of ten). A scan has one round more than the longest file
    has bytes ([fuelOf]; an entry has at least 33). A walk over a chain has as many rounds
    as there are links ([chainFuel]); a walk between the root and a leaf of the B-tree as
    many as its height and two more ([rounds]; each round changes the height); a loop over a queue one more than its length. The
    selector parser has eight rounds per character and sixteen more ([parseFuel]; each
    round that consumes nothing is one of the seven levels of the grammar).

    ** Not modelled

    Logging (LogTracer.h/.cpp) and the debug dump of a message; Base64 in toJSON of bytes and
    objects; the reading of payload files named in a message (dataFromMessagePath); the
    meta.info file, which nothing reads; main.cpp, an example; external/, which is
    vendored, apart from the semaphore, the blocking queue and the B-tree. Of btree.h that
    is what a storage calls, and verify(): not the bounds and ranges, join and split,
    duplicate keys, the search of sets of numbers with SIMD instructions, nor the
    serialisation; nor are the file it maps and the pool in it (disk_fixed_alloc.h), which
    the nodes never reach. Sessions and their consumers are used by one thread at a time, as the
    sources ask, so their calls are steps; interleavings are modelled where the code
    synchronises (PriorityQueue.Conc, DeliveryScheduler, WorkerLifecycle.Lifecycle). A call that posts a
    removal and does not wait is a step that serves it at once, which no later request of
    the same client can tell ([Posted]); requests of other threads on that storage, such
    as the scan of another session's replay, may in the code come between. Of
    std::stod, exponents, hexadecimal digits, inf and nan are left out, which the
    tokenizer never passes. A wait
    on an empty queue returns a timeout, or [Blocked] when it has none. A full disk and
    an index out of step with the files are not modelled, nor is std::bad_alloc apart
    from the sizes that a vector refuses. *)
From Stdlib Require Export ZArith Lia.
From coqutil Require Export Byte Word.LittleEndianList.
From stdpp Require Export base gmap strings list list_tactics fin_maps tactics.

Create HintDb tmq.

(** Keys are countable by their own instances, never through finiteness. *)
#[export] Remove Hints finite.finite_countable : typeclass_instances.

(** *** Effects

    Every operation of the broker that changes state or can fail is a function
    of type [M S A]: it takes the object's state and either returns a value
    ([Ok]), throws a C++ exception leaving the state it had reached ([Exn]), or
    leaves the defined behaviour of C++ ([UB]: an out-of-bounds access, a signed
    overflow, a dereferenced null pointer). *)

(** The exceptions the sources throw or let through. *)
Inductive exn : Type :=
  | InvalidSelectorException (what : string)
  | IllegalStateException (what : string)
  | PocoInvalidArgument (what : string)
  | PocoRuntime (what : string)
  | PocoOpenFile (what : string)
  | StdInvalidArgument (what : string)
  | StdOutOfRange (what : string)
  | StdLengthError
  | PocoJsonException
  | PocoBadCast.

#[export] Instance exn_eq_dec : EqDecision exn.
Proof. solve_decision. Defined.

Inductive res (S A : Type) : Type :=
  | Ok (a : A) (s : S)
  | Exn (e : exn) (s : S)
  | UB.
Arguments Ok {S A} a s.
Arguments Exn {S A} e s.
Arguments UB {S A}.

Definition M (S A : Type) : Type := S → res S A.

#[export] Instance M_ret {S} : MRet (M S) := λ A a s, Ok a s.
#[export] Instance M_bind {S} : MBind (M S) := λ A B f m s,
  match m s with
  | Ok a s' => f a s'
  | Exn e s' => Exn e s'
  | UB => UB
  end.

Section Effects.
Context {S : Type}.

Definition get : M S S := λ s, Ok s s.
Definition gets {A} (f : S → A) : M S A := λ s, Ok (f s) s.
Definition put (s : S) : M S unit := λ _, Ok tt s.
Definition modify (f : S → S) : M S unit := λ s, Ok tt (f s).
Definition throw {A} (e : exn) : M S A := λ s, Exn e s.
Definition undefined {A} : M S A := λ _, UB.
Definition when (b : bool) (m : M S unit) : M S unit := if b then m else mret tt.
(** A value the defined behaviour of C++ requires to exist. *)
Definition require {A} (o : option A) : M S A :=
  match o with Some a => mret a | None => undefined end.
(** try { m } catch (...) { h } *)
Definition catch {A} (m : M S A) (h : exn → M S A) : M S A := λ s,
  match m s with
  | Exn e s' => h e s'
  | r => r
  end.
(** for (x : l) f(x) *)
Fixpoint for_each {A} (f : A → M S unit) (l : list A) : M S unit :=
  match l with
  | [] => mret tt
  | x :: l' => _ ← f x; for_each f l'
  end.
End Effects.

(** The result of an operation is defined and is not an exception. *)
Definition returns {S A} (r : res S A) : Prop :=
  match r with Ok _ _ => True | _ => False end.

Lemma bind_ok {S A B} (m : M S A) (f : A → M S B) s a s' :
  m s = Ok a s' → (m ≫= f) s = f a s'.
Proof. unfold mbind, M_bind. by intros ->. Qed.

Lemma bind_ret {S A B} (a : A) (f : A → M S B) s : (mret a ≫= f) s = f a s.
Proof. done. Qed.

(** An operation that never leaves the defined behaviour. *)
Definition defined {S A} (m : M S A) : Prop := ∀ s, m s ≠ UB.

Lemma defined_ret {S A} (a : A) : defined (mret a : M S A).
Proof. done. Qed.
Lemma defined_throw {S A} e : defined (throw e : M S A).
Proof. done. Qed.
Lemma defined_modify {S} (f : S → S) : defined (modify f).
Proof. done. Qed.
Lemma defined_require {S A} (o : option A) : is_Some o → defined (require o : M S A).
Proof. by intros [a ->]. Qed.
Lemma defined_bind {S A B} (m : M S A) (f : A → M S B) :
  defined m → (∀ a, defined (f a)) → defined (m ≫= f).
Proof.
  intros Hm Hf s. unfold mbind, M_bind. specialize (Hm s).
  destruct (m s); [apply Hf|done|done].
Qed.
Lemma defined_for_each {S A} (f : A → M S unit) l :
  (∀ x, defined (f x)) → defined (for_each f l).
Proof. intros Hf. induction l; simpl; [done|]. by apply defined_bind. Qed.

Lemma for_each_app {S A} (f : A → M S unit) l1 l2 s s' :
  for_each f l1 s = Ok tt s' →
  for_each f (l1 ++ l2) s = for_each f l2 s'.
Proof.
  revert s. induction l1 as [|x l1 IH]; intros s; simpl.
  - by intros [= ->].
  - unfold mbind, M_bind. destruct (f x s); try done. apply IH.
Qed.

(** *** Machine integers *)
Open Scope Z_scope.

(** Conversion of a mathematical integer to a [w]-bit unsigned / signed one. *)
Definition wrapU (w z : Z) : Z := z mod 2 ^ w.
Definition wrapS (w z : Z) : Z := (z + 2 ^ (w - 1)) mod 2 ^ w - 2 ^ (w - 1).
Definition inU (w z : Z) : Prop := 0 <= z < 2 ^ w.
Definition inS (w z : Z) : Prop := - 2 ^ (w - 1) <= z < 2 ^ (w - 1).
#[export] Instance inU_dec w z : Decision (inU w z).
Proof. unfold inU. apply _. Defined.
#[export] Instance inS_dec w z : Decision (inS w z).
Proof. unfold inS. apply _. Defined.

Definition UINT32_MAX : Z := 4294967295.
Definition UINT64_MAX : Z := 18446744073709551615.
Definition INT64_MAX : Z := 9223372036854775807.

(** Signed [w]-bit arithmetic: overflow is undefined. *)
Definition checkS {S} (w z : Z) : M S Z := if decide (inS w z) then mret z else undefined.

Lemma pow2_half w : 0 < w → 2 ^ w = 2 * 2 ^ (w - 1).
Proof.
  intros. replace w with (Z.succ (w - 1)) at 1 by lia. rewrite Z.pow_succ_r; lia.
Qed.

Lemma wrapU_id w z : inU w z → wrapU w z = z.
Proof. apply Z.mod_small. Qed.

Lemma wrapS_id w z : 0 < w → inS w z → wrapS w z = z.
Proof.
  intros Hw [? ?]. unfold wrapS. pose proof (pow2_half w Hw).
  rewrite Z.mod_small; lia.
Qed.

Lemma wrapS_wrapU w z : 0 < w → wrapS w (wrapU w z) = wrapS w z.
Proof.
  intros Hw. unfold wrapS, wrapU. by rewrite Zplus_mod_idemp_l.
Qed.

Lemma wrapS_range w z : 0 < w → inS w (wrapS w z).
Proof.
  intros Hw. unfold wrapS, inS. pose proof (pow2_half w Hw).
  pose proof (Z.mod_pos_bound (z + 2 ^ (w - 1)) (2 ^ w)) as Hb.
  assert (0 < 2 ^ w) by (apply Z.pow_pos_nonneg; lia). lia.
Qed.

(** *** Bytes *)
#[export] Instance byte_eq_dec : EqDecision Byte.byte := Byte.byte_eq_dec.
#[export] Program Instance byte_countable : Countable Byte.byte :=
  inj_countable byte.unsigned (λ z, Some (byte.of_Z z)) _.
Next Obligation. intros b. simpl. by rewrite byte.of_Z_unsigned. Qed.

Notation bytes := (list Byte.byte).
Definition b0 : Byte.byte := Byte.x00.

(** The object representation of an [n]-byte integer (memcpy from or to it on a
    little-endian machine). *)
Definition encLE (n : nat) (z : Z) : bytes := le_split n z.
Definition decU (bs : bytes) : Z := le_combine bs.
Definition decS (bs : bytes) : Z := wrapS (8 * Z.of_nat (length bs)) (le_combine bs).

Lemma length_encLE n z : length (encLE n z) = n.
Proof. apply length_le_split. Qed.

Lemma decU_encLE n z : inU (8 * Z.of_nat n) z → decU (encLE n z) = z.
Proof.
  intros H. unfold decU, encLE. rewrite le_combine_split.
  rewrite Z.mul_comm. by apply Z.mod_small.
Qed.

Lemma decS_encLE n z : (0 < n)%nat → inS (8 * Z.of_nat n) z → decS (encLE n z) = z.
Proof.
  intros Hn H. unfold decS. rewrite length_encLE. unfold encLE.
  rewrite le_combine_split, (Z.mul_comm (Z.of_nat n)).
  fold (wrapU (8 * Z.of_nat n) z).
  rewrite wrapS_wrapU by lia. apply wrapS_id; [lia|done].
Qed.

Lemma encLE_decU bs : encLE (length bs) (decU bs) = bs.
Proof. apply split_le_combine. Qed.

(** memcpy into a buffer at an offset / out of a buffer: [None] is an
    out-of-bounds access. *)
Definition blit (buf : bytes) (off : nat) (src : bytes) : option bytes :=
  if decide (off + length src <= length buf)%nat
  then Some (take off buf ++ src ++ drop (off + length src) buf) else None.

Definition slice (buf : bytes) (off n : nat) : option bytes :=
  if decide (off + n <= length buf)%nat then Some (take n (drop off buf)) else None.

Lemma length_blit buf off src buf' : blit buf off src = Some buf' → length buf' = length buf.
Proof.
  unfold blit. case_decide; [|done]. intros [= <-].
  rewrite !length_app, length_take, length_drop. lia.
Qed.

Lemma blit_app pre mid post src :
  length src = length mid → blit (pre ++ mid ++ post) (length pre) src = Some (pre ++ src ++ post).
Proof.
  intros H. unfold blit. rewrite !length_app. rewrite decide_True by lia.
  rewrite take_app_length, H, drop_app.
  rewrite drop_ge, app_nil_l by lia.
  rewrite Nat.add_comm, Nat.add_sub, drop_app_length. done.
Qed.

Lemma slice_app pre mid post n :
  n = length mid → slice (pre ++ mid ++ post) (length pre) n = Some mid.
Proof.
  intros ->. unfold slice. rewrite !length_app. rewrite decide_True by lia.
  by rewrite drop_app_length, take_app_length.
Qed.

Lemma slice_length buf off n bs : slice buf off n = Some bs → length bs = n.
Proof.
  unfold slice. case_decide; [|done]. intros [= <-].
  rewrite length_take, length_drop. lia.
Qed.

(** *** Writing a pre-sized buffer

    The sources size a vector first and fill it with memcpy at a running offset.
    The state of a writer is that buffer and the offset. *)
Definition writer : Type := bytes * nat.
Definition wput (src : bytes) : M writer unit := λ '(buf, off),
  match blit buf off src with
  | Some buf' => Ok tt (buf', (off + length src)%nat)
  | None => UB
  end.

(** A writer that has written [done] and has [k] bytes left, still zero. *)
Definition written (done : bytes) (k : nat) : writer := (done ++ replicate k b0, length done).

Lemma wput_written done src k :
  (length src <= k)%nat →
  wput src (written done k) = Ok tt (written (done ++ src) (k - length src)).
Proof.
  intros H. unfold wput, written.
  replace k with (length src + (k - length src))%nat at 1 by lia.
  rewrite replicate_add, (blit_app done (replicate _ b0)) by (by rewrite length_replicate).
  by rewrite length_app, (app_assoc done).
Qed.

(** *** Option, list and string lemmas *)
Definition str_bytes (s : string) : bytes := String.list_byte_of_string s.
Definition bytes_str (bs : bytes) : string := String.string_of_list_byte bs.
Lemma bytes_str_bytes s : bytes_str (str_bytes s) = s.
Proof. apply String.string_of_list_byte_of_string. Qed.
Lemma str_bytes_str bs : str_bytes (bytes_str bs) = bs.
Proof. apply String.list_byte_of_string_of_list_byte. Qed.

(** *** Automation *)
#[export] Hint Rewrite length_encLE @length_app @length_cons @length_nil @length_replicate @length_take @length_drop : tmq.

Ltac len := autorewrite with tmq in *; simpl in *; try lia.
(** Runs the monadic glue of a goal. *)
Ltac mrun := cbv beta iota zeta delta [mbind M_bind mret M_ret require throw modify get gets put undefined].
(** Case split on the scrutinee of a match, in the goal or a hypothesis. *)
Ltac split_match := case_match; simplify_eq/=; try done.

Lemma slice_defined buf off n : (off + n <= length buf)%nat → is_Some (slice buf off n).
Proof. intros H. unfold slice. by rewrite decide_True. Qed.

(** *** Writers that fill, readers at a cursor *)

(** [m] appends exactly [src] to what has been written, whenever it fits. *)
Definition fills (m : M writer unit) (src : bytes) : Prop :=
  ∀ done k, (length src <= k)%nat →
    m (written done k) = Ok tt (written (done ++ src) (k - length src)).

Lemma fills_wput src : fills (wput src) src.
Proof. intros done k. apply wput_written. Qed.

Lemma fills_ret : fills (mret tt) [].
Proof. intros done k _. unfold mret, M_ret. by rewrite app_nil_r, Nat.sub_0_r. Qed.

Lemma fills_bind m1 m2 s1 s2 :
  fills m1 s1 → fills m2 s2 → fills (_ ← m1; m2) (s1 ++ s2).
Proof.
  intros H1 H2 done k Hk. rewrite length_app in *.
  rewrite (bind_ok _ _ _ _ _ (H1 done k ltac:(lia))), H2 by lia.
  by rewrite app_assoc, Nat.sub_add_distr.
Qed.

Lemma fills_when b m s : fills m s → fills (when b m) (if b then s else []).
Proof. destruct b; [done|]. intros _. apply fills_ret. Qed.

Lemma fills_run m src k :
  fills m src → (length src <= k)%nat →
  m (replicate k b0, 0%nat) = Ok tt (src ++ replicate (k - length src) b0, length src).
Proof. intros H Hk. exact (H [] k Hk). Qed.

(** The bytes of [bs] from [off] on are [rest]. *)
Definition cursor (bs : bytes) (off : nat) (rest : bytes) : Prop :=
  ∃ pre, bs = pre ++ rest ∧ off = length pre.

Lemma cursor_start bs : cursor bs 0 bs.
Proof. by exists []. Qed.

Lemma cursor_slice bs off n mid post :
  cursor bs off (mid ++ post) → n = length mid → slice bs off n = Some mid.
Proof. intros (pre & -> & ->) ->. by apply slice_app. Qed.

Lemma cursor_next bs off off' mid post :
  cursor bs off (mid ++ post) → off' = (off + length mid)%nat → cursor bs off' post.
Proof.
  intros (pre & -> & ->) ->. exists (pre ++ mid). by rewrite <-app_assoc, length_app.
Qed.

Lemma cursor_length bs off rest : cursor bs off rest → length bs = (off + length rest)%nat.
Proof. intros (pre & -> & ->). apply length_app. Qed.

Lemma cursor_drop bs off rest : cursor bs off rest → drop off bs = rest.
Proof. intros (pre & -> & ->). apply drop_app_length. Qed.

#[export] Hint Resolve defined_ret defined_throw defined_modify defined_bind defined_for_each : tmq.
#[export] Hint Resolve fills_wput fills_ret fills_bind fills_when : tmq.

(** *** Sums over the threads of a configuration *)
Section Sum.
Context {A : Type} (f : A → Z).
Definition sumZ (l : list A) : Z := foldr (λ x z, f x + z) 0 l.

Lemma sumZ_insert l i x y : l !! i = Some x → sumZ (<[i := y]> l) = sumZ l - f x + f y.
Proof.
  revert i. induction l as [|x0 l IH]; intros [|i] H; simpl in *; simplify_eq; [lia|].
  fold (sumZ (<[i := y]> l)) (sumZ l). rewrite (IH i H). lia.
Qed.
Lemma sumZ_replicate n x : sumZ (replicate n x) = Z.of_nat n * f x.
Proof. induction n as [|n IH]; simpl; [lia|]. fold (sumZ (replicate n x)). rewrite IH. lia. Qed.
Lemma sumZ_app l l' : sumZ (l ++ l') = sumZ l + sumZ l'.
Proof. induction l as [|x l IH]; simpl; [lia|]. fold (sumZ (l ++ l')) (sumZ l). rewrite IH. lia. Qed.
Lemma sumZ_bounds lo hi l : Forall (λ x, lo <= f x <= hi) l → Z.of_nat (length l) * lo <= sumZ l <= Z.of_nat (length l) * hi.
Proof. induction 1 as [|x l Hx _ IH]; simpl; [lia|]. fold (sumZ l). lia. Qed.
Lemma sumZ_zero l : Forall (λ x, 0 <= f x) l → sumZ l = 0 → Forall (λ x, f x = 0) l.
Proof.
  induction 1 as [|x l Hx Hl IH]; simpl; [done|]. fold (sumZ l). intros H0.
  assert (0 <= sumZ l) by (clear -Hl; induction Hl as [|y l Hy _ IH]; simpl; [done|]; fold (sumZ l); lia).
  constructor; [lia|]. apply IH. lia.
Qed.
End Sum.

(** *** Filters that keep nothing, or everything *)
Lemma filter_none {A} (P : A → Prop) `{!∀ x, Decision (P x)} l :
  Forall (λ x, ¬ P x) l → filter P l = [].
Proof. induction 1; [done|]. by rewrite filter_cons_False. Qed.
Lemma filter_every {A} (P : A → Prop) `{!∀ x, Decision (P x)} l :
  Forall P l → filter P l = l.
Proof. induction 1 as [|x l Hx _ IH]; [done|]. by rewrite filter_cons_True, IH. Qed.

Lemma filter_fmap {A B} (f : A → B) (P : B → Prop) `{!∀ x, Decision (P x)} (l : list A) :
  filter P (f <$> l) = f <$> filter (λ x, P (f x)) l.
Proof. induction l as [|x l IH]; [done|]. csimpl. rewrite !filter_cons. case_decide; csimpl; by rewrite IH. Qed.
Lemma filter_comm {A} (P Q : A → Prop) `{!∀ x, Decision (P x), !∀ x, Decision (Q x)} (l : list A) :
  filter P (filter Q l) = filter Q (filter P l).
Proof. rewrite !list_filter_filter. apply list_filter_iff. intros x. tauto. Qed.

(** The keys of a finite map as a list. *)
Lemma elem_of_keys `{FinMap K MM} {A} (m : MM A) k : k ∈ (map_to_list m).*1 ↔ is_Some (m !! k).
Proof.
  rewrite list_elem_of_fmap. split.
  - intros ([i x] & -> & Hin). apply elem_of_map_to_list in Hin. by exists x.
  - intros [x Hx]. exists (k, x). split; [done|]. by apply elem_of_map_to_list.
Qed.

(** *** Characters: <cctype> in the C locale *)
Definition char_code (a : Ascii.ascii) : nat := Ascii.nat_of_ascii a.
Definition in_range (lo hi : nat) (a : Ascii.ascii) : bool := (lo <=? char_code a)%nat && (char_code a <=? hi)%nat.
Definition is_space (a : Ascii.ascii) : bool := in_range 9 13 a || (char_code a =? 32)%nat.
Definition is_digit (a : Ascii.ascii) : bool := in_range 48 57 a.
Definition is_alpha (a : Ascii.ascii) : bool := in_range 65 90 a || in_range 97 122 a.
Definition to_upper (a : Ascii.ascii) : Ascii.ascii := if in_range 97 122 a then Ascii.ascii_of_nat (char_code a - 32) else a.

(** The longest prefix of characters that satisfy [p], and the rest. *)
Fixpoint span (p : Ascii.ascii → bool) (s : string) : string * string :=
  match s with
  | "" => ("", "")
  | String a s' => if p a then let '(x, y) := span p s' in (String a x, y) else ("", s)
  end.
