(* ===== verification/Property.v ===== *)
(** Typed message properties (MessageProperty.h/.cpp, PocoAnyVisitor.h): the
    property map of a message and of a MapMessage body, the value stream of a
    StreamMessage body, and their JSON documents.

    The JSON library is Poco's: the class [PocoJson] names the three operations
    the sources use of it, and [PocoJsonOk] what they rely on. *)
From Stdlib Require Import SpecFloat.
Set Warnings "-register-all".
From S2P Require Import Prelude.

(** *** property::ValueType and the raw values *)
Inductive ValueType : Type :=
  | NULL_TYPE | BOOLEAN_TYPE | BYTE_TYPE | CHAR_TYPE | SHORT_TYPE | INTEGER_TYPE
  | LONG_TYPE | DOUBLE_TYPE | FLOAT_TYPE | STRING_TYPE | BYTE_ARRAY_TYPE | UNKNOWN_TYPE.

#[export] Instance ValueType_eq_dec : EqDecision ValueType.
Proof. solve_decision. Defined.
#[export] Instance spec_float_eq_dec : EqDecision spec_float.
Proof. solve_decision. Defined.

(** A value of one of the types of property::raw_type (or BytesVector). *)
Inductive RawValue : Type :=
  | RBool (b : bool)
  | RByte (z : Z)
  | RChar (c : Byte.byte)
  | RShort (z : Z)
  | RInt (z : Z)
  | RLong (z : Z)
  | RDouble (d : spec_float)
  | RFloat (d : spec_float)
  | RString (s : string)
  | RBytes (bs : bytes).

#[export] Instance RawValue_eq_dec : EqDecision RawValue.
Proof. solve_decision. Defined.

(** property::getValueType, through the Value<T>::Type specialisations. *)
Definition getValueType (v : RawValue) : ValueType :=
  match v with
  | RBool _ => BOOLEAN_TYPE
  | RByte _ => BYTE_TYPE
  | RChar _ => CHAR_TYPE
  | RShort _ => SHORT_TYPE
  | RInt _ => INTEGER_TYPE
  | RLong _ => LONG_TYPE
  | RDouble _ => DOUBLE_TYPE
  | RFloat _ => FLOAT_TYPE
  | RString _ => STRING_TYPE
  | RBytes _ => BYTE_ARRAY_TYPE
  end.

Definition getValueTypeName (t : ValueType) : string :=
  match t with
  | NULL_TYPE => "NULL"
  | BOOLEAN_TYPE => "BOOLEAN"
  | BYTE_TYPE => "BYTE"
  | CHAR_TYPE => "CHAR"
  | SHORT_TYPE => "SHORT"
  | INTEGER_TYPE => "INTEGER"
  | LONG_TYPE => "LONG"
  | DOUBLE_TYPE => "DOUBLE"
  | FLOAT_TYPE => "FLOAT"
  | STRING_TYPE => "STRING"
  | BYTE_ARRAY_TYPE => "BYTE_ARRAY"
  | UNKNOWN_TYPE => "UNKNOWN"
  end.

Definition getValueTypeFromString (typeName : string) : ValueType :=
  if decide (typeName = "NULL") then NULL_TYPE
  else if decide (typeName = "BOOLEAN") then BOOLEAN_TYPE
  else if decide (typeName = "BYTE") then BYTE_TYPE
  else if decide (typeName = "CHAR") then CHAR_TYPE
  else if decide (typeName = "SHORT") then SHORT_TYPE
  else if decide (typeName = "INTEGER") then INTEGER_TYPE
  else if decide (typeName = "LONG") then LONG_TYPE
  else if decide (typeName = "DOUBLE") then DOUBLE_TYPE
  else if decide (typeName = "FLOAT") then FLOAT_TYPE
  else if decide (typeName = "STRING") then STRING_TYPE
  else if decide (typeName = "BYTE_ARRAY") then BYTE_ARRAY_TYPE
  else UNKNOWN_TYPE.

(** A Poco::Nullable of one of the raw types, as stored in the map's Poco::Any:
    the type it was stored under, and the value unless it is null. *)
Inductive Property : Type :=
  | PBool (v : option bool)
  | PByte (v : option Z)
  | PChar (v : option Byte.byte)
  | PShort (v : option Z)
  | PInt (v : option Z)
  | PLong (v : option Z)
  | PDouble (v : option spec_float)
  | PFloat (v : option spec_float)
  | PString (v : option string)
  | PBytes (v : option bytes).

#[export] Instance Property_eq_dec : EqDecision Property.
Proof. solve_decision. Defined.

(** [T(value)] for T = property::Bool, property::Char, ... *)
Definition Nullable (v : RawValue) : Property :=
  match v with
  | RBool b => PBool (Some b)
  | RByte z => PByte (Some z)
  | RChar c => PChar (Some c)
  | RShort z => PShort (Some z)
  | RInt z => PInt (Some z)
  | RLong z => PLong (Some z)
  | RDouble d => PDouble (Some d)
  | RFloat d => PFloat (Some d)
  | RString s => PString (Some s)
  | RBytes bs => PBytes (Some bs)
  end.

(** [isNull()] / [value()]. *)
Definition nullable_value (p : Property) : option RawValue :=
  match p with
  | PBool v => RBool <$> v
  | PByte v => RByte <$> v
  | PChar v => RChar <$> v
  | PShort v => RShort <$> v
  | PInt v => RInt <$> v
  | PLong v => RLong <$> v
  | PDouble v => RDouble <$> v
  | PFloat v => RFloat <$> v
  | PString v => RString <$> v
  | PBytes v => RBytes <$> v
  end.

Definition propertyType (p : Property) : ValueType :=
  match p with
  | PBool _ => BOOLEAN_TYPE
  | PByte _ => BYTE_TYPE
  | PChar _ => CHAR_TYPE
  | PShort _ => SHORT_TYPE
  | PInt _ => INTEGER_TYPE
  | PLong _ => LONG_TYPE
  | PDouble _ => DOUBLE_TYPE
  | PFloat _ => FLOAT_TYPE
  | PString _ => STRING_TYPE
  | PBytes _ => BYTE_ARRAY_TYPE
  end.

(** *** JSON documents *)
(** What the sources build and take apart: a Poco::Dynamic::Var holding a C++
    value, the empty Var (null), an object and an array. *)
Inductive json : Type :=
  | JVar (v : RawValue)
  | JNull
  | JObject (fields : list (string * json))
  | JArray (items : list json).

Definition fields : Type := list (string * json).

(** Object::set: replaces the value of an existing name. *)
Fixpoint obj_set (k : string) (j : json) (fs : fields) : fields :=
  match fs with
  | [] => [(k, j)]
  | (k', j') :: fs' => if decide (k = k') then (k, j) :: fs' else (k', j') :: obj_set k j fs'
  end.
Fixpoint obj_get (k : string) (fs : fields) : option json :=
  match fs with
  | [] => None
  | (k', j') :: fs' => if decide (k = k') then Some j' else obj_get k fs'
  end.

Class PocoJson : Type := {
  (** Object::stringify and Parser::parse; [None] is a parse exception. *)
  stringify : json → bytes;
  parse : bytes → option json;
  (** Var::convert<T>() for the raw type with tag [t]; [None] is an exception. *)
  convert : ValueType → json → option RawValue
}.

Section Json.
Context {J : PocoJson} {S : Type}.

Definition getObject (k : string) (fs : fields) : option fields :=
  match obj_get k fs with Some (JObject o) => Some o | _ => None end.
Definition getArray (k : string) (fs : fields) : option (list json) :=
  match obj_get k fs with Some (JArray a) => Some a | _ => None end.
(** getValue<T>(key), getElement<T>(i): an exception when the name is missing
    or the value does not convert. *)
Definition convert_or_throw (t : ValueType) (j : option json) : M S RawValue :=
  match j ≫= convert t with Some v => mret v | None => throw PocoJsonException end.
Definition getValue (t : ValueType) (k : string) (fs : fields) : M S RawValue :=
  convert_or_throw t (obj_get k fs).
Definition getString (k : string) (fs : fields) : M S string :=
  v ← getValue STRING_TYPE k fs;
  match v with RString s => mret s | _ => throw PocoJsonException end.

(** for (i < arr->size()) data[i] = arr->getElement<byte>(i) *)
Fixpoint getBytes (arr : list json) : M S bytes :=
  match arr with
  | [] => mret []
  | j :: arr' =>
      v ← convert_or_throw BYTE_TYPE (Some j);
      match v with
      | RByte z => rest ← getBytes arr'; mret (byte.of_Z z :: rest)
      | _ => throw PocoJsonException
      end
  end.

(** The switch on the type name shared by the two fromJSON loops: [None] when
    the entry is skipped. *)
Definition readTyped (o : fields) : M S (option RawValue) :=
  tn ← getString "type" o;
  match getValueTypeFromString tn with
  | BYTE_ARRAY_TYPE =>
      match getArray "value" o with
      | Some arr =>
          data ← getBytes arr;
          match data with [] => mret None | _ => mret (Some (RBytes data)) end
      | None => mret None
      end
  | NULL_TYPE | UNKNOWN_TYPE => mret None
  | t => v ← getValue t "value" o; mret (Some v)
  end.
End Json.

(** *** Properties *)
Notation Properties := (gmap string Property).

Module Props.
Section Props.
Context {J : PocoJson}.

(** unordered_map::emplace: an existing entry is kept. *)
Definition setProperty (name : string) (value : Property) (ps : Properties) : Properties :=
  match ps !! name with Some _ => ps | None => <[name := value]> ps end.

(** RefAnyCast<T>(_properties.at(name)): throws out_of_range on a missing name
    and BadCastException on another type. *)
Definition property {S} (t : ValueType) (name : string) (ps : Properties) : M S Property :=
  match ps !! name with
  | None => throw (StdOutOfRange "at")
  | Some p => if decide (propertyType p = t) then mret p else throw PocoBadCast
  end.

Definition hasProperty (name : string) (ps : Properties) : bool :=
  match ps !! name with Some _ => true | None => false end.

Definition propertyValueType {S} (name : string) (ps : Properties) : M S ValueType :=
  match ps !! name with
  | None => throw (StdOutOfRange "at")
  | Some p => mret (propertyType p)
  end.

(** The value extractor: {"type": name, "value": value or null}. *)
Definition valueExtractor (p : Property) : json :=
  JObject [("type", JVar (RString (getValueTypeName (propertyType p))));
           ("value", match nullable_value p with Some v => JVar v | None => JNull end)].

Definition toJSON (ps : Properties) : json :=
  JObject (foldr (λ kp fs, obj_set kp.1 (valueExtractor kp.2) fs) [] (map_to_list ps)).

Definition fromJSON_one (k : string) (o : option fields) : M Properties unit :=
  match o with
  | None => mret tt
  | Some o =>
      v ← readTyped o;
      match v with
      | Some v => modify (setProperty k (Nullable v))
      | None => mret tt
      end
  end.

Definition fromJSON (object : fields) : M Properties unit :=
  for_each (λ k, fromJSON_one k (getObject k object)) object.*1.
End Props.
End Props.

(** *** PropertiesStream

    The reading position is a std::list iterator kept in the object. [ItEnd] is
    the list's own end(), [ItNode i] its i-th node, and [ItForeign] an iterator
    into another list: what the defaulted copy of a PropertiesStream holds. *)
Module PropsStream.
Inductive iterator : Type := ItEnd | ItNode (i : nat) | ItForeign.
#[global] Instance iterator_eq_dec : EqDecision iterator.
Proof. solve_decision. Defined.

Record t : Type := mk { vals : list RawValue; offset : iterator }.
#[global] Instance t_eq_dec : EqDecision t.
Proof. solve_decision. Defined.

Section Stream.
Context {J : PocoJson}.

Definition begin (l : list RawValue) : iterator :=
  match l with [] => ItEnd | _ => ItNode 0 end.
Definition next_it (l : list RawValue) (i : nat) : iterator :=
  if decide (S i < length l)%nat then ItNode (S i) else ItEnd.

Definition empty_stream : t := mk [] (begin []).
(** PropertiesStream(const PropertiesStream &) = default *)
Definition copy (s : t) : t := mk (vals s) ItForeign.

(** push_back invalidates no iterator: end() stays end(). *)
Definition write (v : RawValue) (s : t) : t := mk (vals s ++ [v]) (offset s).

(** RefAnyCast of the value at the offset, then the offset moves on. *)
Definition nextValue (ty : ValueType) : M t RawValue := λ s,
  match offset s with
  | ItNode i =>
      match vals s !! i with
      | Some v =>
          if decide (getValueType v = ty) then Ok v (mk (vals s) (next_it (vals s) i))
          else Exn PocoBadCast s
      | None => UB
      end
  | _ => UB
  end.

Definition nextValueType : M t ValueType := λ s,
  match offset s with
  | ItNode i => match vals s !! i with Some v => Ok (getValueType v) s | None => UB end
  | _ => UB
  end.

Definition reset (s : t) : t := mk (vals s) (begin (vals s)).
Definition eof : M t bool := λ s,
  match offset s with
  | ItForeign => UB
  | it => Ok (bool_decide (it = ItEnd)) s
  end.
Definition is_empty (s : t) : bool := bool_decide (vals s = []).
Definition clear (s : t) : t := mk [] (begin []).

Definition valueExtractor (v : RawValue) : json :=
  JObject [("type", JVar (RString (getValueTypeName (getValueType v)))); ("value", JVar v)].

Definition toJSON (s : t) : json := JObject [("stream", JArray (valueExtractor <$> vals s))].

(** stream->getObject(i) is null when the element is not an object, and the
    loop dereferences it. *)
Definition fromJSON_one (j : json) : M t unit :=
  match j with
  | JObject o =>
      v ← readTyped o;
      match v with Some v => modify (write v) | None => mret tt end
  | _ => throw PocoJsonException
  end.

Definition fromJSON (object : fields) : M t unit :=
  match getArray "stream" object with
  | Some stream => for_each fromJSON_one stream
  | None => mret tt
  end.
End Stream.
End PropsStream.

(** *** What the sources rely on of Poco's JSON *)
Section SameDoc.
Context {J : PocoJson}.

(** [same_doc j j']: the parsed document [j'] reads back as [j]: same names,
    same nesting, every leaf converts to the value that was written, and a byte
    vector has become an array of its elements. *)
Inductive same_doc : json → json → Prop :=
  | same_leaf v j :
      getValueType v ≠ BYTE_ARRAY_TYPE → (∀ o, j ≠ JObject o) →
      convert (getValueType v) j = Some v → same_doc (JVar v) j
  | same_bytes bs js :
      Forall2 (λ b j, ∃ z, convert BYTE_TYPE j = Some (RByte z) ∧ byte.of_Z z = b) bs js →
      same_doc (JVar (RBytes bs)) (JArray js)
  | same_null : same_doc JNull JNull
  | same_object fs fs' :
      fs'.*1 ≡ₚ fs.*1 →
      (∀ k j, obj_get k fs = Some j → ∃ j', obj_get k fs' = Some j' ∧ same_doc j j') →
      same_doc (JObject fs) (JObject fs')
  | same_array js js' : Forall2 same_doc js js' → same_doc (JArray js) (JArray js').
End SameDoc.

(** All leaves of a document satisfy [P]. *)
Fixpoint all_leaves (P : RawValue → Prop) (j : json) : Prop :=
  match j with
  | JVar v => P v
  | JNull => True
  | JObject fs => foldr (λ kj acc, all_leaves P kj.2 ∧ acc) True fs
  | JArray js => foldr (λ j acc, all_leaves P j ∧ acc) True js
  end.

(** Stringifying and parsing gives the document back, for the leaves whose text
    is lossless ([plain]: Poco does not promise it for, say, a NaN). *)
Class PocoJsonOk (J : PocoJson) : Type := {
  plain : RawValue → Prop;
  plain_string s : plain (RString s);
  stringify_nonempty j : stringify j ≠ [];
  parse_stringify fs :
    all_leaves plain (JObject fs) →
    ∃ fs', parse (stringify (JObject fs)) = Some (JObject fs')
           ∧ same_doc (JObject fs) (JObject fs')
}.

Section Facts.
Context {J : PocoJson}.

Lemma typeName_inv t : getValueTypeFromString (getValueTypeName t) = t.
Proof. by destruct t. Qed.

Lemma Nullable_value p v : nullable_value p = Some v → Nullable v = p.
Proof. destruct p; simpl; intros (? & -> & ->)%fmap_Some; done. Qed.
Lemma value_type p v : nullable_value p = Some v → getValueType v = propertyType p.
Proof. destruct p; simpl; intros (? & -> & ->)%fmap_Some; done. Qed.

Lemma obj_get_set k k' j fs :
  obj_get k (obj_set k' j fs) = if decide (k = k') then Some j else obj_get k fs.
Proof.
  induction fs as [|[k2 j2] fs IH]; simpl.
  - by repeat case_decide; simplify_eq.
  - destruct (decide (k' = k2)) as [->|?]; simpl.
    + by destruct (decide (k = k2)).
    + destruct (decide (k = k2)) as [->|?]; [by rewrite decide_False by congruence|done].
Qed.

Lemma obj_get_In k j fs : obj_get k fs = Some j → k ∈ fs.*1.
Proof.
  induction fs as [|[k2 j2] fs IH]; simpl; [done|].
  case_decide; set_solver.
Qed.

Lemma obj_set_keys k j fs : k ∉ fs.*1 → (obj_set k j fs).*1 ≡ₚ k :: fs.*1.
Proof.
  induction fs as [|[k2 j2] fs IH]; simpl; [done|].
  rewrite not_elem_of_cons. intros [? ?]. rewrite decide_False by done. simpl.
  rewrite IH by done. constructor.
Qed.

Lemma getBytes_same {S} bs js (s : S) :
  Forall2 (λ b j, ∃ z, convert BYTE_TYPE j = Some (RByte z) ∧ byte.of_Z z = b) bs js →
  getBytes js s = Ok bs s.
Proof.
  induction 1 as [|b j bs js (z & Hz & <-) _ IH]; [done|].
  simpl. unfold convert_or_throw. simpl. rewrite Hz. mrun. by rewrite IH.
Qed.

(** Reading back a {"type", "value"} object. *)
Lemma readTyped_same {S} v o (s : S) :
  v ≠ RBytes [] →
  same_doc (JObject [("type", JVar (RString (getValueTypeName (getValueType v))));
                     ("value", JVar v)]) (JObject o) →
  readTyped o s = Ok (Some v) s.
Proof.
  intros Hv Hs. inversion Hs as [| | |fs fs' _ Hf|]; subst.
  destruct (Hf "type" _ eq_refl) as (jt & Ht & Hst).
  destruct (Hf "value" _ eq_refl) as (jv & Hjv & Hsv).
  inversion Hst as [? ? ? ? Hct| | | |]; subst. simpl in Hct.
  unfold readTyped, getString, getValue, convert_or_throw.
  rewrite Ht. cbn [option_bind]. simpl. rewrite Hct. mrun. rewrite typeName_inv.
  inversion Hsv as [? ? Hb ? Hcv|bs js Hbs| | |]; subst.
  - rewrite Hjv. simpl. destruct v; try done; simpl in *; by rewrite Hcv.
  - simpl. unfold getArray. rewrite Hjv, (getBytes_same bs js s Hbs). by destruct bs.
Qed.
End Facts.

Module PropsFacts.
Import Props.
Section PropsFacts.
Context {J : PocoJson}.

Definition toJSON_fields (ps : Properties) : fields :=
  foldr (λ kp fs, obj_set kp.1 (valueExtractor kp.2) fs) [] (map_to_list ps).

Lemma foldr_get k (l : list (string * Property)) :
  NoDup l.*1 →
  obj_get k (foldr (λ kp fs, obj_set kp.1 (valueExtractor kp.2) fs) [] l)
  = valueExtractor <$> (list_to_map l : Properties) !! k.
Proof.
  induction l as [|[k' p] l IH]; simpl; intros Hnd.
  - by rewrite lookup_empty.
  - apply list.NoDup_cons in Hnd as [? ?]. rewrite obj_get_set.
    case_decide; subst.
    + by rewrite lookup_insert_eq.
    + rewrite lookup_insert_ne by done. auto.
Qed.

Lemma toJSON_get ps k : obj_get k (toJSON_fields ps) = valueExtractor <$> ps !! k.
Proof.
  unfold toJSON_fields. rewrite foldr_get by apply NoDup_fst_map_to_list.
  by rewrite list_to_map_to_list.
Qed.

Definition storable (p : Property) : Prop :=
  ∃ v, nullable_value p = Some v ∧ v ≠ RBytes [].

Lemma fromJSON_keys object ps ks acc :
  acc ⊆ ps →
  (∀ k, k ∈ ks → ∃ p o, ps !! k = Some p ∧ storable p ∧ getObject k object = Some o
                       ∧ same_doc (valueExtractor p) (JObject o)) →
  ∃ acc', for_each (λ k, fromJSON_one k (getObject k object)) ks acc = Ok tt acc'
          ∧ acc' ⊆ ps ∧ ∀ k, k ∈ ks ∨ is_Some (acc !! k) → acc' !! k = ps !! k.
Proof.
  revert acc. induction ks as [|k ks IH]; intros acc Hsub Hks; simpl.
  - exists acc. split_and!; [done|done|]. intros k [Hk|[p Hp]]; [by apply not_elem_of_nil in Hk|].
    rewrite Hp. symmetry. by eapply lookup_weaken.
  - destruct (Hks k ltac:(set_solver)) as (p & o & Hp & (v & Hv & Hne) & Ho & Hs).
    set (acc1 := setProperty k p acc).
    assert (Hacc1 : acc1 ⊆ ps ∧ acc1 !! k = Some p ∧ ∀ k', is_Some (acc !! k') → is_Some (acc1 !! k')).
    { unfold acc1, setProperty. destruct (acc !! k) as [p'|] eqn:E.
      - split_and!; [done| |done]. rewrite <-Hp. by rewrite (lookup_weaken _ _ _ _ E Hsub).
      - split_and!; [by apply insert_subseteq_l|apply lookup_insert_eq|].
        intros k' [p'' Hk']. destruct (decide (k = k')) as [->|?];
          [rewrite lookup_insert_eq|rewrite lookup_insert_ne]; eauto. }
    destruct Hacc1 as (Hs1 & Hk1 & Hmono).
    destruct (IH acc1 Hs1) as (acc' & Hrun & Hsub' & Hall); [set_solver|].
    exists acc'. split_and!; [|done|].
    + rewrite (bind_ok _ _ _ tt acc1); [done|].
      unfold fromJSON_one. rewrite Ho. unfold valueExtractor in Hs. rewrite Hv in Hs.
      rewrite <-(value_type _ _ Hv) in Hs.
      rewrite (bind_ok _ _ _ _ _ (readTyped_same v o acc Hne Hs)).
      unfold acc1. by rewrite (Nullable_value _ _ Hv).
    + intros k' [Hk'|Hk']; [|auto]. apply elem_of_cons in Hk' as [->|?]; [|auto].
      apply Hall. right. by rewrite Hk1.
Qed.

Lemma toJSON_keys ps : (toJSON_fields ps).*1 ≡ₚ (map_to_list ps).*1.
Proof.
  unfold toJSON_fields. pose proof (NoDup_fst_map_to_list ps) as Hnd.
  induction (map_to_list ps) as [|[k p] l IH]; [done|]. simpl in *.
  apply list.NoDup_cons in Hnd as [Hk Hnd]. rewrite obj_set_keys; [by rewrite IH|].
  by rewrite IH.
Qed.

(** Properties survive their JSON document, whatever order its names are in. *)
Lemma fromJSON_same ps object :
  map_Forall (λ _ p, storable p) ps →
  same_doc (JObject (toJSON_fields ps)) (JObject object) →
  fromJSON object ∅ = Ok tt ps.
Proof.
  intros Hst Hs. inversion Hs as [| | |fs fs' Hperm Hf|]; subst.
  assert (Hmem : ∀ k, k ∈ object.*1 ↔ is_Some (ps !! k)).
  { intros k. rewrite Hperm, toJSON_keys, list_elem_of_fmap. split.
    - intros ([k' p] & -> & H%elem_of_map_to_list). simpl. by rewrite H.
    - intros [p Hp]. exists (k, p). split; [done|]. by apply elem_of_map_to_list. }
  destruct (fromJSON_keys object ps object.*1 ∅) as (acc' & Hrun & Hsub & Hall).
  - apply map_empty_subseteq.
  - intros k [p Hp]%Hmem. pose proof (toJSON_get ps k) as Hg. rewrite Hp in Hg. simpl in Hg.
    destruct (Hf _ _ Hg) as (j' & Hj' & Hsd). unfold getObject. rewrite Hj'.
    inversion Hsd; subst. exists p. eexists. split_and!; try done. by apply (Hst k).
  - unfold fromJSON. rewrite Hrun. f_equal. apply map_eq. intros k.
    destruct (ps !! k) as [p|] eqn:E.
    + rewrite <-E. apply Hall. left. apply Hmem. by rewrite E.
    + destruct (acc' !! k) as [p'|] eqn:E'; [|done].
      pose proof (lookup_weaken _ _ _ _ E' Hsub). congruence.
Qed.

Section Stringified.
Context {JOk : PocoJsonOk J}.

(** A non-null, non-empty value whose text is lossless. *)
Definition codable (p : Property) : Prop :=
  ∃ v, nullable_value p = Some v ∧ v ≠ RBytes [] ∧ plain v.

Lemma codable_storable p : codable p → storable p.
Proof. intros (v & ? & ? & ?). by exists v. Qed.

Lemma all_leaves_obj_set (P : RawValue → Prop) k j fs :
  all_leaves P j → all_leaves P (JObject fs) → all_leaves P (JObject (obj_set k j fs)).
Proof.
  intros Hj. induction fs as [|[k' j'] fs IH]; simpl; [done|].
  intros [? ?]. case_decide; simpl; [done|]. split; [done|]. by apply IH.
Qed.

Lemma toJSON_leaves ps :
  map_Forall (λ _ p, codable p) ps → all_leaves plain (JObject (toJSON_fields ps)).
Proof.
  rewrite map_Forall_to_list. unfold toJSON_fields.
  induction 1 as [|[k p] l (v & Hv & _ & Hpl) _ IH]; [done|]. simpl.
  apply all_leaves_obj_set; [|done]. simpl. rewrite Hv. auto using plain_string.
Qed.

Lemma fromJSON_parse ps :
  map_Forall (λ _ p, codable p) ps →
  ∃ o, parse (stringify (toJSON ps)) = Some (JObject o) ∧ fromJSON o ∅ = Ok tt ps.
Proof.
  intros Hc. destruct (parse_stringify _ (toJSON_leaves ps Hc)) as (o & Hp & Hs).
  exists o. split; [done|]. apply fromJSON_same; [|done].
  eapply map_Forall_impl; [exact Hc|]. auto using codable_storable.
Qed.
End Stringified.
End PropsFacts.
End PropsFacts.

Module PropsStreamFacts.
Import PropsStream.
Section PropsStreamFacts.
Context {J : PocoJson} {JOk : PocoJsonOk J}.

Definition codable_raw (v : RawValue) : Prop := v ≠ RBytes [] ∧ plain v.

Lemma fromJSON_elems vs js s :
  Forall (λ v, v ≠ RBytes []) vs →
  Forall2 same_doc (valueExtractor <$> vs) js →
  for_each fromJSON_one js s = Ok tt (mk (vals s ++ vs) (offset s)).
Proof.
  intros Hne. revert js s. induction Hne as [|v vs Hv _ IH]; intros js s H; simpl in H.
  - apply Forall2_nil_inv_l in H as ->. simpl. rewrite app_nil_r. by destruct s.
  - apply Forall2_cons_inv_l in H as (j & js' & Hj & Hjs & ->). simpl.
    rewrite (bind_ok _ _ _ tt (write v s)).
    + rewrite (IH _ _ Hjs). simpl. by rewrite <-app_assoc.
    + inversion Hj; subst. unfold fromJSON_one.
      by rewrite (bind_ok _ _ _ _ _ (readTyped_same v _ s Hv Hj)).
Qed.

Lemma stream_leaves vs :
  Forall codable_raw vs → all_leaves plain (JObject [("stream", JArray (valueExtractor <$> vs))]).
Proof.
  intros H. simpl. split; [|done].
  induction H as [|v vs [_ Hv] _ IH]; [done|]. simpl. auto using plain_string.
Qed.

(** The values of a stream survive its JSON document; the reading position is
    that of the receiving object. *)
Lemma stream_fromJSON_parse s off :
  Forall codable_raw (vals s) →
  ∃ o, parse (stringify (toJSON s)) = Some (JObject o)
       ∧ fromJSON o (mk [] off) = Ok tt (mk (vals s) off).
Proof.
  intros Hc. destruct (parse_stringify _ (stream_leaves _ Hc)) as (o & Hp & Hs).
  exists o. split; [done|]. inversion Hs as [| | |? ? _ Hf|]; subst.
  destruct (Hf "stream" _ eq_refl) as (j & Hj & Hsj).
  inversion Hsj; subst. unfold fromJSON, getArray. rewrite Hj.
  erewrite fromJSON_elems; [done| |done].
  eapply Forall_impl; [|exact Hc]. intros v Hv. apply Hv.
Qed.
End PropsStreamFacts.
End PropsStreamFacts.

(** *** Reading a stream is typed

    What a client sees of a property stream: the values written, and the values
    that are still to be read; a copied stream has no reading position until it
    is reset. *)
Module StreamReader.
Import PropsStream.

Inductive stream_op : Type :=
  | OWrite (v : RawValue) | ONext (ty : ValueType) | ONextType | OReset | OEof | OEmpty | OClear | OCopy.
Inductive stream_answer : Type :=
  | ADone | AValue (v : RawValue) | ABadCast | AType (ty : ValueType) | ABool (b : bool).

(** One call by a client that goes on after a BadCastException. *)
Definition do_stream_op (o : stream_op) : M t stream_answer :=
  match o with
  | OWrite v => modify (write v) ;; mret ADone
  | ONext ty => catch (v ← nextValue ty; mret (AValue v)) (λ _, mret ABadCast)
  | ONextType => ty ← nextValueType; mret (AType ty)
  | OReset => modify reset ;; mret ADone
  | OEof => b ← eof; mret (ABool b)
  | OEmpty => s ← get; mret (ABool (is_empty s))
  | OClear => modify clear ;; mret ADone
  | OCopy => modify copy ;; mret ADone
  end.

(** The specification: the values written and those still to be read. *)
Definition reader : Type := list RawValue * option (list RawValue).
Definition reader_op (o : stream_op) : M reader stream_answer := λ '(w, rest),
  match o, rest with
  | OWrite v, Some [] => Ok ADone (w ++ [v], Some [])
  | OWrite v, _ => Ok ADone (w ++ [v], (λ r, r ++ [v]) <$> rest)
  | ONext ty, Some (v :: r) =>
      if decide (getValueType v = ty) then Ok (AValue v) (w, Some r) else Ok ABadCast (w, rest)
  | ONext _, _ => UB
  | ONextType, Some (v :: _) => Ok (AType (getValueType v)) (w, rest)
  | ONextType, _ => UB
  | OReset, _ => Ok ADone (w, Some w)
  | OEof, Some r => Ok (ABool (bool_decide (r = []))) (w, rest)
  | OEof, None => UB
  | OEmpty, _ => Ok (ABool (bool_decide (w = []))) (w, rest)
  | OClear, _ => Ok ADone ([], Some [])
  | OCopy, _ => Ok ADone (w, None)
  end.

Fixpoint runs {S} (step : stream_op → M S stream_answer) (os : list stream_op) : M S (list stream_answer) :=
  match os with
  | [] => mret []
  | o :: os => a ← step o; l ← runs step os; mret (a :: l)
  end.

(** The answer to a typed read has the type asked for. *)
Definition answer_typed (o : stream_op) (a : stream_answer) : Prop :=
  match o, a with
  | ONext ty, AValue v => getValueType v = ty
  | ONext _, ABadCast => True
  | ONext _, _ => False
  | _, (AValue _ | ABadCast) => False
  | _, _ => True
  end.

(** A position is a node of the list, its end, or none of its own. *)
Definition wf_stream (s : t) : Prop :=
  match offset s with ItNode i => (i < length (vals s))%nat | _ => True end.
Definition reader_of (s : t) : reader :=
  (vals s, match offset s with ItEnd => Some [] | ItNode i => Some (drop i (vals s)) | ItForeign => None end).

Lemma begin_reader l : reader_of (mk l (begin l)) = (l, Some l) ∧ wf_stream (mk l (begin l)).
Proof. destruct l; [done|]. split; [done|]. unfold wf_stream. simpl. lia. Qed.
Lemma next_reader l i : (i < length l)%nat →
  reader_of (mk l (next_it l i)) = (l, Some (drop (S i) l)) ∧ wf_stream (mk l (next_it l i)).
Proof.
  intros Hi. unfold next_it, reader_of, wf_stream. case_decide as Hd; [done|]. simpl.
  by rewrite drop_ge by lia.
Qed.
Lemma at_node (l : list RawValue) i : (i < length l)%nat → ∃ v, l !! i = Some v ∧ drop i l = v :: drop (S i) l.
Proof. intros [v Hv]%lookup_lt_is_Some. exists v. split; [done|by apply drop_S]. Qed.

(** One call is one call of the specification. *)
Lemma do_stream_op_sim o s : wf_stream s →
  match do_stream_op o s with
  | Ok a s' => reader_op o (reader_of s) = Ok a (reader_of s') ∧ wf_stream s' ∧ answer_typed o a
  | Exn _ _ => False
  | UB => reader_op o (reader_of s) = UB
  end.
Proof.
  destruct s as [l off]. intros Hwf. destruct o as [v|ty| | | | | |]; cbn.
  - destruct off as [|i|]; unfold wf_stream, reader_of in *; simpl in *; [done| |done].
    rewrite length_app. destruct (at_node l i Hwf) as (u & _ & Hu). rewrite drop_app_le by lia. rewrite Hu.
    split; [done|]. split; [lia|done].
  - unfold catch, mbind, M_bind, mret, M_ret, nextValue. destruct off as [|i|]; simpl; [done| |done].
    destruct (at_node l i Hwf) as (u & Hl & Hu). rewrite Hl, Hu. case_decide as Hty.
    + destruct (next_reader l i Hwf) as [-> ?]. by split_and!.
    + unfold reader_of. simpl. rewrite Hu. by split_and!.
  - unfold mbind, M_bind, mret, M_ret, nextValueType. destruct off as [|i|]; simpl; [done| |done].
    destruct (at_node l i Hwf) as (u & Hl & Hu). rewrite Hl, Hu.
    unfold reader_of. simpl. rewrite Hu. by split_and!.
  - unfold reset. simpl. destruct (begin_reader l) as [-> ?]. by split_and!.
  - unfold mbind, M_bind, mret, M_ret, eof. destruct off as [|i|]; simpl; [done| |done].
    destruct (at_node l i Hwf) as (u & _ & Hu).
    unfold reader_of. simpl. rewrite Hu. by split_and!.
  - done.
  - done.
  - done.
Qed.

(** C27. Reading a stream is typed: any sequence of calls on a fresh property stream
    answers what the values written and those still to be read answer. A read gives
    the next value only at the type it was written with, and otherwise throws without
    moving; a value written while others are unread comes after them, one written when
    all are read needs a reset; reading past the end, or in a copy before its reset,
    is undefined, and nothing else is. *)
Theorem stream_reads_typed os :
  match runs do_stream_op os empty_stream with
  | Ok l s' => runs reader_op os ([], Some []) = Ok l (reader_of s') ∧ Forall2 answer_typed os l
  | Exn _ _ => False
  | UB => runs reader_op os ([], Some []) = UB
  end.
Proof.
  change ([], Some []) with (reader_of empty_stream). assert (Hwf : wf_stream empty_stream) by done.
  revert Hwf. generalize empty_stream. induction os as [|o os IH]; intros s Hwf; simpl; [done|].
  pose proof (do_stream_op_sim o s Hwf) as Ho. unfold mbind, M_bind.
  destruct (do_stream_op o s) as [a s1|?|]; [|done|by rewrite Ho].
  destruct Ho as (-> & Hwf1 & Ha). specialize (IH s1 Hwf1).
  destruct (runs do_stream_op os s1) as [l s2|?|]; [|done|by rewrite IH].
  destruct IH as [-> Hl]. split; [done|by constructor].
Qed.
End StreamReader.
