(* ===== verification/Message.v ===== *)
(** Messages (Message.h/.cpp, TextMessage, BytesMessage, MapMessage,
    StreamMessage, ObjectMessage): the data, the binary wire format 0x02 with its
    predecessors, and the per-type bodies.

    A message is a value here; the identity of a message object (who shares it,
    which in-flight chain it is linked into) is the business of Broker.v. *)
From S2P Require Import Prelude Property.
From Stdlib Require Import Lia ZifyBool.

(** Poco::UUID: 16 bytes, with Poco's textual form. *)
Notation UUID := bytes.
Definition nullUUID : UUID := replicate 16 b0.
Class PocoUUID : Type := {
  uuid_toString : UUID → string;
  uuid_parse : string → option UUID   (* None: SyntaxException *)
}.

Inductive MessageType : Type :=
  UNDEFINED | TEXT_MESSAGE | STREAM_MESSAGE | BYTES_MESSAGE | MAP_MESSAGE | OBJECT_MESSAGE.
Definition type_code (t : MessageType) : Z :=
  match t with
  | UNDEFINED => 0 | TEXT_MESSAGE => 1 | STREAM_MESSAGE => 2
  | BYTES_MESSAGE => 3 | MAP_MESSAGE => 4 | OBJECT_MESSAGE => 5
  end.
Inductive Reliability : Type := NOT_PERSISTENT | PERSISTENT.
#[export] Instance Reliability_eq_dec : EqDecision Reliability.
Proof. solve_decision. Defined.

(** Message::Headers; [jmsType] is its field [type]. *)
Record Headers : Type := mkHeaders {
  messageId : string;
  timestamp : Z;
  expiration : Z;
  deliveryTime : Z;
  priority : Z;
  deliveryCount : Z;
  redelivered : bool;
  replyTo : string;
  correlationId : string;
  jmsType : string
}.
Definition set_messageId (x : string) (r : Headers) : Headers := mkHeaders x (timestamp r) (expiration r) (deliveryTime r) (priority r) (deliveryCount r) (redelivered r) (replyTo r) (correlationId r) (jmsType r).
Definition set_timestamp (x : Z) (r : Headers) : Headers := mkHeaders (messageId r) x (expiration r) (deliveryTime r) (priority r) (deliveryCount r) (redelivered r) (replyTo r) (correlationId r) (jmsType r).
Definition set_expiration (x : Z) (r : Headers) : Headers := mkHeaders (messageId r) (timestamp r) x (deliveryTime r) (priority r) (deliveryCount r) (redelivered r) (replyTo r) (correlationId r) (jmsType r).
Definition set_deliveryTime (x : Z) (r : Headers) : Headers := mkHeaders (messageId r) (timestamp r) (expiration r) x (priority r) (deliveryCount r) (redelivered r) (replyTo r) (correlationId r) (jmsType r).
Definition set_priority (x : Z) (r : Headers) : Headers := mkHeaders (messageId r) (timestamp r) (expiration r) (deliveryTime r) x (deliveryCount r) (redelivered r) (replyTo r) (correlationId r) (jmsType r).
Definition set_deliveryCount (x : Z) (r : Headers) : Headers := mkHeaders (messageId r) (timestamp r) (expiration r) (deliveryTime r) (priority r) x (redelivered r) (replyTo r) (correlationId r) (jmsType r).
Definition set_redelivered (x : bool) (r : Headers) : Headers := mkHeaders (messageId r) (timestamp r) (expiration r) (deliveryTime r) (priority r) (deliveryCount r) x (replyTo r) (correlationId r) (jmsType r).
Definition set_replyTo (x : string) (r : Headers) : Headers := mkHeaders (messageId r) (timestamp r) (expiration r) (deliveryTime r) (priority r) (deliveryCount r) (redelivered r) x (correlationId r) (jmsType r).
Definition set_correlationId (x : string) (r : Headers) : Headers := mkHeaders (messageId r) (timestamp r) (expiration r) (deliveryTime r) (priority r) (deliveryCount r) (redelivered r) (replyTo r) x (jmsType r).
Definition set_jmsType (x : string) (r : Headers) : Headers := mkHeaders (messageId r) (timestamp r) (expiration r) (deliveryTime r) (priority r) (deliveryCount r) (redelivered r) (replyTo r) (correlationId r) x.
#[export] Instance Headers_eq_dec : EqDecision Headers.
Proof. solve_decision. Defined.
Definition defaultHeaders : Headers := mkHeaders "" 0 0 0 4 0 false "" "" "".

(** Message::PersistentInfo: (dataPath, propertiesPath) of each stage. *)
Record PersistentInfo : Type := mkPersistentInfo {
  pi_transaction : string * string;
  pi_payload : string * string;
  pi_sent : string * string
}.
#[export] Instance PersistentInfo_eq_dec : EqDecision PersistentInfo.
Proof. solve_decision. Defined.
Definition emptyPersistentInfo : PersistentInfo := mkPersistentInfo ("", "") ("", "") ("", "").

(** The data member of each subclass of Message. *)
Inductive Body : Type :=
  | TextBody (text : string)
  | BytesBody (data : bytes)
  | MapBody (props : Properties)
  | StreamBody (stream : PropsStream.t)
  | ObjectBody (obj : bytes) (className : string).
#[export] Instance Body_eq_dec : EqDecision Body.
Proof. solve_decision. Defined.

Definition body_type (b : Body) : MessageType :=
  match b with
  | TextBody _ => TEXT_MESSAGE
  | BytesBody _ => BYTES_MESSAGE
  | MapBody _ => MAP_MESSAGE
  | StreamBody _ => STREAM_MESSAGE
  | ObjectBody _ _ => OBJECT_MESSAGE
  end.

Record Message : Type := mkMessage {
  number : Z;
  properties : Properties;
  cachedStorageBytes : bytes;
  storageTomId : Z;
  storageOffset : Z;
  pendingDeliveryDelay : Z;
  uuid : UUID;
  reliability : Reliability;
  jmsHeaders : Headers;
  persistentInfo : PersistentInfo;
  body : Body
}.
Definition set_number (x : Z) (r : Message) : Message := mkMessage x (properties r) (cachedStorageBytes r) (storageTomId r) (storageOffset r) (pendingDeliveryDelay r) (uuid r) (reliability r) (jmsHeaders r) (persistentInfo r) (body r).
Definition set_properties (x : Properties) (r : Message) : Message := mkMessage (number r) x (cachedStorageBytes r) (storageTomId r) (storageOffset r) (pendingDeliveryDelay r) (uuid r) (reliability r) (jmsHeaders r) (persistentInfo r) (body r).
Definition set_cachedStorageBytes (x : bytes) (r : Message) : Message := mkMessage (number r) (properties r) x (storageTomId r) (storageOffset r) (pendingDeliveryDelay r) (uuid r) (reliability r) (jmsHeaders r) (persistentInfo r) (body r).
Definition set_storageTomId (x : Z) (r : Message) : Message := mkMessage (number r) (properties r) (cachedStorageBytes r) x (storageOffset r) (pendingDeliveryDelay r) (uuid r) (reliability r) (jmsHeaders r) (persistentInfo r) (body r).
Definition set_storageOffset (x : Z) (r : Message) : Message := mkMessage (number r) (properties r) (cachedStorageBytes r) (storageTomId r) x (pendingDeliveryDelay r) (uuid r) (reliability r) (jmsHeaders r) (persistentInfo r) (body r).
Definition set_pendingDeliveryDelay (x : Z) (r : Message) : Message := mkMessage (number r) (properties r) (cachedStorageBytes r) (storageTomId r) (storageOffset r) x (uuid r) (reliability r) (jmsHeaders r) (persistentInfo r) (body r).
Definition set_uuid (x : UUID) (r : Message) : Message := mkMessage (number r) (properties r) (cachedStorageBytes r) (storageTomId r) (storageOffset r) (pendingDeliveryDelay r) x (reliability r) (jmsHeaders r) (persistentInfo r) (body r).
Definition set_reliability (x : Reliability) (r : Message) : Message := mkMessage (number r) (properties r) (cachedStorageBytes r) (storageTomId r) (storageOffset r) (pendingDeliveryDelay r) (uuid r) x (jmsHeaders r) (persistentInfo r) (body r).
Definition set_jmsHeaders (x : Headers) (r : Message) : Message := mkMessage (number r) (properties r) (cachedStorageBytes r) (storageTomId r) (storageOffset r) (pendingDeliveryDelay r) (uuid r) (reliability r) x (persistentInfo r) (body r).
Definition set_persistentInfo (x : PersistentInfo) (r : Message) : Message := mkMessage (number r) (properties r) (cachedStorageBytes r) (storageTomId r) (storageOffset r) (pendingDeliveryDelay r) (uuid r) (reliability r) (jmsHeaders r) x (body r).
Definition set_body (x : Body) (r : Message) : Message := mkMessage (number r) (properties r) (cachedStorageBytes r) (storageTomId r) (storageOffset r) (pendingDeliveryDelay r) (uuid r) (reliability r) (jmsHeaders r) (persistentInfo r) x.
#[export] Instance Message_eq_dec : EqDecision Message.
Proof. solve_decision. Defined.

Definition upd_hdr (f : Headers → Headers) (m : Message) : Message :=
  set_jmsHeaders (f (jmsHeaders m)) m.

(** Message::setBoolProperty ... setBytesProperty: the value is wrapped in its
    nullable type and handed to Properties::setProperty. *)
Definition setRawProperty (name : string) (v : RawValue) (m : Message) : Message :=
  set_properties (Props.setProperty name (Nullable v) (properties m)) m.

(** The body of a default-constructed message of each subclass. *)
Definition emptyBody (t : MessageType) : Body :=
  match t with
  | BYTES_MESSAGE => BytesBody []
  | MAP_MESSAGE => MapBody ∅
  | STREAM_MESSAGE => StreamBody PropsStream.empty_stream
  | OBJECT_MESSAGE => ObjectBody [] ""
  | TEXT_MESSAGE | UNDEFINED => TextBody ""
  end.

(** A default-constructed message of the subclass with body [b]. *)
Definition newMessage (b : Body) : Message :=
  mkMessage 0 ∅ [] UINT32_MAX 0 0 nullUUID NOT_PERSISTENT defaultHeaders emptyPersistentInfo b.

Definition isPersistent (m : Message) : bool := bool_decide (reliability m = PERSISTENT).
Definition isExpired (nowMs : Z) (m : Message) : bool :=
  negb (expiration (jmsHeaders m) =? 0) && (expiration (jmsHeaders m) <=? nowMs).
Definition message_type (m : Message) : MessageType := body_type (body m).

(** The defaulted copy constructors, through the virtual copy(): every member is
    copied (the in-flight link is not a member of this record), and a
    StreamMessage's reading position stays an iterator into the source. *)
Definition copy_body (b : Body) : Body :=
  match b with StreamBody s => StreamBody (PropsStream.copy s) | _ => b end.
Definition copy (m : Message) : Message := set_body (copy_body (body m)) m.

(** *** The subclasses' bodies *)
Section Bodies.
Context {J : PocoJson}.

(** ObjectMessage::dataAsBytes: [uint32 class length][class name][body]. *)
Definition objectFill (obj name : bytes) : M writer unit :=
  let nameLen := wrapU 32 (Z.of_nat (length name)) in
  _ ← wput (encLE 4 nameLen);
  _ ← when (0 <? nameLen) (wput (take (Z.to_nat nameLen) name));
  when (negb (bool_decide (obj = []))) (wput obj).

Definition objectDataAsBytes (obj : bytes) (className : string) : option bytes :=
  let name := str_bytes className in
  let nameLen := wrapU 32 (Z.of_nat (length name)) in
  match objectFill obj name (replicate (4 + Z.to_nat nameLen + length obj) b0, 0%nat) with
  | Ok _ (out, _) => Some out
  | _ => None
  end.

Definition jsonBytes (empty : bool) (j : json) : bytes := if empty then [] else stringify j.

(** The virtual dataAsBytes(); [None] is an out-of-bounds write. *)
Definition dataAsBytes (b : Body) : option bytes :=
  match b with
  | TextBody text => Some (str_bytes text)
  | BytesBody data => Some data
  | MapBody props => Some (jsonBytes (bool_decide (props = ∅)) (Props.toJSON props))
  | StreamBody s => Some (jsonBytes (PropsStream.is_empty s) (PropsStream.toJSON s))
  | ObjectBody obj className => objectDataAsBytes obj className
  end.

(** parser.parse(s).extract<Object::Ptr>() *)
Definition parseObject {S} (bs : bytes) : M S fields :=
  match parse bs with
  | None => throw PocoJsonException
  | Some (JObject o) => mret o
  | Some _ => throw PocoBadCast
  end.

(** ObjectMessage::setDataFromBytes: (body, class name), both empty when the
    name is truncated. *)
Definition objectFromBytes (bs : bytes) : bytes * string :=
  match slice bs 0 4 with
  | None => ([], "")
  | Some l =>
      let nameLen := decU l in
      if 4 + nameLen >? Z.of_nat (length bs) then ([], "")
      else let n := Z.to_nat nameLen in
           (drop (4 + n) bs, bytes_str (take n (drop 4 bs)))
  end.

(** The virtual setDataFromBytes(). TextMessage reads &bytes[0]. *)
Definition setDataFromBytes (bs : bytes) : M Body unit := λ b,
  match b with
  | TextBody _ => match bs with [] => UB | _ => Ok tt (TextBody (bytes_str bs)) end
  | BytesBody _ => Ok tt (BytesBody bs)
  | MapBody _ =>
      match bs with
      | [] => Ok tt (MapBody ∅)
      | _ =>
          match parseObject bs tt with
          | Ok o _ =>
              match Props.fromJSON o ∅ with
              | Ok _ ps => Ok tt (MapBody ps)
              | Exn e ps => Exn e (MapBody ps)
              | UB => UB
              end
          | Exn e _ => Exn e (MapBody ∅)
          | UB => UB
          end
      end
  | StreamBody s =>
      let s0 := PropsStream.clear s in
      match bs with
      | [] => Ok tt (StreamBody s0)
      | _ =>
          match parseObject bs tt with
          | Ok o _ =>
              match PropsStream.fromJSON o s0 with
              | Ok _ s1 => Ok tt (StreamBody s1)
              | Exn e s1 => Exn e (StreamBody s1)
              | UB => UB
              end
          | Exn e _ => Exn e (StreamBody s0)
          | UB => UB
          end
      end
  | ObjectBody _ _ => let '(o, c) := objectFromBytes bs in Ok tt (ObjectBody o c)
  end.

Definition clearData (b : Body) : Body :=
  match b with
  | TextBody _ => TextBody ""
  | BytesBody _ => BytesBody []
  | MapBody _ => MapBody ∅
  | StreamBody s => StreamBody (PropsStream.clear s)
  | ObjectBody _ _ => ObjectBody [] ""
  end.

(** BytesMessage::writeBytes. When the body is shorter than offset + size the
    code calls reserve, which does not change the size, and then stores
    through operator[] past it. *)
Definition writeBytes (data : bytes) (offset : nat) (src : bytes) : option bytes :=
  let dataSize := (offset + length src)%nat in
  let vec := if decide (data = []) then replicate dataSize b0 else data in
  if decide (length vec < dataSize)%nat then None else blit vec offset src.

(** BytesMessage::readBytes: the span [begin + offset, size). *)
Definition readBytes (data : bytes) (offset size : nat) : option bytes := slice data offset size.
End Bodies.

(** *** The wire format *)
Section Wire.
Context {J : PocoJson}.

Definition writeString (s : string) : M writer unit :=
  let bs := str_bytes s in
  let len := wrapU 32 (Z.of_nat (length bs)) in
  _ ← wput (encLE 4 len);
  when (0 <? len) (wput (take (Z.to_nat len) bs)).

(** [None] is the function returning false: the record is truncated. *)
Definition readString {S} (bs : bytes) (off : nat) : M S (option (string * nat)) :=
  if decide (length bs < off + 4)%nat then mret None
  else
    l ← require (slice bs off 4);
    let len := decU l in
    let off := (off + 4)%nat in
    if Z.of_nat off + len >? Z.of_nat (length bs) then mret None
    else
      s ← require (slice bs off (Z.to_nat len));
      mret (Some (bytes_str s, (off + Z.to_nat len)%nat)).

Definition kFixed : nat := 1 + 8 + 16 + 1.
Definition kHdrNums : nat := 8 * 3 + 4 * 2 + 1.

Definition reliability_code (r : Reliability) : Z :=
  match r with NOT_PERSISTENT => 0 | PERSISTENT => 1 end.
Definition bool_code (b : bool) : Z := if b then 1 else 0.

Definition propsJson (m : Message) : bytes :=
  if decide (properties m = ∅) then [] else stringify (Props.toJSON (properties m)).

Definition toBytes_fill (m : Message) (props data : bytes) : M writer unit :=
  let h := jmsHeaders m in
  let propsLen := wrapU 32 (Z.of_nat (length props)) in
  _ ← wput [byte.of_Z 2];
  _ ← wput (encLE 8 (number m));
  _ ← wput (uuid m);
  _ ← wput [byte.of_Z (reliability_code (reliability m))];
  _ ← wput (encLE 8 (timestamp h));
  _ ← wput (encLE 8 (expiration h));
  _ ← wput (encLE 8 (deliveryTime h));
  _ ← wput (encLE 4 (priority h));
  _ ← wput (encLE 4 (deliveryCount h));
  _ ← wput [byte.of_Z (bool_code (redelivered h))];
  _ ← writeString (messageId h);
  _ ← writeString (replyTo h);
  _ ← writeString (correlationId h);
  _ ← writeString (jmsType h);
  _ ← wput (encLE 4 propsLen);
  _ ← when (0 <? propsLen) (wput (take (Z.to_nat propsLen) props));
  when (negb (bool_decide (data = []))) (wput data).

(** The size of the result vector. *)
Definition toBytes_size (m : Message) (props data : bytes) : nat :=
  let h := jmsHeaders m in
  kFixed + kHdrNums
  + (4 * 4 + length (str_bytes (messageId h)) + length (str_bytes (replyTo h))
     + length (str_bytes (correlationId h)) + length (str_bytes (jmsType h)))
  + 4 + Z.to_nat (wrapU 32 (Z.of_nat (length props))) + length data.

(** Message::toBytes; [None] is an out-of-bounds write. *)
Definition toBytes (m : Message) : option bytes :=
  data ← dataAsBytes (body m);
  let props := propsJson m in
  match toBytes_fill m props data (replicate (toBytes_size m props data) b0, 0%nat) with
  | Ok _ (result, _) => Some result
  | _ => None
  end.

(** *** Reading it back *)
Definition upd (f : Message → Message) : M Message unit := modify f.
Definition updH (f : Headers → Headers) : M Message unit := modify (upd_hdr f).
Definition rd (bs : bytes) (off n : nat) : M Message bytes := require (slice bs off n).

(** Runs an operation of a member object. *)
Definition with_properties (m : M Properties unit) : M Message unit := λ s,
  match m (properties s) with
  | Ok a p => Ok a (set_properties p s)
  | Exn e p => Exn e (set_properties p s)
  | UB => UB
  end.
Definition with_body (m : M Body unit) : M Message unit := λ s,
  match m (body s) with
  | Ok a b => Ok a (set_body b s)
  | Exn e b => Exn e (set_body b s)
  | UB => UB
  end.

(** The numeric part of the 0x02 header block, at [off]. *)
Definition readHeaderNums (bs : bytes) (off : nat) : M Message unit :=
  t ← rd bs off 8; _ ← updH (set_timestamp (decS t));
  e ← rd bs (off + 8) 8; _ ← updH (set_expiration (decS e));
  d ← rd bs (off + 16) 8; _ ← updH (set_deliveryTime (decS d));
  p ← rd bs (off + 24) 4; _ ← updH (set_priority (decS p));
  c ← rd bs (off + 28) 4; _ ← updH (set_deliveryCount (decS c));
  r ← rd bs (off + 32) 1; updH (set_redelivered (negb (decU r =? 0))).

(** A header string: [k] continues at the new offset, truncation returns. *)
Definition readHeaderString (bs : bytes) (off : nat) (f : string → Headers → Headers)
    (k : nat → M Message unit) : M Message unit :=
  r ← readString bs off;
  match r with
  | None => mret tt
  | Some (s, off') => _ ← updH (f s); k off'
  end.

(** From the properties' length field to the end of the record. *)
Definition readTail (bs : bytes) (off : nat) : M Message unit :=
  if decide (length bs < off + 4)%nat then mret tt
  else
    l ← rd bs off 4;
    let propsLen := decU l in
    let off := (off + 4)%nat in
    off ← (if (0 <? propsLen) && (Z.of_nat off + propsLen <=? Z.of_nat (length bs)) then
             pj ← rd bs off (Z.to_nat propsLen);
             o ← parseObject pj;
             _ ← with_properties (Props.fromJSON o);
             mret (off + Z.to_nat propsLen)%nat
           else mret off);
    if decide (off < length bs)%nat then with_body (setDataFromBytes (drop off bs)) else mret tt.

(** The 0x01 and 0x02 formats. *)
Definition fromBytes_binary (magic : Z) (bs : bytes) : M Message unit :=
  if decide (length bs < kFixed)%nat then mret tt
  else
    n ← rd bs 1 8; _ ← upd (set_number (decS n));
    u ← rd bs 9 16; _ ← upd (set_uuid u);
    r ← rd bs 25 1;
    _ ← upd (set_reliability (if decU r =? 0 then NOT_PERSISTENT else PERSISTENT));
    if decide (magic = 2) then
      if decide (length bs < 26 + kHdrNums)%nat then mret tt
      else
        _ ← readHeaderNums bs 26;
        readHeaderString bs (26 + kHdrNums) set_messageId (λ off,
        readHeaderString bs off set_replyTo (λ off,
        readHeaderString bs off set_correlationId (λ off,
        readHeaderString bs off set_jmsType (λ off,
        readTail bs off))))
    else
      _ ← upd (set_jmsHeaders defaultHeaders);
      readTail bs 26.
End Wire.

Section Legacy.
Context {J : PocoJson} {U : PocoUUID}.

Definition getObj (k : string) (o : fields) : M Message fields :=
  match getObject k o with Some f => mret f | None => throw PocoJsonException end.
Definition getPaths (o : fields) : M Message (string * string) :=
  d ← getString "dataPath" o; p ← getString "propertiesPath" o; mret (d, p).

Definition updPI (f : PersistentInfo → PersistentInfo) : M Message unit :=
  modify (λ m, set_persistentInfo (f (persistentInfo m)) m).

(** Message::setPropertiesFromBytes: the JSON header of pre-0x01 records. A
    missing object is a null Ptr, whose dereference throws. *)
Definition setPropertiesFromBytes (bs : bytes) : M Message unit :=
  _ ← upd (set_properties ∅);
  match bs with
  | [] => mret tt
  | _ =>
      object ← parseObject bs;
      n ← getValue LONG_TYPE "number" object;
      _ ← (match n with RLong z => upd (set_number z) | _ => throw PocoJsonException end);
      us ← getString "uuid" object;
      _ ← (match uuid_parse us with Some u => upd (set_uuid u) | None => throw (PocoRuntime "UUID") end);
      rel ← getString "reliability" object;
      _ ← upd (set_reliability (if decide (rel = "PERSISTENT") then PERSISTENT else NOT_PERSISTENT));
      persistInfo ← getObj "persistentInfo" object;
      payloadInfo ← getObj "payload" persistInfo;
      pp ← getPaths payloadInfo;
      _ ← updPI (λ pi, mkPersistentInfo (pi_transaction pi) pp (pi_sent pi));
      sentInfo ← getObj "sent" persistInfo;
      sp ← getPaths sentInfo;
      _ ← updPI (λ pi, mkPersistentInfo (pi_transaction pi) (pi_payload pi) sp);
      transactionInfo ← getObj "transaction" persistInfo;
      tp ← getPaths transactionInfo;
      _ ← updPI (λ pi, mkPersistentInfo tp (pi_payload pi) (pi_sent pi));
      props ← getObj "properties" object;
      with_properties (Props.fromJSON props)
  end.

Definition pathsJSON (p : string * string) : json :=
  JObject [("dataPath", JVar (RString p.1)); ("propertiesPath", JVar (RString p.2))].

Definition propertiesToJSON (m : Message) : json :=
  JObject [("properties", Props.toJSON (properties m));
           ("number", JVar (RLong (number m)));
           ("uuid", JVar (RString (uuid_toString (uuid m))));
           ("reliability", JVar (RString (match reliability m with
                                          | NOT_PERSISTENT => "NOT_PERSISTENT"
                                          | PERSISTENT => "PERSISTENT" end)));
           ("persistentInfo",
             JObject [("transaction", pathsJSON (pi_transaction (persistentInfo m)));
                      ("payload", pathsJSON (pi_payload (persistentInfo m)));
                      ("sent", pathsJSON (pi_sent (persistentInfo m)))])].

Definition propertiesAsBytes (m : Message) : bytes :=
  if decide (properties m = ∅) then [] else stringify (propertiesToJSON m).

(** Records older than 0x01: [uint64 size][JSON header][data]. A vector of
    more than PTRDIFF_MAX elements throws length_error. *)
Definition fromBytes_legacy (bs : bytes) : M Message unit :=
  if decide (length bs < 8)%nat then mret tt
  else
    l ← rd bs 0 8;
    let propsSize := decU l in
    if INT64_MAX <? propsSize then throw StdLengthError
    else
      let total := Z.of_nat (length bs) in
      props ← (if (0 <? propsSize) && (8 + propsSize <=? total)
               then rd bs 8 (Z.to_nat propsSize)
               else mret (replicate (Z.to_nat propsSize) b0));
      _ ← setPropertiesFromBytes props;
      if 8 + propsSize <? total
      then with_body (setDataFromBytes (drop (8 + Z.to_nat propsSize) bs)) else mret tt.

Definition fromBytes (bs : bytes) : M Message unit :=
  match bs with
  | [] => mret tt
  | b :: _ =>
      let magic := byte.unsigned b in
      if decide (magic = 1 ∨ magic = 2) then fromBytes_binary magic bs else fromBytes_legacy bs
  end.
End Legacy.
