(* ===== verification/JsonInstance.v ===== *)
(** An instance of the JSON and UUID interfaces on which the theorems that assume
    them are evaluated: documents are written as the little-endian bytes of an
    injective numbering, leaves keep their C++ type. *)
From Stdlib Require Import SpecFloat.
From S2P Require Import Prelude Property Message.
From Stdlib Require Import Lia ZifyBool.

#[export] Program Instance spec_float_countable : Countable spec_float :=
  inj_countable'
    (λ x, match x with
          | S754_zero s => inl (inl s) | S754_infinity s => inl (inr s)
          | S754_nan => inr (inl tt) | S754_finite s m e => inr (inr (s, m, e)) end)
    (λ x : (bool + bool) + (unit + bool * positive * Z), match x with
          | inl (inl s) => S754_zero s | inl (inr s) => S754_infinity s
          | inr (inl _) => S754_nan | inr (inr (s, m, e)) => S754_finite s m e end) _.
Next Obligation. by intros []. Qed.

#[export] Instance RawValue_countable : Countable RawValue.
Proof.
  refine (inj_countable'
    (λ v, match v with
          | RBool b => (0, encode b) | RByte z => (1, encode z) | RChar c => (2, encode c)
          | RShort z => (3, encode z) | RInt z => (4, encode z) | RLong z => (5, encode z)
          | RDouble d => (6, encode d) | RFloat d => (7, encode d) | RString s => (8, encode s)
          | RBytes bs => (9, encode bs) end)
    (λ x : Z * positive, let p := x.2 in
       match x.1 with
       | 0 => from_option RBool (RInt 0) (decode p)
       | 1 => from_option RByte (RInt 0) (decode p)
       | 2 => from_option RChar (RInt 0) (decode p)
       | 3 => from_option RShort (RInt 0) (decode p)
       | 4 => from_option RInt (RInt 0) (decode p)
       | 5 => from_option RLong (RInt 0) (decode p)
       | 6 => from_option RDouble (RInt 0) (decode p)
       | 7 => from_option RFloat (RInt 0) (decode p)
       | 8 => from_option RString (RInt 0) (decode p)
       | _ => from_option RBytes (RInt 0) (decode p)
       end) _).
  intros []; cbn -[encode decode]; by rewrite decode_encode.
Defined.

Definition leaf : Type := RawValue + string.
Fixpoint to_tree (j : json) : gen_tree leaf :=
  match j with
  | JVar v => GenLeaf (inl v)
  | JNull => GenNode 0 []
  | JObject fs => GenNode 1 (map (λ kj, GenNode 3 [GenLeaf (inr kj.1); to_tree kj.2]) fs)
  | JArray js => GenNode 2 (map to_tree js)
  end.
Definition of_field (f : gen_tree leaf → json) (t : gen_tree leaf) : string * json :=
  match t with GenNode _ [GenLeaf (inr k); t'] => (k, f t') | _ => ("", JNull) end.
Fixpoint of_tree (t : gen_tree leaf) : json :=
  match t with
  | GenLeaf (inl v) => JVar v
  | GenNode 1 ts => JObject (map (of_field of_tree) ts)
  | GenNode 2 ts => JArray (map of_tree ts)
  | _ => JNull
  end.

Lemma of_to_tree j : of_tree (to_tree j) = j.
Proof.
  revert j. fix IH 1. intros [v| |fs|js]; simpl; [done|done| |]; f_equal.
  - induction fs as [|[k j] fs IHfs]; simpl; [done|]. by rewrite IH, IHfs.
  - induction js as [|j js IHjs]; simpl; [done|]. by rewrite IH, IHjs.
Qed.

#[export] Instance json_eq_dec : EqDecision json.
Proof.
  intros j1 j2. destruct (decide (to_tree j1 = to_tree j2)) as [H|H].
  - left. by rewrite <-(of_to_tree j1), H, of_to_tree.
  - right. congruence.
Defined.
#[export] Instance json_countable : Countable json := inj_countable' to_tree of_tree of_to_tree.

Definition json_bytes (j : json) : bytes :=
  let z := Z.pos (encode j) in le_split (Z.to_nat (Z.log2 z / 8 + 1)) z.
Definition bytes_json (bs : bytes) : option json := decode (Z.to_pos (le_combine bs)).

#[local] Instance tree_json : PocoJson := {|
  stringify := json_bytes;
  parse := bytes_json;
  convert t j := match j with
                 | JVar v => if decide (getValueType v = t) then Some v else None
                 | _ => None
                 end
|}.

Lemma bytes_json_bytes j : bytes_json (json_bytes j) = Some j.
Proof.
  unfold bytes_json, json_bytes. rewrite le_combine_split, Z.mod_small; [by rewrite Pos2Z.id, decode_encode|].
  set (z := Z.pos (encode j)). pose proof (Z.log2_spec z eq_refl) as [_ Hu].
  split; [done|]. eapply Z.lt_le_trans; [exact Hu|].
  apply Z.pow_le_mono_r; [done|]. pose proof (Z.log2_nonneg z).
  pose proof (Z.mul_succ_div_gt (Z.log2 z) 8 ltac:(done)).
  rewrite Z2Nat.id by (apply Z.add_nonneg_nonneg; [by apply Z.div_pos|done]). lia.
Qed.

Lemma obj_get_leaves P k j fs :
  obj_get k fs = Some j → all_leaves P (JObject fs) → all_leaves P j.
Proof.
  induction fs as [|[k' j'] fs IH]; simpl; [done|]. case_decide.
  - by intros [= ->] [? ?].
  - intros ? [? ?]. by apply IH.
Qed.

Lemma same_doc_refl j : all_leaves (λ v, getValueType v ≠ BYTE_ARRAY_TYPE) j → same_doc j j.
Proof.
  revert j. fix IH 1. intros [v| |fs|js] H; simpl in H.
  - constructor; [done|done|]. simpl. by rewrite decide_True.
  - constructor.
  - constructor; [done|]. induction fs as [|[k' j'] fs IHfs]; [done|]. simpl in *.
    destruct H as [Hj Hfs]. specialize (IHfs Hfs). intros k j. case_decide.
    + intros [= <-]. exists j'. split; [done|]. by apply IH.
    + apply IHfs.
  - constructor. induction js as [|j js IHjs]; [constructor|]. simpl in H. destruct H.
    constructor; [by apply IH|by apply IHjs].
Qed.

#[local] Program Instance tree_json_ok : PocoJsonOk tree_json := {|
  plain v := getValueType v ≠ BYTE_ARRAY_TYPE
|}.
Next Obligation. done. Qed.
Next Obligation.
  intros j H%(f_equal length). simpl in H. unfold json_bytes in H. rewrite length_le_split in H.
  set (l := Z.log2 (Z.pos (encode j))) in H. pose proof (Z.log2_nonneg (Z.pos (encode j))).
  assert (0 <= l / 8) by (apply Z.div_pos; [done|lia]). lia.
Qed.
Next Obligation.
  intros fs H. exists fs. split; [apply bytes_json_bytes|]. by apply same_doc_refl.
Qed.

#[local] Instance raw_uuid : PocoUUID := {|
  uuid_toString := bytes_str;
  uuid_parse s := Some (str_bytes s)
|}.
