(* ===== verification/MessageFacts.v ===== *)
(** What the wire format and the message bodies guarantee: serialisation stays
    inside its buffer and lays the fields out back to back, parsing inverts it,
    and a truncated or foreign record never reads out of bounds. *)
From S2P Require Import Prelude Property Message JsonInstance.
From Stdlib Require Import Lia ZifyBool.

(** *** Abstract layout *)
Definition encString (s : string) : bytes :=
  let bs := str_bytes s in
  let len := wrapU 32 (Z.of_nat (length bs)) in
  encLE 4 len ++ (if 0 <? len then take (Z.to_nat len) bs else []).

Definition encNums (h : Headers) : bytes :=
  encLE 8 (timestamp h) ++ encLE 8 (expiration h) ++ encLE 8 (deliveryTime h)
  ++ encLE 4 (priority h) ++ encLE 4 (deliveryCount h)
  ++ [byte.of_Z (bool_code (redelivered h))].

Definition encFixed (m : Message) : bytes :=
  [byte.of_Z 2] ++ encLE 8 (number m) ++ uuid m ++ [byte.of_Z (reliability_code (reliability m))].

Definition encTail (props data : bytes) : bytes :=
  let propsLen := wrapU 32 (Z.of_nat (length props)) in
  encLE 4 propsLen ++ (if 0 <? propsLen then take (Z.to_nat propsLen) props else []) ++ data.

Definition encStrings (h : Headers) : bytes :=
  encString (messageId h) ++ encString (replyTo h) ++ encString (correlationId h)
  ++ encString (jmsType h).

(** The 0x02 record of [m] with the given properties document and payload. *)
Definition wireOf (m : Message) (props data : bytes) : bytes :=
  encFixed m ++ encNums (jmsHeaders m) ++ encStrings (jmsHeaders m) ++ encTail props data.

(** A string the uint32 length field can describe. *)
Definition short (s : string) : Prop := inU 32 (Z.of_nat (length (str_bytes s))).

Record wf_headers (h : Headers) : Prop := {
  wf_timestamp : inS 64 (timestamp h);
  wf_expiration : inS 64 (expiration h);
  wf_deliveryTime : inS 64 (deliveryTime h);
  wf_priority : inS 32 (priority h);
  wf_deliveryCount : inS 32 (deliveryCount h);
  wf_messageId : short (messageId h);
  wf_replyTo : short (replyTo h);
  wf_correlationId : short (correlationId h);
  wf_jmsType : short (jmsType h)
}.

(** The ranges the C++ types of the members impose (strings below 4 GiB). *)
Record wf_message (m : Message) : Prop := {
  wf_number : inS 64 (number m);
  wf_uuid : length (uuid m) = 16%nat;
  wf_hdr : wf_headers (jmsHeaders m)
}.

#[export] Hint Resolve wf_timestamp wf_expiration wf_deliveryTime wf_priority wf_deliveryCount
  wf_messageId wf_replyTo wf_correlationId wf_jmsType wf_number wf_uuid wf_hdr : tmq.

(** *** Serialisation *)
Section Serialise.
Context {J : PocoJson}.

Lemma fills_writeString s : fills (writeString s) (encString s).
Proof. unfold writeString, encString. auto with tmq. Qed.

Lemma fills_when_data (data : bytes) :
  fills (when (negb (bool_decide (data = []))) (wput data)) data.
Proof.
  case_bool_decide; simpl.
  - subst. apply fills_ret.
  - apply fills_wput.
Qed.

Ltac fill_step :=
  match goal with
  | |- fills (mbind _ _) _ => simple apply fills_bind
  | |- fills (wput _) _ => simple apply fills_wput
  | |- fills (writeString _) _ => simple apply fills_writeString
  | |- fills (when (negb _) (wput _)) _ => simple apply fills_when_data
  | |- fills (when _ (wput _)) _ => simple apply fills_when; simple apply fills_wput
  end.

Lemma fills_toBytes m props data : fills (toBytes_fill m props data) (wireOf m props data).
Proof.
  unfold toBytes_fill, wireOf, encFixed, encNums, encStrings, encTail.
  rewrite <-!app_assoc.
  repeat fill_step.
Qed.

Lemma length_take_wrap (bs : bytes) :
  Nat.le (length (if 0 <? wrapU 32 (Z.of_nat (length bs))
                  then take (Z.to_nat (wrapU 32 (Z.of_nat (length bs)))) bs else []))
         (length bs).
Proof. case_match; rewrite ?length_take; simpl; lia. Qed.

Lemma take_wrap_short (bs : bytes) :
  inU 32 (Z.of_nat (length bs)) →
  (if 0 <? wrapU 32 (Z.of_nat (length bs))
   then take (Z.to_nat (wrapU 32 (Z.of_nat (length bs)))) bs else []) = bs.
Proof.
  intros H. rewrite wrapU_id by done. rewrite Nat2Z.id, firstn_all.
  destruct bs; [done|]. rewrite length_cons.
  by destruct (0 <? _) eqn:?; [|exfalso; lia].
Qed.

Lemma length_encString s : (length (encString s) <= 4 + length (str_bytes s))%nat.
Proof.
  unfold encString. rewrite length_app, length_encLE.
  pose proof (length_take_wrap (str_bytes s)). lia.
Qed.

Lemma encString_short s :
  short s → encString s = encLE 4 (Z.of_nat (length (str_bytes s))) ++ str_bytes s.
Proof. intros H. unfold encString. by rewrite take_wrap_short, wrapU_id. Qed.

Lemma length_encNums h : length (encNums h) = kHdrNums.
Proof. unfold encNums. by rewrite !length_app, !length_encLE. Qed.

Lemma length_encFixed m : length (uuid m) = 16%nat → length (encFixed m) = kFixed.
Proof. intros H. unfold encFixed. by rewrite !length_app, length_encLE, H. Qed.

Lemma wireOf_fits m props data :
  length (uuid m) = 16%nat → (length (wireOf m props data) <= toBytes_size m props data)%nat.
Proof.
  intros H. unfold wireOf, encStrings, encTail, toBytes_size.
  rewrite !length_app, length_encFixed, length_encNums, length_encLE by done.
  pose proof (length_encString (messageId (jmsHeaders m))).
  pose proof (length_encString (replyTo (jmsHeaders m))).
  pose proof (length_encString (correlationId (jmsHeaders m))).
  pose proof (length_encString (jmsType (jmsHeaders m))).
  case_match; rewrite ?length_take, ?length_nil; unfold kFixed, kHdrNums; lia.
Qed.

Lemma wireOf_exact m props data :
  wf_message m → inU 32 (Z.of_nat (length props)) →
  length (wireOf m props data) = toBytes_size m props data.
Proof.
  intros [Hn Hu Hh] Hp. destruct Hh.
  unfold wireOf, encStrings, encTail, toBytes_size.
  rewrite !encString_short by done. rewrite take_wrap_short, wrapU_id, Nat2Z.id by done.
  rewrite !length_app, length_encFixed, length_encNums, !length_encLE by done. lia.
Qed.

(** The buffer of toBytes in general: the layout, then zeros if a string was
    too long for its length field. *)
Lemma toBytes_eq m data :
  length (uuid m) = 16%nat → dataAsBytes (body m) = Some data →
  toBytes m = Some (wireOf m (propsJson m) data
    ++ replicate (toBytes_size m (propsJson m) data - length (wireOf m (propsJson m) data)) b0).
Proof.
  intros Hu Hd. unfold toBytes. rewrite Hd. cbn [mbind option_bind].
  by rewrite (fills_run _ _ _ (fills_toBytes m (propsJson m) data)) by (by apply wireOf_fits).
Qed.

Lemma toBytes_wire m data :
  wf_message m → inU 32 (Z.of_nat (length (propsJson m))) → dataAsBytes (body m) = Some data →
  toBytes m = Some (wireOf m (propsJson m) data).
Proof.
  intros Hm Hp Hd. rewrite (toBytes_eq m data) by eauto with tmq.
  by rewrite wireOf_exact, Nat.sub_diag, app_nil_r.
Qed.

(** *** The ObjectMessage body *)
Lemma fills_objectFill obj className :
  fills (objectFill obj (str_bytes className)) (encString className ++ obj).
Proof. unfold objectFill, encString. rewrite <-app_assoc. repeat fill_step. Qed.

Lemma length_encString_wrap s :
  length (encString s) = (4 + Z.to_nat (wrapU 32 (Z.of_nat (length (str_bytes s)))))%nat.
Proof.
  unfold encString. set (l := wrapU 32 _).
  assert (0 <= l) by (apply Z.mod_pos_bound; lia).
  assert (l <= Z.of_nat (length (str_bytes s))) by (apply Z.mod_le; lia).
  rewrite length_app, length_encLE. case_match; rewrite ?length_take, ?length_nil; lia.
Qed.

Lemma objectDataAsBytes_eq obj className :
  objectDataAsBytes obj className = Some (encString className ++ obj).
Proof.
  unfold objectDataAsBytes.
  rewrite <-length_encString_wrap, <-length_app.
  rewrite (fills_run _ _ _ (fills_objectFill obj className)) by lia.
  by rewrite Nat.sub_diag, app_nil_r.
Qed.

Lemma dataAsBytes_defined b : ∃ data, dataAsBytes b = Some data.
Proof. destruct b; simpl; rewrite ?objectDataAsBytes_eq; eauto. Qed.
End Serialise.

(** *** Parsing *)
Section Parse.
Context {J : PocoJson} {U : PocoUUID}.

Lemma rd_bind {B} bs off n mid post (f : bytes → M Message B) s :
  cursor bs off (mid ++ post) → n = length mid → (rd bs off n ≫= f) s = f mid s.
Proof. intros Hc ->. unfold rd. by rewrite (cursor_slice _ _ _ _ _ Hc eq_refl). Qed.

Lemma updH_bind {B} f (g : unit → M Message B) s : (updH f ≫= g) s = g tt (upd_hdr f s).
Proof. done. Qed.
Lemma upd_bind {B} f (g : unit → M Message B) s : (upd f ≫= g) s = g tt (f s).
Proof. done. Qed.

Definition setNums (h h' : Headers) : Headers :=
  set_redelivered (redelivered h) (set_deliveryCount (deliveryCount h)
    (set_priority (priority h) (set_deliveryTime (deliveryTime h)
      (set_expiration (expiration h) (set_timestamp (timestamp h) h'))))).

Lemma decU_byte b : decU [b] = byte.unsigned b.
Proof. apply le_combine_1. Qed.

Lemma bool_code_byte b : negb (decU [byte.of_Z (bool_code b)] =? 0) = b.
Proof. by destruct b. Qed.

Lemma readHeaderNums_ok bs off h post m :
  wf_headers h → cursor bs off (encNums h ++ post) →
  readHeaderNums bs off m = Ok tt (upd_hdr (setNums h) m).
Proof.
  intros Hh H0. unfold encNums in H0. rewrite <-!app_assoc in H0.
  epose proof (cursor_next _ _ (off + 8) _ _ H0 eq_refl) as H1.
  epose proof (cursor_next _ _ (off + 16) _ _ H1 ltac:(rewrite length_encLE; lia)) as H2.
  epose proof (cursor_next _ _ (off + 24) _ _ H2 ltac:(rewrite length_encLE; lia)) as H3.
  epose proof (cursor_next _ _ (off + 28) _ _ H3 ltac:(rewrite length_encLE; lia)) as H4.
  epose proof (cursor_next _ _ (off + 32) _ _ H4 ltac:(rewrite length_encLE; lia)) as H5.
  unfold readHeaderNums.
  rewrite (rd_bind _ _ _ _ _ _ _ H0), updH_bind by done.
  rewrite (rd_bind _ _ _ _ _ _ _ H1), updH_bind by done.
  rewrite (rd_bind _ _ _ _ _ _ _ H2), updH_bind by done.
  rewrite (rd_bind _ _ _ _ _ _ _ H3), updH_bind by done.
  rewrite (rd_bind _ _ _ _ _ _ _ H4), updH_bind by done.
  rewrite (rd_bind _ _ _ _ _ _ _ H5) by done.
  rewrite !decS_encLE, bool_code_byte by (first [lia | simpl; eauto with tmq]). done.
Qed.

Lemma length_enc_short s :
  short s → length (encString s) = (4 + length (str_bytes s))%nat.
Proof. intros H. by rewrite encString_short, length_app, length_encLE. Qed.

Lemma readString_ok {S} bs off s post (st : S) :
  short s → cursor bs off (encString s ++ post) →
  readString bs off st = Ok (Some (s, (off + length (encString s))%nat)) st.
Proof.
  intros Hs Hc. rewrite length_enc_short by done.
  pose proof (cursor_length _ _ _ Hc) as Hl.
  rewrite encString_short, <-app_assoc in Hc by done.
  rewrite length_app, length_enc_short in Hl by done.
  unfold readString. rewrite decide_False by lia.
  rewrite (cursor_slice _ _ _ _ _ Hc) by (by rewrite length_encLE).
  mrun. rewrite decU_encLE by apply Hs.
  destruct (_ >? _) eqn:E; [exfalso; lia|].
  rewrite (cursor_slice bs _ _ (str_bytes s) post).
  - by rewrite bytes_str_bytes, Nat2Z.id, Nat.add_assoc.
  - by eapply cursor_next; [exact Hc|rewrite length_encLE].
  - by rewrite Nat2Z.id.
Qed.

Lemma readHeaderString_ok bs off s post f k m :
  short s → cursor bs off (encString s ++ post) →
  readHeaderString bs off f k m = k (off + length (encString s))%nat (upd_hdr (f s) m).
Proof.
  intros Hs Hc. unfold readHeaderString, mbind, M_bind.
  by rewrite (readString_ok _ _ _ _ m Hs Hc).
Qed.

(** What parsing the properties document does to the properties [ps]. *)
Definition parseProps (props : bytes) (ps : Properties) : res Properties unit :=
  match props with
  | [] => Ok tt ps
  | _ => match parseObject props tt with
         | Ok o _ => Props.fromJSON o ps
         | Exn e _ => Exn e ps
         | UB => UB
         end
  end.

Lemma parseObject_state {S} bs (s : S) :
  parseObject bs s = match parseObject bs tt with
                     | Ok o _ => Ok o s | Exn e _ => Exn e s | UB => UB end.
Proof. unfold parseObject. by destruct (parse bs) as [[]|]. Qed.

Lemma readTail_ok bs off props data m ps b :
  inU 32 (Z.of_nat (length props)) → cursor bs off (encTail props data) →
  parseProps props (properties m) = Ok tt ps →
  (if decide (data = []) then Ok tt (body m) else setDataFromBytes data (body m)) = Ok tt b →
  readTail bs off m = Ok tt (set_body b (set_properties ps m)).
Proof.
  intros Hp Hc Hps Hb. unfold encTail in Hc.
  rewrite take_wrap_short, wrapU_id in Hc by done.
  pose proof (cursor_length _ _ _ Hc) as Hl.
  rewrite !length_app, length_encLE in Hl.
  epose proof (cursor_next _ _ (off + 4) _ _ Hc ltac:(by rewrite length_encLE)) as H1.
  epose proof (cursor_next _ _ (off + 4 + length props) _ _ H1 ltac:(done)) as H2.
  unfold readTail. rewrite decide_False by lia.
  rewrite (rd_bind _ _ _ _ _ _ _ Hc), decU_encLE by (done || by rewrite length_encLE).
  assert (Htail : ∀ m', properties m' = ps → body m' = body m →
    (if decide (off + 4 + length props < length bs)%nat
     then with_body (setDataFromBytes (drop (off + 4 + length props) bs)) else mret tt) m'
    = Ok tt (set_body b m')).
  { intros m' _ Hbm. rewrite (cursor_drop _ _ _ H2).
    destruct (decide (data = [])) as [->|Hd].
    - simpl in Hl. rewrite decide_False by lia. simplify_eq. by destruct m'; simplify_eq/=.
    - assert (0 < length data)%nat by (destruct data; simpl; [done|lia]).
      rewrite decide_True by lia. unfold with_body. by rewrite Hbm, Hb. }
  destruct props as [|p0 props'].
  - simpl in Hps. simplify_eq. destruct (_ && _) eqn:E; [exfalso; simpl in E; lia|]. clear E.
    rewrite bind_ret. simpl in Htail. rewrite Nat.add_0_r in Htail.
    rewrite Htail by done. by destruct m.
  - set (props := p0 :: props') in *.
    assert (0 < length props)%nat by (simpl; lia).
    destruct (_ && _) eqn:E; [|exfalso; lia]. clear E.
    unfold parseProps in Hps. fold props in Hps. simpl in Hps.
    unfold mbind at 1, M_bind at 1. rewrite Nat2Z.id.
    rewrite (rd_bind _ _ _ _ _ _ _ H1) by done.
    unfold mbind at 1, M_bind at 1. rewrite parseObject_state.
    destruct (parseObject props tt) as [o ?| |]; [|done..].
    unfold mbind at 1, M_bind at 1, with_properties at 1. rewrite Hps.
    unfold mret at 1, M_ret at 1. by rewrite Htail.
Qed.

(** The receiving object [m0] after a record of [m]. *)
Definition received (m m0 : Message) (ps : Properties) (b : Body) : Message :=
  mkMessage (number m) ps (cachedStorageBytes m0) (storageTomId m0) (storageOffset m0)
    (pendingDeliveryDelay m0) (uuid m) (reliability m) (jmsHeaders m) (persistentInfo m0) b.

Lemma reliability_byte r :
  (if decU [byte.of_Z (reliability_code r)] =? 0 then NOT_PERSISTENT else PERSISTENT) = r.
Proof. by destruct r. Qed.

Lemma fromBytes_wire m m0 props data ps b :
  wf_message m → inU 32 (Z.of_nat (length props)) →
  parseProps props (properties m0) = Ok tt ps →
  (if decide (data = []) then Ok tt (body m0) else setDataFromBytes data (body m0)) = Ok tt b →
  fromBytes (wireOf m props data) m0 = Ok tt (received m m0 ps b).
Proof.
  intros Hm Hp Hps Hb. set (bs := wireOf m props data).
  pose proof (wf_uuid m Hm) as Hu. destruct (wf_hdr m Hm) as [_ _ _ _ _ Hs1 Hs2 Hs3 Hs4].
  pose proof (cursor_start bs) as C0. unfold bs at 2 in C0. unfold wireOf, encFixed in C0.
  rewrite <-!app_assoc in C0.
  epose proof (cursor_next _ _ 1 _ _ C0 eq_refl) as C1.
  epose proof (cursor_next _ _ 9 _ _ C1 ltac:(by rewrite length_encLE)) as C9.
  epose proof (cursor_next _ _ 25 _ _ C9 ltac:(by rewrite Hu)) as C25.
  epose proof (cursor_next _ _ 26 _ _ C25 eq_refl) as C26.
  epose proof (cursor_next _ _ (26 + kHdrNums) _ _ C26 ltac:(by rewrite length_encNums)) as C59.
  pose proof (cursor_length _ _ _ C26) as Hl. rewrite length_app, length_encNums in Hl.
  unfold encStrings in C59. rewrite <-!app_assoc in C59.
  epose proof (cursor_next _ _ _ _ _ C59 eq_refl) as D1.
  epose proof (cursor_next _ _ _ _ _ D1 eq_refl) as D2.
  epose proof (cursor_next _ _ _ _ _ D2 eq_refl) as D3.
  epose proof (cursor_next _ _ _ _ _ D3 eq_refl) as D4.
  change (fromBytes bs) with (fromBytes_binary 2 bs).
  unfold fromBytes_binary. rewrite decide_False by (unfold kFixed; lia).
  rewrite (rd_bind _ _ _ _ _ _ _ C1), upd_bind by (by rewrite length_encLE).
  rewrite (rd_bind _ _ _ _ _ _ _ C9), upd_bind by done.
  rewrite (rd_bind _ _ _ _ _ _ _ C25), upd_bind by done.
  rewrite decide_True, decide_False, reliability_byte, decS_encLE
    by first [done | lia | simpl; eauto with tmq].
  erewrite bind_ok by (apply (readHeaderNums_ok _ _ _ _ _ (wf_hdr m Hm) C26)).
  rewrite (readHeaderString_ok _ _ _ _ _ _ _ Hs1 C59), (readHeaderString_ok _ _ _ _ _ _ _ Hs2 D1),
    (readHeaderString_ok _ _ _ _ _ _ _ Hs3 D2), (readHeaderString_ok _ _ _ _ _ _ _ Hs4 D3).
  rewrite (readTail_ok _ _ _ _ _ ps b Hp D4) by done.
  unfold received. destruct m as [? ? ? ? ? ? ? ? [] ? ?]. done.
Qed.
End Parse.

(** *** No record makes the parser read out of bounds *)
Section Defined.
Context {J : PocoJson} {U : PocoUUID}.

Lemma defined_rd bs off n : (off + n <= length bs)%nat → defined (rd bs off n).
Proof. intros. by apply defined_require, slice_defined. Qed.

Lemma defined_convert {S} t j : defined (convert_or_throw t j : M S RawValue).
Proof. unfold convert_or_throw. case_match; auto with tmq. Qed.

Lemma defined_getString {S} k o : defined (getString k o : M S string).
Proof.
  apply defined_bind; [apply defined_convert|]. intros []; auto with tmq.
Qed.

Lemma defined_getBytes {S} arr : defined (getBytes arr : M S bytes).
Proof.
  induction arr as [|j arr IH]; simpl; [auto with tmq|].
  apply defined_bind; [apply defined_convert|]. intros []; auto with tmq.
Qed.

Lemma defined_readTyped {S} o : defined (readTyped o : M S (option RawValue)).
Proof.
  apply defined_bind; [apply defined_getString|]. intros tn.
  destruct (getValueTypeFromString tn); auto with tmq;
    try (apply defined_bind; [apply defined_convert|auto with tmq]).
  case_match; [|auto with tmq]. apply defined_bind; [apply defined_getBytes|].
  intros []; auto with tmq.
Qed.

Lemma defined_fromJSON o : defined (Props.fromJSON o).
Proof.
  apply defined_for_each. intros k. unfold Props.fromJSON_one. case_match; [|auto with tmq].
  apply defined_bind; [apply defined_readTyped|]. intros []; auto with tmq.
Qed.

Lemma defined_stream_fromJSON o : defined (PropsStream.fromJSON o).
Proof.
  unfold PropsStream.fromJSON. case_match; [|auto with tmq].
  apply defined_for_each. intros []; simpl; auto with tmq.
  apply defined_bind; [apply defined_readTyped|]. intros []; auto with tmq.
Qed.

Lemma defined_parseObject {S} bs : defined (parseObject bs : M S fields).
Proof. unfold parseObject. repeat case_match; auto with tmq. Qed.

Lemma defined_setData bs : bs ≠ [] → defined (setDataFromBytes bs).
Proof.
  intros Hne b. unfold setDataFromBytes. destruct b as [| |ps|st|]; try done.
  - by destruct bs.
  - destruct bs; [done|]. set (bs' := _ :: _).
    pose proof (defined_parseObject bs' tt). destruct (parseObject bs' tt) as [o ?| |]; try done.
    pose proof (defined_fromJSON o ∅). by destruct (Props.fromJSON o ∅).
  - destruct bs; [done|]. set (bs' := _ :: _).
    pose proof (defined_parseObject bs' tt). destruct (parseObject bs' tt) as [o ?| |]; try done.
    pose proof (defined_stream_fromJSON o (PropsStream.clear st)).
    by destruct (PropsStream.fromJSON o _).
  - by destruct (objectFromBytes bs).
Qed.

Lemma defined_with_properties m : defined m → defined (with_properties m).
Proof. intros H s. unfold with_properties. specialize (H (properties s)). by destruct (m _). Qed.
Lemma defined_with_body m : defined m → defined (with_body m).
Proof. intros H s. unfold with_body. specialize (H (body s)). by destruct (m _). Qed.

Lemma defined_body_rest bs off :
  defined (if decide (off < length bs)%nat then with_body (setDataFromBytes (drop off bs)) else mret tt).
Proof.
  case_decide as Hlt; [|auto with tmq]. apply defined_with_body, defined_setData.
  intros H%(f_equal length). rewrite length_drop in H. simpl in H. lia.
Qed.

Lemma defined_readTail bs off : defined (readTail bs off).
Proof.
  unfold readTail. case_decide; [auto with tmq|].
  apply defined_bind; [apply defined_rd; lia|]. intros l.
  apply defined_bind; [|intros off'; apply defined_body_rest].
  destruct (_ && _) eqn:E; [|auto with tmq].
  apply defined_bind; [apply defined_rd; lia|]. intros pj.
  apply defined_bind; [apply defined_parseObject|]. intros o.
  apply defined_bind; [apply defined_with_properties, defined_fromJSON|]. auto with tmq.
Qed.

Lemma defined_readString {S} bs off : defined (readString bs off : M S (option (string * nat))).
Proof.
  unfold readString. case_decide; [auto with tmq|].
  apply defined_bind; [apply defined_require, slice_defined; lia|]. intros l.
  destruct (_ >? _) eqn:E; [auto with tmq|].
  apply defined_bind; [|auto with tmq]. apply defined_require, slice_defined.
  pose proof (le_combine_bound l). unfold decU in *. lia.
Qed.

Lemma defined_readHeaderString bs off f k :
  (∀ off', defined (k off')) → defined (readHeaderString bs off f k).
Proof.
  intros Hk. apply defined_bind; [apply defined_readString|].
  intros [[s off']|]; [|auto with tmq]. apply defined_bind; [done|auto].
Qed.

Lemma defined_readHeaderNums bs off :
  (off + kHdrNums <= length bs)%nat → defined (readHeaderNums bs off).
Proof.
  unfold kHdrNums, readHeaderNums. intros H.
  repeat (apply defined_bind; [first [apply defined_rd; lia | done]|]; intros ?). done.
Qed.

Lemma defined_binary magic bs : defined (fromBytes_binary magic bs).
Proof.
  unfold fromBytes_binary, kFixed. case_decide; [auto with tmq|].
  do 5 (apply defined_bind; [first [apply defined_rd; lia | done]|]; intros ?).
  apply defined_bind; [done|]. intros ?.
  case_decide.
  - case_decide; [auto with tmq|]. apply defined_bind; [apply defined_readHeaderNums; lia|].
    intros _. do 4 (apply defined_readHeaderString; intros ?). apply defined_readTail.
  - apply defined_bind; [done|]. intros _. apply defined_readTail.
Qed.

Lemma defined_getObj k o : defined (getObj k o).
Proof. unfold getObj. case_match; auto with tmq. Qed.
Lemma defined_getPaths o : defined (getPaths o).
Proof.
  apply defined_bind; [apply defined_getString|]. intros.
  apply defined_bind; [apply defined_getString|]. auto with tmq.
Qed.

Lemma defined_setPropertiesFromBytes bs : defined (setPropertiesFromBytes bs).
Proof.
  apply defined_bind; [done|]. intros _. destruct bs; [auto with tmq|].
  repeat (apply defined_bind;
    [first [apply defined_parseObject | apply defined_convert | apply defined_getString
           | apply defined_getObj | apply defined_getPaths | done
           | case_match; auto with tmq; done]|]; intros ?).
  apply defined_with_properties, defined_fromJSON.
Qed.

Lemma defined_legacy bs : defined (fromBytes_legacy bs).
Proof.
  unfold fromBytes_legacy. case_decide; [auto with tmq|].
  apply defined_bind; [apply defined_rd; lia|]. intros l.
  destruct (_ <? _); [auto with tmq|].
  apply defined_bind.
  { destruct (_ && _) eqn:E; [apply defined_rd; lia|auto with tmq]. }
  intros props. apply defined_bind; [apply defined_setPropertiesFromBytes|]. intros _.
  pose proof (le_combine_bound l). unfold decU.
  destruct (_ <? _) eqn:E; [|auto with tmq]. apply defined_with_body, defined_setData.
  intros He%(f_equal length). rewrite length_drop in He. simpl in He. lia.
Qed.
End Defined.

(** *** Round trip *)
Section RoundTrip.
Context {J : PocoJson} {JOk : PocoJsonOk J} {U : PocoUUID}.

Definition codable_body (b : Body) : Prop :=
  match b with
  | TextBody _ | BytesBody _ => True
  | MapBody ps => map_Forall (λ _ p, PropsFacts.codable p) ps
  | StreamBody s => Forall PropsStreamFacts.codable_raw (PropsStream.vals s)
  | ObjectBody _ c => short c
  end.

(** What a transmitted body is: a stream arrives with its reading position at
    the end of the list it was read into. *)
Definition arrived_body (b : Body) : Body :=
  match b with
  | StreamBody s => StreamBody (PropsStream.mk (PropsStream.vals s) PropsStream.ItEnd)
  | _ => b
  end.

Definition arrived (m : Message) : Message :=
  mkMessage (number m) (properties m) [] UINT32_MAX 0 0 (uuid m) (reliability m)
    (jmsHeaders m) emptyPersistentInfo (arrived_body (body m)).

Lemma str_bytes_nil s : str_bytes s = [] → s = "".
Proof. intros H. by rewrite <-(bytes_str_bytes s), H. Qed.

Lemma objectFromBytes_eq obj c :
  short c → objectFromBytes (encString c ++ obj) = (obj, c).
Proof.
  intros Hc. rewrite encString_short by done. unfold objectFromBytes.
  set (l := encLE 4 _). assert (Hl : length l = 4%nat) by apply length_encLE.
  assert (Hd : decU l = Z.of_nat (length (str_bytes c))) by (apply decU_encLE, Hc).
  rewrite <-!app_assoc. pose proof (cursor_start (l ++ str_bytes c ++ obj)) as C0.
  rewrite (cursor_slice _ _ _ _ _ C0), Hd by done. cbv zeta.
  destruct (_ >? _) eqn:E; [exfalso; rewrite !length_app, Hl in E; lia|].
  epose proof (cursor_next _ _ 4 _ _ C0 ltac:(by rewrite Hl)) as C4.
  epose proof (cursor_next _ _ _ _ _ C4 eq_refl) as C5.
  by rewrite Nat2Z.id, (cursor_drop _ _ _ C4), take_app_length, bytes_str_bytes,
    (cursor_drop _ _ _ C5).
Qed.

Lemma body_roundtrip b :
  codable_body b → ∃ data, dataAsBytes b = Some data ∧
    (if decide (data = []) then Ok tt (emptyBody (body_type b))
     else setDataFromBytes data (emptyBody (body_type b))) = Ok tt (arrived_body b).
Proof.
  intros Hb. destruct (dataAsBytes_defined b) as [data Hd]. exists data. split; [done|].
  destruct b as [s|d|ps|st|o c]; simpl in *.
  - simplify_eq. case_decide as Hn; [by rewrite (str_bytes_nil s Hn)|].
    destruct (str_bytes s) as [|b0' bs'] eqn:E; [done|].
    by rewrite <-E, bytes_str_bytes.
  - simplify_eq. by case_decide; subst.
  - simplify_eq. unfold jsonBytes. case_bool_decide as He; [subst; by rewrite decide_True|].
    destruct (PropsFacts.fromJSON_parse ps Hb) as (o & Hp & Hr).
    pose proof (stringify_nonempty (Props.toJSON ps)) as Hne. rewrite decide_False by done.
    destruct (stringify _) as [|x xs]; [done|].
    unfold parseObject. rewrite Hp. simpl. by rewrite Hr.
  - simplify_eq. unfold jsonBytes, PropsStream.is_empty.
    case_bool_decide as He; [rewrite decide_True by done; by rewrite He|].
    destruct (PropsStreamFacts.stream_fromJSON_parse st PropsStream.ItEnd Hb) as (o & Hp & Hr).
    pose proof (stringify_nonempty (PropsStream.toJSON st)) as Hne. rewrite decide_False by done.
    destruct (stringify _) as [|x xs]; [done|].
    unfold parseObject. rewrite Hp. simpl. unfold PropsStream.clear. simpl. by rewrite Hr.
  - rewrite objectDataAsBytes_eq in Hd. simplify_eq.
    rewrite decide_False.
    + by rewrite (objectFromBytes_eq o c Hb).
    + intros H%(f_equal length). rewrite length_app, length_enc_short in H by done. simpl in H. lia.
Qed.

Lemma props_roundtrip m :
  map_Forall (λ _ p, PropsFacts.codable p) (properties m) →
  parseProps (propsJson m) ∅ = Ok tt (properties m).
Proof.
  intros Hc. unfold propsJson. case_decide as He; [by rewrite He|].
  destruct (PropsFacts.fromJSON_parse _ Hc) as (o & Hp & Hr).
  pose proof (stringify_nonempty (Props.toJSON (properties m))).
  unfold parseProps. destruct (stringify _) as [|x xs] eqn:E; [done|].
  unfold parseObject. rewrite Hp. done.
Qed.

(** A message whose record can be read back. *)
Record codable_message (m : Message) : Prop := {
  cm_wf : wf_message m;
  cm_props : map_Forall (λ _ p, PropsFacts.codable p) (properties m);
  cm_size : inU 32 (Z.of_nat (length (propsJson m)));
  cm_body : codable_body (body m)
}.

Lemma roundtrip_core m :
  codable_message m → ∃ bs, toBytes m = Some bs ∧
    fromBytes bs (newMessage (emptyBody (message_type m))) = Ok tt (arrived m).
Proof.
  intros [Hwf Hps Hsz Hb]. destruct (body_roundtrip (body m) Hb) as (data & Hd & Hrb).
  exists (wireOf m (propsJson m) data). split; [by apply toBytes_wire|].
  by rewrite (fromBytes_wire m _ _ _ (properties m) (arrived_body (body m)))
    by (done || by apply props_roundtrip).
Qed.

(** C1. parsing a serialised message into a fresh object of its type gives back
    the number, uuid, reliability, all ten JMS headers, the properties and the
    body, for every message type. *)
Theorem message_roundtrip m :
  codable_message m → ∃ bs, toBytes m = Some bs ∧
    fromBytes bs (newMessage (emptyBody (message_type m))) = Ok tt (arrived m).
Proof. apply roundtrip_core. Qed.
End RoundTrip.

(** C25. whatever bytes a record holds (truncated, foreign or corrupt, in any of
    the three formats), parsing it never reads out of bounds: it returns or
    throws. *)
Theorem fromBytes_defined {J : PocoJson} {U : PocoUUID} bs m : fromBytes bs m ≠ UB.
Proof.
  destruct bs as [|b bs']; [done|]. unfold fromBytes. case_decide.
  - apply defined_binary.
  - apply defined_legacy.
Qed.

(** C26. serialisation never writes outside the buffer it sized, whatever the
    lengths of the strings, and fills it exactly when they fit their length
    fields. *)
Theorem toBytes_defined {J : PocoJson} m :
  length (uuid m) = 16%nat →
  ∃ data bs, dataAsBytes (body m) = Some data ∧ toBytes m = Some bs ∧
    length bs = toBytes_size m (propsJson m) data ∧
    (wf_message m → inU 32 (Z.of_nat (length (propsJson m))) →
     bs = wireOf m (propsJson m) data).
Proof.
  intros Hu. destruct (dataAsBytes_defined (body m)) as [data Hd].
  exists data. eexists. split; [done|]. split; [by apply toBytes_eq|]. split.
  - pose proof (wireOf_fits m (propsJson m) data Hu).
    rewrite length_app, length_replicate. lia.
  - intros Hwf Hp. by rewrite wireOf_exact, Nat.sub_diag, app_nil_r.
Qed.

(** *** Witnesses *)
#[local] Existing Instances tree_json tree_json_ok raw_uuid.

Definition sampleHeaders : Headers :=
  mkHeaders "ID:1" 1700000000000 1700000001000 0 7 2 true "queue://r" "corr" "t".
Definition sampleMessage : Message :=
  mkMessage 42 {["a" := PInt (Some 7)]} [] UINT32_MAX 0 0 (replicate 16 (Byte.x01)) PERSISTENT
    sampleHeaders emptyPersistentInfo (MapBody {["k" := PString (Some "v")]}).

Lemma sampleMessage_wf : wf_message sampleMessage.
Proof.
  split; [by apply (bool_decide_unpack _); vm_compute|done|].
  split; by apply (bool_decide_unpack _); vm_compute.
Qed.

Lemma sampleMessage_codable : codable_message (J := tree_json) sampleMessage.
Proof.
  split.
  - apply sampleMessage_wf.
  - apply map_Forall_singleton. by exists (RInt 7).
  - by apply (bool_decide_unpack _); vm_compute.
  - apply map_Forall_singleton. by exists (RString "v").
Qed.

Lemma message_roundtrip_witness :
  ∃ bs, toBytes (J := tree_json) sampleMessage = Some bs ∧
    fromBytes bs (newMessage (emptyBody MAP_MESSAGE)) = Ok tt (arrived sampleMessage).
Proof. exact (message_roundtrip sampleMessage sampleMessage_codable). Defined.

Lemma toBytes_defined_witness :
  length (uuid sampleMessage) = 16%nat ∧
  ∃ data bs, dataAsBytes (J := tree_json) (body sampleMessage) = Some data
    ∧ toBytes (J := tree_json) sampleMessage = Some bs
    ∧ length bs = toBytes_size sampleMessage (propsJson (J := tree_json) sampleMessage) data
    ∧ (wf_message sampleMessage →
       inU 32 (Z.of_nat (length (propsJson (J := tree_json) sampleMessage))) →
       bs = wireOf sampleMessage (propsJson (J := tree_json) sampleMessage) data).
Proof. split; [reflexivity|]. exact (toBytes_defined (J := tree_json) sampleMessage eq_refl). Defined.
