(* ===== verification/StorageRecord.v ===== *)
(** The storage record of a message, [type byte][0x02 payload], and everything
    that reads or patches it at a fixed offset without parsing it: the delivery
    time patches of Message.cpp and TransactionBuffer.cpp, the priority and
    delivery time extraction of the replay in Destination.cpp, and the expiration
    test of the sweep in ConcurrentLinearStorage.cpp. *)
From S2P Require Import Prelude Property Message JsonInstance MessageFacts.
From Stdlib Require Import Lia ZifyBool.

(** Message.h: 10 years in ms. *)
Definition kMaxFutureHeaderMs : Z := 315360000000.

Section Record.
Context {J : PocoJson}.

(** [type byte][toBytes()], as preparePush, refreshCachedStorageBytes,
    persistToOfflineSub and deadLetter build it. *)
Definition storageBytes (m : Message) : option bytes :=
  payload ← toBytes m; Some (byte.of_Z (type_code (message_type m)) :: payload).

(** Message::refreshCachedStorageBytes *)
Definition refreshCachedStorageBytes (m : Message) : option Message :=
  if isPersistent m then
    data ← storageBytes m; Some (set_cachedStorageBytes data m)
  else Some m.
End Record.

(** The byte at index 1 of a record long enough to have one. *)
Definition magic_is_2 (data : bytes) : bool :=
  match data !! 1%nat with Some b => byte.unsigned b =? 2 | None => false end.

Definition kDeliveryTimeOffset : nat := 1 + 1 + 8 + 16 + 1 + 8 + 8.
Definition kDeliveryTimeSize : nat := 8.

(** TransactionBuffer.cpp, patchDeliveryTimeInBytes *)
Definition patchDeliveryTimeInBytes (deliveryTime : Z) (data : bytes) : bytes :=
  if decide (length data < kDeliveryTimeOffset + kDeliveryTimeSize)%nat then data
  else if negb (magic_is_2 data) then data
  else default data (blit data kDeliveryTimeOffset (encLE 8 deliveryTime)).

(** Message::patchCachedDeliveryTime *)
Definition patchCachedDeliveryTime (deliveryTime : Z) (m : Message) : Message :=
  let data := cachedStorageBytes m in
  if decide (length data < kDeliveryTimeOffset + kDeliveryTimeSize)%nat then m
  else if negb (magic_is_2 data) then m
  else match blit data kDeliveryTimeOffset (encLE 8 deliveryTime) with
       | Some data' => set_cachedStorageBytes data' m
       | None => m
       end.

(** Destination.cpp, priorityFromStorageBytes *)
Definition clamp (lo hi x : Z) : Z := if x <? lo then lo else if hi <? x then hi else x.
Definition priorityFromStorageBytes (data : bytes) : Z :=
  let kOffset := (1 + 1 + 8 + 16 + 1 + 8 + 8 + 8)%nat in
  if decide (length data < kOffset + 4)%nat then 4
  else if negb (magic_is_2 data) then 4
  else clamp 0 9 (from_option decS 4 (slice data kOffset 4)).

(** Destination.cpp, deliveryTimeFromStorageBytes, at wall-clock time [now]. *)
Definition deliveryTimeFromStorageBytes (now : Z) (data : bytes) : Z :=
  if decide (length data < kDeliveryTimeOffset + kDeliveryTimeSize)%nat then 0
  else if negb (magic_is_2 data) then 0
  else
    let deliveryTime := from_option decS 0 (slice data kDeliveryTimeOffset 8) in
    if (deliveryTime <? 0) || (now + kMaxFutureHeaderMs <? deliveryTime) then 0 else deliveryTime.

(** Destination.cpp, makeMessageShell; [None] is the null pointer. *)
Definition makeMessageShell (code : Z) : option Message :=
  match code with
  | 1 => Some (newMessage (emptyBody TEXT_MESSAGE))
  | 3 => Some (newMessage (emptyBody BYTES_MESSAGE))
  | 4 => Some (newMessage (emptyBody MAP_MESSAGE))
  | 2 => Some (newMessage (emptyBody STREAM_MESSAGE))
  | 5 => Some (newMessage (emptyBody OBJECT_MESSAGE))
  | _ => None
  end.

(** ConcurrentLinearStorage::sweepExpired, the test on a record's prefix. *)
Definition kExpirationOffset : nat := 1 + 1 + 8 + 16 + 1 + 8.
Definition kPrefixLen : nat := kExpirationOffset + 8.
Definition sweep_expired (nowMs : Z) (prefix : bytes) : bool :=
  if decide (length prefix < kPrefixLen)%nat then false
  else if negb (magic_is_2 prefix) then false
  else
    let expiration := from_option decS 0 (slice prefix kExpirationOffset 8) in
    negb (expiration =? 0) && (expiration <=? nowMs).

(** What has expired stays so. *)
Lemma sweep_expired_mono prefix now now' :
  now <= now' → sweep_expired now prefix = true → sweep_expired now' prefix = true.
Proof. unfold sweep_expired. intros. repeat case_match; try done. lia. Qed.

(** *** The fields sit where the offsets say *)
Section Offsets.
Context {J : PocoJson}.

(** A record split at the header block. *)
Definition record (t : Byte.byte) (m : Message) (rest : bytes) : bytes :=
  t :: encFixed m ++ encNums (jmsHeaders m) ++ rest.

Lemma storageBytes_record m :
  length (uuid m) = 16%nat →
  ∃ rest, storageBytes m = Some (record (byte.of_Z (type_code (message_type m))) m rest).
Proof.
  intros Hu. destruct (dataAsBytes_defined (body m)) as [data Hd].
  unfold storageBytes. rewrite (toBytes_eq m data Hu Hd). cbn [mbind option_bind].
  eexists. unfold record, wireOf. by rewrite <-!app_assoc.
Qed.

Context (t : Byte.byte) (m : Message) (rest : bytes) (Hu : length (uuid m) = 16%nat).
Let rec := record t m rest.

Lemma record_magic : magic_is_2 rec = true.
Proof. done. Qed.

Lemma record_cursor : cursor rec 27 (encNums (jmsHeaders m) ++ rest).
Proof.
  exists (t :: encFixed m). split; [done|]. by rewrite length_cons, length_encFixed.
Qed.

Lemma record_expiration : slice rec 35 8 = Some (encLE 8 (expiration (jmsHeaders m))).
Proof.
  pose proof record_cursor as C. unfold encNums in C. rewrite <-!app_assoc in C.
  epose proof (cursor_next _ _ 35 _ _ C ltac:(by rewrite length_encLE)) as C1.
  by rewrite (cursor_slice _ _ _ _ _ C1) by (by rewrite length_encLE).
Qed.

Lemma record_deliveryTime_cursor :
  cursor rec 43 (encLE 8 (deliveryTime (jmsHeaders m)) ++ encLE 4 (priority (jmsHeaders m))
    ++ encLE 4 (deliveryCount (jmsHeaders m))
    ++ [byte.of_Z (bool_code (redelivered (jmsHeaders m)))] ++ rest).
Proof.
  pose proof record_cursor as C. unfold encNums in C. rewrite <-!app_assoc in C.
  epose proof (cursor_next _ _ 35 _ _ C ltac:(by rewrite length_encLE)) as C1.
  epose proof (cursor_next _ _ 43 _ _ C1 ltac:(by rewrite length_encLE)) as C2.
  exact C2.
Qed.

Lemma record_priority : slice rec 51 4 = Some (encLE 4 (priority (jmsHeaders m))).
Proof.
  epose proof (cursor_next _ _ 51 _ _ record_deliveryTime_cursor
    ltac:(by rewrite length_encLE)) as C1.
  by rewrite (cursor_slice _ _ _ _ _ C1) by (by rewrite length_encLE).
Qed.

Lemma record_long : (60 <= length rec)%nat.
Proof.
  rewrite (cursor_length _ _ _ record_cursor), length_app, length_encNums.
  unfold kHdrNums. lia.
Qed.

Lemma patch_record dt :
  blit rec 43 (encLE 8 dt) = Some (record t (upd_hdr (set_deliveryTime dt) m) rest).
Proof.
  destruct record_deliveryTime_cursor as (pre & Hpre & Hlen).
  rewrite Hpre, Hlen. rewrite (blit_app pre (encLE 8 _)) by (by rewrite !length_encLE).
  f_equal. assert (pre = take 43 rec) as -> by (rewrite Hpre, Hlen; by rewrite take_app_length).
  unfold rec, record, encNums. change (encFixed (upd_hdr _ m)) with (encFixed m).
  simpl jmsHeaders. rewrite <-!app_assoc.
  rewrite (app_assoc (encFixed m)), (app_assoc (_ ++ _)), !app_comm_cons.
  rewrite take_app_length'.
  - by rewrite <-!app_assoc.
  - by rewrite !length_app, length_cons, length_encFixed, !length_encLE.
Qed.
End Offsets.

(** *** Patches and extractors agree with the serialiser *)
Section Agreement.
Context {J : PocoJson}.

Lemma patch_in_record t m rest dt :
  length (uuid m) = 16%nat →
  patchDeliveryTimeInBytes dt (record t m rest) = record t (upd_hdr (set_deliveryTime dt) m) rest.
Proof.
  intros Hu. unfold patchDeliveryTimeInBytes, kDeliveryTimeOffset, kDeliveryTimeSize.
  pose proof (record_long t m rest Hu). rewrite decide_False by lia.
  rewrite record_magic. cbn [negb]. by rewrite (patch_record t m rest Hu).
Qed.

(** The tail of a record does not depend on the delivery time. *)
Lemma storageBytes_set_deliveryTime m dt :
  length (uuid m) = 16%nat →
  storageBytes (upd_hdr (set_deliveryTime dt) m)
  = patchDeliveryTimeInBytes dt <$> storageBytes m.
Proof.
  intros Hu. destruct (dataAsBytes_defined (body m)) as [data Hd].
  unfold storageBytes. rewrite (toBytes_eq m data Hu Hd).
  rewrite (toBytes_eq (upd_hdr _ m) data Hu Hd). cbn [mbind option_bind fmap option_fmap option_map].
  f_equal. unfold wireOf. rewrite <-!app_assoc.
  set (z := replicate _ _). set (z' := replicate _ _).
  assert (z' = z) as ->.
  { unfold z, z', wireOf. f_equal. f_equal. by rewrite !length_app, !length_encNums. }
  etrans; [|symmetry; apply (patch_in_record (byte.of_Z (type_code (message_type m))) m _ dt Hu)].
  done.
Qed.

Lemma priority_in_record t m rest :
  length (uuid m) = 16%nat → inS 32 (priority (jmsHeaders m)) →
  priorityFromStorageBytes (record t m rest) = clamp 0 9 (priority (jmsHeaders m)).
Proof.
  intros Hu Hp. unfold priorityFromStorageBytes.
  pose proof (record_long t m rest Hu). rewrite decide_False by lia.
  rewrite record_magic. cbn [negb].
  change (1 + 1 + 8 + 16 + 1 + 8 + 8 + 8)%nat with 51%nat.
  rewrite (record_priority t m rest Hu). cbn [from_option].
  by rewrite decS_encLE by (lia || done).
Qed.

Lemma deliveryTime_in_record t m rest now :
  length (uuid m) = 16%nat → inS 64 (deliveryTime (jmsHeaders m)) →
  deliveryTimeFromStorageBytes now (record t m rest)
  = (let d := deliveryTime (jmsHeaders m) in
     if (d <? 0) || (now + kMaxFutureHeaderMs <? d) then 0 else d).
Proof.
  intros Hu Hp. unfold deliveryTimeFromStorageBytes, kDeliveryTimeOffset, kDeliveryTimeSize.
  pose proof (record_long t m rest Hu). rewrite decide_False by lia.
  rewrite record_magic. cbn [negb].
  change (1 + 1 + 8 + 16 + 1 + 8 + 8)%nat with 43%nat.
  rewrite (cursor_slice _ _ _ _ _ (record_deliveryTime_cursor t m rest Hu))
    by (by rewrite length_encLE).
  cbn [from_option]. by rewrite decS_encLE by (lia || done).
Qed.

(** The prefix scanPrefix hands to the sweep. *)
Lemma expired_in_record t m rest now :
  length (uuid m) = 16%nat → inS 64 (expiration (jmsHeaders m)) →
  sweep_expired now (take kPrefixLen (record t m rest)) = isExpired now m.
Proof.
  intros Hu Hp. pose proof (record_long t m rest Hu) as Hl.
  unfold sweep_expired. change kPrefixLen with 43%nat. change kExpirationOffset with 35%nat.
  rewrite decide_False by (rewrite length_take; lia).
  assert (magic_is_2 (take 43 (record t m rest)) = true) as -> by done.
  cbn [negb].
  assert (slice (take 43 (record t m rest)) 35 8 = slice (record t m rest) 35 8) as Hs.
  { unfold slice. rewrite length_take. rewrite !decide_True by lia.
    change 43%nat with (35 + 8)%nat. by rewrite <-firstn_skipn_comm, take_take. }
  rewrite Hs, (record_expiration t m rest Hu). cbn [from_option].
  by rewrite decS_encLE by (lia || done).
Qed.
End Agreement.

(** C24. patching the delivery time inside a stored record gives, byte for byte,
    the record of the message with that delivery time: the cache and the
    transaction buffer stay in step with the header (ADR-0008). *)
Theorem patch_is_reserialise {J : PocoJson} m dt :
  length (uuid m) = 16%nat →
  storageBytes (upd_hdr (set_deliveryTime dt) m)
  = patchDeliveryTimeInBytes dt <$> storageBytes m.
Proof. apply storageBytes_set_deliveryTime. Qed.

(** The fixed-offset readers agree with the serialiser: replay extracts the
    clamped priority and the sanity-bounded delivery time of the message, and the
    sweep removes exactly the records whose message isExpired. *)
Theorem offsets_agree {J : PocoJson} m data now :
  wf_message m → storageBytes m = Some data →
  priorityFromStorageBytes data = clamp 0 9 (priority (jmsHeaders m)) ∧
  deliveryTimeFromStorageBytes now data
    = (let d := deliveryTime (jmsHeaders m) in
       if (d <? 0) || (now + kMaxFutureHeaderMs <? d) then 0 else d) ∧
  sweep_expired now (take kPrefixLen data) = isExpired now m.
Proof.
  intros Hwf Hd. pose proof (wf_uuid m Hwf) as Hu. pose proof (wf_hdr m Hwf) as Hh.
  destruct (storageBytes_record m Hu) as [rest Hr]. simplify_eq.
  split_and!; [apply priority_in_record|apply deliveryTime_in_record|apply expired_in_record];
    eauto with tmq.
Qed.

(** *** Witnesses *)
#[local] Existing Instances tree_json tree_json_ok.

Lemma patch_is_reserialise_witness :
  storageBytes (J := tree_json) (upd_hdr (set_deliveryTime 77) sampleMessage)
  = patchDeliveryTimeInBytes 77 <$> storageBytes (J := tree_json) sampleMessage.
Proof. exact (patch_is_reserialise (J := tree_json) sampleMessage 77 eq_refl). Defined.

Lemma offsets_agree_witness :
  ∃ data, storageBytes (J := tree_json) sampleMessage = Some data ∧
    priorityFromStorageBytes data = 7 ∧
    sweep_expired 1700000001000 (take kPrefixLen data) = true.
Proof.
  destruct (storageBytes (J := tree_json) sampleMessage) as [data|] eqn:E; [|by vm_compute in E].
  exists data. split; [done|].
  destruct (offsets_agree (J := tree_json) sampleMessage data 1700000001000 sampleMessage_wf E)
    as (H1 & _ & H3).
  split; [exact H1|exact H3].
Defined.
