(* ===== verification/PriorityQueue.v ===== *)
(** PriorityQueueT (Message.h): ten FIFO bands, a bitmask of the bands that may
    be non-empty and a counting semaphore with one token per message.

    [Seq]: the operations run one at a time, and implement a priority queue that
    is FIFO among equal priorities. [Conc]: the same operations cut into their
    atomic accesses and interleaved, on which the promises of the header's
    comments are examined. A band is a moodycamel::ConcurrentQueue and the
    semaphore a moodycamel::LightweightSemaphore: a FIFO list and a counter. *)
From S2P Require Import Prelude.
From Stdlib Require Import Lia ZifyBool.

Definition kBands : nat := 10.
Definition clampBand (p : Z) : Z := if p <? 0 then 0 else if 9 <? p then 9 else p.
(** The band of a message: its clamped header priority, 4 for a null pointer. *)
Definition bandOf (prio : option Z) : Z :=
  match prio with Some p => clampBand p | None => 4 end.
Definition bandBit (band : Z) : Z := wrapU 16 (Z.shiftl 1 band).
(** 15 - countl_zero(mask) for a non-zero uint16. *)
Definition topBand (mask : Z) : Z := Z.log2 mask.

Record pq (A : Type) : Type := mkPq {
  bands : list (list A);
  sema : Z;
  nonEmpty : Z
}.
Arguments mkPq {A}.
Arguments bands {A}.
Arguments sema {A}.
Arguments nonEmpty {A}.
#[export] Instance pq_eq_dec {A} `{EqDecision A} : EqDecision (pq A).
Proof. solve_decision. Defined.

Module Seq.
Section Seq.
Context {A : Type}.
Implicit Type q : pq A.

Definition empty_pq : pq A := mkPq (replicate kBands []) 0 0.

Definition enqueue (prio : option Z) (x : A) : M (pq A) unit := λ q,
  let band := bandOf prio in
  match bands q !! Z.to_nat band with
  | Some b =>
      Ok tt (mkPq (<[Z.to_nat band := b ++ [x]]> (bands q)) (sema q + 1)
                  (Z.lor (nonEmpty q) (bandBit band)))
  | None => UB
  end.

(** _bands[band].try_dequeue *)
Definition tryBand (band : Z) : M (pq A) (option A) := λ q,
  match bands q !! Z.to_nat band with
  | Some (x :: b) => Ok (Some x) (mkPq (<[Z.to_nat band := b]> (bands q)) (sema q) (nonEmpty q))
  | Some [] => Ok None q
  | None => UB
  end.

(** _nonEmpty.fetch_and(~(1u << band)) *)
Definition clearBit (band : Z) : M (pq A) unit :=
  modify (λ q, mkPq (bands q) (sema q) (Z.land (nonEmpty q) (wrapU 16 (Z.lnot (Z.shiftl 1 band))))).

(** The mask-guided walk. *)
Fixpoint maskWalk (fuel : nat) (mask : Z) : M (pq A) (option A) :=
  match fuel with
  | O => undefined
  | S fuel =>
      if mask =? 0 then mret None
      else
        let band := topBand mask in
        r ← tryBand band;
        match r with
        | Some x => mret (Some x)
        | None =>
            _ ← clearBit band;
            mask' ← gets nonEmpty;
            maskWalk fuel mask'
        end
  end.

(** The safety net: for (band = 9; band >= 0; --band). *)
Fixpoint fullScan (k : nat) : M (pq A) (option A) :=
  match k with
  | O => mret None
  | S k =>
      r ← tryBand (Z.of_nat k);
      match r with Some x => mret (Some x) | None => fullScan k end
  end.

(** A uint16 has 16 bits and each round clears one. *)
Definition walkFuel : nat := 17.

Definition dequeueFromBands : M (pq A) (option A) :=
  mask ← gets nonEmpty;
  r ← maskWalk walkFuel mask;
  match r with Some x => mret (Some x) | None => fullScan kBands end.

Definition dequeueFromBandsOrReturnToken : M (pq A) (option A) :=
  r ← dequeueFromBands;
  match r with
  | Some x => mret (Some x)
  | None => _ ← modify (λ q, mkPq (bands q) (sema q + 1) (nonEmpty q)); mret None
  end.

(** tryWait, and wait with a timeout that nobody signals within. *)
Definition semaTryWait : M (pq A) bool := λ q,
  if 0 <? sema q then Ok true (mkPq (bands q) (sema q - 1) (nonEmpty q)) else Ok false q.

(** try_dequeue, and wait_dequeue_timed when no message arrives while it
    waits: [None] is the false result. *)
Definition try_dequeue : M (pq A) (option A) :=
  ok ← semaTryWait;
  if (ok : bool) then dequeueFromBandsOrReturnToken else mret None.

(** *** Specification *)

(** The messages in delivery order: by descending band, FIFO within a band. *)
Fixpoint tagged (n : nat) (bs : list (list A)) : list (Z * A) :=
  match bs with
  | [] => []
  | b :: bs => tagged (S n) bs ++ (pair (Z.of_nat n) <$> b)
  end.
Definition abs q : list (Z * A) := tagged 0 (bands q).

(** Inserting behind every message of at least the same priority. *)
Fixpoint insert_prio (p : Z) (x : A) (l : list (Z * A)) : list (Z * A) :=
  match l with
  | [] => [(p, x)]
  | (p', y) :: l' => if p' <? p then (p, x) :: l else (p', y) :: insert_prio p x l'
  end.

Record wf q : Prop := {
  wf_bands : length (bands q) = kBands;
  wf_mask : 0 <= nonEmpty q < 2 ^ 10;
  wf_bits : ∀ i x b, bands q !! i = Some (x :: b) → Z.testbit (nonEmpty q) (Z.of_nat i) = true;
  wf_sema : sema q = Z.of_nat (length (abs q))
}.

Lemma bandOf_range prio : 0 <= bandOf prio <= 9.
Proof. unfold bandOf, clampBand. repeat case_match; lia. Qed.

Lemma bandBit_eq band : 0 <= band <= 9 → bandBit band = 2 ^ band.
Proof.
  intros H. unfold bandBit. rewrite Z.shiftl_1_l. apply wrapU_id. split.
  - apply Z.pow_nonneg. lia.
  - apply Z.pow_lt_mono_r; lia.
Qed.

Lemma lookup_band q band :
  length (bands q) = kBands → 0 <= band <= 9 → ∃ b, bands q !! Z.to_nat band = Some b.
Proof. intros Hl Hb. apply lookup_lt_is_Some. rewrite Hl. unfold kBands. lia. Qed.

Lemma insert_prio_high p x l1 l2 :
  Forall (λ py, p <= py.1) l1 → insert_prio p x (l1 ++ l2) = l1 ++ insert_prio p x l2.
Proof.
  induction 1 as [|[p' y] l1 Hp _ IH]; [done|]. simpl in *.
  destruct (_ <? _) eqn:?; [exfalso; lia|]. by rewrite IH.
Qed.

Lemma insert_prio_low p x l : Forall (λ py, py.1 < p) l → insert_prio p x l = (p, x) :: l.
Proof. destruct 1 as [|[p' y] l Hp _]; [done|]. simpl in *. by destruct (_ <? _) eqn:?; [|exfalso; lia]. Qed.

Lemma insert_prio_app p x l1 l2 :
  Forall (λ py, py.1 < p) l2 → insert_prio p x (l1 ++ l2) = insert_prio p x l1 ++ l2.
Proof.
  intros Hl. induction l1 as [|[p' y] l1 IH]; simpl; [by apply insert_prio_low|].
  case_match; simpl; [done|]. by rewrite IH.
Qed.

Lemma tagged_low n bs : Forall (λ py, Z.of_nat n <= py.1) (tagged n bs).
Proof.
  revert n. induction bs as [|b bs IH]; intros n; simpl; [constructor|].
  apply Forall_app. split.
  - eapply Forall_impl; [|apply (IH (S n))]. intros; simpl in *; lia.
  - apply Forall_fmap, Forall_forall. intros y _. simpl. lia.
Qed.

Lemma tagged_enqueue n bs i b x :
  bs !! i = Some b →
  tagged n (<[i := b ++ [x]]> bs) = insert_prio (Z.of_nat (n + i)) x (tagged n bs).
Proof.
  revert n i. induction bs as [|b' bs IH]; intros n [|i] H; simpl in *; simplify_eq.
  - rewrite fmap_app, Nat.add_0_r. simpl. rewrite insert_prio_high.
    + f_equal. rewrite <-(app_nil_r (_ <$> b)) at 2. rewrite insert_prio_high; [done|].
      apply Forall_fmap, Forall_forall. intros y _. simpl. lia.
    + eapply Forall_impl; [|apply (tagged_low (S n))]. intros; simpl in *; lia.
  - rewrite (IH (S n) i H). replace (n + S i)%nat with (S n + i)%nat by lia.
    rewrite insert_prio_app; [done|]. apply Forall_fmap, Forall_forall. intros y _. simpl. lia.
Qed.

Lemma tagged_nil n bs : (∀ i b, bs !! i = Some b → b = []) → tagged n bs = [].
Proof.
  revert n. induction bs as [|b bs IH]; intros n H; [done|]. simpl.
  rewrite (H 0%nat b eq_refl), IH; [done|]. intros i b' Hi. apply (H (S i) b' Hi).
Qed.

Lemma tagged_take n bs i x b :
  bs !! i = Some (x :: b) → (∀ j b', (i < j)%nat → bs !! j = Some b' → b' = []) →
  tagged n bs = (Z.of_nat (n + i), x) :: tagged n (<[i := b]> bs).
Proof.
  revert n i. induction bs as [|b' bs IH]; intros n [|i] H Hj; simpl in *; simplify_eq.
  - assert (tagged (S n) bs = []) as ->.
    { apply tagged_nil. intros j b' Hb. apply (Hj (S j) b'); [lia|done]. }
    simpl. by rewrite Nat.add_0_r.
  - rewrite (IH (S n) i H).
    + simpl. repeat f_equal. lia.
    + intros j b'' Hlt Hb. apply (Hj (S j) b''); [lia|done].
Qed.

(** *** The operations meet it *)
Lemma enqueue_spec q prio x :
  wf q → ∃ q', enqueue prio x q = Ok tt q' ∧ wf q'
    ∧ abs q' = insert_prio (bandOf prio) x (abs q).
Proof.
  intros [Hl Hm Hb Hs]. pose proof (bandOf_range prio) as Hr.
  destruct (lookup_band q _ Hl Hr) as [b Hlk]. unfold enqueue. rewrite Hlk.
  eexists. split; [done|].
  assert (Habs : tagged 0 (<[Z.to_nat (bandOf prio) := b ++ [x]]> (bands q))
                 = insert_prio (bandOf prio) x (abs q)).
  { rewrite (tagged_enqueue 0 _ _ _ _ Hlk). f_equal. lia. }
  split; [|done]. rewrite bandBit_eq by done. split; simpl.
  - by rewrite length_insert.
  - assert (0 <= Z.lor (nonEmpty q) (2 ^ bandOf prio)) by (apply Z.lor_nonneg; lia).
    split; [done|]. apply Z.log2_lt_cancel. rewrite Z.log2_lor, Z.log2_pow2 by lia.
    apply Z.max_lub_lt; [|simpl; lia].
    destruct (decide (nonEmpty q = 0)) as [->|]; [done|].
    change (Z.log2 (2 ^ 10)) with 10. apply Z.log2_lt_pow2; lia.
  - intros i y b' Hi. rewrite Z.lor_spec, Z.pow2_bits_eqb by lia.
    destruct (decide (i = Z.to_nat (bandOf prio))) as [->|Hne].
    + rewrite Z2Nat.id by lia. by rewrite Z.eqb_refl, orb_true_r.
    + rewrite list_lookup_insert_ne in Hi by done. by rewrite (Hb _ _ _ Hi).
  - unfold abs. simpl. rewrite Habs, Hs.
    assert (∀ p l, length (insert_prio p x l) = S (length l)) as ->; [|lia].
    intros p l. induction l as [|[p' y] l IH]; simpl; [done|].
    case_match; simpl; [done|]. by rewrite IH.
Qed.

Lemma clear_mask mask : 0 < mask < 2 ^ 10 →
  let mask' := Z.land mask (wrapU 16 (Z.lnot (Z.shiftl 1 (topBand mask)))) in
  0 <= mask' < 2 ^ topBand mask ∧
  ∀ i, 0 <= i → Z.testbit mask' i = Z.testbit mask i && negb (i =? topBand mask).
Proof.
  intros Hm mask'. set (t := topBand mask) in *.
  pose proof (Z.log2_spec mask ltac:(lia)) as [_ Hu].
  assert (Ht : 0 <= t < 10) by (unfold t, topBand; split; [apply Z.log2_nonneg|apply Z.log2_lt_pow2; lia]).
  assert (Hbit : ∀ i, 0 <= i → Z.testbit mask' i = Z.testbit mask i && negb (i =? t)).
  { intros i Hi. unfold mask', wrapU. rewrite Z.land_spec.
    destruct (decide (i < 16)) as [Hlt|Hge].
    - rewrite Z.mod_pow2_bits_low, Z.lnot_spec by lia. f_equal. f_equal.
      rewrite Z.shiftl_1_l, Z.pow2_bits_eqb by lia. rewrite Z.eqb_sym. done.
    - rewrite (Z.bits_above_log2 mask i) by (unfold t, topBand in *; lia). done. }
  split; [|done]. split; [apply Z.land_nonneg; lia|].
  destruct (decide (mask' = 0)) as [->|Hn]; [apply Z.pow_pos_nonneg; lia|].
  assert (0 <= mask') by (apply Z.land_nonneg; lia).
  apply Z.log2_lt_pow2; [lia|].
  destruct (decide (Z.log2 mask' < t)) as [|Hge]; [done|exfalso].
  pose proof (Z.bit_log2 mask' ltac:(lia)) as Hb. rewrite Hbit in Hb by apply Z.log2_nonneg.
  apply andb_true_iff in Hb as [Hb1 Hb2].
  destruct (decide (Z.log2 mask' = t)) as [He|]; [rewrite He, Z.eqb_refl in Hb2; done|].
  rewrite Z.bits_above_log2 in Hb1; [done|lia|]. unfold t, topBand in *. lia.
Qed.

(** What the walk relies on: [wf] without the token count. *)
Record wf_mask_ok q : Prop := {
  wm_bands : length (bands q) = kBands;
  wm_mask : 0 <= nonEmpty q < 2 ^ 10;
  wm_bits : ∀ i x b, bands q !! i = Some (x :: b) → Z.testbit (nonEmpty q) (Z.of_nat i) = true
}.

(** The bands above the highest bit of the mask are empty. *)
Lemma above_top q j b :
  wf_mask_ok q → nonEmpty q < 2 ^ Z.of_nat j → bands q !! j = Some b → b = [].
Proof.
  intros [_ Hm Hb] Hlt Hj. destruct b as [|x b]; [done|exfalso].
  specialize (Hb _ _ _ Hj). destruct (decide (nonEmpty q = 0)) as [He|].
  - by rewrite He, Z.bits_0 in Hb.
  - rewrite Z.bits_above_log2 in Hb; [done|lia|]. apply Z.log2_lt_pow2; lia.
Qed.

Lemma maskWalk_take q band x b :
  wf_mask_ok q → 0 < nonEmpty q → band = topBand (nonEmpty q) →
  bands q !! Z.to_nat band = Some (x :: b) →
  let q' := mkPq (<[Z.to_nat band := b]> (bands q)) (sema q) (nonEmpty q) in
  wf_mask_ok q' ∧ abs q = (band, x) :: abs q'.
Proof.
  intros Hwf Hpos -> Hlk. set (t := topBand (nonEmpty q)) in *.
  destruct (Z.log2_spec (nonEmpty q) Hpos) as [_ Hlt].
  assert (Ht : 0 <= t) by apply Z.log2_nonneg.
  assert (Hab : abs q = (t, x) :: tagged 0 (<[Z.to_nat t := b]> (bands q))).
  { unfold abs. rewrite (tagged_take 0 _ _ _ _ Hlk).
    - by rewrite Nat.add_0_l, Z2Nat.id.
    - intros j b' Hj. apply above_top; [done|]. eapply Z.lt_le_trans; [apply Hlt|].
      apply Z.pow_le_mono_r; unfold t, topBand in *; lia. }
  split; [|done]. destruct Hwf as [Hl Hm Hb]. split; simpl; [by rewrite length_insert|done|].
  intros i y c Hi. destruct (decide (i = Z.to_nat t)) as [->|Hne].
  - by apply (Hb _ _ _ Hlk).
  - rewrite list_lookup_insert_ne in Hi by done. by apply (Hb _ _ _ Hi).
Qed.

Lemma maskWalk_spec fuel n q :
  wf_mask_ok q → nonEmpty q < 2 ^ Z.of_nat n → (n < fuel)%nat →
  ∃ r q', maskWalk fuel (nonEmpty q) q = Ok r q' ∧ wf_mask_ok q' ∧ sema q' = sema q ∧
    match r with
    | Some x => ∃ p, abs q = (p, x) :: abs q'
    | None => bands q' = bands q ∧ nonEmpty q' = 0
    end.
Proof.
  revert n q. induction fuel as [|fuel IH]; intros n q Hwf Hn Hf; [lia|]. simpl.
  destruct (nonEmpty q =? 0) eqn:Hz.
  { exists None, q. repeat split; try apply Hwf. lia. }
  assert (Hpos : 0 < nonEmpty q < 2 ^ 10) by (destruct Hwf; lia).
  pose proof (clear_mask _ Hpos) as [Hrange Hbits].
  assert (Ht : 0 <= topBand (nonEmpty q) < 10).
  { unfold topBand. split; [apply Z.log2_nonneg|apply Z.log2_lt_pow2; lia]. }
  destruct (lookup_band q (topBand (nonEmpty q)) ltac:(apply Hwf) ltac:(lia)) as [[|x b] Hlk].
  - unfold tryBand, clearBit. mrun. rewrite Hlk.
    match goal with |- context [maskWalk fuel _ ?q1] => set (q' := q1) end.
    assert (Hwf' : wf_mask_ok q').
    { destruct Hwf as [Hl Hm Hb]. split; [done| |].
      - cbn [nonEmpty q']. split; [lia|]. eapply Z.lt_trans; [apply Hrange|].
        apply Z.pow_lt_mono_r; lia.
      - cbn [nonEmpty bands q']. intros i y c Hi. rewrite Hbits by lia. rewrite (Hb _ _ _ Hi).
        destruct (Z.of_nat i =? topBand (nonEmpty q)) eqn:He; [|done].
        apply Z.eqb_eq in He. rewrite <-He, Nat2Z.id in Hlk. simplify_eq. }
    destruct (IH (Z.to_nat (topBand (nonEmpty q))) q' Hwf') as (r & q'' & H1 & H2 & H3 & H4).
    + rewrite Z2Nat.id by lia. apply Hrange.
    + assert (topBand (nonEmpty q) < Z.of_nat n); [|lia]. apply Z.log2_lt_pow2; lia.
    + exists r, q''. done.
  - destruct (maskWalk_take q _ x b Hwf ltac:(lia) eq_refl Hlk) as [Hwf' Hab].
    unfold tryBand. mrun. rewrite Hlk. eauto 8.
Qed.

Lemma fullScan_empty k q :
  (∀ i b, bands q !! i = Some b → b = []) → (k <= length (bands q))%nat → fullScan k q = Ok None q.
Proof.
  intros He. induction k as [|k IH]; intros Hk; [done|]. simpl.
  destruct (lookup_lt_is_Some_2 (bands q) k ltac:(lia)) as [b Hb].
  unfold tryBand. mrun. rewrite Nat2Z.id, Hb, (He _ _ Hb). apply IH. lia.
Qed.

Lemma dequeueFromBands_spec q :
  wf_mask_ok q → ∃ r q', dequeueFromBands q = Ok r q' ∧ wf_mask_ok q' ∧ sema q' = sema q ∧
    match r with Some x => ∃ p, abs q = (p, x) :: abs q' | None => abs q = [] ∧ abs q' = [] end.
Proof.
  intros Hwf. unfold dequeueFromBands. rewrite (bind_ok _ _ _ _ _ (eq_refl : gets nonEmpty q = Ok _ q)).
  destruct (maskWalk_spec walkFuel 10 q Hwf) as (r & q' & H1 & H2 & H3 & H4);
    [apply Hwf|unfold walkFuel; lia|].
  rewrite (bind_ok _ _ _ _ _ H1). destruct r as [x|]; [by exists (Some x), q'|].
  destruct H4 as [Hb Hz].
  assert (He : ∀ i b, bands q' !! i = Some b → b = []).
  { intros i b Hi. eapply above_top; [done| |done]. rewrite Hz. apply Z.pow_pos_nonneg; lia. }
  exists None, q'. rewrite fullScan_empty; [|done|by rewrite (wm_bands _ H2)].
  assert (abs q' = []) by by apply tagged_nil. unfold abs in *. rewrite <-Hb. done.
Qed.

Lemma wf_split q : wf q ↔ wf_mask_ok q ∧ sema q = Z.of_nat (length (abs q)).
Proof. split; [intros []|intros [[] ?]]; repeat split; done || lia. Qed.

Lemma try_dequeue_spec q :
  wf q → ∃ r q', try_dequeue q = Ok r q' ∧ wf q' ∧
    match abs q with
    | [] => r = None ∧ abs q' = []
    | (_, x) :: l => r = Some x ∧ abs q' = l
    end.
Proof.
  intros Hwf. pose proof Hwf as [Hm Hs]%wf_split. unfold try_dequeue, semaTryWait. mrun.
  destruct (0 <? sema q) eqn:Hp.
  - set (q1 := mkPq (bands q) (sema q - 1) (nonEmpty q)).
    assert (Hm1 : wf_mask_ok q1) by (destruct Hm; by split).
    destruct (dequeueFromBands_spec q1 Hm1) as (r & q' & H1 & H2 & H3 & H4).
    unfold dequeueFromBandsOrReturnToken. rewrite (bind_ok _ _ _ _ _ H1).
    assert (abs q1 = abs q) as Hq by done. rewrite Hq in H4.
    destruct r as [x|].
    + destruct H4 as [p Hp']. exists (Some x), q'. rewrite Hp' in Hs |- *. split; [done|].
      split; [|done]. apply wf_split. split; [done|]. rewrite H3. unfold q1. simpl in *. lia.
    + destruct H4 as [He _]. rewrite He in Hs. simpl in Hs. exfalso. lia.
  - exists None, q. split; [done|]. split; [done|].
    destruct (abs q) as [|[p x] l]; [done|]. simpl in *. exfalso. lia.
Qed.

(** *** Runs *)
Inductive op : Type := Enq (prio : option Z) (x : A) | Deq.

Definition stepOp (o : op) : M (pq A) (option (option A)) :=
  match o with
  | Enq prio x => _ ← enqueue prio x; mret None
  | Deq => r ← try_dequeue; mret (Some r)
  end.
Fixpoint runOps (os : list op) : M (pq A) (list (option A)) :=
  match os with
  | [] => mret []
  | o :: os => r ← stepOp o; rs ← runOps os; mret (match r with Some x => x :: rs | None => rs end)
  end.

(** The same run on the abstract queue. *)
Fixpoint specOps (os : list op) (l : list (Z * A)) : list (option A) * list (Z * A) :=
  match os with
  | [] => ([], l)
  | Enq prio x :: os => specOps os (insert_prio (bandOf prio) x l)
  | Deq :: os =>
      match l with
      | [] => let '(rs, l') := specOps os [] in (None :: rs, l')
      | (_, x) :: l => let '(rs, l') := specOps os l in (Some x :: rs, l')
      end
  end.

Lemma runOps_spec os q :
  wf q → ∃ q', runOps os q = Ok (specOps os (abs q)).1 q' ∧ wf q' ∧ abs q' = (specOps os (abs q)).2.
Proof.
  revert q. induction os as [|[prio x|] os IH]; intros q Hwf; simpl; [by exists q| |].
  - destruct (enqueue_spec q prio x Hwf) as (q1 & H1 & H2 & H3).
    destruct (IH q1 H2) as (q2 & H4 & H5 & H6).
    exists q2. mrun. rewrite H1, H4, <-H3. done.
  - destruct (try_dequeue_spec q Hwf) as (r & q1 & H1 & H2 & H3).
    destruct (IH q1 H2) as (q2 & H4 & H5 & H6).
    exists q2. mrun. rewrite H1, H4.
    destruct (abs q) as [|[p x] l]; destruct H3 as [-> H3]; rewrite H3 in *;
      destruct (specOps os _); done.
Qed.

Lemma wf_empty : wf empty_pq.
Proof. split; [done|done| |done]. intros i x b H. by apply lookup_replicate in H as [[=] _]. Qed.

(** C2. The priority queue refines its specification: for every sequence of
    enqueues and dequeues started on an empty queue, every call returns (the
    mask walk terminates within its fuel and no band index is out of range), each
    dequeue hands out exactly the oldest message of the highest clamped priority
    present, or nothing when there is none, and what is left is what was not
    handed out. *)
Theorem queue_refines os :
  ∃ q', runOps os empty_pq = Ok (specOps os []).1 q' ∧ abs q' = (specOps os []).2 ∧ wf q'.
Proof. destruct (runOps_spec os _ wf_empty) as (q' & H1 & H2 & H3). by exists q'. Qed.
End Seq.
End Seq.

(** The operations cut at their atomic accesses, for any number of threads. *)
Module Conc.
Section Conc.
Context {A : Type}.
Implicit Type q : pq A.

(** What a thread does next. *)
Inductive pc : Type :=
  | Idle
  | PMark (band : Z)     (** enqueue: fetch_or of the band's bit *)
  | PSignal              (** enqueue: _sema.signal() *)
  | CLoad                (** dequeueFromBands: load of the mask *)
  | CTry (band : Z)      (** dequeueFromBands: try_dequeue of the mask's top band *)
  | CClear (band : Z)    (** dequeueFromBands: fetch_and of the band's complement *)
  | CScan (k : nat)      (** dequeueFromBands: the full scan, [k] bands left *)
  | CReturn.             (** dequeueFromBandsOrReturnToken: _sema.signal() *)

(** The call an idle thread makes; a busy thread only goes on. *)
Inductive action : Type := CallEnqueue (prio : option Z) (x : A) | CallDequeue | Go.

Definition signal q : pq A := mkPq (bands q) (sema q + 1) (nonEmpty q).

Definition tryThen (band : Z) (miss : pc) q : option (pq A * pc) :=
  match Seq.tryBand band q with
  | Ok (Some _) q' => Some (q', Idle)
  | Ok None q' => Some (q', miss)
  | _ => None
  end.

(** One atomic access of a thread. *)
Definition tstep (a : action) (p : pc) q : option (pq A * pc) :=
  match p, a with
  | Idle, CallEnqueue prio x =>
      b ← bands q !! Z.to_nat (bandOf prio);
      Some (mkPq (<[Z.to_nat (bandOf prio) := b ++ [x]]> (bands q)) (sema q) (nonEmpty q),
            PMark (bandOf prio))
  | PMark band, Go => Some (mkPq (bands q) (sema q) (Z.lor (nonEmpty q) (bandBit band)), PSignal)
  | PSignal, Go => Some (signal q, Idle)
  | Idle, CallDequeue =>
      if 0 <? sema q then Some (mkPq (bands q) (sema q - 1) (nonEmpty q), CLoad) else Some (q, Idle)
  | CLoad, Go =>
      Some (q, if nonEmpty q =? 0 then CScan kBands else CTry (topBand (nonEmpty q)))
  | CTry band, Go => tryThen band (CClear band) q
  | CClear band, Go =>
      match Seq.clearBit band q with Ok _ q' => Some (q', CLoad) | _ => None end
  | CScan O, Go => Some (q, CReturn)
  | CScan (S k), Go => tryThen (Z.of_nat k) (CScan k) q
  | CReturn, Go => Some (signal q, Idle)
  | _, _ => None
  end.

Definition config : Type := pq A * list pc.
Definition exec (i : nat) (a : action) (c : config) : option config :=
  let '(q, ps) := c in
  p ← ps !! i;
  '(q', p') ← tstep a p q;
  Some (q', <[i := p']> ps).

Definition init (n : nat) : config := (Seq.empty_pq, replicate n Idle).
Inductive reachable (n : nat) : config → Prop :=
  | reach_init : reachable n (init n)
  | reach_step c i a c' : reachable n c → exec i a c = Some c' → reachable n c'.

Fixpoint runSched (sched : list (nat * action)) (c : config) : option config :=
  match sched with
  | [] => Some c
  | (i, a) :: sched => c' ← exec i a c; runSched sched c'
  end.

(** *** Token conservation *)
Definition messages q : nat := length (concat (bands q)).
(** The thread holds a token it took, or has enqueued a message it has not
    signalled yet. *)
Definition owes (p : pc) : Z := match p with Idle => 0 | _ => 1 end.
Definition owed (ps : list pc) : Z := sumZ owes ps.

Lemma messages_insert (bs : list (list A)) i b b' :
  bs !! i = Some b →
  Z.of_nat (length (concat (<[i := b']> bs))) =
  Z.of_nat (length (concat bs)) - Z.of_nat (length b) + Z.of_nat (length b').
Proof.
  revert i. induction bs as [|b0 bs IH]; intros [|i] H; simpl in *; simplify_eq;
    rewrite !length_app; [lia|]. rewrite !Nat2Z.inj_add, (IH i H). lia.
Qed.

(** What every atomic access preserves. *)
Record shape q : Prop := {
  sh_bands : length (bands q) = kBands;
  sh_mask : 0 <= nonEmpty q < 2 ^ 10;
  sh_sema : 0 <= sema q
}.

Lemma lor_bit_range m band : 0 <= m < 2 ^ 10 → 0 <= band <= 9 → 0 <= Z.lor m (bandBit band) < 2 ^ 10.
Proof.
  intros Hm Hb. rewrite Seq.bandBit_eq by done.
  assert (0 <= 2 ^ band) by (apply Z.pow_nonneg; lia).
  assert (0 <= Z.lor m (2 ^ band)) by (apply Z.lor_nonneg; lia).
  split; [done|]. apply Z.log2_lt_cancel. rewrite Z.log2_lor, Z.log2_pow2 by lia.
  apply Z.max_lub_lt; [|simpl; lia]. destruct (decide (m = 0)) as [->|]; [done|].
  change (Z.log2 (2 ^ 10)) with 10. apply Z.log2_lt_pow2; lia.
Qed.

Lemma land_range m x : 0 <= m < 2 ^ 10 → 0 <= Z.land m x < 2 ^ 10.
Proof.
  intros Hm. change (2 ^ 10) with 1024 in *.
  assert (Z.land m x = Z.land (Z.land m x) (Z.ones 10)) as ->.
  { rewrite <-Z.land_assoc, (Z.land_comm x), Z.land_assoc. f_equal.
    rewrite Z.land_ones by lia. symmetry. apply Z.mod_small. change (2 ^ 10) with 1024. lia. }
  rewrite Z.land_ones by lia. apply Z.mod_pos_bound. lia.
Qed.

(** A thread between the enqueue and the fetch_or names a real band. *)
Definition pc_ok (p : pc) : Prop :=
  match p with PMark b | CTry b | CClear b => 0 <= b <= 9 | CScan k => (k <= kBands)%nat | _ => True end.

Lemma tryThen_spec band miss q q' p' :
  shape q → tryThen band miss q = Some (q', p') →
  shape q' ∧ sema q' = sema q ∧
  (p' = Idle ∧ Z.of_nat (messages q') = Z.of_nat (messages q) - 1 ∨ p' = miss ∧ q' = q).
Proof.
  intros Hs. unfold tryThen, Seq.tryBand.
  destruct (bands q !! Z.to_nat band) as [[|x b]|] eqn:Hb; intros [= <- <-]; [by auto|].
  destruct Hs as [H1 H2 H3]. split; [split; simpl; rewrite ?length_insert; done|].
  split; [done|]. left. split; [done|]. unfold messages. simpl.
  rewrite (messages_insert _ _ _ _ Hb). simpl. lia.
Qed.

Lemma tstep_inv a p q q' p' :
  shape q → pc_ok p → tstep a p q = Some (q', p') →
  shape q' ∧ pc_ok p' ∧
  sema q' + owes p' - Z.of_nat (messages q') = sema q + owes p - Z.of_nat (messages q).
Proof.
  intros Hs Hp Ht. pose proof Hs as [H1 H2 H3].
  destruct p as [|band| | |band|band|[|k]|], a as [prio x| |]; try done; simpl in Ht.
  - destruct (bands q !! _) as [b|] eqn:Hb; simplify_eq/=. pose proof (Seq.bandOf_range prio).
    split; [split; simpl; rewrite ?length_insert; done|]. split; [done|].
    unfold messages. simpl. rewrite (messages_insert _ _ _ _ Hb), length_app. simpl. lia.
  - destruct (0 <? sema q) eqn:?; injection Ht as <- <-; [|done].
    split; [split; simpl; lia|]. unfold messages. simpl. lia.
  - injection Ht as <- <-. split; [split; simpl; [done|by apply lor_bit_range|done]|]. done.
  - injection Ht as <- <-. split; [split; simpl; lia|]. unfold messages. simpl. lia.
  - injection Ht as <- <-. split; [done|]. destruct (nonEmpty q =? 0) eqn:?; simpl; [done|].
    split; [|lia]. unfold topBand. split; [apply Z.log2_nonneg|].
    assert (Z.log2 (nonEmpty q) < 10); [apply Z.log2_lt_pow2|]; lia.
  - destruct (tryThen_spec _ _ _ _ _ Hs Ht) as (? & ? & [[-> ?]|[-> ->]]); simpl in *; [|done].
    split; [done|]. split; [done|]. lia.
  - injection Ht as <- <-. split; [split; simpl; [done|by apply land_range|done]|]. done.
  - injection Ht as <- <-. done.
  - destruct (tryThen_spec _ _ _ _ _ Hs Ht) as (? & ? & [[-> ?]|[-> ->]]); simpl in *;
      (split; [done|]); split; done || lia.
  - injection Ht as <- <-. split; [split; simpl; lia|]. unfold messages. simpl. lia.
Qed.

Lemma reachable_inv n c :
  reachable n c →
  shape c.1 ∧ Forall pc_ok c.2 ∧ sema c.1 + owed c.2 = Z.of_nat (messages c.1).
Proof.
  induction 1 as [|[q ps] i a c' _ (IH1 & IH2 & IH3) He].
  - split; [by split|]. split; [by apply Forall_replicate|]. simpl.
    unfold owed. rewrite sumZ_replicate. cbn [owes]. by rewrite Z.mul_0_r.
  - cbn [fst snd] in *. unfold exec in He. destruct (ps !! i) as [p|] eqn:Hp; [|done].
    cbn [mbind option_bind] in He.
    destruct (tstep a p q) as [[q' p']|] eqn:Ht; [|done]. injection He as <-. simpl.
    destruct (tstep_inv a p q q' p') as (S1 & S2 & S3); [done|by eapply Forall_lookup_1|done|].
    split; [done|]. split; [by apply Forall_insert|]. unfold owed in *. rewrite (sumZ_insert owes _ _ _ p' Hp). lia.
Qed.

(** *** The safety net *)
Lemma tryBand_cases band q :
  shape q → 0 <= band <= 9 →
  (bands q !! Z.to_nat band = Some [] ∧ Seq.tryBand band q = Ok None q) ∨
  ∃ x q', Seq.tryBand band q = Ok (Some x) q' ∧ shape q' ∧ sema q' = sema q ∧
          messages q = S (messages q').
Proof.
  intros [H1 H2 H3] Hb. destruct (Seq.lookup_band q band H1 Hb) as [[|x b] Hlk];
    unfold Seq.tryBand; rewrite Hlk; [by left|right].
  do 2 eexists. split; [done|]. split; [split; simpl; rewrite ?length_insert; done|].
  split; [done|]. apply Nat2Z.inj. rewrite Nat2Z.inj_succ. unfold messages. simpl.
  rewrite (messages_insert _ _ _ _ Hlk). simpl. lia.
Qed.

Lemma maskWalk_shape fuel n q :
  shape q → nonEmpty q < 2 ^ Z.of_nat n → (n < fuel)%nat →
  ∃ r q', Seq.maskWalk fuel (nonEmpty q) q = Ok r q' ∧ shape q' ∧ sema q' = sema q ∧
    match r with Some _ => messages q = S (messages q') | None => messages q = messages q' end.
Proof.
  revert n q. induction fuel as [|fuel IH]; intros n q Hs Hn Hf; [lia|]. simpl.
  destruct (nonEmpty q =? 0) eqn:Hz; [by exists None, q|].
  assert (Hpos : 0 < nonEmpty q < 2 ^ 10) by (destruct Hs; lia).
  assert (Ht : 0 <= topBand (nonEmpty q) <= 9).
  { unfold topBand. split; [apply Z.log2_nonneg|].
    assert (Z.log2 (nonEmpty q) < 10); [apply Z.log2_lt_pow2|]; lia. }
  destruct (tryBand_cases (topBand (nonEmpty q)) q Hs Ht) as [[_ H]|(x & q' & H & ? & ? & ?)];
    rewrite (bind_ok _ _ _ _ _ H); [|by exists (Some x), q'].
  unfold Seq.clearBit. mrun. match goal with |- context [Seq.maskWalk fuel _ ?q1] => set (q' := q1) end.
  destruct (Seq.clear_mask _ Hpos) as [Hr _].
  destruct (IH (Z.to_nat (topBand (nonEmpty q))) q') as (r & q'' & H1 & H2 & H3 & H4).
  - destruct Hs. split; [done| |done]. cbn [nonEmpty q']. split; [lia|].
    eapply Z.lt_trans; [apply Hr|]. apply Z.pow_lt_mono_r; lia.
  - rewrite Z2Nat.id by lia. apply Hr.
  - assert (topBand (nonEmpty q) < Z.of_nat n); [|lia]. apply Z.log2_lt_pow2; lia.
  - by exists r, q''.
Qed.

Lemma fullScan_shape k q :
  shape q → (k <= kBands)%nat →
  ∃ r q', Seq.fullScan k q = Ok r q' ∧ sema q' = sema q ∧
    match r with
    | Some _ => messages q = S (messages q')
    | None => q' = q ∧ ∀ i, (i < k)%nat → bands q !! i = Some []
    end.
Proof.
  intros Hs. induction k as [|k IH]; intros Hk; simpl.
  - exists None, q. repeat split. intros i Hi. lia.
  - destruct (tryBand_cases (Z.of_nat k) q Hs ltac:(unfold kBands in *; lia))
      as [[Hlk H]|(x & q' & H & ? & ? & ?)]; rewrite (bind_ok _ _ _ _ _ H); [|by exists (Some x), q'].
    destruct (IH ltac:(lia)) as (r & q' & H1 & H2 & H3). exists r, q'. split; [done|].
    split; [done|]. destruct r; [done|]. destruct H3 as [-> H3]. split; [done|].
    intros i Hi. rewrite Nat2Z.id in Hlk. destruct (decide (i = k)) as [->|]; [done|].
    apply H3. lia.
Qed.

Lemma no_messages q : (∀ i, (i < length (bands q))%nat → bands q !! i = Some []) → messages q = 0%nat.
Proof.
  unfold messages. generalize (bands q). intros bs. induction bs as [|b bs IH]; intros H; [done|].
  pose proof (H 0%nat ltac:(simpl; lia)) as [= ->]. simpl. apply IH.
  intros i Hi. apply (H (S i)). simpl. lia.
Qed.

Lemma try_dequeue_shape q :
  shape q → 0 < sema q → (0 < messages q)%nat →
  ∃ x q', Seq.try_dequeue q = Ok (Some x) q' ∧ messages q = S (messages q').
Proof.
  intros Hs Hp Hm. unfold Seq.try_dequeue, Seq.semaTryWait. mrun.
  replace (0 <? sema q) with true by lia.
  set (q1 := mkPq (bands q) (sema q - 1) (nonEmpty q)).
  assert (Hs1 : shape q1) by (destruct Hs; split; simpl; done || lia).
  unfold Seq.dequeueFromBandsOrReturnToken, Seq.dequeueFromBands. mrun.
  destruct (maskWalk_shape Seq.walkFuel 10 q1 Hs1) as (r & q' & -> & H2 & H3 & H4);
    [apply Hs1|unfold Seq.walkFuel; lia|].
  destruct r as [x|]; [by exists x, q'|].
  destruct (fullScan_shape kBands q' H2 ltac:(lia)) as ([x|] & q'' & -> & H6 & H7).
  - exists x, q''. split; [done|]. rewrite <-H7. done.
  - exfalso. destruct H7 as [_ H7]. change (messages q1) with (messages q) in H4.
    rewrite (no_messages q') in H4; [lia|]. by rewrite (sh_bands _ H2).
Qed.

(** C3. No message and no wakeup is lost under any interleaving: in every
    configuration the atomic accesses of any number of threads can reach, the
    tokens in the semaphore plus those that running calls hold or owe are exactly
    the messages in the bands; so once every call has returned there is one token
    per message, and as long as a message is left the next dequeue returns one,
    whatever the bitmask says. *)
Theorem no_lost_message n q ps :
  reachable n (q, ps) →
  sema q + owed ps = Z.of_nat (messages q) ∧
  (Forall (λ p, p = Idle) ps →
     sema q = Z.of_nat (messages q) ∧
     ((0 < messages q)%nat →
        ∃ x q', Seq.try_dequeue q = Ok (Some x) q' ∧ messages q = S (messages q'))).
Proof.
  intros (Hs & _ & Hc)%reachable_inv. simpl in *. split; [done|]. intros Hi.
  assert (owed ps = 0) as H0.
  { unfold owed. clear -Hi. induction Hi as [|p ps -> _ IH]; [done|]. simpl. fold (sumZ owes ps). lia. }
  split; [lia|]. intros Hm. apply try_dequeue_shape; [done|lia|done].
Qed.

Lemma runSched_reachable n sched c c' :
  reachable n c → runSched sched c = Some c' → reachable n c'.
Proof.
  revert c. induction sched as [|[i a] sched IH]; intros c Hr; simpl; [by intros [= <-]|].
  destruct (exec i a c) as [c1|] eqn:He; [|done]. simpl. apply IH. by eapply reach_step.
Qed.
End Conc.

(** A consumer that finds band 9 drained and a producer that refills it: the
    consumer's fetch_and wipes the bit the producer has just set. *)
Definition staleBit : list (nat * action (A:=nat)) :=
  [ (0%nat, CallEnqueue (Some 9) 1%nat); (0%nat, Go); (0%nat, Go);
    (1%nat, CallDequeue); (1%nat, Go); (1%nat, Go);
    (0%nat, CallEnqueue (Some 4) 2%nat); (0%nat, Go); (0%nat, Go);
    (1%nat, CallDequeue); (1%nat, Go); (1%nat, Go);
    (0%nat, CallEnqueue (Some 9) 3%nat); (0%nat, Go); (0%nat, Go);
    (1%nat, Go); (1%nat, Go); (1%nat, Go);
    (0%nat, CallEnqueue (Some 4) 4%nat); (0%nat, Go); (0%nat, Go) ].

(** The mask can lag the wrong way: a reachable configuration with every call
    returned, message 3 waiting in band 9 and the bit of band 9 clear, in which the
    next dequeue hands out message 4 of band 4 before it, so the mask says empty
    while a message is present. *)
Theorem mask_lags :
  ∃ q ps, reachable 2 (q, ps) ∧ Forall (λ p, p = Idle) ps ∧
    bands q !! 9%nat = Some [3%nat] ∧ Z.testbit (nonEmpty q) 9 = false ∧
    ∃ q', Seq.try_dequeue q = Ok (Some 4%nat) q' ∧ bands q' !! 9%nat = Some [3%nat].
Proof.
  destruct (runSched staleBit (init 2)) as [[q ps]|] eqn:He; [|by vm_compute in He].
  exists q, ps. split; [by eapply runSched_reachable, He; constructor|].
  vm_compute in He. injection He as <- <-.
  split; [by repeat constructor|]. split; [done|]. split; [done|]. eexists. split; [by vm_compute|done].
Qed.

Lemma no_lost_message_witness :
  ∃ q ps, runSched staleBit (init 2) = Some (q, ps) ∧
    sema q + owed ps = Z.of_nat (messages q).
Proof.
  destruct (runSched staleBit (init 2)) as [[q ps]|] eqn:He; [|by vm_compute in He].
  exists q, ps. split; [done|].
  apply (no_lost_message 2 q ps). eapply runSched_reachable, He. constructor.
Defined.
End Conc.
