(* ===== verification/Semaphore.v ===== *)
(** The semaphore under the broker's queues (details::Semaphore and
    LightweightSemaphore in external/concurrent_queue/lightweightsemaphore.h): its
    operations cut at their atomic accesses, for any number of threads. The counter is
    an ssize_t; a thread that finds it empty decrements it all the same and sleeps in
    the kernel's semaphore, and a thread whose wait times out has to take its decrement
    back or the token that was meant for it. *)
From S2P Require Import Prelude.
From Stdlib Require Import Lia ZifyBool.

Module Sema.

(** m_count and the value of the kernel's m_sema. *)
Record sem : Type := mkSem { count : Z; kernel : Z }.
Definition set_count x (s : sem) := mkSem x (kernel s).
Definition set_kernel x (s : sem) := mkSem (count s) x.

(** What a waiting thread is after: wait() and tryWait() take one token,
    waitMany(max) and tryWaitMany(max) as many as there are up to [max]. *)
Inductive want : Type := One | Many (max : Z).
Definition amount (w : want) : Z := match w with One => 1 | Many max => max end.
(** The value a compare-and-swap of [old] > 0 puts in. *)
Definition newCount (w : want) (old : Z) : Z :=
  match w with One => old - 1 | Many max => if max <? old then old - max else 0 end.

(** What follows a tryWait or tryWaitMany that gets nothing: its caller's return, the
    spinning of a wait with that timeout, or, for the attempt to take more at the end
    of waitMany, the return with the one token it has. *)
Inductive after : Type := Fail | Spin (timeout : Z) | Rest.
Definition base (k : after) : Z := match k with Rest => 1 | _ => 0 end.

(** What a thread does next; [Idle] carries what its last call returned. *)
Inductive pc : Type :=
  | Idle (got : Z)
  | TryLoad (k : after) (w : want)
  | TryCas (k : after) (w : want) (old : Z)
  | SpinLoad (w : want) (timeout : Z) (spins : nat)
  | SpinCas (w : want) (timeout : Z) (spins : nat) (old : Z)
  | FetchSub (w : want) (timeout : Z)
  | Sleep (w : want) (timeout : Z)     (** in m_sema.wait() or timed_wait() *)
  | AdjLoad (w : want)                 (** the loop after a timeout: its load, *)
  | AdjTry (w : want)                  (** its try_wait() *)
  | AdjCas (w : want) (old : Z)        (** and its compare-and-swap *)
  | Posting (left : Z).                (** in m_sema.signal(count) *)

(** The calls of an idle thread; a busy one goes on, sees its weak compare-and-swap
    fail for no reason, or its timed wait time out. *)
Inductive action : Type :=
  | CallTry (w : want) | CallWait (w : want) (timeout : Z) | CallSignal (count : Z)
  | Go | Spurious | TimeOut.
(** Tokens taken and given, for the accounts. *)
Inductive event : Type := Silent | Took (n : Z) | Gave (n : Z).

Section Steps.
Context (maxSpins : nat).

(** The next round of the spinning loop, or its end. *)
Definition spin (w : want) (timeout : Z) (spins : nat) : pc :=
  match spins with O => FetchSub w timeout | S spins => SpinLoad w timeout spins end.
Definition missed (k : after) (w : want) : pc :=
  match k with
  | Fail => Idle 0
  | Rest => Idle 1
  | Spin timeout => if 0 <? amount w then spin w timeout maxSpins else Idle 0
  end.
(** A thread that has its first token out of a wait: waitMany tries for more. *)
Definition gotOne (w : want) : pc :=
  match w with
  | One => Idle 1
  | Many max => if 1 <? max then TryLoad Rest (Many (max - 1)) else Idle 1
  end.
Definition retry (k : after) (w : want) (s : sem) : pc :=
  if 0 <? count s then TryCas k w (count s) else missed k w.
(** One token of the kernel's semaphore, or [None]. *)
Definition takeKernel (w : want) (s : sem) : option (sem * pc * event) :=
  if 0 <? kernel s then Some (set_kernel (kernel s - 1) s, gotOne w, Took 1) else None.

(** The calls, up to their first access, and signal()'s fetch_add; asserts are the
    conditions of a call. *)
Definition call (a : action) (s : sem) : option (sem * pc * event) :=
  match a with
  | CallTry w => if 0 <=? amount w then Some (s, TryLoad Fail w, Silent) else None
  | CallWait w timeout => if 0 <=? amount w then Some (s, TryLoad (Spin timeout) w, Silent) else None
  | CallSignal c =>
      if 0 <=? c then
        let old := count s in
        let toRelease := if - old <? c then - old else c in
        Some (set_count (wrapS 64 (old + c)) s,
              if 0 <? toRelease then Posting (wrapS 32 toRelease) else Idle 0, Gave c)
      else None
  | _ => None
  end.

(** One atomic access of a thread. *)
Definition tstep (a : action) (p : pc) (s : sem) : option (sem * pc * event) :=
  match p, a with
  | Idle _, _ => call a s
  | TryLoad k w, Go => Some (s, retry k w s, Silent)
  | TryCas k w old, Go =>
      if count s =? old
      then Some (set_count (newCount w old) s, Idle (base k + (old - newCount w old)), Took (old - newCount w old))
      else Some (s, retry k w s, Silent)
  | TryCas k w old, Spurious => Some (s, retry k w s, Silent)
  | SpinLoad w t n, Go => Some (s, if 0 <? count s then SpinCas w t n (count s) else spin w t n, Silent)
  | SpinCas w t n old, Go =>
      if count s =? old
      then Some (set_count (newCount w old) s, Idle (old - newCount w old), Took (old - newCount w old))
      else Some (s, spin w t n, Silent)
  | FetchSub w t, Go =>
      let s' := set_count (wrapS 64 (count s - 1)) s in
      if 0 <? count s then Some (s', gotOne w, Took 1)
      else Some (s', if t =? 0 then AdjLoad w else Sleep w t, Silent)
  | Sleep w t, Go => takeKernel w s
  | Sleep w t, TimeOut => if 0 <? t then Some (s, AdjLoad w, Silent) else None
  | AdjLoad w, Go => Some (s, if 0 <=? count s then AdjTry w else AdjCas w (count s), Silent)
  | AdjTry w, Go => Some (default (s, AdjLoad w, Silent) (takeKernel w s))
  | AdjCas w old, Go =>
      if count s =? old then Some (set_count (old + 1) s, Idle 0, Silent) else Some (s, AdjLoad w, Silent)
  | Posting n, Go => Some (set_kernel (kernel s + 1) s, if 0 <? n - 1 then Posting (n - 1) else Idle 0, Silent)
  | _, _ => None
  end.

Definition config : Type := sem * list pc.
Definition exec (i : nat) (a : action) (c : config) : option (config * event) :=
  p ← c.2 !! i; '(s', p', e) ← tstep a p c.1; Some ((s', <[i := p']> c.2), e).

(** LightweightSemaphore(initialCount), used by [n] threads. *)
Definition init (initial : Z) (n : nat) : config := (mkSem initial 0, replicate n (Idle 0)).
(** The number of threads, and of tokens at a time, that the widths of the code allow
    for: signal() passes the tokens to release on as an int. *)
Definition limit : Z := 2 ^ 31.
Definition evGiven (e : event) : Z := match e with Gave n => n | _ => 0 end.
Definition evTaken (e : event) : Z := match e with Took n => n | _ => 0 end.
(** The configurations that can be reached within that number, with what happened. *)
Inductive run (initial : Z) (n : nat) : list event → config → Prop :=
  | run_init : run initial n [] (init initial n)
  | run_step tr c i a c' e : run initial n tr c → exec i a c = Some (c', e) → count c.1 + evGiven e < limit →
      run initial n (tr ++ [e]) c'.

Fixpoint runSched (sched : list (nat * action)) (c : config) : option (config * list event) :=
  match sched with
  | [] => Some (c, [])
  | (i, a) :: sched => '(c', e) ← exec i a c; '(c'', es) ← runSched sched c'; Some (c'', e :: es)
  end.
(** availableApprox() *)
Definition availableApprox (s : sem) : Z := if 0 <? count s then count s else 0.
End Steps.

(** timed_wait(usecs): the absolute time sem_timedwait is given, as seconds and
    nanoseconds, from the clock's. *)
Definition deadline (sec nsec usecs : Z) : Z * Z :=
  let sec1 := sec + usecs `quot` 1000000 in
  let nsec1 := nsec + (usecs `rem` 1000000) * 1000 in
  if 1000000000 <=? nsec1 then (sec1 + 1, nsec1 - 1000000000) else (sec1, nsec1).
(** It is the clock's time later by [usecs], and well formed. *)
Lemma deadline_spec sec nsec usecs : 0 <= usecs → 0 <= nsec < 1000000000 →
  let d := deadline sec nsec usecs in
  d.1 * 1000000000 + d.2 = sec * 1000000000 + nsec + usecs * 1000 ∧ 0 <= d.2 < 1000000000.
Proof.
  intros Hu Hn. unfold deadline. pose proof (Z.quot_rem' usecs 1000000). pose proof (Z.rem_bound_pos usecs 1000000 Hu ltac:(lia)).
  destruct (_ <=? _) eqn:?; simpl; lia.
Qed.

(** *** Accounts *)
Definition given (tr : list event) : Z := sumZ evGiven tr.
Definition taken (tr : list event) : Z := sumZ evTaken tr.
(** The thread has taken one off the counter and has no token for it yet. *)
Definition waiting (p : pc) : Z := match p with Sleep _ _ | AdjLoad _ | AdjTry _ | AdjCas _ _ => 1 | _ => 0 end.
(** The tokens it is about to put into the kernel's semaphore. *)
Definition posting (p : pc) : Z := match p with Posting n => n | _ => 0 end.

(** What a thread knows where it is. *)
Definition pc_ok (p : pc) : Prop :=
  match p with
  | Idle got => 0 <= got
  | TryLoad _ w => 0 <= amount w
  | TryCas _ w old => 0 <= amount w ∧ 0 < old
  | SpinCas w _ _ old => 0 < amount w ∧ 0 < old
  | SpinLoad w _ _ | FetchSub w _ | Sleep w _ | AdjLoad w | AdjTry w => 0 < amount w
  | AdjCas w old => 0 < amount w ∧ old < 0
  | Posting n => 0 < n
  end.

(** Every decrement of a waiting thread that the counter does not show any more has
    its token, in the kernel's semaphore or on its way there. *)
Record balanced (initial : Z) (tr : list event) (c : config) : Prop := {
  bl_pcs : Forall pc_ok c.2;
  bl_kernel : 0 <= kernel c.1;
  bl_credit : initial + given tr - taken tr = count c.1 + sumZ waiting c.2;
  bl_tokens : sumZ waiting c.2 = Z.max 0 (- count c.1) + kernel c.1 + sumZ posting c.2;
  bl_taken : 0 <= taken tr;
  bl_given : 0 <= given tr;
  bl_limit : count c.1 < limit
}.

Lemma newCount_spec w old : 0 <= amount w → 0 < old →
  0 <= newCount w old ∧ 0 <= old - newCount w old <= amount w ∧ (0 < amount w → 0 < old - newCount w old).
Proof. intros Hw Ho. destruct w as [|max]; simpl in *; [lia|]. destruct (max <? old) eqn:?; lia. Qed.
Lemma wrapS_small w z : 0 < w → - 2 ^ (w - 1) <= z < 2 ^ (w - 1) → wrapS w z = z.
Proof.
  intros Hw Hz. unfold wrapS. rewrite Z.mod_small; [lia|].
  replace (2 ^ w) with (2 ^ (w - 1) + 2 ^ (w - 1)); [lia|]. replace w with (w - 1 + 1) at 3 by lia. rewrite Z.pow_add_r by lia. lia.
Qed.
Lemma wrap64 z : - limit <= z < limit → wrapS 64 z = z.
Proof. intros Hz. apply wrapS_small; [done|]. unfold limit in Hz. lia. Qed.
Lemma wrap32 z : - limit <= z < limit → wrapS 32 z = z.
Proof. intros Hz. by apply wrapS_small. Qed.

Section Facts.
Context (maxSpins : nat).
Notation tstep := (tstep maxSpins).
Notation run := (run maxSpins).
Notation exec := (exec maxSpins).

Lemma spin_ok w t n : 0 < amount w → pc_ok (spin w t n) ∧ waiting (spin w t n) = 0 ∧ posting (spin w t n) = 0.
Proof. by destruct n. Qed.
Lemma missed_ok k w : 0 <= amount w → pc_ok (missed maxSpins k w) ∧ waiting (missed maxSpins k w) = 0 ∧ posting (missed maxSpins k w) = 0.
Proof. intros Hw. destruct k; simpl; [done| |done]. destruct (0 <? amount w) eqn:?; [apply spin_ok; lia|done]. Qed.
Lemma gotOne_ok w : 0 < amount w → pc_ok (gotOne w) ∧ waiting (gotOne w) = 0 ∧ posting (gotOne w) = 0.
Proof. intros Hw. destruct w as [|max]; simpl in *; [done|]. destruct (1 <? max) eqn:?; simpl; split; lia || done. Qed.
Lemma retry_ok k w s : 0 <= amount w → pc_ok (retry maxSpins k w s) ∧ waiting (retry maxSpins k w s) = 0 ∧ posting (retry maxSpins k w s) = 0.
Proof. intros Hw. unfold retry. destruct (0 <? count s) eqn:?; [simpl; split; lia || done|by apply missed_ok]. Qed.

(** What an atomic access does to the accounts. *)
Record moves (p : pc) (s : sem) (p' : pc) (s' : sem) (e : event) : Prop := {
  mv_pc : pc_ok p';
  mv_kernel : 0 <= kernel s';
  mv_credit : evGiven e - evTaken e = (count s' + waiting p') - (count s + waiting p);
  mv_tokens : waiting p' - waiting p
    = (Z.max 0 (- count s') + kernel s' + posting p') - (Z.max 0 (- count s) + kernel s + posting p);
  mv_taken : 0 <= evTaken e;
  mv_given : 0 <= evGiven e;
  mv_limit : count s' <= Z.max 0 (count s + evGiven e)
}.
Lemma moves_silent p s p' : pc_ok p' → 0 <= kernel s → waiting p' = waiting p → posting p' = posting p → moves p s p' s Silent.
Proof. intros H1 H2 H3 H4. split; simpl; try done; lia. Qed.
Lemma moves_cas k p w old s : waiting p = 0 → posting p = 0 → 0 <= amount w → 0 < old → 0 <= kernel s → count s = old →
  moves p s (Idle (base k + (old - newCount w old))) (set_count (newCount w old) s) (Took (old - newCount w old)).
Proof.
  intros H1 H2 Hw Ho Hk <-. destruct (newCount_spec w (count s) Hw Ho) as (N1 & N2 & N3).
  split; simpl; rewrite ?H1, ?H2; try lia. destruct k; simpl; lia.
Qed.
Lemma moves_kernel p w s s' p' e : takeKernel w s = Some (s', p', e) → 0 < amount w → waiting p = 1 → posting p = 0 →
  moves p s p' s' e.
Proof.
  unfold takeKernel. destruct (0 <? kernel s) eqn:Hk; [|done]. intros [= <- <- <-] Hw H1 H2.
  destruct (gotOne_ok w Hw) as (G1 & G2 & G3). split; simpl; rewrite ?G2, ?G3, ?H1, ?H2; try done; lia.
Qed.

Lemma call_moves a got s s' p' e : call a s = Some (s', p', e) → 0 <= kernel s → - limit < count s < limit →
  count s + evGiven e < limit → moves (Idle got) s p' s' e.
Proof.
  intros Hc Hk Hs Hg. destruct a as [w|w t|c| | |]; simpl in Hc; try done.
  - destruct (0 <=? amount w) eqn:?; [|done]. injection Hc as <- <- <-. apply moves_silent; simpl; lia || done.
  - destruct (0 <=? amount w) eqn:?; [|done]. injection Hc as <- <- <-. apply moves_silent; simpl; lia || done.
  - destruct (0 <=? c) eqn:?; [|done]. injection Hc as <- <- <-. simpl in Hg.
    set (r := if - count s <? c then - count s else c).
    assert (Hr : r <= - count s ∧ r <= c ∧ (r = - count s ∨ r = c)) by (unfold r; destruct (- count s <? c) eqn:?; lia).
    rewrite wrap64 by lia. destruct (0 <? r) eqn:Hr0.
    + rewrite wrap32 by lia. split; simpl; lia.
    + split; simpl; lia.
Qed.

Lemma tstep_moves a p s s' p' e : tstep a p s = Some (s', p', e) → pc_ok p → 0 <= kernel s → - limit < count s < limit →
  count s + evGiven e < limit → moves p s p' s' e.
Proof.
  intros Ht Hp Hk Hs Hg. destruct p as [got|k w|k w old|w t n|w t n old|w t|w t|w|w|w old|n]; [by eapply call_moves|..];
    destruct a; try done; simpl in Ht, Hp.
  - injection Ht as <- <- <-. destruct (retry_ok k w s Hp) as (? & ? & ?). by apply moves_silent.
  - destruct (count s =? old) eqn:?; injection Ht as <- <- <-; [by apply moves_cas; try lia|].
    destruct (retry_ok k w s (proj1 Hp)) as (? & ? & ?). by apply moves_silent.
  - injection Ht as <- <- <-. destruct (retry_ok k w s (proj1 Hp)) as (? & ? & ?). by apply moves_silent.
  - injection Ht as <- <- <-. destruct (0 <? count s) eqn:?; [apply moves_silent; simpl; lia || done|].
    destruct (spin_ok w t n Hp) as (? & ? & ?). by apply moves_silent.
  - destruct (count s =? old) eqn:?; injection Ht as <- <- <-; [by apply (moves_cas Fail); try lia|].
    destruct (spin_ok w t n (proj1 Hp)) as (? & ? & ?). by apply moves_silent.
  - rewrite wrap64 in Ht by lia. destruct (gotOne_ok w Hp) as (G1 & G2 & G3).
    destruct (0 <? count s) eqn:?; injection Ht as <- <- <-; [split; simpl; rewrite ?G2, ?G3; try done; lia|].
    destruct (t =? 0); split; simpl; try done; lia.
  - by eapply moves_kernel.
  - destruct (0 <? t); [|done]. injection Ht as <- <- <-. by apply moves_silent.
  - injection Ht as <- <- <-. destruct (0 <=? count s) eqn:?; apply moves_silent; simpl; lia || done.
  - destruct (takeKernel w s) as [[[s1 p1] e1]|] eqn:Htk; injection Ht as <- <- <-; [by eapply moves_kernel|by apply moves_silent].
  - destruct (count s =? old) eqn:?; injection Ht as <- <- <-; [split; simpl; try done; lia|]. apply moves_silent; simpl; lia || done.
  - injection Ht as <- <- <-. destruct (0 <? n - 1) eqn:?; split; simpl; try done; lia.
Qed.

Lemma given_snoc tr e : given (tr ++ [e]) = given tr + evGiven e.
Proof. unfold given. rewrite sumZ_app. simpl. lia. Qed.
Lemma taken_snoc tr e : taken (tr ++ [e]) = taken tr + evTaken e.
Proof. unfold taken. rewrite sumZ_app. simpl. lia. Qed.

Lemma waiting_bounds ps : 0 <= sumZ waiting ps <= Z.of_nat (length ps).
Proof. pose proof (sumZ_bounds waiting 0 1 ps) as H. rewrite Z.mul_0_r, Z.mul_1_r in H. apply H. apply list.Forall_forall. intros [] _; simpl; lia. Qed.
Lemma posting_nonneg ps : Forall pc_ok ps → 0 <= sumZ posting ps.
Proof. induction 1 as [|p ps Hp _ IH]; simpl; [done|]. fold (sumZ posting ps). destruct p; simpl in *; lia. Qed.

Lemma balanced_count initial tr c : balanced initial tr c → - Z.of_nat (length c.2) <= count c.1.
Proof. intros [B1 B2 B3 B4 B5 B6 B7]. pose proof (waiting_bounds c.2). pose proof (posting_nonneg _ B1). lia. Qed.

Lemma exec_balanced initial tr c i a c' e : balanced initial tr c → exec i a c = Some (c', e) →
  Z.of_nat (length c.2) < limit → count c.1 + evGiven e < limit → balanced initial (tr ++ [e]) c'.
Proof.
  intros Hb He Hn Hg. pose proof (balanced_count _ _ _ Hb) as Hc. destruct Hb as [B1 B2 B3 B4 B5 B6 B7]. destruct c as [s ps]. simpl in *.
  unfold exec in He. simpl in He. destruct (ps !! i) as [p|] eqn:Hp; [|done]. simpl in He.
  destruct (tstep a p s) as [[[s' p'] e']|] eqn:Ht; [|done]. injection He as <- <-.
  destruct (tstep_moves a p s s' p' e' Ht) as [M1 M2 M3 M4 M5 M6 M7]; [by eapply Forall_lookup_1|done|lia|lia|].
  split; simpl; rewrite ?given_snoc, ?taken_snoc, ?(sumZ_insert waiting _ _ _ p' Hp), ?(sumZ_insert posting _ _ _ p' Hp);
    [by apply Forall_insert|lia..].
Qed.

Lemma run_length initial n tr c : run initial n tr c → length c.2 = n.
Proof.
  induction 1 as [|tr [s ps] i a c' e _ IH He]; [apply length_replicate|]. unfold exec in He. simpl in *.
  destruct (ps !! i); [|done]. simpl in He. destruct (tstep _ _ _) as [[[? ?] ?]|]; [|done]. injection He as <- <-. simpl. by rewrite length_insert.
Qed.

Lemma run_balanced initial n tr c : run initial n tr c → 0 <= initial < limit → Z.of_nat n < limit → balanced initial tr c.
Proof.
  intros Hr Hi Hn. induction Hr as [|tr c i a c' e Hr IH He Hg].
  - split; simpl; try done; [by apply Forall_replicate| | |]; rewrite ?sumZ_replicate; simpl; unfold given, taken; simpl; lia.
  - apply (exec_balanced _ _ c i a c' e IH He); [by rewrite (run_length _ _ _ _ Hr)|lia].
Qed.

(** *** What the semaphore promises *)

(** C31. The tokens are accounted for, under every interleaving of any number of threads
    that wait, wait for many, time out and signal: no more tokens are ever taken than
    were given; when a thread sleeps and no token is in the kernel's semaphore or on
    its way there, then every token has been taken, so no wakeup is lost; when all
    threads are idle, nothing is left in the kernel's semaphore and the counter, which
    availableApprox() reads, is exactly the tokens not taken. *)
Theorem tokens_accounted initial n tr s ps :
  run initial n tr (s, ps) → 0 <= initial < limit → Z.of_nat n < limit →
  0 <= taken tr <= initial + given tr ∧
  (0 < sumZ waiting ps → kernel s + sumZ posting ps = 0 → taken tr = initial + given tr) ∧
  ((∀ p, p ∈ ps → ∃ got, p = Idle got) →
    kernel s = 0 ∧ count s = initial + given tr - taken tr ∧ availableApprox s = initial + given tr - taken tr).
Proof.
  intros Hr Hi Hn. destruct (run_balanced _ _ _ _ Hr Hi Hn) as [B1 B2 B3 B4 B5 B6 B7]. simpl in *.
  pose proof (posting_nonneg _ B1) as Hpost. pose proof (waiting_bounds ps) as Hwait. split; [lia|]. split; [lia|].
  intros Hidle. assert (Hz : sumZ waiting ps = 0 ∧ sumZ posting ps = 0).
  { clear -Hidle. induction ps as [|p ps IH]; [done|]. destruct IH as [IH1 IH2]; [intros q Hq; apply Hidle; by right|].
    destruct (Hidle p) as [got ->]; [by left|]. done. }
  split; [lia|]. split; [lia|]. unfold availableApprox. destruct (0 <? count s) eqn:?; lia.
Qed.

(** A thread in the loop that follows a timeout. *)
Definition adjusting (p : pc) : Prop := match p with AdjLoad _ | AdjTry _ | AdjCas _ _ => True | _ => False end.

Lemma exec_at i a s ps p s' p' e : ps !! i = Some p → tstep a p s = Some (s', p', e) → exec i a (s, ps) = Some ((s', <[i := p']> ps), e).
Proof. intros Hp Ht. unfold exec. simpl. by rewrite Hp; simpl; rewrite Ht. Qed.

Lemma runSched_cons i a c c' e sched c'' es : exec i a c = Some (c', e) → runSched maxSpins sched c' = Some (c'', es) →
  runSched maxSpins ((i, a) :: sched) c = Some (c'', e :: es).
Proof. intros H1 H2. simpl. rewrite H1. simpl. by rewrite H2. Qed.

Lemma waiting_one ps i p : ps !! i = Some p → waiting p = 1 → 1 <= sumZ waiting ps.
Proof.
  intros Hp Hw. rewrite <-(list_insert_id ps i p Hp), (sumZ_insert waiting ps i p p Hp), Hw.
  pose proof (waiting_bounds (<[i := Idle 0]> ps)) as Hb. rewrite (sumZ_insert waiting ps i p (Idle 0) Hp) in Hb. simpl in Hb. lia.
Qed.

(** How the loop ends: with a token, or with the decrement taken back and a return of
    nothing. *)
Definition settled (s : sem) (es : list event) (s' : sem) (p' : pc) : Prop :=
  taken es = 1 ∧ kernel s' = kernel s - 1 ∧ count s' = count s ∨
  taken es = 0 ∧ kernel s' = kernel s ∧ count s' = count s + 1 ∧ p' = Idle 0.

(** The load of that loop, with no post under way: two accesses end it. *)
Lemma adjust_from_load initial tr s ps i w : balanced initial tr (s, ps) → sumZ posting ps = 0 → ps !! i = Some (AdjLoad w) →
  ∃ s' ps' es p', runSched maxSpins [(i, Go); (i, Go)] (s, ps) = Some ((s', ps'), es) ∧ ps' !! i = Some p' ∧ waiting p' = 0 ∧
    settled s es s' p'.
Proof.
  intros [B1 B2 B3 B4 B5 B6 B7] Hpost Hi. simpl in *. pose proof (waiting_one ps i _ Hi eq_refl) as Hw.
  pose proof (Forall_lookup_1 _ _ _ _ B1 Hi) as Hok. simpl in Hok. assert (Hlen : (i < length ps)%nat) by (by apply lookup_lt_is_Some_1; eexists).
  set (p1 := if 0 <=? count s then AdjTry w else AdjCas w (count s)).
  assert (E1 : exec i Go (s, ps) = Some ((s, <[i := p1]> ps), Silent)) by (by apply (exec_at i Go s ps (AdjLoad w))).
  assert (H1 : <[i := p1]> ps !! i = Some p1) by (by apply list_lookup_insert_eq).
  assert (Hins : ∀ p2 : pc, <[i := p2]> (<[i := p1]> ps) !! i = Some p2) by (intros p2; apply list_lookup_insert_eq; by rewrite length_insert).
  cbn [runSched]. rewrite E1. cbn [mbind option_bind]. unfold p1 in *. destruct (0 <=? count s) eqn:Hc.
  - assert (Hk : (0 <? kernel s) = true) by lia.
    rewrite (exec_at i Go s _ (AdjTry w) (set_kernel (kernel s - 1) s) (gotOne w) (Took 1) H1) by (simpl; unfold takeKernel; by rewrite Hk).
    do 4 eexists. split; [done|]. split; [apply Hins|]. destruct (gotOne_ok w Hok) as (_ & G & _). split; [done|]. by left.
  - rewrite (exec_at i Go s _ (AdjCas w (count s)) (set_count (count s + 1) s) (Idle 0) Silent H1) by (simpl; by rewrite Z.eqb_refl).
    do 4 eexists. split; [done|]. split; [apply Hins|]. split; [done|]. by right.
Qed.

(** A wait that has timed out returns: with no post under way, a thread in the loop
    that follows the timeout leaves it after at most three accesses of its own, either
    with a token or having put its decrement back, whatever the other threads were
    doing when it came there. *)
Theorem timeout_returns initial n tr s ps i p :
  run initial n tr (s, ps) → 0 <= initial < limit → Z.of_nat n < limit →
  ps !! i = Some p → adjusting p → sumZ posting ps = 0 →
  ∃ k s' ps' es p', (k <= 3)%nat ∧ runSched maxSpins (replicate k (i, Go)) (s, ps) = Some ((s', ps'), es) ∧
    ps' !! i = Some p' ∧ waiting p' = 0 ∧ settled s es s' p'.
Proof.
  intros Hr Hi Hn Hp Hadj Hpost. pose proof (run_balanced _ _ _ _ Hr Hi Hn) as Hb.
  assert (Hlen : (i < length ps)%nat) by (by apply lookup_lt_is_Some_1; eexists).
  assert (Hback : ∀ w, tstep Go p s = Some (s, AdjLoad w, Silent) → ∃ k s' ps' es p', (k <= 3)%nat ∧
    runSched maxSpins (replicate k (i, Go)) (s, ps) = Some ((s', ps'), es) ∧ ps' !! i = Some p' ∧ waiting p' = 0 ∧ settled s es s' p').
  { intros w Ht. pose proof (exec_at i Go s ps p _ _ _ Hp Ht) as He.
    assert (Hlim : count s + evGiven Silent < limit) by (simpl; pose proof (bl_limit _ _ _ Hb); simpl in *; lia).
    pose proof (run_balanced _ _ _ _ (run_step _ _ _ _ _ _ _ _ _ Hr He Hlim) Hi Hn) as Hb'.
    destruct (adjust_from_load _ _ s _ i w Hb') as (s' & ps' & es & p' & R1 & R2 & R3 & R4).
    - rewrite (sumZ_insert posting ps i p (AdjLoad w) Hp). destruct p; simpl in *; done || lia.
    - by apply list_lookup_insert_eq.
    - exists 3%nat, s', ps', (Silent :: es), p'. split; [lia|]. split; [|done].
      by apply (runSched_cons _ _ _ _ _ _ _ _ He). }
  pose proof (Forall_lookup_1 _ _ _ _ (bl_pcs _ _ _ Hb) Hp) as Hok.
  destruct p as [| | | | | | |w|w|w old|]; try done; simpl in Hok.
  - destruct (adjust_from_load _ _ s ps i w Hb Hpost Hp) as (s' & ps' & es & p' & R1 & R2 & R3 & R4). exists 2%nat, s', ps', es, p'. split; [lia|done].
  - destruct (0 <? kernel s) eqn:Hk; [|apply (Hback w); simpl; unfold takeKernel; by rewrite Hk].
    exists 1%nat. assert (Ht : tstep Go (AdjTry w) s = Some (set_kernel (kernel s - 1) s, gotOne w, Took 1)) by (simpl; unfold takeKernel; by rewrite Hk).
    cbn [replicate runSched]. rewrite (exec_at i Go s ps _ _ _ _ Hp Ht). do 4 eexists. split; [lia|]. split; [done|].
    split; [by apply list_lookup_insert_eq|]. split; [apply gotOne_ok, Hok|by left].
  - destruct (count s =? old) eqn:Hc; [|apply (Hback w); simpl; by rewrite Hc].
    exists 1%nat. assert (Ht : tstep Go (AdjCas w old) s = Some (set_count (old + 1) s, Idle 0, Silent)) by (simpl; by rewrite Hc).
    cbn [replicate runSched]. rewrite (exec_at i Go s ps _ _ _ _ Hp Ht). do 4 eexists. split; [lia|]. split; [done|].
    split; [by apply list_lookup_insert_eq|]. split; [done|]. right. apply Z.eqb_eq in Hc. by rewrite Hc.
Qed.
End Facts.

(** A schedule that stays within the limit is a run. *)
Fixpoint within (maxSpins : nat) (sched : list (nat * action)) (c : config) : bool :=
  match sched with
  | [] => true
  | (i, a) :: sched =>
      match exec maxSpins i a c with
      | Some (c', e) => (count c.1 + evGiven e <? limit) && within maxSpins sched c'
      | None => false
      end
  end.
Lemma run_sched maxSpins initial n sched : ∀ tr c c' es, run maxSpins initial n tr c →
  runSched maxSpins sched c = Some (c', es) → within maxSpins sched c = true → run maxSpins initial n (tr ++ es) c'.
Proof.
  induction sched as [|[i a] sched IH]; intros tr c c' es Hr Hs Hw; simpl in *.
  - injection Hs as <- <-. by rewrite app_nil_r.
  - destruct (exec maxSpins i a c) as [[c1 e]|] eqn:He; [|done]. simpl in Hs. apply andb_true_iff in Hw as [Hl Hw].
    destruct (runSched maxSpins sched c1) as [[c2 es2]|] eqn:Hs2; [|done]. injection Hs as <- <-.
    rewrite (cons_middle e tr es2), app_assoc. apply (IH _ c1); [|done|done]. apply (run_step maxSpins initial n tr c i a); [done|done|lia].
Qed.

(** Thread 0 sleeps until thread 1 signals twice; one token is left. *)
Definition sleepAndSignal : list (nat * action) :=
  [(0%nat, CallWait One 5); (0%nat, Go); (0%nat, Go); (0%nat, Go); (1%nat, CallSignal 2); (1%nat, Go); (0%nat, Go)].
Lemma tokens_accounted_witness :
  ∃ tr s, run 1 0 2 tr (s, [Idle 1; Idle 0]) ∧ given tr = 2 ∧ taken tr = 1 ∧ kernel s = 0 ∧ availableApprox s = 1.
Proof.
  assert (Hr : ∃ tr s, run 1 0 2 tr (s, [Idle 1; Idle 0]) ∧ given tr = 2 ∧ taken tr = 1).
  { eexists _, (mkSem 1 0). split; [|split].
    - refine (run_sched 1 0 2 sleepAndSignal [] (init 0 2) _ _ (run_init _ _ _) _ _); by vm_compute.
    - by vm_compute.
    - by vm_compute. }
  destruct Hr as (tr & s & Hr & Hg & Ht). exists tr, s.
  destruct (tokens_accounted 1 0 2 tr s _ Hr) as (_ & _ & H); [done|done|].
  destruct H as (H1 & _ & H2).
  { intros p [->|[->|[]%not_elem_of_nil]%elem_of_cons]%elem_of_cons; by eexists. }
  rewrite Hg, Ht in H2. by split_and!.
Defined.

(** Thread 0 times out in its sleep. *)
Lemma timeout_returns_witness :
  ∃ tr s ps k s' ps' es p', run 1 0 1 tr (s, ps) ∧ ps = [AdjLoad One] ∧ (k <= 3)%nat ∧
    runSched 1 (replicate k (0%nat, Go)) (s, ps) = Some ((s', ps'), es) ∧ ps' !! 0%nat = Some p' ∧ waiting p' = 0.
Proof.
  assert (Hr : run 1 0 1 [Silent; Silent; Silent; Silent; Silent] (mkSem (-1) 0, [AdjLoad One])).
  { refine (run_sched 1 0 1 [(0%nat, CallWait One 5); (0%nat, Go); (0%nat, Go); (0%nat, Go); (0%nat, TimeOut)] [] (init 0 1) _ _
      (run_init _ _ _) _ _); by vm_compute. }
  destruct (timeout_returns 1 0 1 _ _ _ 0 (AdjLoad One) Hr) as (k & s' & ps' & es & p' & H1 & H2 & H3 & H4 & _); [done|done|done|done|done|].
  exists [Silent; Silent; Silent; Silent; Silent], (mkSem (-1) 0), [AdjLoad One], k, s', ps', es, p'.
  split; [exact Hr|]. by split_and!.
Defined.
End Sema.
