(* ===== verification/BlockingQueue.v ===== *)
(** The blocking queue of the storage worker (BlockingConcurrentQueue in
    external/concurrent_queue/blockingconcurrentqueue.h): the semaphore over an inner
    concurrent queue, for any number of threads. The inner queue is an interface: it
    keeps the items of each enqueuing thread in order and promises no order between
    threads. *)
From S2P Require Import Prelude Semaphore.
From Stdlib Require Import Lia ZifyBool.

(** What moodycamel::ConcurrentQueue promises: a producer's items form a lane, taken
    from its front; which lane try_dequeue finds an item in is not determined ([choice]),
    and it may miss the items that are there, because it looks at one lane after the
    other while other threads take and add items ("likely but not guaranteed to be
    empty"), although it can find one. A producer is a thread, or a producer token. *)
Class ConcurrentQueue (A : Type) : Type := {
  cq : Type;
  cq_empty : cq;
  cq_enqueue : nat → list A → cq → cq;               (* enqueue, enqueue_bulk *)
  cq_try_dequeue : nat → cq → option (nat * A * cq);
  cq_lane : cq → nat → list A;
  cq_size : cq → Z;
  cq_ok : cq → Prop
}.
Class ConcurrentQueueOk (A : Type) {Q : ConcurrentQueue A} : Prop := {
  cq_empty_ok : cq_ok cq_empty;
  cq_empty_lane : ∀ t, cq_lane cq_empty t = [];
  cq_empty_size : cq_size cq_empty = 0;
  cq_enqueue_ok : ∀ t xs q, cq_ok q → cq_ok (cq_enqueue t xs q);
  cq_enqueue_lane : ∀ t xs q t', cq_ok q → cq_lane (cq_enqueue t xs q) t' = cq_lane q t' ++ (if decide (t' = t) then xs else []);
  cq_enqueue_size : ∀ t xs q, cq_ok q → cq_size (cq_enqueue t xs q) = cq_size q + Z.of_nat (length xs);
  cq_take_ok : ∀ ch q t x q', cq_ok q → cq_try_dequeue ch q = Some (t, x, q') → cq_ok q';
  cq_take_lane : ∀ ch q t x q', cq_ok q → cq_try_dequeue ch q = Some (t, x, q') →
    ∀ t', cq_lane q t' = (if decide (t' = t) then [x] else []) ++ cq_lane q' t';
  cq_take_size : ∀ ch q t x q', cq_ok q → cq_try_dequeue ch q = Some (t, x, q') → cq_size q' = cq_size q - 1;
  cq_can_take : ∀ q, cq_ok q → 0 < cq_size q → ∃ ch, is_Some (cq_try_dequeue ch q);
  cq_lane_size : ∀ q t, cq_ok q → Z.of_nat (length (cq_lane q t)) <= cq_size q
}.
(** A queue with one consumer, as the storage worker's: nothing leaves it while that
    thread looks, so the look finds what was there when it began. *)
Class SoleConsumer (A : Type) {Q : ConcurrentQueue A} : Prop := {
  sole_ok :: ConcurrentQueueOk A;
  sole_take_none : ∀ ch q, cq_ok q → cq_try_dequeue ch q = None → cq_size q <= 0
}.

(** *** The lanes of the queue *)

(** ConcurrentQueue as its list of producers, the newest first, each with its items:
    what enqueue and try_dequeue do when no other thread interferes. A thread that has
    not enqueued yet gets a new producer. *)
Section Lanes.
Context {A : Type}.
Notation producers := (list (nat * list A)).

Fixpoint laneOf (q : producers) (t : nat) : list A :=
  match q with [] => [] | (t', l) :: q => if decide (t = t') then l else laneOf q t end.
(** inner_enqueue: to the thread's own producer (get_or_add_implicit_producer). *)
Fixpoint appendTo (t : nat) (xs : list A) (q : producers) : option producers :=
  match q with
  | [] => None
  | (t', l) :: q => if decide (t = t') then Some ((t', l ++ xs) :: q) else q' ← appendTo t xs q; Some ((t', l) :: q')
  end.
Definition lanes_enqueue (t : nat) (xs : list A) (q : producers) : producers :=
  default ((t, xs) :: q) (appendTo t xs q).
(** ProducerBase::dequeue on the producer of thread [t]. *)
Fixpoint takeLane (t : nat) (q : producers) : option (A * producers) :=
  match q with
  | [] => None
  | (t', l) :: q =>
      if decide (t = t') then match l with [] => None | x :: l => Some (x, (t', l) :: q) end
      else '(x, q') ← takeLane t q; Some (x, (t', l) :: q')
  end.
(** The scoring loop of try_dequeue: the longest of the first three that are not
    empty. *)
Fixpoint bestLane (nonEmptyCount : nat) (best : option nat) (bestSize : nat) (q : producers) : option nat :=
  match q with
  | [] => best
  | (t, l) :: q =>
      if decide (3 <= nonEmptyCount)%nat then best
      else if decide (0 < length l)%nat then
        if decide (bestSize < length l)%nat then bestLane (S nonEmptyCount) (Some t) (length l) q
        else bestLane (S nonEmptyCount) best bestSize q
      else bestLane nonEmptyCount best bestSize q
  end.
(** Its second loop, over every producer but the best. *)
Fixpoint takeOther (best : nat) (ts : list nat) (q : producers) : option (nat * A * producers) :=
  match ts with
  | [] => None
  | t :: ts =>
      if decide (t = best) then takeOther best ts q
      else match takeLane t q with Some (x, q') => Some (t, x, q') | None => takeOther best ts q end
  end.
Definition lanes_try_dequeue (q : producers) : option (nat * A * producers) :=
  best ← bestLane 0 None 0 q;
  match takeLane best q with Some (x, q') => Some (best, x, q') | None => takeOther best q.*1 q end.

#[export] Instance lanes : ConcurrentQueue A := {|
  cq := producers;
  cq_empty := [];
  cq_enqueue := lanes_enqueue;
  cq_try_dequeue _ := lanes_try_dequeue;
  cq_lane := laneOf;
  cq_size := sumZ (λ p, Z.of_nat (length p.2));
  cq_ok q := NoDup q.*1
|}.

Notation size := (sumZ (λ p : nat * list A, Z.of_nat (length p.2))).
Lemma laneOf_new q t : t ∉ q.*1 → laneOf q t = [].
Proof. induction q as [|[t' l] q IH]; csimpl; [done|]. intros [Hne Hin]%not_elem_of_cons. rewrite decide_False by done. by apply IH. Qed.
Lemma appendTo_spec t xs q :
  match appendTo t xs q with
  | Some q' => q'.*1 = q.*1 ∧ size q' = size q + Z.of_nat (length xs) ∧ ∀ t', laneOf q' t' = laneOf q t' ++ (if decide (t' = t) then xs else [])
  | None => t ∉ q.*1
  end.
Proof.
  induction q as [|[t1 l] q IH]; simpl; [apply not_elem_of_nil|]. case_decide as Ht.
  - subst. csimpl. split; [done|]. fold (size q). rewrite length_app. split; [lia|]. intros t'. case_decide; [done|]. by rewrite app_nil_r.
  - destruct (appendTo t xs q) as [q'|]; csimpl; [|set_solver]. destruct IH as (-> & IH2 & IH3). split; [done|]. fold (size q) (size q').
    split; [lia|]. intros t'. case_decide; [|apply IH3]. subst. rewrite decide_False by done. by rewrite app_nil_r.
Qed.
Lemma takeLane_spec t q :
  match takeLane t q with
  | Some (x, q') => q'.*1 = q.*1 ∧ size q' = size q - 1 ∧ ∀ t', laneOf q t' = (if decide (t' = t) then [x] else []) ++ laneOf q' t'
  | None => laneOf q t = []
  end.
Proof.
  induction q as [|[t1 l] q IH]; simpl; [done|]. case_decide as Ht.
  - subst. destruct l as [|x l]; [done|]. csimpl. fold (size q). split; [done|]. split; [lia|]. intros t'. by case_decide.
  - destruct (takeLane t q) as [[x q']|]; csimpl; [|done]. destruct IH as (-> & IH2 & IH3). split; [done|]. fold (size q) (size q').
    split; [lia|]. intros t'. case_decide; [|apply IH3]. subst. by rewrite decide_False.
Qed.
(** The best producer is not empty, and there is one unless all are empty. *)
Lemma bestLane_spec q : ∀ n best size0, NoDup q.*1 → (best = None → n = 0%nat ∧ size0 = 0%nat) →
  match bestLane n best size0 q with
  | Some t => best = Some t ∨ laneOf q t ≠ []
  | None => best = None ∧ Forall (λ p, p.2 = []) q
  end.
Proof.
  induction q as [|[t l] q IH]; intros n best size0 Hnd Hb; simpl; [by destruct best; [left|]|].
  csimpl in Hnd. apply list.NoDup_cons in Hnd as [Hnew Hnd].
  assert (Hother : ∀ t', laneOf q t' ≠ [] → (if decide (t' = t) then l else laneOf q t') ≠ []).
  { intros t' Ht'. case_decide; [subst; by rewrite laneOf_new in Ht'|done]. }
  case_decide as Hn; [destruct best; [by left|destruct (Hb eq_refl); lia]|]. case_decide as Hl.
  - case_decide as Hs.
    + specialize (IH (S n) (Some t) (length l) Hnd ltac:(done)). destruct (bestLane _ _ _ _) as [t'|]; [|by destruct IH].
      right. destruct IH as [[= ->]|IH]; [|by apply Hother]. rewrite decide_True by done. by destruct l; [simpl in Hl; lia|].
    + assert (Hbest : best ≠ None) by (intros ->; destruct (Hb eq_refl); lia).
      specialize (IH (S n) best size0 Hnd ltac:(done)). destruct (bestLane _ _ _ _) as [t'|]; [|by destruct IH].
      destruct IH as [IH|IH]; [by left|right; by apply Hother].
  - destruct l; [|simpl in Hl; lia]. specialize (IH n best size0 Hnd Hb). destruct (bestLane _ _ _ _) as [t'|].
    + destruct IH as [IH|IH]; [by left|right; by apply Hother].
    + destruct IH. split; [done|by constructor].
Qed.

Lemma lanes_take q : NoDup q.*1 →
  match lanes_try_dequeue q with
  | Some (t, x, q') => q'.*1 = q.*1 ∧ size q' = size q - 1 ∧ ∀ t', laneOf q t' = (if decide (t' = t) then [x] else []) ++ laneOf q' t'
  | None => Forall (λ p, p.2 = []) q
  end.
Proof.
  intros Hnd. unfold lanes_try_dequeue. pose proof (bestLane_spec q 0 None 0 Hnd ltac:(done)) as Hb.
  destruct (bestLane 0 None 0 q) as [t|]; simpl; [|by destruct Hb]. destruct Hb as [|Hb]; [done|].
  pose proof (takeLane_spec t q) as Ht. by destruct (takeLane t q) as [[x q']|].
Qed.
Lemma lanes_empty q : NoDup q.*1 → lanes_try_dequeue q = None → size q <= 0.
Proof.
  intros Hq H. pose proof (lanes_take q Hq) as Ht. rewrite H in Ht. clear Hq H. induction Ht as [|[t l] q Hl _ IH]; simpl; [done|].
  simpl in Hl. subst. fold (size q). exact IH.
Qed.
#[export] Instance lanes_ok : ConcurrentQueueOk A.
Proof.
  split; simpl; try done.
  - constructor.
  - intros t xs q Hq. unfold lanes_enqueue. pose proof (appendTo_spec t xs q) as H. destruct (appendTo t xs q) as [q'|]; simpl.
    + by rewrite (proj1 H).
    + by apply list.NoDup_cons.
  - intros t xs q t' _. unfold lanes_enqueue. pose proof (appendTo_spec t xs q) as H. destruct (appendTo t xs q) as [q'|]; simpl; [apply H|].
    case_decide; [subst; by rewrite laneOf_new|by rewrite app_nil_r].
  - intros t xs q _. unfold lanes_enqueue. pose proof (appendTo_spec t xs q) as H. destruct (appendTo t xs q) as [q'|]; simpl; [apply H|].
    fold (size q). lia.
  - intros _ q t x q' Hq H. pose proof (lanes_take q Hq) as Ht. rewrite H in Ht. by rewrite (proj1 Ht).
  - intros _ q t x q' Hq H. pose proof (lanes_take q Hq) as Ht. rewrite H in Ht. apply Ht.
  - intros _ q t x q' Hq H. pose proof (lanes_take q Hq) as Ht. rewrite H in Ht. apply Ht.
  - intros q Hq Hs. exists 0%nat. pose proof (lanes_empty q Hq) as He. destruct (lanes_try_dequeue q); [by eexists|]. specialize (He eq_refl). lia.
  - intros q t _. induction q as [|[t1 l] q IH]; simpl; [done|]. fold (size q). assert (0 <= size q) by (clear; induction q as [|p q IH]; simpl; [done|fold (size q); lia]).
    case_decide; lia.
Qed.
#[export] Instance lanes_sole : SoleConsumer A.
Proof. split; [apply _|]. intros ch q. exact (lanes_empty q). Qed.

(** The lanes under contention: an odd [choice] is a look that misses everything,
    because other consumers were faster wherever it looked. *)
Definition contended : ConcurrentQueue A := {|
  cq := producers;
  cq_empty := [];
  cq_enqueue := lanes_enqueue;
  cq_try_dequeue choice q := if Nat.odd choice then None else lanes_try_dequeue q;
  cq_lane := laneOf;
  cq_size := sumZ (λ p, Z.of_nat (length p.2));
  cq_ok q := NoDup q.*1
|}.
Lemma contended_ok : @ConcurrentQueueOk A contended.
Proof.
  destruct lanes_ok as [K1 K2 K3 K4 K5 K6 K7 K8 K9 K10 K11]. split; simpl in *; try done.
  1-3: intros ch q t x q' Hq; destruct (Nat.odd ch); [done|]; eauto.
  intros q Hq Hs. exists 0%nat. simpl. by destruct (K10 q Hq Hs) as [_ Hs2].
Qed.
End Lanes.

Module Blocking.
Import Sema.
Section BlockingQueue.
Context {A : Type} {Q : ConcurrentQueue A} (maxSpins : nat).

(** Where a thread is in an operation of the queue. *)
Inductive bpc : Type :=
  | BIdle
  | BPublished (n : Z)     (** enqueue: [n] items are in the inner queue, signal() comes next *)
  | BSignalling            (** in sema->signal(count) *)
  | BWaiting               (** in one of the waits of the semaphore *)
  | BTaking (left : Z).    (** in the loop around inner.try_dequeue, with [left] tokens *)
(** A thread, with where it is in the semaphore. *)
Definition thread : Type := pc * bpc.

(** try_dequeue and wait_dequeue(_timed) wait for one token, the bulk operations for
    many; a thread in the semaphore takes one of its accesses. *)
Inductive baction : Type :=
  | BEnqueue (producer : nat) (items : list A)
  | BTryDequeue (w : want)
  | BWaitDequeue (w : want) (timeout : Z)
  | BAccess (a : action)
  | BTake (choice : nat).
Inductive bevent : Type := Enqueued (producer : nat) (items : list A) | Dequeued (producer : nat) (x : A) | BSilent.

Definition bstate : Type := cq * sem * list thread.

(** The access [a] of a thread in the semaphore, and where it is then. *)
Definition access (a : action) (p : pc) (s : sem) (next : pc → bpc) : option (sem * thread) :=
  '(s', p', _) ← tstep maxSpins a p s; Some (s', (p', next p')).
Definition afterSignal (p : pc) : bpc := match p with Idle _ => BIdle | _ => BSignalling end.
Definition afterWait (p : pc) : bpc :=
  match p with Idle got => if 0 <? got then BTaking got else BIdle | _ => BWaiting end.

(** One step of a thread in enqueue or enqueue_bulk: the items go into the inner queue,
    then the semaphore is told how many. *)
Definition produceStep (a : baction) (th : thread) (q : cq) (s : sem) : option (cq * sem * thread * bevent) :=
  match th, a with
  | (p, BIdle), BEnqueue producer items =>
      Some (cq_enqueue producer items q, s, (p, BPublished (Z.of_nat (length items))), Enqueued producer items)
  | (p, BPublished n), BAccess Go => '(s', th') ← access (CallSignal n) p s afterSignal; Some (q, s', th', BSilent)
  | (p, BSignalling), BAccess a => '(s', th') ← access a p s afterSignal; Some (q, s', th', BSilent)
  | _, _ => None
  end.
(** One step in try_dequeue, wait_dequeue, wait_dequeue_timed or a bulk operation, with
    or without a consumer token: tokens are waited for, then for each of them the inner
    queue is asked until it yields an item. *)
Definition consumeStep (a : baction) (th : thread) (q : cq) (s : sem) : option (cq * sem * thread * bevent) :=
  match th, a with
  | (p, BIdle), BTryDequeue w => '(s', th') ← access (CallTry w) p s afterWait; Some (q, s', th', BSilent)
  | (p, BIdle), BWaitDequeue w timeout => '(s', th') ← access (CallWait w timeout) p s afterWait; Some (q, s', th', BSilent)
  | (p, BWaiting), BAccess a => '(s', th') ← access a p s afterWait; Some (q, s', th', BSilent)
  | (p, BTaking n), BTake choice =>
      match cq_try_dequeue choice q with
      | Some (from, x, q') => Some (q', s, (p, if n - 1 =? 0 then BIdle else BTaking (n - 1)), Dequeued from x)
      | None => Some (q, s, th, BSilent)
      end
  | _, _ => None
  end.
Definition bstep (a : baction) (th : thread) (q : cq) (s : sem) : option (cq * sem * thread * bevent) :=
  match th.2, a with
  | BIdle, BEnqueue _ _ | BPublished _, _ | BSignalling, _ => produceStep a th q s
  | _, _ => consumeStep a th q s
  end.
Definition bexec (t : nat) (a : baction) (c : bstate) : option (bstate * bevent) :=
  let '(q, s, ths) := c in
  th ← ths !! t; '(q', s', th', e) ← bstep a th q s; Some ((q', s', <[t := th']> ths), e).

Definition binit (n : nat) : bstate := (cq_empty, mkSem 0 0, replicate n (Idle 0, BIdle)).
(** The states that can be reached while the queue holds fewer than 2^31 items. *)
Inductive brun (n : nat) : list bevent → bstate → Prop :=
  | brun_init : brun n [] (binit n)
  | brun_step tr c t a c' e : brun n tr c → bexec t a c = Some (c', e) → cq_size c'.1.1 < limit → brun n (tr ++ [e]) c'.

(** What a producer enqueued, and what was dequeued of it. *)
Definition enqueued (t : nat) (tr : list bevent) : list A :=
  tr ≫= λ e, match e with Enqueued t' xs => if decide (t = t') then xs else [] | _ => [] end.
Definition dequeued (t : nat) (tr : list bevent) : list A :=
  tr ≫= λ e, match e with Dequeued t' x => if decide (t = t') then [x] else [] | _ => [] end.
(** size_approx() *)
Definition size_approx (c : bstate) : Z := availableApprox c.1.2.

(** *** Accounts *)
(** The tokens a thread holds, and the items it has not signalled yet. *)
Definition held (p : pc) : Z :=
  match p with Idle got => got | TryLoad k _ | TryCas k _ _ => base k | _ => 0 end.
Definition holding (th : thread) : Z := match th.2 with BWaiting => held th.1 | BTaking n => n | _ => 0 end.
Definition unsignalled (th : thread) : Z := match th.2 with BPublished n => n | _ => 0 end.

Definition idle (p : pc) : Prop := match p with Idle _ => True | _ => False end.
Definition thread_ok (th : thread) : Prop :=
  match th.2 with
  | BIdle => idle th.1
  | BPublished n => idle th.1 ∧ 0 <= n
  | BSignalling => match th.1 with Posting _ => True | _ => False end
  | BWaiting => match th.1 with Posting _ | Idle _ => False | _ => True end
  | BTaking n => idle th.1 ∧ 0 < n
  end.

Lemma takeKernel_held w s s' p' e : takeKernel w s = Some (s', p', e) → held p' = evTaken e ∧ evGiven e = 0 ∧ ∀ n, p' ≠ Posting n.
Proof.
  unfold takeKernel. destruct (0 <? kernel s); [|done]. intros [= <- <- <-]. destruct w as [|max]; simpl; [done|].
  by destruct (1 <? max).
Qed.
Lemma missed_held k w : held (missed maxSpins k w) = base k ∧ ∀ n, missed maxSpins k w ≠ Posting n.
Proof. destruct k; simpl; [done| |done]. destruct (0 <? amount w); [|done]. by destruct maxSpins. Qed.
Lemma retry_held k w s : held (retry maxSpins k w s) = base k ∧ ∀ n, retry maxSpins k w s ≠ Posting n.
Proof. unfold retry. destruct (0 <? count s); [done|apply missed_held]. Qed.

(** A wait hands its caller what it took. *)
Lemma wait_held a p s s' p' e : tstep maxSpins a p s = Some (s', p', e) → thread_ok (p, BWaiting) →
  held p' = held p + evTaken e ∧ evGiven e = 0 ∧ ∀ n, p' ≠ Posting n.
Proof.
  intros Ht Hok. destruct p as [got|k w|k w old|w t n|w t n old|w t|w t|w|w|w old|n]; [done|..|done]; destruct a; try done; simpl in Ht.
  - injection Ht as <- <- <-. destruct (retry_held k w s). simpl. split; [lia|done].
  - destruct (count s =? old); injection Ht as <- <- <-; [done|]. destruct (retry_held k w s). simpl. split; [lia|done].
  - injection Ht as <- <- <-. destruct (retry_held k w s). simpl. split; [lia|done].
  - injection Ht as <- <- <-. destruct (0 <? count s); [done|]. by destruct n.
  - destruct (count s =? old); injection Ht as <- <- <-; [done|]. by destruct n.
  - destruct (0 <? count s); injection Ht as <- <- <-; [|by destruct (t =? 0)]. destruct w as [|max]; simpl; [done|]. by destruct (1 <? max).
  - by apply takeKernel_held in Ht.
  - destruct (0 <? t); [|done]. by injection Ht as <- <- <-.
  - injection Ht as <- <- <-. by destruct (0 <=? count s).
  - destruct (takeKernel w s) as [[[s1 p1] e1]|] eqn:Hk; injection Ht as <- <- <-; [|done]. by apply takeKernel_held in Hk.
  - destruct (count s =? old); by injection Ht as <- <- <-.
Qed.

(** What a step of a thread does to the inner queue, the semaphore and the accounts:
    it touches the one or the other. *)
Record bmoves (q : cq) (s : sem) (th : thread) (q' : cq) (s' : sem) (th' : thread) (e : bevent) : Prop := {
  bm_thread : thread_ok th';
  bm_queue : cq_ok q → cq_ok q';
  bm_lane : ∀ t, cq_lane q t ++ enqueued t [e] = dequeued t [e] ++ cq_lane q' t;
  bm_step : (s' = s ∧ th'.1 = th.1 ∧
      cq_size q' - cq_size q = (holding th' + unsignalled th') - (holding th + unsignalled th)) ∨
    ∃ a se, tstep maxSpins a th.1 s = Some (s', th'.1, se) ∧ q' = q ∧ evGiven se <= unsignalled th ∧
      evGiven se - evTaken se = (holding th + unsignalled th) - (holding th' + unsignalled th')
}.

Lemma lane_silent q t : cq_lane q t ++ enqueued t [BSilent] = dequeued t [BSilent] ++ cq_lane q t.
Proof. apply app_nil_r. Qed.
Lemma afterWait_ok p : (∀ n, p ≠ Posting n) → 0 <= held p → thread_ok (p, afterWait p) ∧ holding (p, afterWait p) = held p ∧ unsignalled (p, afterWait p) = 0.
Proof.
  intros Hp Hh. unfold holding, unsignalled, thread_ok. destruct p as [got| | | | | | | | | |n]; simpl in *; try done; [|by destruct (Hp n)].
  destruct (0 <? got) eqn:?; simpl; split_and!; done || lia.
Qed.
Lemma held_nonneg p : pc_ok p → 0 <= held p.
Proof. destruct p as [got|k w|k w old| | | | | | | |]; simpl; try done; by destruct k. Qed.

Context {QOk : ConcurrentQueueOk A}.

Lemma wait_moves a q s p s' th' : access a p s afterWait = Some (s', th') →
  thread_ok (p, BWaiting) → (∀ s1 p1 e1, tstep maxSpins a p s = Some (s1, p1, e1) → pc_ok p1) →
  bmoves q s (p, BWaiting) q s' th' BSilent.
Proof.
  unfold access. destruct (tstep maxSpins a p s) as [[[s1 p1] e1]|] eqn:Ht; [|done]. intros [= <- <-] Hok Hpc.
  destruct (wait_held a p s s1 p1 e1 Ht Hok) as (H1 & H2 & H3).
  destruct (afterWait_ok p1 H3 (held_nonneg _ (Hpc _ _ _ eq_refl))) as (A1 & A2 & A3).
  split; [done|done|apply lane_silent|]. right. exists a, e1. split; [done|]. split; [done|]. rewrite A2, A3, H2. unfold holding, unsignalled. simpl. lia.
Qed.
Lemma call_wait_moves a q s p s' th' : idle p → access a p s afterWait = Some (s', th') →
  (match a with CallTry _ | CallWait _ _ => True | _ => False end) → bmoves q s (p, BIdle) q s' th' BSilent.
Proof.
  unfold access. destruct p as [got| | | | | | | | | |]; try done. intros _ H Ha. simpl in H.
  destruct (call a s) as [[[s1 p1] e1]|] eqn:Hc; [|done]. injection H as <- <-.
  assert (H1 : s1 = s ∧ e1 = Silent ∧ ∃ k w, p1 = TryLoad k w ∧ base k = 0).
  { destruct a as [w|w t| | | |]; try done; simpl in Hc; destruct (0 <=? amount w); try done; injection Hc as <- <- <-; by repeat eexists. }
  destruct H1 as (-> & -> & k & w & -> & Hk). split; [done|done|apply lane_silent|]. right. exists a, Silent. split; [by simpl; rewrite Hc|].
  split; [done|]. unfold holding, unsignalled. simpl. lia.
Qed.
Lemma signal_moves q s p n s' th' : idle p → 0 <= n → access (CallSignal n) p s afterSignal = Some (s', th') →
  bmoves q s (p, BPublished n) q s' th' BSilent.
Proof.
  unfold access. destruct p as [got| | | | | | | | | |]; try done. intros _ Hn H. simpl in H.
  destruct (0 <=? n) eqn:?; [|done]. simpl in H. injection H as <- <-.
  split; [by destruct (0 <? _)|done|apply lane_silent|]. right. exists (CallSignal n), (Gave n).
  split; [simpl; by replace (0 <=? n) with true|]. split; [done|]. unfold holding, unsignalled. simpl. destruct (0 <? _); simpl; lia.
Qed.
Lemma post_moves a q s p s' th' : thread_ok (p, BSignalling) → access a p s afterSignal = Some (s', th') →
  bmoves q s (p, BSignalling) q s' th' BSilent.
Proof.
  unfold access. destruct p as [| | | | | | | | | |n]; try done. intros _ H. destruct a; try done. simpl in H. injection H as <- <-.
  split; [by destruct (0 <? _)|done|apply lane_silent|]. right. exists Go, Silent. split; [done|]. split; [done|].
  unfold holding, unsignalled. simpl. destruct (0 <? _); simpl; lia.
Qed.
Lemma take_moves ch q s p n q' s' th' e : idle p → 0 < n → cq_ok q → consumeStep (BTake ch) (p, BTaking n) q s = Some (q', s', th', e) →
  bmoves q s (p, BTaking n) q' s' th' e.
Proof.
  intros Hp Hn Hq H. simpl in H. destruct (cq_try_dequeue ch q) as [[[from x] q1]|] eqn:Hd; injection H as <- <- <- <-.
  - split.
    + unfold thread_ok. destruct (n - 1 =? 0) eqn:?; simpl; [done|]. split; [done|lia].
    + intros _. exact (cq_take_ok _ _ _ _ _ Hq Hd).
    + intros t'. rewrite (cq_take_lane _ _ _ _ _ Hq Hd t'). unfold enqueued, dequeued. simpl. by rewrite !app_nil_r.
    + left. split; [done|]. split; [done|]. rewrite (cq_take_size _ _ _ _ _ Hq Hd). unfold holding, unsignalled. simpl.
      destruct (n - 1 =? 0) eqn:?; simpl; lia.
  - split; [done|done|apply lane_silent|]. left. split; [done|]. split; [done|]. lia.
Qed.

Lemma bstep_moves a th q s q' s' th' e : bstep a th q s = Some (q', s', th', e) → thread_ok th → cq_ok q →
  (∀ a1 s1 p1 e1, tstep maxSpins a1 th.1 s = Some (s1, p1, e1) → th.2 = BWaiting → pc_ok p1) → bmoves q s th q' s' th' e.
Proof.
  destruct th as [p b]. intros H Hok Hq Hpc. destruct b as [|n| | |n].
  - destruct a as [producer items|w|w t0|a|ch]; try done; cbn [bstep produceStep consumeStep snd] in H.
    + injection H as <- <- <- <-. split; [split; [done|lia]|intros _; by apply cq_enqueue_ok| |].
      * intros t'. rewrite cq_enqueue_lane by done. unfold enqueued, dequeued. simpl. by rewrite app_nil_r.
      * left. split; [done|]. split; [done|]. rewrite cq_enqueue_size by done. unfold holding, unsignalled. simpl. lia.
    + destruct (access _ _ _ _) as [[s1 th1]|] eqn:Ha; [|done]. injection H as <- <- <- <-. by eapply call_wait_moves.
    + destruct (access _ _ _ _) as [[s1 th1]|] eqn:Ha; [|done]. injection H as <- <- <- <-. by eapply call_wait_moves.
  - destruct a as [| | |[]|]; try done; cbn [bstep produceStep consumeStep snd] in H. destruct (access _ _ _ _) as [[s1 th1]|] eqn:Ha; [|done]. injection H as <- <- <- <-.
    by apply signal_moves; [apply Hok..|].
  - destruct a as [| | |a|]; try done; cbn [bstep produceStep consumeStep snd] in H. destruct (access _ _ _ _) as [[s1 th1]|] eqn:Ha; [|done]. injection H as <- <- <- <-.
    by eapply post_moves.
  - destruct a as [| | |a|]; try done; cbn [bstep produceStep consumeStep snd] in H. destruct (access _ _ _ _) as [[s1 th1]|] eqn:Ha; [|done]. injection H as <- <- <- <-.
    eapply wait_moves; [done|done|]. intros s2 p2 e2 Ht. by eapply Hpc.
  - destruct a as [| | | |ch]; try done. destruct Hok as [H1 H2]. exact (take_moves _ _ _ _ _ _ _ _ _ H1 H2 Hq H).
Qed.

(** The queue in a state is the one its threads' semaphore accounts for. *)
Record baccounts (n : nat) (tr : list bevent) (c : bstate) : Prop := {
  ba_threads : Forall thread_ok c.2;
  ba_queue : cq_ok c.1.1;
  ba_lanes : ∀ t, enqueued t tr = dequeued t tr ++ cq_lane c.1.1 t;
  ba_sema : ∃ str, Sema.run maxSpins 0 n str (c.1.2, c.2.*1) ∧
    cq_size c.1.1 = given str - taken str + sumZ holding c.2 + sumZ unsignalled c.2
}.

Lemma enqueued_snoc t tr e : enqueued t (tr ++ [e]) = enqueued t tr ++ enqueued t [e].
Proof. apply bind_app. Qed.
Lemma dequeued_snoc t tr e : dequeued t (tr ++ [e]) = dequeued t tr ++ dequeued t [e].
Proof. apply bind_app. Qed.

Lemma shares ths : Forall thread_ok ths → Forall pc_ok ths.*1 → Forall (λ th, 0 <= holding th ∧ 0 <= unsignalled th) ths.
Proof.
  intros H1 H2. rewrite Forall_fmap in H2. rewrite list.Forall_forall in *. intros [p b] Hin.
  specialize (H1 _ Hin). specialize (H2 _ Hin). simpl in H2. unfold thread_ok, holding, unsignalled in *. simpl in *.
  destruct b as [|n| | |n]; simpl; try done; [split; [done|apply H1]|split; [by apply held_nonneg|done]|split; [lia|done]].
Qed.
Lemma sumZ_nonneg {B} (f : B → Z) l : Forall (λ x, 0 <= f x) l → 0 <= sumZ f l.
Proof. induction 1 as [|x l Hx _ IH]; simpl; [done|]. fold (sumZ f l). lia. Qed.
Lemma sumZ_elem {B} (f : B → Z) l i x : Forall (λ x, 0 <= f x) l → l !! i = Some x → f x <= sumZ f l.
Proof.
  intros Hl. revert i. induction Hl as [|y l Hy Hl IH]; intros [|i] H; simpl in *; simplify_eq; fold (sumZ f l).
  - pose proof (sumZ_nonneg f l Hl). lia.
  - specialize (IH i H). lia.
Qed.

Lemma bexec_accounts n tr c t a c' e : baccounts n tr c → Z.of_nat n < limit → bexec t a c = Some (c', e) →
  cq_size c'.1.1 < limit → baccounts n (tr ++ [e]) c'.
Proof.
  destruct c as [[q s] ths]. intros [H1 Hq H2 (str & H3 & H4)] Hn He Hlim. simpl in *.
  destruct (ths !! t) as [th|] eqn:Ht; [|done]. simpl in He.
  destruct (bstep a th q s) as [[[[q' s'] th'] e']|] eqn:Hb; [|done]. injection He as <- <-. simpl in *.
  pose proof (run_balanced maxSpins 0 n str _ H3 ltac:(done) Hn) as Hbal. pose proof (balanced_count _ _ _ Hbal) as Hcount.
  rewrite (run_length _ _ _ _ _ H3) in Hcount. destruct Hbal as [B1 B2 B3 B4 B5 B6 B7]. simpl in *.
  pose proof (shares ths H1 B1) as [Hh Hu]%list.Forall_and.
  assert (Hp : ths.*1 !! t = Some th.1) by exact (eq_trans (list_lookup_fmap _ _ _) (f_equal (fmap fst) Ht)).
  pose proof (Forall_lookup_1 _ _ _ _ H1 Ht) as Hok. pose proof (Forall_lookup_1 _ _ _ _ B1 Hp) as Hpc.
  destruct (bstep_moves a th q s q' s' th' e' Hb Hok Hq) as [M1 M0 M2 M3].
  { intros a1 s1 p1 e1 Hs Hw. destruct th as [p b]. simpl in *. subst b.
    destruct (wait_held a1 p s s1 p1 e1 Hs Hok) as (_ & Hg & _).
    apply (tstep_moves maxSpins a1 p s s1 p1 e1 Hs Hpc B2); [lia|]. rewrite Hg. lia. }
  split; simpl; [by apply Forall_insert|by apply M0| |].
  - intros t'. rewrite enqueued_snoc, dequeued_snoc, H2, <-!app_assoc. f_equal. apply M2.
  - pose proof (waiting_bounds ths.*1). pose proof (sumZ_nonneg _ _ Hh). pose proof (sumZ_elem _ _ _ _ Hu Ht) as Hshare.
    rewrite (sumZ_insert holding _ _ _ th' Ht), (sumZ_insert unsignalled _ _ _ th' Ht), list_fmap_insert.
    destruct M3 as [(-> & Hsame & Hsize)|(a' & se & Hs & -> & Hg & Hbal)].
    + exists str. rewrite Hsame, list_insert_id by done. split; [done|]. lia.
    + exists (str ++ [se]). rewrite given_snoc, taken_snoc. split; [|lia].
      apply (run_step maxSpins 0 n str (s, ths.*1) t a' _ se H3); [by apply exec_at with th.1|]. simpl. lia.
Qed.

Lemma brun_accounts n tr c : brun n tr c → Z.of_nat n < limit → baccounts n tr c.
Proof.
  intros Hr Hn. induction Hr as [|tr c t a c' e Hr IH He Hlim]; [|by apply (bexec_accounts n tr c t a)].
  split; simpl.
  - by apply Forall_replicate.
  - apply cq_empty_ok.
  - intros t. by rewrite cq_empty_lane.
  - exists []. rewrite fmap_replicate. split; [constructor|]. rewrite cq_empty_size, !sumZ_replicate. unfold given, taken, holding, unsignalled. simpl. lia.
Qed.

(** C30. The queue of the storage worker loses nothing, under every interleaving: the
    items a producer enqueued are, in order, those that were dequeued of it and those
    still there; the queue holds at least as many items as the threads hold tokens, so
    that a thread in the loop around try_dequeue, which may miss the items, always has
    one to find; and when a consumer sleeps while every enqueue has signalled, no token
    is under way and no one holds one, the queue is empty. *)
Theorem queue_delivers n tr q s ths :
  brun n tr (q, s, ths) → Z.of_nat n < limit →
  (∀ t, enqueued t tr = dequeued t tr ++ cq_lane q t) ∧
  sumZ holding ths <= cq_size q ∧
  (∀ t p left, ths !! t = Some (p, BTaking left) → 0 < left ∧ left <= sumZ holding ths ∧ ∃ choice, is_Some (cq_try_dequeue choice q)) ∧
  (sumZ waiting ths.*1 > 0 → kernel s + sumZ posting ths.*1 = 0 → sumZ holding ths = 0 → sumZ unsignalled ths = 0 → cq_size q = 0).
Proof.
  intros Hr Hn. destruct (brun_accounts _ _ _ Hr Hn) as [H1 Hq H2 (str & H3 & H4)]. simpl in *.
  destruct (run_balanced maxSpins 0 n str _ H3 ltac:(done) Hn) as [B1 B2 B3 B4 B5 B6 B7]. simpl in *.
  pose proof (shares ths H1 B1) as [Hh Hu]%list.Forall_and. pose proof (posting_nonneg _ B1).
  pose proof (sumZ_nonneg _ _ Hu) as Hun. split; [done|]. split; [lia|]. split; [|lia]. intros t p left Ht.
  pose proof (sumZ_elem _ _ _ _ Hh Ht) as Hshare. unfold holding at 1 in Hshare. simpl in Hshare.
  pose proof (Forall_lookup_1 _ _ _ _ H1 Ht) as [_ Hl]. split; [done|]. split; [done|]. apply cq_can_take; [done|lia].
Qed.
End BlockingQueue.
Arguments baction : clear implicits.
Arguments bevent : clear implicits.

(** *** A run *)
Section Schedules.
Context {A : Type} {Q : ConcurrentQueue A} (maxSpins : nat).
Fixpoint brunSched (sched : list (nat * baction A)) (tr : list (bevent A)) (c : bstate) : option (list (bevent A) * bstate) :=
  match sched with
  | [] => Some (tr, c)
  | (t, a) :: sched =>
      '(c', e) ← bexec maxSpins t a c;
      if cq_size c'.1.1 <? limit then brunSched sched (tr ++ [e]) c' else None
  end.
Lemma brun_sched n sched : ∀ tr c tr' c', brun maxSpins n tr c → brunSched sched tr c = Some (tr', c') → brun maxSpins n tr' c'.
Proof.
  induction sched as [|[t a] sched IH]; intros tr c tr' c' Hr Hs; simpl in Hs; [by simplify_eq|].
  destruct (bexec maxSpins t a c) as [[c1 e]|] eqn:He; [|done]. simpl in Hs. destruct (_ <? _) eqn:Hl; [|done].
  apply (IH _ _ _ _ (brun_step maxSpins n tr c t a c1 e Hr He ltac:(lia)) Hs).
Qed.
End Schedules.

(** A consumer that sleeps on the empty queue is woken by what another thread enqueues;
    its first look misses the item. *)
Definition sleepAndEnqueue : list (nat * baction nat) :=
  [(0%nat, BWaitDequeue One 5); (0%nat, BAccess Go); (0%nat, BAccess Go); (0%nat, BAccess Go);
   (1%nat, BEnqueue 1 [42%nat]); (1%nat, BAccess Go); (1%nat, BAccess Go); (0%nat, BAccess Go); (0%nat, BTake 1)].
Lemma queue_delivers_witness :
  ∃ tr q s ths, brun (A := nat) (Q := contended) 1 2 tr (q, s, ths) ∧ ths !! 0%nat = Some (Idle 1, BTaking 1) ∧
    (∃ choice, is_Some (cq_try_dequeue (ConcurrentQueue := contended) choice q)) ∧
    enqueued 1 tr = dequeued 1 tr ++ cq_lane (ConcurrentQueue := contended) q 1.
Proof.
  destruct (brunSched (Q := contended) 1 sleepAndEnqueue [] (binit 2)) as [[tr [[q s] ths]]|] eqn:Hs; [|by vm_compute in Hs].
  assert (Hr : brun (Q := contended) 1 2 tr (q, s, ths)) by exact (brun_sched 1 2 _ _ _ _ _ (brun_init 1 2) Hs).
  assert (Ht : ths !! 0%nat = Some (Idle 1, BTaking 1)) by (by vm_compute in Hs; injection Hs as <- <- <- <-).
  destruct (queue_delivers (Q := contended) (QOk := contended_ok) 1 2 tr q s ths Hr) as (H1 & _ & H2 & _); [done|].
  exists tr, q, s, ths. split; [exact Hr|]. split; [exact Ht|]. split; [by apply (H2 0%nat (Idle 1) 1)|apply H1].
Defined.
End Blocking.
