(* ===== verification/Double.v ===== *)
(** Double: what the broker computes with C++ doubles, as IEEE 754 binary64 of the
    Standard Library's SpecFloat: conversions between doubles and 64-bit integers and
    powers of two, with the lemmas that say when they are exact. *)
From S2P Require Import Prelude.
From Stdlib Require Import Lia ZifyBool SpecFloat.

Definition double : Type := spec_float.
(** static_cast<double> of an integer: the nearest double, ties to even. *)
Definition doubleOfInt (z : Z) : double := binary_normalize 53 1024 z 0 false.
(** std::pow(2.0, k) for a double [k] that is an integer: the power of two, an
    infinity above the range of doubles, rounded below it. *)
Definition pow2 (k : Z) : double := binary_normalize 53 1024 1 k false.
Definition mulDouble (x y : double) : double := SFmul 53 1024 x y.
(** static_cast<int64_t> of a double: towards zero; undefined ([None]) when the result
    is not in range. *)
Definition truncDouble (x : double) : option Z :=
  let magnitude m e := if 0 <=? e then Z.pos m * 2 ^ e else Z.pos m / 2 ^ (- e) in
  match x with
  | S754_zero _ => Some 0
  | S754_finite s m e =>
      let z := if s then - magnitude m e else magnitude m e in
      if decide (inS 64 z) then Some z else None
  | _ => None
  end.

(** *** Rounding an exact number *)

Lemma digits2_pos_log2 p : Z.pos (digits2_pos p) = Z.log2 (Z.pos p) + 1.
Proof.
  induction p as [p IH|p IH|]; simpl digits2_pos; [| |done]; rewrite Pos2Z.inj_succ, IH.
  - rewrite (Pos2Z.inj_xI p), Z.log2_succ_double by done. lia.
  - rewrite (Pos2Z.inj_xO p), Z.log2_double by done. lia.
Qed.

Lemma iter_pos_nat {A} (f : A → A) n x : iter_pos f n x = Nat.iter (Pos.to_nat n) f x.
Proof.
  revert x. induction n as [n IH|n IH|]; intros x; simpl iter_pos; [| |done]; rewrite !IH.
  - rewrite Pos2Nat.inj_xI. simpl. rewrite <-Nat.iter_swap, Nat.add_0_r, Nat.iter_add. done.
  - rewrite Pos2Nat.inj_xO. simpl. by rewrite Nat.add_0_r, Nat.iter_add.
Qed.

Definition exact (m : Z) : shr_record := Build_shr_record m false false.
Lemma shr_exact m j : 0 < m → Nat.iter j shr_1 (exact (m * 2 ^ Z.of_nat j)) = exact m.
Proof.
  intros Hm. induction j as [|j IH]; [by rewrite Z.mul_1_r|].
  rewrite Nat.iter_succ_r, Nat2Z.inj_succ, Z.pow_succ_r by lia.
  replace (m * (2 * 2 ^ Z.of_nat j)) with (2 * (m * 2 ^ Z.of_nat j)) by ring.
  assert (0 < m * 2 ^ Z.of_nat j) by nia. trans (Nat.iter j shr_1 (exact (m * 2 ^ Z.of_nat j))); [f_equal|done].
  by destruct (m * 2 ^ Z.of_nat j).
Qed.

(** A mantissa of 53 bits. *)
Definition full (m : positive) : Prop := 2 ^ 52 <= Z.pos m < 2 ^ 53.
Lemma full_digits m : full m → Z.pos (digits2_pos m) = 53.
Proof. intros [H1 H2]. rewrite digits2_pos_log2, (Z.log2_unique (Z.pos m) 52) by lia. done. Qed.
Lemma full_log2 m n : 2 ^ n <= Z.pos m → 0 <= n → Z.pos m < 2 ^ (n + 1) → Z.pos (digits2_pos m) = n + 1.
Proof. intros. rewrite digits2_pos_log2, (Z.log2_unique (Z.pos m) n) by lia. done. Qed.

Definition finite_or_inf (m : positive) (e : Z) : double :=
  if e <=? 971 then S754_finite false m e else S754_infinity false.

(** [m * 2^j * 2^e], where [m] has 53 bits, is the double with mantissa [m]. *)
Lemma round_exact m j e p :
  full m → Z.pos p = Z.pos m * 2 ^ Z.of_nat j → -1074 <= e + Z.of_nat j →
  binary_round_aux 53 1024 false (Z.pos p) e loc_Exact = finite_or_inf m (e + Z.of_nat j).
Proof.
  intros Hm Hp He. pose proof Hm as [Hm1 Hm2].
  assert (Hd : Z.pos (digits2_pos p) = 53 + Z.of_nat j).
  { pose proof (full_digits m Hm) as H53. rewrite digits2_pos_log2 in *.
    rewrite Hp, Z.log2_mul_pow2 by lia. lia. }
  assert (E1 : shr_fexp 53 1024 (Z.pos p) e loc_Exact = (exact (Z.pos m), e + Z.of_nat j)).
  { unfold shr_fexp, Zdigits2, fexp, emin. rewrite Hd.
    replace (Z.max (53 + Z.of_nat j + e - 53) (3 - 1024 - 53) - e) with (Z.of_nat j) by lia.
    simpl shr_record_of_loc. fold (exact (Z.pos p)). destruct j as [|j].
    - simpl Z.of_nat in *. rewrite Z.mul_1_r in Hp. injection Hp as ->. by rewrite Z.add_0_r.
    - unfold shr. change (Z.of_nat (S j)) with (Z.pos (Pos.of_succ_nat j)) at 1. cbn iota.
      by rewrite iter_pos_nat, SuccNat2Pos.id_succ, Hp, shr_exact by lia. }
  unfold binary_round_aux. rewrite E1. simpl shr_m. simpl loc_of_shr_record. unfold round_nearest_even.
  assert (E2 : shr_fexp 53 1024 (Z.pos m) (e + Z.of_nat j) loc_Exact = (exact (Z.pos m), e + Z.of_nat j)).
  { unfold shr_fexp, Zdigits2, fexp, emin. rewrite (full_digits m Hm).
    by replace (Z.max (53 + (e + Z.of_nat j) - 53) (3 - 1024 - 53) - (e + Z.of_nat j)) with 0 by lia. }
  by rewrite E2.
Qed.

Lemma iter_xO m n : Z.pos (Pos.iter xO m n) = Z.pos m * 2 ^ Z.pos n.
Proof.
  induction n as [|n IH] using Pos.peano_ind.
  - change (Pos.iter xO m 1) with (xO m). lia.
  - rewrite Pos.iter_succ, Pos2Z.inj_succ, Z.pow_succ_r by lia. rewrite (Pos2Z.inj_xO (Pos.iter _ _ _)). lia.
Qed.

(** Rounding a number of at most 53 bits loses nothing. *)
Lemma round_small p e :
  Z.pos p < 2 ^ 53 → -1021 <= e →
  ∃ m, full m ∧ let d := Z.log2 (Z.pos p) in
    Z.pos m = Z.pos p * 2 ^ (52 - d) ∧ binary_round 53 1024 false p e = finite_or_inf m (e + d - 52).
Proof.
  intros Hp He. assert (Hl : 2 ^ Z.log2 (Z.pos p) <= Z.pos p < 2 ^ (Z.log2 (Z.pos p) + 1))
    by by apply Z.log2_spec.
  assert (0 <= Z.log2 (Z.pos p) < 53) as Hl0.
  { split; [apply Z.log2_nonneg|by apply Z.log2_lt_pow2]. }
  set (d := Z.log2 (Z.pos p)) in *.
  assert (Hsh : shl_align p e (e + d - 52) = (Z.to_pos (Z.pos p * 2 ^ (52 - d)), e + d - 52)).
  { unfold shl_align. replace (e + d - 52 - e) with (- (52 - d)) by lia.
    destruct (52 - d) as [|n|n] eqn:Hn; [|simpl|lia].
    - simpl. rewrite Pos.mul_1_r. f_equal; lia.
    - f_equal. apply Pos2Z.inj. rewrite iter_xO, Z2Pos.id by lia. done. }
  assert (Hpos : 0 < Z.pos p * 2 ^ (52 - d)) by (assert (0 < 2 ^ (52 - d)) by (apply Z.pow_pos_nonneg; lia); lia).
  set (m := Z.to_pos (Z.pos p * 2 ^ (52 - d))) in *.
  assert (Hm : Z.pos m = Z.pos p * 2 ^ (52 - d)) by (unfold m; lia).
  assert (full m) as Hf.
  { unfold full. rewrite Hm.
    replace (2 ^ 52) with (2 ^ d * 2 ^ (52 - d)) by (rewrite <-Z.pow_add_r by lia; f_equal; lia).
    replace (2 ^ 53) with (2 ^ (d + 1) * 2 ^ (52 - d)) by (rewrite <-Z.pow_add_r by lia; f_equal; lia).
    assert (0 < 2 ^ (52 - d)) by (apply Z.pow_pos_nonneg; lia). nia. }
  exists m. split; [done|]. split; [done|]. unfold binary_round, fexp, emin. rewrite digits2_pos_log2.
  fold d. replace (Z.max (d + 1 + e - 53) (3 - 1024 - 53)) with (e + d - 52) by lia. rewrite Hsh.
  rewrite (round_exact m 0 (e + d - 52)); [f_equal; lia|done| |lia]. fold m. rewrite Z.mul_1_r. done.
Qed.

(** *** Exact products by a power of two *)

Lemma doubleOfInt_exact z :
  0 < z < 2 ^ 53 →
  ∃ m, full m ∧ Z.pos m = z * 2 ^ (52 - Z.log2 z) ∧
    doubleOfInt z = S754_finite false m (Z.log2 z - 52).
Proof.
  intros [Hz1 Hz2]. destruct z as [|p|p]; try lia.
  destruct (round_small p 0 Hz2) as (m & Hf & Hm & Hr); [lia|]. exists m. split; [done|]. split; [done|].
  unfold doubleOfInt, binary_normalize. rewrite Hr. unfold finite_or_inf.
  assert (Z.log2 (Z.pos p) < 53) by (by apply Z.log2_lt_pow2).
  by replace (0 + Z.log2 (Z.pos p) - 52 <=? 971) with true by lia.
Qed.

Lemma pow2_exact k :
  0 <= k → pow2 k = finite_or_inf (2 ^ 52)%positive (k - 52).
Proof.
  intros Hk. destruct (round_small 1 k) as (m & Hf & Hm & Hr); [done|lia|].
  unfold pow2, binary_normalize. rewrite Hr. change (Z.log2 1) with 0 in *.
  f_equal; [|lia]. apply Pos2Z.inj. rewrite Hm. done.
Qed.

Lemma scale_exact z k :
  0 < z < 2 ^ 53 → 0 <= k →
  ∃ m, full m ∧ Z.pos m = z * 2 ^ (52 - Z.log2 z) ∧
    mulDouble (doubleOfInt z) (pow2 k) = finite_or_inf m (Z.log2 z + k - 52).
Proof.
  intros Hz Hk. destruct (doubleOfInt_exact z Hz) as (m & Hf & Hm & ->). exists m.
  split; [done|]. split; [done|]. rewrite pow2_exact by done. unfold finite_or_inf at 1.
  assert (0 <= Z.log2 z) by apply Z.log2_nonneg.
  destruct (k - 52 <=? 971) eqn:Hk'; simpl mulDouble.
  - unfold mulDouble, SFmul. cbn [xorb].
    rewrite (round_exact m 52) by (done || lia). f_equal. lia.
  - unfold finite_or_inf. by replace (_ <=? 971) with false by lia.
Qed.

(** Doubles of 53 bits compare as the numbers they stand for. *)
Lemma ltb_full m1 e1 m2 e2 N :
  full m1 → full m2 → 0 <= e1 + N → 0 <= e2 + N →
  SFltb (S754_finite false m1 e1) (S754_finite false m2 e2)
  = (Z.pos m1 * 2 ^ (e1 + N) <? Z.pos m2 * 2 ^ (e2 + N)).
Proof.
  intros [H1 H1'] [H2 H2'] He1 He2. unfold SFltb, SFcompare.
  assert (Hlt : ∀ a b x y, 0 < x → y < 2 * x → 0 <= a → a < b → y * 2 ^ a < x * 2 ^ b).
  { intros a b x y Hx Hy Ha Hab. replace b with (b - a - 1 + 1 + a) by lia.
    rewrite !Z.pow_add_r by lia. assert (0 < 2 ^ a) by (apply Z.pow_pos_nonneg; lia).
    assert (0 < 2 ^ (b - a - 1)) by (apply Z.pow_pos_nonneg; lia). change (2 ^ 1) with 2.
    assert (y < x * (2 ^ (b - a - 1) * 2)) by nia. rewrite Z.mul_assoc. by apply Z.mul_lt_mono_pos_r. }
  destruct (Z.compare_spec e1 e2) as [->|He|He].
  - change (Pos.compare_cont Eq m1 m2) with (Pos.compare m1 m2).
    assert (0 < 2 ^ (e2 + N)) by (apply Z.pow_pos_nonneg; lia).
    destruct (Pos.compare_spec m1 m2) as [->|Hm|Hm]; symmetry;
      [apply Z.ltb_irrefl|apply Z.ltb_lt, Z.mul_lt_mono_pos_r; lia
      |apply Z.ltb_ge, Z.mul_le_mono_nonneg_r; lia].
  - symmetry. apply Z.ltb_lt, Hlt; lia.
  - symmetry. apply Z.ltb_ge, Z.lt_le_incl, Hlt; lia.
Qed.


(** The value of a scaled integer, lifted by [2^N]. *)
Lemma lift_scale z m k N :
  0 < z → Z.log2 z < 53 → Z.pos m = z * 2 ^ (52 - Z.log2 z) → 0 <= k → 52 <= N →
  Z.pos m * 2 ^ (Z.log2 z + k - 52 + N) = z * 2 ^ k * 2 ^ N.
Proof.
  intros Hz Hl -> Hk HN. assert (0 <= Z.log2 z) by apply Z.log2_nonneg.
  rewrite <-!Z.mul_assoc, <-!Z.pow_add_r by lia. do 2 f_equal. lia.
Qed.

Lemma scale_lt z k y :
  0 < z < 2 ^ 53 → 0 <= k → 0 <= y < 2 ^ 53 →
  SFltb (mulDouble (doubleOfInt z) (pow2 k)) (doubleOfInt y) = (z * 2 ^ k <? y).
Proof.
  intros Hz Hk Hy. destruct (scale_exact z k Hz Hk) as (m & Hf & Hm & ->).
  assert (0 < 2 ^ k) by (apply Z.pow_pos_nonneg; lia).
  assert (Hl : 0 <= Z.log2 z < 53) by (split; [apply Z.log2_nonneg|apply Z.log2_lt_pow2; lia]).
  unfold finite_or_inf. destruct (_ <=? 971) eqn:Hb.
  - destruct (decide (y = 0)) as [->|Hy0].
    { change (doubleOfInt 0) with (S754_zero false). unfold SFltb, SFcompare. symmetry. apply Z.ltb_ge. nia. }
    destruct (doubleOfInt_exact y) as (m' & Hf' & Hm' & ->); [lia|].
    assert (Hl' : 0 <= Z.log2 y < 53) by (split; [apply Z.log2_nonneg|apply Z.log2_lt_pow2; lia]).
    rewrite (ltb_full _ _ _ _ 52) by (done || lia). rewrite (lift_scale z m k 52) by (done || lia).
    pose proof (lift_scale y m' 0 52 ltac:(lia) ltac:(lia) Hm' ltac:(lia) ltac:(lia)) as Hy'.
    replace (Z.log2 y + 0 - 52 + 52) with (Z.log2 y - 52 + 52) in Hy' by lia. rewrite Hy'.
    destruct (z * 2 ^ k <? y) eqn:E; lia.
  - assert (SFltb (S754_infinity false) (doubleOfInt y) = false) as ->.
    { destruct (decide (y = 0)) as [->|]; [done|].
      destruct (doubleOfInt_exact y) as (? & _ & _ & ->); [lia|]. done. }
    symmetry. apply Z.ltb_ge. assert (2 ^ 53 <= 2 ^ Z.log2 z * 2 ^ k); [|pose proof (Z.log2_spec z ltac:(lia)); nia].
    rewrite <-Z.pow_add_r by lia. apply Z.pow_le_mono_r; lia.
Qed.

Lemma scale_trunc z k :
  0 < z < 2 ^ 53 → 0 <= k → z * 2 ^ k < 2 ^ 53 →
  truncDouble (mulDouble (doubleOfInt z) (pow2 k)) = Some (z * 2 ^ k).
Proof.
  intros Hz Hk Hlt. destruct (scale_exact z k Hz Hk) as (m & Hf & Hm & ->).
  assert (0 < 2 ^ k) by (apply Z.pow_pos_nonneg; lia).
  assert (Hl : 0 <= Z.log2 z) by apply Z.log2_nonneg.
  assert (Hlk : Z.log2 z + k < 53).
  { rewrite Z.add_comm, <-Z.log2_mul_pow2 by lia. apply Z.log2_lt_pow2; nia. }
  unfold finite_or_inf. replace (_ <=? 971) with true by lia. unfold truncDouble.
  assert ((if 0 <=? Z.log2 z + k - 52 then Z.pos m * 2 ^ (Z.log2 z + k - 52)
           else Z.pos m / 2 ^ (- (Z.log2 z + k - 52))) = z * 2 ^ k) as ->.
  { rewrite Hm. destruct (0 <=? _) eqn:H0.
    - rewrite <-Z.mul_assoc, <-Z.pow_add_r by lia. do 2 f_equal. lia.
    - replace (52 - Z.log2 z) with (k + (52 - Z.log2 z - k)) by lia.
      replace (- (Z.log2 z + k - 52)) with (52 - Z.log2 z - k) by lia.
      rewrite Z.pow_add_r, Z.mul_assoc, Z.div_mul by (lia || apply Z.pow_nonzero; lia). done. }
  rewrite decide_True; [done|]. unfold inS. change (64 - 1) with 63. nia.
Qed.
