(* ===== verification/World.v ===== *)
(** The shared objects of the broker: messages and queues are held by shared
    pointers, so the components that pass them around mutate one store. A
    [Ptr] is a Message::Ptr ([None] the null pointer) and a queue is named by the
    identity of its PriorityQueueT. *)
From S2P Require Import Prelude Message PriorityQueue.

Notation Ptr := (option nat).

Record world : Type := mkWorld {
  heap : gmap nat Message;
  queues : gmap nat (pq Ptr)
}.
Definition set_heap (x : gmap nat Message) (r : world) : world := mkWorld x (queues r).
Definition set_queues (x : gmap nat (pq Ptr)) (r : world) : world := mkWorld (heap r) x.

(** *p, and a write through p. *)
Definition deref (p : nat) : M world Message := λ w,
  match heap w !! p with Some m => Ok m w | None => UB end.
Definition update (p : nat) (f : Message → Message) : M world unit := λ w,
  match heap w !! p with Some m => Ok tt (set_heap (<[p := f m]> (heap w)) w) | None => UB end.

(** queue->op(...) *)
Definition with_queue {A} (q : nat) (op : M (pq Ptr) A) : M world A := λ w,
  match queues w !! q with
  | Some b =>
      match op b with
      | Ok a b' => Ok a (set_queues (<[q := b']> (queues w)) w)
      | Exn e b' => Exn e (set_queues (<[q := b']> (queues w)) w)
      | UB => UB
      end
  | None => UB
  end.

(** PriorityQueueT::enqueue(Message::Ptr): a null pointer goes to band 4. *)
Definition queue_enqueue (q : nat) (p : Ptr) : M world unit :=
  match p with
  | None => with_queue q (Seq.enqueue None p)
  | Some i => m ← deref i; with_queue q (Seq.enqueue (Some (priority (jmsHeaders m))) p)
  end.
Definition queue_try_dequeue (q : nat) : M world (option Ptr) := with_queue q Seq.try_dequeue.

(** *** Specification *)

(** Every queue is well formed and holds only live messages. *)
Definition live (w : world) (p : Ptr) : Prop :=
  match p with None => True | Some i => is_Some (heap w !! i) end.
Definition queue_abs (w : world) (q : nat) : list (Z * Ptr) :=
  match queues w !! q with Some b => Seq.abs b | None => [] end.
Definition prio_of (w : world) (p : Ptr) : Z :=
  bandOf (i ← p; m ← heap w !! i; Some (priority (jmsHeaders m))).
Record wf_world (w : world) : Prop := {
  ww_queues : ∀ q b, queues w !! q = Some b → Seq.wf b;
  ww_live : ∀ q b z p, queues w !! q = Some b → (z, p) ∈ Seq.abs b → live w p
}.

Lemma elem_insert_prio {A} p (x : A) l y :
  y ∈ Seq.insert_prio p x l ↔ y = (p, x) ∨ y ∈ l.
Proof.
  induction l as [|[p' z] l IH]; simpl; [set_solver|].
  case_match; [set_solver|]. rewrite !elem_of_cons, IH. tauto.
Qed.

Lemma queue_enqueue_spec w q p :
  wf_world w → is_Some (queues w !! q) → live w p →
  ∃ w', queue_enqueue q p w = Ok tt w' ∧ wf_world w' ∧ heap w' = heap w ∧
    queue_abs w' q = Seq.insert_prio (prio_of w p) p (queue_abs w q) ∧
    (∀ q', q' ≠ q → queues w' !! q' = queues w !! q') ∧ is_Some (queues w' !! q).
Proof.
  intros [Hq Hl] [b Hb] Hp.
  set (prio := i ← p; m ← heap w !! i; Some (priority (jmsHeaders m))).
  destruct (Seq.enqueue_spec b prio p (Hq _ _ Hb)) as (b' & He & Hwf & Hab).
  exists (set_queues (<[q := b']> (queues w)) w).
  assert (queue_enqueue q p w = Ok tt (set_queues (<[q := b']> (queues w)) w)) as ->.
  { unfold queue_enqueue, with_queue, deref. clear -He Hp Hb. subst prio. destruct p as [i|].
    - destruct Hp as [m Hm]. mrun. cbn [mbind option_bind] in He. rewrite Hm in *.
      cbn [mbind option_bind] in He. by rewrite Hb, He.
    - cbn [mbind option_bind] in He. by rewrite Hb, He. }
  split; [done|]. split.
  - split; simpl.
    + intros q' b'' [[-> ->]|[_ ?]]%lookup_insert_Some; eauto.
    + intros q' b'' z p' [[-> <-]|[_ ?]]%lookup_insert_Some Hin.
      * rewrite Hab in Hin. apply elem_insert_prio in Hin as [[= -> ->]|Hin]; [done|].
        exact (Hl _ _ _ _ Hb Hin).
      * by eapply (Hl q' b'').
  - unfold queue_abs. simpl. split; [done|].
    split; [|split; [intros q' Hne; by rewrite lookup_insert_ne|rewrite lookup_insert_eq; eauto]].
    by rewrite lookup_insert_eq, Hb.
Qed.

Lemma queue_try_dequeue_spec w q :
  wf_world w → is_Some (queues w !! q) →
  ∃ r w', queue_try_dequeue q w = Ok r w' ∧ wf_world w' ∧ heap w' = heap w ∧
    is_Some (queues w' !! q) ∧ (∀ q', q' ≠ q → queues w' !! q' = queues w !! q') ∧
    match queue_abs w q with
    | [] => r = None ∧ queue_abs w' q = []
    | (_, x) :: l => r = Some x ∧ queue_abs w' q = l
    end.
Proof.
  intros [Hq Hl] [b Hb]. destruct (Seq.try_dequeue_spec b (Hq _ _ Hb)) as (r & b' & He & Hwf & Hab).
  exists r, (set_queues (<[q := b']> (queues w)) w).
  assert (Hd : queue_try_dequeue q w = Ok r (set_queues (<[q := b']> (queues w)) w)).
  { unfold queue_try_dequeue, with_queue. by rewrite Hb, He. }
  unfold queue_abs. rewrite Hb. simpl. rewrite lookup_insert_eq.
  split_and!; try done; [|intros q' Hne; simpl; by rewrite lookup_insert_ne].
  split; simpl.
  - intros q' b'' [[-> ->]|[_ ?]]%lookup_insert_Some; eauto.
  - intros q' b'' z p [[-> <-]|[_ ?]]%lookup_insert_Some Hin; [|by eapply (Hl q' b'')].
    apply (Hl q' b z p Hb). destruct (Seq.abs b) as [|[z' x] l]; destruct Hab as [_ Hab]; rewrite Hab in Hin.
    + by apply not_elem_of_nil in Hin.
    + by right.
Qed.

(** A write to the heap that keeps every object. *)
Lemma wf_world_heap w h :
  (∀ p, is_Some (heap w !! p) → is_Some (h !! p)) → wf_world w → wf_world (set_heap h w).
Proof.
  intros Hh [H1 H2]. split; [done|]. intros q b z [i|] Hq Hin; [|done]. apply Hh. exact (H2 q b z (Some i) Hq Hin).
Qed.
