(* ===== verification/DeliveryScheduler.v ===== *)
(** DeliveryScheduler (DeliveryScheduler.h/.cpp): delayed delivery per
    destination. The operations are modelled at the granularity of their critical
    sections: a sender's call, the worker thread between two points where it
    releases the mutex, and stop(). Clock readings are inputs. *)
From S2P Require Import Prelude Property Message StorageRecord PriorityQueue World.
From Stdlib Require Import Lia ZifyBool Sorted.

Definition kMaxWaitMs : Z := 24 * 60 * 60 * 1000.

Definition is_empty {A} (l : list A) : bool := match l with [] => true | _ => false end.

Record Entry : Type := mkEntry { entry_queue : nat; entry_msg : Ptr }.

(** Where the worker thread is. *)
Inductive worker : Type :=
  | WCheck                                   (** at while (!_stop) *)
  | WIdle                                    (** in _cv.wait *)
  | WWait (deltaMs : Z) (startVersion : Z)   (** in _cv.wait_until *)
  | WDeliver (deliverUpToMs : Z)             (** at the inner while, lock held *)
  | WEnqueue (deliverUpToMs : Z) (e : Entry) (** lock released, entry in hand *)
  | WDone.                                   (** run() has returned *)

(** [thread] is [None] until _threadStarted. *)
Record scheduler : Type := mkScheduler {
  pending : list (Z * Entry);
  thread : option worker;
  stop_flag : bool;
  stopped : bool;
  version : Z
}.
Definition set_pending (x : list (Z * Entry)) (r : scheduler) : scheduler := mkScheduler x (thread r) (stop_flag r) (stopped r) (version r).
Definition set_thread (x : option worker) (r : scheduler) : scheduler := mkScheduler (pending r) x (stop_flag r) (stopped r) (version r).
Definition newScheduler : scheduler := mkScheduler [] None false false 0.

(** The scheduler and the objects it shares with the rest of the broker. *)
Definition system : Type := scheduler * world.
Definition onWorld {A} (m : M world A) : M system A := λ '(s, w),
  match m w with
  | Ok a w' => Ok a (s, w')
  | Exn e w' => Exn e (s, w')
  | UB => UB
  end.
Definition onSched (f : scheduler → scheduler) : M system unit := modify (λ '(s, w), (f s, w)).

(** std::multimap::emplace: behind the entries with the same key. *)
Fixpoint emplace (t : Z) (e : Entry) (l : list (Z * Entry)) : list (Z * Entry) :=
  match l with
  | [] => [(t, e)]
  | (t', e') :: l' => if t <? t' then (t, e) :: l else (t', e') :: emplace t e l'
  end.

(** DeliveryScheduler::cappedWaitDeltaMs *)
Definition cappedWaitDeltaMs {S} (deadlineMs nowMsValue : Z) : M S Z :=
  if deadlineMs <=? nowMsValue then mret 0
  else
    lim ← checkS 64 (nowMsValue + kMaxWaitMs);
    if lim <=? deadlineMs then mret kMaxWaitMs
    else checkS 64 (deadlineMs - nowMsValue).

(** The delivery time the call works with, after the sanity bound; [now] is the
    first clock reading. *)
Definition sanitisedDeliveryTime (now : Z) (msg : Ptr) : M world Z :=
  match msg with
  | None => mret 0
  | Some p =>
      m ← deref p;
      let deliveryTime := deliveryTime (jmsHeaders m) in
      if 0 <? deliveryTime then
        diff ← checkS 64 (deliveryTime - now);
        if kMaxFutureHeaderMs <? diff then
          _ ← update p (upd_hdr (set_deliveryTime 0));
          _ ← update p (patchCachedDeliveryTime 0);
          mret 0
        else mret deliveryTime
      else mret deliveryTime
  end.

Definition isPersistentPtr (msg : Ptr) : M world bool :=
  match msg with None => mret false | Some p => m ← deref p; mret (isPersistent m) end.

(** _thread = std::thread(run), once; emplace; ++_version *)
Definition arm (deliveryTime : Z) (e : Entry) (s : scheduler) : scheduler :=
  mkScheduler (emplace deliveryTime e (pending s))
              (Some (default WCheck (thread s)))
              (stop_flag s) (stopped s) (wrapU 64 (version s + 1)).

(** DeliveryScheduler::enqueueOrSchedule; [now1] and [now2] are its two clock
    readings. *)
Definition enqueueOrSchedule (now1 now2 : Z) (queue : nat) (msg : Ptr) : M system unit :=
  deliveryTime ← onWorld (sanitisedDeliveryTime now1 msg);
  if (deliveryTime =? 0) || (deliveryTime <=? now2) then onWorld (queue_enqueue queue msg)
  else
    s ← gets fst;
    if stopped s then
      persistent ← onWorld (isPersistentPtr msg);
      if (persistent : bool) then mret tt else onWorld (queue_enqueue queue msg)
    else onSched (arm deliveryTime (mkEntry queue msg)).

(** One step of run(), from one release of the mutex to the next. [now] is the
    clock reading the step makes; [timeout] says that wait_until's deadline has
    passed. A step of a blocked or finished worker changes nothing. *)
Definition goto (pc : worker) : M system unit := onSched (set_thread (Some pc)).
Definition worker_step (now : Z) (timeout : bool) : M system unit := λ '(s, w),
  match thread s with
  | None | Some WDone => Ok tt (s, w)
  | Some WCheck =>
      if stop_flag s then goto WDone (s, w)
      else match pending s with
           | [] => goto WIdle (s, w)
           | (deadlineMs, _) :: _ =>
               (deltaMs ← cappedWaitDeltaMs deadlineMs now; goto (WWait deltaMs (version s))) (s, w)
           end
  | Some WIdle =>
      if stop_flag s || negb (is_empty (pending s)) then goto WCheck (s, w) else Ok tt (s, w)
  | Some (WWait _ startVersion) =>
      if stop_flag s || negb (version s =? startVersion) then goto WCheck (s, w)
      else if timeout then goto (WDeliver now) (s, w) else Ok tt (s, w)
  | Some (WDeliver upTo) =>
      match pending s with
      | (t, e) :: l =>
          if t <=? upTo
          then Ok tt (set_thread (Some (WEnqueue upTo e)) (set_pending l s), w)
          else goto WCheck (s, w)
      | [] => goto WCheck (s, w)
      end
  | Some (WEnqueue upTo e) =>
      (_ ← onWorld (queue_enqueue (entry_queue e) (entry_msg e)); goto (WDeliver upTo)) (s, w)
  end.

(** DeliveryScheduler::stop up to its join(): join returns when the worker is
    done or was never started. *)
Definition stop (s : scheduler) : scheduler :=
  if stopped s then s else mkScheduler (pending s) (thread s) true true (version s).
Definition joined (s : scheduler) : bool :=
  match thread s with None | Some WDone => true | _ => false end.
(** The end of stop(), behind its join(): what is still pending is counted, logged
    and discarded. (The entries go with the scheduler's destructor; the worker has
    returned and nothing is armed any more, so nobody reads them again.) Before the
    worker has returned, the caller is still blocked in join(). *)
Definition finishStop (s : scheduler) : scheduler :=
  if stopped s && joined s then set_pending [] s else s.

Inductive event : Type :=
  | EvSend (now1 now2 : Z) (queue : nat) (msg : Ptr)
  | EvWorker (now : Z) (timeout : bool)
  | EvStop
  | EvStopped.
Definition do_event (ev : event) : M system unit :=
  match ev with
  | EvSend now1 now2 queue msg => enqueueOrSchedule now1 now2 queue msg
  | EvWorker now timeout => worker_step now timeout
  | EvStop => onSched stop
  | EvStopped => onSched finishStop
  end.

(** *** The bounded wait *)

Lemma capped_wait (sys : system) deadlineMs now :
  inS 64 deadlineMs → 0 <= now → now + kMaxWaitMs <= INT64_MAX →
  cappedWaitDeltaMs deadlineMs now sys = Ok (Z.max 0 (Z.min (deadlineMs - now) kMaxWaitMs)) sys.
Proof.
  intros Hd Hn Hm. unfold cappedWaitDeltaMs, checkS. change INT64_MAX with (2 ^ 63 - 1) in Hm.
  assert (0 < kMaxWaitMs) by done. unfold inS in Hd. change (64 - 1) with 63 in *.
  destruct (deadlineMs <=? now) eqn:H1; [mrun; f_equal; lia|].
  rewrite (decide_True (P:=inS 64 (now + kMaxWaitMs))) by (unfold inS; change (64 - 1) with 63; lia).
  mrun. destruct (now + kMaxWaitMs <=? deadlineMs) eqn:H2; [f_equal; lia|].
  rewrite decide_True by (unfold inS; change (64 - 1) with 63; lia). f_equal. lia.
Qed.

(** *** The pending entries *)

Lemma emplace_perm t e l : emplace t e l ≡ₚ (t, e) :: l.
Proof. induction l as [|[t' e'] l IH]; simpl; [done|]. case_match; [done|]. rewrite IH. constructor. Qed.

(** Entries in delivery order. *)
Definition by_time (l : list (Z * Entry)) : Prop := StronglySorted (λ a b, a.1 <= b.1) l.

Lemma emplace_sorted t e l : by_time l → by_time (emplace t e l).
Proof.
  induction 1 as [|[t' e'] l Hl IH Hf]; simpl; [repeat constructor|].
  destruct (t <? t') eqn:Hlt.
  - constructor; [by constructor|]. constructor; [simpl; lia|].
    eapply Forall_impl; [|exact Hf]. simpl. lia.
  - constructor; [done|]. rewrite emplace_perm. constructor; [simpl; lia|done].
Qed.

(** Scheduling keeps the pending entries in delivery order and puts the new
    entry behind those with the same delivery time, so that messages due at the same
    millisecond are delivered in the order in which they were sent. *)
Theorem emplace_stable t e l :
  by_time l →
  by_time (emplace t e l) ∧ emplace t e l ≡ₚ (t, e) :: l ∧
  filter (λ te, te.1 = t) (emplace t e l) = filter (λ te, te.1 = t) l ++ [(t, e)].
Proof.
  intros Hs. split; [by apply emplace_sorted|]. split; [apply emplace_perm|]. revert Hs.
  induction 1 as [|[t' e'] l Hl IH Hf]; simpl.
  - by rewrite filter_cons_True.
  - destruct (t <? t') eqn:Hlt.
    + rewrite filter_cons_True by done.
      assert (filter (λ te, te.1 = t) ((t', e') :: l) = []) as ->; [|done].
      apply filter_none. constructor; [simpl; lia|]. eapply Forall_impl; [|exact Hf]. simpl. lia.
    + rewrite !filter_cons. simpl. case_decide; rewrite IH; done.
Qed.

Lemma by_time_tail te l : by_time (te :: l) → by_time l ∧ Forall (λ b, te.1 <= b.1) l.
Proof. intros H. by inversion H. Qed.

(** *** Accounting *)

Definition for_queue (q : nat) (e : Entry) : list Ptr :=
  if decide (entry_queue e = q) then [entry_msg e] else [].
Definition hand (s : scheduler) : list Entry :=
  match thread s with Some (WEnqueue _ e) => [e] | _ => [] end.
(** Everything on its way to queue [q], delivered or not. *)
Definition total_all (q : nat) (sys : system) : list Ptr :=
  (queue_abs sys.2 q).*2 ++ (hand sys.1 ++ (pending sys.1).*2) ≫= for_queue q.

Definition valid_target (w : world) (e : Entry) : Prop :=
  is_Some (queues w !! entry_queue e) ∧ live w (entry_msg e).
Record wf_system (sys : system) : Prop := {
  ws_world : wf_world sys.2;
  ws_entries : Forall (valid_target sys.2) (hand sys.1 ++ (pending sys.1).*2);
  ws_sorted : by_time (pending sys.1);
  ws_keys : Forall (λ te, inS 64 te.1) (pending sys.1);
  ws_times : map_Forall (λ _ m, inS 64 (deliveryTime (jmsHeaders m))) (heap sys.2);
  ws_stop : stopped sys.1 = stop_flag sys.1
}.

Lemma insert_prio_perm {A} z (p : A) l : Seq.insert_prio z p l ≡ₚ (z, p) :: l.
Proof.
  induction l as [|[z' y] l IH]; simpl; [done|]. case_match; [done|]. rewrite IH. constructor.
Qed.

Lemma valid_target_mono w w' e :
  heap w' = heap w → (∀ q, is_Some (queues w !! q) → is_Some (queues w' !! q)) →
  valid_target w e → valid_target w' e.
Proof. intros Hh Hq [H1 H2]. split; [by apply Hq|]. unfold live in *. by rewrite Hh. Qed.

Definition is_persistent_at (w : world) (msg : Ptr) : Prop :=
  ∃ p m, msg = Some p ∧ heap w !! p = Some m ∧ isPersistent m = true.

(** What the broker's objects keep while the scheduler works on them. *)
Definition extends (w w' : world) : Prop :=
  (∀ e, valid_target w e → valid_target w' e) ∧ ∀ p, is_persistent_at w p → is_persistent_at w' p.
Lemma extends_refl w : extends w w.
Proof. done. Qed.
Lemma extends_trans w1 w2 w3 : extends w1 w2 → extends w2 w3 → extends w1 w3.
Proof. intros [H1 H2] [H3 H4]. split; auto. Qed.
#[local] Hint Resolve extends_refl : core.

(** Appending one entry to its queue, in terms of the accounting. *)
Lemma enqueue_total w e :
  wf_world w → valid_target w e →
  ∃ w', queue_enqueue (entry_queue e) (entry_msg e) w = Ok tt w' ∧ wf_world w' ∧ heap w' = heap w ∧
    extends w w' ∧
    ∀ q, (queue_abs w' q).*2 ≡ₚ for_queue q e ++ (queue_abs w q).*2.
Proof.
  intros Hw [Hq Hl]. destruct (queue_enqueue_spec w _ _ Hw Hq Hl) as (w' & H1 & H2 & H3 & H4 & H5 & H6).
  exists w'. split; [done|]. split; [done|]. split; [done|]. split.
  - split; [|intros x (p & m & -> & Hm & Hr); exists p, m; by rewrite H3].
    intros e'. apply valid_target_mono; [done|]. intros q' Hq'.
    destruct (decide (q' = entry_queue e)) as [->|Hne]; [done|]. by rewrite H5.
  - intros q. unfold for_queue. case_decide as Hd.
    + rewrite <-Hd, H4, insert_prio_perm. done.
    + unfold queue_abs. by rewrite H5.
Qed.

Lemma wf_set_thread s w pc :
  wf_system (s, w) → hand s = [] →
  (∀ u e, pc ≠ Some (WEnqueue u e)) → wf_system (set_thread pc s, w).
Proof.
  intros [H1 H2 H0 H3 H4 H5] Hh Hp. split; [done| |done|done|done|done]. simpl in *. rewrite Hh in H2.
  unfold hand. simpl. repeat case_match; simplify_eq; try done. by destruct (Hp deliverUpToMs e).
Qed.

(** What every step of the worker preserves. *)
Definition conserves (m : M system unit) (sys : system) : Prop :=
  ∃ sys', m sys = Ok tt sys' ∧ wf_system sys' ∧
    (∀ q, total_all q sys' ≡ₚ total_all q sys) ∧ stopped sys'.1 = stopped sys.1 ∧
    extends sys.2 sys'.2.

Lemma conserves_goto s w pc :
  wf_system (s, w) → hand s = [] → (∀ u e, pc ≠ WEnqueue u e) → conserves (goto pc) (s, w).
Proof.
  intros Hwf Hh Hp. exists (set_thread (Some pc) s, w). split; [done|]. split.
  - apply wf_set_thread; [done|done|]. intros u e [=]. by eapply Hp.
  - split; [|done]. intros q. unfold total_all. simpl. rewrite Hh. unfold hand. simpl.
    repeat case_match; simplify_eq; try done. by destruct (Hp deliverUpToMs e).
Qed.

(** A clock reading that leaves room for a day, as every real one does. *)
Definition sane_clock (now : Z) : Prop := 0 <= now ∧ now + kMaxWaitMs <= INT64_MAX.

Lemma worker_conserves now timeout s w :
  wf_system (s, w) → sane_clock now → conserves (worker_step now timeout) (s, w).
Proof.
  intros Hwf [Hn1 Hn2]. pose proof (ws_keys _ Hwf) as Hk. unfold conserves. unfold worker_step.
  destruct (thread s) as [[| |d v|u|u e|]|] eqn:Ht;
    try (assert (hand s = []) as Hh by (unfold hand; by rewrite Ht)).
  - destruct (stop_flag s); [by apply conserves_goto|].
    destruct (pending s) as [|[t e] l] eqn:Hp; [by apply conserves_goto|].
    simpl in Hk. rewrite Hp in Hk. apply Forall_cons_1 in Hk as [Ht0 _].
    rewrite (bind_ok _ _ _ _ _ (capped_wait _ _ _ Ht0 Hn1 Hn2)). by apply conserves_goto.
  - destruct (_ || _); [by apply conserves_goto|]. by exists (s, w).
  - destruct (_ || _); [by apply conserves_goto|]. destruct timeout; [by apply conserves_goto|].
    by exists (s, w).
  - destruct (pending s) as [|[t e] l] eqn:Hp; [by apply conserves_goto|].
    destruct (t <=? u); [|by apply conserves_goto]. eexists. split; [done|].
    destruct Hwf as [H1 H2 H0 H3 H4 H5]. simpl in *. rewrite Hh, Hp in H2. rewrite Hp in H0, H3.
    split; [split; simpl; [done|done|by apply by_time_tail in H0 as []|by apply Forall_cons_1 in H3 as []|done|done]|].
    split; [|done]. intros q. unfold total_all. cbn [fst snd]. by rewrite Hh, Hp.
  - destruct Hwf as [H1 H2 H0 H3 H4 H5]. simpl in *. unfold hand in H2. rewrite Ht in H2. simpl in H2.
    apply Forall_cons_1 in H2 as [He H2].
    destruct (enqueue_total w e H1 He) as (w' & E1 & E2 & Eh & E3 & E4).
    unfold onWorld, goto, onSched, modify. mrun. rewrite E1. eexists. split; [done|].
    split; [split; simpl; [done|by eapply Forall_impl; [apply E3|]|done|done|by rewrite Eh|done]|].
    split; [|done]. intros q. unfold total_all, hand. simpl. rewrite Ht, E4. simpl.
    by rewrite (Permutation_app_comm (for_queue q e)), <-app_assoc.
  - by exists (s, w).
  - by exists (s, w).
Qed.

(** *** A send *)

(** [update] keeps every target valid and every queue as it was. *)
Lemma update_live p f w m :
  heap w !! p = Some m →
  update p f w = Ok tt (set_heap (<[p := f m]> (heap w)) w) ∧
  ∀ w', w' = set_heap (<[p := f m]> (heap w)) w → reliability (f m) = reliability m →
    extends w w' ∧ (wf_world w → wf_world w') ∧
    ∀ q, queue_abs w' q = queue_abs w q.
Proof.
  intros Hp. unfold update. rewrite Hp. split; [done|]. intros w' -> Hr.
  assert (∀ x, live w x → live (set_heap (<[p:=f m]> (heap w)) w) x) as Hl.
  { intros [i|]; simpl; [|done]. rewrite lookup_insert_is_Some. destruct (decide (p = i)); eauto. }
  split; [|split; [|done]].
  - split; [intros e [H1 H2]; split; [done|auto]|].
    intros x (i & m' & -> & Hm' & Hi). exists i. simpl.
    destruct (decide (p = i)) as [<-|]; [|exists m'; by rewrite lookup_insert_ne].
    exists (f m). rewrite lookup_insert_eq. simplify_eq. unfold isPersistent in *. by rewrite Hr.
  - intros [H1 H2]. split; [done|]. intros q b z x Hb Hin. eapply Hl, H2; eauto.
Qed.

(** The sanity bound either leaves the message alone or zeroes its delivery time in
    the header and in the cached record; it always leaves a defined state. *)
Lemma sanitised_spec now msg s w :
  wf_system (s, w) → sane_clock now → live w msg →
  ∃ d w', sanitisedDeliveryTime now msg w = Ok d w' ∧ wf_system (s, w') ∧ inS 64 d ∧
    extends w w' ∧ (∀ q, queue_abs w' q = queue_abs w q) ∧
    (d ≠ 0 → w' = w).
Proof.
  intros Hwf [Hn1 Hn2] Hl. destruct msg as [p|]; [|by exists 0, w].
  destruct Hl as [m Hm]. pose proof (ws_times _ Hwf p m Hm) as Ht. simpl in Ht.
  change INT64_MAX with (2 ^ 63 - 1) in Hn2. assert (0 < kMaxWaitMs) by done.
  unfold sanitisedDeliveryTime, deref, checkS. mrun. rewrite Hm.
  destruct (0 <? _) eqn:Hpos; [|by exists (deliveryTime (jmsHeaders m)), w].
  unfold inS in Ht. change (64 - 1) with 63 in *.
  rewrite decide_True by (unfold inS; change (64 - 1) with 63; lia).
  destruct (kMaxFutureHeaderMs <? _) eqn:Hf; [|by exists (deliveryTime (jmsHeaders m)), w].
  destruct (update_live p (upd_hdr (set_deliveryTime 0)) w m Hm) as [E1 K1].
  destruct (K1 _ eq_refl eq_refl) as (K2 & K3 & K4). clear K1. rewrite E1.
  set (w1 := set_heap _ w) in *. set (m1 := upd_hdr _ m) in *.
  assert (Hm1 : heap w1 !! p = Some m1) by apply lookup_insert_eq.
  destruct (update_live p (patchCachedDeliveryTime 0) w1 m1 Hm1) as [E2 L1].
  destruct (L1 _ eq_refl ltac:(unfold patchCachedDeliveryTime; by repeat case_match)) as (L2 & L3 & L4). clear L1. rewrite E2. set (w2 := set_heap _ w1) in *.
  exists 0, w2. split; [done|]. destruct Hwf as [F1 F2 F0 F3 F4 F5].
  split; [|split; [done|split; [by eapply extends_trans|split; [intros q; by rewrite L4|done]]]].
  split; simpl in *; [auto| |done|done| |done].
  - eapply Forall_impl; [|exact F2]. intros e He. by apply L2, K2.
  - apply map_Forall_insert_2; [|apply map_Forall_insert_2; [done|done]].
    assert (jmsHeaders (patchCachedDeliveryTime 0 m1) = jmsHeaders m1) as ->; [|done].
    unfold patchCachedDeliveryTime. repeat case_match; done.
Qed.

Lemma send_conserves now1 now2 q msg s w :
  wf_system (s, w) → sane_clock now1 → valid_target w (mkEntry q msg) →
  ∃ sys', enqueueOrSchedule now1 now2 q msg (s, w) = Ok tt sys' ∧ wf_system sys' ∧
    stopped sys'.1 = stopped s ∧
    extends w sys'.2 ∧
    ((∀ q', total_all q' sys' ≡ₚ for_queue q' (mkEntry q msg) ++ total_all q' (s, w)) ∨
     (stopped s = true ∧ sys' = (s, w) ∧ is_persistent_at w msg)).
Proof.
  intros Hwf Hn Hv. destruct (sanitised_spec now1 msg s w Hwf Hn (proj2 Hv))
    as (d & w1 & E1 & Hwf1 & Hd & Hv1 & Hq1 & Hsame).
  assert (Htot : ∀ q', total_all q' (s, w1) = total_all q' (s, w)).
  { intros q'. unfold total_all. simpl. by rewrite Hq1. }
  (* the branch that enqueues at once *)
  assert (Henq : ∃ sys', onWorld (queue_enqueue q msg) (s, w1) = Ok tt sys' ∧ wf_system sys' ∧
    stopped sys'.1 = stopped s ∧ extends w sys'.2 ∧
    ∀ q', total_all q' sys' ≡ₚ for_queue q' (mkEntry q msg) ++ total_all q' (s, w)).
  { destruct (enqueue_total w1 (mkEntry q msg) (ws_world _ Hwf1) (proj1 Hv1 _ Hv))
      as (w2 & E2 & F1 & Fh & F2 & F3).
    exists (s, w2). unfold onWorld. simpl in E2. rewrite E2. split; [done|].
    destruct Hwf1 as [G1 G2 G0 G3 G4 G5]. split; [split; simpl in *; [done| |done|done|by rewrite Fh|done]|].
    - eapply Forall_impl; [|exact G2]. apply F2.
    - split; [done|]. split; [by eapply extends_trans|]. intros q'. rewrite <-Htot. unfold total_all. simpl.
      by rewrite F3, app_assoc. }
  assert (E1' : onWorld (sanitisedDeliveryTime now1 msg) (s, w) = Ok d (s, w1)) by (unfold onWorld; by rewrite E1).
  unfold enqueueOrSchedule. rewrite (bind_ok _ _ _ _ _ E1').
  destruct (_ || _) eqn:Hnow; [destruct Henq as (sys' & ? & ? & ? & ? & ?); eauto 8|].
  assert (w1 = w) as -> by (apply Hsame; intros ->; done). mrun. cbn [fst].
  destruct (stopped s) eqn:Hs.
  - destruct msg as [p|]; [|destruct Henq as (sys' & ? & ? & ? & ? & ?); simpl; eauto 8].
    destruct (proj2 Hv) as [m Hm]. simpl in Hm. simpl. mrun. unfold deref. rewrite Hm.
    destruct (isPersistent m) eqn:Hpm; [|destruct Henq as (sys' & ? & ? & ? & ? & ?); eauto 8].
    exists (s, w). split; [done|]. split; [done|]. split; [done|]. split; [done|]. right.
    split; [done|]. split; [done|]. by exists p, m.
  - eexists. split; [done|]. destruct Hwf as [F1 F2 F0 F3 F4 F5]. simpl in *.
    assert (Hh : hand (arm d (mkEntry q msg) s) = hand s).
    { unfold hand, arm. simpl. destruct (thread s); [done|]. done. }
    assert (Hp : (emplace d (mkEntry q msg) (pending s)).*2 ≡ₚ mkEntry q msg :: (pending s).*2).
    { by rewrite emplace_perm. }
    split; [split; simpl; rewrite ?Hh, ?Hp, ?emplace_perm; try done|].
    + rewrite <-Permutation_middle. by constructor.
    + by apply emplace_sorted.
    + by constructor.
    + split; [done|]. split; [done|]. left. intros q'. unfold total_all. cbn [fst snd].
      rewrite Hh. simpl. rewrite Hp, <-Permutation_middle. simpl.
      solve_Permutation.
Qed.

(** *** Runs *)
Definition runEvents (evs : list event) : M system unit := for_each do_event evs.
Definition sends (evs : list event) : list Entry :=
  evs ≫= λ ev, match ev with EvSend _ _ q p => [mkEntry q p] | _ => [] end.
Definition event_ok (w : world) (ev : event) : Prop :=
  match ev with
  | EvSend now1 _ q p => sane_clock now1 ∧ valid_target w (mkEntry q p)
  | EvWorker now _ => sane_clock now
  | EvStop | EvStopped => True
  end.
Definition is_stop (ev : event) : bool := match ev with EvStop => true | _ => false end.

(** The entries an event discards: those pending when stop() has joined. *)
Definition discards (ev : event) (s : scheduler) : list Entry :=
  match ev with
  | EvStopped => if stopped s && joined s then (pending s).*2 else []
  | _ => []
  end.

Lemma event_ok_extends w w' ev : extends w w' → event_ok w ev → event_ok w' ev.
Proof. intros [H _]. destruct ev; simpl; [intros []; auto|done..]. Qed.

Lemma finishStop_wf s w : wf_system (s, w) → wf_system (finishStop s, w).
Proof.
  intros Hwf. unfold finishStop. destruct (_ && _) eqn:E; [|done]. destruct Hwf as [H1 H2 H0 H3 H4 H5].
  apply Forall_app in H2 as [H2 _]. split; simpl in *; try done; [|constructor].
  rewrite app_nil_r. unfold hand in *. exact H2.
Qed.

(** One event: the entries it adds, those it refuses after a stop, and those it
    discards. *)
Lemma event_conserves ev s w :
  wf_system (s, w) → event_ok w ev →
  ∃ sys' refused, do_event ev (s, w) = Ok tt sys' ∧ wf_system sys' ∧ extends w sys'.2 ∧
    (∀ q, total_all q sys' ++ ((refused ++ discards ev s) ≫= for_queue q)
          ≡ₚ total_all q (s, w) ++ (sends [ev] ≫= for_queue q)) ∧
    stopped sys'.1 = stopped s || is_stop ev ∧
    (stopped s = false → refused = []) ∧ Forall (is_persistent_at w ∘ entry_msg) refused.
Proof.
  intros Hwf Hok. destruct ev as [now1 now2 q p|now timeout| |].
  - destruct Hok as [Hn Hv]. destruct (send_conserves now1 now2 q p s w Hwf Hn Hv)
      as (sys' & H1 & H2 & H3 & H4 & [H5|(H5 & -> & H6)]).
    + exists sys', []. rewrite H3, orb_false_r. split_and!; try done.
      intros q'. rewrite H5. simpl. solve_Permutation.
    + exists (s, w), [mkEntry q p]. rewrite orb_false_r. split_and!; try done.
      * by rewrite H5.
      * by constructor.
  - destruct (worker_conserves now timeout s w Hwf Hok) as (sys' & H1 & H2 & H3 & H4 & H5).
    exists sys', []. rewrite orb_false_r. split_and!; try done.
    intros q. rewrite H3. simpl. solve_Permutation.
  - exists (stop s, w), []. destruct Hwf as [H1 H2 H0 H3 H4 H5]. simpl in *.
    split; [done|]. unfold stop. destruct (stopped s) eqn:Hs; split_and!; try done; split; simpl; congruence || done.
  - exists (finishStop s, w), []. split; [done|]. split; [by apply finishStop_wf|]. rewrite orb_false_r.
    simpl. unfold finishStop. destruct (_ && _) eqn:E; split_and!; try done;
      intros q; unfold total_all; simpl; rewrite ?app_nil_r; try done.
    by rewrite bind_app, app_assoc.
Qed.

(** Once stop() has joined and discarded, nothing is pending any more. *)
Definition finished (s : scheduler) : Prop := stopped s = true ∧ joined s = true ∧ pending s = [].

Lemma onWorld_sched {A} (m : M world A) s w a s' w' : onWorld m (s, w) = Ok a (s', w') → s' = s.
Proof. unfold onWorld. destruct (m w); congruence. Qed.

Lemma event_finished ev s w sys' :
  finished s → do_event ev (s, w) = Ok tt sys' → finished sys'.1.
Proof.
  intros (Hs & Hj & Hp). destruct ev as [now1 now2 q p|now timeout| |]; simpl.
  - unfold enqueueOrSchedule. intros H. destruct sys' as [s' w']. enough (s' = s) as -> by done.
    revert H. mrun. destruct (onWorld _ (s, w)) as [d [s1 w1]| |] eqn:E; try done.
    apply onWorld_sched in E as ->. destruct (_ || _); [apply onWorld_sched|].
    mrun. cbn [fst]. rewrite Hs. destruct (onWorld (isPersistentPtr p) (s, w1)) as [[] [s2 w2]| |] eqn:E; try done;
      apply onWorld_sched in E as ->; [by intros [= -> ->]|apply onWorld_sched].
  - intros H. enough (sys'.1 = s) as -> by done. revert H. unfold worker_step, joined in *.
    destruct (thread s) as [[]|]; try done; by intros [= <-].
  - intros [= <-]. unfold stop. by rewrite Hs.
  - intros [= <-]. unfold finishStop. by rewrite Hs, Hj.
Qed.

(** What a run discards is what was pending when stop() had joined the worker. *)
Definition discarded_by (evs : list event) (sys : system) (discarded : list Entry) : Prop :=
  discarded = [] ∨
  ∃ evs1 evs2 s w, evs = evs1 ++ EvStopped :: evs2 ∧ runEvents evs1 sys = Ok tt (s, w) ∧
    stopped s = true ∧ joined s = true ∧ discarded = (pending s).*2.

Lemma discarded_by_finished evs s w l :
  finished s → discarded_by evs (s, w) l → l = [].
Proof.
  intros Hf [->|(evs1 & evs2 & s1 & w1 & _ & Hr & _ & _ & ->)]; [done|].
  enough (finished s1) as (_ & _ & ->) by done. clear evs evs2. revert s w Hf Hr.
  induction evs1 as [|ev evs1 IH]; intros s w Hf; unfold runEvents; cbn [for_each].
  - by intros [= <- <-].
  - mrun. destruct (do_event ev (s, w)) as [[] [s2 w2]| |] eqn:E; try done.
    apply IH. by apply (event_finished _ _ _ _ Hf E).
Qed.

Lemma discarded_by_cons ev evs s w s1 w1 l :
  do_event ev (s, w) = Ok tt (s1, w1) → discarded_by evs (s1, w1) l →
  discarded_by (ev :: evs) (s, w) (discards ev s ++ l).
Proof.
  intros E Hd. destruct (discards ev s) as [|e d] eqn:Hev; simpl.
  - destruct Hd as [->|(evs1 & evs2 & s2 & w2 & -> & Hr & H)]; [by left|]. right.
    exists (ev :: evs1), evs2, s2, w2. split; [done|]. split; [|done].
    unfold runEvents. cbn [for_each]. by rewrite (bind_ok _ _ _ _ _ E).
  - destruct ev; try done. simpl in Hev. destruct (stopped s && joined s) eqn:Hj; [|done].
    assert (finished s1) as Hf.
    { simpl in E. injection E as <- _. unfold finishStop. rewrite Hj. apply andb_true_iff in Hj as [].
      by split. }
    rewrite (discarded_by_finished _ _ _ _ Hf Hd), app_nil_r. right. exists [], evs, s, w.
    apply andb_true_iff in Hj as []. by split_and!.
Qed.

(** C23. The accounting of delayed delivery, whatever the order of sends, worker
    steps and the stages of stop(): every event of any sequence on a fresh scheduler
    returns, and what each queue received plus what is still pending or in the
    worker's hand is exactly what was there plus what was sent to it, once each, less
    two kinds of entries. [refused] are entries sent after stop(): they are all
    persistent messages, whose record stays in the storage. [discarded] are the
    entries that were pending, whatever their mode, when stop() had joined the worker
    and returned. Without a stop() both are empty: nothing is lost, duplicated or
    delivered twice. *)
Theorem delivery_accounting evs w :
  wf_world w → map_Forall (λ _ m, inS 64 (deliveryTime (jmsHeaders m))) (heap w) →
  Forall (event_ok w) evs →
  ∃ sys' refused discarded, runEvents evs (newScheduler, w) = Ok tt sys' ∧ wf_system sys' ∧
    (∀ q, total_all q sys' ++ ((refused ++ discarded) ≫= for_queue q)
          ≡ₚ (queue_abs w q).*2 ++ (sends evs ≫= for_queue q)) ∧
    (existsb is_stop evs = false → refused = [] ∧ discarded = []) ∧
    Forall (is_persistent_at sys'.2 ∘ entry_msg) refused ∧
    discarded_by evs (newScheduler, w) discarded.
Proof.
  intros Hw Ht Hevs.
  assert (Hwf : wf_system (newScheduler, w)) by (split; simpl; done || constructor).
  assert (Hb : ∀ q, (queue_abs w q).*2 = total_all q (newScheduler, w)).
  { intros q. unfold total_all. simpl. by rewrite app_nil_r. }
  setoid_rewrite Hb. clear Hb Ht Hw.
  assert (∀ s w, wf_system (s, w) → Forall (event_ok w) evs →
    ∃ sys' refused discarded, runEvents evs (s, w) = Ok tt sys' ∧ wf_system sys' ∧ extends w sys'.2 ∧
      (∀ q, total_all q sys' ++ ((refused ++ discarded) ≫= for_queue q)
            ≡ₚ total_all q (s, w) ++ (sends evs ≫= for_queue q)) ∧
      (stopped s || existsb is_stop evs = false → refused = [] ∧ discarded = []) ∧
      Forall (is_persistent_at sys'.2 ∘ entry_msg) refused ∧
      discarded_by evs (s, w) discarded) as H.
  2:{ destruct (H _ _ Hwf Hevs) as (sys' & refused & discarded & ? & ? & _ & ?).
      by exists sys', refused, discarded. }
  clear. induction evs as [|ev evs IH]; intros s w Hwf Hev.
  { exists (s, w), [], []. split_and!; try done. by left. }
  apply Forall_cons_1 in Hev as [Hev Hevs].
  destruct (event_conserves ev s w Hwf Hev) as ([s1 w1] & r1 & H1 & H2 & H3 & H4 & H5 & H6 & H7).
  destruct (IH s1 w1 H2) as (sys' & r2 & d2 & K1 & K2 & K3 & K4 & K5 & K6 & K7).
  { eapply Forall_impl; [|exact Hevs]. intros ev'. by apply event_ok_extends. }
  exists sys', (r1 ++ r2), (discards ev s ++ d2). unfold runEvents. cbn [for_each].
  rewrite (bind_ok _ _ _ _ _ H1). split; [done|]. split; [done|]. split; [by eapply extends_trans|].
  split; [|split; [|split; [|by eapply discarded_by_cons]]].
  - intros q. specialize (K4 q). specialize (H4 q).
    assert (sends (ev :: evs) = sends [ev] ++ sends evs) as ->.
    { unfold sends. simpl. by rewrite app_nil_r. }
    rewrite !bind_app. rewrite !bind_app in H4, K4.
    trans ((total_all q sys' ++ (r2 ≫= for_queue q) ++ (d2 ≫= for_queue q))
             ++ (r1 ≫= for_queue q) ++ (discards ev s ≫= for_queue q)); [solve_Permutation|].
    rewrite K4. trans ((total_all q (s1, w1) ++ (r1 ≫= for_queue q) ++ (discards ev s ≫= for_queue q))
                        ++ (sends evs ≫= for_queue q)); [solve_Permutation|].
    rewrite H4. solve_Permutation.
  - intros [Hs1 [Hs2 Hs3]%orb_false_iff]%orb_false_iff. simpl in H5.
    destruct K5 as [-> ->]; [by rewrite H5, Hs1, Hs2|]. rewrite (H6 Hs1). split; [done|].
    destruct ev; try done. simpl. by rewrite Hs1.
  - apply Forall_app. split; [|done]. eapply Forall_impl; [|exact H7]. intros e He. by apply K3, H3.
Qed.

(** *** The worker's pass *)

(** [n] steps of the worker at any clock readings. *)
Definition workerSteps (ts : list (Z * bool)) : M system unit :=
  for_each (λ '(now, timeout), worker_step now timeout) ts.
Definition due (u : Z) (l : list (Z * Entry)) : list (Z * Entry) := filter (λ te, te.1 <= u) l.
Definition not_due (u : Z) (l : list (Z * Entry)) : list (Z * Entry) := filter (λ te, u < te.1) l.
(** queue->enqueue(msg) for each entry in turn. *)
Definition deliver_all (l : list (Z * Entry)) : M world unit :=
  for_each (λ te, queue_enqueue (entry_queue te.2) (entry_msg te.2)) l.

Lemma due_head u t e l : by_time ((t, e) :: l) → u < t →
  due u ((t, e) :: l) = [] ∧ not_due u ((t, e) :: l) = (t, e) :: l.
Proof.
  intros [_ Hf]%by_time_tail Hu. split.
  - apply filter_none. constructor; [simpl; lia|]. eapply Forall_impl; [|exact Hf]. simpl. lia.
  - unfold not_due. rewrite filter_cons_True by done. f_equal. apply filter_every.
    eapply Forall_impl; [|exact Hf]. simpl. lia.
Qed.

Lemma pass_spec u l s w ts :
  wf_system (s, w) → pending s = l → thread s = Some (WDeliver u) →
  length ts = (2 * length (due u l) + 1)%nat →
  ∃ w', deliver_all (due u l) w = Ok tt w' ∧
    workerSteps ts (s, w) = Ok tt (set_thread (Some WCheck) (set_pending (not_due u l) s), w').
Proof.
  revert s w ts. induction l as [|[t e] l IH]; intros s w ts Hwf Hp Ht Hl;
    pose proof (ws_sorted _ Hwf) as Hs; simpl in Hs; rewrite Hp in Hs.
  - destruct ts as [|[n1 t1] [|? ?]]; try done. exists w. split; [done|].
    destruct s; simpl in *; subst. done.
  - destruct (decide (t <= u)) as [Hle|Hgt].
    + assert (due u ((t, e) :: l) = (t, e) :: due u l) as Hd by by apply filter_cons_True.
      assert (not_due u ((t, e) :: l) = not_due u l) as Hnd by (apply filter_cons_False; simpl; lia).
      rewrite Hd in *. rewrite Hnd. destruct ts as [|[n1 t1] [|[n2 t2] ts]]; simpl in Hl; try lia.
      unfold workerSteps. cbn [for_each].
      assert (E1 : worker_step n1 t1 (s, w)
        = Ok tt (set_thread (Some (WEnqueue u e)) (set_pending l s), w)).
      { unfold worker_step. rewrite Ht, Hp. by replace (t <=? u) with true by lia. }
      rewrite (bind_ok _ _ _ _ _ E1).
      destruct Hwf as [H1 H2 H0 H3 H4 H5]. simpl in *. rewrite Hp in *.
      apply Forall_app in H2 as [_ H2]. apply Forall_cons_1 in H2 as [He H2].
      destruct (enqueue_total w e H1 He) as (w1 & E2 & F1 & Fh & F2 & F3).
      set (s2 := set_thread (Some (WDeliver u)) (set_pending l s)).
      assert (E3 : worker_step n2 t2 (set_thread (Some (WEnqueue u e)) (set_pending l s), w)
        = Ok tt (s2, w1)).
      { unfold worker_step, onWorld, goto, onSched, modify. simpl. mrun. by rewrite E2. }
      rewrite (bind_ok _ _ _ _ _ E3). destruct (IH s2 w1 ts) as (w2 & G1 & G2); try done.
      * split; simpl; try done; [|by apply by_time_tail in Hs as []|by apply Forall_cons_1 in H3 as []|by rewrite Fh].
        eapply Forall_impl; [|exact H2]. apply F2.
      * unfold due in *. lia.
      * exists w2. split; [|done]. unfold deliver_all. cbn [for_each]. by rewrite (bind_ok _ _ _ _ _ E2).
    + destruct (due_head u t e l Hs ltac:(lia)) as [Hd Hnd]. rewrite Hd in *. rewrite Hnd.
      destruct ts as [|[n1 t1] [|? ?]]; try done. exists w. split; [done|].
      assert (E1 : worker_step n1 t1 (s, w) = Ok tt (set_thread (Some WCheck) s, w)).
      { unfold worker_step. rewrite Ht, Hp. by replace (t <=? u) with false by lia. }
      unfold workerSteps. cbn [for_each]. rewrite (bind_ok _ _ _ _ _ E1).
      destruct s; simpl in *; by subst.
Qed.

(** When a wait times out at time [u], the worker delivers exactly the entries
    whose delivery time is at most [u], to their own queues in the order of the
    pending map (earliest first), keeps all the others pending, and is back at the
    head of its loop after two steps per delivered entry and two more. *)
Theorem timeout_delivers_due s w u d v ts :
  wf_system (s, w) → thread s = Some (WWait d v) →
  stop_flag s = false → version s = v →
  length ts = (2 * length (due u (pending s)) + 1)%nat →
  ∃ w', deliver_all (due u (pending s)) w = Ok tt w' ∧
    workerSteps ((u, true) :: ts) (s, w)
    = Ok tt (set_thread (Some WCheck) (set_pending (not_due u (pending s)) s), w').
Proof.
  intros Hwf Ht Hst Hv Hl.
  assert (E : worker_step u true (s, w) = Ok tt (set_thread (Some (WDeliver u)) s, w)).
  { unfold worker_step. by rewrite Ht, Hst, Hv, Z.eqb_refl. }
  destruct (pass_spec u (pending s) (set_thread (Some (WDeliver u)) s) w ts) as (w' & H1 & H2); try done.
  { apply wf_set_thread; [done|unfold hand; by rewrite Ht|done]. }
  exists w'. split; [done|]. unfold workerSteps. cbn [for_each]. by rewrite (bind_ok _ _ _ _ _ E).
Qed.

(** *** stop() *)

(** How many steps of the worker a join() may have to wait for. *)
Definition remaining (s : scheduler) : nat :=
  match thread s with
  | None | Some WDone => 0
  | Some WCheck => 1
  | Some WIdle | Some (WWait _ _) => 2
  | Some (WDeliver _) => 2 * length (pending s) + 2
  | Some (WEnqueue _ _) => 2 * length (pending s) + 3
  end.

Lemma worker_decreases now timeout s w s' w' :
  stop_flag s = true → worker_step now timeout (s, w) = Ok tt (s', w') →
  stop_flag s' = true ∧ (remaining s' <= remaining s - 1)%nat.
Proof.
  intros Hs. unfold worker_step, remaining.
  destruct (thread s) as [[| |d v|u|u e|]|] eqn:Ht; try (intros [= <- <-]; by rewrite ?Ht);
    rewrite ?Hs; cbn [orb].
  - by intros [= <- <-].
  - by intros [= <- <-].
  - by intros [= <- <-].
  - destruct (pending s) as [|[t e] l]; [intros [= <- <-]; simpl; auto with lia|].
    destruct (t <=? u); intros [= <- <-]; simpl; (split; [done|lia]).
  - unfold onWorld, goto, onSched, modify. mrun. destruct (queue_enqueue _ _ w); try done.
    intros [= <- <-]. simpl. split; [done|lia].
Qed.

(** C28. stop() terminates: once it has set its flags, the worker, whatever it was
    doing, returns from run() within a bounded number of its own steps, at any clock
    readings, so that join() returns, and every step on the way is defined. *)
Theorem stop_joins s w ts :
  wf_system (s, w) → Forall (λ nt, sane_clock nt.1) ts →
  (2 * length (pending s) + 3 <= length ts)%nat →
  ∃ sys', workerSteps ts (stop s, w) = Ok tt sys' ∧ joined sys'.1 = true.
Proof.
  intros Hwf Hts Hl.
  assert (Hst : stop_flag (stop s) = true).
  { unfold stop. destruct (stopped s) eqn:E; [|done]. rewrite <-E. symmetry. apply Hwf. }
  assert (Hwf' : wf_system (stop s, w)).
  { unfold stop. destruct Hwf as [H1 H2 H0 H3 H4 H5]. destruct (stopped s) eqn:E; split; simpl in *; congruence || done. }
  assert (Hr : (remaining (stop s) <= length ts)%nat).
  { assert (pending (stop s) = pending s) as Hp by (unfold stop; by destruct (stopped s)).
    unfold remaining. rewrite Hp. repeat case_match; lia. }
  clear Hwf Hl. revert w Hwf' Hst Hr. generalize (stop s). clear s.
  induction Hts as [|[now timeout] ts Hn _ IH]; intros s w Hwf Hst Hr.
  - exists (s, w). split; [done|]. unfold joined, remaining in *. simpl in *.
    repeat case_match; simplify_eq; done || lia.
  - destruct (worker_conserves now timeout s w Hwf Hn) as ([s1 w1] & E1 & E2 & _).
    destruct (worker_decreases _ _ _ _ _ _ Hst E1) as [Hst1 Hr1].
    destruct (IH s1 w1 E2 Hst1) as (sys' & H1 & H2); [simpl in *; lia|].
    exists sys'. split; [|done]. unfold workerSteps. cbn [for_each]. by rewrite (bind_ok _ _ _ _ _ E1).
Qed.

(** The wait the worker computes is the distance to the deadline clamped to
    [0, kMaxWaitMs], and no 64-bit signed arithmetic overflows, for every
    deadline, however corrupt, and every clock reading a day short of the end of
    time. *)
Theorem wait_is_capped (sys : system) deadlineMs now :
  inS 64 deadlineMs → 0 <= now → now + kMaxWaitMs <= INT64_MAX →
  cappedWaitDeltaMs deadlineMs now sys = Ok (Z.max 0 (Z.min (deadlineMs - now) kMaxWaitMs)) sys.
Proof. apply capped_wait. Qed.

(** *** Witnesses *)
Definition sampleDelayed : Message :=
  upd_hdr (set_deliveryTime 5000) (newMessage (emptyBody TEXT_MESSAGE)).
Definition sampleWorld : world := mkWorld {[0%nat := sampleDelayed]} {[0%nat := Seq.empty_pq]}.
Definition sampleWaiting : scheduler :=
  mkScheduler [(5000, mkEntry 0 (Some 0%nat))] (Some (WWait 4000 1)) false false 1.

Lemma sampleWorld_wf : wf_world sampleWorld.
Proof.
  split; simpl.
  - intros q b [<- <-]%lookup_singleton_Some. apply Seq.wf_empty.
  - intros q b z p [<- <-]%lookup_singleton_Some Hin. by apply not_elem_of_nil in Hin.
Qed.
Lemma sampleWorld_times :
  map_Forall (λ _ m, inS 64 (deliveryTime (jmsHeaders m))) (heap sampleWorld).
Proof. by apply map_Forall_singleton. Qed.
Lemma sample_target : valid_target sampleWorld (mkEntry 0 (Some 0%nat)).
Proof. split; simpl; rewrite lookup_singleton_eq; eauto. Qed.
Lemma sampleWaiting_wf : wf_system (sampleWaiting, sampleWorld).
Proof.
  split; simpl; [apply sampleWorld_wf| | | |apply sampleWorld_times|done]; repeat constructor;
    simpl; rewrite ?lookup_singleton_eq; eauto; done.
Qed.

Lemma wait_is_capped_witness :
  cappedWaitDeltaMs INT64_MAX 1700000000000 (newScheduler, sampleWorld)
  = Ok kMaxWaitMs (newScheduler, sampleWorld).
Proof. by apply (wait_is_capped _ INT64_MAX 1700000000000). Defined.

Lemma emplace_stable_witness :
  by_time (emplace 7 (mkEntry 0 None) [(5, mkEntry 1 None); (7, mkEntry 2 None)]).
Proof. apply (emplace_stable 7 (mkEntry 0 None) [(5, mkEntry 1 None); (7, mkEntry 2 None)]). repeat constructor; done. Defined.

(** A stop() with one entry pending: it is discarded. *)
Lemma delivery_accounting_witness :
  ∃ sys' refused discarded,
    runEvents [EvSend 1000 1000 0 (Some 0%nat); EvWorker 1000 false; EvStop; EvWorker 1000 true;
               EvWorker 1000 false; EvStopped] (newScheduler, sampleWorld) = Ok tt sys' ∧
    total_all 0 sys' = [] ∧ (refused ++ discarded) ≫= for_queue 0 ≡ₚ [Some 0%nat].
Proof.
  destruct (delivery_accounting
    [EvSend 1000 1000 0 (Some 0%nat); EvWorker 1000 false; EvStop; EvWorker 1000 true;
     EvWorker 1000 false; EvStopped] sampleWorld)
    as (sys' & r & d & H1 & _ & H2 & _).
  - apply sampleWorld_wf.
  - apply sampleWorld_times.
  - repeat constructor; simpl; rewrite ?lookup_singleton_eq; eauto; done.
  - exists sys', r, d. split; [done|]. specialize (H2 0%nat). vm_compute in H1. injection H1 as <-.
    split; [by vm_compute|exact H2].
Defined.

Lemma timeout_delivers_due_witness :
  ∃ w', deliver_all [(5000, mkEntry 0 (Some 0%nat))] sampleWorld = Ok tt w' ∧
    queue_abs w' 0 = [(4, Some 0%nat)].
Proof.
  destruct (timeout_delivers_due sampleWaiting sampleWorld 5000 4000 1 (replicate 3 (5000, false)))
    as (w' & H1 & _); try done.
  - apply sampleWaiting_wf.
  - exists w'. split; [done|]. vm_compute in H1. injection H1 as <-. by vm_compute.
Defined.

Lemma stop_joins_witness :
  ∃ sys', workerSteps (replicate 5 (1000, false)) (stop sampleWaiting, sampleWorld) = Ok tt sys' ∧
    joined sys'.1 = true.
Proof.
  apply stop_joins; [apply sampleWaiting_wf|by apply Forall_replicate|simpl; lia].
Defined.
