(* ===== verification/BTree.v ===== *)
(** The B-tree that indexes a storage (external/btree/include/fc/btree.h, instantiated as
    DiskBTreeMap in disk_btree.h): nodes at addresses, with their parent pointers, their
    places in the parent and the counts of the pairs below them, and the member functions
    that search, insert, erase and verify.

    A node's array of keys is the list of its first num_keys_ elements; storing more than
    the array holds, following a dangling or null pointer and a failed assertion are [UB].
    The constructor of an iterator asserts that its place is at most the number of keys of
    its node; the places are results of get_lb, which are. A loop that walks between the
    root and a leaf has as many rounds as [rounds] says. Allocation succeeds, and freeing a
    node frees it alone, as Deleter does. verify() at the end of the leaf operations is
    compiled in only with _CONTROL_IN_TEST, and is an operation of its own here.

    Members of type attr_t are integers: a count is checked against its 32 bits where it
    grows (insert_leaf); the other operations only move counts from node to node. *)
From Stdlib Require Import Lia ZifyBool.
From S2P Require Import Prelude.
From stdpp Require Import list sorting.
Local Open Scope Z_scope.

(** The order of the keys (Comp, std::ranges::less) and their equality. *)
Class KeyOrder (K : Type) : Type := {
  ko_eq_dec :: EqDecision K;
  Comp : K → K → bool
}.
Class KeyOrderOk (K : Type) `{KeyOrder K} : Prop := {
  comp_irrefl k : Comp k k = false;
  comp_trans a b c : Comp a b = true → Comp b c = true → Comp a c = true;
  comp_total a b : Comp a b = false → Comp b a = false → a = b
}.

(** The first element of a list past an index is out of range below 0 as well. *)
Definition at_ {A} (l : list A) (i : Z) : option A := if decide (0 <= i) then l !! Z.to_nat i else None.
Definition assert_ {S} (b : bool) : M S unit := if b then mret tt else undefined.
Definition remove_at {A} (i : nat) (l : list A) : list A := take i l ++ drop (S i) l.
Definition insert_at {A} (i : nat) (x : A) (l : list A) : list A := take i l ++ x :: drop i l.

Section BTree.
Context {K D : Type} `{KeyOrder K} `{!Inhabited D} (Fanout : nat).
(** BTreePair<K, D> *)
Notation V := (K * D)%type.

Record Node : Type := mkNode {
  keys_ : list V;
  parent_ : option nat;
  size_ : Z;
  index_ : Z;
  height_ : Z;
  children_ : list nat
}.
Definition set_keys (x : list V) (n : Node) := mkNode x (parent_ n) (size_ n) (index_ n) (height_ n) (children_ n).
Definition set_parent (x : option nat) (n : Node) := mkNode (keys_ n) x (size_ n) (index_ n) (height_ n) (children_ n).
Definition add_size (d : Z) (n : Node) := mkNode (keys_ n) (parent_ n) (size_ n + d) (index_ n) (height_ n) (children_ n).
Definition set_index (x : Z) (n : Node) := mkNode (keys_ n) (parent_ n) (size_ n) x (height_ n) (children_ n).
Definition set_children (x : list nat) (n : Node) := mkNode (keys_ n) (parent_ n) (size_ n) (index_ n) (height_ n) x.
Definition nkeys (n : Node) : nat := length (keys_ n).
Definition is_leaf (n : Node) : bool := bool_decide (children_ n = []).
Definition is_full (n : Node) : bool := (nkeys n =? 2 * Fanout - 1)%nat.
Definition can_take_key (n : Node) : bool := (Fanout - 1 <? nkeys n)%nat.
Definition has_minimal_keys (n : Node) : bool := bool_decide (parent_ n ≠ None) && (nkeys n =? Fanout - 1)%nat.
Definition node_empty (n : Node) : bool := (nkeys n =? 0)%nat.

(** An iterator: a node and a place in it. *)
Definition iterator : Type := (nat * Z).
(** The nodes by address, the next unused address, root_ and begin_. *)
Record BTree : Type := mkBTree { nodes : gmap nat Node; unused : nat; root_ : nat; begin_ : iterator }.
Definition set_nodes (x : gmap nat Node) (b : BTree) := mkBTree x (unused b) (root_ b) (begin_ b).
Definition set_root (x : nat) (b : BTree) := mkBTree (nodes b) (unused b) x (begin_ b).
Definition set_begin_ (x : iterator) (b : BTree) := mkBTree (nodes b) (unused b) (root_ b) x.

(** *p and the update of a member of *p *)
Definition node (p : nat) : M BTree Node := b ← get; require (nodes b !! p).
Definition upd (p : nat) (f : Node → Node) : M BTree unit :=
  n ← node p; modify (λ b, set_nodes (<[p := f n]> (nodes b)) b).
(** Writing the keys of a node, within its array of 2 * Fanout. *)
Definition store_keys (p : nat) (ks : list V) : M BTree unit :=
  _ ← assert_ (length ks <=? 2 * Fanout)%nat; upd p (set_keys ks).

Definition newNode : Node := mkNode [] None 0 0 0 [].
Definition make_node : M BTree nat :=
  b ← get;
  _ ← put (mkBTree (<[unused b := newNode]> (nodes b)) (S (unused b)) (root_ b) (begin_ b));
  mret (unused b).
(** Deleter::operator() *)
Definition delete_node (p : nat) : M BTree unit := modify (λ b, set_nodes (delete p (nodes b)) b).

(** BTreeBase() *)
Definition emptyTree : BTree := mkBTree {[0%nat := newNode]} 1 0 (0%nat, 0).

Definition get_root : M BTree Node := b ← get; node (root_ b).
Definition tree_empty : M BTree bool := n ← get_root; mret (size_ n =? 0).
Definition size : M BTree Z := n ← get_root; mret (wrapU 64 (size_ n)).
Definition height : M BTree Z := n ← get_root; mret (height_ n).
Definition begin : M BTree iterator := gets begin_.
Definition end_ : M BTree iterator := b ← get; n ← node (root_ b); mret (root_ b, Z.of_nat (nkeys n)).
Definition deref (it : iterator) : M BTree V := n ← node it.1; require (at_ (keys_ n) it.2).

(** The rounds of a walk between the root and a leaf: every one changes the height. *)
Definition rounds : M BTree nat := n ← get_root; mret (S (S (Z.to_nat (height_ n)))).

Fixpoint rightmost_leaf (fuel : nat) (curr : nat) : M BTree nat :=
  match fuel with
  | O => undefined
  | S fuel =>
      n ← node curr;
      if is_leaf n then mret curr
      else c ← require (last (children_ n)); rightmost_leaf fuel c
  end.
Fixpoint leftmost_leaf (fuel : nat) (curr : nat) : M BTree nat :=
  match fuel with
  | O => undefined
  | S fuel =>
      n ← node curr;
      if is_leaf n then mret curr
      else c ← require (head (children_ n)); leftmost_leaf fuel c
  end.

(** BTreeIterator *)
Fixpoint climb (fuel : nat) (it : iterator) : M BTree iterator :=
  match fuel with
  | O => undefined
  | S fuel =>
      n ← node it.1;
      match parent_ n with
      | Some p => if it.2 =? Z.of_nat (nkeys n) then climb fuel (p, index_ n) else mret it
      | None => mret it
      end
  end.
Definition increment (it : iterator) : M BTree iterator :=
  fuel ← rounds;
  n ← node it.1;
  if negb (is_leaf n) then
    c ← require (at_ (children_ n) (it.2 + 1)); l ← leftmost_leaf fuel c; mret (l, 0)
  else climb fuel (it.1, it.2 + 1).
(** decrement()'s walk to the first ancestor that is not the first child of its parent *)
Fixpoint rise (fuel : nat) (p : nat) : M BTree nat :=
  match fuel with
  | O => undefined
  | S fuel =>
      n ← node p;
      match parent_ n with
      | Some q => if index_ n =? 0 then rise fuel q else mret p
      | None => mret p
      end
  end.
Definition decrement (it : iterator) : M BTree iterator :=
  fuel ← rounds;
  n ← node it.1;
  if negb (is_leaf n) then
    c ← require (at_ (children_ n) it.2); l ← rightmost_leaf fuel c; ln ← node l;
    mret (l, Z.of_nat (nkeys ln) - 1)
  else if 0 <? it.2 then mret (it.1, it.2 - 1)
  else
    p ← rise fuel it.1; pn ← node p;
    if 0 <? index_ pn then q ← require (parent_ pn); mret (q, index_ pn - 1) else mret (p, it.2).
Definition iter_swap (a b : iterator) : M BTree unit :=
  x ← deref a; y ← deref b;
  na ← node a.1; _ ← store_keys a.1 (<[Z.to_nat a.2 := y]> (keys_ na));
  nb ← node b.1; store_keys b.1 (<[Z.to_nat b.2 := x]> (keys_ nb)).

(** std::ranges::lower_bound over the keys of a node. *)
Fixpoint lower_bound (fuel : nat) (key : K) (l : list V) (first len : nat) : nat :=
  match fuel, len with
  | S fuel, S _ =>
      let half := (len / 2)%nat in
      match l !! (first + half)%nat with
      | Some v => if Comp v.1 key then lower_bound fuel key l (first + half + 1) (len - half - 1)
                  else lower_bound fuel key l first half
      | None => first
      end
  | _, _ => first
  end.
Definition get_lb (key : K) (x : Node) : nat := lower_bound (nkeys x) key (keys_ x) 0 (nkeys x).

Fixpoint search_loop (fuel : nat) (key : K) (x : nat) : M BTree iterator :=
  match fuel with
  | O => undefined
  | S fuel =>
      n ← node x;
      let i := get_lb key n in
      match keys_ n !! i with
      | Some v => if decide (key = v.1) then mret (x, Z.of_nat i)
                  else if is_leaf n then end_
                  else c ← require (children_ n !! i); search_loop fuel key c
      | None => if is_leaf n then end_
                else c ← require (children_ n !! i); search_loop fuel key c
      end
  end.
Definition find (key : K) : M BTree iterator := fuel ← rounds; b ← get; search_loop fuel key (root_ b).
Definition contains (key : K) : M BTree bool := it ← find key; e ← end_; mret (bool_decide (it ≠ e)).

Definition promote_root_if_necessary : M BTree unit :=
  b ← get;
  n ← get_root;
  if node_empty n then
    _ ← assert_ (length (children_ n) =? 1)%nat;
    c ← require (children_ n !! 0%nat);
    _ ← modify (set_root c);
    _ ← delete_node (root_ b);
    upd c (λ n, set_parent None (set_index 0 n))
  else mret tt.

(** node brings a key from parent, parent a key from its right sibling, node a child of it *)
Definition left_rotate_child (x sib : nat) (n sn : Node) : M BTree unit :=
  c ← require (head (children_ sn));
  cn ← node c;
  _ ← upd x (add_size (size_ cn));
  _ ← upd sib (add_size (- size_ cn));
  _ ← upd c (set_parent (Some x));
  _ ← upd c (set_index (Z.of_nat (length (children_ n))));
  _ ← upd x (set_children (children_ n ++ [c]));
  _ ← upd sib (set_children (tail (children_ sn)));
  for_each (λ c, upd c (λ n, set_index (index_ n - 1) n)) (tail (children_ sn)).
Definition left_rotate (x : nat) : M BTree unit :=
  n ← node x;
  p ← require (parent_ n);
  pn ← node p;
  _ ← assert_ (bool_decide (at_ (children_ pn) (index_ n) = Some x));
  sib ← require (at_ (children_ pn) (index_ n + 1));
  sn ← node sib;
  _ ← assert_ (can_take_key sn);
  k ← require (at_ (keys_ pn) (index_ n));
  k' ← require (head (keys_ sn));
  _ ← store_keys x (keys_ n ++ [k]);
  _ ← upd p (set_keys (<[Z.to_nat (index_ n) := k']> (keys_ pn)));
  _ ← upd sib (set_keys (tail (keys_ sn)));
  _ ← upd x (add_size 1);
  _ ← upd sib (add_size (-1));
  if is_leaf n then mret tt else left_rotate_child x sib n sn.

(** node brings a key from parent, parent a key from its left sibling, node a child of it *)
Definition right_rotate_child (x sib : nat) (n sn : Node) : M BTree unit :=
  c ← require (last (children_ sn));
  cn ← node c;
  _ ← upd x (add_size (size_ cn));
  _ ← upd sib (add_size (- size_ cn));
  _ ← upd c (set_parent (Some x));
  _ ← upd c (set_index 0);
  _ ← upd x (set_children (c :: children_ n));
  _ ← upd sib (set_children (take (length (children_ sn) - 1) (children_ sn)));
  for_each (λ c, upd c (λ n, set_index (index_ n + 1) n)) (children_ n).
Definition right_rotate (x : nat) : M BTree unit :=
  n ← node x;
  p ← require (parent_ n);
  pn ← node p;
  _ ← assert_ (bool_decide (at_ (children_ pn) (index_ n) = Some x));
  sib ← require (at_ (children_ pn) (index_ n - 1));
  sn ← node sib;
  _ ← assert_ (can_take_key sn);
  k ← require (at_ (keys_ pn) (index_ n - 1));
  k' ← require (last (keys_ sn));
  _ ← store_keys x (k :: keys_ n);
  _ ← upd p (set_keys (<[Z.to_nat (index_ n - 1) := k']> (keys_ pn)));
  _ ← upd sib (set_keys (take (nkeys sn - 1) (keys_ sn)));
  _ ← upd x (add_size 1);
  _ ← upd sib (add_size (-1));
  if is_leaf n then mret tt else right_rotate_child x sib n sn.

(** split child[i] of x to child[i], child[i + 1]: the right half of the children goes to z *)
Definition split_children (y z : nat) (n : Node) : M BTree Z :=
  _ ← upd z (set_children (drop Fanout (children_ n)));
  _ ← for_each (λ c, upd c (λ m, set_index (index_ m - Z.of_nat Fanout) (set_parent (Some z) m))) (drop Fanout (children_ n));
  _ ← upd y (set_children (take Fanout (children_ n)));
  b ← get;
  mret (sumZ (λ c, from_option size_ 0 (nodes b !! c)) (drop Fanout (children_ n))).
Definition split_child (y : nat) : M BTree unit :=
  n ← node y;
  let i := Z.to_nat (index_ n) in
  x ← require (parent_ n);
  xn ← node x;
  _ ← assert_ (bool_decide (at_ (children_ xn) (index_ n) = Some y) && is_full n && negb (is_full xn));
  z ← make_node;
  _ ← upd z (set_parent (Some x));
  _ ← upd z (set_index (index_ n + 1));
  _ ← upd z (λ m, mkNode (keys_ m) (parent_ m) (size_ m) (index_ m) (height_ n) (children_ m));
  _ ← store_keys z (drop Fanout (keys_ n));
  moved ← (if is_leaf n then mret 0 else split_children y z n);
  let z_size := Z.of_nat (nkeys n - Fanout) + moved in
  _ ← upd z (add_size z_size);
  _ ← upd y (add_size (- (z_size + 1)));
  _ ← upd x (set_children (insert_at (S i) z (children_ xn)));
  _ ← for_each (λ c, upd c (λ m, set_index (index_ m + 1) m)) (drop (S (S i)) (insert_at (S i) z (children_ xn)));
  k ← require (keys_ n !! (Fanout - 1)%nat);
  _ ← store_keys x (insert_at i k (keys_ xn));
  upd y (set_keys (take (Fanout - 1) (keys_ n))).

(** child->index_ = index++ *)
Fixpoint adopt (y : nat) (index : Z) (l : list nat) : M BTree unit :=
  match l with
  | [] => mret tt
  | c :: l => _ ← upd c (λ m, set_index index (set_parent (Some y) m)); adopt y (index + 1) l
  end.

(** merge child[i + 1] and key[i] of x into child[i]: its children *)
Definition merge_children (y : nat) (n sn : Node) : M BTree Z :=
  _ ← adopt y (Z.of_nat (length (children_ n))) (children_ sn);
  b ← get;
  _ ← upd y (set_children (children_ n ++ children_ sn));
  mret (sumZ (λ c, from_option size_ 0 (nodes b !! c)) (children_ sn)).
Definition merge_child (y : nat) : M BTree unit :=
  n ← node y;
  let i := Z.to_nat (index_ n) in
  x ← require (parent_ n);
  xn ← node x;
  _ ← assert_ (bool_decide (at_ (children_ xn) (index_ n) = Some y) && negb (is_leaf xn));
  sib ← require (at_ (children_ xn) (index_ n + 1));
  sn ← node sib;
  _ ← assert_ (nkeys n + nkeys sn <=? 2 * Fanout - 2)%nat;
  k ← require (keys_ xn !! i);
  _ ← store_keys y (keys_ n ++ k :: keys_ sn);
  moved ← (if is_leaf n then mret 0 else merge_children y n sn);
  _ ← upd y (add_size (Z.of_nat (nkeys sn) + moved + 1));
  _ ← upd x (set_children (remove_at (S i) (children_ xn)));
  _ ← delete_node sib;
  _ ← upd x (set_keys (remove_at i (keys_ xn)));
  for_each (λ c, upd c (λ m, set_index (index_ m - 1) m)) (drop (S i) (remove_at (S i) (children_ xn))).

(** while (curr) curr->size_ += d; a count that leaves attr_t is a signed overflow *)
Fixpoint count_up (d : Z) (fuel : nat) (curr : option nat) : M BTree unit :=
  match curr with
  | None => mret tt
  | Some p =>
      match fuel with
      | O => undefined
      | S fuel => n ← node p; _ ← checkS 32 (size_ n + d); _ ← upd p (add_size d); count_up d fuel (parent_ n)
      end
  end.

Definition insert_leaf (x i : nat) (value : V) : M BTree iterator :=
  fuel ← rounds;
  n ← node x;
  _ ← assert_ (is_leaf n && negb (is_full n));
  b ← get;
  e ← tree_empty;
  update_begin ← (if (e : bool) then mret true else v ← deref (begin_ b); mret (Comp value.1 v.1));
  _ ← store_keys x (insert_at i value (keys_ n));
  _ ← when update_begin
        (l ← leftmost_leaf fuel (root_ b);
         _ ← assert_ (bool_decide (l = x) && (i =? 0)%nat);
         modify (set_begin_ (x, Z.of_nat i)));
  _ ← count_up 1 fuel (Some x);
  mret (x, Z.of_nat i).

(** operator[]'s and insert_value()'s first step: a full root becomes the child of a new root *)
Definition grow_root : M BTree unit :=
  b ← get;
  n ← get_root;
  if is_full n then
    r ← make_node;
    _ ← upd (root_ b) (set_parent (Some r));
    _ ← upd r (λ m, mkNode (keys_ m) (parent_ m) (size_ n) (index_ m) (height_ n + 1) [root_ b]);
    _ ← modify (set_root r);
    split_child (root_ b)
  else mret tt.

(** The loop of insert_lb(): the place of the key, and whether it was inserted. *)
Fixpoint insert_loop (fuel : nat) (value : V) (x : nat) : M BTree (iterator * bool) :=
  match fuel with
  | O => undefined
  | S fuel =>
      n ← node x;
      let i := get_lb value.1 n in
      if bool_decide (fst <$> keys_ n !! i = Some value.1) then mret ((x, Z.of_nat i), false)
      else if is_leaf n then it ← insert_leaf x i value; mret (it, true)
      else
        c ← require (children_ n !! i);
        cn ← node c;
        if is_full cn then
          _ ← split_child c;
          n ← node x;
          v ← require (keys_ n !! i);
          if decide (value.1 = v.1) then mret ((x, Z.of_nat i), false)
          else
            c ← require (children_ n !! (if Comp v.1 value.1 then S i else i));
            insert_loop fuel value c
        else insert_loop fuel value c
  end.
Definition insert_value (value : V) : M BTree (iterator * bool) :=
  _ ← grow_root; fuel ← rounds; b ← get; insert_loop fuel value (root_ b).
(** The loop of operator[] differs in what it inserts, a value-initialised one. *)
Definition subscript (key : K) : M BTree iterator :=
  _ ← grow_root; fuel ← rounds; b ← get; r ← insert_loop fuel (key, inhabitant) (root_ b); mret r.1.
(** tree[key] = value *)
Definition assign (key : K) (value : D) : M BTree unit :=
  it ← subscript key;
  n ← node it.1;
  v ← deref it;
  store_keys it.1 (<[Z.to_nat it.2 := (v.1, value)]> (keys_ n)).

Definition erase_leaf (x i : nat) : M BTree iterator :=
  fuel ← rounds;
  n ← node x;
  _ ← assert_ ((i <? nkeys n)%nat && is_leaf n && negb (has_minimal_keys n));
  b ← get;
  let update_begin := bool_decide (begin_ b = (x, Z.of_nat i)) in
  _ ← store_keys x (remove_at i (keys_ n));
  it ← climb fuel (x, Z.of_nat i);
  _ ← when update_begin (modify (set_begin_ it));
  _ ← count_up (-1) fuel (Some x);
  mret it.

(** erase_lb(): the step at a child that has minimal keys, and the node to go on with *)
Definition replenish (xn : Node) (i : nat) (next : nat) : M BTree nat :=
  right ← (match children_ xn !! S i with Some s => sn ← node s; mret (can_take_key sn) | None => mret false end);
  if (right : bool) then _ ← left_rotate next; mret next
  else
    left ← (if (1 <=? i)%nat then s ← require (children_ xn !! (i - 1)%nat); sn ← node s; mret (can_take_key sn)
            else mret false);
    if (left : bool) then _ ← right_rotate next; mret next
    else if (S i <? length (children_ xn))%nat then
      _ ← merge_child next; _ ← promote_root_if_necessary; mret next
    else if (1 <=? i)%nat then
      s ← require (children_ xn !! (i - 1)%nat);
      _ ← merge_child s; _ ← promote_root_if_necessary; mret s
    else mret next.

(** assert(it.node_ == rightmost_leaf(c)) *)
Definition assert_at (leaf : nat → nat → M BTree nat) (c : nat) (it : iterator) : M BTree unit :=
  fuel ← rounds; l ← leaf fuel c; assert_ (bool_decide (it.1 = l)).

Fixpoint erase_loop (fuel : nat) (key : K) (x : nat) : M BTree Z :=
  match fuel with
  | O => undefined
  | S fuel =>
      n ← node x;
      let i := get_lb key n in
      if bool_decide (fst <$> keys_ n !! i = Some key) then
        _ ← assert_ (is_leaf n || (S i <? length (children_ n))%nat);
        if is_leaf n then _ ← erase_leaf x i; mret 1
        else
          c ← require (children_ n !! i);
          cn ← node c;
          if can_take_key cn then
            pred ← decrement (x, Z.of_nat i);
            _ ← assert_at rightmost_leaf c pred;
            _ ← iter_swap pred (x, Z.of_nat i);
            erase_loop fuel key c
          else
            c' ← require (children_ n !! S i);
            cn' ← node c';
            if can_take_key cn' then
              succ ← increment (x, Z.of_nat i);
              _ ← assert_at leftmost_leaf c' succ;
              _ ← iter_swap succ (x, Z.of_nat i);
              erase_loop fuel key c'
            else
              _ ← merge_child c; _ ← promote_root_if_necessary; erase_loop fuel key c
      else if is_leaf n then mret 0
      else
        next ← require (children_ n !! i);
        nn ← node next;
        next ← (if has_minimal_keys nn then replenish n i next else mret next);
        erase_loop fuel key next
  end.
Definition erase (key : K) : M BTree Z := fuel ← rounds; b ← get; erase_loop fuel key (root_ b).

(** std::ranges::is_sorted over the keys of a node *)
Fixpoint is_sorted (l : list V) : bool :=
  match l with
  | v :: ((w :: _) as l') => negb (Comp w.1 v.1) && is_sorted l'
  | _ => true
  end.
(** The loop of verify() over a node's keys, counting the pairs below; [check] is the recursive call. *)
Fixpoint verify_children (check : nat → M BTree bool) (p : nat) (n : Node) (i : nat) (ks : list V) (num_keys : Z) : M BTree Z :=
  match ks with
  | [] => mret num_keys
  | k :: ks =>
      c ← require (children_ n !! i);
      cn ← node c;
      l ← require (last (keys_ cn));
      _ ← assert_ (negb (Comp k.1 l.1));
      d ← require (children_ n !! S i);
      dn ← node d;
      f ← require (head (keys_ dn));
      _ ← assert_ (negb (Comp f.1 k.1));
      _ ← assert_ (bool_decide (parent_ cn = Some p));
      ok ← check c;
      _ ← assert_ ok;
      _ ← assert_ (height_ n =? height_ cn + 1);
      verify_children check p n (S i) ks (num_keys + size_ cn)
  end.
Fixpoint verify_node (fuel : nat) (p : nat) : M BTree bool :=
  match fuel with
  | O => undefined
  | S fuel =>
      n ← node p;
      let top := bool_decide (parent_ n = None) in
      _ ← assert_ (top || (Fanout - 1 <=? nkeys n)%nat && (nkeys n <=? 2 * Fanout - 1)%nat);
      _ ← assert_ (is_sorted (keys_ n));
      _ ← assert_ (top || is_leaf n || (Fanout <=? length (children_ n))%nat && (length (children_ n) =? nkeys n + 1)%nat &&
                                       (length (children_ n) <=? 2 * Fanout)%nat);
      _ ← (match parent_ n with
           | None => mret tt
           | Some q => qn ← node q; assert_ (bool_decide (at_ (children_ qn) (index_ n) = Some p))
           end);
      if negb (is_leaf n) then
        num_keys ← verify_children (verify_node fuel) p n 0 (keys_ n) (Z.of_nat (nkeys n));
        c ← require (last (children_ n));
        cn ← node c;
        _ ← assert_ (bool_decide (parent_ cn = Some p));
        ok ← verify_node fuel c;
        _ ← assert_ ok;
        _ ← assert_ (height_ n =? height_ cn + 1);
        _ ← assert_ (size_ n =? num_keys + size_ cn);
        mret true
      else
        _ ← assert_ (size_ n =? Z.of_nat (nkeys n));
        _ ← assert_ (height_ n =? 0);
        mret true
  end.
(** verify(), with its assertions enabled *)
Definition verify : M BTree bool :=
  fuel ← rounds;
  b ← get;
  l ← leftmost_leaf fuel (root_ b);
  _ ← assert_ (bool_decide (begin_ b = (l, 0)));
  ok ← verify_node fuel (root_ b);
  _ ← assert_ ok;
  mret true.
End BTree.
