(* ===== verification/BTreeRep.v ===== *)
(** What a B-tree in memory represents: ghost trees, the heap that lays one out with its
    parent pointers, places and counts, and how an operation on a part of it changes the
    whole. *)
From Stdlib Require Import Lia ZifyBool.
From S2P Require Import Prelude BTree.
From stdpp Require Import list sorting.
Local Open Scope Z_scope.

Section Rep.
Context {K D : Type} `{KeyOrderOk K} `{!Inhabited D} (Fanout : nat).
Notation V := (K * D)%type.
Notation BTree := (@BTree K D).
Notation Node := (@Node K D).
Implicit Types (b : BTree) (ks : list V).

(** *** The order of the keys *)
Definition key_lt (x y : V) : Prop := Comp x.1 y.1 = true.
Notation sorted := (StronglySorted key_lt).

Lemma comp_asym k k' : Comp k k' = true → Comp k' k = false.
Proof.
  intros H1. destruct (Comp k' k) eqn:H2; [|done]. pose proof (comp_trans _ _ _ H1 H2) as E. by rewrite comp_irrefl in E.
Qed.
Lemma comp_ne k k' : Comp k k' = true → k ≠ k'.
Proof. intros H1 ->. by rewrite comp_irrefl in H1. Qed.

(** What lower_bound returns cuts the keys in those before the key and the others. *)
Definition cuts (key : K) (l : list V) (i : nat) : Prop :=
  Forall (λ v, Comp v.1 key = true) (take i l) ∧ Forall (λ v, Comp v.1 key = false) (drop i l).

Lemma sorted_below key l j v : sorted l → l !! j = Some v → Comp v.1 key = true → Forall (λ w, Comp w.1 key = true) (take j l).
Proof.
  intros Hs Hj Hc. rewrite <-(take_drop_middle _ _ _ Hj) in Hs. apply StronglySorted_app in Hs as (Hb & _ & _).
  apply Forall_forall. intros w Hw. eapply comp_trans, Hc. apply Hb; [done|left].
Qed.
Lemma sorted_above key l j v : sorted l → l !! j = Some v → Comp v.1 key = false → Forall (λ w, Comp w.1 key = false) (drop j l).
Proof.
  intros Hs Hj Hc. rewrite <-(take_drop_middle _ _ _ Hj) in Hs. apply StronglySorted_app in Hs as (_ & _ & Hd).
  rewrite (drop_S _ _ _ Hj). apply StronglySorted_cons in Hd as [Hv _]. constructor; [done|].
  eapply Forall_impl; [exact Hv|]. intros w Hw. destruct (Comp w.1 key) eqn:E; [|done].
  rewrite <-Hc. symmetry. by eapply comp_trans, E.
Qed.

Lemma lower_bound_cuts fuel key l first len :
  sorted l → (first + len <= length l)%nat → (len <= fuel)%nat →
  Forall (λ v, Comp v.1 key = true) (take first l) → Forall (λ v, Comp v.1 key = false) (drop (first + len) l) →
  cuts key l (lower_bound fuel key l first len).
Proof.
  intros Hs. revert first len. induction fuel as [|fuel IH]; intros first len Hle Hf H1 H2; cbn [lower_bound].
  { assert (len = 0)%nat as -> by lia. rewrite Nat.add_0_r in H2. done. }
  destruct len as [|len']; [rewrite Nat.add_0_r in H2; done|]. set (len := S len') in *.
  assert (len / 2 < len)%nat by (apply Nat.div_lt; lia). set (half := (len / 2)%nat) in *.
  destruct (lookup_lt_is_Some_2 l (first + half)) as [v Hv]; [lia|]. rewrite Hv. destruct (Comp v.1 key) eqn:Hc.
  - apply IH; [lia|lia| |by replace (first + half + 1 + (len - half - 1))%nat with (first + len)%nat by lia].
    rewrite Nat.add_1_r, (take_S_r _ _ _ Hv). apply Forall_app. split; [by eapply sorted_below|by constructor].
  - apply IH; [lia|lia|done|]. by eapply sorted_above.
Qed.
Lemma get_lb_cuts key (n : Node) : sorted (keys_ n) → cuts key (keys_ n) (get_lb key n).
Proof.
  intros Hs. apply lower_bound_cuts; [done|unfold nkeys; lia|done|constructor|]. by rewrite drop_ge by (unfold nkeys; lia).
Qed.
Lemma lower_bound_range fuel key l first len :
  (first + len <= length l)%nat → (lower_bound (D:=D) fuel key l first len <= first + len)%nat.
Proof.
  revert first len. induction fuel as [|fuel IH]; intros first len Hle; cbn [lower_bound]; [lia|].
  destruct len as [|len']; [lia|]. set (len := S len') in *.
  assert (len / 2 < len)%nat by (apply Nat.div_lt; lia). set (half := (len / 2)%nat) in *.
  destruct (l !! (first + half)%nat); [|lia]. case_match; (etrans; [apply IH|]; lia).
Qed.
Lemma get_lb_range key (n : Node) : (get_lb key n <= nkeys n)%nat.
Proof. by apply (lower_bound_range _ _ _ 0%nat). Qed.

(** *** Ghost trees, of uniform height *)
Inductive gtree : Type := G (tid : nat) (tkeys : list V) (tkids : list gtree).
Definition tid (t : gtree) : nat := let 'G i _ _ := t in i.
Definition tkeys (t : gtree) : list V := let 'G _ ks _ := t in ks.
Definition tkids (t : gtree) : list gtree := let 'G _ _ cs := t in cs.

(** Subtrees and the keys between them, in order. *)
Fixpoint weave (cs : list (list V)) (ks : list V) : list V :=
  match cs with
  | [] => ks
  | c :: cs => c ++ match ks with [] => weave cs [] | k :: ks => k :: weave cs ks end
  end.
Fixpoint flat (h : nat) (t : gtree) : list V :=
  match h with O => tkeys t | S h => weave (flat h <$> tkids t) (tkeys t) end.
Fixpoint ids (h : nat) (t : gtree) : list nat :=
  tid t :: match h with O => [] | S h => tkids t ≫= ids h end.
Fixpoint first_leaf (h : nat) (t : gtree) : nat :=
  match h with O => tid t | S h => match tkids t with c :: _ => first_leaf h c | [] => tid t end end.
Definition tsize (h : nat) (t : gtree) : Z := Z.of_nat (length (flat h t)).

(** The bounds on the numbers of keys and children, those of the root apart. *)
Definition bounded (t : gtree) : Prop := (Fanout - 1 <= length (tkeys t) <= 2 * Fanout - 1)%nat.
Fixpoint shaped (h : nat) (t : gtree) : Prop :=
  match h with
  | O => tkids t = []
  | S h => length (tkids t) = S (length (tkeys t)) ∧ Forall (λ c, shaped h c ∧ bounded c) (tkids t)
  end.

Lemma weave_app L R K1 K2 : length L = length K1 → weave (L ++ R) (K1 ++ K2) = weave L K1 ++ weave R K2.
Proof.
  revert K1. induction L as [|c L IH]; intros [|k K1] He; simplify_eq/=; [done|]. by rewrite IH, <-app_assoc.
Qed.
Lemma length_weave cs ks : length (weave cs ks) = (length ks + length (concat cs))%nat.
Proof.
  revert ks. induction cs as [|c cs IH]; intros ks; simpl; [lia|]. rewrite !length_app. destruct ks as [|k ks]; simpl; rewrite IH; simpl; lia.
Qed.
Lemma weave_snoc L c K1 : length L = length K1 → weave (L ++ [c]) K1 = weave L K1 ++ c.
Proof. intros He. rewrite <-(app_nil_r K1) at 1. rewrite weave_app by done. simpl. by rewrite app_nil_r. Qed.

(** *** Laying a tree out *)

(** [P] holds of the elements with their places, counted from [i]. *)
Fixpoint eachi {A} (P : Z → A → Prop) (i : Z) (l : list A) : Prop :=
  match l with [] => True | x :: l => P i x ∧ eachi P (i + 1) l end.
Lemma eachi_app {A} (P : Z → A → Prop) i l l' : eachi P i (l ++ l') ↔ eachi P i l ∧ eachi P (i + Z.of_nat (length l)) l'.
Proof.
  revert i. induction l as [|x l IH]; intros i; simpl; [rewrite Z.add_0_r; tauto|]. rewrite IH.
  replace (i + 1 + Z.of_nat (length l)) with (i + Z.of_nat (S (length l))) by lia. tauto.
Qed.
Lemma eachi_shift {A} (P Q : Z → A → Prop) d i l :
  (∀ j x, x ∈ l → P j x → Q (j + d) x) → eachi P i l → eachi Q (i + d) l.
Proof.
  revert i. induction l as [|x l IH]; intros i Hi; simpl; [done|]. intros [Hx Hl]. split; [by apply Hi; [left|]|].
  replace (i + d + 1) with (i + 1 + d) by lia. apply IH; [|done]. intros j y Hy. apply Hi. by right.
Qed.
Lemma eachi_impl {A} (P Q : Z → A → Prop) i l : (∀ j x, x ∈ l → P j x → Q j x) → eachi P i l → eachi Q i l.
Proof.
  intros Hi Hp. rewrite <-(Z.add_0_r i). eapply eachi_shift, Hp. intros j x Hx Hj. rewrite Z.add_0_r. by apply Hi.
Qed.

Definition laid (h : nat) (par : option nat) (idx : Z) (t : gtree) : Node :=
  mkNode (tkeys t) par (tsize h t) idx (Z.of_nat h) (tid <$> tkids t).
Fixpoint rep (h : nat) (m : gmap nat Node) (par : option nat) (idx : Z) (t : gtree) : Prop :=
  m !! tid t = Some (laid h par idx t) ∧
  match h with O => True | S h => eachi (rep h m (Some (tid t))) 0 (tkids t) end.

Lemma rep_node h m par idx t : rep h m par idx t → m !! tid t = Some (laid h par idx t).
Proof. destruct h; intros [? ?]; done. Qed.
Lemma rep_intro h m par idx x ks cs :
  m !! x = Some (laid (S h) par idx (G x ks cs)) → eachi (rep h m (Some x)) 0 cs → rep (S h) m par idx (G x ks cs).
Proof. done. Qed.
(** The subtrees below its root. *)
Definition kids (h : nat) (m : gmap nat Node) (t : gtree) : Prop :=
  match h with O => True | S h => eachi (rep h m (Some (tid t))) 0 (tkids t) end.
Lemma rep_kids h m par idx t : rep h m par idx t ↔ m !! tid t = Some (laid h par idx t) ∧ kids h m t.
Proof. by destruct h. Qed.
Lemma rep_S h m par idx t :
  rep (S h) m par idx t ↔ m !! tid t = Some (laid (S h) par idx t) ∧ eachi (rep h m (Some (tid t))) 0 (tkids t).
Proof. done. Qed.
Lemma ids_head h t : tid t ∈ ids h t.
Proof. destruct h; left. Qed.
Lemma elem_of_kids h c t : c ∈ tkids t → ∀ z, z ∈ ids h c → z ∈ ids (S h) t.
Proof. intros Hc z Hz. simpl. right. apply list_elem_of_bind. eauto. Qed.

Lemma rep_frame h m m' par idx t : rep h m par idx t → (∀ z, z ∈ ids h t → m' !! z = m !! z) → rep h m' par idx t.
Proof.
  revert par idx t. induction h as [|h IH]; intros par idx t [Hn Hk] Hf.
  { split; [|done]. rewrite Hf; [done|apply ids_head]. }
  split; [rewrite Hf; [done|apply ids_head]|]. eapply eachi_impl, Hk. intros j c Hc Hj.
  eapply IH; [done|]. intros z Hz. apply Hf. by eapply elem_of_kids.
Qed.
Lemma eachi_frame h m m' p i l :
  eachi (rep h m p) i l → (∀ z, z ∈ l ≫= ids h → m' !! z = m !! z) → eachi (rep h m' p) i l.
Proof.
  intros He Hf. eapply eachi_impl, He. intros j c Hc Hj. eapply rep_frame; [done|].
  intros z Hz. apply Hf, list_elem_of_bind. eauto.
Qed.
(** The same subtree at another place or under another parent. *)
Lemma rep_relink h m m' par idx par' idx' t :
  rep h m par idx t → NoDup (ids h t) →
  m' !! tid t = Some (laid h par' idx' t) → (∀ z, z ∈ ids h t → z ≠ tid t → m' !! z = m !! z) → rep h m' par' idx' t.
Proof.
  destruct h as [|h]; intros [Hn Hk] Hnd Hn' Hf; (split; [done|]); [done|].
  eapply eachi_frame; [done|]. intros z Hz. simpl in *. apply NoDup_cons in Hnd as [Hx _]. apply Hf; [by right|]. by intros ->.
Qed.
Lemma rep_lookup h m par idx t z : rep h m par idx t → z ∈ ids h t → is_Some (m !! z).
Proof.
  revert par idx t. induction h as [|h IH]; intros par idx t [Hn Hk]; simpl.
  { intros ->%list_elem_of_singleton. eauto. }
  intros [->|Hz]%elem_of_cons; [eauto|]. apply list_elem_of_bind in Hz as (c & Hz & Hc).
  assert (∃ j, rep h m (Some (tid t)) j c) as [j Hj]; [|by eapply IH].
  clear Hn. revert Hk. generalize 0. induction (tkids t) as [|c' l IHl]; [by apply not_elem_of_nil in Hc|].
  intros i [Hi Hl]. apply elem_of_cons in Hc as [->|Hc]; [eauto|]. by eapply IHl.
Qed.

Lemma flat_node h x ks cs : flat (S h) (G x ks cs) = weave (flat h <$> cs) ks.
Proof. done. Qed.
Lemma tsize_node h x ks cs : tsize (S h) (G x ks cs) = Z.of_nat (length ks) + sumZ (tsize h) cs.
Proof.
  unfold tsize. simpl. rewrite length_weave, Nat2Z.inj_add. f_equal.
  induction cs as [|c cs IH]; simpl; [done|]. rewrite length_app, Nat2Z.inj_add. f_equal. exact IH.
Qed.

(** *** Running operations *)
Definition runs {A} (o : M BTree A) (Q : A → BTree → Prop) (b : BTree) : Prop := ∃ a b', o b = Ok a b' ∧ Q a b'.

Lemma runs_mono {A} (o : M BTree A) (Q Q' : A → BTree → Prop) b : runs o Q b → (∀ a b', Q a b' → Q' a b') → runs o Q' b.
Proof. intros (a & b' & Hr & HQ) Hi. exists a, b'. auto. Qed.
Lemma runs_bind {A B} (o : M BTree A) (f : A → M BTree B) Q b : runs o (λ a, runs (f a) Q) b → runs (o ≫= f) Q b.
Proof. intros (a & b' & Hr & c & b'' & Hf & HQ). exists c, b''. by rewrite (bind_ok _ _ _ _ _ Hr). Qed.
Lemma runs_ret {A} (a : A) (Q : A → BTree → Prop) b : Q a b → runs (mret a) Q b.
Proof. intros HQ. by exists a, b. Qed.
Lemma runs_get (Q : BTree → BTree → Prop) b : Q b b → runs get Q b.
Proof. intros HQ. by exists b, b. Qed.
Lemma runs_modify f (Q : unit → BTree → Prop) b : Q tt (f b) → runs (modify f) Q b.
Proof. intros HQ. by exists tt, (f b). Qed.
Lemma runs_require {A} (o : option A) a (Q : A → BTree → Prop) b : o = Some a → Q a b → runs (require o) Q b.
Proof. intros -> HQ. by exists a, b. Qed.
Lemma runs_assert c (Q : unit → BTree → Prop) b : c = true → Q tt b → runs (assert_ c) Q b.
Proof. intros -> HQ. by exists tt, b. Qed.
Lemma runs_node p n m (Q : Node → BTree → Prop) b : m !! p = Some n → Q n (set_nodes m b) → runs (node p) Q (set_nodes m b).
Proof. intros Hn HQ. exists n, (set_nodes m b). split; [|done]. unfold node. mrun. cbn [nodes set_nodes]. by rewrite Hn. Qed.
Lemma runs_upd p f m (Q : unit → BTree → Prop) b :
  is_Some (m !! p) → Q tt (set_nodes (alter f p m) b) → runs (upd p f) Q (set_nodes m b).
Proof.
  intros [n Hn] HQ. eexists tt, _. split; [|exact HQ]. unfold upd, node. mrun. cbn [nodes set_nodes]. rewrite Hn.
  f_equal. unfold set_nodes. cbn [nodes unused root_ begin_]. f_equal. apply map_eq. intros z.
  destruct (decide (z = p)) as [->|]; [by rewrite lookup_insert_eq, lookup_alter_eq, Hn|].
  by rewrite lookup_insert_ne, lookup_alter_ne by done.
Qed.
Definition alloc b : BTree := mkBTree (nodes b) (S (unused b)) (root_ b) (begin_ b).
Lemma runs_make m (Q : nat → BTree → Prop) b :
  Q (unused b) (set_nodes (<[unused b := newNode]> m) (alloc b)) → runs make_node Q (set_nodes m b).
Proof. intros HQ. by eexists _, _. Qed.
Lemma runs_delete p m (Q : unit → BTree → Prop) b : Q tt (set_nodes (delete p m) b) → runs (delete_node p) Q (set_nodes m b).
Proof. intros HQ. by eexists tt, _. Qed.
Lemma runs_store p l m (Q : unit → BTree → Prop) b :
  (length l <= 2 * Fanout)%nat → is_Some (m !! p) → Q tt (set_nodes (alter (set_keys l) p m) b) →
  runs (store_keys Fanout p l) Q (set_nodes m b).
Proof.
  intros Hl Hp HQ. apply runs_bind, runs_assert; [by apply Nat.leb_le|]. by apply runs_upd.
Qed.
Lemma set_nodes_id b : set_nodes (nodes b) b = b.
Proof. by destruct b. Qed.
Lemma runs_read p n (Q : Node → BTree → Prop) b : nodes b !! p = Some n → Q n b → runs (node p) Q b.
Proof. intros Hn HQ. exists n, b. split; [|done]. unfold node. mrun. by rewrite Hn. Qed.

Lemma alter_some (f : Node → Node) p (m : gmap nat Node) z : is_Some (m !! z) → is_Some (alter f p m !! z).
Proof.
  destruct (decide (z = p)) as [->|]; [|by rewrite lookup_alter_ne]. rewrite lookup_alter_eq. intros [n ->]. by eexists.
Qed.

(** An update of each of a list of nodes. *)
Definition alter_all (f : Node → Node) (l : list nat) (m : gmap nat Node) : gmap nat Node := foldl (λ m p, alter f p m) m l.
Lemma lookup_alter_all f l m z : NoDup l → alter_all f l m !! z = if decide (z ∈ l) then f <$> m !! z else m !! z.
Proof.
  revert m. induction l as [|p l IH]; intros m; [done|]. intros [Hp Hl]%NoDup_cons. unfold alter_all. simpl.
  fold (alter_all f l (alter f p m)). rewrite IH by done. destruct (decide (z = p)) as [->|Hz].
  - rewrite decide_False by done. rewrite (decide_True (P := p ∈ p :: l)) by left. by rewrite lookup_alter_eq.
  - rewrite lookup_alter_ne by done. apply decide_ext. rewrite elem_of_cons. tauto.
Qed.
Lemma lookup_alter_all_out f l m z : z ∉ l → alter_all f l m !! z = m !! z.
Proof.
  revert m. induction l as [|p l IH]; intros m; [done|]. intros [Hp Hl]%not_elem_of_cons. unfold alter_all. simpl.
  fold (alter_all f l (alter f p m)). rewrite IH by done. by rewrite lookup_alter_ne.
Qed.
Lemma lookup_alter_all_in f l m z : NoDup l → z ∈ l → alter_all f l m !! z = f <$> m !! z.
Proof. intros Hn Hz. rewrite lookup_alter_all by done. by rewrite decide_True. Qed.
Lemma alter_all_some f l m z : is_Some (m !! z) → is_Some (alter_all f l m !! z).
Proof. revert m. induction l as [|p l IH]; intros m Hz; [done|]. by apply (IH (alter f p m)), alter_some. Qed.
Lemma runs_for_each f l m (Q : unit → BTree → Prop) b :
  Forall (λ p, is_Some (m !! p)) l → Q tt (set_nodes (alter_all f l m) b) →
  runs (for_each (λ p, upd p f) l) Q (set_nodes m b).
Proof.
  revert m. induction l as [|p l IH]; intros m Hl HQ; simpl; [by apply runs_ret|].
  apply Forall_cons in Hl as [Hp Hl]. apply runs_bind, runs_upd; [done|]. apply IH; [|done].
  eapply Forall_impl; [exact Hl|]. intros z. apply alter_some.
Qed.

(** *** How a subtree evolves

    An operation on the subtree [t] leaves a subtree [t'] in its place; the nodes of [t]
    that are not in [t'] are gone, and of the other nodes only the counts of the
    ancestors change, by [d]. *)
Definition allocated b : Prop := ∀ z, (unused b <= z)%nat → nodes b !! z = None.
Definition bump (d : Z) (anc : list nat) (z : nat) (o : option Node) : option Node :=
  if decide (z ∈ anc) then add_size d <$> o else o.
Record evolves (h : nat) (par : option nat) (idx : Z) (anc : list nat) (d : Z) b (t : gtree) b' (t' : gtree) : Prop := {
  ev_rep : rep h (nodes b') par idx t';
  ev_nodup : NoDup (ids h t');
  ev_unused : (unused b <= unused b')%nat;
  ev_new : ∀ z, z ∈ ids h t' → z ∈ ids h t ∨ (unused b <= z < unused b')%nat;
  ev_frame : ∀ z, z ∉ ids h t' → nodes b' !! z = if decide (z ∈ ids h t) then None else bump d anc z (nodes b !! z);
  ev_id : tid t' = tid t;
  ev_first : first_leaf h t' = first_leaf h t;
  ev_root : root_ b' = root_ b;
  ev_begin : begin_ b' = begin_ b
}.

Arguments ev_rep {h par idx anc d b t b' t'}.
Arguments ev_nodup {h par idx anc d b t b' t'}.
Arguments ev_unused {h par idx anc d b t b' t'}.
Arguments ev_new {h par idx anc d b t b' t'}.
Arguments ev_frame {h par idx anc d b t b' t'}.
Arguments ev_id {h par idx anc d b t b' t'}.
Arguments ev_first {h par idx anc d b t b' t'}.
Arguments ev_root {h par idx anc d b t b' t'}.
Arguments ev_begin {h par idx anc d b t b' t'}.

Lemma bump_none d anc z : bump d anc z None = None.
Proof. unfold bump. by case_decide. Qed.
Lemma bump_zero anc z o : bump 0 anc z o = o.
Proof.
  unfold bump. case_decide; [|done]. destruct o as [[]|]; simpl; [|done]. unfold add_size. simpl. by rewrite Z.add_0_r.
Qed.
Lemma bump_bump d1 d2 anc z o : bump d2 anc z (bump d1 anc z o) = bump (d1 + d2) anc z o.
Proof.
  unfold bump. case_decide; [|done]. destruct o as [[]|]; simpl; [|done]. unfold add_size. simpl. by rewrite Z.add_assoc.
Qed.
Lemma bump_out d anc z o : z ∉ anc → bump d anc z o = o.
Proof. intros Hz. unfold bump. by rewrite decide_False. Qed.

Lemma bump_cons d x anc z o : z ≠ x → bump d (x :: anc) z o = bump d anc z o.
Proof. intros Hz. apply decide_ext. rewrite elem_of_cons. tauto. Qed.

Lemma rep_fresh h b par idx t z : rep h (nodes b) par idx t → allocated b → z ∈ ids h t → (z < unused b)%nat.
Proof.
  intros Hr Ha Hz. destruct (decide (unused b <= z)%nat) as [Hle|]; [|lia].
  destruct (rep_lookup _ _ _ _ _ _ Hr Hz) as [n Hn]. by rewrite Ha in Hn.
Qed.
Lemma evolves_refl h par idx anc b t : rep h (nodes b) par idx t → NoDup (ids h t) → evolves h par idx anc 0 b t b t.
Proof.
  intros Hr Hn. split; try done; [by left|]. intros z Hz. rewrite decide_False by done. by rewrite bump_zero.
Qed.
Lemma evolves_allocated h par idx anc d b t b' t' :
  rep h (nodes b) par idx t → allocated b → evolves h par idx anc d b t b' t' → allocated b'.
Proof.
  intros Hr Ha He z Hz. assert (z ∉ ids h t').
  { intros Hin. destruct (ev_new He z Hin) as [Ho|]; [|lia].
    pose proof (rep_fresh _ _ _ _ _ _ Hr Ha Ho). pose proof (ev_unused He). lia. }
  rewrite (ev_frame He) by done. case_decide; [done|].
  rewrite Ha by (pose proof (ev_unused He); lia). apply bump_none.
Qed.
Lemma evolves_trans h par idx anc d1 d2 b1 t1 b2 t2 b3 t3 :
  allocated b1 → evolves h par idx anc d1 b1 t1 b2 t2 → evolves h par idx anc d2 b2 t2 b3 t3 →
  evolves h par idx anc (d1 + d2) b1 t1 b3 t3.
Proof.
  intros Ha [] []. split; try congruence; [lia| |].
  - intros z Hz. destruct (ev_new1 z Hz) as [Hz'|]; [|right; lia]. destruct (ev_new0 z Hz') as [|]; [by left|right; lia].
  - intros z Hz. rewrite ev_frame1 by done. destruct (decide (z ∈ ids h t2)) as [H2|H2].
    + case_decide; [done|]. destruct (ev_new0 z H2) as [|]; [done|]. rewrite Ha by lia. by rewrite bump_none.
    + rewrite ev_frame0 by done. case_decide; [by rewrite bump_none|]. apply bump_bump.
Qed.

(** An operation on a child, seen from its parent. *)
Lemma ids_split h x ks L c R :
  ids (S h) (G x ks (L ++ c :: R)) = x :: (L ≫= ids h) ++ ids h c ++ (R ≫= ids h).
Proof. simpl. by rewrite bind_app, bind_cons. Qed.
Lemma flat_split h x K1 K2 L c R : length L = length K1 →
  flat (S h) (G x (K1 ++ K2) (L ++ c :: R)) =
    weave (flat h <$> L) K1 ++ flat h c ++ match K2 with [] => weave (flat h <$> R) [] | k :: K2 => k :: weave (flat h <$> R) K2 end.
Proof. intros Hl. rewrite flat_node, fmap_app, fmap_cons. by rewrite weave_app by by rewrite length_fmap. Qed.

Section Child.
Context (h x : nat) (ks : list V) (L R : list gtree) (c c' : gtree) (par : option nat) (idx : Z) (anc : list nat) (d : Z) (b b' : BTree).
Notation T := (G x ks (L ++ c :: R)).
Context (Hrep : rep (S h) (nodes b) par idx T) (Hnd : NoDup (ids (S h) T)) (Hal : allocated b)
  (Hanc : ∀ z, z ∈ anc → z ∉ ids (S h) T)
  (He : evolves h (Some x) (Z.of_nat (length L)) (x :: anc) d b c b' c').

Lemma child_other z : z ∈ ids (S h) T → z ∉ ids h c → z ∉ ids h c' ∧ nodes b' !! z = bump d (x :: anc) z (nodes b !! z).
Proof.
  intros Hz Hc. assert (z ∉ ids h c') as Hc'.
  { intros [?|]%(ev_new He); [done|]. pose proof (rep_fresh _ _ _ _ _ _ Hrep Hal Hz). lia. }
  split; [done|]. rewrite (ev_frame He) by done. by rewrite decide_False.
Qed.
Lemma child_sibling z : z ∈ ids (S h) T → z ∉ ids h c → z ≠ x → z ∉ ids h c' ∧ nodes b' !! z = nodes b !! z.
Proof.
  intros Hz Hc Hx. destruct (child_other z Hz Hc) as [H1 H2]. split; [done|]. rewrite H2. apply bump_out.
  intros [->|Ha]%elem_of_cons; [done|]. by eapply Hanc.
Qed.

Lemma evolves_child : tsize h c' = tsize h c + d → evolves (S h) par idx anc d b T b' (G x ks (L ++ c' :: R)).
Proof.
  intros Hsz. pose proof Hnd as Hnd'. rewrite ids_split in Hnd'. apply NoDup_cons in Hnd' as [Hx Hnd'].
  apply NoDup_app in Hnd' as (HL & HLc & Hnd'). apply NoDup_app in Hnd' as (Hc & HcR & HR).
  rewrite !elem_of_app in Hx.
  assert (∀ z, z ∈ L ≫= ids h ∨ z ∈ R ≫= ids h → z ∉ ids h c' ∧ nodes b' !! z = nodes b !! z) as Hsib.
  { intros z Hz. apply child_sibling.
    - rewrite ids_split. right. rewrite !elem_of_app. tauto.
    - intros Hin. destruct Hz as [Hz|Hz]; [apply (HLc z Hz); apply elem_of_app; by left|by eapply HcR].
    - intros ->. tauto. }
  destruct (child_other x) as [Hxc Hxn]; [left|tauto|].
  destruct Hrep as [Hn Hk]. cbn [tid] in Hn. rewrite Hn in Hxn. unfold bump in Hxn. rewrite decide_True in Hxn by left.
  cbn [tid tkids] in Hk. rewrite eachi_app in Hk. destruct Hk as [HkL [Hkc HkR]]. rewrite Z.add_0_l in *.
  split.
  - apply rep_intro.
    + rewrite Hxn. simpl. f_equal. unfold add_size, laid. cbn [tid tkeys tkids keys_ parent_ size_ index_ height_ children_].
      f_equal; [|by rewrite !fmap_app, !fmap_cons, (ev_id He)].
      rewrite !tsize_node, !sumZ_app. cbn [sumZ foldr]. fold (sumZ (tsize h) R). lia.
    + rewrite eachi_app. rewrite Z.add_0_l. split; [|split].
      * eapply eachi_frame; [exact HkL|]. intros z Hz. apply Hsib. by left.
      * apply (ev_rep He).
      * eapply eachi_frame; [exact HkR|]. intros z Hz. apply Hsib. by right.
  - rewrite ids_split. apply NoDup_cons. split; [rewrite !elem_of_app; tauto|].
    apply NoDup_app. split; [done|]. split; [|apply NoDup_app; split; [apply (ev_nodup He)|split; [|done]]].
    + intros z Hz. rewrite elem_of_app. destruct (Hsib z (or_introl Hz)) as [? _]. intros [?|HzR]; [done|].
      apply (HLc z Hz). apply elem_of_app. by right.
    + intros z Hz HzR. by destruct (Hsib z (or_intror HzR)) as [? _].
  - apply (ev_unused He).
  - intros z. rewrite !ids_split. rewrite !elem_of_cons, !elem_of_app. intros [|[|[Hz|]]]; try tauto.
    apply (ev_new He) in Hz. tauto.
  - intros z Hz. rewrite ids_split in Hz. rewrite elem_of_cons, !elem_of_app in Hz.
    rewrite (ev_frame He) by tauto. rewrite bump_cons by tauto. apply decide_ext.
    rewrite ids_split, elem_of_cons, !elem_of_app. tauto.
  - done.
  - simpl. destruct L; simpl; [apply (ev_first He)|done].
  - apply (ev_root He).
  - apply (ev_begin He).
Qed.
End Child.

(** A row of siblings moved by [d] places, under the parent [p']. *)
Lemma eachi_moved h m m' p p' i d l :
  eachi (rep h m p) i l → NoDup (l ≫= ids h) →
  (∀ j c, c ∈ l → m !! tid c = Some (laid h p j c) → m' !! tid c = Some (laid h p' (j + d) c)) →
  (∀ z, z ∈ l ≫= ids h → z ∉ tid <$> l → m' !! z = m !! z) →
  eachi (rep h m' p') (i + d) l.
Proof.
  intros He Hnd Hm Hf. eapply eachi_shift; [|exact He]. intros j c Hc Hr. cbv beta.
  assert (NoDup (ids h c) ∧ ∀ z, z ∈ ids h c → z ≠ tid c → z ∉ tid <$> l) as [Hndc Hin].
  { apply list_elem_of_split in Hc as (l1 & l2 & ->). rewrite bind_app, bind_cons in Hnd.
    apply NoDup_app in Hnd as (_ & H1 & Hnd). apply NoDup_app in Hnd as (Hc & H2 & _). split; [done|].
    intros z Hz Hne. rewrite fmap_app, fmap_cons, elem_of_app, elem_of_cons. intros [Hz'|[->|Hz']]; [|done|].
    - apply list_elem_of_fmap in Hz' as (c' & -> & Hc'). apply (H1 (tid c')); [|apply elem_of_app; by left].
      apply list_elem_of_bind. eauto using ids_head.
    - apply list_elem_of_fmap in Hz' as (c' & -> & Hc'). apply (H2 (tid c')); [done|].
      apply list_elem_of_bind. eauto using ids_head. }
  eapply rep_relink; [exact Hr|done| |].
  - apply Hm; [done|]. by apply rep_node.
  - intros z Hz Hne. apply Hf; [apply list_elem_of_bind; eauto|by apply Hin].
Qed.
Lemma tids_in h (l : list gtree) z : z ∈ tid <$> l → z ∈ l ≫= ids h.
Proof. intros (c & -> & Hc)%list_elem_of_fmap. apply list_elem_of_bind. eauto using ids_head. Qed.
Lemma tids_nodup h (l : list gtree) : NoDup (l ≫= ids h) → NoDup (tid <$> l).
Proof.
  induction l as [|c l IH]; [constructor|]. rewrite bind_cons, fmap_cons. intros (_ & Hc & Hl)%NoDup_app.
  constructor; [|by apply IH]. intros Hin. apply (Hc (tid c) (ids_head _ _)). by apply tids_in.
Qed.
Lemma eachi_present h m p i l : eachi (rep h m p) i l → Forall (λ z, is_Some (m !! z)) (tid <$> l).
Proof.
  revert i. induction l as [|c l IH]; intros i; simpl; [constructor|]. intros [Hc Hl]. constructor; [|by eapply IH].
  rewrite (rep_node _ _ _ _ _ Hc). by eexists.
Qed.
Lemma eachi_sizes h m p i l : eachi (rep h m p) i l → sumZ (λ c, from_option size_ 0 (m !! c)) (tid <$> l) = sumZ (tsize h) l.
Proof.
  revert i. induction l as [|c l IH]; intros i; simpl; [done|]. intros [Hc Hl]. rewrite (rep_node _ _ _ _ _ Hc). simpl.
  f_equal. by eapply IH.
Qed.

(** The nodes below the root of a subtree. *)
Definition below (h : nat) (t : gtree) : list nat := match h with O => [] | S h => tkids t ≫= ids h end.
Lemma ids_below h t : ids h t = tid t :: below h t.
Proof. by destruct h. Qed.

Lemma kids_frame h m m' t : kids h m t → (∀ z, z ∈ below h t → m' !! z = m !! z) → kids h m' t.
Proof. destruct h; [done|]. apply eachi_frame. Qed.

(** An operation that stays within a subtree. *)
Lemma evolves_within h par idx anc b t b' t' :
  rep h (nodes b') par idx t' → NoDup (ids h t) → ids h t' ≡ₚ ids h t →
  (∀ z, z ∉ ids h t → nodes b' !! z = nodes b !! z) →
  tid t' = tid t → first_leaf h t' = first_leaf h t → unused b' = unused b → root_ b' = root_ b → begin_ b' = begin_ b →
  evolves h par idx anc 0 b t b' t'.
Proof.
  intros Hr Hnd Hp Hf Hi Hl Hu Hroot Hb. split; try done.
  - by rewrite Hp.
  - by rewrite Hu.
  - intros z. rewrite Hp. by left.
  - intros z. rewrite Hp. intros Hz. rewrite decide_False by done. rewrite bump_zero. by apply Hf.
Qed.
Lemma evolves_any h par idx anc anc' b t b' t' : evolves h par idx anc 0 b t b' t' → evolves h par idx anc' 0 b t b' t'.
Proof.
  intros []. split; try done. intros z Hz. rewrite ev_frame0 by done. by rewrite !bump_zero.
Qed.
End Rep.
Arguments ev_rep {K D h par idx anc d b t b' t'} _.
Arguments ev_nodup {K D h par idx anc d b t b' t'} _.
Arguments ev_unused {K D h par idx anc d b t b' t'} _.
Arguments ev_new {K D h par idx anc d b t b' t'} _.
Arguments ev_frame {K D h par idx anc d b t b' t'} _.
Arguments ev_id {K D h par idx anc d b t b' t'} _.
Arguments ev_first {K D h par idx anc d b t b' t'} _.
Arguments ev_root {K D h par idx anc d b t b' t'} _.
Arguments ev_begin {K D h par idx anc d b t b' t'} _.

(** Reads a node at the end of a run of updates. *)
Ltac look := repeat first [rewrite lookup_alter_eq | rewrite lookup_alter_ne by done | rewrite lookup_alter_all_out by done
  | rewrite lookup_delete_eq | rewrite lookup_delete_ne by done | rewrite lookup_insert_eq | rewrite lookup_insert_ne by done].
Ltac some := repeat first [apply alter_some | apply alter_all_some]; look; solve [eauto using mk_is_Some].
(** Two nodes are equal member by member. *)
Ltac node_eq := unfold laid, add_size, set_keys, set_parent, set_index, set_children, option_map, fmap, option_fmap;
  cbn [option_map keys_ parent_ size_ index_ height_ children_ tid tkeys tkids]; f_equal; f_equal; try done.
Ltac leaf_eq := node_eq; unfold tsize; cbn [flat tkeys]; len.
