(* ===== verification/BTreeOps.v ===== *)
(** Rotating keys between siblings, splitting a full child and merging two: what each
    makes of the subtree it works on, and that the subtree's keys stay in their order. *)
From Stdlib Require Import Lia ZifyBool.
From S2P Require Import Prelude BTree BTreeRep.
From stdpp Require Import list sorting.
Local Open Scope Z_scope.

Section Ops.
Context {K D : Type} `{KeyOrderOk K} `{!Inhabited D} (Fanout : nat).
Notation V := (K * D)%type.
Notation BTree := (@BTree K D).
Notation Node := (@Node K D).
Notation gtree := (@gtree K D).
Implicit Types (b : BTree) (t : gtree).

Lemma at_of {A} (l : list A) i : at_ l (Z.of_nat i) = l !! i.
Proof. unfold at_. rewrite decide_True by lia. by rewrite Nat2Z.id. Qed.
Lemma at_succ {A} (l : list A) i : at_ l (Z.of_nat i + 1) = l !! S i.
Proof. rewrite <-at_of. f_equal. lia. Qed.
Lemma lookup_between {A} (l : list A) n x l' : n = length l → (l ++ x :: l') !! n = Some x.
Proof. intros ->. by rewrite list_lookup_middle. Qed.
Lemma lookup_next {A} (l : list A) n x y l' : n = S (length l) → (l ++ x :: y :: l') !! n = Some y.
Proof.
  intros ->. replace (l ++ x :: y :: l') with ((l ++ [x]) ++ y :: l') by by rewrite <-app_assoc.
  apply lookup_between. rewrite length_app. simpl. lia.
Qed.

Lemma insert_app_mid {A} (l : list A) x y l' : <[length l := y]> (l ++ x :: l') = l ++ y :: l'.
Proof. rewrite insert_app_r_alt by lia. by rewrite Nat.sub_diag. Qed.
Lemma internal_node h par idx x (ks : list V) (cs : list gtree) :
  length cs = S (length ks) → is_leaf (laid (S h) par idx (G x ks cs)) = false.
Proof. intros Hl. apply bool_decide_eq_false. by destruct cs. Qed.

Lemma notin_ids h (t : gtree) z : z ∉ ids h t → z ≠ tid t ∧ z ∉ below h t.
Proof. rewrite ids_below, elem_of_cons. tauto. Qed.
(** *** Two neighbours *)
Section Pair.
Context (h : nat) (b : BTree) (par : option nat) (idx : Z) (anc : list nat) (x : nat) (KS : list V) (L R : list gtree) (ta ts : gtree).
Notation T := (G x KS (L ++ ta :: ts :: R)).
Context (Hrep : rep (S h) (nodes b) par idx T) (Hnd : NoDup (ids (S h) T)).
Notation a := (tid ta).
Notation s := (tid ts).
Notation i := (Z.of_nat (length L)).

Lemma pair_nodes :
  nodes b !! x = Some (laid (S h) par idx T) ∧ rep h (nodes b) (Some x) i ta ∧ rep h (nodes b) (Some x) (i + 1) ts ∧
  eachi (rep h (nodes b) (Some x)) 0 L ∧ eachi (rep h (nodes b) (Some x)) (i + 2) R.
Proof.
  apply rep_S in Hrep as [Hx Hk]. cbn [tid tkids] in Hx, Hk. apply eachi_app in Hk as (HkL & Hra & Hrs & HkR).
  replace (0 + Z.of_nat (length L) + 1 + 1) with (i + 2) in HkR by lia. rewrite Z.add_0_l in *. done.
Qed.
Lemma pair_ids : ids (S h) T = x :: (L ≫= ids h) ++ ids h ta ++ ids h ts ++ (R ≫= ids h).
Proof. simpl. by rewrite bind_app, !bind_cons. Qed.
Lemma pair_apart :
  x ∉ (L ≫= ids h) ++ ids h ta ++ ids h ts ++ (R ≫= ids h) ∧ NoDup (ids h ta) ∧ NoDup (ids h ts) ∧
  (∀ z, z ∈ ids h ta → z ∉ ids h ts) ∧
  (∀ z, z ∈ (L ≫= ids h) ++ (R ≫= ids h) → z ∉ ids h ta ∧ z ∉ ids h ts).
Proof.
  rewrite pair_ids in Hnd. apply NoDup_cons in Hnd as [Hx HN]. split; [done|].
  apply NoDup_app in HN as (_ & HL & HN). apply NoDup_app in HN as (Hna & Ha & HN). apply NoDup_app in HN as (Hns & Hs & _).
  setoid_rewrite elem_of_app in HL. setoid_rewrite elem_of_app in HL. setoid_rewrite elem_of_app in Ha.
  split; [done|]. split; [done|]. split; [intros z Hz; specialize (Ha z Hz); tauto|].
  intros z [Hz|Hz]%elem_of_app; [specialize (HL z Hz); tauto|]. split; intros Hz'; [specialize (Ha z Hz')|specialize (Hs z Hz')]; tauto.
Qed.

Lemma pair_distinct : x ≠ a ∧ x ≠ s ∧ a ≠ s.
Proof.
  destruct pair_apart as (Hxn & _ & _ & Has & _). rewrite !elem_of_app in Hxn.
  pose proof (ids_head h ta). pose proof (ids_head h ts). repeat split; intros Hz.
  - rewrite Hz in Hxn. tauto.
  - rewrite Hz in Hxn. tauto.
  - apply (Has a); [done|]. by rewrite Hz.
Qed.
Lemma pair_below z : z ∈ below h ta ++ below h ts → z ≠ x ∧ z ≠ a ∧ z ≠ s.
Proof.
  destruct pair_apart as (Hxn & Hna & Hns & Has & _). rewrite !elem_of_app in Hxn. pose proof (ids_head h ta). pose proof (ids_head h ts).
  rewrite (ids_below h ta) in *. rewrite (ids_below h ts) in *. apply NoDup_cons in Hna as [Ha _]. apply NoDup_cons in Hns as [Hs _].
  setoid_rewrite elem_of_cons in Has. rewrite !elem_of_cons in Hxn. intros [Hz|Hz]%elem_of_app; repeat split; intros ->.
  - tauto.
  - done.
  - specialize (Has s). tauto.
  - tauto.
  - specialize (Has a). tauto.
  - done.
Qed.
Lemma pair_below_nodup : NoDup (below h ta ++ below h ts).
Proof.
  destruct pair_apart as (_ & Hna & Hns & Has & _). rewrite (ids_below h ta) in *. rewrite (ids_below h ts) in *.
  apply NoDup_cons in Hna as [_ Hna]. apply NoDup_cons in Hns as [_ Hns]. apply NoDup_app. split; [done|]. split; [|done].
  intros z Hz Hz'. apply (Has z); by right.
Qed.

Lemma pair_right z : z ∈ tid <$> R → z ≠ x ∧ z ∉ ids h ta ∧ z ∉ ids h ts.
Proof.
  intros Hin%(tids_in h). destruct pair_apart as (Hx & _ & _ & _ & Hsib). rewrite !elem_of_app in Hx.
  split; [intros ->; tauto|]. apply Hsib, elem_of_app. by right.
Qed.
Lemma pair_right_nodup : NoDup (R ≫= ids h).
Proof.
  pose proof Hnd as HN. rewrite pair_ids in HN. apply NoDup_cons in HN as [_ HN]. by do 3 apply NoDup_app in HN as (_ & _ & HN).
Qed.
Lemma pair_left_right z : z ∈ L ≫= ids h → z ∉ R ≫= ids h.
Proof.
  pose proof Hnd as HN. rewrite pair_ids in HN. apply NoDup_cons in HN as [_ HN]. apply NoDup_app in HN as (_ & HN & _).
  intros Hz. specialize (HN z Hz). rewrite !elem_of_app in HN. tauto.
Qed.
Lemma pair_shaped : shaped Fanout (S h) T → shaped Fanout h ta ∧ shaped Fanout h ts.
Proof. intros [_ Hsh]. apply Forall_app in Hsh as [_ [[? _] [[? _] _]%Forall_cons]%Forall_cons]. done. Qed.

(** The two, and what is below them, in a heap that has changed at [x] and at the two only. *)
Lemma pair_nodup : NoDup (a :: s :: below h ta ++ below h ts).
Proof.
  destruct pair_distinct as (_ & _ & Has). apply NoDup_cons. split.
  - intros [Hz|Hz%pair_below]%elem_of_cons; [by apply Has|tauto].
  - apply NoDup_cons. split; [intros Hz%pair_below; tauto|apply pair_below_nodup].
Qed.
Lemma pair_parent : x ∉ a :: s :: below h ta ++ below h ts.
Proof.
  destruct pair_distinct as (Hxa & Hxs & _). rewrite !elem_of_cons. intros [?|[?|Hz%pair_below]]; [done|done|tauto].
Qed.
Lemma pair_frame (m0 : gmap nat Node) : (∀ z, z ≠ x → z ≠ a → z ≠ s → m0 !! z = nodes b !! z) → ∀ z, z ∈ below h ta ++ below h ts → m0 !! z = nodes b !! z.
Proof. intros Hm z (? & ? & ?)%pair_below. by apply Hm. Qed.
Lemma pair_outside z : z ∉ a :: s :: below h ta ++ below h ts ↔ z ∉ ids h ta ∧ z ∉ ids h ts.
Proof. rewrite !ids_below, !elem_of_cons, elem_of_app. tauto. Qed.

(** The subtree after keys and children have moved between the two. *)
Lemma pair_evolves b' Kx ta' ts' :
  nodes b' !! x = Some (set_keys Kx (laid (S h) par idx T)) → length Kx = length KS →
  rep h (nodes b') (Some x) i ta' → rep h (nodes b') (Some x) (i + 1) ts' →
  (∀ z, z ≠ x → z ∉ ids h ta → z ∉ ids h ts → nodes b' !! z = nodes b !! z) →
  ids h ta' ++ ids h ts' ≡ₚ ids h ta ++ ids h ts → tsize h ta' + tsize h ts' = tsize h ta + tsize h ts → tid ta' = tid ta → tid ts' = tid ts → first_leaf h ta' = first_leaf h ta →
  unused b' = unused b → root_ b' = root_ b → begin_ b' = begin_ b →
  evolves (S h) par idx anc 0 b T b' (G x Kx (L ++ ta' :: ts' :: R)).
Proof.
  intros Hx' HKx Hra' Hrs' Hf Hp Hsz Hta Hts Hfl Hu Hro Hb.
  destruct pair_nodes as (Hx & Hra & Hrs & HkL & HkR). destruct pair_apart as (Hxn & _ & _ & _ & Hsib).
  rewrite !elem_of_app in Hxn.
  assert (∀ z, z ∈ (L ≫= ids h) ++ (R ≫= ids h) → nodes b' !! z = nodes b !! z) as Hfr.
  { intros z Hz. destruct (Hsib z Hz). apply Hf; [|done|done]. intros ->. rewrite elem_of_app in Hz. tauto. }
  apply evolves_within; try done.
  - apply rep_S. cbn [tid tkids]. split.
    + rewrite Hx'. f_equal. unfold set_keys, laid. cbn [tid tkeys tkids keys_ parent_ size_ index_ height_ children_].
      f_equal; [|by rewrite !fmap_app, !fmap_cons, Hta, Hts].
      rewrite !tsize_node, !sumZ_app. cbn [sumZ foldr]. fold (sumZ (tsize h) R). lia.
    + apply eachi_app. rewrite Z.add_0_l. split; [|split; [done|split; [done|]]].
      * eapply eachi_frame; [exact HkL|]. intros z Hz. apply Hfr, elem_of_app. by left.
      * replace (i + 1 + 1) with (i + 2) by lia. eapply eachi_frame; [exact HkR|]. intros z Hz. apply Hfr, elem_of_app. by right.
  - rewrite pair_ids. simpl. rewrite bind_app, !bind_cons. apply perm_skip, Permutation_app_head. by rewrite !app_assoc, Hp.
  - intros z Hz. rewrite pair_ids in Hz. rewrite elem_of_cons, !elem_of_app in Hz. apply Hf; tauto.
  - simpl. destruct L; simpl; [apply Hfl|done].
Qed.
End Pair.

(** *** left_rotate *)
Section LeftRotate.
Context (x a s : nat).

(** The first child of [s] becomes the last one of [a]. *)
Lemma left_rotate_child_ok h na ns c ca cs n sn m b Q :
  NoDup (a :: s :: (ca ≫= ids h) ++ ((c :: cs) ≫= ids h)) → m !! a = Some na → m !! s = Some ns →
  eachi (rep h m (Some a)) 0 ca → eachi (rep h m (Some s)) 0 (c :: cs) →
  children_ n = tid <$> ca → children_ sn = tid <$> c :: cs →
  (∀ m', m' !! a = Some (set_children (tid <$> ca ++ [c]) (add_size (tsize h c) na)) →
         m' !! s = Some (set_children (tid <$> cs) (add_size (- tsize h c) ns)) →
         eachi (rep h m' (Some a)) 0 (ca ++ [c]) → eachi (rep h m' (Some s)) 0 cs →
         (∀ z, z ∉ a :: s :: (ca ≫= ids h) ++ ((c :: cs) ≫= ids h) → m' !! z = m !! z) → Q tt (set_nodes m' b)) →
  runs (left_rotate_child a s n sn) Q (set_nodes m b).
Proof.
  intros Hnd Ha Hs Hka [Hrc Hks] Hn Hsn HQ. pose proof (rep_node _ _ _ _ _ Hrc) as Hnc.
  rewrite bind_cons in *. apply NoDup_cons in Hnd as [Han Hnd]. apply NoDup_cons in Hnd as [Hsn' Hnd].
  apply NoDup_app in Hnd as (_ & Hdis & Hnd). apply NoDup_app in Hnd as (Hndc & Hdis' & Hndcs).
  rewrite elem_of_cons, !elem_of_app in Han. rewrite !elem_of_app in Hsn'. setoid_rewrite elem_of_app in Hdis.
  pose proof (ids_head h c) as Hc0. assert (tid c ∉ tid <$> cs) as Hcc by (intros Hin%(tids_in h); by eapply Hdis').
  assert (a ≠ s ∧ a ≠ tid c ∧ s ≠ tid c) as (? & ? & ?) by (repeat split; intros E; rewrite E in *; tauto).
  assert (a ∉ tid <$> cs) by (intros Hin%(tids_in h); tauto). assert (s ∉ tid <$> cs) by (intros Hin%(tids_in h); tauto).
  unfold left_rotate_child. rewrite Hn, Hsn. change (tail (tid <$> c :: cs)) with (tid <$> cs).
  apply runs_bind. eapply runs_require; [done|]. apply runs_bind. eapply runs_node; [exact Hnc|].
  do 6 (apply runs_bind, runs_upd; [some|]). apply runs_for_each.
  { eapply Forall_impl; [exact (eachi_present _ _ _ _ _ Hks)|]. intros z Hz. cbv beta in *. some. }
  apply HQ.
  - look. rewrite Ha, fmap_app. node_eq.
  - look. rewrite Hs. node_eq.
  - apply eachi_app. split; [|split; [|done]].
    + eapply eachi_frame; [exact Hka|]. intros z Hz. specialize (Hdis z Hz).
      assert (z ≠ a ∧ z ≠ s ∧ z ≠ tid c) as (? & ? & ?) by (repeat split; intros ->; tauto).
      assert (z ∉ tid <$> cs) by (intros Hin%(tids_in h); tauto). by look.
    + rewrite Z.add_0_l. eapply rep_relink; [exact Hrc|done| |].
      * look. rewrite Hnc. node_eq. by rewrite length_fmap.
      * intros z Hz Hzc. assert (z ≠ a ∧ z ≠ s) as (? & ?) by (repeat split; intros ->; tauto).
        assert (z ∉ tid <$> cs) by (intros Hin%(tids_in h); by eapply Hdis'). by look.
  - eapply (eachi_moved _ _ _ _ _ 1 (-1)); [exact Hks|done| |].
    + intros j c' Hc' Hj. assert (tid c' ∈ tid <$> cs) as Hin by (apply list_elem_of_fmap; eauto).
      rewrite lookup_alter_all_in by (try done; by eapply tids_nodup).
      assert (tid c' ≠ a ∧ tid c' ≠ s ∧ tid c' ≠ tid c) as (? & ? & ?) by (repeat split; congruence).
      look. by rewrite Hj.
    + intros z Hz Hzc. assert (z ≠ a ∧ z ≠ s ∧ z ≠ tid c) as (? & ? & ?) by (repeat split; intros ->; try tauto; by eapply Hdis'). by look.
  - intros z. rewrite !elem_of_cons, !elem_of_app. intros Hz.
    assert (z ≠ a ∧ z ≠ s ∧ z ≠ tid c) as (? & ? & ?) by (repeat split; intros ->; tauto).
    assert (z ∉ tid <$> cs) by (intros Hin%(tids_in h); tauto). by look.
Qed.

Context (h : nat) (b : BTree) (par : option nat) (idx : Z) (anc : list nat).
Context (K1 K2 ka ks : list V) (k k' : V) (L R ca cs : list gtree).
Notation T := (G x (K1 ++ k :: K2) (L ++ G a ka ca :: G s (k' :: ks) cs :: R)).
Notation T' := (G x (K1 ++ k' :: K2) (L ++ G a (ka ++ [k]) (ca ++ take 1 cs) :: G s ks (drop 1 cs) :: R)).
Context (Hrep : rep (S h) (nodes b) par idx T) (Hnd : NoDup (ids (S h) T)) (Hsh : shaped Fanout (S h) T)
  (HL : length L = length K1) (Hs : (Fanout <= length (k' :: ks))%nat) (Ha : (length ka < 2 * Fanout)%nat).

Notation na := (add_size 1 (set_keys (ka ++ [k]) (laid h (Some x) (Z.of_nat (length L)) (G a ka ca)))).
Notation ns := (add_size (-1) (set_keys ks (laid h (Some x) (Z.of_nat (length L) + 1) (G s (k' :: ks) cs)))).

(** The keys first. *)
Lemma left_rotate_keys Q :
  (∀ m, m !! a = Some na → m !! s = Some ns → m !! x = Some (set_keys (K1 ++ k' :: K2) (laid (S h) par idx T)) →
    (∀ z, z ≠ x → z ≠ a → z ≠ s → m !! z = nodes b !! z) →
    runs (if is_leaf (laid h (Some x) (Z.of_nat (length L)) (G a ka ca)) then mret tt
          else left_rotate_child a s (laid h (Some x) (Z.of_nat (length L)) (G a ka ca))
                 (laid h (Some x) (Z.of_nat (length L) + 1) (G s (k' :: ks) cs))) Q (set_nodes m b)) →
  runs (left_rotate Fanout a) Q b.
Proof.
  intros HQ. edestruct pair_nodes as (Hx & Hra & Hrs & _); [exact Hrep|].
  edestruct pair_distinct as (Hxa & Hxs & Has); [exact Hnd|]. cbn [tid] in Hxa, Hxs, Has.
  pose proof (rep_node _ _ _ _ _ Hra) as Hna. pose proof (rep_node _ _ _ _ _ Hrs) as Hns. cbn [tid] in Hna, Hns.
  rewrite <-(set_nodes_id b).
  apply runs_bind. eapply runs_node; [exact Hna|]. apply runs_bind. eapply runs_require; [done|].
  apply runs_bind. eapply runs_node; [exact Hx|]. cbn [laid index_ children_ keys_ tkids tkeys parent_ size_].
  apply runs_bind, runs_assert.
  { apply bool_decide_eq_true. rewrite at_of, fmap_app, fmap_cons. apply lookup_between. by rewrite length_fmap. }
  apply runs_bind. eapply runs_require.
  { rewrite at_succ, fmap_app, !fmap_cons. apply lookup_next. by rewrite length_fmap. }
  apply runs_bind. eapply runs_node; [exact Hns|]. apply runs_bind, runs_assert.
  { unfold can_take_key, nkeys. cbn [keys_ laid tkeys]. lia. }
  apply runs_bind. eapply runs_require; [rewrite at_of; by apply lookup_between|].
  apply runs_bind. eapply runs_require; [done|].
  cbn [laid index_ children_ keys_ tkids tkeys parent_ size_ tid tail].
  apply runs_bind, runs_store; [len|some|]. do 4 (apply runs_bind, runs_upd; [some|]).
  apply HQ.
  - look. by rewrite Hna.
  - look. by rewrite Hns.
  - look. rewrite Hx. cbn [fmap option_fmap option_map laid index_ tkeys keys_]. by rewrite Nat2Z.id, HL, insert_app_mid.
  - intros. by look.
Qed.

Lemma left_rotate_ok : runs (left_rotate Fanout a) (λ _ b', evolves (S h) par idx anc 0 b T b' T') b.
Proof.
  edestruct pair_nodes as (_ & Hra & Hrs & _); [exact Hrep|]. apply left_rotate_keys. intros m Hma Hms Hmx Hmz.
  destruct (pair_shaped _ _ _ _ _ _ _ Hsh) as [Hsa Hss]. destruct h as [|h'].
  - cbn in Hsa, Hss. subst ca cs. apply runs_ret. eapply pair_evolves; [exact Hrep|exact Hnd|..]; cbn [tid]; try done.
    + len.
    + split; [|done]. cbn [nodes set_nodes tid]. rewrite Hma. leaf_eq.
    + split; [|done]. cbn [nodes set_nodes tid]. rewrite Hms. leaf_eq.
    + intros z H1 [H2 _]%notin_ids [H3 _]%notin_ids. by apply Hmz.
    + unfold tsize. cbn. len.
  - destruct Hsa as [Hla _], Hss as [Hls _]. cbn [tkids tkeys] in Hla, Hls. destruct cs as [|c cs']; [done|].
    rewrite internal_node by done. apply rep_S in Hra as [_ Hka]. apply rep_S in Hrs as [_ Hks]. cbn [tid tkids] in Hka, Hks.
    pose proof (pair_frame _ _ _ _ _ _ _ _ Hnd m Hmz) as Hfr. cbn [below tkids] in Hfr.
    eapply left_rotate_child_ok; [exact (pair_nodup _ _ _ _ _ _ _ Hnd)|exact Hma|exact Hms|..|done|done|].
    + eapply eachi_frame; [exact Hka|]. intros z Hz. apply Hfr, elem_of_app. by left.
    + eapply eachi_frame; [exact Hks|]. intros z Hz. apply Hfr, elem_of_app. by right.
    + intros m' Ha' Hs' Hka' Hks' Hm'. eapply pair_evolves; [exact Hrep|exact Hnd|..]; cbn [tid nodes set_nodes]; try done.
      * rewrite Hm'; [exact Hmx|]. exact (pair_parent _ _ _ _ _ _ _ Hnd).
      * len.
      * apply rep_S. split; [|exact Hka']. cbn [tid]. rewrite Ha'. node_eq. rewrite !tsize_node, sumZ_app. simpl. len.
      * apply rep_S. split; [|exact Hks']. cbn [tid]. rewrite Hs'. node_eq. rewrite !tsize_node. simpl. rewrite ?drop_0. len.
      * intros z H1 H2 H3. rewrite Hm'; [|by apply (pair_outside (S h') (G a ka ca) (G s (k' :: ks) (c :: cs')))].
        apply notin_ids in H2 as [? _], H3 as [? _]. by apply Hmz.
      * simpl. rewrite !bind_app. simpl. rewrite !app_nil_r, <-!app_assoc. apply perm_skip, Permutation_app_head. by rewrite Permutation_middle.
      * rewrite !tsize_node, !sumZ_app. simpl. rewrite ?drop_0. len.
      * simpl. by destruct ca.
Qed.
End LeftRotate.

(** *** right_rotate *)
Section RightRotate.
Context (x a s : nat).

(** The last child of [s] becomes the first one of [a]. *)
Lemma right_rotate_child_ok h na ns c ca cs n sn m b Q :
  NoDup (s :: a :: ((cs ++ [c]) ≫= ids h) ++ (ca ≫= ids h)) → m !! a = Some na → m !! s = Some ns →
  eachi (rep h m (Some a)) 0 ca → eachi (rep h m (Some s)) 0 (cs ++ [c]) →
  children_ n = tid <$> ca → children_ sn = tid <$> cs ++ [c] →
  (∀ m', m' !! a = Some (set_children (tid <$> c :: ca) (add_size (tsize h c) na)) →
         m' !! s = Some (set_children (tid <$> cs) (add_size (- tsize h c) ns)) →
         eachi (rep h m' (Some a)) 0 (c :: ca) → eachi (rep h m' (Some s)) 0 cs →
         (∀ z, z ∉ s :: a :: ((cs ++ [c]) ≫= ids h) ++ (ca ≫= ids h) → m' !! z = m !! z) → Q tt (set_nodes m' b)) →
  runs (right_rotate_child a s n sn) Q (set_nodes m b).
Proof.
  intros Hnd Ha Hs Hka Hks Hn Hsn HQ. apply eachi_app in Hks as [Hks [Hrc _]]. pose proof (rep_node _ _ _ _ _ Hrc) as Hnc.
  rewrite bind_app, bind_cons, app_nil_r in *. apply NoDup_cons in Hnd as [Hsn' Hnd]. apply NoDup_cons in Hnd as [Han Hnd].
  apply NoDup_app in Hnd as (Hnd & Hdis & Hndca). apply NoDup_app in Hnd as (Hndcs & Hdis' & Hndc).
  rewrite elem_of_cons, !elem_of_app in Hsn'. rewrite !elem_of_app in Han. setoid_rewrite elem_of_app in Hdis.
  pose proof (ids_head h c) as Hc0. assert (tid c ∉ tid <$> ca) as Hcc by (intros Hin%(tids_in h); apply (Hdis (tid c)); tauto).
  assert (a ≠ s ∧ a ≠ tid c ∧ s ≠ tid c) as (? & ? & ?) by (repeat split; intros E; rewrite E in *; tauto).
  assert (a ∉ tid <$> ca) by (intros Hin%(tids_in h); tauto). assert (s ∉ tid <$> ca) by (intros Hin%(tids_in h); tauto).
  unfold right_rotate_child. rewrite Hn, Hsn.
  apply runs_bind. eapply runs_require; [rewrite fmap_app; apply last_snoc|]. apply runs_bind. eapply runs_node; [exact Hnc|].
  do 6 (apply runs_bind, runs_upd; [some|]). apply runs_for_each.
  { eapply Forall_impl; [exact (eachi_present _ _ _ _ _ Hka)|]. intros z Hz. cbv beta in *. some. }
  apply HQ.
  - look. rewrite Ha. node_eq.
  - look. rewrite Hs. node_eq. rewrite fmap_app, length_app. simpl. rewrite Nat.add_sub. by rewrite take_app_length.
  - split; [|].
    + eapply rep_relink; [exact Hrc|done| |].
      * look. rewrite Hnc. node_eq.
      * intros z Hz Hzc. assert (z ≠ a ∧ z ≠ s) as (? & ?) by (repeat split; intros ->; tauto).
        assert (z ∉ tid <$> ca) by (intros Hin%(tids_in h); apply (Hdis z); tauto). by look.
    + eapply (eachi_moved _ _ _ _ _ 0 1); [exact Hka|done| |].
      * intros j c' Hc' Hj. assert (tid c' ∈ tid <$> ca) as Hin by (apply list_elem_of_fmap; eauto).
        rewrite lookup_alter_all_in by (try done; by eapply tids_nodup).
        assert (tid c' ≠ a ∧ tid c' ≠ s ∧ tid c' ≠ tid c) as (? & ? & ?) by (repeat split; congruence).
        look. by rewrite Hj.
      * intros z Hz Hzc. assert (z ≠ a ∧ z ≠ s ∧ z ≠ tid c) as (? & ? & ?).
        { repeat split; intros ->; try tauto. apply (Hdis (tid c)); tauto. } by look.
  - eapply eachi_frame; [exact Hks|]. intros z Hz. specialize (Hdis z). specialize (Hdis' z Hz).
    assert (z ≠ a ∧ z ≠ s ∧ z ≠ tid c) as (? & ? & ?) by (repeat split; intros ->; tauto).
    assert (z ∉ tid <$> ca) by (intros Hin%(tids_in h); tauto). by look.
  - intros z. rewrite !elem_of_cons, !elem_of_app. intros Hz.
    assert (z ≠ a ∧ z ≠ s ∧ z ≠ tid c) as (? & ? & ?) by (repeat split; intros ->; tauto).
    assert (z ∉ tid <$> ca) by (intros Hin%(tids_in h); tauto). by look.
Qed.

Context (h : nat) (b : BTree) (par : option nat) (idx : Z) (anc : list nat).
Context (K1 K2 ka ks : list V) (k k' : V) (L R ca cs : list gtree).
Notation T := (G x (K1 ++ k :: K2) (L ++ G s (ks ++ [k']) cs :: G a ka ca :: R)).
Notation T' := (G x (K1 ++ k' :: K2) (L ++ G s ks (take (length cs - 1) cs) :: G a (k :: ka) (drop (length cs - 1) cs ++ ca) :: R)).
Context (Hrep : rep (S h) (nodes b) par idx T) (Hnd : NoDup (ids (S h) T)) (Hsh : shaped Fanout (S h) T)
  (HL : length L = length K1) (Hs : (Fanout <= length (ks ++ [k']))%nat) (Ha : (length ka < 2 * Fanout)%nat).
Notation na := (add_size 1 (set_keys (k :: ka) (laid h (Some x) (Z.of_nat (length L) + 1) (G a ka ca)))).
Notation ns := (add_size (-1) (set_keys ks (laid h (Some x) (Z.of_nat (length L)) (G s (ks ++ [k']) cs)))).

Lemma right_rotate_keys Q :
  (∀ m, m !! a = Some na → m !! s = Some ns → m !! x = Some (set_keys (K1 ++ k' :: K2) (laid (S h) par idx T)) →
    (∀ z, z ≠ x → z ≠ s → z ≠ a → m !! z = nodes b !! z) →
    runs (if is_leaf (laid h (Some x) (Z.of_nat (length L) + 1) (G a ka ca)) then mret tt
          else right_rotate_child a s (laid h (Some x) (Z.of_nat (length L) + 1) (G a ka ca))
                 (laid h (Some x) (Z.of_nat (length L)) (G s (ks ++ [k']) cs))) Q (set_nodes m b)) →
  runs (right_rotate Fanout a) Q b.
Proof.
  intros HQ. edestruct pair_nodes as (Hx & Hrs & Hra & _); [exact Hrep|].
  edestruct pair_distinct as (Hxs & Hxa & Has); [exact Hnd|]. cbn [tid] in Hxa, Hxs, Has.
  pose proof (rep_node _ _ _ _ _ Hra) as Hna. pose proof (rep_node _ _ _ _ _ Hrs) as Hns. cbn [tid] in Hna, Hns.
  rewrite <-(set_nodes_id b).
  apply runs_bind. eapply runs_node; [exact Hna|]. apply runs_bind. eapply runs_require; [done|].
  apply runs_bind. eapply runs_node; [exact Hx|]. cbn [laid index_ children_ keys_ tkids tkeys parent_ size_].
  replace (Z.of_nat (length L) + 1 - 1) with (Z.of_nat (length L)) by lia.
  apply runs_bind, runs_assert.
  { apply bool_decide_eq_true. rewrite at_succ, fmap_app, !fmap_cons. apply lookup_next. by rewrite length_fmap. }
  apply runs_bind. eapply runs_require.
  { rewrite at_of, fmap_app, fmap_cons. apply lookup_between. by rewrite length_fmap. }
  apply runs_bind. eapply runs_node; [exact Hns|]. apply runs_bind, runs_assert.
  { unfold can_take_key, nkeys. cbn [keys_ laid tkeys]. lia. }
  apply runs_bind. eapply runs_require; [rewrite at_of; by apply lookup_between|].
  apply runs_bind. eapply runs_require; [apply last_snoc|].
  cbn [laid index_ children_ keys_ tkids tkeys parent_ size_ tid tail].
  apply runs_bind, runs_store; [len|some|]. do 4 (apply runs_bind, runs_upd; [some|]).
  apply HQ.
  - look. by rewrite Hna.
  - look. rewrite Hns. unfold nkeys. cbn [fmap option_fmap option_map laid tkeys keys_]. rewrite length_app. simpl.
    by rewrite Nat.add_sub, take_app_length.
  - look. rewrite Hx. cbn [fmap option_fmap option_map laid index_ tkeys keys_]. by rewrite Nat2Z.id, HL, insert_app_mid.
  - intros. by look.
Qed.

Lemma right_rotate_ok : runs (right_rotate Fanout a) (λ _ b', evolves (S h) par idx anc 0 b T b' T') b.
Proof.
  edestruct pair_nodes as (_ & Hrs & Hra & _); [exact Hrep|]. apply right_rotate_keys. intros m Hma Hms Hmx Hmz.
  destruct (pair_shaped _ _ _ _ _ _ _ Hsh) as [Hss Hsa]. destruct h as [|h'].
  - cbn in Hsa, Hss. subst ca cs. apply runs_ret. eapply pair_evolves; [exact Hrep|exact Hnd|..]; cbn [tid]; try done.
    + len.
    + split; [|done]. cbn [nodes set_nodes tid]. rewrite Hms. leaf_eq.
    + split; [|done]. cbn [nodes set_nodes tid]. rewrite Hma. leaf_eq.
    + intros z H1 [H2 _]%notin_ids [H3 _]%notin_ids. by apply Hmz.
    + unfold tsize. cbn. len.
  - destruct Hsa as [Hla _], Hss as [Hls _]. cbn [tkids tkeys] in Hla, Hls.
    destruct cs as [|c cs' _] using rev_ind; [by rewrite length_app in Hls|].
    rewrite internal_node by done. apply rep_S in Hra as [_ Hka]. apply rep_S in Hrs as [_ Hks]. cbn [tid tkids] in Hka, Hks.
    rewrite length_app in *. simpl length in *. rewrite Nat.add_sub, take_app_length, drop_app_length.
    pose proof (pair_frame _ _ _ _ _ _ _ _ Hnd m Hmz) as Hfr. cbn [below tkids] in Hfr.
    eapply right_rotate_child_ok; [exact (pair_nodup _ _ _ _ _ _ _ Hnd)|exact Hma|exact Hms|..|done|done|].
    + eapply eachi_frame; [exact Hka|]. intros z Hz. apply Hfr, elem_of_app. by right.
    + eapply eachi_frame; [exact Hks|]. intros z Hz. apply Hfr, elem_of_app. by left.
    + intros m' Ha' Hs' Hka' Hks' Hm'. eapply pair_evolves; [exact Hrep|exact Hnd|..]; cbn [tid nodes set_nodes]; try done.
      * rewrite Hm'; [exact Hmx|]. exact (pair_parent _ _ _ _ _ _ _ Hnd).
      * len.
      * apply rep_S. split; [|exact Hks']. cbn [tid]. rewrite Hs'. node_eq. rewrite !tsize_node, sumZ_app. simpl. len.
      * apply rep_S. split; [|exact Hka']. cbn [tid]. rewrite Ha'. node_eq. rewrite !tsize_node. simpl. len.
      * intros z H1 H2 H3. rewrite Hm'; [|by apply (pair_outside (S h') (G s (ks ++ [k']) (cs' ++ [c])) (G a ka ca))].
        apply notin_ids in H2 as [? _], H3 as [? _]. by apply Hmz.
      * simpl. rewrite !bind_app. simpl. rewrite !app_nil_r, <-!app_assoc. apply perm_skip, Permutation_app_head. by rewrite Permutation_middle.
      * rewrite !tsize_node, !sumZ_app. simpl. len.
      * simpl. destruct cs'; simpl; [|done]. rewrite length_app in Hls; simpl in Hls; lia.
Qed.
End RightRotate.

(** *** merge_child *)
Lemma remove_at_mid {A} (l : list A) x l' : remove_at (length l) (l ++ x :: l') = l ++ l'.
Proof. unfold remove_at. rewrite take_app_length. f_equal. rewrite drop_app_ge by lia. by replace (S (length l) - length l)%nat with 1%nat by lia. Qed.
Lemma remove_at_next {A} (l : list A) x y l' : remove_at (S (length l)) (l ++ x :: y :: l') = l ++ x :: l'.
Proof.
  replace (l ++ x :: y :: l') with ((l ++ [x]) ++ y :: l') by by rewrite <-app_assoc.
  replace (S (length l)) with (length (l ++ [x])) by (rewrite length_app; simpl; lia). rewrite remove_at_mid. by rewrite <-app_assoc.
Qed.

Lemma kids_without (L R : list gtree) t t' : remove_at (S (length L)) (tid <$> L ++ t :: t' :: R) = tid <$> L ++ t :: R.
Proof. rewrite <-(length_fmap tid L), !fmap_app, !fmap_cons. apply remove_at_next. Qed.
Lemma kids_after (L R : list gtree) t : drop (S (length L)) (tid <$> L ++ t :: R) = tid <$> R.
Proof. rewrite <-fmap_drop, drop_app_ge by lia. by replace (S (length L) - length L)%nat with 1%nat by lia. Qed.

Lemma runs_adopt h a p i j cs m b (Q : unit → BTree → Prop) :
  eachi (rep h m p) i cs → NoDup (cs ≫= ids h) →
  (∀ m', eachi (rep h m' (Some a)) j cs → (∀ z, z ∉ tid <$> cs → m' !! z = m !! z) → Q tt (set_nodes m' b)) →
  runs (adopt a j (tid <$> cs)) Q (set_nodes m b).
Proof.
  revert i j m. induction cs as [|c cs IH]; intros i j m Hk Hnd HQ; [by apply runs_ret, HQ|].
  destruct Hk as [Hc Hk]. pose proof (rep_node _ _ _ _ _ Hc) as Hnc. rewrite bind_cons in Hnd. apply NoDup_app in Hnd as (Hndc & Hdis & Hnd).
  pose proof (ids_head h c) as Hc0. rewrite fmap_cons. apply runs_bind, runs_upd; [by eexists|].
  apply (IH (i + 1)); [|done|].
  { eapply eachi_frame; [exact Hk|]. intros z Hz. assert (z ≠ tid c) by (intros ->; by eapply Hdis). by look. }
  intros m' Hk' Hm'. apply HQ.
  - assert (∀ z, z ∈ ids h c → z ∉ tid <$> cs) as Hout by (intros z Hz Hin%(tids_in h); by eapply Hdis).
    split; [|done]. eapply rep_relink; [exact Hc|done| |].
    + rewrite Hm' by by apply Hout. look. rewrite Hnc. node_eq.
    + intros z Hz Hzc. rewrite Hm' by by apply Hout. by look.
  - intros z [? ?]%not_elem_of_cons. rewrite Hm' by done. by look.
Qed.

(** The children of [s] become the last ones of [a]. *)
Lemma merge_children_ok h a s na ca cs n sn m b (Q : Z → BTree → Prop) :
  NoDup (a :: s :: (ca ≫= ids h) ++ (cs ≫= ids h)) → m !! a = Some na →
  eachi (rep h m (Some a)) 0 ca → eachi (rep h m (Some s)) 0 cs → children_ n = tid <$> ca → children_ sn = tid <$> cs →
  (∀ m', m' !! a = Some (set_children (tid <$> ca ++ cs) na) → eachi (rep h m' (Some a)) 0 (ca ++ cs) →
         (∀ z, z ∉ a :: s :: (ca ≫= ids h) ++ (cs ≫= ids h) → m' !! z = m !! z) → Q (sumZ (tsize h) cs) (set_nodes m' b)) →
  runs (merge_children a n sn) Q (set_nodes m b).
Proof.
  intros Hnd Ha Hka Hks Hn Hsn HQ. apply NoDup_cons in Hnd as [Han Hnd]. apply NoDup_cons in Hnd as [_ Hnd].
  apply NoDup_app in Hnd as (_ & Hdis & Hnd). rewrite elem_of_cons, elem_of_app in Han.
  assert (a ∉ tid <$> cs) as Hac by (intros Hin%(tids_in h); tauto).
  unfold merge_children. rewrite Hn, Hsn. apply runs_bind. eapply runs_adopt; [exact Hks|done|]. intros m' Hk' Hm'.
  apply runs_bind, runs_get. cbn [nodes set_nodes]. rewrite (eachi_sizes _ _ _ _ _ Hk').
  apply runs_bind, runs_upd; [rewrite Hm' by done; by eexists|]. apply runs_ret, HQ.
  - look. rewrite Hm', Ha by done. by rewrite fmap_app.
  - apply eachi_app. rewrite length_fmap in Hk'. split.
    + eapply eachi_frame; [exact Hka|]. intros z Hz. assert (z ≠ a) by (intros ->; tauto). look. apply Hm'.
      intros Hin%(tids_in h). by eapply Hdis.
    + eapply eachi_frame; [exact Hk'|]. intros z Hz. assert (z ≠ a) by (intros ->; tauto). by look.
  - intros z. rewrite !elem_of_cons, elem_of_app. intros Hz. assert (z ≠ a) by tauto. look. apply Hm'. intros Hin%(tids_in h). tauto.
Qed.

Section Merge.
Context (x a s h : nat) (b : BTree) (par : option nat) (idx : Z) (anc : list nat).
Context (K1 K2 ka ks : list V) (k : V) (L R ca cs : list gtree).
Notation T := (G x (K1 ++ k :: K2) (L ++ G a ka ca :: G s ks cs :: R)).
Notation T' := (G x (K1 ++ K2) (L ++ G a (ka ++ k :: ks) (ca ++ cs) :: R)).
Context (Hrep : rep (S h) (nodes b) par idx T) (Hnd : NoDup (ids (S h) T)) (Hsh : shaped Fanout (S h) T)
  (HL : length L = length K1) (Hlen : (length ka + length ks <= 2 * Fanout - 2)%nat) (HF : (2 <= Fanout)%nat).
Notation i := (Z.of_nat (length L)).
Notation ta := (G a ka ca).
Notation ts := (G s ks cs).
Notation n := (laid h (Some x) i ta).
Notation sn := (laid h (Some x) (i + 1) ts).

Lemma tsize_merged : tsize h (G a (ka ++ k :: ks) (ca ++ cs)) = tsize h ta + tsize h ts + 1.
Proof.
  destruct h; [unfold tsize; cbn; len|]. rewrite !tsize_node, sumZ_app. len.
Qed.
Lemma merge_moved na m (Q : Z → BTree → Prop) :
  m !! a = Some na → children_ na = tid <$> ca → (∀ z, z ≠ x → z ≠ a → z ≠ s → m !! z = nodes b !! z) →
  (∀ m', m' !! a = Some (set_children (tid <$> ca ++ cs) na) → kids h m' (G a (ka ++ k :: ks) (ca ++ cs)) →
         (∀ z, z ∉ a :: s :: below h ta ++ below h ts → m' !! z = m !! z) →
         Q (tsize h ts - Z.of_nat (length ks)) (set_nodes m' b)) →
  runs (if is_leaf n then mret 0 else merge_children a n sn) Q (set_nodes m b).
Proof.
  intros Ha Hca Hm HQ. edestruct pair_nodes as (_ & [_ Hka]%rep_kids & [_ Hks]%rep_kids & _); [exact Hrep|].
  destruct (pair_shaped _ _ _ _ _ _ _ Hsh) as [Hsa Hss]. pose proof (pair_frame _ _ _ _ _ _ _ _ Hnd m Hm) as Hfr.
  pose proof (pair_nodup _ _ _ _ _ _ _ Hnd) as Hp. destruct h as [|h'].
  - cbn in Hsa, Hss. subst ca cs. apply runs_ret. replace (0 : Z) with (tsize 0 (G s ks []) - Z.of_nat (length ks)) by (unfold tsize; cbn; lia).
    apply HQ; [|done|done]. rewrite Ha. f_equal. cbn in Hca |- *. rewrite <-Hca. by destruct na.
  - destruct Hsa as [Hla _]. rewrite internal_node by done. cbn [kids tid tkids below] in Hka, Hks, Hfr.
    eapply (merge_children_ok h' a s na ca cs); [exact Hp|exact Ha|..|done|done|].
    + eapply eachi_frame; [exact Hka|]. intros z Hz. apply Hfr, elem_of_app. by left.
    + eapply eachi_frame; [exact Hks|]. intros z Hz. apply Hfr, elem_of_app. by right.
    + intros m' H1 H2 H3. replace (sumZ (tsize h') cs) with (tsize (S h') ts - Z.of_nat (length ks)) by (rewrite tsize_node; lia).
      by apply HQ.
Qed.

(** The neighbours to the right move one place to the left. *)
Lemma merge_child_runs Q :
  (∀ m, rep h m (Some x) i (G a (ka ++ k :: ks) (ca ++ cs)) → m !! s = None →
     m !! x = Some (set_keys (K1 ++ K2) (set_children (tid <$> L ++ ta :: R) (laid (S h) par idx T))) →
     (∀ z, z ≠ x → z ∉ ids h ta → z ∉ ids h ts → z ∉ tid <$> R → m !! z = nodes b !! z) →
     (∀ z, z ∈ tid <$> R → m !! z = (λ n, set_index (index_ n - 1) n) <$> nodes b !! z) → Q tt (set_nodes m b)) →
  runs (merge_child Fanout a) Q b.
Proof.
  intros HQ. edestruct pair_nodes as (Hx & Hra & Hrs & _ & HkR); [exact Hrep|].
  edestruct pair_distinct as (Hxa & Hxs & Has); [exact Hnd|]. cbn [tid] in Hxa, Hxs, Has.
  pose proof (rep_node _ _ _ _ _ Hra) as Hna. pose proof (rep_node _ _ _ _ _ Hrs) as Hns. cbn [tid] in Hna, Hns.
  rewrite <-(set_nodes_id b).
  apply runs_bind. eapply runs_node; [exact Hna|]. apply runs_bind. eapply runs_require; [done|].
  apply runs_bind. eapply runs_node; [exact Hx|]. cbn [laid index_ children_ keys_ tkids tkeys parent_ size_].
  apply runs_bind, runs_assert.
  { rewrite andb_true_iff, negb_true_iff. split; [|by apply bool_decide_eq_false; destruct L].
    apply bool_decide_eq_true. rewrite at_of, fmap_app, fmap_cons. apply lookup_between. by rewrite length_fmap. }
  apply runs_bind. eapply runs_require.
  { rewrite at_succ, fmap_app, !fmap_cons. apply lookup_next. by rewrite length_fmap. }
  apply runs_bind. eapply runs_node; [exact Hns|]. apply runs_bind, runs_assert.
  { unfold nkeys. cbn [keys_ laid tkeys]. by apply Nat.leb_le. }
  rewrite Nat2Z.id. apply runs_bind. eapply runs_require; [by apply lookup_between|].
  cbn [laid index_ children_ keys_ tkids tkeys parent_ size_ tid tail].
  apply runs_bind, runs_store; [len|some|]. apply runs_bind. eapply merge_moved; [by look; rewrite Hna|done|intros; by look|].
  intros m Hma Hkm Hmz.
  assert (∀ z, z ≠ a → z ∉ a :: s :: below h ta ++ below h ts → m !! z = nodes b !! z) as Hmb by (intros z ? Hz; rewrite Hmz by done; by look).
  assert (m !! x = nodes b !! x) as Hmx by (apply Hmb; [done|exact (pair_parent _ _ _ _ _ _ _ Hnd)]).
  assert (∀ z, z ∈ tid <$> R → z ≠ x ∧ z ≠ a ∧ z ≠ s ∧ m !! z = nodes b !! z) as HR.
  { intros z [? Ho]%(pair_right _ _ _ _ _ _ _ Hnd). apply pair_outside in Ho. specialize (Hmb z). cbn [tid] in Ho. rewrite !not_elem_of_cons in Ho, Hmb. destruct Ho as (? & ? & ?).
    repeat split; try done. by apply Hmb. }
  rewrite kids_without, kids_after. rewrite HL, remove_at_mid.
  apply runs_bind, runs_upd; [some|]. apply runs_bind, runs_upd; [repeat apply alter_some; rewrite Hmx; some|].
  apply runs_bind, runs_delete. apply runs_bind, runs_upd; [|apply runs_for_each].
  { rewrite lookup_delete_ne by done. repeat apply alter_some. rewrite Hmx. some. }
  { apply Forall_forall. intros z Hz. destruct (HR z Hz) as (? & ? & ? & Hz'). look. rewrite Hz'.
    exact (proj1 (Forall_forall _ _) (eachi_present _ _ _ _ _ HkR) z Hz). }
  assert (x ∉ tid <$> R ∧ a ∉ tid <$> R ∧ s ∉ tid <$> R) as (? & ? & ?) by (repeat split; intros Hin%HR; tauto).
  assert (below h (G a (ka ++ k :: ks) (ca ++ cs)) = below h ta ++ below h ts) as Hbelow by (destruct h; [done|apply bind_app]).
  apply HQ.
  - apply rep_kids. split.
    + cbn [tid]. look. rewrite Hma. unfold nkeys. cbn [keys_ laid tkeys]. node_eq. rewrite tsize_merged. lia.
    + eapply kids_frame; [exact Hkm|]. rewrite Hbelow. intros z Hz.
      destruct (pair_below _ _ _ _ _ _ _ Hnd z Hz) as (? & ? & ?). cbn [tid] in *.
      assert (z ∉ tid <$> R). { intros (_ & Hza & Hzs)%(pair_right _ _ _ _ _ _ _ Hnd). rewrite ids_below in Hza, Hzs. set_solver. } by look.
  - by look.
  - look. by rewrite Hmx, Hx.
  - intros z Hzx Hza Hzs HzR. assert (z ∉ a :: s :: below h ta ++ below h ts) as Hz by by apply (pair_outside h ta ts).
    apply notin_ids in Hza as [? _], Hzs as [? _]. cbn [tid] in *. look. by apply Hmb.
  - intros z Hz. destruct (HR z Hz) as (? & ? & ? & Hzm). rewrite lookup_alter_all_in by (try done; eapply tids_nodup, pair_right_nodup, Hnd).
    look. by rewrite Hzm.
Qed.
Lemma merge_ids : ids h ts = s :: below h ts ∧ ids h (G a (ka ++ k :: ks) (ca ++ cs)) = ids h ta ++ below h ts.
Proof. split; [apply ids_below|]. rewrite !ids_below. cbn [tid app]. f_equal. destruct h; [done|apply bind_app]. Qed.
Lemma merge_ids_T : ids (S h) T ≡ₚ s :: ids (S h) T'.
Proof.
  destruct merge_ids as [Hs Ha]. rewrite pair_ids. cbn [ids tid tkids]. rewrite bind_app, bind_cons.
  change (match h with O => [] | S h0 => (ca ++ cs) ≫= ids h0 end) with (below h (G a (ka ++ k :: ks) (ca ++ cs))).
  rewrite Ha, Hs. solve_Permutation.
Qed.

Lemma merge_child_ok : runs (merge_child Fanout a) (λ _ b', evolves (S h) par idx anc 0 b T b' T') b.
Proof.
  edestruct pair_nodes as (Hx & Hra & Hrs & HkL & HkR); [exact Hrep|]. apply merge_child_runs.
  intros m Hma Hms Hmx Hmz HmR. pose proof merge_ids_T as Hperm. pose proof Hnd as Hnd'. rewrite Hperm in Hnd'. apply NoDup_cons in Hnd' as [Hsn Hnd'].
  destruct (pair_apart _ _ _ _ _ _ _ Hnd) as (Hxn & _ & _ & _ & Hsib). rewrite !elem_of_app in Hxn.
  split; cbn [nodes set_nodes unused root_ begin_]; try done.
  - apply rep_S. cbn [tid tkids]. split.
    + rewrite Hmx. node_eq; [|by rewrite !fmap_app, !fmap_cons].
      rewrite !tsize_node, !sumZ_app, !length_app. cbn [sumZ foldr length]. rewrite tsize_merged. fold (sumZ (tsize h) R). lia.
    + apply eachi_app. rewrite Z.add_0_l. split; [|split; [done|]].
      * eapply eachi_frame; [exact HkL|]. intros z Hz. destruct (Hsib z) as [? ?]; [apply elem_of_app; by left|]. apply Hmz; try done.
        -- intros ->. tauto.
        -- intros Hin%(tids_in h). by eapply (pair_left_right _ _ _ _ _ _ _ Hnd).
      * replace (i + 1) with (i + 2 + -1) by lia. eapply (eachi_moved _ _ _ _ _ (i + 2) (-1)); [exact HkR|exact (pair_right_nodup _ _ _ _ _ _ _ Hnd)| |].
        -- intros j c Hc Hj. rewrite HmR by (apply list_elem_of_fmap; eauto). by rewrite Hj.
        -- intros z Hz Hzt. destruct (Hsib z) as [? ?]; [apply elem_of_app; by right|]. apply Hmz; try done. intros ->. tauto.
  - intros z Hz. left. rewrite Hperm. by right.
  - intros z Hz. rewrite bump_zero. destruct (decide (z ∈ ids (S h) T)) as [HzT|HzT].
    + rewrite Hperm in HzT. apply elem_of_cons in HzT as [->|]; done.
    + rewrite pair_ids in HzT. rewrite elem_of_cons, !elem_of_app in HzT. apply Hmz; try tauto. intros Hin%(tids_in h). tauto.
  - cbn [first_leaf tkids]. destruct L; [|done]. cbn [app]. destruct (pair_shaped _ _ _ _ _ _ _ Hsh) as [Hsa _]. destruct h as [|h']; [done|].
    destruct Hsa as [Hla _]. cbn [first_leaf tkids]. by destruct ca.
Qed.
End Merge.

(** *** split_child *)
Lemma insert_at_mid {A} (l : list A) x l' : insert_at (length l) x (l ++ l') = l ++ x :: l'.
Proof. unfold insert_at. by rewrite take_app_length, drop_app_length. Qed.
Lemma kids_with (L R : list gtree) t z : insert_at (S (length L)) z (tid <$> L ++ t :: R) = (tid <$> L) ++ tid t :: z :: (tid <$> R).
Proof.
  replace (L ++ t :: R) with ((L ++ [t]) ++ R) by by rewrite <-app_assoc.
  replace (S (length L)) with (length (tid <$> L ++ [t])) by (rewrite length_fmap, length_app; simpl; lia).
  rewrite (fmap_app tid (L ++ [t]) R), insert_at_mid. by rewrite fmap_app, <-app_assoc.
Qed.
Lemma kids_later (L R : list gtree) y z : drop (S (S (length L))) ((tid <$> L) ++ y :: z :: (tid <$> R)) = tid <$> R.
Proof.
  rewrite drop_app_ge by (rewrite length_fmap; lia). rewrite length_fmap. by replace (S (S (length L)) - length L)%nat with 2%nat by lia.
Qed.

(** The right half of the children of [y] moves to [z]. *)
Lemma split_children_ok h y z ny nz ca cs n m b (Q : Z → BTree → Prop) :
  NoDup (z :: y :: (ca ≫= ids h) ++ (cs ≫= ids h)) → m !! y = Some ny → m !! z = Some nz →
  eachi (rep h m (Some y)) 0 (ca ++ cs) → children_ n = tid <$> ca ++ cs → length ca = Fanout →
  (∀ m', m' !! y = Some (set_children (tid <$> ca) ny) → m' !! z = Some (set_children (tid <$> cs) nz) →
         eachi (rep h m' (Some y)) 0 ca → eachi (rep h m' (Some z)) 0 cs →
         (∀ w, w ∉ z :: y :: (ca ≫= ids h) ++ (cs ≫= ids h) → m' !! w = m !! w) → Q (sumZ (tsize h) cs) (set_nodes m' b)) →
  runs (split_children Fanout y z n) Q (set_nodes m b).
Proof.
  intros Hnd Hy Hz Hk Hn Hca HQ. apply eachi_app in Hk as [Hka Hks]. rewrite Z.add_0_l in Hks.
  apply NoDup_cons in Hnd as [Hzn Hnd]. apply NoDup_cons in Hnd as [Hyn Hnd]. apply NoDup_app in Hnd as (_ & Hdis & Hnd).
  rewrite elem_of_cons, !elem_of_app in Hzn. rewrite elem_of_app in Hyn. assert (z ≠ y) by tauto.
  assert (z ∉ tid <$> cs ∧ y ∉ tid <$> cs) as [? ?] by (split; intros Hin%(tids_in h); tauto).
  unfold split_children. rewrite Hn, fmap_app.
  rewrite take_app_length', drop_app_length' by (by rewrite length_fmap).
  apply runs_bind, runs_upd; [some|]. apply runs_bind, runs_for_each.
  { eapply Forall_impl; [exact (eachi_present _ _ _ _ _ Hks)|]. intros w Hw. cbv beta in *. some. }
  apply runs_bind, runs_upd; [look; some|]. apply runs_bind, runs_get. cbn [nodes set_nodes].
  match goal with |- runs _ _ (set_nodes ?m1 _) => set (m' := m1) end.
  assert (eachi (rep h m' (Some z)) 0 cs) as Hks'.
  { replace 0 with (Z.of_nat (length ca) + - Z.of_nat Fanout) by lia. eapply eachi_moved; [exact Hks|done| |].
    - intros j c Hc Hj. unfold m'. assert (tid c ∈ tid <$> cs) as Hin by (apply list_elem_of_fmap; eauto).
      assert (tid c ≠ y ∧ tid c ≠ z) as [? ?] by (split; congruence). look.
      rewrite lookup_alter_all_in by (try done; by eapply tids_nodup). look. by rewrite Hj.
    - intros w Hw Hwt. assert (w ≠ y ∧ w ≠ z) as [? ?] by (split; intros ->; tauto). unfold m'. by look. }
  rewrite (eachi_sizes _ _ _ _ _ Hks'). apply runs_ret, HQ; [unfold m'..| |done|].
  - look. by rewrite Hy.
  - look. by rewrite Hz.
  - eapply eachi_frame; [exact Hka|]. intros w Hw. assert (w ≠ y ∧ w ≠ z) as [? ?] by (split; intros ->; tauto).
    assert (w ∉ tid <$> cs) by (intros Hin%(tids_in h); by eapply Hdis). unfold m'. by look.
  - intros w. rewrite !elem_of_cons, elem_of_app. intros Hw. assert (w ≠ y ∧ w ≠ z) as [? ?] by tauto.
    assert (w ∉ tid <$> cs) by (intros Hin%(tids_in h); tauto). unfold m'. by look.
Qed.
End Ops.
