(* ===== verification/BTreeSplit.v ===== *)
(** Splitting a full child: the last of the operations on neighbours, the inverse of the
    merge, and the one that allocates. *)
From Stdlib Require Import Lia ZifyBool.
From S2P Require Import Prelude BTree BTreeRep BTreeOps.
From stdpp Require Import list sorting.
Local Open Scope Z_scope.

Section Split.
Context {K D : Type} `{KeyOrderOk K} `{!Inhabited D} (Fanout : nat) (HF : (2 <= Fanout)%nat).
Notation V := (K * D)%type.
Notation BTree := (@BTree K D).
Notation Node := (@Node K D).
Notation gtree := (@gtree K D).
Context (x y h : nat) (b : BTree) (par : option nat) (idx : Z) (anc : list nat).
Context (K1 K2 ka ks : list V) (k : V) (L R ca cs : list gtree).
Notation Y := (G y (ka ++ k :: ks) (ca ++ cs)).
Notation z := (unused b).
Notation T := (G x (K1 ++ K2) (L ++ Y :: R)).
Notation T' := (G x (K1 ++ k :: K2) (L ++ G y ka ca :: G z ks cs :: R)).
Context (Hrep : rep (S h) (nodes b) par idx T) (Hnd : NoDup (ids (S h) T)) (Hal : allocated b) (Hsh : shaped Fanout (S h) T)
  (HL : length L = length K1) (Hka : length ka = (Fanout - 1)%nat) (Hks : length ks = (Fanout - 1)%nat)
  (Hc : match h with O => True | _ => length ca = Fanout end) (Hx : (length (K1 ++ K2) < 2 * Fanout - 1)%nat).
Notation i := (Z.of_nat (length L)).
Notation n := (laid h (Some x) i Y).

Lemma split_nodes :
  nodes b !! x = Some (laid (S h) par idx T) ∧ rep h (nodes b) (Some x) i Y ∧
  eachi (rep h (nodes b) (Some x)) 0 L ∧ eachi (rep h (nodes b) (Some x)) (i + 1) R.
Proof.
  apply rep_S in Hrep as [Hx' Hk]. cbn [tid tkids] in Hx', Hk. apply eachi_app in Hk as (HkL & Hra & HkR). by rewrite Z.add_0_l in *.
Qed.
Lemma split_ids : ids h Y = y :: below h (G y ka ca) ++ below h (G z ks cs).
Proof. rewrite ids_below. f_equal. destruct h; [done|apply bind_app]. Qed.
Lemma split_apart :
  x ∉ (L ≫= ids h) ++ ids h Y ++ (R ≫= ids h) ∧ NoDup (ids h Y) ∧ NoDup (R ≫= ids h) ∧
  (∀ w, w ∈ (L ≫= ids h) ++ (R ≫= ids h) → w ∉ ids h Y) ∧ (∀ w, w ∈ L ≫= ids h → w ∉ R ≫= ids h) ∧
  (∀ w, w ∈ ids (S h) T → w ≠ z).
Proof.
  pose proof Hnd as HN. rewrite ids_split in HN. apply NoDup_cons in HN as [HxN HN]. split; [done|].
  apply NoDup_app in HN as (_ & HLn & HN). apply NoDup_app in HN as (HY & HYR & HRn). setoid_rewrite elem_of_app in HLn.
  repeat split; try done.
  - intros w [Hw|Hw]%elem_of_app Hw'; [specialize (HLn w Hw); tauto|by eapply HYR].
  - intros w Hw Hw'. specialize (HLn w Hw). tauto.
  - intros w Hw ->. pose proof (rep_fresh _ _ _ _ _ _ Hrep Hal Hw). lia.
Qed.
Lemma split_distinct : x ≠ y ∧ x ≠ z ∧ y ≠ z.
Proof.
  destruct split_apart as (HxN & _ & _ & _ & _ & Hz). rewrite !elem_of_app in HxN. pose proof (ids_head h Y) as Hy. cbn [tid] in Hy.
  repeat split; [intros E; rewrite E in HxN; tauto|apply Hz, (ids_head (S h) T)|].
  apply Hz. rewrite ids_split. right. rewrite !elem_of_app. tauto.
Qed.
Lemma split_below w : w ∈ below h (G y ka ca) ++ below h (G z ks cs) → w ≠ x ∧ w ≠ y ∧ w ≠ z.
Proof.
  intros Hw. destruct split_apart as (HxN & HY & _ & _ & _ & Hz). rewrite !elem_of_app in HxN.
  assert (w ∈ ids h Y) as HwY by (rewrite split_ids; by right). rewrite split_ids in HY. apply NoDup_cons in HY as [HY _].
  repeat split; [intros ->; tauto|by intros ->|]. apply Hz. rewrite ids_split. right. rewrite !elem_of_app. tauto.
Qed.
Lemma split_nodup : NoDup (z :: y :: below h (G y ka ca) ++ below h (G z ks cs)).
Proof.
  destruct split_apart as (_ & HY & _). rewrite split_ids in HY. apply NoDup_cons. split; [|done].
  destruct split_distinct as (_ & _ & ?). intros [?|Hw%split_below]%elem_of_cons; [done|tauto].
Qed.

Lemma split_parent : x ∉ z :: y :: below h (G y ka ca) ++ below h (G z ks cs).
Proof. destruct split_distinct as (? & ? & _). rewrite !elem_of_cons. intros [?|[?|Hw%split_below]]; [done|done|tauto]. Qed.
Lemma split_outside w : w ≠ z → w ∉ ids h Y → w ∉ z :: y :: below h (G y ka ca) ++ below h (G z ks cs).
Proof. rewrite split_ids, !elem_of_cons. tauto. Qed.
Lemma split_right w : w ∈ tid <$> R → w ≠ x ∧ w ≠ y ∧ w ≠ z ∧ w ∉ z :: y :: below h (G y ka ca) ++ below h (G z ks cs).
Proof.
  intros Hin%(tids_in h). destruct split_apart as (HxN & _ & _ & HLR & _ & Hz). rewrite !elem_of_app in HxN.
  assert (w ∉ ids h Y) as HwY by (apply HLR, elem_of_app; by right). assert (w ≠ z) as Hwz by (apply Hz; rewrite ids_split; right; rewrite !elem_of_app; tauto).
  repeat split; [intros ->; tauto|intros ->; apply HwY, (ids_head h Y)|done|by apply split_outside].
Qed.

Lemma split_moved ny nz m b0 (Q : Z → BTree → Prop) :
  m !! y = Some ny → m !! z = Some nz → children_ ny = tid <$> ca ++ cs → children_ nz = [] →
  (∀ w, w ∈ below h (G y ka ca) ++ below h (G z ks cs) → m !! w = nodes b !! w) →
  (∀ m', m' !! y = Some (set_children (tid <$> ca) ny) → m' !! z = Some (set_children (tid <$> cs) nz) →
         kids h m' (G y ka ca) → kids h m' (G z ks cs) →
         (∀ w, w ∉ z :: y :: below h (G y ka ca) ++ below h (G z ks cs) → m' !! w = m !! w) →
         Q (tsize h (G z ks cs) - Z.of_nat (length ks)) (set_nodes m' b0)) →
  runs (if is_leaf n then mret 0 else split_children Fanout y z n) Q (set_nodes m b0).
Proof.
  intros Hy Hz Hcy Hcz Hm HQ. destruct split_nodes as (_ & [_ HkY]%rep_kids & _).
  assert (shaped Fanout h Y) as HsY by (destruct Hsh as [_ [_ [[? _] _]%Forall_cons]%Forall_app]; done).
  pose proof split_nodup as Hp. destruct h as [|h'].
  - cbn in HsY. apply app_eq_nil in HsY as [Eca Ecs].
    assert (is_leaf (laid 0 (Some x) i Y) = true) as -> by (apply bool_decide_eq_true; cbn; by rewrite Eca, Ecs).
    apply runs_ret. replace (0 : Z) with (tsize 0 (G z ks cs) - Z.of_nat (length ks)) by (unfold tsize; cbn; lia).
    rewrite Eca, Ecs in *. apply HQ; [rewrite Hy|rewrite Hz|done|done|done]; f_equal; [destruct ny|destruct nz]; cbn in *; by subst.
  - destruct HsY as [HlY _]. rewrite internal_node by done. cbn [kids tid tkids below] in HkY, Hm.
    eapply (split_children_ok Fanout h' y z ny nz ca cs); [exact Hp|exact Hy|exact Hz|..|done|done|].
    + eapply eachi_frame; [exact HkY|]. intros w Hw. apply Hm. by rewrite <-bind_app.
    + intros m' H1 H2 H3 H4 H5. replace (sumZ (tsize h') cs) with (tsize (S h') (G z ks cs) - Z.of_nat (length ks)) by (rewrite tsize_node; lia).
      by apply HQ.
Qed.
Lemma split_keys : drop Fanout (ka ++ k :: ks) = ks ∧ take (Fanout - 1) (ka ++ k :: ks) = ka ∧ (ka ++ k :: ks) !! (Fanout - 1)%nat = Some k.
Proof.
  rewrite <-Hka. repeat split; [|by rewrite take_app_length|by rewrite list_lookup_middle].
  rewrite drop_app_ge by lia. by replace (Fanout - length ka)%nat with 1%nat by lia.
Qed.

Lemma tsize_split : tsize h Y = tsize h (G y ka ca) + tsize h (G z ks cs) + 1.
Proof. destruct h; [unfold tsize; cbn; len|]. rewrite !tsize_node, sumZ_app. len. Qed.

Lemma split_child_runs Q :
  (∀ m, rep h m (Some x) i (G y ka ca) → rep h m (Some x) (i + 1) (G z ks cs) →
     m !! x = Some (set_keys (K1 ++ k :: K2) (set_children ((tid <$> L) ++ y :: z :: (tid <$> R)) (laid (S h) par idx T))) →
     (∀ w, w ≠ x → w ∉ ids h Y → w ≠ z → w ∉ tid <$> R → m !! w = nodes b !! w) →
     (∀ w, w ∈ tid <$> R → m !! w = (λ n, set_index (index_ n + 1) n) <$> nodes b !! w) → Q tt (set_nodes m (alloc b))) →
  runs (split_child Fanout y) Q b.
Proof.
  intros HQ. destruct split_nodes as (Hnx & HrY & _ & HkR). destruct split_distinct as (Hxy & Hxz & Hyz).
  pose proof (rep_node _ _ _ _ _ HrY) as Hny. cbn [tid] in Hny. destruct split_keys as (Ed & Et & Ek).
  rewrite <-(set_nodes_id b).
  apply runs_bind. eapply runs_node; [exact Hny|]. apply runs_bind. eapply runs_require; [done|].
  apply runs_bind. eapply runs_node; [exact Hnx|]. cbn [laid index_ children_ keys_ tkids tkeys parent_ size_].
  apply runs_bind, runs_assert.
  { rewrite !andb_true_iff, negb_true_iff. unfold is_full, nkeys. cbn [laid keys_ tkeys].
    split; [split; [|apply Nat.eqb_eq; len]|apply Nat.eqb_neq; lia].
    apply bool_decide_eq_true. rewrite at_of, fmap_app, fmap_cons. apply lookup_between. by rewrite length_fmap. }
  apply runs_bind, runs_make. do 3 (apply runs_bind, runs_upd; [some|]).
  cbn [laid index_ children_ keys_ tkids tkeys parent_ size_ height_]. rewrite Ed.
  apply runs_bind, runs_store; [lia|some|]. apply runs_bind. eapply split_moved; [by look|by look|done|done|..].
  { intros w (? & ? & ?)%split_below. by look. }
  intros m Hmy Hmz Hkya Hkz Hmw.
  assert (∀ w, w ≠ z → w ∉ z :: y :: below h (G y ka ca) ++ below h (G z ks cs) → m !! w = nodes b !! w) as Hmb by (intros w ? Hw; rewrite Hmw by done; by look).
  assert (m !! x = nodes b !! x) as Hmx by (apply Hmb; [done|apply split_parent]).
  assert (∀ w, w ∈ tid <$> R → w ≠ x ∧ w ≠ y ∧ w ≠ z ∧ m !! w = nodes b !! w) as HR.
  { intros w (? & ? & ? & Hw)%split_right. repeat split; try done. by apply Hmb. }
  rewrite Nat2Z.id, kids_with, kids_later. cbn [tid].
  apply runs_bind, runs_upd; [some|]. apply runs_bind, runs_upd; [some|].
  apply runs_bind, runs_upd; [repeat apply alter_some; rewrite Hmx; some|]. apply runs_bind, runs_for_each.
  { apply Forall_forall. intros w Hw. destruct (HR w Hw) as (? & ? & ? & Hw'). look. rewrite Hw'.
    exact (proj1 (Forall_forall _ _) (eachi_present _ _ _ _ _ HkR) w Hw). }
  assert (x ∉ tid <$> R ∧ y ∉ tid <$> R ∧ z ∉ tid <$> R) as (? & ? & ?) by (repeat split; intros Hin%HR; tauto).
  apply runs_bind. eapply runs_require; [exact Ek|]. rewrite Et, HL, insert_at_mid.
  apply runs_bind, runs_store; [rewrite length_app in *; simpl; lia|repeat first [apply alter_some | apply alter_all_some]; rewrite Hmx; some|]. apply runs_upd; [some|].
  match goal with |- Q _ (set_nodes ?m2 _) => assert (∀ w, w ∈ below h (G y ka ca) ++ below h (G z ks cs) → m2 !! w = m !! w) as Hsame end.
  { intros w Hw. destruct (split_below w Hw) as (? & ? & ?). assert (w ∉ tid <$> R) by (intros (_ & _ & _ & Hin)%split_right; set_solver). by look. }
  apply HQ; [apply rep_kids; split..| | |].
  - cbn [tid]. look. rewrite Hmy. node_eq. rewrite tsize_split. unfold nkeys. cbn [keys_]. len.
  - eapply kids_frame; [exact Hkya|]. intros w Hw. apply Hsame, elem_of_app. by left.
  - cbn [tid]. look. rewrite Hmz. node_eq. unfold nkeys. cbn [keys_ newNode size_]. len.
  - eapply kids_frame; [exact Hkz|]. intros w Hw. apply Hsame, elem_of_app. by right.
  - look. by rewrite Hmx, Hnx.
  - intros w Hwx HwY Hwz HwR. pose proof (split_outside w Hwz HwY) as Hw. assert (w ≠ y) by (intros ->; apply HwY, (ids_head h Y)).
    look. by apply Hmb.
  - intros w Hw. destruct (HR w Hw) as (? & ? & ? & Hwm). look.
    rewrite lookup_alter_all_in by (try done; apply (tids_nodup h); apply split_apart). look. by rewrite Hwm.
Qed.
Lemma split_ids_T : ids (S h) T' ≡ₚ z :: ids (S h) T.
Proof.
  rewrite ids_split. cbn [ids tid tkids]. rewrite bind_app, !bind_cons, split_ids, (ids_below h (G y ka ca)), (ids_below h (G z ks cs)).
  cbn [tid]. solve_Permutation.
Qed.

Lemma split_child_ok : runs (split_child Fanout y) (λ _ b', evolves (S h) par idx anc 0 b T b' T') b.
Proof.
  destruct split_nodes as (Hnx & HrY & HkL & HkR). destruct split_apart as (HxN & _ & HRn & Hsib & HLR & Hz).
  rewrite !elem_of_app in HxN. pose proof split_ids_T as Hperm. apply split_child_runs. intros m Hmy Hmz Hmx Hmw HmR.
  assert (∀ w, w ∈ (L ≫= ids h) ++ (R ≫= ids h) → w ≠ x ∧ w ∉ ids h Y ∧ w ≠ z) as Hout.
  { intros w Hw. split; [intros ->; rewrite elem_of_app in Hw; tauto|]. split; [by apply Hsib|].
    apply Hz. rewrite ids_split. right. rewrite !elem_of_app in *. tauto. }
  split; cbn [nodes set_nodes unused root_ begin_ alloc]; try done; [| |lia|..].
  - apply rep_S. cbn [tid tkids]. split.
    + rewrite Hmx. node_eq; [|by rewrite !fmap_app, !fmap_cons].
      rewrite !tsize_node, !sumZ_app, !length_app. cbn [sumZ foldr length]. rewrite tsize_split. fold (sumZ (tsize h) R). lia.
    + apply eachi_app. rewrite Z.add_0_l. split; [|split; [done|split; [done|]]].
      * eapply eachi_frame; [exact HkL|]. intros w Hw. destruct (Hout w) as (? & ? & ?); [apply elem_of_app; by left|].
        apply Hmw; try done. intros Hin%(tids_in h). by eapply HLR.
      * eapply (eachi_moved _ _ _ _ _ (i + 1) 1); [exact HkR|exact HRn| |].
        -- intros j c Hc' Hj. rewrite HmR by (apply list_elem_of_fmap; eauto). by rewrite Hj.
        -- intros w Hw Hwt. destruct (Hout w) as (? & ? & ?); [apply elem_of_app; by right|]. by apply Hmw.
  - rewrite Hperm. apply NoDup_cons. split; [|done]. intros Hw. by apply (Hz z).
  - intros w. rewrite Hperm, elem_of_cons. intros [->|]; [right; lia|by left].
  - intros w. rewrite Hperm, elem_of_cons. intros Hw. rewrite decide_False by tauto. rewrite bump_zero.
    rewrite ids_split, elem_of_cons, !elem_of_app in Hw. apply Hmw; try tauto. intros Hin%(tids_in h). tauto.
  - cbn [first_leaf tkids]. destruct L; [|done]. cbn [app]. destruct h as [|h']; [done|].
    cbn [first_leaf tkids]. destruct ca; [simpl in Hc; lia|done].
Qed.
End Split.
