(* ===== verification/BTreePath.v ===== *)
(** The way from a node up to the root of the B-tree, which the counts and the iterators
    follow, and the two operations at a leaf: inserting a key and erasing one. *)
From Stdlib Require Import Lia ZifyBool.
From S2P Require Import Prelude BTree BTreeRep.
From stdpp Require Import list sorting.
Local Open Scope Z_scope.

Section Path.
Context {K D : Type} `{KeyOrderOk K} `{!Inhabited D} (Fanout : nat).
Notation V := (K * D)%type.
Notation BTree := (@BTree K D).
Notation Node := (@Node K D).
Notation gtree := (@gtree K D).
Implicit Types (b : BTree) (t : gtree) (m : gmap nat Node).

(** The counts that attr_t can still increase. *)
Definition countable_size (z : Z) : Prop := 0 < z < 2 ^ 31 - 1.
(** [anc] are the ancestors of [p], which is at height [h] and has the parent [par]. *)
Fixpoint climbs (m : gmap nat Node) (h p : nat) (par : option nat) (anc : list nat) (root : nat) : Prop :=
  match anc with
  | [] => par = None ∧ p = root
  | q :: anc => par = Some q ∧ ∃ n, m !! q = Some n ∧ (0 < nkeys n)%nat ∧ countable_size (size_ n) ∧
                  height_ n = Z.of_nat (S h) ∧ climbs m (S h) q (parent_ n) anc root
  end.

Lemma climbs_frame m m' h p par anc root :
  (∀ z, z ∈ anc → m' !! z = m !! z) → climbs m h p par anc root → climbs m' h p par anc root.
Proof.
  revert h p par. induction anc as [|q anc IH]; intros h p par Hm; [done|]. intros (Hp & n & Hn & Hk & Hs & Hh & Hc).
  split; [done|]. exists n. rewrite Hm by left. do 4 (split; [done|]).
  apply IH; [|done]. intros z Hz. apply Hm. by right.
Qed.
Lemma climbs_top m h p n anc root :
  m !! p = Some n → height_ n = Z.of_nat h → climbs m h p (parent_ n) anc root →
  ∃ rn, m !! root = Some rn ∧ height_ rn = Z.of_nat (h + length anc) ∧
    (anc = [] ∧ rn = n ∧ root = p ∨ anc ≠ [] ∧ root ∈ anc ∧ (0 < nkeys rn)%nat ∧ 0 < size_ rn).
Proof.
  revert h p n. induction anc as [|q anc IH]; intros h p n Hn Hh; simpl.
  { intros [_ ->]. exists n. rewrite Nat.add_0_r. split; [done|]. split; [done|]. by left. }
  intros (_ & nq & Hq & Hk & Hs & Hhq & Hc). destruct (IH _ _ _ Hq Hhq Hc) as (rn & Hr & Hrh & Hor).
  exists rn. split; [done|]. split; [rewrite Hrh; f_equal; lia|]. right. split; [done|].
  destruct Hor as [(-> & -> & ->)|(_ & Hin & ? & ?)]; [|by split; [right|]]. split; [left|]. destruct Hs. done.
Qed.
Lemma runs_rounds m h p n anc b (Q : nat → BTree → Prop) :
  m !! p = Some n → height_ n = Z.of_nat h → climbs m h p (parent_ n) anc (root_ b) →
  Q (S (S (h + length anc))) (set_nodes m b) → runs rounds Q (set_nodes m b).
Proof.
  intros Hn Hh Hc HQ. destruct (climbs_top _ _ _ _ _ _ Hn Hh Hc) as (rn & Hr & Hrh & _).
  apply runs_bind, runs_bind, runs_get. eapply runs_node; [exact Hr|]. apply runs_ret. by rewrite Hrh, Nat2Z.id.
Qed.

(** Counting up the path. *)
Lemma runs_count_up d fuel p n h anc root m b (Q : unit → BTree → Prop) :
  d = 1 ∨ d = -1 → m !! p = Some n → 0 <= size_ n < 2 ^ 31 - 1 → climbs m h p (parent_ n) anc root → NoDup (p :: anc) →
  (length anc < fuel)%nat → Q tt (set_nodes (alter_all (add_size d) (p :: anc) m) b) → runs (count_up d fuel (Some p)) Q (set_nodes m b).
Proof.
  intros Hd. revert p n h anc m. induction fuel as [|fuel IH]; intros p n h anc m Hn Hs Hc Hnd Hf HQ; [lia|].
  cbn [count_up]. apply runs_bind. eapply runs_node; [exact Hn|]. apply runs_bind.
  assert (checkS 32 (size_ n + d) (set_nodes m b) = Ok (size_ n + d) (set_nodes m b)) as Hck.
  { unfold checkS. rewrite decide_True; [done|]. unfold inS. lia. }
  eexists _, _. split; [exact Hck|]. apply runs_bind, runs_upd; [by eexists|]. apply NoDup_cons in Hnd as [Hp Hnd].
  destruct anc as [|q anc]; cbn [climbs] in Hc; [destruct Hc as [-> _]; destruct fuel; by apply runs_ret|].
  destruct Hc as (-> & nq & Hq & Hk & Hsq & Hhq & Hc). assert (q ≠ p) by (intros ->; by apply Hp; left).
  eapply (IH q nq (S h) anc); [by rewrite lookup_alter_ne|destruct Hsq; lia| |done|simpl in Hf; lia|done].
  eapply climbs_frame; [|exact Hc]. intros z Hz. rewrite lookup_alter_ne; [done|]. intros ->. apply Hp. by right.
Qed.

(** Climbing to the next key, if it is not in the node. *)
Lemma runs_climb fuel p j n h anc root b :
  nodes b !! p = Some n → climbs (nodes b) h p (parent_ n) anc root → (length anc < fuel)%nat →
  runs (climb fuel (p, j)) (λ it b', b' = b ∧ (j ≠ Z.of_nat (nkeys n) ∨ anc = [] → it = (p, j))) b.
Proof.
  revert p j n h anc. induction fuel as [|fuel IH]; intros p j n h anc Hn Hc Hf; [lia|].
  cbn [climb fst snd]. apply runs_bind. eapply runs_read; [exact Hn|].
  destruct anc as [|q anc]; cbn [climbs] in Hc.
  - destruct Hc as [-> _]. apply runs_ret. auto.
  - destruct Hc as (-> & nq & Hq & _ & _ & _ & Hc). destruct (j =? Z.of_nat (nkeys n)) eqn:Hj; [|apply runs_ret; auto].
    eapply runs_mono; [eapply (IH q _ nq); [done|exact Hc|simpl in Hf; lia]|].
    intros it b' [-> _]. split; [done|]. intros [?|?]; [lia|done].
Qed.

(** *** The subtree that a descent has reached *)
Record reached (h : nat) (par : option nat) (idx : Z) (anc : list nat) b t : Prop := {
  re_rep : rep h (nodes b) par idx t;
  re_nodup : NoDup (ids h t);
  re_apart : ∀ z, z ∈ anc → z ∉ ids h t;
  re_anc : NoDup anc;
  re_alloc : allocated b;
  re_shape : shaped Fanout h t;
  re_room : (length (tkeys t) <= 2 * Fanout - 1)%nat;
  re_climbs : climbs (nodes b) h (tid t) par anc (root_ b);
  re_size : tsize h t < 2 ^ 31 - 1
}.
Arguments re_rep {h par idx anc b t}.
Arguments re_nodup {h par idx anc b t}.
Arguments re_apart {h par idx anc b t}.
Arguments re_anc {h par idx anc b t}.
Arguments re_alloc {h par idx anc b t}.
Arguments re_shape {h par idx anc b t}.
Arguments re_room {h par idx anc b t}.
Arguments re_climbs {h par idx anc b t}.
Arguments re_size {h par idx anc b t}.

Lemma climbs_present m h p par anc root z : climbs m h p par anc root → z ∈ anc → is_Some (m !! z).
Proof.
  revert h p par. induction anc as [|q anc IH]; intros h p par; [by intros _ ?%not_elem_of_nil|].
  intros (_ & n & Hn & _ & _ & _ & Hc) [->|Hz]%elem_of_cons; [by eexists|by eapply IH].
Qed.
Lemma evolves_outside h par idx anc b t b' t' z :
  rep h (nodes b) par idx t → allocated b → evolves h par idx anc 0 b t b' t' → is_Some (nodes b !! z) → z ∉ ids h t →
  z ∉ ids h t' ∧ nodes b' !! z = nodes b !! z.
Proof.
  intros Hr Ha He Hz Hn. assert (z ∉ ids h t') as Hn'.
  { intros [?|[Hle _]]%(ev_new He); [done|]. rewrite Ha in Hz by done. by destruct Hz. }
  split; [done|]. rewrite (ev_frame He) by done. rewrite decide_False by done. apply bump_zero.
Qed.
Lemma reached_evolves h par idx anc b t b' t' :
  reached h par idx anc b t → evolves h par idx anc 0 b t b' t' → shaped Fanout h t' → (length (tkeys t') <= 2 * Fanout - 1)%nat →
  tsize h t' = tsize h t → reached h par idx anc b' t'.
Proof.
  intros Hin He Hsh Hlen Hsz.
  assert (∀ z, z ∈ anc → z ∉ ids h t' ∧ nodes b' !! z = nodes b !! z) as Hanc.
  { intros z Hz. eapply evolves_outside; [apply Hin|apply Hin|exact He|eapply climbs_present; [apply Hin|done]|by apply (re_apart Hin)]. }
  split; [apply He|apply He|intros z Hz; by apply Hanc|apply Hin|eapply evolves_allocated; [apply Hin|apply Hin|exact He]|done|done| |].
  - rewrite (ev_id He), (ev_root He). eapply climbs_frame; [|apply Hin]. intros z Hz. by apply Hanc.
  - rewrite Hsz. apply Hin.
Qed.
Lemma tsize_child h x ks (L R : list gtree) c : tsize h c <= tsize (S h) (G x ks (L ++ c :: R)).
Proof.
  rewrite tsize_node, sumZ_app. cbn [sumZ foldr]. fold (sumZ (tsize h) R).
  assert (∀ l : list gtree, 0 <= sumZ (tsize h) l) as Hp by (induction l as [|t l IH]; simpl; [lia|]; unfold tsize in *; lia).
  pose proof (Hp L). pose proof (Hp R). lia.
Qed.
Lemma reached_child h par idx anc b x ks L c R :
  reached (S h) par idx anc b (G x ks (L ++ c :: R)) → (0 < length ks)%nat → reached h (Some x) (Z.of_nat (length L)) (x :: anc) b c.
Proof.
  intros Hin Hk. pose proof (re_nodup Hin) as Hnd. rewrite ids_split in Hnd. apply NoDup_cons in Hnd as [Hx Hnd].
  pose proof (rep_node _ _ _ _ _ (re_rep Hin)) as Hn. cbn [tid] in Hn.
  pose proof (re_rep Hin) as [_ Hrk]%rep_S. cbn [tid tkids] in Hrk. apply eachi_app in Hrk as [_ [Hrc _]].
  destruct (re_shape Hin) as [_ [_ [[Hsc Hbc] _]%Forall_cons]%Forall_app].
  pose proof (re_size Hin) as Hsz. pose proof (tsize_child h x ks L R c) as Hszc.
  assert (0 < tsize (S h) (G x ks (L ++ c :: R))) by (unfold tsize; rewrite flat_node, length_weave; lia).
  split; try done.
  - by apply NoDup_app in Hnd as (_ & _ & (? & _ & _)%NoDup_app).
  - intros z [->|Hz]%elem_of_cons Hzc; [apply Hx; rewrite !elem_of_app; tauto|]. eapply (re_apart Hin z Hz).
    rewrite ids_split. right. rewrite !elem_of_app. tauto.
  - apply NoDup_cons. split; [|apply Hin]. intros Hz. apply (re_apart Hin x Hz), (ids_head (S h) (G x ks (L ++ c :: R))).
  - apply Hin.
  - apply Hbc.
  - cbn [climbs]. split; [done|]. eexists. split; [exact Hn|]. unfold nkeys. cbn [laid keys_ size_ height_ parent_ tkeys].
    split; [done|]. split; [done|]. split; [done|]. exact (re_climbs Hin).
  - lia.
Qed.

(** [p] is the first child of its parent, and so are its ancestors. *)
Fixpoint firsts (m : gmap nat Node) (p : nat) (anc : list nat) : Prop :=
  match anc with
  | [] => True
  | q :: anc => (∃ n, m !! q = Some n ∧ head (children_ n) = Some p) ∧ firsts m q anc
  end.
Lemma firsts_frame m m' p anc : (∀ z, z ∈ anc → m' !! z = m !! z) → firsts m p anc → firsts m' p anc.
Proof.
  revert p. induction anc as [|q anc IH]; intros p Hm; [done|]. intros [(n & Hn & Hh) Hf]. split.
  - exists n. by rewrite Hm by left.
  - apply IH; [|done]. intros z Hz. apply Hm. by right.
Qed.
Lemma firsts_leftmost m b x anc h p par root fuel (Q : nat → BTree → Prop) : climbs m h p par anc root → firsts m p anc →
  (∀ fuel (Q : nat → BTree → Prop), (h < fuel)%nat → Q x (set_nodes m b) → runs (leftmost_leaf fuel p) Q (set_nodes m b)) →
  (h + length anc < fuel)%nat → Q x (set_nodes m b) → runs (leftmost_leaf fuel root) Q (set_nodes m b).
Proof.
  revert h p par fuel Q. induction anc as [|q anc IH]; intros h p par fuel Q; cbn [climbs firsts length].
  { intros [_ ->] _ Hp Hf. apply Hp. lia. }
  intros (_ & n & Hn & _ & _ & _ & Hc) [(n' & Hn' & Hh) Hfs] Hp Hf. rewrite Hn in Hn'. injection Hn' as <-.
  eapply (IH (S h)); [exact Hc|exact Hfs| |lia]. intros [|fuel'] Q' Hf' HQ; [lia|]. cbn [leftmost_leaf]. apply runs_bind.
  eapply runs_node; [exact Hn|]. assert (is_leaf n = false) as -> by (apply bool_decide_eq_false; intros E; by rewrite E in Hh).
  apply runs_bind. eapply runs_require; [exact Hh|]. apply Hp; [lia|done].
Qed.

(** *** Leaves *)
Section Leaf.
Context (b : BTree) (x : nat) (ks : list V) (par : option nat) (idx : Z) (anc : list nat).
Notation t := (G x ks []).
Context (Hrep : rep 0 (nodes b) par idx t) (Hc : climbs (nodes b) 0 x par anc (root_ b)) (Hnd : NoDup (x :: anc))
  (Hs : Z.of_nat (length ks) < 2 ^ 31 - 1).

Lemma leaf_node : nodes b !! x = Some (laid 0 par idx t).
Proof. apply Hrep. Qed.
(** New keys in the leaf, counted on the way up. *)
Lemma leaf_counts d fuel ks' (Q : unit → BTree → Prop) : d = 1 ∨ d = -1 → (length anc < fuel)%nat → Z.of_nat (length ks') = Z.of_nat (length ks) + d →
  (∀ b', evolves 0 par idx anc d b t b' (G x ks' []) → Q tt b') →
  runs (count_up d fuel (Some x)) Q (set_nodes (alter (set_keys ks') x (nodes b)) b).
Proof.
  intros Hd Hf Hl HQ. pose proof leaf_node as Hn. pose proof Hnd as [Hx Hnda]%NoDup_cons.
  eapply (runs_count_up _ _ _ (set_keys ks' (laid 0 par idx t))); [done|by rewrite lookup_alter_eq, Hn| | |exact Hnd|exact Hf|].
  - cbn [set_keys laid size_]. unfold tsize. cbn [flat tkeys]. lia.
  - eapply climbs_frame; [|exact Hc]. intros z Hz. rewrite lookup_alter_ne; [done|]. by intros ->.
  - apply HQ. split; cbn [nodes set_nodes unused root_ begin_]; try done.
    + split; [|done]. cbn [tid]. rewrite lookup_alter_all_in by (try done; left). rewrite lookup_alter_eq, Hn.
      node_eq; unfold tsize; cbn [flat tkeys]; lia.
    + apply NoDup_singleton.
    + by left.
    + intros z Hz. cbn [ids tid] in *. rewrite decide_False by done. apply not_elem_of_cons in Hz as [Hzx _].
      unfold bump. rewrite lookup_alter_all by done. rewrite lookup_alter_ne by done. apply decide_ext. rewrite elem_of_cons. tauto.
Qed.

(** What keeps begin_ in its place: a key that becomes the first one goes where begin_ is,
    to the first leaf. *)
Definition starts (i : nat) : Prop := begin_ b = (x, Z.of_nat i) ∧ i = 0%nat ∧ firsts (nodes b) x anc.
Definition begin_stays (i : nat) (value : V) : Prop :=
  ∃ rn, nodes b !! root_ b = Some rn ∧
    if size_ rn =? 0 then starts i
    else ∃ bn v, nodes b !! (begin_ b).1 = Some bn ∧ (begin_ b).2 = 0 ∧ keys_ bn !! 0%nat = Some v ∧
           (Comp value.1 v.1 = true → starts i).

Lemma insert_leaf_ok i value : (i <= length ks)%nat → (length ks < 2 * Fanout - 1)%nat → begin_stays i value →
  runs (insert_leaf Fanout x i value)
    (λ it b', it = (x, Z.of_nat i) ∧ evolves 0 par idx anc 1 b t b' (G x (insert_at i value ks) [])) b.
Proof.
  intros Hi Hl (rn & Hrn & Hbeg). pose proof leaf_node as Hn. rewrite <-(set_nodes_id b) at 1.
  apply runs_bind. eapply (runs_rounds _ 0 x); [exact Hn|done|exact Hc|]. apply runs_bind. eapply runs_node; [exact Hn|].
  apply runs_bind, runs_assert.
  { apply andb_true_iff. split; [by apply bool_decide_eq_true|]. unfold is_full, nkeys. cbn [laid keys_ tkeys]. lia. }
  apply runs_bind, runs_get. apply runs_bind, runs_bind, runs_bind, runs_get. eapply runs_node; [exact Hrn|]. apply runs_ret.
  apply runs_bind. cbn [begin_ set_nodes].
  assert (∀ Q' : bool → BTree → Prop, (∀ u, (u = true → starts i) → Q' u b) →
    runs (if size_ rn =? 0 then mret true else v ← deref (begin_ b); mret (Comp value.1 v.1)) Q' (set_nodes (nodes b) b)) as Hupd.
  { intros Q' HQ. destruct (size_ rn =? 0); [apply runs_ret; rewrite set_nodes_id; by apply HQ|].
    destruct Hbeg as (bn & v & Hbn & H0' & Hv & Hlt). apply runs_bind, runs_bind. eapply runs_node; [exact Hbn|].
    eapply runs_require; [unfold at_; rewrite H0'; exact Hv|]. apply runs_ret. rewrite set_nodes_id. by apply HQ. }
  apply Hupd. intros u Hu. rewrite <-(set_nodes_id b) at 1. cbn [laid keys_ tkeys].
  apply runs_bind, runs_store; [unfold insert_at; len|by eexists|].
  set (m1 := alter _ x (nodes b)). apply runs_bind.
  assert (∀ Q' : unit → BTree → Prop, Q' tt (set_nodes m1 b) → runs (when u (l ← leftmost_leaf (S (S (0 + length anc))) (root_ b);
    _ ← assert_ (bool_decide (l = x) && (i =? 0)%nat); modify (set_begin_ (x, Z.of_nat i)))) Q' (set_nodes m1 b)) as Hw.
  { intros Q' HQ. destruct u; [|by apply runs_ret]. destruct (Hu eq_refl) as (Hb & -> & Hfs). pose proof Hnd as [Hx _]%NoDup_cons.
    assert (∀ z, z ∈ anc → m1 !! z = nodes b !! z) as Hm1 by (intros z Hz; unfold m1; rewrite lookup_alter_ne; [done|by intros ->]).
    apply runs_bind. eapply (firsts_leftmost m1 b x anc 0 x); [by eapply climbs_frame, Hc|by eapply firsts_frame, Hfs| |simpl; lia|].
    - intros [|fuel] Q'' Hf HQ''; [lia|]. cbn [leftmost_leaf]. apply runs_bind. eapply runs_node; [unfold m1; by rewrite lookup_alter_eq, Hn|].
      assert (is_leaf (set_keys (insert_at 0 value ks) (laid 0 par idx t)) = true) as -> by by apply bool_decide_eq_true. by apply runs_ret.
    - apply runs_bind, runs_assert; [by rewrite bool_decide_eq_true_2|]. apply runs_modify. unfold set_begin_, set_nodes. cbn [nodes unused root_ begin_].
      rewrite <-Hb. exact HQ. }
  apply Hw. apply runs_bind. apply leaf_counts; [by left|lia| |].
  - unfold insert_at. len.
  - intros b' He. by apply runs_ret.
Qed.

Lemma erase_leaf_ok i : (i < length ks)%nat → length ks ≠ (Fanout - 1)%nat ∨ par = None → (begin_ b).2 = 0 →
  (2 <= length ks)%nat ∨ par = None → (length ks <= 2 * Fanout)%nat →
  runs (erase_leaf Fanout x i) (λ _ b', evolves 0 par idx anc (-1) b t b' (G x (remove_at i ks) [])) b.
Proof.
  intros Hi Hmin Hbeg Hl Hl2. pose proof leaf_node as Hn. rewrite <-(set_nodes_id b) at 1.
  assert (length (remove_at i ks) = length ks - 1)%nat as Hlr by (unfold remove_at; len).
  apply runs_bind. eapply (runs_rounds _ 0 x); [exact Hn|done|exact Hc|]. apply runs_bind. eapply runs_node; [exact Hn|].
  apply runs_bind, runs_assert.
  { rewrite !andb_true_iff, negb_true_iff. split; [split; [apply Nat.ltb_lt; done|by apply bool_decide_eq_true]|].
    unfold has_minimal_keys, nkeys. cbn [laid keys_ tkeys parent_]. apply andb_false_iff.
    destruct Hmin as [?| ->]; [right; lia|left; by apply bool_decide_eq_false; intros []]. }
  apply runs_bind, runs_get. cbn [begin_ set_nodes laid keys_ tkeys]. apply runs_bind, runs_store; [lia|by eexists|].
  set (b1 := set_nodes _ b). apply runs_bind. pose proof Hnd as [Hx _]%NoDup_cons.
  eapply runs_mono; [eapply (runs_climb _ x _ (set_keys (remove_at i ks) (laid 0 par idx t)) 0 anc (root_ b))|].
  { unfold b1. cbn [nodes set_nodes]. by rewrite lookup_alter_eq, Hn. }
  { eapply climbs_frame; [|exact Hc]. intros z Hz. unfold b1. cbn [nodes set_nodes]. rewrite lookup_alter_ne; [done|]. by intros ->. }
  { lia. }
  intros it b' [-> Hit]. apply runs_bind.
  assert (runs (when (bool_decide (begin_ b = (x, Z.of_nat i))) (modify (set_begin_ it))) (λ _ b', b' = b1) b1) as Hw.
  { case_bool_decide as Hb; [|by apply runs_ret]. apply runs_modify. rewrite Hb in Hbeg. cbn [snd] in Hbeg.
    rewrite Hit; [unfold set_begin_, b1; cbn; by rewrite <-Hb|]. unfold nkeys. cbn [set_keys keys_].
    destruct Hl as [?| ->]; [left; lia|right]. destruct anc; [done|]. by destruct Hc. }
  eapply runs_mono; [exact Hw|]. intros _ b' ->. apply runs_bind. apply leaf_counts; [by right|lia|lia|].
  intros b' He. by apply runs_ret.
Qed.
End Leaf.
End Path.
Arguments re_rep {K D Fanout h par idx anc b t} _.
Arguments re_nodup {K D Fanout h par idx anc b t} _.
Arguments re_apart {K D Fanout h par idx anc b t} _.
Arguments re_anc {K D Fanout h par idx anc b t} _.
Arguments re_alloc {K D Fanout h par idx anc b t} _.
Arguments re_shape {K D Fanout h par idx anc b t} _.
Arguments re_room {K D Fanout h par idx anc b t} _.
Arguments re_climbs {K D Fanout h par idx anc b t} _.
Arguments re_size {K D Fanout h par idx anc b t} _.
