(* ===== verification/BTreeSearch.v ===== *)
(** Searching the B-tree: where a key lies in a sorted tree, and that find() finds it. *)
From Stdlib Require Import Lia ZifyBool.
From S2P Require Import Prelude BTree BTreeRep BTreeOps BTreePath.
From stdpp Require Import list sorting.
Local Open Scope Z_scope.

Section Search.
Context {K D : Type} `{KeyOrderOk K} `{!Inhabited D} (Fanout : nat).
Notation V := (K * D)%type.
Notation BTree := (@BTree K D).
Notation Node := (@Node K D).
Notation gtree := (@gtree K D).
Notation sorted := (StronglySorted key_lt).
Implicit Types (b : BTree) (t : gtree) (m : gmap nat Node).

(** Keys before and after a key. *)
Definition before (key : K) (l : list V) : Prop := Forall (λ v, Comp v.1 key = true) l.
Definition after (key : K) (l : list V) : Prop := Forall (λ v, Comp key v.1 = true) l.

Lemma before_last key l k : sorted (l ++ [k]) → Comp k.1 key = true → before key (l ++ [k]).
Proof.
  intros Hs Hk. apply StronglySorted_app in Hs as (Hl & _ & _). apply Forall_app. split; [|by constructor].
  apply Forall_forall. intros v Hv. eapply comp_trans, Hk. apply Hl; [done|left].
Qed.
Lemma after_first key l k : sorted (k :: l) → Comp key k.1 = true → after key (k :: l).
Proof.
  intros [Hl _]%StronglySorted_cons Hk. constructor; [done|]. eapply Forall_impl; [exact Hl|]. intros v Hv. eapply comp_trans; [exact Hk|exact Hv].
Qed.
Lemma before_absent key l v : before key l → v ∈ l → v.1 ≠ key.
Proof. intros Hl Hv. apply comp_ne. by eapply (proj1 (Forall_forall _ _) Hl). Qed.
Lemma after_absent key l v : after key l → v ∈ l → v.1 ≠ key.
Proof. intros Hl Hv E. eapply (comp_ne key v.1); [|done]. by eapply (proj1 (Forall_forall _ _) Hl). Qed.

Lemma weave_elem (L : list (list V)) K1 c v : length L = length K1 → c ∈ L → v ∈ c → v ∈ weave L K1.
Proof.
  revert K1. induction L as [|c' L IH]; intros [|k K1] Hl Hc Hv; try done; [by apply not_elem_of_nil in Hc|].
  simpl. apply elem_of_cons in Hc as [->|Hc]; apply elem_of_app; [by left|right; right; apply IH; simpl in Hl; auto].
Qed.
(** What follows a child. *)
Definition rest (h : nat) (R : list gtree) (K2 : list V) : list V :=
  match K2 with [] => weave (flat h <$> R) [] | k :: K2 => k :: weave (flat h <$> R) K2 end.
Lemma flat_at h x K1 K2 L c R : length L = length K1 →
  flat (S h) (G x (K1 ++ K2) (L ++ c :: R)) = weave (flat h <$> L) K1 ++ flat h c ++ rest h R K2.
Proof. apply flat_split. Qed.
(** A child of a node lies between the keys around it. *)
Lemma around_child h x K1 K2 L c R key : length L = length K1 → length R = length K2 →
  sorted (flat (S h) (G x (K1 ++ K2) (L ++ c :: R))) → before key K1 → (∀ k, head K2 = Some k → Comp key k.1 = true) →
  before key (weave (flat h <$> L) K1) ∧ after key (rest h R K2).
Proof.
  intros HL HR Hs HK1 HK2. rewrite flat_at in Hs by done. apply StronglySorted_app in Hs as (_ & HsA & HsB).
  apply StronglySorted_app in HsB as (_ & _ & HsB). split.
  - destruct K1 as [|k K1' _] using rev_ind; [destruct L; [constructor|done]|].
    destruct L as [|l L' _] using rev_ind; [by rewrite length_app in HL; simpl in HL; lia|].
    rewrite !length_app in HL. simpl in HL. rewrite fmap_app in *. rewrite weave_app in * by (rewrite length_fmap; lia).
    cbn [fmap list_fmap weave] in *. rewrite app_assoc in *. apply before_last; [exact HsA|].
    apply Forall_app in HK1 as [_ HK1]. by apply Forall_cons in HK1 as [? _].
  - destruct K2 as [|k K2']; [destruct R; [constructor|done]|]. apply after_first; [exact HsB|]. by apply HK2.
Qed.
Lemma flat_around h x K1 K2 L R key : length L = length K1 → length R = length K2 →
  ∃ A B, (∀ c, flat (S h) (G x (K1 ++ K2) (L ++ c :: R)) = A ++ flat h c ++ B) ∧
    (∀ c, sorted (flat (S h) (G x (K1 ++ K2) (L ++ c :: R))) → before key K1 → (∀ k, head K2 = Some k → Comp key k.1 = true) →
          before key A ∧ after key B) ∧ (∀ l v, l ∈ L → v ∈ flat h l → v ∈ A).
Proof.
  intros HL HR. eexists _, _. split; [intros c; by apply flat_at|]. split.
  - intros c Hs HK1 HK2. by eapply around_child.
  - intros l v Hl Hv. apply (weave_elem _ _ (flat h l)); [by rewrite length_fmap|by apply list_elem_of_fmap; exists l|done].
Qed.

(** A node cut at one of its keys. *)
Definition halves (h : nat) (ka : list V) (ca : list gtree) : Prop := match h with O => ca = [] | S _ => length ca = S (length ka) end.
Lemma flat_joined h w y z ka k ks ca cs : halves h ka ca → halves h ks cs →
  flat h (G w (ka ++ k :: ks) (ca ++ cs)) = flat h (G y ka ca) ++ k :: flat h (G z ks cs).
Proof.
  destruct h as [|h]; [done|]. cbn [halves]. intros Hca _. rewrite !flat_node.
  destruct ca as [|c ca' _] using rev_ind; [done|]. rewrite length_app in Hca. simpl in Hca.
  rewrite <-app_assoc, !fmap_app. change (flat h <$> [c]) with [flat h c].
  rewrite weave_app, weave_snoc by (rewrite length_fmap; lia). by rewrite <-app_assoc.
Qed.
Lemma shaped_halves h t : shaped Fanout h t → halves h (tkeys t) (tkids t).
Proof. destruct h; [done|]. by intros [? _]. Qed.

(** get_lb on the keys of a node. *)
Lemma get_lb_split key ks par idx h x (cs : list gtree) : sorted ks →
  let i := get_lb key (laid h par idx (G x ks cs)) in
  (i <= length ks)%nat ∧ before key (take i ks) ∧ Forall (λ v, Comp v.1 key = false) (drop i ks).
Proof.
  intros Hs. pose proof (get_lb_range key (laid h par idx (G x ks cs))) as Hr. destruct (get_lb_cuts key (laid h par idx (G x ks cs)) Hs) as [H1 H2]. done.
Qed.
Lemma head_after key ks i : Forall (λ v, Comp v.1 key = false) (drop i ks) → fst <$> ks !! i ≠ Some key →
  ∀ k : V, head (drop i ks) = Some k → Comp key k.1 = true.
Proof.
  intros Hd Hne k Hk. rewrite head_lookup, lookup_drop, Nat.add_0_r in Hk. rewrite Hk in Hne.
  assert (Comp k.1 key = false) as Hc.
  { apply (proj1 (Forall_forall _ _) Hd). apply list_elem_of_lookup. exists 0%nat. by rewrite lookup_drop, Nat.add_0_r. }
  destruct (Comp key k.1) eqn:E; [done|]. exfalso. apply Hne. simpl. f_equal. by apply comp_total.
Qed.
Lemma keys_in_weave (l : list (list V)) ks v : length l = S (length ks) → v ∈ ks → v ∈ weave l ks.
Proof.
  revert l. induction ks as [|k ks IH]; intros [|c l] Hl Hv; try done; [by apply not_elem_of_nil in Hv|].
  simpl in *. apply elem_of_app. right. apply elem_of_cons in Hv as [->|Hv]; [left|right]. apply IH; [lia|done].
Qed.
Lemma sorted_keys h x ks (cs : list gtree) : sorted (flat (S h) (G x ks cs)) → length cs = S (length ks) → sorted ks.
Proof.
  rewrite flat_node, <-(length_fmap (flat h) cs). generalize (flat h <$> cs). clear cs.
  induction ks as [|k ks IH]; intros [|c l] Hs Hlen; try done; [constructor|].
  simpl in Hs. apply StronglySorted_app in Hs as (_ & _ & Hs). apply StronglySorted_cons in Hs as [Hk Hs].
  simpl in Hlen. injection Hlen as Hlen. constructor; [by apply (IH l)|].
  apply Forall_forall. intros v Hv. by apply (proj1 (Forall_forall _ _) Hk), keys_in_weave.
Qed.
Lemma kids_at (cs : list gtree) (ks : list V) i : length cs = S (length ks) → (i <= length ks)%nat →
  ∃ L c R, cs = L ++ c :: R ∧ length L = i ∧ length R = length (drop i ks) ∧ cs !! i = Some c.
Proof.
  intros Hl Hi. destruct (lookup_lt_is_Some_2 cs i) as [c Hc]; [lia|]. exists (take i cs), c, (drop (S i) cs).
  split; [by rewrite take_drop_middle|]. split; [len|]. split; [len|done].
Qed.

(** *** Where a key is *)

(** [l] is cut around the pairs [o] that have the key: there is at most one. *)
Definition around (key : K) l (A o B : list V) : Prop :=
  l = A ++ o ++ B ∧ before key A ∧ after key B ∧ ∀ v, v ∈ o → v.1 = key.
(** [l'] has the pairs [o'] for the key, and is [l] otherwise. *)
Definition placed (key : K) (o' l l' : list V) : Prop := ∃ A o B, around key l A o B ∧ l' = A ++ o' ++ B.

Lemma sorted_cut (A B : list V) v : sorted (A ++ v :: B) → before v.1 A ∧ after v.1 B.
Proof.
  intros (HA & _ & [HB _]%StronglySorted_cons)%StronglySorted_app. split; [|exact HB].
  apply Forall_forall. intros w Hw. apply HA; [done|left].
Qed.
Lemma placed_same (A B : list V) v v' : sorted (A ++ v :: B) → placed v.1 [v'] (A ++ v :: B) (A ++ v' :: B).
Proof.
  intros [HA HB]%sorted_cut. exists A, [v], B. split; [|done]. do 3 (split; [done|]). by intros w ->%list_elem_of_singleton.
Qed.
Lemma sorted_unique (A B A' B' : list V) v v' : sorted (A ++ v :: B) → A ++ v :: B = A' ++ v' :: B' → v.1 = v'.1 → A = A' ∧ v = v' ∧ B = B'.
Proof.
  revert A'. induction A as [|a A IH]; intros [|a' A'] Hs E Hk; simplify_eq/=; [done| | |].
  - apply StronglySorted_cons in Hs as [Hs _]. apply Forall_app in Hs as [_ [Hs _]%Forall_cons]. by apply comp_ne in Hs.
  - apply StronglySorted_cons in Hs as [Hs _]. apply Forall_app in Hs as [_ [Hs _]%Forall_cons]. by apply comp_ne in Hs.
  - apply StronglySorted_cons in Hs as [_ Hs]. by destruct (IH A' Hs) as (-> & -> & ->).
Qed.
(** The cut is the one that the comparisons make. *)
Lemma around_filter key l (A o B : list V) : around key l A o B →
  A = filter (λ v, Comp v.1 key = true) l ∧ B = filter (λ v, Comp key v.1 = true) l.
Proof.
  intros (-> & HA & HB & Ho). rewrite !filter_app.
  assert (∀ l, before key l → filter (λ v : V, Comp v.1 key = true) l = l ∧ filter (λ v : V, Comp key v.1 = true) l = []) as H1.
  { intros l' Hl. induction Hl as [|v l' Hv Hl [IH1 IH2]]; [done|]. rewrite !filter_cons, IH1, IH2, decide_True, decide_False; [done| |done].
    by rewrite (comp_asym _ _ Hv). }
  assert (∀ l, after key l → filter (λ v : V, Comp v.1 key = true) l = [] ∧ filter (λ v : V, Comp key v.1 = true) l = l) as H2.
  { intros l' Hl. induction Hl as [|v l' Hv Hl [IH1 IH2]]; [done|]. rewrite !filter_cons, IH1, IH2, decide_False, decide_True; [done|done|].
    by rewrite (comp_asym _ _ Hv). }
  assert (filter (λ v : V, Comp v.1 key = true) o = [] ∧ filter (λ v : V, Comp key v.1 = true) o = []) as [-> ->].
  { clear -Ho H0. induction o as [|v o IH]; [done|]. rewrite !filter_cons, !decide_False by (rewrite (Ho v) by left; by rewrite comp_irrefl).
    apply IH. intros w Hw. apply Ho. by right. }
  destruct (H1 A HA) as [-> ->], (H2 B HB) as [-> ->]. by rewrite !app_nil_r.
Qed.
Lemma placed_found key (P Q l' : list V) v : sorted (P ++ v :: Q) → v.1 = key → placed key [] (P ++ v :: Q) l' → l' = P ++ Q.
Proof.
  intros [HP HQ]%sorted_cut Hk (A & o & B & Ha & ->). destruct (around_filter _ _ _ _ _ Ha) as [EA EB]. rewrite Hk in HP, HQ.
  assert (around key (P ++ v :: Q) P [v] Q) as Hv by (split; [done|]; do 2 (split; [done|]); by intros w ->%list_elem_of_singleton).
  destruct (around_filter _ _ _ _ _ Hv) as [EP EQ]. subst A B. by rewrite <-EP, <-EQ.
Qed.
Lemma placed_sorted key o' l l' : sorted l → placed key o' l l' → sorted o' → (∀ v, v ∈ o' → v.1 = key) → sorted l'.
Proof.
  intros Hs (A & o & B & (-> & HA & HB & Ho) & ->) Ho' Hk. apply StronglySorted_app in Hs as (HAo & HsA & HsoB).
  apply StronglySorted_app in HsoB as (HoB & Hso & HsB). apply StronglySorted_app. split; [|split; [done|apply StronglySorted_app; split; [|done]]].
  - intros a w Ha [Hw|Hw]%elem_of_app; [|apply HAo; [done|by apply elem_of_app; right]].
    unfold key_lt. rewrite (Hk w Hw). by apply (proj1 (Forall_forall _ _) HA).
  - intros a w Ha Hw. unfold key_lt. rewrite (Hk a Ha). by apply (proj1 (Forall_forall _ _) HB).
Qed.

(** The place [it] holds [v]. *)
Definition points b (it : iterator) (v : V) : Prop :=
  ∃ n j, nodes b !! it.1 = Some n ∧ it.2 = Z.of_nat j ∧ keys_ n !! j = Some v.

(** One step of a descent: the child that the key can be in. *)
Lemma descent key h x ks (cs : list gtree) par idx :
  sorted (flat (S h) (G x ks cs)) → length cs = S (length ks) →
  let i := get_lb key (laid (S h) par idx (G x ks cs)) in
  fst <$> ks !! i ≠ Some key →
  ∃ L c R A B, cs = L ++ c :: R ∧ length L = i ∧ cs !! i = Some c ∧ (tid <$> cs) !! i = Some (tid c) ∧
    length L = length (take i ks) ∧ length R = length (drop i ks) ∧
    (∀ c', flat (S h) (G x ks (L ++ c' :: R)) = A ++ flat h c' ++ B) ∧ before key A ∧ after key B ∧
    (∀ l v, l ∈ L → v ∈ flat h l → v ∈ A).
Proof.
  intros Hs Hl i Hne. pose proof (sorted_keys _ _ _ _ Hs Hl) as Hks. destruct (get_lb_split key ks par idx (S h) x cs Hks) as (Hi & Hb & Ha). fold i in Hi, Hb, Ha.
  destruct (kids_at cs ks i Hl Hi) as (L & c & R & -> & HL & HR & Hc).
  assert (length L = length (take i ks)) as HL' by len.
  destruct (flat_around h x (take i ks) (drop i ks) L R key HL' HR) as (A & B & Hf & Hab & HLA). rewrite take_drop in Hf, Hab.
  destruct (Hab c Hs Hb (head_after _ _ _ Ha Hne)) as [HA HB]. exists L, c, R, A, B. rewrite list_lookup_fmap, Hc. done.
Qed.
Lemma leaf_absent key ks par idx x : sorted ks →
  let i := get_lb key (laid 0 par idx (G x ks [])) in
  fst <$> ks !! i ≠ Some key → before key (take i ks) ∧ after key (drop i ks).
Proof.
  intros Hs i Hne. destruct (get_lb_split key ks par idx 0 x [] Hs) as (Hi & Hb & Ha). fold i in Hi, Hb, Ha. split; [done|].
  pose proof (head_after _ _ _ Ha Hne) as Hh. destruct (drop i ks) as [|k l] eqn:E; [constructor|]. apply after_first; [|by apply Hh].
  rewrite <-(take_drop i ks), E in Hs. by apply StronglySorted_app in Hs as (_ & _ & ?).
Qed.
Lemma absent_split key (A l B : list V) : before key A → after key B → (∀ v, v ∈ l → v.1 ≠ key) → ∀ v, v ∈ A ++ l ++ B → v.1 ≠ key.
Proof.
  intros HA HB Hl v. rewrite !elem_of_app. intros [?|[?|?]]; [by eapply before_absent|by apply Hl|by eapply after_absent].
Qed.

Lemma search_loop_ok key h fuel b par idx t e :
  rep h (nodes b) par idx t → shaped Fanout h t → sorted (flat h t) → (h < fuel)%nat → end_ b = Ok e b →
  runs (search_loop fuel key (tid t)) (λ it b', b' = b ∧
    ((∃ v, v ∈ flat h t ∧ v.1 = key ∧ points b it v) ∨ it = e ∧ ∀ v, v ∈ flat h t → v.1 ≠ key)) b.
Proof.
  revert fuel par idx t. induction h as [|h IH]; intros fuel par idx [x ks cs] Hr Hsh Hs Hf He; (destruct fuel as [|fuel]; [lia|]).
  all: pose proof (rep_node _ _ _ _ _ Hr) as Hn; cbn [tid] in Hn; cbn [search_loop tid]; apply runs_bind; (eapply runs_read; [exact Hn|]).
  - cbn in Hsh. subst cs. set (i := get_lb key _). cbn [laid keys_ tkeys].
    assert (fst <$> ks !! i ≠ Some key → runs end_ (λ it b', b' = b ∧ ((∃ v, v ∈ flat 0 (G x ks []) ∧ v.1 = key ∧ points b it v) ∨
      it = e ∧ ∀ v, v ∈ flat 0 (G x ks []) → v.1 ≠ key)) b) as Hend.
    { intros Hne. destruct (leaf_absent key ks par idx x Hs Hne) as [HA HB]. eexists _, _. split; [exact He|]. split; [done|]. right. split; [done|].
      intros v Hv. cbn [flat tkeys] in Hv. rewrite <-(take_drop i ks) in Hv.
      refine (absent_split key (take i ks) [] (drop i ks) HA HB _ v Hv). by intros ? ?%not_elem_of_nil. }
    destruct (ks !! i) as [v|] eqn:Hv; [|by apply Hend]. destruct (decide (key = v.1)) as [->|Hne].
    + apply runs_ret. split; [done|]. left. exists v. split; [by eapply list_elem_of_lookup_2|]. split; [done|]. eexists _, i. split; [exact Hn|]. done.
    + apply Hend. simpl. congruence.
  - destruct Hsh as [Hl Hk]. cbn [tkids tkeys] in Hl, Hk. set (i := get_lb key _). cbn [laid keys_ tkeys children_ tkids]. rewrite internal_node by done.
    assert (fst <$> ks !! i ≠ Some key → runs (c ← require ((tid <$> cs) !! i); search_loop fuel key c)
      (λ it b', b' = b ∧ ((∃ v, v ∈ flat (S h) (G x ks cs) ∧ v.1 = key ∧ points b it v) ∨ it = e ∧ ∀ v, v ∈ flat (S h) (G x ks cs) → v.1 ≠ key)) b) as Hdown.
    { intros Hne. destruct (descent key h x ks cs par idx Hs Hl Hne) as (L & c & R & A & B & -> & HL & _ & Hc & _ & _ & Hfl & HA & HB & _). fold i in HL, Hc.
      apply runs_bind. eapply runs_require; [exact Hc|]. apply rep_S in Hr as [_ Hrk]. cbn [tid tkids] in Hrk. apply eachi_app in Hrk as [_ [Hrc _]].
      apply Forall_app in Hk as [_ [[Hsc _] _]%Forall_cons]. rewrite Hfl in *. pose proof Hs as (_ & _ & (_ & Hsc' & _)%StronglySorted_app)%StronglySorted_app.
      eapply runs_mono; [eapply (IH fuel _ _ c Hrc Hsc Hsc'); [lia|exact He]|]. intros it b' [-> [(v & Hv & Hk' & Hp)|[-> Hno]]]; (split; [done|]).
      - left. exists v. rewrite !elem_of_app. auto.
      - right. split; [done|]. by apply absent_split. }
    destruct (ks !! i) as [v|] eqn:Hv; [|by apply Hdown]. destruct (decide (key = v.1)) as [->|Hne].
    + apply runs_ret. split; [done|]. left. exists v. split; [|split; [done|eexists _, i; split; [exact Hn|done]]].
      eapply keys_in_weave, list_elem_of_lookup_2; [by rewrite length_fmap|exact Hv].
    + apply Hdown. simpl. congruence.
Qed.
End Search.
