(* ===== verification/BTreeReplace.v ===== *)
(** A pair of the B-tree replaced in place. *)
From Stdlib Require Import Lia ZifyBool.
From S2P Require Import Prelude BTree BTreeRep BTreeOps BTreePath BTreeSearch.
From stdpp Require Import list sorting.
Local Open Scope Z_scope.

Section Replace.
Context {K D : Type} `{KeyOrderOk K} `{!Inhabited D} (Fanout : nat).
Notation V := (K * D)%type.
Notation BTree := (@BTree K D).
Notation Node := (@Node K D).
Notation gtree := (@gtree K D).
Notation sorted := (StronglySorted key_lt).
Implicit Types (b : BTree) (t : gtree) (m : gmap nat Node) (value : V) (l : list V).

Lemma weave_cut (L R : list (list V)) K1 k K2 : length L = S (length K1) → weave (L ++ R) (K1 ++ k :: K2) = weave L K1 ++ k :: weave R K2.
Proof.
  revert K1. induction L as [|c L IH]; intros [|k1 K1] Hl; simplify_eq/=.
  - destruct L; [|done]. by rewrite app_nil_r.
  - rewrite <-app_assoc. simpl. by rewrite IH.
Qed.
(** [t'] is [t] with the pair [v] at place [j] of node [p] replaced by [v']. *)
Record replaced (h : nat) m (par : option nat) (idx : Z) t p j v v' t' : Prop := {
  rp_rep : rep h (alter (λ n, set_keys (<[j := v']> (keys_ n)) n) p m) par idx t';
  rp_ids : ids h t' = ids h t;
  rp_id : tid t' = tid t;
  rp_first : first_leaf h t' = first_leaf h t;
  rp_shape : shaped Fanout h t → shaped Fanout h t';
  rp_len : length (tkeys t') = length (tkeys t);
  rp_flat : ∃ A B, flat h t = A ++ v :: B ∧ flat h t' = A ++ v' :: B
}.
Lemma replaced_here h m par idx x ks cs j v v' :
  rep h m par idx (G x ks cs) → NoDup (ids h (G x ks cs)) → shaped Fanout h (G x ks cs) → ks !! j = Some v →
  replaced h m par idx (G x ks cs) x j v v' (G x (<[j := v']> ks) cs).
Proof.
  intros Hr Hnd Hsh Hj. pose proof (rep_node _ _ _ _ _ Hr) as Hn. cbn [tid] in Hn. pose proof (lookup_lt_Some _ _ _ Hj) as Hlt.
  assert (∃ A B, flat h (G x ks cs) = A ++ v :: B ∧ flat h (G x (<[j := v']> ks) cs) = A ++ v' :: B) as Hf.
  { clear Hr Hn Hnd. pose proof (take_drop_middle _ _ _ Hj) as E. assert (length (take j ks) = j) as Hj' by len.
    set (K1 := take j ks) in *. set (K2 := drop (S j) ks) in *. clearbody K1 K2. subst ks j. rewrite insert_app_mid.
    destruct h as [|h]; [by exists K1, K2|]. destruct Hsh as [Hl _]. cbn [tkids tkeys] in Hl. rewrite !flat_node.
    pose proof (take_drop (S (length K1)) cs) as E. assert (length (take (S (length K1)) cs) = S (length K1)) as Hc by (rewrite length_take, Hl, length_app; simpl; lia).
    set (C1 := take _ cs) in *. set (C2 := drop _ cs) in *. clearbody C1 C2. subst cs. rewrite fmap_app, !weave_cut by by rewrite length_fmap. eauto. }
  split; try done.
  - apply rep_kids in Hr as [_ Hk]. apply rep_kids. split.
    + cbn [tid]. rewrite lookup_alter_eq, Hn. node_eq. unfold tsize. destruct Hf as (A & B & -> & ->). by rewrite !length_app.
    + destruct h as [|h]; [done|]. cbn [kids tid tkids] in *. eapply eachi_frame; [exact Hk|]. intros z Hz. rewrite lookup_alter_ne; [done|].
      intros ->. cbn [ids tid tkids] in Hnd. by apply NoDup_cons in Hnd as [? _].
  - by destruct h.
  - by destruct h.
  - destruct h; [done|]. intros [Hl Hk]. split; [|done]. cbn [tkids tkeys] in *. by rewrite length_insert.
  - cbn [tkeys]. by rewrite length_insert.
Qed.
Lemma replaced_child h m par idx x ks L c R p j v v' c' :
  rep (S h) m par idx (G x ks (L ++ c :: R)) → NoDup (ids (S h) (G x ks (L ++ c :: R))) → p ∈ ids h c → (length L <= length ks)%nat →
  replaced h m (Some x) (Z.of_nat (length L)) c p j v v' c' →
  replaced (S h) m par idx (G x ks (L ++ c :: R)) p j v v' (G x ks (L ++ c' :: R)).
Proof.
  intros Hr Hnd Hp HL [H1 H2 H3 H4 H5 H6 (A & B & HA & HB)]. rewrite ids_split in Hnd. apply NoDup_cons in Hnd as [Hx Hnd].
  rewrite !elem_of_app in Hx. apply NoDup_app in Hnd as (_ & Hd1 & (_ & Hd2 & _)%NoDup_app).
  pose proof (rep_node _ _ _ _ _ Hr) as Hn. cbn [tid] in Hn. apply rep_S in Hr as [_ Hk]. cbn [tid tkids] in Hk.
  apply eachi_app in Hk as [HkL [Hkc HkR]].
  assert (tsize h c' = tsize h c) as Hsz by (unfold tsize; by rewrite HA, HB, !length_app).
  split.
  - apply rep_intro.
    + rewrite lookup_alter_ne by (intros ->; tauto). rewrite Hn. f_equal. unfold laid. f_equal.
      * rewrite !tsize_node, !sumZ_app. cbn [sumZ foldr]. fold (sumZ (tsize h) R). lia.
      * cbn [tkids]. by rewrite !fmap_app, !fmap_cons, H3.
    + apply eachi_app. split; [|split; [exact H1|]]; (eapply eachi_frame; [eassumption|]); intros z Hz; rewrite lookup_alter_ne; try done; intros ->.
      * apply (Hd1 _ Hz). rewrite elem_of_app. tauto.
      * by eapply Hd2.
  - by rewrite !ids_split, H2.
  - done.
  - cbn [first_leaf tkids]. destruct L; [exact H4|done].
  - intros [Hl Hs]. cbn [tkids tkeys] in *. split; [etrans; [|exact Hl]; cbn [tkids]; by rewrite !length_app|]. cbn [tkids]. apply Forall_app in Hs as [HsL [[Hsc Hbc] HsR]%Forall_cons].
    apply Forall_app. split; [done|]. constructor; [|done]. split; [auto|]. unfold bounded. by rewrite H6.
  - done.
  - rewrite <-(take_drop (length L) ks). exists (weave (flat h <$> L) (take (length L) ks) ++ A).
    eexists. rewrite !flat_split by len. rewrite HA, HB, <-!app_assoc. done.
Qed.
Lemma replaced_ok h m par idx t p n j v v' :
  rep h m par idx t → NoDup (ids h t) → shaped Fanout h t → p ∈ ids h t → m !! p = Some n → keys_ n !! j = Some v →
  ∃ t', replaced h m par idx t p j v v' t'.
Proof.
  revert par idx t. induction h as [|h IH]; intros par idx [x ks cs] Hr Hnd Hsh Hp Hn Hj.
  - apply list_elem_of_singleton in Hp as ->. pose proof (rep_node _ _ _ _ _ Hr) as Hx. cbn [tid] in *. rewrite Hx in Hn. injection Hn as <-.
    eexists. by apply replaced_here.
  - destruct (decide (p = x)) as [->|Hne].
    { pose proof (rep_node _ _ _ _ _ Hr) as Hx. cbn [tid] in Hx. rewrite Hx in Hn. injection Hn as <-. eexists. by apply replaced_here. }
    cbn [ids tid tkids] in Hp. apply elem_of_cons in Hp as [|Hp]; [done|]. apply list_elem_of_bind in Hp as (c & Hp & Hc).
    apply list_elem_of_split in Hc as (L & R & ->). destruct Hsh as [Hl [_ [[Hsc _] _]%Forall_cons]%Forall_app].
    pose proof Hr as [_ HrK]%rep_S. cbn [tid tkids] in HrK. apply eachi_app in HrK as [_ [Hrc _]].
    assert (NoDup (ids h c)) as Hndc by (rewrite ids_split in Hnd; by apply NoDup_cons in Hnd as [_ (_ & _ & (? & _ & _)%NoDup_app)%NoDup_app]).
    destruct (IH _ _ c Hrc Hndc Hsc Hp Hn Hj) as (c' & Hc'). eexists. eapply replaced_child; [done|done|exact Hp| |exact Hc'].
    cbn [tkids tkeys] in Hl. rewrite length_app in Hl. simpl in Hl. lia.
Qed.
Lemma replaced_evolves h b par idx anc t p j v v' t' :
  rep h (nodes b) par idx t → NoDup (ids h t) → p ∈ ids h t → replaced h (nodes b) par idx t p j v v' t' →
  evolves h par idx anc 0 b t (set_nodes (alter (λ n, set_keys (<[j := v']> (keys_ n)) n) p (nodes b)) b) t'.
Proof.
  intros Hr Hnd Hp [H1 H2 H3 H4 H5 H6 _]. apply evolves_within; try done; [by rewrite H2|].
  intros z Hz. cbn [nodes set_nodes]. rewrite lookup_alter_ne; [done|]. by intros ->.
Qed.
Lemma node_room h m par idx t p n : rep h m par idx t → shaped Fanout h t → (length (tkeys t) <= 2 * Fanout - 1)%nat →
  p ∈ ids h t → m !! p = Some n → (length (keys_ n) <= 2 * Fanout - 1)%nat.
Proof.
  revert par idx t. induction h as [|h IH]; intros par idx [x ks cs] Hr Hsh Hk Hp Hn; pose proof (rep_node _ _ _ _ _ Hr) as Hx; cbn [tid] in Hx.
  - apply list_elem_of_singleton in Hp as ->. cbn [tid] in Hn. rewrite Hx in Hn. by injection Hn as <-.
  - cbn [ids tid tkids] in Hp. apply elem_of_cons in Hp as [->|Hp]; [rewrite Hx in Hn; by injection Hn as <-|]. apply list_elem_of_bind in Hp as (c & Hp & Hc).
    apply list_elem_of_split in Hc as (L & R & ->). destruct Hsh as [_ [_ [[Hsc Hbc] _]%Forall_cons]%Forall_app].
    apply rep_S in Hr as [_ Hr]. cbn [tid tkids] in Hr. apply eachi_app in Hr as [_ [Hr _]]. eapply IH; [exact Hr|done|apply Hbc|done|done].
Qed.
(** Storing a pair that replaces another one. *)
Lemma runs_replace m p n j v' (Q : unit → BTree → Prop) b :
  m !! p = Some n → (length (keys_ n) <= 2 * Fanout)%nat → Q tt (set_nodes (alter (λ n, set_keys (<[j := v']> (keys_ n)) n) p m) b) →
  runs (store_keys Fanout p (<[j := v']> (keys_ n))) Q (set_nodes m b).
Proof.
  intros Hn Hl HQ. apply runs_store; [by rewrite length_insert|by eexists|].
  erewrite alter_ext; [exact HQ|]. intros n' Hn'. by simplify_eq.
Qed.

End Replace.
