(* ===== verification/BTreeInsert.v ===== *)
(** Inserting into the B-tree: the loop of insert_lb() and operator[], from a node that is
    not full down to a leaf. *)
From Stdlib Require Import Lia ZifyBool.
From S2P Require Import Prelude BTree BTreeRep BTreeOps BTreeSplit BTreePath BTreeSearch.
From stdpp Require Import list sorting.
Local Open Scope Z_scope.

Section Insert.
Context {K D : Type} `{KeyOrderOk K} `{!Inhabited D} (Fanout : nat) (HF : (2 <= Fanout)%nat).
Notation V := (K * D)%type.
Notation BTree := (@BTree K D).
Notation Node := (@Node K D).
Notation gtree := (@gtree K D).
Notation sorted := (StronglySorted key_lt).
Implicit Types (b : BTree) (t : gtree) (m : gmap nat Node) (value : V).

(** [value] is put in its place. *)
Definition inserted value (l l' : list V) : Prop :=
  ∃ A B, l = A ++ B ∧ l' = A ++ value :: B ∧ before value.1 A ∧ after value.1 B.
Lemma inserted_between value A l l' B : before value.1 A → after value.1 B → inserted value l l' → inserted value (A ++ l ++ B) (A ++ l' ++ B).
Proof.
  intros HA HB (A' & B' & -> & -> & HA' & HB'). exists (A ++ A'), (B' ++ B). rewrite <-!app_assoc. repeat split; by apply Forall_app.
Qed.
Lemma inserted_length value l l' : inserted value l l' → length l' = S (length l).
Proof. intros (A & B & -> & -> & _). len. Qed.

(** The first key of a subtree, in its first leaf. *)
Lemma first_leaf_key h m par idx t :
  rep h m par idx t → shaped Fanout h t → (0 < length (tkeys t))%nat →
  first_leaf h t ∈ ids h t ∧ ∃ bn v, m !! first_leaf h t = Some bn ∧ keys_ bn !! 0%nat = Some v ∧ v ∈ flat h t.
Proof.
  revert par idx t. induction h as [|h IH]; intros par idx [x ks cs] Hr Hsh Hk; cbn [tkeys] in Hk.
  - split; [left|]. destruct Hr as [Hn _]. destruct ks as [|v ks]; [simpl in Hk; lia|]. eexists _, v. split; [exact Hn|]. split; [done|left].
  - apply rep_S in Hr as [_ Hr]. destruct Hsh as [Hl Hsh]. cbn [tkids tkeys] in *. destruct cs as [|c cs]; [done|]. destruct Hr as [Hr _].
    apply Forall_cons in Hsh as [[Hsc Hbc] _]. destruct (IH _ _ c Hr Hsc) as (Hin & bn & v & Hb & Hv & Hf); [unfold bounded in Hbc; lia|].
    cbn [first_leaf tkids]. split; [eapply elem_of_kids; [|exact Hin]; left|]. exists bn, v. split; [done|]. split; [done|].
    simpl. destruct ks; apply elem_of_app; by left.
Qed.

(** begin_ is the first leaf of the subtree, which is the first one at its height, or holds a
    smaller key outside of it. *)
Definition begin_ok (h : nat) b (anc : list nat) t value : Prop :=
  (begin_ b).2 = 0 ∧ ((begin_ b).1 = first_leaf h t ∧ firsts (nodes b) (tid t) anc ∨
    anc ≠ [] ∧ (begin_ b).1 ∉ ids h t ∧ ∃ bn v, nodes b !! (begin_ b).1 = Some bn ∧ keys_ bn !! 0%nat = Some v ∧ Comp v.1 value.1 = true).

(** What the loop needs of the subtree it has reached. *)
Record insertable (h : nat) (par : option nat) (idx : Z) (anc : list nat) b t value : Prop := {
  in_reached :> reached Fanout h par idx anc b t;
  in_sorted : sorted (flat h t);
  in_begin : begin_ok h b anc t value;
  in_keys : anc ≠ [] ∨ h ≠ 0%nat → (0 < length (tkeys t))%nat
}.
Arguments in_reached {h par idx anc b t value}.
Arguments in_sorted {h par idx anc b t value}.
Arguments in_begin {h par idx anc b t value}.
Arguments in_keys {h par idx anc b t value}.

(** What it makes of it: the subtree has at most [e] more keys in its root. *)
Definition insert_spec (e : nat) (h : nat) (par : option nat) (idx : Z) (anc : list nat) b t value (r : iterator * bool) (b' : BTree) : Prop :=
  ∃ t', evolves h par idx anc (if r.2 then 1 else 0) b t b' t' ∧ shaped Fanout h t' ∧
    (length (tkeys t) <= length (tkeys t') <= e + length (tkeys t))%nat ∧
    if r.2 then inserted value (flat h t) (flat h t') ∧ points b' r.1 value
    else flat h t' = flat h t ∧ ∃ v, v ∈ flat h t ∧ v.1 = value.1 ∧ points b' r.1 v.

Lemma insertable_leaf par idx anc b x ks value i :
  insertable 0 par idx anc b (G x ks []) value → before value.1 (take i ks) → (i <= length ks)%nat → begin_stays b x anc i value.
Proof.
  intros Hin Hb Hi. destruct (in_begin Hin) as [H0' Hbeg]. pose proof (rep_node _ _ _ _ _ (re_rep Hin)) as Hn. cbn [tid] in Hn.
  destruct (climbs_top (nodes b) 0 x _ anc (root_ b) Hn) as (rn & Hrn & _ & Htop); [done|exact (re_climbs Hin)|].
  exists rn. split; [done|]. cbn [first_leaf tid] in Hbeg.
  assert ((begin_ b).1 = x → firsts (nodes b) x anc → i = 0%nat → starts b x anc i) as Heq
    by (intros <- ? ->; split; [destruct (begin_ b); simpl in *; by subst|done]).
  destruct (size_ rn =? 0) eqn:Hz.
  - destruct Htop as [(-> & -> & Hx)|(_ & _ & _ & ?)]; [|lia]. cbn [laid size_] in Hz. unfold tsize in Hz. cbn [flat tkeys] in Hz.
    destruct Hbeg as [[Hbeg Hfs]|[? _]]; [|done]. apply Heq; [done|done|lia].
  - destruct Hbeg as [[Hbeg Hfs]|(_ & _ & bn & v & Hbn & Hv & Hlt)].
    + destruct ks as [|v ks].
      { destruct Htop as [(_ & -> & _)|(Hne & _)]; [done|]. pose proof (in_keys Hin (or_introl Hne)). simpl in *; lia. }
      eexists _, v. rewrite Hbeg. split; [exact Hn|]. split; [done|]. split; [done|]. intros Hc. apply Heq; [done|done|].
      destruct i as [|i]; [done|]. simpl in Hb. apply Forall_cons in Hb as [Hb _]. apply comp_asym in Hb. congruence.
    + exists bn, v. do 3 (split; [done|]). intros Hc. apply comp_asym in Hc. congruence.
Qed.

(** A leaf. *)
Lemma insert_at_leaf par idx anc b x ks fuel value :
  insertable 0 par idx anc b (G x ks []) value → (length ks < 2 * Fanout - 1)%nat →
  runs (insert_loop Fanout (S fuel) value x) (insert_spec 1 0 par idx anc b (G x ks []) value) b.
Proof.
  intros Hin Hroom. pose proof (rep_node _ _ _ _ _ (re_rep Hin)) as Hn. cbn [tid] in Hn. cbn [insert_loop].
  apply runs_bind. eapply runs_read; [exact Hn|]. set (i := get_lb _ _).
  pose proof (in_sorted Hin) as Hs. cbn [flat tkeys] in Hs. destruct (get_lb_split value.1 ks par idx 0 x [] Hs) as (Hi & Hb & _). fold i in Hi, Hb.
  cbn [laid keys_ tkeys]. case_bool_decide as Hv.
  - apply runs_ret. exists (G x ks []). split; [apply evolves_refl; apply Hin|]. split; [done|]. split; [lia|]. split; [done|].
    destruct (ks !! i) as [v|] eqn:E; [|done]. exists v. split; [by eapply list_elem_of_lookup_2|]. split; [by simplify_eq/=|].
    eexists _, i. split; [exact Hn|]. done.
  - assert (is_leaf (laid 0 par idx (G x ks [])) = true) as -> by by apply bool_decide_eq_true.
    destruct (leaf_absent value.1 ks par idx x Hs Hv) as [HA HB]. fold i in HA, HB. apply runs_bind.
    eapply runs_mono; [apply insert_leaf_ok; [apply Hin|apply Hin| | |exact Hi|exact Hroom|by eapply insertable_leaf]|].
    + apply NoDup_cons. split; [|apply Hin]. intros Hx. apply (re_apart Hin x Hx). left.
    + pose proof (re_size Hin). done.
    + intros it b' [-> He]. apply runs_ret. eexists. split; [exact He|]. split; [done|]. cbn [tkeys flat fst snd].
      assert (length (insert_at i value ks) = S (length ks)) as Hlen by (unfold insert_at; len). split; [lia|]. split.
      * exists (take i ks), (drop i ks). by rewrite take_drop.
      * eexists _, i. split; [exact (rep_node _ _ _ _ _ (ev_rep He))|]. split; [done|]. cbn [laid keys_ tkeys]. unfold insert_at.
        apply lookup_between. len.
Qed.

(** *** One level down *)
Section Down.
Context (h : nat) (par : option nat) (idx : Z) (anc : list nat) (b : BTree) (x : nat) (ks : list V) (L R : list gtree) (c : gtree) (value : V).
Notation T := (G x ks (L ++ c :: R)).
Context (Hin : insertable (S h) par idx anc b T value) (A B : list V)
  (Hf : ∀ c', flat (S h) (G x ks (L ++ c' :: R)) = A ++ flat h c' ++ B) (HA : before value.1 A) (HB : after value.1 B)
  (HLA : ∀ l v, l ∈ L → v ∈ flat h l → v ∈ A).

Lemma down_child : rep h (nodes b) (Some x) (Z.of_nat (length L)) c ∧ shaped Fanout h c ∧ bounded Fanout c.
Proof.
  pose proof (re_rep Hin) as [_ Hk]%rep_S. cbn [tid tkids] in Hk. apply eachi_app in Hk as [_ [Hk _]]. split; [done|].
  destruct (re_shape Hin) as [_ Hs]. by apply Forall_app in Hs as [_ [? _]%Forall_cons].
Qed.
Lemma down_begin : begin_ok h b (x :: anc) c value.
Proof.
  destruct (in_begin Hin) as [H0' Hbeg]. split; [done|]. pose proof (re_nodup Hin) as Hnd. rewrite ids_split in Hnd. apply NoDup_cons in Hnd as [_ Hnd].
  destruct Hbeg as [[Hbeg Hfs]|(Hne & Hout & Hbn)].
  - destruct L as [|l L']; [left|right].
    { split; [done|]. split; [|done]. eexists. split; [exact (rep_node _ _ _ _ _ (re_rep Hin))|done]. } split; [done|]. cbn [first_leaf tkids app] in Hbeg.
    pose proof (re_rep Hin) as [_ [Hrl _]]%rep_S. destruct (re_shape Hin) as [_ [[Hsl Hbl] _]%Forall_cons].
    destruct (first_leaf_key h (nodes b) _ _ l Hrl Hsl) as (Hil & bn & v & Hbn & Hv & Hvl); [unfold bounded in Hbl; lia|].
    rewrite Hbeg. split.
    + intros Hic. cbn [app] in Hnd. rewrite bind_cons, <-app_assoc in Hnd. apply NoDup_app in Hnd as (_ & Hd & _).
      apply (Hd _ Hil). rewrite !elem_of_app. tauto.
    + exists bn, v. split; [done|]. split; [done|]. apply (proj1 (Forall_forall _ _) HA), (HLA l); [left|done].
  - right. split; [done|]. split; [|done]. intros Hic. apply Hout. rewrite ids_split. right. rewrite !elem_of_app. tauto.
Qed.
Lemma down_insertable : insertable h (Some x) (Z.of_nat (length L)) (x :: anc) b c value.
Proof.
  pose proof (in_keys Hin (or_intror (Nat.neq_succ_0 h))) as Hk. destruct down_child as (_ & _ & Hbc). split.
  - by eapply reached_child; [apply Hin|].
  - pose proof (in_sorted Hin) as Hs. rewrite Hf in Hs. by apply StronglySorted_app in Hs as (_ & _ & (_ & ? & _)%StronglySorted_app).
  - exact down_begin.
  - intros _. unfold bounded in Hbc. lia.
Qed.
Lemma down_spec r b' : (length (tkeys c) < 2 * Fanout - 1)%nat →
  insert_spec 1 h (Some x) (Z.of_nat (length L)) (x :: anc) b c value r b' → insert_spec 0 (S h) par idx anc b T value r b'.
Proof.
  intros Hroom (c' & He & Hsc' & Hlen & Hr). exists (G x ks (L ++ c' :: R)). destruct down_child as (_ & _ & Hbc).
  assert (tsize h c' = tsize h c + (if r.2 then 1 else 0)) as Hsz.
  { unfold tsize. destruct r as [it [|]]; cbn [snd] in *; [destruct Hr as [Hr%inserted_length _]; lia|destruct Hr as [-> _]; lia]. }
  split; [eapply evolves_child; [apply Hin|apply Hin|apply Hin|apply Hin|exact He|exact Hsz]|].
  destruct (re_shape Hin) as [Hl Hsh]. split; [|split; [cbn [tkeys]; lia|]].
  - split; [cbn [tkids tkeys] in *; rewrite length_app in *; simpl in *; lia|]. cbn [tkids] in *. apply Forall_app in Hsh as [HsL [_ HsR]%Forall_cons].
    apply Forall_app. split; [done|]. constructor; [|done]. split; [done|]. unfold bounded in *. lia.
  - rewrite !Hf. destruct r as [it [|]]; cbn [snd fst] in *.
    + destruct Hr as [Hr Hp]. split; [by apply inserted_between|done].
    + destruct Hr as [-> (v & Hv & Hk & Hp)]. split; [done|]. exists v. rewrite !elem_of_app. auto.
Qed.
End Down.

(** *** A full child is split first *)
Lemma insertable_evolves h par idx anc b t value b' t' :
  insertable h par idx anc b t value → evolves h par idx anc 0 b t b' t' → shaped Fanout h t' → flat h t' = flat h t →
  (length (tkeys t) <= length (tkeys t') <= 2 * Fanout - 1)%nat → insertable h par idx anc b' t' value.
Proof.
  intros Hin He Hsh Hfl Hlen. split.
  - eapply reached_evolves; [apply Hin|exact He|done|lia|unfold tsize; by rewrite Hfl].
  - rewrite Hfl. apply Hin.
  - destruct (in_begin Hin) as [H0' Hb]. split; [by rewrite (ev_begin He)|]. rewrite (ev_begin He), (ev_first He).
    destruct Hb as [[Hb Hfs]|(Hne & Ho & bn & v & Hbn & Hv & Hlt)]; [left|right].
    { split; [done|]. rewrite (ev_id He). eapply firsts_frame, Hfs. intros z Hz. eapply evolves_outside; [apply Hin|apply Hin|exact He| |].
      - by eapply climbs_present, Hz; apply Hin.
      - by apply (re_apart Hin). }
    destruct (evolves_outside _ _ _ _ _ _ _ _ (begin_ b).1 (re_rep Hin) (re_alloc Hin) He) as [Ho' Hsame]; [by eexists|done|].
    split; [done|]. split; [done|]. exists bn, v. by rewrite Hsame.
  - intros Hor. pose proof (in_keys Hin Hor). lia.
Qed.

Lemma full_child h y (keys : list V) (kids : list gtree) : shaped Fanout h (G y keys kids) → length keys = (2 * Fanout - 1)%nat →
  ∃ ka k ks ca cs, keys = ka ++ k :: ks ∧ kids = ca ++ cs ∧ length ka = (Fanout - 1)%nat ∧ length ks = (Fanout - 1)%nat ∧
    match h with O => True | _ => length ca = Fanout end.
Proof.
  intros Hsh Hl. destruct (lookup_lt_is_Some_2 keys (Fanout - 1)) as [k Hk]; [lia|].
  exists (take (Fanout - 1) keys), k, (drop (S (Fanout - 1)) keys), (take Fanout kids), (drop Fanout kids).
  rewrite take_drop_middle, take_drop by done. split; [done|]. split; [done|]. split; [len|]. split; [len|].
  destruct h; [done|]. destruct Hsh as [Hlk _]. cbn [tkids tkeys] in Hlk. len.
Qed.

Section SplitShape.
Context (h x y z : nat) (K1 K2 ka ks : list V) (k : V) (L R ca cs : list gtree).
Notation Y := (G y (ka ++ k :: ks) (ca ++ cs)).
Notation T := (G x (K1 ++ K2) (L ++ Y :: R)).
Notation T' := (G x (K1 ++ k :: K2) (L ++ G y ka ca :: G z ks cs :: R)).
Context (Hsh : shaped Fanout (S h) T) (Hka : length ka = (Fanout - 1)%nat) (Hks : length ks = (Fanout - 1)%nat)
  (Hc : match h with O => True | _ => length ca = Fanout end).

Lemma split_halves : halves h ka ca ∧ halves h ks cs.
Proof.
  destruct Hsh as [_ [_ [[HY _] _]%Forall_cons]%Forall_app]. destruct h as [|h']; cbn in HY; [by apply app_eq_nil in HY|].
  destruct HY as [Hl _]. rewrite !length_app in Hl. simpl in Hl. split; simpl; lia.
Qed.
Lemma split_flat : length L = length K1 → flat (S h) T' = flat (S h) T.
Proof.
  intros HL. destruct split_halves as [Ha Hs]. rewrite !flat_split by done. rewrite (flat_joined h y y z) by done.
  by rewrite <-app_assoc.
Qed.
Lemma split_shaped : shaped Fanout (S h) T'.
Proof.
  pose proof split_halves as [Ha Hs]. destruct Hsh as [Hl [HL [[HY _] HR]%Forall_cons]%Forall_app]. cbn [tkids tkeys] in *.
  split; [cbn [tkids tkeys]; rewrite !length_app in *; simpl in *; lia|]. cbn [tkids]. apply Forall_app. split; [done|].
  constructor; [|constructor; [|done]]; (split; [|unfold bounded; cbn [tkeys]; lia]); destruct h as [|h']; try done;
    destruct HY as [_ [Hca Hcs]%Forall_app]; done.
Qed.
End SplitShape.

(** *** The loop *)
Lemma insert_found h par idx anc b x ks cs value j :
  insertable h par idx anc b (G x ks cs) value → fst <$> ks !! j = Some value.1 → (∀ v, v ∈ ks → v ∈ flat h (G x ks cs)) →
  insert_spec 0 h par idx anc b (G x ks cs) value ((x, Z.of_nat j), false) b.
Proof.
  intros Hin Hj Hk. exists (G x ks cs). split; [apply evolves_refl; apply Hin|]. split; [apply Hin|]. split; [lia|]. split; [done|].
  destruct (ks !! j) as [v|] eqn:E; [|done]. exists v. split; [by eapply Hk, list_elem_of_lookup_2|]. split; [by simplify_eq/=|].
  eexists _, j. split; [exact (rep_node _ _ _ _ _ (re_rep Hin))|]. done.
Qed.
Lemma insert_after_split h par idx anc b t value b1 t1 r b' :
  insertable h par idx anc b t value → evolves h par idx anc 0 b t b1 t1 → flat h t1 = flat h t → length (tkeys t1) = S (length (tkeys t)) →
  insert_spec 0 h par idx anc b1 t1 value r b' → insert_spec 1 h par idx anc b t value r b'.
Proof.
  intros Hin He1 Hf Hl (t' & He & Hsh & Hlen & Hr). exists t'. rewrite Hf in Hr. split; [|split; [done|split; [lia|done]]].
  replace (if r.2 then 1 else 0) with (0 + (if r.2 then 1 else 0)) by lia. eapply evolves_trans; [apply Hin|exact He1|exact He].
Qed.

Lemma insert_weaken h par idx anc b t value r b' : insert_spec 0 h par idx anc b t value r b' → insert_spec 1 h par idx anc b t value r b'.
Proof. intros (t' & He & Hs & Hl & Hr). exists t'. split; [done|]. split; [done|]. split; [lia|done]. Qed.

(** The loop is right one level down. *)
Definition goes_on (h fuel : nat) value : Prop := ∀ par idx anc b t,
  insertable h par idx anc b t value → (length (tkeys t) < 2 * Fanout - 1)%nat →
  runs (insert_loop Fanout fuel value (tid t)) (insert_spec 1 h par idx anc b t value) b.

Lemma insert_down h fuel par idx anc b x K1 K2 L c R value :
  goes_on h fuel value → insertable (S h) par idx anc b (G x (K1 ++ K2) (L ++ c :: R)) value →
  length L = length K1 → length R = length K2 → before value.1 K1 → (∀ k, head K2 = Some k → Comp value.1 k.1 = true) →
  (length (tkeys c) < 2 * Fanout - 1)%nat →
  runs (insert_loop Fanout fuel value (tid c)) (insert_spec 0 (S h) par idx anc b (G x (K1 ++ K2) (L ++ c :: R)) value) b.
Proof.
  intros Hgo Hin HL HR HK1 HK2 Hc. destruct (flat_around h x K1 K2 L R value.1 HL HR) as (A & B & Hf & Hab & HLA).
  destruct (Hab c) as [HA HB]; [apply Hin|done|done|].
  eapply runs_mono; [eapply Hgo, Hc; by eapply down_insertable|]. intros r b'. by eapply down_spec.
Qed.

Section Full.
Context (h fuel : nat) (par : option nat) (idx : Z) (anc : list nat) (b : BTree) (x y : nat) (K1 K2 ka ks : list V) (k : V)
  (L R ca cs : list gtree) (value : V).
Notation T := (G x (K1 ++ K2) (L ++ G y (ka ++ k :: ks) (ca ++ cs) :: R)).
Notation T' := (G x (K1 ++ k :: K2) (L ++ G y ka ca :: G (unused b) ks cs :: R)).
Context (Hin : insertable (S h) par idx anc b T value) (Hgo : goes_on h fuel value)
  (HL : length L = length K1) (HR : length R = length K2) (HK1 : before value.1 K1) (HK2 : ∀ k, head K2 = Some k → Comp value.1 k.1 = true)
  (Hka : length ka = (Fanout - 1)%nat) (Hks : length ks = (Fanout - 1)%nat)
  (Hc : match h with O => True | _ => length ca = Fanout end) (Hroom : (length (K1 ++ K2) < 2 * Fanout - 1)%nat).

Lemma insert_full_cases b1 : insertable (S h) par idx anc b1 T' value →
  runs (n ← node x; v ← require (keys_ n !! length L);
        if decide (value.1 = v.1) then mret ((x, Z.of_nat (length L)), false)
        else c ← require (children_ n !! (if Comp v.1 value.1 then S (length L) else length L)); insert_loop Fanout fuel value c)
    (insert_spec 0 (S h) par idx anc b1 T' value) b1.
Proof.
  intros Hin1. pose proof (rep_node _ _ _ _ _ (re_rep Hin1)) as Hn. cbn [tid] in Hn.
  apply runs_bind. eapply runs_read; [exact Hn|].
  cbn [laid keys_ children_ tkeys tkids]. apply runs_bind. eapply runs_require; [by apply lookup_between|].
  destruct (decide (value.1 = k.1)) as [Hk|Hk].
  { apply runs_ret, insert_found; [done|rewrite lookup_between by done; simpl; by rewrite Hk|].
    intros v Hv. apply keys_in_weave; [|done]. rewrite length_fmap. cbn [tkids tkeys]. len. }
  apply runs_bind. destruct (Comp k.1 value.1) eqn:Hlt; (eapply runs_require; [rewrite fmap_app|]).
  - cbn [fmap list_fmap]. apply lookup_next. by rewrite length_fmap.
  - rewrite (cons_middle k K1 K2), (app_assoc K1), (cons_middle _ L), (app_assoc L) in Hin1 |- *.
    apply (insert_down h fuel par idx anc b1 x (K1 ++ [k]) K2 (L ++ [G y ka ca]) (G (unused b) ks cs) R); try done; [len| |cbn [tkeys]; lia].
    apply Forall_app. split; [done|by constructor].
  - cbn [fmap list_fmap]. apply lookup_between. by rewrite length_fmap.
  - apply (insert_down h fuel par idx anc b1 x K1 (k :: K2) L (G y ka ca)); try done; [len| |cbn [tkeys]; lia].
    intros k' [= <-]. destruct (Comp value.1 k.1) eqn:E; [done|]. destruct Hk. by apply comp_total.
Qed.
Lemma insert_full_ok :
  runs (_ ← split_child Fanout y; n ← node x; v ← require (keys_ n !! length L);
        if decide (value.1 = v.1) then mret ((x, Z.of_nat (length L)), false)
        else c ← require (children_ n !! (if Comp v.1 value.1 then S (length L) else length L)); insert_loop Fanout fuel value c)
    (insert_spec 1 (S h) par idx anc b T value) b.
Proof.
  apply runs_bind. eapply runs_mono; [eapply split_child_ok; [done| apply Hin..|exact HL|exact Hka|exact Hks|exact Hc|exact Hroom]|].
  intros [] b1 He. assert (length (tkeys T') = S (length (tkeys T))) as Hlen by (cbn [tkeys]; len).
  pose proof (re_shape Hin) as Hsh. assert (flat (S h) T' = flat (S h) T) as Hfl by by eapply split_flat.
  eapply runs_mono; [apply insert_full_cases|].
  - eapply insertable_evolves; [exact Hin|exact He|by eapply split_shaped|done|]. rewrite Hlen. cbn [tkeys]. lia.
  - intros r b'. by apply insert_after_split.
Qed.
End Full.

Lemma insert_loop_ok h fuel value : (h < fuel)%nat → goes_on h fuel value.
Proof.
  revert fuel. induction h as [|h IH]; intros [|fuel] Hf par idx anc b [x ks cs] Hin Hroom; try lia.
  { pose proof (re_shape Hin) as Hcs. cbn in Hcs. subst cs. by apply insert_at_leaf. }
  pose proof (rep_node _ _ _ _ _ (re_rep Hin)) as Hn. cbn [tid] in *. cbn [insert_loop].
  apply runs_bind. eapply runs_read; [exact Hn|].
  destruct (re_shape Hin) as [Hl Hsh]. cbn [tkids tkeys] in *. set (i := get_lb _ _). cbn [laid keys_ children_ tkeys tkids].
  pose proof (in_sorted Hin) as Hs. destruct (get_lb_split value.1 ks par idx (S h) x cs (sorted_keys _ _ _ _ Hs Hl)) as (Hi & Hb & Ha). fold i in Hi, Hb, Ha.
  case_bool_decide as Hv.
  { apply runs_ret, insert_weaken, insert_found; [done|done|]. intros v Hkv. apply keys_in_weave; [by rewrite length_fmap|done]. }
  rewrite internal_node by done. pose proof (head_after _ _ _ Ha Hv) as Hh.
  destruct (kids_at cs ks i Hl Hi) as (L & c & R & -> & HL & HR & Hc).
  assert (length L = length (take i ks)) as HL' by len. apply runs_bind. eapply runs_require; [by rewrite list_lookup_fmap, Hc|].
  clearbody i. pose proof (take_drop i ks) as Eks. subst i. set (K1 := take _ ks) in *. set (K2 := drop _ ks) in *. clearbody K1 K2. subst ks.
  destruct (down_child _ _ _ _ _ _ _ _ _ _ _ Hin) as (Hrc & Hsc & Hbc).
  apply runs_bind. eapply runs_read; [exact (rep_node _ _ _ _ _ Hrc)|].
  unfold is_full, nkeys. cbn [laid keys_]. destruct (Nat.eqb_spec (length (tkeys c)) (2 * Fanout - 1)) as [Hfull|Hnf].
  - destruct c as [y keys kc]. destruct (full_child h y keys kc Hsc Hfull) as (ka & k & ks' & ca & cs' & -> & -> & Hka & Hks & Hca).
    eapply insert_full_ok; try done; apply IH; lia.
  - eapply runs_mono; [apply insert_down; [apply (IH fuel); lia|exact Hin|done..|unfold bounded in Hbc; lia]|].
    intros r b'. by apply insert_weaken.
Qed.
End Insert.
