(* ===== verification/BTreeErase.v ===== *)
(** Erasing from the B-tree: one step of the loop of erase_lb() at an inner node, which
    makes sure that the child it goes on with can lose a key. *)
From Stdlib Require Import Lia ZifyBool.
From S2P Require Import Prelude BTree BTreeRep BTreeOps BTreePath BTreeSearch BTreeReplace.
From stdpp Require Import list sorting.
Local Open Scope Z_scope.

Section Erase.
Context {K D : Type} `{KeyOrderOk K} `{!Inhabited D} (Fanout : nat) (HF : (2 <= Fanout)%nat).
Notation V := (K * D)%type.
Notation BTree := (@BTree K D).
Notation Node := (@Node K D).
Notation gtree := (@gtree K D).
Notation sorted := (StronglySorted key_lt).
Implicit Types (b : BTree) (t c : gtree) (m : gmap nat Node) (l : list V).

Lemma placed_between key A B l l' : before key A → after key B → placed key [] l l' → placed key [] (A ++ l ++ B) (A ++ l' ++ B).
Proof.
  intros HA HB (A' & o & B' & (-> & HA' & HB' & Ho) & ->). exists (A ++ A'), o, (B' ++ B).
  split; [split; [by rewrite <-!app_assoc|]|by rewrite <-!app_assoc]. split; [by apply Forall_app|]. split; [by apply Forall_app|done].
Qed.
Lemma after_suffix key (B S : list V) : after key (S ++ B) → after key B.
Proof. by intros [_ ?]%Forall_app. Qed.
Lemma before_prefix key (A P : list V) : before key (A ++ P) → before key A.
Proof. by intros [? _]%Forall_app. Qed.

(** *** The child to go on with *)

(** What erasing the key from the child [c] does to the whole, which was [l] before the step. *)
Definition focused (key : K) (h x : nat) (ks : list V) (L : list gtree) c (R : list gtree) l : Prop :=
  sorted (flat h c) ∧ length (flat (S h) (G x ks (L ++ c :: R))) = length l ∧
  ∀ c', placed key [] (flat h c) (flat h c') → placed key [] l (flat (S h) (G x ks (L ++ c' :: R))).
(** The step has led to [c], by merging [e] keys of the node into it. *)
Definition stepped (e : nat) (key : K) (h : nat) (par : option nat) (idx : Z) (anc : list nat) b (x : nat) (ks : list V) (cs : list gtree)
    (b1 : BTree) c : Prop :=
  ∃ ks1 L R, evolves (S h) par idx anc 0 b (G x ks cs) b1 (G x ks1 (L ++ c :: R)) ∧ shaped Fanout (S h) (G x ks1 (L ++ c :: R)) ∧
    length ks = (e + length ks1)%nat ∧ (Fanout <= length (tkeys c) <= 2 * Fanout - 1)%nat ∧ focused key h x ks1 L c R (flat (S h) (G x ks cs)).

Lemma focused_between key h x K1 K2 L c R l : length L = length K1 → sorted l → flat (S h) (G x (K1 ++ K2) (L ++ c :: R)) = l →
  before key (weave (flat h <$> L) K1) → after key (rest h R K2) → focused key h x (K1 ++ K2) L c R l.
Proof.
  intros HL Hs Hl HA HB. split; [|split; [by rewrite Hl|]].
  - rewrite <-Hl, flat_at in Hs by done. by apply StronglySorted_app in Hs as (_ & _ & (_ & ? & _)%StronglySorted_app).
  - intros c' Hc. rewrite <-Hl, !flat_at by done. by apply placed_between.
Qed.

(** *** Moving pairs between neighbours *)
Lemma rest_cons h R K2 k t : rest h (t :: R) (k :: K2) = k :: flat h t ++ rest h R K2.
Proof. simpl. by destruct K2. Qed.
Lemma weave_pair h (L : list gtree) t K1 k : length L = length K1 → weave (flat h <$> L ++ [t]) (K1 ++ [k]) = weave (flat h <$> L) K1 ++ flat h t ++ [k].
Proof. intros HL. rewrite fmap_app, weave_app by by rewrite length_fmap. done. Qed.
(** The second of two neighbours. *)
Lemma flat_second h x K1 K2 k L R t c : length L = length K1 →
  flat (S h) (G x (K1 ++ k :: K2) (L ++ t :: c :: R)) = (weave (flat h <$> L) K1 ++ flat h t ++ [k]) ++ flat h c ++ rest h R K2.
Proof. intros HL. rewrite flat_at, rest_cons by done. rewrite <-!app_assoc. done. Qed.
Lemma halves_first h s k (ks : list V) cs : shaped Fanout h (G s (k :: ks) cs) → halves h [] (take 1 cs) ∧ halves h ks (drop 1 cs).
Proof. destruct h as [|h]; cbn; [by intros ->|]. intros [Hl _]. destruct cs as [|c cs]; [done|]. simpl in *. split; [done|rewrite drop_0; lia]. Qed.
Lemma halves_last h s k (ks : list V) cs : shaped Fanout h (G s (ks ++ [k]) cs) →
  halves h ks (take (length cs - 1) cs) ∧ halves h [] (drop (length cs - 1) cs).
Proof. destruct h as [|h]; cbn; [by intros ->|]. rewrite length_app. intros [Hl _]. simpl in Hl. split; rewrite ?length_take, ?length_drop; lia. Qed.


Lemma halves_join h (ka kb : list V) k ca cb : halves h ka ca → halves h kb cb → halves h (ka ++ k :: kb) (ca ++ cb).
Proof. destruct h; simpl; [by intros -> ->|]. rewrite !length_app. simpl. lia. Qed.
Definition fit (h : nat) (cs : list gtree) : Prop := match h with O => True | S h => Forall (λ c, shaped Fanout h c ∧ bounded Fanout c) cs end.
Lemma shaped_iff h a (ks : list V) cs : shaped Fanout h (G a ks cs) ↔ halves h ks cs ∧ fit h cs.
Proof. destruct h; simpl; tauto. Qed.
Lemma fit_app h cs cs' : fit h (cs ++ cs') ↔ fit h cs ∧ fit h cs'.
Proof. destruct h; simpl; [tauto|apply Forall_app]. Qed.
Lemma fit_cut h n cs : fit h cs → fit h (take n cs) ∧ fit h (drop n cs).
Proof. rewrite <-(take_drop n cs) at 1. by rewrite fit_app. Qed.

(** What the steps share: the node, its child [c] with the fewest keys, and where the key is. *)
Section Steps.
Context (key : K) (h : nat) (par : option nat) (idx : Z) (anc : list nat) (b : BTree) (x : nat).
Lemma step_left_rotate K1 K2 k a ka ca s k' ks cs L R :
  reached Fanout (S h) par idx anc b (G x (K1 ++ k :: K2) (L ++ G a ka ca :: G s (k' :: ks) cs :: R)) →
  sorted (flat (S h) (G x (K1 ++ k :: K2) (L ++ G a ka ca :: G s (k' :: ks) cs :: R))) → length L = length K1 →
  before key (weave (flat h <$> L) K1) → after key (rest h (G s (k' :: ks) cs :: R) (k :: K2)) →
  length ka = (Fanout - 1)%nat → (Fanout <= length (k' :: ks))%nat →
  runs (left_rotate Fanout a) (λ _ b1, stepped 0 key h par idx anc b x (K1 ++ k :: K2) (L ++ G a ka ca :: G s (k' :: ks) cs :: R)
    b1 (G a (ka ++ [k]) (ca ++ take 1 cs))) b.
Proof.
  intros Hre Hso HL HA HB Hka Hks. destruct (re_shape Hre) as [Hl Hsh]. cbn [tkids tkeys] in Hl, Hsh.
  pose proof Hsh as [HshL [[[Hca Hfa]%shaped_iff Hba] [[Hss Hbs] HshR]%Forall_cons]%Forall_cons]%Forall_app.
  destruct (halves_first _ _ _ _ _ Hss) as [Hc1 Hc2]. apply shaped_iff in Hss as [Hcs Hfs]. destruct (fit_cut h 1 cs Hfs) as [Hf1 Hf2].
  eapply runs_mono; [apply (left_rotate_ok Fanout x a s h b par idx anc); [apply Hre|apply Hre|apply Hre|done|done|lia]|].
  intros [] b1 He. exists (K1 ++ k' :: K2), L, (G s ks (drop 1 cs) :: R). split; [exact He|].
  assert (flat h (G a (ka ++ [k]) (ca ++ take 1 cs)) = flat h (G a ka ca) ++ k :: flat h (G 0%nat [] (take 1 cs))) as E1 by by apply flat_joined.
  assert (flat h (G s (k' :: ks) cs) = flat h (G 0%nat [] (take 1 cs)) ++ k' :: flat h (G s ks (drop 1 cs))) as E2.
  { rewrite <-(take_drop 1 cs) at 1. by apply (flat_joined h s 0%nat s []). }
  split; [|split; [len|split; [cbn [tkeys]; simpl in *; len|]]].
  - split; [cbn [tkids tkeys]; rewrite !length_app in *; simpl in *; lia|]. cbn [tkids]. apply Forall_app. split; [done|].
    constructor; [|constructor; [|done]]; (split; [apply shaped_iff|unfold bounded in *; cbn [tkeys] in *; simpl in *; len]).
    + split; [by apply halves_join|by apply fit_app].
    + done.
  - apply focused_between; [done|done| |done|].
    + rewrite !flat_at by done. rewrite !rest_cons, E1, E2, <-!app_assoc. done.
    + rewrite rest_cons in *. apply (after_suffix key _ (k :: flat h (G 0%nat [] (take 1 cs)))). rewrite E2 in HB.
      by rewrite <-app_assoc in HB.
Qed.
Lemma step_right_rotate K1 K2 k a ka ca s k' ks cs L R :
  reached Fanout (S h) par idx anc b (G x (K1 ++ k :: K2) (L ++ G s (ks ++ [k']) cs :: G a ka ca :: R)) →
  sorted (flat (S h) (G x (K1 ++ k :: K2) (L ++ G s (ks ++ [k']) cs :: G a ka ca :: R))) → length L = length K1 →
  before key (weave (flat h <$> L ++ [G s (ks ++ [k']) cs]) (K1 ++ [k])) → after key (rest h R K2) →
  length ka = (Fanout - 1)%nat → (Fanout <= length (ks ++ [k']))%nat →
  runs (right_rotate Fanout a) (λ _ b1, stepped 0 key h par idx anc b x (K1 ++ k :: K2) (L ++ G s (ks ++ [k']) cs :: G a ka ca :: R)
    b1 (G a (k :: ka) (drop (length cs - 1) cs ++ ca))) b.
Proof.
  intros Hre Hso HL HA HB Hka Hks. destruct (re_shape Hre) as [Hl Hsh]. cbn [tkids tkeys] in Hl, Hsh.
  pose proof Hsh as [HshL [[Hss Hbs] [[[Hca Hfa]%shaped_iff Hba] HshR]%Forall_cons]%Forall_cons]%Forall_app.
  destruct (halves_last _ _ _ _ _ Hss) as [Hc1 Hc2]. apply shaped_iff in Hss as [Hcs Hfs]. destruct (fit_cut h (length cs - 1) cs Hfs) as [Hf1 Hf2].
  eapply runs_mono; [apply (right_rotate_ok Fanout x a s h b par idx anc); [apply Hre|apply Hre|apply Hre|done|done|lia]|].
  intros [] b1 He. set (C1 := take _ cs) in *. set (C2 := drop _ cs) in *. exists (K1 ++ k' :: K2), (L ++ [G s ks C1]), R. rewrite <-app_assoc. split; [exact He|].
  assert (flat h (G a (k :: ka) (C2 ++ ca)) = flat h (G 0%nat [] C2) ++ k :: flat h (G a ka ca)) as E1 by by apply (flat_joined h a 0%nat a []).
  assert (flat h (G s (ks ++ [k']) cs) = flat h (G s ks C1) ++ k' :: flat h (G 0%nat [] C2)) as E2.
  { rewrite <-(take_drop (length cs - 1) cs). by apply (flat_joined h s s 0%nat ks). }
  split; [|split; [len|split; [cbn [tkeys]; simpl in *; len|]]].
  - split; [cbn [tkids tkeys]; rewrite !length_app in *; simpl in *; lia|]. cbn [tkids]. apply Forall_app. split; [done|].
    constructor; [|constructor; [|done]]; (split; [apply shaped_iff|unfold bounded in *; cbn [tkeys] in *; simpl in *; len]).
    + done.
    + split; [by apply (halves_join h [])|by apply fit_app].
  - rewrite (cons_middle k'), app_assoc. apply focused_between; [len|done| | |done].
    + rewrite <-!app_assoc. cbn [app]. rewrite !flat_second by done. rewrite E1, E2, <-!app_assoc. done.
    + rewrite weave_pair in * by done. rewrite E2 in HA. eapply (before_prefix key _ (flat h (G 0%nat [] C2) ++ [k])).
      rewrite <-!app_assoc in *. done.
Qed.
Lemma step_merge K1 K2 k a ka ca s ks cs L R :
  reached Fanout (S h) par idx anc b (G x (K1 ++ k :: K2) (L ++ G a ka ca :: G s ks cs :: R)) → length L = length K1 →
  length ka = (Fanout - 1)%nat → length ks = (Fanout - 1)%nat →
  focused key h x (K1 ++ K2) L (G a (ka ++ k :: ks) (ca ++ cs)) R (flat (S h) (G x (K1 ++ k :: K2) (L ++ G a ka ca :: G s ks cs :: R))) →
  runs (merge_child Fanout a) (λ _ b1, stepped 1 key h par idx anc b x (K1 ++ k :: K2) (L ++ G a ka ca :: G s ks cs :: R)
    b1 (G a (ka ++ k :: ks) (ca ++ cs))) b.
Proof.
  intros Hre HL Hka Hks Hf. destruct (re_shape Hre) as [Hl Hsh]. cbn [tkids tkeys] in Hl, Hsh.
  apply Forall_app in Hsh as [HshL [[[Hca Hfa]%shaped_iff _] [[[Hcs Hfs]%shaped_iff _] HshR]%Forall_cons]%Forall_cons].
  eapply runs_mono; [apply (merge_child_ok Fanout x a s h b par idx anc); [apply Hre|apply Hre|apply Hre|done|lia|done]|].
  intros [] b1 He. exists (K1 ++ K2), L, R. split; [exact He|]. split; [|split; [len|split; [cbn [tkeys]; len|done]]].
  split; [cbn [tkids tkeys]; rewrite !length_app in *; simpl in *; lia|]. cbn [tkids]. apply Forall_app. split; [done|].
  constructor; [|done]. split; [apply shaped_iff; split; [by apply halves_join|by apply fit_app]|unfold bounded; cbn [tkeys]; len].
Qed.
Lemma flat_merged (K1 K2 ka ks : list V) k a ca s cs L R : shaped Fanout (S h) (G x (K1 ++ k :: K2) (L ++ G a ka ca :: G s ks cs :: R)) → length L = length K1 →
  flat (S h) (G x (K1 ++ K2) (L ++ G a (ka ++ k :: ks) (ca ++ cs) :: R)) = flat (S h) (G x (K1 ++ k :: K2) (L ++ G a ka ca :: G s ks cs :: R)).
Proof.
  intros [_ [_ [[[Hca _]%shaped_iff _] [[[Hcs _]%shaped_iff _] _]%Forall_cons]%Forall_cons]%Forall_app] HL.
  rewrite !flat_at by done. rewrite rest_cons, (flat_joined h a a s) by done. by rewrite <-app_assoc.
Qed.
End Steps.

(** *** A child with minimal keys *)
Section Replenish.
Context (key : K) (h : nat) (par : option nat) (idx : Z) (anc : list nat) (b : BTree) (x : nat) (K1 K2 : list V) (L R : list gtree) (c : gtree).
Notation T := (G x (K1 ++ K2) (L ++ c :: R)).
Notation xn := (laid (S h) par idx T).
Context (Hre : reached Fanout (S h) par idx anc b T) (Hso : sorted (flat (S h) T)) (HL : length L = length K1) (HR : length R = length K2)
  (HA : before key (weave (flat h <$> L) K1)) (HB : after key (rest h R K2)) (Hc : length (tkeys c) = (Fanout - 1)%nat)
  (Hk : (0 < length (K1 ++ K2))%nat).

Lemma neighbour_node i t : (L ++ c :: R) !! i = Some t → ∃ j, nodes b !! tid t = Some (laid h (Some x) j t) ∧ shaped Fanout h t ∧ bounded Fanout t.
Proof.
  intros Ht. pose proof (re_rep Hre) as [_ Hr]%rep_S. destruct (re_shape Hre) as [_ Hs]. cbn [tid tkids] in *.
  apply take_drop_middle in Ht. rewrite <-Ht in Hr, Hs. apply eachi_app in Hr as [_ [Hr _]].
  apply Forall_app in Hs as [_ [[? ?] _]%Forall_cons]. eexists. split; [exact (rep_node _ _ _ _ _ Hr)|done].
Qed.
Lemma right_neighbour (Q : bool → BTree → Prop) :
  Q (match R with [] => false | t :: _ => (Fanout - 1 <? length (tkeys t))%nat end) b →
  runs (match children_ xn !! S (length L) with Some s => sn ← node s; mret (can_take_key Fanout sn) | None => mret false end) Q b.
Proof.
  intros HQ. pose proof neighbour_node as HN. cbn [laid children_ tkids]. rewrite list_lookup_fmap. destruct R as [|t R'].
  - rewrite lookup_ge_None_2 by len. by apply runs_ret.
  - destruct (HN (S (length L)) t) as (j & Hn & _); [by apply lookup_next|]. rewrite lookup_next by done. cbn [fmap option_fmap option_map].
    apply runs_bind. eapply runs_read; [exact Hn|]. by apply runs_ret.
Qed.
Lemma left_neighbour (Q : bool → BTree → Prop) :
  Q (match last L with None => false | Some t => (Fanout - 1 <? length (tkeys t))%nat end) b →
  runs (if (1 <=? length L)%nat then s ← require (children_ xn !! (length L - 1)%nat); sn ← node s; mret (can_take_key Fanout sn)
        else mret false) Q b.
Proof.
  intros HQ. pose proof neighbour_node as HN. cbn [laid children_ tkids]. destruct L as [|t L' _] using rev_ind; [by apply runs_ret|]. rewrite last_snoc in HQ.
  rewrite !length_app, Nat.add_sub, (proj2 (Nat.leb_le _ _)) by (simpl; lia).
  assert (((L' ++ [t]) ++ c :: R) !! length L' = Some t) as Ht by (rewrite <-app_assoc; by apply lookup_between).
  destruct (HN _ t Ht) as (j & Hn & _). apply runs_bind. eapply runs_require; [by rewrite list_lookup_fmap, Ht|].
  apply runs_bind. eapply runs_read; [exact Hn|]. by apply runs_ret.
Qed.

Definition steps_to (e : nat) (next : nat) (b1 : BTree) : Prop :=
  ∃ c1, tid c1 = next ∧ stepped e key h par idx anc b x (K1 ++ K2) (L ++ c :: R) b1 c1.
Lemma to_left_rotate s R' : R = s :: R' → (Fanout <= length (tkeys s))%nat → runs (left_rotate Fanout (tid c)) (λ _ b1, steps_to 0 (tid c) b1) b.
Proof.
  unfold steps_to. intros -> Hs. destruct K2 as [|k K2']; [done|]. destruct c as [a ka ca], s as [s [|k' ks] cs]; cbn [tkeys tid] in *; [simpl in Hs; lia|].
  eapply runs_mono; [eapply (step_left_rotate key); try done|]. intros [] b1 Hst. eexists. by split; [|exact Hst].
Qed.
Lemma to_right_rotate s L' : L = L' ++ [s] → (Fanout <= length (tkeys s))%nat → runs (right_rotate Fanout (tid c)) (λ _ b1, steps_to 0 (tid c) b1) b.
Proof.
  unfold steps_to. intros -> Hs. destruct K1 as [|k K1' _] using rev_ind; [by rewrite length_app in HL; simpl in HL; lia|].
  rewrite !length_app in HL. simpl in HL. destruct c as [a ka ca], s as [s sks cs]. cbn [tkeys tid] in *.
  destruct sks as [|k' ks _] using rev_ind; [simpl in Hs; lia|]. rewrite <-!app_assoc in *. cbn [app] in *.
  eapply runs_mono; [eapply (step_right_rotate key); try done; lia|]. intros [] b1 Hst. eexists. by split; [|exact Hst].
Qed.
Lemma to_merge_right s R' : R = s :: R' → length (tkeys s) = (Fanout - 1)%nat → runs (merge_child Fanout (tid c)) (λ _ b1, steps_to 1 (tid c) b1) b.
Proof.
  unfold steps_to. intros -> Hs. destruct K2 as [|k K2']; [done|]. destruct c as [a ka ca], s as [s ks cs]; cbn [tkeys tid] in *.
  eapply runs_mono; [eapply (step_merge key); try done; apply focused_between; try done|].
  - apply flat_merged; [apply Hre|done].
  - rewrite rest_cons in HB. by eapply (after_suffix key _ (k :: _)).
  - intros [] b1 Hst. eexists. by split; [|exact Hst].
Qed.
Lemma to_merge_left s L' : L = L' ++ [s] → length (tkeys s) = (Fanout - 1)%nat → runs (merge_child Fanout (tid s)) (λ _ b1, steps_to 1 (tid s) b1) b.
Proof.
  unfold steps_to. intros -> Hs. destruct K1 as [|k K1' _] using rev_ind; [by rewrite length_app in HL; simpl in HL; lia|].
  rewrite !length_app in HL. simpl in HL. assert (length L' = length K1') as HL' by lia. rewrite weave_pair in HA by done.
  destruct c as [a ka ca], s as [s ks cs]. cbn [tkeys tid] in *. rewrite <-!app_assoc in *. cbn [app] in *.
  eapply runs_mono; [eapply (step_merge key); try done; apply focused_between; try done|].
  - apply flat_merged; [apply Hre|done].
  - by apply before_prefix in HA.
  - intros [] b1 Hst. eexists. by split; [|exact Hst].
Qed.

(** replenish() as a whole: it goes on with a child that can lose a key, after a merge
    once the root has been looked at. *)
Lemma replenish_ok (Q : nat → BTree → Prop) :
  (∀ b1 next, steps_to 0 next b1 → Q next b1) →
  (∀ b1 next, steps_to 1 next b1 → runs promote_root_if_necessary (λ _ b2, Q next b2) b1) →
  runs (replenish Fanout xn (length L) (tid c)) Q b.
Proof.
  intros HQ0 HQ1. pose proof to_left_rotate as Hlr. pose proof to_right_rotate as Hrr. pose proof to_merge_right as Hmr. pose proof to_merge_left as Hml.
  pose proof neighbour_node as HN. apply runs_bind, right_neighbour. destruct (match R with [] => false | t :: _ => _ end) eqn:Er.
  { destruct R as [|s R']; [done|]. apply Nat.ltb_lt in Er. apply runs_bind. eapply runs_mono; [by apply (Hlr s R'); [|lia]|].
    intros [] b1 Hst. by apply runs_ret, HQ0. }
  apply runs_bind, left_neighbour. destruct (match last L with None => false | Some t => _ end) eqn:El.
  { destruct L as [|s L' _] using rev_ind; [done|]. rewrite last_snoc in El. apply Nat.ltb_lt in El. apply runs_bind.
    eapply runs_mono; [by apply (Hrr s L'); [|lia]|]. intros [] b1 Hst. by apply runs_ret, HQ0. }
  cbn [laid children_ tkids]. rewrite length_fmap, length_app. cbn [length]. destruct R as [|s R'].
  - rewrite (proj2 (Nat.ltb_ge _ _)) by (simpl; lia). destruct L as [|s L' _] using rev_ind.
    { rewrite length_app in Hk. simpl in *. lia. }
    rewrite last_snoc in El. apply Nat.ltb_ge in El. assert (((L' ++ [s]) ++ [c]) !! length L' = Some s) as Hs by (rewrite <-app_assoc; by apply lookup_between).
    destruct (HN _ s Hs) as (j & Hn & _ & Hb). rewrite length_app, Nat.add_sub, (proj2 (Nat.leb_le _ _)) by (simpl; lia).
    apply runs_bind. eapply runs_require; [by rewrite list_lookup_fmap, Hs|]. apply runs_bind.
    eapply runs_mono; [apply (Hml s L'); [done|unfold bounded in Hb; lia]|]. intros [] b1 Hst. apply runs_bind.
    eapply runs_mono; [by apply HQ1|]. intros [] b2 HQ. by apply runs_ret.
  - rewrite (proj2 (Nat.ltb_lt _ _)) by (simpl; lia). apply Nat.ltb_ge in Er.
    destruct (HN (S (length L)) s) as (j & Hn & _ & Hb); [by apply lookup_next|]. apply runs_bind.
    eapply runs_mono; [apply (Hmr s R'); [done|unfold bounded in Hb; lia]|]. intros [] b1 Hst. apply runs_bind.
    eapply runs_mono; [by apply HQ1|]. intros [] b2 HQ. by apply runs_ret.
Qed.
End Replenish.
End Erase.
