(* ===== verification/BTreeSwap.v ===== *)
(** Erasing from the B-tree: a key of an inner node trades places with its predecessor or
    its successor, which are in leaves. *)
From Stdlib Require Import Lia ZifyBool.
From S2P Require Import Prelude BTree BTreeRep BTreeOps BTreePath BTreeSearch BTreeReplace BTreeErase.
From stdpp Require Import list sorting.
Local Open Scope Z_scope.

Section Swap.
Context {K D : Type} `{KeyOrderOk K} `{!Inhabited D} (Fanout : nat) (HF : (2 <= Fanout)%nat).
Notation V := (K * D)%type.
Notation BTree := (@BTree K D).
Notation Node := (@Node K D).
Notation gtree := (@gtree K D).
Notation sorted := (StronglySorted key_lt).
Implicit Types (b : BTree) (t c : gtree) (m : gmap nat Node) (l : list V).

(** *** The ends of a subtree *)
Lemma leaf_is_leaf par idx x (ks : list V) : is_leaf (laid 0 par idx (G x ks [])) = true.
Proof. by apply bool_decide_eq_true. Qed.
Lemma rightmost_leaf_ok h fuel b par idx t : rep h (nodes b) par idx t → shaped Fanout h t → (0 < length (tkeys t))%nat → (h < fuel)%nat →
  runs (rightmost_leaf fuel (tid t)) (λ p b', b' = b ∧ p ∈ ids h t ∧
    ∃ n (A : list V) v, nodes b !! p = Some n ∧ nkeys n = S (length A) ∧ keys_ n !! length A = Some v ∧ ∃ A', flat h t = A' ++ [v]) b.
Proof.
  revert fuel par idx t. induction h as [|h IH]; intros [|fuel] par idx [x ks cs] Hr Hsh Hk Hf; try lia; cbn [rightmost_leaf tid];
    pose proof (rep_node _ _ _ _ _ Hr) as Hn; cbn [tid tkeys] in Hn, Hk; apply runs_bind; (eapply runs_read; [exact Hn|]).
  - cbn in Hsh. subst cs. rewrite leaf_is_leaf. apply runs_ret. split; [done|]. split; [left|].
    destruct ks as [|v A _] using rev_ind; [simpl in Hk; lia|]. eexists _, A, v. split; [exact Hn|].
    unfold nkeys. cbn [laid keys_ tkeys]. split; [len|]. split; [by apply lookup_between|]. by exists A.
  - destruct Hsh as [Hl Hs]. cbn [tkids tkeys] in Hl, Hs. rewrite internal_node by done. cbn [laid children_ tkids].
    destruct cs as [|c L _] using rev_ind; [done|]. rewrite fmap_app. cbn [fmap list_fmap]. rewrite last_snoc. apply runs_bind. eapply runs_require; [done|].
    apply rep_S in Hr as [_ Hr]. cbn [tid tkids] in Hr. apply eachi_app in Hr as [_ [Hr _]].
    apply Forall_app in Hs as [_ [[Hsc Hbc] _]%Forall_cons]. unfold bounded in Hbc.
    eapply runs_mono; [eapply IH; [exact Hr|done|lia|lia]|]. intros p b' (-> & Hp & n & A & v & ? & ? & ? & A' & Hfl).
    split; [done|]. split; [eapply elem_of_kids, Hp; apply elem_of_app; right; left|]. exists n, A, v. do 3 (split; [done|]).
    rewrite flat_node, fmap_app, length_app in *. simpl in Hl. cbn [fmap list_fmap]. rewrite weave_snoc by (rewrite length_fmap; lia).
    rewrite Hfl. eexists. by rewrite app_assoc.
Qed.
Lemma leftmost_leaf_ok h fuel b par idx t : rep h (nodes b) par idx t → shaped Fanout h t → (0 < length (tkeys t))%nat → (h < fuel)%nat →
  runs (leftmost_leaf fuel (tid t)) (λ p b', b' = b ∧ p ∈ ids h t ∧
    ∃ n v, nodes b !! p = Some n ∧ keys_ n !! 0%nat = Some v ∧ ∃ A', flat h t = v :: A') b.
Proof.
  revert fuel par idx t. induction h as [|h IH]; intros [|fuel] par idx [x ks cs] Hr Hsh Hk Hf; try lia; cbn [leftmost_leaf tid];
    pose proof (rep_node _ _ _ _ _ Hr) as Hn; cbn [tid tkeys] in Hn, Hk; apply runs_bind; (eapply runs_read; [exact Hn|]).
  - cbn in Hsh. subst cs. rewrite leaf_is_leaf. apply runs_ret. split; [done|]. split; [left|].
    destruct ks as [|v A]; [simpl in Hk; lia|]. eexists _, v. split; [exact Hn|]. split; [done|]. by exists A.
  - destruct Hsh as [Hl Hs]. cbn [tkids tkeys] in Hl, Hs. rewrite internal_node by done. cbn [laid children_ tkids].
    destruct cs as [|c R]; [done|]. apply runs_bind. eapply runs_require; [done|].
    apply rep_S in Hr as [_ [Hr _]]. apply Forall_cons in Hs as [[Hsc Hbc] _]. unfold bounded in Hbc. cbn [tid] in *.
    eapply runs_mono; [eapply IH; [exact Hr|done|lia|lia]|]. intros p b' (-> & Hp & n & v & ? & ? & A' & Hfl).
    split; [done|]. split; [eapply elem_of_kids, Hp; left|]. exists n, v. do 2 (split; [done|]).
    rewrite flat_node. simpl. rewrite Hfl. by eexists.
Qed.

(** *** Trading places *)
Lemma sorted_sublist l l' : sublist l' l → sorted l → sorted l'.
Proof.
  induction 1 as [|v l' l Hl IH|v l' l Hl IH]; [done| |].
  - intros [Hv Hs]%StronglySorted_cons. apply StronglySorted_cons. split; [|by apply IH].
    apply Forall_forall. intros w Hw. apply (proj1 (Forall_forall _ _) Hv). by eapply elem_of_submseteq, sublist_submseteq.
  - intros [_ Hs]%StronglySorted_cons. by apply IH.
Qed.
Section Trade.
Context (key : K) (h : nat) (par : option nat) (idx : Z) (anc : list nat) (b : BTree) (x : nat) (K1 K2 : list V) (v : V) (L R : list gtree) (c : gtree).
Notation T := (G x (K1 ++ v :: K2) (L ++ c :: R)).
Context (Hre : reached Fanout (S h) par idx anc b T) (Hso : sorted (flat (S h) T)) (Hv : v.1 = key).

Lemma trade_child : rep h (nodes b) (Some x) (Z.of_nat (length L)) c ∧ shaped Fanout h c ∧ bounded Fanout c ∧ NoDup (ids h c) ∧ x ∉ ids h c ∧
  nodes b !! x = Some (laid (S h) par idx T) ∧ (length L + length R = length (K1 ++ v :: K2))%nat.
Proof.
  pose proof (rep_node _ _ _ _ _ (re_rep Hre)) as Hn. pose proof (re_rep Hre) as [_ Hk]%rep_S. cbn [tid tkids] in *. apply eachi_app in Hk as [_ [Hk _]].
  destruct (re_shape Hre) as [Hl [_ [[? ?] _]%Forall_cons]%Forall_app]. pose proof (re_nodup Hre) as Hnd. rewrite ids_split in Hnd.
  apply NoDup_cons in Hnd as [Hx (_ & _ & (? & _ & _)%NoDup_app)%NoDup_app]. rewrite !elem_of_app in Hx.
  cbn [tkids tkeys] in Hl. rewrite length_app in Hl. simpl in Hl. repeat (split; [tauto || done|]). lia.
Qed.
Lemma trade_ok p n j w : p ∈ ids h c → nodes b !! p = Some n → keys_ n !! j = Some w →
  runs (iter_swap Fanout (p, Z.of_nat j) (x, Z.of_nat (length K1))) (λ _ b1, ∃ c', replaced Fanout h (nodes b) (Some x) (Z.of_nat (length L)) c p j w v c' ∧
    evolves (S h) par idx anc 0 b T b1 (G x (K1 ++ w :: K2) (L ++ c' :: R)) ∧ shaped Fanout (S h) (G x (K1 ++ w :: K2) (L ++ c' :: R))) b.
Proof.
  intros Hp Hn Hj. destruct trade_child as (Hrc & Hsc & Hbc & Hndc & Hxc & Hnx & Hl).
  destruct (replaced_ok Fanout h (nodes b) _ _ c p n j w v Hrc Hndc Hsc Hp Hn Hj) as (c' & Hc').
  pose proof (replaced_child Fanout h (nodes b) par idx x _ L c R p j w v c' (re_rep Hre) (re_nodup Hre) Hp ltac:(lia) Hc') as HT.
  pose proof (replaced_evolves Fanout (S h) b par idx anc T p j w v _ (re_rep Hre) (re_nodup Hre) (elem_of_kids h c T ltac:(cbn [tkids]; apply elem_of_app; right; left) p Hp) HT) as He1.
  pose proof (rp_shape _ _ _ _ _ _ _ _ _ _ _ HT (re_shape Hre)) as Hsh1. set (b1 := set_nodes _ b) in He1.
  pose proof (ev_rep He1) as Hr1. pose proof (rep_node _ _ _ _ _ Hr1) as Hn1. cbn [tid] in Hn1.
  assert ((K1 ++ v :: K2) !! length K1 = Some v) as Hv1 by by apply lookup_between.
  pose proof (replaced_here Fanout (S h) (nodes b1) par idx x _ _ _ _ w Hr1 (ev_nodup He1) Hsh1 Hv1) as HT2. rewrite insert_app_mid in HT2.
  pose proof (replaced_evolves Fanout (S h) b1 par idx anc _ x _ _ _ _ Hr1 (ev_nodup He1) (ids_head (S h) (G x _ _)) HT2) as He2.
  pose proof (node_room Fanout (S h) (nodes b) par idx T p n (re_rep Hre) (re_shape Hre) (re_room Hre) (elem_of_kids h c T ltac:(cbn [tkids]; apply elem_of_app; right; left) p Hp) Hn) as Hroom.
  apply runs_bind, runs_bind. eapply runs_read; [exact Hn|]. eapply runs_require; [cbn [snd]; by rewrite at_of|].
  apply runs_bind, runs_bind. eapply runs_read; [exact Hnx|]. eapply runs_require; [cbn [snd]; rewrite at_of; exact Hv1|]. cbn [fst snd].
  apply runs_bind. eapply runs_read; [exact Hn|]. rewrite !Nat2Z.id. apply runs_bind. rewrite <-(set_nodes_id b) at 1. apply runs_replace; [exact Hn|lia|].
  fold b1. apply runs_bind. eapply runs_read; [exact Hn1|]. rewrite <-(set_nodes_id b1). apply runs_replace; [exact Hn1| |].
  { cbn [laid keys_ tkeys]. pose proof (re_room Hre) as Hx. cbn [tkeys] in Hx. lia. }
  exists c'. split; [done|]. split; [|by eapply rp_shape].
  change 0 with (0 + 0). eapply evolves_trans; [apply Hre|exact He1|exact He2].
Qed.

Definition trades_to (next : nat) (b1 : BTree) : Prop :=
  ∃ c1, tid c1 = next ∧ stepped Fanout 0 key h par idx anc b x (K1 ++ v :: K2) (L ++ c :: R) b1 c1.
Lemma trade_stepped b1 c' p j w : (Fanout <= length (tkeys c))%nat → replaced Fanout h (nodes b) (Some x) (Z.of_nat (length L)) c p j w v c' →
  evolves (S h) par idx anc 0 b T b1 (G x (K1 ++ w :: K2) (L ++ c' :: R)) → shaped Fanout (S h) (G x (K1 ++ w :: K2) (L ++ c' :: R)) →
  focused key h x (K1 ++ w :: K2) L c' R (flat (S h) T) → trades_to (tid c) b1.
Proof.
  intros Hc Hre' He Hsh Hf. destruct trade_child as (_ & _ & Hbc & _). exists c'. split; [by eapply rp_id|]. exists (K1 ++ w :: K2), L, R.
  split; [done|]. split; [done|]. split; [len|]. split; [|done]. rewrite (rp_len _ _ _ _ _ _ _ _ _ _ _ Hre'). unfold bounded in Hbc. lia.
Qed.
Lemma trade_length w c' (A B : list V) : flat h c = A ++ w :: B → flat h c' = A ++ v :: B →
  length (flat (S h) (G x (K1 ++ w :: K2) (L ++ c' :: R))) = length (flat (S h) T).
Proof.
  intros E E'. rewrite !flat_node, !length_weave, !fmap_app, !fmap_cons, !concat_app. cbn [concat]. rewrite E, E'. rewrite !length_app. simpl. lia.
Qed.

Lemma trade_assert leaf p it (Q : unit → BTree → Prop) : it.1 = p → leaf (S (S (S h + length anc))) (tid c) b = Ok p b →
  Q tt b → runs (assert_at leaf (tid c) it) Q b.
Proof.
  intros Hit E HQ. destruct trade_child as (_ & _ & _ & _ & _ & Hnx & _). apply runs_bind. rewrite <-(set_nodes_id b) at 1.
  eapply (runs_rounds _ (S h) x); [exact Hnx|done|exact (re_climbs Hre)|]. rewrite set_nodes_id. apply runs_bind. exists p, b. split; [exact E|].
  apply runs_assert; [by apply bool_decide_eq_true|done].
Qed.
(** The predecessor, from the child before the key. *)
Lemma trade_pred {A} (k : M BTree A) (Q : A → BTree → Prop) : length L = length K1 → (Fanout <= length (tkeys c))%nat →
  (∀ b1, trades_to (tid c) b1 → runs k Q b1) →
  runs (pred ← decrement (x, Z.of_nat (length K1)); _ ← assert_at rightmost_leaf (tid c) pred;
        _ ← iter_swap Fanout pred (x, Z.of_nat (length K1)); k) Q b.
Proof.
  intros HL Hc HQ. destruct trade_child as (Hrc & Hsc & Hbc & Hndc & Hxc & Hnx & Hl). apply runs_bind, runs_bind. rewrite <-(set_nodes_id b) at 1.
  eapply (runs_rounds _ (S h) x); [exact Hnx|done|exact (re_climbs Hre)|]. rewrite set_nodes_id. apply runs_bind. eapply runs_read; [exact Hnx|].
  rewrite internal_node by (cbn [length]; rewrite length_app; simpl; lia). cbn [negb laid children_ tkids fst snd]. apply runs_bind.
  eapply runs_require; [rewrite at_of, list_lookup_fmap, lookup_between by done; done|]. apply runs_bind.
  destruct (rightmost_leaf_ok h (S (S (S h + length anc))) b _ _ c Hrc Hsc) as (p & b' & E & -> & Hp & n & A0 & w & Hn & Hnk & Hw & A' & Hfl); [lia|lia|].
  exists p, b. split; [exact E|]. apply runs_bind. eapply runs_read; [exact Hn|]. apply runs_ret. rewrite Hnk.
  replace (Z.of_nat (S (length A0)) - 1) with (Z.of_nat (length A0)) by lia. apply runs_bind, (trade_assert _ p); [done|exact E|].
  apply runs_bind. eapply runs_mono; [by eapply trade_ok|]. intros [] b1 (c' & Hc' & He & Hsh). apply HQ. eapply trade_stepped; [done|exact Hc'|exact He|exact Hsh|].
  destruct (rp_flat _ _ _ _ _ _ _ _ _ _ _ Hc') as (A1 & B1 & E1 & E1'). pose proof Hso as Hso'. rewrite flat_at in Hso' by done.
  pose proof Hso' as (_ & _ & (_ & Hsc' & _)%StronglySorted_app)%StronglySorted_app. rewrite E1 in Hsc', Hfl.
  destruct (sorted_unique _ _ _ _ _ _ Hsc' Hfl eq_refl) as (-> & _ & ->).
  assert (flat (S h) T = (weave (flat h <$> L) K1 ++ A' ++ [w]) ++ v :: weave (flat h <$> R) K2) as EF by by rewrite flat_at, E1, <-!app_assoc by done.
  assert (sorted (A' ++ [v])) as Hs'.
  { eapply sorted_sublist, Hso. rewrite EF, <-!app_assoc. apply sublist_inserts_l, sublist_app; [done|]. apply sublist_cons, sublist_skip, sublist_nil_l. }
  split; [by rewrite E1'|split; [by eapply trade_length|]]. rewrite E1'. intros c2 Hc2. apply placed_found in Hc2; [|done|done].
  rewrite EF in *. pose proof (sorted_cut _ _ _ Hso) as [HA HB]. rewrite Hv in HA, HB.
  eexists _, [v], _. split; [split; [reflexivity|]; do 2 (split; [done|]); by intros u ->%list_elem_of_singleton|].
  rewrite flat_at, Hc2 by done. cbn [rest]. rewrite app_nil_r, <-!app_assoc. done.
Qed.
(** The successor, from the child after the key. *)
Lemma trade_succ {A} L' d (k : M BTree A) (Q : A → BTree → Prop) : L = L' ++ [d] → length L' = length K1 → (Fanout <= length (tkeys c))%nat →
  (∀ b1, trades_to (tid c) b1 → runs k Q b1) →
  runs (succ ← increment (x, Z.of_nat (length K1)); _ ← assert_at leftmost_leaf (tid c) succ;
        _ ← iter_swap Fanout succ (x, Z.of_nat (length K1)); k) Q b.
Proof.
  intros EL HL Hc HQ. destruct trade_child as (Hrc & Hsc & Hbc & Hndc & Hxc & Hnx & Hl). apply runs_bind, runs_bind. rewrite <-(set_nodes_id b) at 1.
  eapply (runs_rounds _ (S h) x); [exact Hnx|done|exact (re_climbs Hre)|]. rewrite set_nodes_id. apply runs_bind. eapply runs_read; [exact Hnx|].
  rewrite internal_node by (cbn [length]; rewrite length_app; simpl; lia). cbn [negb laid children_ tkids fst snd]. apply runs_bind.
  assert ((L ++ c :: R) !! S (length K1) = Some c) as Hkc by (apply lookup_between; rewrite EL; len).
  eapply runs_require; [rewrite at_succ, list_lookup_fmap, Hkc; done|]. apply runs_bind.
  destruct (leftmost_leaf_ok h (S (S (S h + length anc))) b _ _ c Hrc Hsc) as (p & b' & E & -> & Hp & n & w & Hn & Hw & A' & Hfl); [lia|lia|].
  exists p, b. split; [exact E|]. apply runs_ret. change 0 with (Z.of_nat 0). apply runs_bind, (trade_assert _ p); [done|exact E|].
  apply runs_bind. eapply runs_mono; [by eapply trade_ok|]. intros [] b1 (c' & Hc' & He & Hsh). apply HQ. eapply trade_stepped; [done|exact Hc'|exact He|exact Hsh|].
  destruct (rp_flat _ _ _ _ _ _ _ _ _ _ _ Hc') as (A1 & B1 & E1 & E1').
  assert (∀ u e, flat (S h) (G x (K1 ++ u :: K2) (L ++ e :: R)) = (weave (flat h <$> L') K1 ++ flat h d) ++ u :: flat h e ++ rest h R K2) as EF.
  { intros u e. rewrite EL, <-app_assoc. cbn [app]. rewrite flat_second by done. rewrite <-!app_assoc. done. }
  pose proof Hso as Hso'. rewrite EF in Hso'. pose proof (sorted_cut _ _ _ Hso') as [HA HB]. rewrite Hv in HA, HB.
  apply StronglySorted_app in Hso' as (_ & _ & [_ Hsc']%StronglySorted_cons). apply StronglySorted_app in Hsc' as (_ & Hsc' & _).
  rewrite E1 in Hsc', Hfl. destruct (sorted_unique _ _ [] _ _ _ Hsc' Hfl eq_refl) as (-> & _ & ->). cbn [app] in *.
  assert (sorted (v :: A')) as Hs'.
  { eapply sorted_sublist, Hso. rewrite EF, E1. apply sublist_inserts_l, sublist_skip, sublist_cons, sublist_inserts_r. done. }
  split; [by rewrite E1'|split; [by eapply (trade_length w c' [])|]]. rewrite E1'. intros c2 Hc2. apply (placed_found key []) in Hc2; [|done|done].
  rewrite E1 in HB. rewrite !EF, E1, Hc2. eexists _, [v], _. split; [split; [reflexivity|]; do 2 (split; [done|]); by intros u ->%list_elem_of_singleton|].
  done.
Qed.
End Trade.
End Swap.
