(* ===== verification/BTreeEraseLoop.v ===== *)
(** Erasing from the B-tree: the loop of erase_lb(), from a node that can lose a key down
    to a leaf. *)
From Stdlib Require Import Lia ZifyBool.
From S2P Require Import Prelude BTree BTreeRep BTreeOps BTreePath BTreeSearch BTreeReplace BTreeErase BTreeSwap.
From stdpp Require Import list sorting.
Local Open Scope Z_scope.

Section EraseLoop.
Context {K D : Type} `{KeyOrderOk K} `{!Inhabited D} (Fanout : nat) (HF : (2 <= Fanout)%nat).
Notation V := (K * D)%type.
Notation BTree := (@BTree K D).
Notation Node := (@Node K D).
Notation gtree := (@gtree K D).
Notation sorted := (StronglySorted key_lt).
Implicit Types (b : BTree) (t c : gtree) (m : gmap nat Node) (l : list V).

(** *** One step *)
Section Step.
Context (key : K) (fuel h : nat) (par : option nat) (idx : Z) (anc : list nat) (b : BTree) (x : nat) (ks : list V) (cs : list gtree).
Notation T := (G x ks cs).
Context (Hre : reached Fanout (S h) par idx anc b T) (Hso : sorted (flat (S h) T)) (Hk : (0 < length ks)%nat).
Context (Q : Z → BTree → Prop)
  (HQ0 : ∀ b1 c, stepped Fanout 0 key h par idx anc b x ks cs b1 c → runs (erase_loop Fanout fuel key (tid c)) Q b1)
  (HQ1 : ∀ b1 c, stepped Fanout 1 key h par idx anc b x ks cs b1 c →
     runs promote_root_if_necessary (λ _ b2, runs (erase_loop Fanout fuel key (tid c)) Q b2) b1).

(** Both children next to the key have minimal keys. *)
Lemma merge_found K1 v K2 L c s R : ks = K1 ++ v :: K2 → cs = L ++ c :: s :: R → length L = length K1 → v.1 = key →
  length (tkeys c) = (Fanout - 1)%nat → length (tkeys s) = (Fanout - 1)%nat →
  runs (_ ← merge_child Fanout (tid c); _ ← promote_root_if_necessary; erase_loop Fanout fuel key (tid c)) Q b.
Proof.
  intros -> -> HL Hv Hc Hs. destruct c as [a ka ca], s as [s ks' cs']. cbn [tkeys tid] in *. apply runs_bind.
  assert (flat (S h) (G x (K1 ++ v :: K2) (L ++ G a ka ca :: G s ks' cs' :: R)) =
    (weave (flat h <$> L) K1 ++ flat h (G a ka ca)) ++ v :: flat h (G s ks' cs') ++ rest h R K2) as EF.
  { rewrite flat_at, rest_cons by done. by rewrite <-app_assoc. }
  pose proof Hso as Hso'. rewrite EF in Hso'. apply sorted_cut in Hso' as [HA HB]. rewrite Hv in HA, HB.
  eapply runs_mono; [eapply (step_merge Fanout HF key h par idx anc b x K1 K2); try done|].
  - apply focused_between; [done|done|by eapply flat_merged; [apply Hre|]|by eapply before_prefix|by eapply after_suffix].
  - intros [] b1 Hst. apply runs_bind. by apply (HQ1 b1 (G a (ka ++ v :: ks') (ca ++ cs'))).
Qed.
Lemma minimal_node j c : has_minimal_keys Fanout (laid h (Some x) j c) = (length (tkeys c) =? Fanout - 1)%nat.
Proof. unfold has_minimal_keys, nkeys. cbn [laid parent_ keys_]. by rewrite bool_decide_eq_true_2. Qed.

(** The key is not in the node. *)
Lemma step_down i : let n := laid (S h) par idx T in i = get_lb key n → fst <$> ks !! i ≠ Some key →
  runs (next ← require (children_ n !! i); nn ← node next;
        next ← (if has_minimal_keys Fanout nn then replenish Fanout n i next else mret next); erase_loop Fanout fuel key next) Q b.
Proof.
  intros n Hi Hne. destruct (re_shape Hre) as [Hl Hsh]. cbn [tkids tkeys] in Hl, Hsh. pose proof (sorted_keys _ _ _ _ Hso Hl) as Hsk.
  destruct (get_lb_split key ks par idx (S h) x cs Hsk) as (Hil & Hb & Ha). fold n in Hil, Hb, Ha. rewrite <-Hi in Hil, Hb, Ha.
  pose proof (head_after _ _ _ Ha Hne) as Hh. destruct (kids_at cs ks i Hl Hil) as (L & c & R & Ecs & HL & HR & Hc).
  assert (length L = length (take i ks)) as HL' by len. apply runs_bind. eapply runs_require; [unfold n; cbn [laid children_ tkids]; by rewrite list_lookup_fmap, Hc|].
  pose proof (take_drop i ks) as Eks. clear Hi. subst i. set (K1 := take _ ks) in *. set (K2 := drop _ ks) in *. clearbody K1 K2.
  subst n ks cs.
  destruct (around_child h x K1 K2 L c R key HL' HR Hso Hb Hh) as [HA HB].
  destruct (neighbour_node Fanout h par idx anc b x K1 K2 L R c Hre (length L) c) as (j & Hn & Hsc & Hbc); [by apply lookup_between|].
  apply runs_bind. eapply runs_read; [exact Hn|]. rewrite minimal_node. apply runs_bind.
  destruct (Nat.eqb_spec (length (tkeys c)) (Fanout - 1)) as [Hmin|Hmin].
  - eapply (replenish_ok Fanout HF key); try done.
    + intros b1 next (c1 & <- & Hst). by apply HQ0.
    + intros b1 next (c1 & <- & Hst). by apply HQ1.
  - apply runs_ret, HQ0. exists (K1 ++ K2), L, R. split; [apply evolves_refl; apply Hre|]. split; [apply Hre|]. split; [done|].
    split; [unfold bounded in Hbc; lia|]. by apply focused_between.
Qed.

(** The key is in the node. *)
Lemma step_found K1 v K2 L c s R : ks = K1 ++ v :: K2 → cs = L ++ c :: s :: R → length L = length K1 → length R = length K2 → v.1 = key →
  let n := laid (S h) par idx T in let i := length K1 in
  runs (c ← require (children_ n !! i); cn ← node c;
        if can_take_key Fanout cn then
          pred ← decrement (x, Z.of_nat i); _ ← assert_at rightmost_leaf c pred; _ ← iter_swap Fanout pred (x, Z.of_nat i); erase_loop Fanout fuel key c
        else
          c' ← require (children_ n !! S i); cn' ← node c';
          if can_take_key Fanout cn' then
            succ ← increment (x, Z.of_nat i); _ ← assert_at leftmost_leaf c' succ; _ ← iter_swap Fanout succ (x, Z.of_nat i); erase_loop Fanout fuel key c'
          else _ ← merge_child Fanout c; _ ← promote_root_if_necessary; erase_loop Fanout fuel key c) Q b.
Proof.
  intros Eks Ecs HL HR Hv n i. pose proof merge_found as Hm. subst ks cs n i.
  assert ((L ++ c :: s :: R) !! length K1 = Some c) as Hc by by apply lookup_between.
  assert ((L ++ c :: s :: R) !! S (length K1) = Some s) as Hs by by apply lookup_next; rewrite HL.
  destruct (neighbour_node Fanout h par idx anc b x K1 (v :: K2) L (s :: R) c Hre _ _ Hc) as (j & Hn & _ & Hbc).
  destruct (neighbour_node Fanout h par idx anc b x K1 (v :: K2) L (s :: R) c Hre _ _ Hs) as (j' & Hn' & _ & Hbs). unfold bounded in Hbc, Hbs.
  cbn [laid children_ tkids]. apply runs_bind. eapply runs_require; [by rewrite list_lookup_fmap, Hc|].
  apply runs_bind. eapply runs_read; [exact Hn|]. unfold can_take_key at 1, nkeys at 1. cbn [laid keys_].
  destruct (Nat.ltb_spec (Fanout - 1) (length (tkeys c))) as [Htake|Hmin].
  { apply (trade_pred Fanout HF key h par idx anc b x K1 K2 v L (s :: R) c Hre Hso Hv); [done|lia|].
    intros b1 (c1 & <- & Hst). by apply HQ0. }
  apply runs_bind. eapply runs_require; [by rewrite list_lookup_fmap, Hs|]. apply runs_bind. eapply runs_read; [exact Hn'|].
  unfold can_take_key, nkeys. cbn [laid keys_].
  destruct (Nat.ltb_spec (Fanout - 1) (length (tkeys s))) as [Htake|Hmin'].
  { assert (L ++ c :: s :: R = (L ++ [c]) ++ s :: R) as E by by rewrite <-app_assoc. rewrite E in Hre, Hso, HQ0.
    apply (trade_succ Fanout HF key h par idx anc b x K1 K2 v (L ++ [c]) R s Hre Hso Hv L c); [done|done|lia|].
    intros b1 (c1 & <- & Hst). by apply HQ0. }
  apply (Hm K1 v K2 L c s R); try done; lia.
Qed.

Lemma erase_step : runs (erase_loop Fanout (S fuel) key x) Q b.
Proof.
  pose proof (rep_node _ _ _ _ _ (re_rep Hre)) as Hn. cbn [tid] in Hn. destruct (re_shape Hre) as [Hl _]. cbn [tkids tkeys] in Hl.
  cbn [erase_loop]. apply runs_bind. eapply runs_read; [exact Hn|]. set (i := get_lb key _). case_bool_decide as Hv; rewrite internal_node by done.
  - cbn [laid keys_ tkeys] in Hv. destruct (ks !! i) as [v|] eqn:Hi; [|done]. injection Hv as Hv.
    pose proof (sorted_keys _ _ _ _ Hso Hl) as Hsk. pose proof (lookup_lt_Some _ _ _ Hi) as Hlt.
    destruct (lookup_lt_is_Some_2 cs i) as [c Hc]; [lia|]. destruct (lookup_lt_is_Some_2 cs (S i)) as [s Hs]; [lia|].
    pose proof (step_found (take i ks) v (drop (S i) ks) (take i cs) c s (drop (S (S i)) cs)) as Hst.
    cbv zeta in Hst. rewrite (length_take_le ks i) in Hst by lia.
    apply runs_bind, runs_assert; [cbn [laid children_ tkids]; rewrite length_fmap; apply Nat.ltb_lt; lia|].
    apply Hst; [by rewrite take_drop_middle|by rewrite <-drop_S, take_drop_middle|rewrite length_take_le; lia|rewrite !length_drop; lia|done].
  - by apply step_down.
Qed.
End Step.

(** *** The loop *)

(** What the loop needs of a node: it can lose a key, and is not a root that a merge empties. *)
Definition erasable (h : nat) (par : option nat) (idx : Z) (anc : list nat) b t : Prop :=
  reached Fanout h par idx anc b t ∧ sorted (flat h t) ∧ (begin_ b).2 = 0 ∧
  (anc ≠ [] → (Fanout <= length (tkeys t))%nat) ∧ (h ≠ 0%nat → (2 <= length (tkeys t))%nat).
(** What it makes of the subtree, returning the number of the pairs erased: its root has at
    most [e] keys less. *)
Definition erase_spec (e : nat) (key : K) (h : nat) (par : option nat) (idx : Z) (anc : list nat) b t (r : Z) (b' : BTree) : Prop :=
  ∃ t', evolves h par idx anc (- r) b t b' t' ∧ shaped Fanout h t' ∧ (length (tkeys t) - e <= length (tkeys t') <= 2 * Fanout - 1)%nat ∧
    placed key [] (flat h t) (flat h t') ∧ tsize h t' = tsize h t - r.

Lemma placed_absent key l : sorted l → (∃ A B, l = A ++ B ∧ before key A ∧ after key B) → placed key [] l l.
Proof. intros _ (A & B & -> & HA & HB). exists A, [], B. split; [|done]. do 3 (split; [done|]). by intros v ?%not_elem_of_nil. Qed.
Lemma erase_at_leaf key fuel par idx anc b x ks : erasable 0 par idx anc b (G x ks []) →
  runs (erase_loop Fanout (S fuel) key x) (erase_spec 1 key 0 par idx anc b (G x ks [])) b.
Proof.
  intros (Hre & Hso & Hbeg & Hs & _). pose proof (rep_node _ _ _ _ _ (re_rep Hre)) as Hn. pose proof (re_room Hre) as Hroom. cbn [tid tkeys flat] in *.
  cbn [erase_loop]. apply runs_bind. eapply runs_read; [exact Hn|]. set (i := get_lb _ _). cbn [laid keys_ tkeys].
  change (is_leaf _) with (is_leaf (laid 0 par idx (G (D:=D) x ks []))). rewrite leaf_is_leaf. case_bool_decide as Hv.
  - apply runs_bind, runs_assert; [done|]. destruct (ks !! i) as [v|] eqn:Hi; [|done]. injection Hv as Hv. pose proof (lookup_lt_Some _ _ _ Hi) as Hlt.
    assert (par = None ∨ anc ≠ []) as Hroot by (destruct anc; [left; apply (re_climbs Hre)|by right]).
    apply runs_bind. eapply runs_mono; [apply erase_leaf_ok; [apply Hre|apply Hre| |exact (re_size Hre)|done| |done| |lia]|].
    + apply NoDup_cons. split; [|apply Hre]. intros Hin. apply (re_apart Hre x Hin). left.
    + destruct Hroot as [?|Hne]; [by right|left; specialize (Hs Hne); lia].
    + destruct Hroot as [?|Hne]; [by right|left; specialize (Hs Hne); lia].
    + intros it b' He. apply runs_ret. exists (G x (remove_at i ks) []). cbn [flat tkeys].
      assert (length (remove_at i ks) = length ks - 1)%nat as Hl by (unfold remove_at; len).
      split; [exact He|]. split; [done|]. split; [lia|]. split; [|unfold tsize; cbn [flat tkeys]; lia].
      pose proof (take_drop_middle _ _ _ Hi) as E. rewrite <-E in Hso. apply sorted_cut in Hso as [HA HB]. rewrite Hv in HA, HB.
      exists (take i ks), [v], (drop (S i) ks). split; [split; [by symmetry|]; do 2 (split; [done|]); by intros w ->%list_elem_of_singleton|done].
  - destruct (leaf_absent key ks par idx x Hso Hv) as [HA HB]. apply runs_ret. exists (G x ks []). split; [apply evolves_refl; apply Hre|].
    split; [done|]. cbn [flat tkeys]. split; [lia|]. split; [|lia]. apply placed_absent; [done|]. exists (take i ks), (drop i ks).
    by rewrite take_drop.
Qed.
Lemma promote_stays b n : nodes b !! root_ b = Some n → (0 < nkeys n)%nat → runs promote_root_if_necessary (λ _ b', b' = b) b.
Proof.
  intros Hn Hk. apply runs_bind, runs_get, runs_bind, runs_bind, runs_get. eapply runs_read; [exact Hn|].
  unfold node_empty. destruct (Nat.eqb_spec (nkeys n) 0) as [?|_]; [lia|]. by apply runs_ret.
Qed.

(** The loop is right one level down. *)
Definition erases (key : K) (h fuel : nat) : Prop := ∀ par idx anc b t, erasable h par idx anc b t →
  runs (erase_loop Fanout fuel key (tid t)) (erase_spec 1 key h par idx anc b t) b.
Lemma stepped_reached e key h par idx anc b x ks cs b1 ks1 L c R :
  reached Fanout (S h) par idx anc b (G x ks cs) → evolves (S h) par idx anc 0 b (G x ks cs) b1 (G x ks1 (L ++ c :: R)) →
  shaped Fanout (S h) (G x ks1 (L ++ c :: R)) → length ks = (e + length ks1)%nat →
  focused key h x ks1 L c R (flat (S h) (G x ks cs)) → reached Fanout (S h) par idx anc b1 (G x ks1 (L ++ c :: R)).
Proof.
  intros Hre He Hsh Hk (_ & Hlen & _). pose proof (re_room Hre) as Hroom. cbn [tkeys] in Hroom.
  eapply reached_evolves; [exact Hre|exact He|exact Hsh|cbn [tkeys]; lia|unfold tsize; lia].
Qed.
Lemma erase_goes_on e key fuel h par idx anc b x ks cs b1 c :
  erases key h fuel → reached Fanout (S h) par idx anc b (G x ks cs) → (begin_ b).2 = 0 → (e < length ks)%nat → (e <= 1)%nat →
  stepped Fanout e key h par idx anc b x ks cs b1 c →
  runs (erase_loop Fanout fuel key (tid c)) (erase_spec e key (S h) par idx anc b (G x ks cs)) b1.
Proof.
  intros Hgo Hre Hbeg Hek He1 (ks1 & L & R & He & Hsh & Hk & Hc & Hf).
  pose proof (stepped_reached _ _ _ _ _ _ _ _ _ _ _ _ _ _ _ Hre He Hsh Hk Hf) as Hre1. destruct Hf as (Hso & Hlen & Hf).
  pose proof (re_room Hre) as Hroom. cbn [tkeys] in Hroom.
  eapply runs_mono.
  { apply Hgo. split; [eapply reached_child; [exact Hre1|lia]|]. split; [exact Hso|]. rewrite (ev_begin He). split; [done|]. split; [|intros _]; lia. }
  intros r b2 (c' & He2 & Hsc & Hlc & Hp & Hsz). exists (G x ks1 (L ++ c' :: R)).
  assert (tsize (S h) (G x ks1 (L ++ c' :: R)) = tsize (S h) (G x ks1 (L ++ c :: R)) - r) as Hszt.
  { rewrite !tsize_node, !sumZ_app. cbn [sumZ foldr]. lia. }
  split; [|split; [|split; [|split; [by apply Hf|]]]].
  - change (- r) with (0 + - r). eapply evolves_trans; [apply Hre|exact He|].
    eapply evolves_child; [apply Hre1|apply Hre1|apply Hre1|apply Hre1|exact He2|lia].
  - destruct Hsh as [Hl Hsh]. cbn [tkids tkeys] in Hl, Hsh. split; [cbn [tkids tkeys]; rewrite length_app in *; simpl in *; lia|]. cbn [tkids].
    apply Forall_app in Hsh as [HsL [_ HsR]%Forall_cons]. apply Forall_app. split; [done|]. constructor; [|done]. split; [done|unfold bounded; lia].
  - cbn [tkeys]. lia.
  - rewrite Hszt. unfold tsize. lia.
Qed.
Lemma erase_loop_ok key h fuel : (h < fuel)%nat → erases key h fuel.
Proof.
  revert fuel. induction h as [|h IH]; intros [|fuel] Hf par idx anc b [x ks cs] Her; try lia.
  { pose proof (re_shape (proj1 Her)) as Hcs. cbn in Hcs. subst cs. by apply erase_at_leaf. }
  destruct Her as (Hre & Hso & Hbeg & _ & Hk). specialize (Hk (Nat.neq_succ_0 h)). cbn [tkeys tid] in *.
  eapply (erase_step key fuel h par idx anc b x ks cs); [done|done|lia| |].
  - intros b1 c Hst. eapply runs_mono; [eapply (erase_goes_on 0); [apply IH; lia|done|done|lia|lia|exact Hst]|].
    intros r b2 (t' & ? & ? & ? & ?). exists t'. split; [done|]. split; [done|]. split; [lia|done].
  - intros b1 c Hst. pose proof Hst as (ks1 & L & R & He & Hsh & Hlen & _ & Hf').
    pose proof (stepped_reached _ _ _ _ _ _ _ _ _ _ _ _ _ _ _ Hre He Hsh Hlen Hf') as Hre1.
    pose proof (rep_node _ _ _ _ _ (re_rep Hre1)) as Hn1. cbn [tid] in Hn1.
    destruct (climbs_top _ (S h) x _ anc (root_ b1) Hn1) as (rn & Hrn & _ & Hor); [done|exact (re_climbs Hre1)|].
    eapply runs_mono; [eapply promote_stays; [exact Hrn|]|].
    { destruct Hor as [(_ & -> & _)|(_ & _ & ? & _)]; [unfold nkeys; cbn [laid keys_ tkeys]; lia|done]. }
    intros _ b2 ->. eapply (erase_goes_on 1); [apply IH; lia|done|done|lia|lia|exact Hst].
Qed.
End EraseLoop.
