(* ===== verification/BTreeTree.v ===== *)
(** The B-tree as a whole: what its heap holds between two operations, the change of one of
    its pairs in place, and the insertions. *)
From Stdlib Require Import Lia ZifyBool.
From S2P Require Import Prelude BTree BTreeRep BTreeOps BTreeSplit BTreePath BTreeSearch BTreeReplace BTreeInsert BTreeErase BTreeSwap BTreeEraseLoop.
From stdpp Require Import list sorting.
Local Open Scope Z_scope.

Section Tree.
Context {K D : Type} `{KeyOrderOk K} `{!Inhabited D} (Fanout : nat) (HF : (2 <= Fanout)%nat).
Notation V := (K * D)%type.
Notation BTree := (@BTree K D).
Notation Node := (@Node K D).
Notation gtree := (@gtree K D).
Notation sorted := (StronglySorted key_lt).
Implicit Types (b : BTree) (t : gtree) (m : gmap nat Node) (value : V) (l : list V).

(** The tree [t] of height [h] is laid out from root_, begin_ is its first key, and no
    other node is allocated. *)
Record standing b (h : nat) t : Prop := {
  ho_rep : rep h (nodes b) None 0 t;
  ho_nodup : NoDup (ids h t);
  ho_all : ∀ z, is_Some (nodes b !! z) → z ∈ ids h t;
  ho_alloc : allocated b;
  ho_root : root_ b = tid t;
  ho_begin : begin_ b = (first_leaf h t, 0);
  ho_shape : shaped Fanout h t;
  ho_room : (length (tkeys t) <= 2 * Fanout - 1)%nat;
  ho_sorted : sorted (flat h t)
}.
Arguments ho_rep {b h t}. Arguments ho_nodup {b h t}. Arguments ho_all {b h t}. Arguments ho_alloc {b h t}. Arguments ho_root {b h t}.
Arguments ho_begin {b h t}. Arguments ho_shape {b h t}. Arguments ho_room {b h t}. Arguments ho_sorted {b h t}.
(** Between two operations a root that is not a leaf has a key. *)
Definition holds b (h : nat) t : Prop := standing b h t ∧ (h ≠ 0%nat → (0 < length (tkeys t))%nat).
(** The pairs it holds, in order. *)
Definition contents b l : Prop := ∃ h t, holds b h t ∧ flat h t = l.

Lemma standing_evolves b h t d b' t' :
  standing b h t → evolves h None 0 [] d b t b' t' → shaped Fanout h t' → (length (tkeys t') <= 2 * Fanout - 1)%nat →
  sorted (flat h t') → standing b' h t'.
Proof.
  intros Hh He Hsh Hroom Hs. split; try done; try apply He.
  - intros z [n Hz]. destruct (decide (z ∈ ids h t')) as [|Hn]; [done|]. rewrite (ev_frame He) in Hz by done.
    case_decide as Hzt; [done|]. rewrite bump_out in Hz by apply not_elem_of_nil. destruct Hzt. apply (ho_all Hh). by eexists.
  - eapply evolves_allocated; [apply Hh|apply Hh|exact He].
  - by rewrite (ev_root He), (ev_id He), (ho_root Hh).
  - by rewrite (ev_begin He), (ev_first He), (ho_begin Hh).
Qed.
Lemma standing_node b h t : standing b h t → nodes b !! root_ b = Some (laid h None 0 t).
Proof. intros Hh. rewrite (ho_root Hh). apply rep_node, Hh. Qed.
Lemma standing_reached b h t : standing b h t → tsize h t < 2 ^ 31 - 1 → reached Fanout h None 0 [] b t.
Proof.
  intros Hh Hs. split; try apply Hh; try done.
  - by intros z ?%not_elem_of_nil.
  - constructor.
  - split; [done|]. symmetry. apply Hh.
Qed.
Lemma holds_insertable b h t value : holds b h t → tsize h t < 2 ^ 31 - 1 → insertable Fanout h None 0 [] b t value.
Proof.
  intros [Hh Hk] Hs. split; [by apply standing_reached|apply Hh| |].
  - split; [by rewrite (ho_begin Hh)|left; split; [by rewrite (ho_begin Hh)|done]].
  - intros [?|?]; [done|by apply Hk].
Qed.
Lemma rounds_root b h t (Q : nat → BTree → Prop) : standing b h t → Q (S (S h)) b → runs rounds Q b.
Proof.
  intros Hh HQ. rewrite <-(set_nodes_id b). eapply (runs_rounds _ h (root_ b) _ []).
  - by eapply standing_node.
  - done.
  - done.
  - cbn [length]. by rewrite Nat.add_0_r, set_nodes_id.
Qed.
Lemma runs_root {A} b h t (f : nat → nat → M BTree A) (Q : A → BTree → Prop) : standing b h t →
  runs (f (S (S h)) (tid t)) Q b → runs (fuel ← rounds; b ← get; f fuel (root_ b)) Q b.
Proof. intros Hh HQ. apply runs_bind. eapply rounds_root; [exact Hh|]. apply runs_bind, runs_get. by rewrite (ho_root Hh). Qed.
Lemma emptyTree_holds : holds emptyTree 0 (G 0%nat [] []).
Proof.
  split; [split; try done|done].
  - apply NoDup_singleton.
  - intros z [n Hz]. cbn in *. apply lookup_singleton_Some in Hz as [<- _]. left.
  - intros z Hz. cbn in *. apply lookup_singleton_None. lia.
  - cbn. lia.
  - constructor.
Qed.

Lemma inserted_sorted value l l' : sorted l → inserted value l l' → sorted l'.
Proof.
  intros Hs (A & B & -> & -> & HA & HB). apply StronglySorted_app in Hs as (Hab & HsA & HsB). apply StronglySorted_app.
  split; [|split; [done|by apply StronglySorted_cons]]. intros a w Ha [->|Hw]%elem_of_cons; [|by apply Hab].
  by apply (proj1 (Forall_forall _ _) HA).
Qed.

(** *** Inserting at the root *)

(** The old root as the child of a new one. *)
Definition grown b (n : Node) : BTree :=
  set_nodes (alter (λ q, mkNode (keys_ q) (parent_ q) (size_ n) (index_ q) (height_ n + 1) [root_ b]) (unused b)
    (alter (set_parent (Some (unused b))) (root_ b) (<[unused b := newNode]> (nodes b)))) (set_root (unused b) (alloc b)).
Lemma grown_standing b h t : standing b h t → bounded Fanout t → standing (grown b (laid h None 0 t)) (S h) (G (unused b) [] [t]).
Proof.
  intros Hh Hb. set (r := unused b). pose proof (standing_node _ _ _ Hh) as Hn. rewrite (ho_root Hh) in Hn.
  assert (∀ z, z ∈ ids h t → z ≠ r) as Hr by (intros z Hz ->; pose proof (rep_fresh _ _ _ _ _ _ (ho_rep Hh) (ho_alloc Hh) Hz); lia).
  pose proof (Hr _ (ids_head h t)) as Hrt.
  assert (ids (S h) (G r [] [t]) = r :: ids h t) as Hids by (cbn [ids tid tkids]; rewrite bind_cons; simpl; by rewrite app_nil_r).
  assert (flat (S h) (G r [] [t]) = flat h t) as Hfl by (rewrite flat_node; cbn [weave fmap list_fmap]; by rewrite app_nil_r).
  split; unfold grown; cbn [nodes set_nodes unused root_ begin_ set_root alloc]; rewrite ?(ho_root Hh).
  - apply rep_intro; [|cbn [eachi]; split; [|done]].
    { look. cbn [fmap option_fmap option_map]. f_equal. unfold laid. cbn [keys_ parent_ size_ index_ height_ newNode tid tkeys tkids].
      f_equal; [unfold tsize; by rewrite Hfl|lia]. }
    eapply rep_relink; [apply Hh|apply Hh|look; by rewrite Hn|]. intros z Hz Hne. pose proof (Hr z Hz). by look.
  - rewrite Hids. apply NoDup_cons. split; [|apply Hh]. intros Hin. by apply (Hr r).
  - intros z [n Hz]. rewrite Hids. destruct (decide (z = r)) as [->|Hzr]; [left|right]. apply (ho_all Hh).
    rewrite lookup_alter_ne in Hz by done. destruct (decide (z = tid t)) as [->|]; [by eexists|].
    rewrite lookup_alter_ne, lookup_insert_ne in Hz by done. by eexists.
  - intros z Hz. cbn [unused nodes set_nodes set_root alloc] in *. fold r in Hz |- *. pose proof (rep_fresh _ _ _ _ _ _ (ho_rep Hh) (ho_alloc Hh) (ids_head h t)) as Hlt. fold r in Hlt.
    rewrite !lookup_alter_ne, lookup_insert_ne by lia. apply (ho_alloc Hh). fold r. lia.
  - done.
  - apply (ho_begin Hh).
  - split; [done|]. constructor; [|done]. split; [apply Hh|done].
  - cbn [tkeys length]. lia.
  - rewrite Hfl. apply Hh.
Qed.
Lemma grow_root_ok b h t : holds b h t →
  runs (grow_root Fanout) (λ _ b', ∃ h' t', holds b' h' t' ∧ flat h' t' = flat h t ∧ (length (tkeys t') < 2 * Fanout - 1)%nat) b.
Proof.
  intros [Hh Hk]. apply runs_bind, runs_get, runs_bind, runs_bind, runs_get. pose proof (standing_node _ _ _ Hh) as Hn.
  eapply runs_read; [exact Hn|].
  pose proof (ho_room Hh) as Hroom. unfold is_full, nkeys. cbn [laid keys_].
  destruct (Nat.eqb_spec (length (tkeys t)) (2 * Fanout - 1)) as [Hfull|Hnf]; [|apply runs_ret; exists h, t; split; [done|split; [done|lia]]].
  rewrite <-(set_nodes_id b) at 1. apply runs_bind, runs_make. cbn [nodes set_nodes alloc].
  pose proof (rep_fresh _ _ _ _ _ _ (ho_rep Hh) (ho_alloc Hh) (ids_head h t)) as Hlt. rewrite <-(ho_root Hh) in Hlt. assert (root_ b ≠ unused b) by lia.
  apply runs_bind, runs_upd; [look; by eexists|]. apply runs_bind, runs_upd; [some|]. apply runs_bind, runs_modify.
  assert (bounded Fanout t) as Hb by (unfold bounded; lia). pose proof (grown_standing _ _ _ Hh Hb) as Hg.
  destruct t as [x keys kids]. destruct (full_child Fanout HF h x keys kids (ho_shape Hh) Hfull) as (ka & k & ks & ca & cs & -> & -> & Hka & Hks & Hca).
  set (b1 := set_root _ _). change b1 with (grown b (laid h None 0 (G x (ka ++ k :: ks) (ca ++ cs)))). clear b1.
  replace (split_child Fanout (root_ b)) with (split_child (K:=K) (D:=D) Fanout x) by (by rewrite (ho_root Hh)).
  eapply runs_mono; [apply (split_child_ok Fanout HF (unused b) x h (grown b _) None 0 [] [] [] ka ks k [] [] ca cs); try apply Hg; try done; cbn; lia|].
  intros [] b' He. pose proof (split_shaped Fanout HF h (unused b) x (S (unused b)) [] [] ka ks k [] [] ca cs (ho_shape Hg) Hka Hks Hca) as Hsh.
  pose proof (split_flat Fanout HF h (unused b) x (S (unused b)) [] [] ka ks k [] [] ca cs (ho_shape Hg) Hka Hks Hca eq_refl) as Hfl.
  eexists (S h), _. split; [split; [eapply standing_evolves; [exact Hg|exact He|exact Hsh|cbn; lia|]|cbn; lia]|].
  - exact (eq_ind_r sorted (ho_sorted Hg) Hfl).
  - split; [etrans; [exact Hfl|]; rewrite flat_node; cbn [weave fmap list_fmap app]; by rewrite app_nil_r|cbn; lia].
Qed.
Lemma insert_root_ok b h t value : holds b h t → tsize h t < 2 ^ 31 - 1 → (length (tkeys t) < 2 * Fanout - 1)%nat →
  runs (insert_loop Fanout (S (S h)) value (tid t)) (λ r b', ∃ t', holds b' h t' ∧
    if r.2 then inserted value (flat h t) (flat h t') ∧ points b' r.1 value
    else flat h t' = flat h t ∧ ∃ v, v ∈ flat h t ∧ v.1 = value.1 ∧ points b' r.1 v) b.
Proof.
  intros Hh Hs Hroom. pose proof (holds_insertable _ _ _ value Hh Hs) as Hin. destruct Hh as [Hh Hk].
  eapply runs_mono; [apply (insert_loop_ok Fanout HF h); [lia|exact Hin|exact Hroom]|]. intros r b' (t' & He & Hsh & Hlen & Hr).
  exists t'. split; [|by destruct r.2]. split; [|intros Hne; specialize (Hk Hne); lia]. eapply standing_evolves; [exact Hh|exact He|exact Hsh|lia|].
  pose proof (ho_sorted Hh) as Hso. destruct r.2; [|destruct Hr as [-> _]; done]. destruct Hr as [Hr _]. by eapply inserted_sorted.
Qed.
(** Growing the root, then the loop, then [f] of its result. *)
Definition inserted_root value l (r : iterator * bool) (b' : BTree) : Prop :=
  ∃ h' t', holds b' h' t' ∧
    if r.2 then inserted value l (flat h' t') ∧ points b' r.1 value
    else flat h' t' = l ∧ ∃ v, v ∈ l ∧ v.1 = value.1 ∧ points b' r.1 v.
Lemma grown_root_ok {A} b h t value (f : nat → nat → M BTree A) (Q : A → BTree → Prop) : holds b h t → tsize h t < 2 ^ 31 - 1 →
  (∀ fuel x b1, runs (insert_loop Fanout fuel value x) (inserted_root value (flat h t)) b1 → runs (f fuel x) Q b1) →
  runs (_ ← grow_root Fanout; fuel ← rounds; b ← get; f fuel (root_ b)) Q b.
Proof.
  intros Hh Hs HQ. apply runs_bind. eapply runs_mono; [by apply grow_root_ok|]. intros _ b1 (h1 & t1 & Hh1 & Hf1 & Hl1).
  eapply (runs_root _ _ _ f); [apply Hh1|]. apply HQ.
  eapply runs_mono; [apply insert_root_ok; [exact Hh1|unfold tsize in *; by rewrite Hf1|done]|].
  intros r b' (t' & Hh' & Hr). rewrite Hf1 in Hr. by exists h1, t'.
Qed.
Lemma subscript_ok b h t key : holds b h t → tsize h t < 2 ^ 31 - 1 →
  runs (subscript Fanout key) (λ it b', ∃ h' t' A v B, holds b' h' t' ∧ flat h' t' = A ++ v :: B ∧ v.1 = key ∧ points b' it v ∧
    ∀ d, placed key [(key, d)] (flat h t) (A ++ (key, d) :: B)) b.
Proof.
  intros Hh Hs. pose proof (ho_sorted (proj1 Hh)) as Hso. apply (grown_root_ok b h t (key, inhabitant) (λ fuel x, r ← insert_loop Fanout fuel (key, inhabitant) x; mret r.1)); [done|done|].
  intros fuel x b1 Hrun. apply runs_bind. eapply runs_mono; [exact Hrun|].
  intros [it [|]] b' (h' & t' & Hh' & Hr); apply runs_ret; cbn [fst snd] in *; exists h', t'.
  - destruct Hr as [(A & B & E & -> & HA & HB) Hp]. rewrite E. exists A, (key, inhabitant), B. do 4 (split; [done|]). intros d.
    exists A, [], B. split; [|done]. do 3 (split; [done|]). by intros v ?%not_elem_of_nil.
  - destruct Hr as (-> & v & Hv & <- & Hp). apply list_elem_of_split in Hv as (A & B & E). rewrite E in Hso. rewrite E.
    exists A, v, B. do 4 (split; [done|]). intros d. by apply (placed_same A B v (v.1, d)).
Qed.
(** tree[key] = value, from a tree whose count can grow. *)
Lemma assign_ok b l key d : contents b l → Z.of_nat (length l) < 2 ^ 31 - 1 →
  runs (assign Fanout key d) (λ _ b', ∃ l', contents b' l' ∧ placed key [(key, d)] l l') b.
Proof.
  intros (h & t & Hh & <-) Hs. apply runs_bind. eapply runs_mono; [by apply subscript_ok|].
  intros [p j] b1 (h1 & t1 & A & v & B & [Hh1 Hk1] & Hf & Hv & (n & i & Hn & Hj & Hi) & Hp). cbn [fst snd] in *. subst j.
  apply runs_bind. eapply runs_read; [exact Hn|]. apply runs_bind, runs_bind. eapply runs_read; [exact Hn|]. cbn [fst snd].
  eapply runs_require; [by rewrite at_of|]. rewrite Nat2Z.id, Hv. assert (p ∈ ids h1 t1) as Hin by (apply (ho_all Hh1); by eexists).
  destruct (replaced_ok Fanout h1 (nodes b1) None 0 t1 p n i v (key, d) (ho_rep Hh1) (ho_nodup Hh1) (ho_shape Hh1) Hin Hn Hi) as (t2 & Hre).
  destruct (rp_flat _ _ _ _ _ _ _ _ _ _ _ Hre) as (A2 & B2 & HA2 & HB2). pose proof (ho_sorted Hh1) as Hs1. rewrite HA2 in Hs1.
  rewrite HA2 in Hf. destruct (sorted_unique _ _ _ _ _ _ Hs1 Hf eq_refl) as (-> & _ & ->). specialize (Hp d). rewrite <-HB2 in Hp.
  pose proof (node_room Fanout h1 (nodes b1) None 0 t1 p n (ho_rep Hh1) (ho_shape Hh1) (ho_room Hh1) Hin Hn) as Hroom.
  rewrite <-(set_nodes_id b1). apply runs_replace; [exact Hn|lia|]. exists (flat h1 t2). split; [|done].
  exists h1, t2. split; [|done]. pose proof (rp_len _ _ _ _ _ _ _ _ _ _ _ Hre) as Hlen. split; [|by rewrite Hlen].
  eapply standing_evolves; [exact Hh1|eapply replaced_evolves; [apply Hh1|apply Hh1|exact Hin|exact Hre]|by eapply rp_shape, Hh1|rewrite Hlen; apply Hh1|].
  eapply placed_sorted; [apply Hh|exact Hp|repeat constructor|by intros w ->%list_elem_of_singleton].
Qed.

(** *** Erasing at the root *)
Lemma flat_only h x (c : gtree) : flat (S h) (G x [] [c]) = flat h c.
Proof. rewrite flat_node. cbn [weave fmap list_fmap]. by rewrite app_nil_r. Qed.
(** A root without keys gives way to its only child. *)
Lemma promote_collapses b h x c : standing b (S h) (G x [] [c]) → runs promote_root_if_necessary (λ _ b', standing b' h c) b.
Proof.
  intros Hh. pose proof (standing_node _ _ _ Hh) as Hn. pose proof (ho_rep Hh) as [_ [Hrc _]]%rep_S. cbn [tid] in Hrc.
  pose proof (ho_nodup Hh) as Hnd. cbn [ids tid tkids] in Hnd. rewrite bind_cons in Hnd. simpl in Hnd. rewrite app_nil_r in Hnd.
  apply NoDup_cons in Hnd as [Hx Hnd]. pose proof (rep_node _ _ _ _ _ Hrc) as Hnc. pose proof (ho_root Hh) as Hroot. cbn [tid] in Hroot. rewrite Hroot in Hn.
  assert (tid c ≠ x) as Hcx by (intros E; apply Hx; rewrite <-E; apply ids_head).
  destruct (ho_shape Hh) as [_ [[Hsc Hbc] _]%Forall_cons].
  apply runs_bind, runs_get, runs_bind, runs_bind, runs_get. rewrite Hroot. eapply runs_read; [exact Hn|].
  unfold node_empty, nkeys. cbn [laid keys_ tkeys length Nat.eqb children_ tkids]. apply runs_bind, runs_assert; [done|].
  apply runs_bind. eapply runs_require; [done|]. apply runs_bind, runs_modify.
  change (set_root (tid c) b) with (set_nodes (nodes b) (set_root (tid c) b)). apply runs_bind, runs_delete, runs_upd; [look; by eexists|].
  split; cbn [nodes set_nodes unused root_ begin_ set_root]; try done.
  - eapply rep_relink; [exact Hrc|exact Hnd|look; by rewrite Hnc|]. intros z Hz Hne. assert (z ≠ x) by (intros ->; done). by look.
  - intros z [n Hz]. destruct (decide (z = tid c)) as [->|Hzc]; [apply ids_head|]. rewrite lookup_alter_ne in Hz by done.
    apply lookup_delete_Some in Hz as [Hzx Hz]. pose proof (ho_all Hh z ltac:(by eexists)) as Hin. cbn [ids tid tkids] in Hin.
    rewrite bind_cons in Hin. simpl in Hin. rewrite app_nil_r in Hin. by apply elem_of_cons in Hin as [?|?].
  - intros z Hz. cbn [unused set_nodes set_root nodes] in *. pose proof (ho_alloc Hh z Hz) as Hzn. rewrite lookup_alter_ne by (intros <-; congruence).
    by rewrite lookup_delete_None; right.
  - exact (ho_begin Hh).
  - apply Hbc.
  - rewrite <-(flat_only h x). apply Hh.
Qed.
Definition erase_root_spec (key : K) h t (r : Z) (b' : BTree) : Prop :=
  ∃ h' t', holds b' h' t' ∧ placed key [] (flat h t) (flat h' t') ∧ tsize h' t' = tsize h t - r.
Lemma erase_root_end e key b h t r b' : standing b h t → (h ≠ 0%nat → (e < length (tkeys t))%nat) →
  erase_spec Fanout e key h None 0 [] b t r b' →
  ∃ t', holds b' h t' ∧ placed key [] (flat h t) (flat h t') ∧ tsize h t' = tsize h t - r.
Proof.
  intros Hh Hk (t' & He & Hsh & Hl & Hp & Hsz). exists t'. split; [|done]. split; [|intros Hne; specialize (Hk Hne); lia].
  eapply standing_evolves; [exact Hh|exact He|done|lia|]. eapply placed_sorted; [apply Hh|exact Hp|constructor|by intros w ?%not_elem_of_nil].
Qed.
Lemma erase_root_ok key b h t : holds b h t → tsize h t < 2 ^ 31 - 1 →
  runs (erase_loop Fanout (S (S h)) key (tid t)) (erase_root_spec key h t) b.
Proof.
  intros [Hh Hk] Hs. pose proof (standing_reached _ _ _ Hh Hs) as Hre. assert ((begin_ b).2 = 0) as Hbeg by by rewrite (ho_begin Hh).
  destruct (decide (h = 0%nat ∨ 2 <= length (tkeys t))%nat) as [Hsolid|Hone].
  { eapply runs_mono; [apply (erase_loop_ok Fanout HF key h (S (S h))); [lia|]|].
    - split; [done|]. split; [apply Hh|]. split; [done|]. split; [done|]. intros ?. lia.
    - intros r b' Her. exists h. eapply (erase_root_end 1); [done| |exact Her]. intros ?. lia. }
  destruct h as [|h]; [lia|]. destruct t as [x ks cs]. cbn [tkeys tid] in *. specialize (Hk (Nat.neq_succ_0 h)).
  apply (erase_step Fanout HF key (S (S h)) h None 0 [] b x ks cs); [done|apply Hh|done| |].
  - intros b1 c Hst. eapply runs_mono; [eapply (erase_goes_on Fanout HF 0 key (S (S h)) h); [apply erase_loop_ok; [done|lia]|done|done|lia|lia|exact Hst]|].
    intros r b2 Her. exists (S h). eapply (erase_root_end 0); [done| |exact Her]. cbn [tkeys]. lia.
  - intros b1 c (ks1 & L & R & He & Hsh & Hlen & Hc & Hso & Hlf & Hf). destruct ks1 as [|]; [|simpl in Hlen; lia].
    assert (L = [] ∧ R = []) as [-> ->].
    { destruct Hsh as [Hl _]. cbn [tkids tkeys] in Hl. rewrite length_app in Hl. simpl in Hl. destruct L, R; simpl in Hl; try lia. done. }
    cbn [app] in *. eapply runs_mono; [eapply promote_collapses; eapply standing_evolves; [exact Hh|exact He|done|cbn; lia|by rewrite flat_only]|].
    intros [] b2 Hh2. rewrite flat_only in Hlf. assert (tsize h c = tsize (S h) (G x ks cs)) as Hsz by (unfold tsize; lia).
    eapply runs_mono; [apply (erase_loop_ok Fanout HF key h (S (S h))); [lia|]|].
    + split; [apply standing_reached; [done|lia]|]. split; [done|]. split; [by rewrite (ho_begin Hh2)|]. split; [done|lia].
    + intros r b' (t' & Hh' & Hp & Hsz')%(erase_root_end 1 key b2 h c); [|done|lia].
      exists h, t'. split; [done|]. rewrite <-(flat_only h x t'). split; [by apply Hf|]. rewrite Hsz'. lia.
Qed.
End Tree.
