(* ===== verification/BTreeMap.v ===== *)
(** The B-tree is a finite map: find(), the calls that a storage makes of its index, and
    the refinement of the map by the tree. *)
From Stdlib Require Import Lia ZifyBool.
From S2P Require Import Prelude BTree BTreeRep BTreeOps BTreePath BTreeSearch BTreeReplace BTreeInsert BTreeTree.
From stdpp Require Import list sorting gmap.
Local Open Scope Z_scope.

(** *** The calls of an index *)
Inductive IndexCall (K D : Type) : Type :=
| CallAssign (key : K) (value : D)
| CallInsert (key : K) (value : D)
| CallFind (key : K)
| CallContains (key : K)
| CallErase (key : K)
| CallSize.
Arguments CallAssign {K D}. Arguments CallInsert {K D}. Arguments CallFind {K D}. Arguments CallContains {K D}. Arguments CallErase {K D}. Arguments CallSize {K D}.
Inductive IndexAnswer (D : Type) : Type :=
| Assigned
| Inserted (new : bool)
| Found (value : option D)
| Contained (found : bool)
| Erased (count : Z)
| Sized (count : Z).
Arguments Assigned {D}. Arguments Inserted {D}. Arguments Found {D}. Arguments Contained {D}. Arguments Erased {D}. Arguments Sized {D}.

Section Map.
Context {K D : Type} `{KeyOrderOk K} `{!Countable K} `{!Inhabited D} (Fanout : nat) (HF : (2 <= Fanout)%nat).
Notation V := (K * D)%type.
Notation BTree := (@BTree K D).
Notation Node := (@Node K D).
Notation gtree := (@gtree K D).
Notation sorted := (StronglySorted key_lt).
Implicit Types (b : BTree) (t : gtree) (l : list V) (m : gmap K D).

(** it = find(key); it != end() ? it->second *)
Definition lookup_value (key : K) : M BTree (option D) :=
  it ← BTree.find key; e ← end_; if decide (it = e) then mret None else v ← deref it; mret (Some v.2).
Definition index_call (c : IndexCall K D) : M BTree (IndexAnswer D) :=
  match c with
  | CallAssign key value => _ ← assign Fanout key value; mret Assigned
  | CallInsert key value => r ← insert_value Fanout (key, value); mret (Inserted r.2)
  | CallFind key => o ← lookup_value key; mret (Found o)
  | CallContains key => c ← contains key; mret (Contained c)
  | CallErase key => n ← erase Fanout key; mret (Erased n)
  | CallSize => n ← BTree.size; mret (Sized n)
  end.
Definition index_calls (cs : list (IndexCall K D)) : M BTree (list (IndexAnswer D)) := mapM index_call cs.

(** The same calls of a finite map. *)
Definition map_call (c : IndexCall K D) m : IndexAnswer D * gmap K D :=
  match c with
  | CallAssign key value => (Assigned, <[key := value]> m)
  | CallInsert key value => if decide (is_Some (m !! key)) then (Inserted false, m) else (Inserted true, <[key := value]> m)
  | CallFind key => (Found (m !! key), m)
  | CallContains key => (Contained (bool_decide (is_Some (m !! key))), m)
  | CallErase key => (Erased (if decide (is_Some (m !! key)) then 1 else 0), delete key m)
  | CallSize => (Sized (Z.of_nat (base.size m)), m)
  end.
Fixpoint map_calls (cs : list (IndexCall K D)) m : list (IndexAnswer D) * gmap K D :=
  match cs with
  | [] => ([], m)
  | c :: cs => let '(a, m) := map_call c m in let '(l, m) := map_calls cs m in (a :: l, m)
  end.

(** The tree holds the pairs of the map. *)
Definition abstracts b m : Prop := ∃ l, contents Fanout b l ∧ m = list_to_map l.

(** *** Sorted lists as maps *)
Lemma sorted_nodup l : sorted l → NoDup l.*1.
Proof.
  induction 1 as [|v l Hl IH Hv]; [constructor|]. rewrite fmap_cons. constructor; [|done].
  intros (w & E & Hw)%list_elem_of_fmap. pose proof (proj1 (Forall_forall _ _) Hv w Hw) as Hlt. by apply comp_ne in Hlt.
Qed.
Lemma sorted_lookup l k d : sorted l → (list_to_map l : gmap K D) !! k = Some d ↔ (k, d) ∈ l.
Proof. intros Hs. symmetry. by apply elem_of_list_to_map, sorted_nodup. Qed.
Lemma placed_lookup key o l l' k d : placed key o l l' → k ≠ key → (∀ v, v ∈ o → v.1 = key) → (k, d) ∈ l' ↔ (k, d) ∈ l.
Proof.
  intros (A & o' & B & (-> & HA & HB & Ho') & ->) Hk Ho. rewrite !elem_of_app. split; intros [?|[Hv|?]]; try tauto.
  - by apply Ho in Hv.
  - by apply Ho' in Hv.
Qed.
Lemma placed_assign key d l l' : sorted l → placed key [(key, d)] l l' → (list_to_map l' : gmap K D) = <[key := d]> (list_to_map l).
Proof.
  intros Hs Hp. assert (sorted l') as Hs' by (eapply placed_sorted; [done|exact Hp|repeat constructor|by intros v ->%list_elem_of_singleton]).
  apply map_eq. intros k. apply option_eq. intros d'. rewrite sorted_lookup by done. destruct (decide (k = key)) as [->|Hk].
  - rewrite lookup_insert_eq. destruct Hp as (A & o & B & (-> & HA & HB & Ho) & ->). rewrite !elem_of_app, list_elem_of_singleton. split.
    + intros [Hv|[[= ->]|Hv]]; [by apply (before_absent _ _ _ HA) in Hv|done|by apply (after_absent _ _ _ HB) in Hv].
    + intros [= ->]. auto.
  - rewrite lookup_insert_ne, sorted_lookup by done. eapply placed_lookup; [done|done|]. by intros v ->%list_elem_of_singleton.
Qed.
Lemma placed_erase key l l' : sorted l → placed key [] l l' → (list_to_map l' : gmap K D) = delete key (list_to_map l) ∧
  Z.of_nat (length l) - Z.of_nat (length l') = if decide (is_Some ((list_to_map l : gmap K D) !! key)) then 1 else 0.
Proof.
  intros Hs Hp. assert (sorted l') as Hs' by (eapply placed_sorted; [done|exact Hp|constructor|by intros v ?%not_elem_of_nil]). split.
  - apply map_eq. intros k. apply option_eq. intros d'. rewrite sorted_lookup by done. destruct (decide (k = key)) as [->|Hk].
    + rewrite lookup_delete_eq. destruct Hp as (A & o & B & (-> & HA & HB & Ho) & ->). rewrite !elem_of_app. split; [|done].
      intros [Hv|[Hv|Hv]]; [by apply (before_absent _ _ _ HA) in Hv|by apply not_elem_of_nil in Hv|by apply (after_absent _ _ _ HB) in Hv].
    + rewrite lookup_delete_ne, sorted_lookup by done. eapply placed_lookup; [done|done|]. by intros v ?%not_elem_of_nil.
  - destruct Hp as (A & o & B & (-> & HA & HB & Ho) & ->). destruct o as [|[k d] o].
    + rewrite decide_False; [simpl; lia|]. intros [d Hd]. apply sorted_lookup in Hd; [|done]. cbn [app] in Hd. apply elem_of_app in Hd as [Hd|Hd].
      * by apply (before_absent _ _ _ HA) in Hd.
      * by apply (after_absent _ _ _ HB) in Hd.
    + pose proof (Ho (k, d) ltac:(left)) as Hk. cbn in Hk. subst k. rewrite decide_True.
      2:{ exists d. apply sorted_lookup; [done|]. rewrite !elem_of_app. right. left. left. }
      destruct o as [|v o]; [rewrite !length_app; simpl; lia|]. exfalso. apply StronglySorted_app in Hs as (_ & _ & (_ & Hs & _)%StronglySorted_app).
      apply StronglySorted_cons in Hs as [[Hlt _]%Forall_cons _]. apply comp_ne in Hlt. apply Hlt. symmetry. apply Ho. right. left.
Qed.

(** *** The calls *)
Lemma end_of b h t : standing Fanout b h t → end_ b = Ok (root_ b, Z.of_nat (length (tkeys t))) b.
Proof.
  intros Hh. pose proof (standing_node _ _ _ _ Hh) as Hn. unfold end_, node. mrun. rewrite Hn. done.
Qed.
Lemma find_ok b h t key : standing Fanout b h t → runs (BTree.find key) (λ it b', b' = b ∧
  ((∃ v, v ∈ flat h t ∧ v.1 = key ∧ points b it v) ∨
   it = (root_ b, Z.of_nat (length (tkeys t))) ∧ ∀ v, v ∈ flat h t → v.1 ≠ key)) b.
Proof.
  intros Hh. eapply (runs_root Fanout _ _ _ (λ fuel x, search_loop fuel key x)); [exact Hh|].
  eapply search_loop_ok; [apply Hh|apply Hh|apply Hh|lia|by eapply end_of].
Qed.
(** Comparing the place found with end(). *)
Lemma found_ok {A} b l key (f : iterator → iterator → M BTree A) (Q : A → BTree → Prop) : contents Fanout b l →
  (∀ it e v, (list_to_map l : gmap K D) !! key = Some v.2 → points b it v → it ≠ e → runs (f it e) Q b) →
  (∀ e, (list_to_map l : gmap K D) !! key = None → runs (f e e) Q b) → runs (it ← BTree.find key; e ← end_; f it e) Q b.
Proof.
  intros (h & t & [Hh _] & <-) Hfound Hnone. pose proof (ho_sorted _ _ _ _ Hh) as Hs. apply runs_bind. eapply runs_mono; [by apply find_ok|].
  intros it b' [-> Hor]. apply runs_bind. eexists _, _. split; [by eapply end_of|]. destruct Hor as [(v & Hv & Hk & Hp)|[-> Hno]].
  - eapply Hfound; [|exact Hp|].
    + apply sorted_lookup; [done|]. by destruct v; simpl in *; subst.
    + destruct Hp as (n & j & Hn & Hj & Hvj). intros ->. cbn [fst snd] in *. rewrite (standing_node _ _ _ _ Hh) in Hn. injection Hn as <-.
      cbn [laid keys_] in Hvj. apply lookup_lt_Some in Hvj. lia.
  - apply Hnone, eq_None_not_Some. intros [d Hd]. apply sorted_lookup in Hd; [|done]. by apply Hno in Hd.
Qed.
Lemma lookup_value_ok b l key : contents Fanout b l → runs (lookup_value key) (λ o b', b' = b ∧ o = (list_to_map l : gmap K D) !! key) b.
Proof.
  intros Hc. eapply found_ok; [exact Hc| |].
  - intros it e v Hv (n & j & Hn & Hj & Hvj) Hne. rewrite decide_False by done. apply runs_bind, runs_bind. eapply runs_read; [exact Hn|].
    rewrite Hj. eapply runs_require; [rewrite at_of; exact Hvj|]. by apply runs_ret.
  - intros e Hv. rewrite decide_True by done. by apply runs_ret.
Qed.
Lemma contains_ok b l key : contents Fanout b l →
  runs (contains key) (λ c b', b' = b ∧ c = bool_decide (is_Some ((list_to_map l : gmap K D) !! key))) b.
Proof.
  intros Hc. eapply found_ok; [exact Hc| |].
  - intros it e v Hv _ Hne. apply runs_ret. split; [done|]. rewrite Hv, !bool_decide_eq_true_2; [done|by eexists|done].
  - intros e Hv. apply runs_ret. split; [done|]. rewrite Hv, !bool_decide_eq_false_2; [done|by intros []|by intros []].
Qed.
Lemma inserted_assign key d l l' : sorted l → inserted (key, d) l l' →
  (list_to_map l : gmap K D) !! key = None ∧ (list_to_map l' : gmap K D) = <[key := d]> (list_to_map l).
Proof.
  intros Hs (A & B & -> & -> & HA & HB). cbn [fst] in *. split.
  - apply eq_None_not_Some. intros [d' Hd]. apply sorted_lookup in Hd; [|done].
    apply elem_of_app in Hd as [Hd|Hd]; [by apply (before_absent _ _ _ HA) in Hd|by apply (after_absent _ _ _ HB) in Hd].
  - apply placed_assign; [done|]. exists A, [], B. split; [|done]. do 3 (split; [done|]). by intros v ?%not_elem_of_nil.
Qed.
Lemma insert_value_ok b l key d : contents Fanout b l → Z.of_nat (length l) < 2 ^ 31 - 1 →
  runs (insert_value Fanout (key, d)) (λ r b', ∃ l', contents Fanout b' l' ∧
    if r.2 then (list_to_map l : gmap K D) !! key = None ∧ (list_to_map l' : gmap K D) = <[key := d]> (list_to_map l)
    else l' = l ∧ is_Some ((list_to_map l : gmap K D) !! key)) b.
Proof.
  intros (h & t & Hh & <-) Hs. pose proof (ho_sorted _ _ _ _ (proj1 Hh)) as Hso.
  apply (grown_root_ok Fanout HF b h t (key, d) (λ fuel x, insert_loop Fanout fuel (key, d) x)); [done|done|].
  intros fuel x b1 Hrun. eapply runs_mono; [exact Hrun|]. intros [it [|]] b' (h' & t' & Hh' & Hr); exists (flat h' t'); (split; [by exists h', t'|]); cbn [fst snd] in *.
  - destruct Hr as [Hr _]. by apply inserted_assign.
  - destruct Hr as (-> & v & Hv & Hk & _). split; [done|]. exists v.2. apply sorted_lookup; [done|]. by destruct v; simpl in *; subst.
Qed.
Lemma contents_sorted b l : contents Fanout b l → sorted l.
Proof. intros (h & t & [Hh _] & <-). by apply (ho_sorted _ _ _ _ Hh). Qed.
Lemma size_ok b l : contents Fanout b l → Z.of_nat (length l) < 2 ^ 64 → runs BTree.size (λ n b', b' = b ∧ n = Z.of_nat (length l)) b.
Proof.
  intros (h & t & [Hh _] & <-) Hl. apply runs_bind, runs_bind, runs_get. eapply runs_read; [by eapply standing_node|].
  apply runs_ret. split; [done|]. cbn [laid size_]. unfold tsize. apply wrapU_id. unfold inU. lia.
Qed.
Lemma contents_size b l : contents Fanout b l → base.size (list_to_map l : gmap K D) = length l.
Proof. intros Hc. apply map_size_list_to_map. by eapply sorted_nodup, contents_sorted. Qed.

(** One call: the tree keeps holding what the map holds, and answers alike. *)
Lemma index_call_ok b m c : abstracts b m → Z.of_nat (base.size m) < 2 ^ 31 - 1 →
  runs (index_call c) (λ a b', a = (map_call c m).1 ∧ abstracts b' (map_call c m).2) b.
Proof.
  intros (l & Hc & ->) Hs. pose proof (contents_sorted _ _ Hc) as Hso. rewrite (contents_size _ _ Hc) in Hs.
  destruct c as [key value|key value|key|key|key|]; cbn [index_call map_call fst snd]; apply runs_bind.
  - eapply runs_mono; [by apply (assign_ok Fanout HF)|]. intros [] b' (l' & Hc' & Hp). apply runs_ret. split; [done|].
    exists l'. split; [done|]. symmetry. by apply placed_assign.
  - eapply runs_mono; [by apply insert_value_ok|]. intros [it [|]] b' (l' & Hc' & Hr); apply runs_ret; cbn [snd] in *.
    + destruct Hr as [Hn E]. rewrite decide_False by (rewrite Hn; by intros []). split; [done|]. by exists l'.
    + destruct Hr as [-> Hk]. rewrite decide_True by done. split; [done|]. by exists l.
  - eapply runs_mono; [by apply lookup_value_ok|]. intros o b' [-> ->]. apply runs_ret. split; [done|]. by exists l.
  - eapply runs_mono; [by apply contains_ok|]. intros c b' [-> ->]. apply runs_ret. split; [done|]. by exists l.
  - destruct Hc as (h & t & Hh & <-). eapply runs_mono.
    { eapply (runs_root Fanout _ _ _ (λ fuel x, erase_loop Fanout fuel key x)); [apply Hh|]. by apply erase_root_ok. }
    intros r b' (h' & t' & Hh' & Hp & Hr). apply runs_ret. apply placed_erase in Hp as [E En]; [|done]. unfold tsize in Hr.
    split; [f_equal; lia|]. exists (flat h' t'). split; [by exists h', t'|done].
  - eapply runs_mono; [apply size_ok; [done|lia]|]. intros n b' [-> ->]. apply runs_ret. rewrite (contents_size _ _ Hc). split; [done|]. by exists l.
Qed.
Lemma map_call_size c m : (base.size (map_call c m).2 <= S (base.size m))%nat.
Proof.
  assert (∀ key value, base.size (<[key := value]> m) <= S (base.size m))%nat as Hi.
  { intros key value. destruct (decide (is_Some (m !! key))) as [Hk|Hk%eq_None_not_Some]; [rewrite map_size_insert_Some by done|rewrite map_size_insert_None by done]; lia. }
  destruct c; cbn [map_call snd]; try lia; [apply Hi|case_decide; cbn [snd]; [lia|apply Hi]|].
  - rewrite map_size_delete. case_match; unfold id; lia.
Qed.
Lemma index_calls_ok cs b m : abstracts b m → Z.of_nat (base.size m) + Z.of_nat (length cs) <= 2 ^ 31 - 1 →
  runs (index_calls cs) (λ answers b', answers = (map_calls cs m).1 ∧ abstracts b' (map_calls cs m).2) b.
Proof.
  revert b m. induction cs as [|c cs IH]; intros b m Hm Hs; cbn [length] in Hs; [by apply runs_ret|].
  apply runs_bind. eapply runs_mono; [apply index_call_ok; [done|lia]|]. intros a b' [-> Hm'].
  pose proof (map_call_size c m) as Hsz. cbn [map_calls]. destruct (map_call c m) as [a m']. cbn [fst snd] in *.
  apply runs_bind. eapply runs_mono; [apply (IH b' m'); [done|lia]|]. intros l b'' [-> Hm'']. apply runs_ret.
  by destruct (map_calls cs m').
Qed.
Lemma emptyTree_abstracts : abstracts emptyTree ∅.
Proof. exists []. split; [|done]. exists 0%nat, (G 0%nat [] []). split; [by apply emptyTree_holds|done]. Qed.

(** *** The height *)
Lemma length_flat h x (ks : list V) (cs : list gtree) : length (flat (S h) (G x ks cs)) = (length ks + length (concat (flat h <$> cs)))%nat.
Proof. by rewrite flat_node, length_weave. Qed.
Lemma kids_weight h n (cs : list gtree) : Forall (λ c, n <= S (length (flat h c)))%nat cs →
  (length cs * n <= length cs + length (concat (flat h <$> cs)))%nat.
Proof. induction 1 as [|c cs Hc _ IH]; [done|]. cbn [fmap list_fmap concat length Nat.mul]. rewrite length_app. lia. Qed.
Lemma subtree_weight h t : shaped Fanout h t → (Fanout - 1 <= length (tkeys t))%nat → (Fanout ^ S h <= S (length (flat h t)))%nat.
Proof.
  revert t. induction h as [|h IH]; intros [x ks cs] Hsh Hk; cbn [tkeys] in Hk.
  - cbn [flat tkeys Nat.pow]. lia.
  - destruct Hsh as [Hl Hs]. cbn [tkids tkeys] in Hl, Hs. rewrite length_flat.
    assert (length cs * Fanout ^ S h <= length cs + length (concat (flat h <$> cs)))%nat as Hw.
    { apply kids_weight. eapply Forall_impl; [exact Hs|]. intros c [Hc Hb]. apply IH; [done|apply Hb]. }
    rewrite Nat.pow_succ_r'. assert (Fanout * Fanout ^ S h <= length cs * Fanout ^ S h)%nat by (apply Nat.mul_le_mono_r; lia). lia.
Qed.
Lemma height_ok b m : abstracts b m → ∃ h, BTree.height b = Ok (Z.of_nat h) b ∧ (h ≠ 0%nat → (2 * Fanout ^ h <= S (base.size m))%nat).
Proof.
  intros (l & Hc & ->). rewrite (contents_size _ _ Hc). destruct Hc as (h & t & [Hh Hk] & <-). exists h. split.
  - pose proof (standing_node _ _ _ _ Hh) as Hn. unfold BTree.height, get_root, node. mrun. by rewrite Hn.
  - intros Hne. specialize (Hk Hne). destruct h as [|h]; [done|]. destruct t as [x ks cs]. cbn [tkeys] in Hk.
    destruct (ho_shape _ _ _ _ Hh) as [Hl Hs]. cbn [tkids tkeys] in Hl, Hs. rewrite length_flat.
    assert (length cs * Fanout ^ S h <= length cs + length (concat (flat h <$> cs)))%nat as Hw.
    { apply kids_weight. eapply Forall_impl; [exact Hs|]. intros c [Hc Hb]. apply subtree_weight; [done|apply Hb]. }
    assert (2 * Fanout ^ S h <= length cs * Fanout ^ S h)%nat by (apply Nat.mul_le_mono_r; lia). lia.
Qed.

(** *** The index refines a finite map *)

Lemma btree_calls (cs : list (IndexCall K D)) : Z.of_nat (length cs) < 2 ^ 31 →
  ∃ b', index_calls cs emptyTree = Ok (map_calls cs ∅).1 b' ∧ abstracts b' (map_calls cs ∅).2.
Proof.
  intros Hl. destruct (index_calls_ok cs emptyTree ∅ emptyTree_abstracts) as (answers & b' & Hr & -> & Hb); [rewrite map_size_empty; lia|].
  by exists b'.
Qed.
(** C5. A B-tree is a finite map: any sequence of tree[key] = value, insert, find, contains,
    erase and size on an empty tree, shorter than attr_t can count, runs without a failed
    assertion or undefined behaviour and gives the answers of the map, and the nodes it
    leaves in memory are those of one tree that holds the pairs of the map in order. *)
Theorem btree_refines_map (cs : list (IndexCall K D)) : Z.of_nat (length cs) < 2 ^ 31 →
  ∃ b', index_calls cs emptyTree = Ok (map_calls cs ∅).1 b' ∧ abstracts b' (map_calls cs ∅).2.
Proof. apply btree_calls. Qed.

End Map.

(** *** The order of std::array<char, 16> *)

(** operator< of the keys of a storage's index, std::array<char, 16>: lexicographic, char
    being signed. *)
Definition char_value (x : Byte.byte) : Z := wrapS 8 (byte.unsigned x).
Fixpoint bytes_less (a b : bytes) : bool :=
  match a, b with
  | _, [] => false
  | [], _ :: _ => true
  | x :: a, y :: b => (char_value x <? char_value y) || (char_value x =? char_value y) && bytes_less a b
  end.
#[export] Instance bytes_order : KeyOrder bytes := {| ko_eq_dec := _; Comp := bytes_less |}.
Lemma char_value_inj x y : char_value x = char_value y → x = y.
Proof.
  unfold char_value, wrapS. pose proof (byte.unsigned_range x). pose proof (byte.unsigned_range y). intros E.
  apply byte.unsigned_inj. revert E. Z.div_mod_to_equations. lia.
Qed.
#[export] Instance bytes_order_ok : KeyOrderOk bytes.
Proof.
  split; cbn [Comp bytes_order].
  - intros k. induction k as [|x k IH]; [done|]. simpl. by rewrite IH, Z.ltb_irrefl, andb_false_r.
  - intros a b c. revert b c. induction a as [|x a IH]; intros [|y b] [|z c]; try done. simpl.
    rewrite !orb_true_iff, !andb_true_iff, !Z.ltb_lt, !Z.eqb_eq. intros [?|[? Hab]] [?|[? Hbc]]; [left; lia|left; lia|left; lia|right].
    split; [lia|]. by eapply IH.
  - intros a b. revert b. induction a as [|x a IH]; intros [|y b]; try done. simpl.
    rewrite !orb_false_iff, !andb_false_iff, !Z.ltb_ge, !Z.eqb_neq. intros [? [?|Hab]] [? [?|Hba]]; try lia.
    f_equal; [apply char_value_inj; lia|by apply IH].
Qed.

(** *** Concrete trees *)
Definition key_of (z : Z) : bytes := replicate 15 b0 ++ [byte.of_Z z].
Definition some_calls : list (IndexCall bytes Z) :=
  ((λ z, CallAssign (key_of z) (10 * z)) <$> [5; 3; 8; 200; 4; 7; 9; 2; 6; 130; 131; 132]) ++
  [CallSize; CallFind (key_of 4); CallErase (key_of 4); CallFind (key_of 4); CallAssign (key_of 7) 77; CallInsert (key_of 7) 0;
   CallInsert (key_of 1) 1; CallErase (key_of 5); CallErase (key_of 5); CallErase (key_of 130); CallErase (key_of 200);
   CallContains (key_of 132); CallErase (key_of 9); CallFind (key_of 7); CallErase (key_of 8); CallErase (key_of 6); CallSize].

(** C0 at a fanout of 2, through splits, rotations, trades and merges. *)
Lemma btree_refines_map_witness : ∃ b', index_calls 2 some_calls emptyTree =
  Ok (replicate 12 Assigned ++ [Sized 12; Found (Some 40); Erased 1; Found None; Assigned; Inserted false; Inserted true; Erased 1; Erased 0;
      Erased 1; Erased 1; Contained true; Erased 1; Found (Some 77); Erased 1; Erased 1; Sized 6]) b'.
Proof.
  destruct (btree_refines_map (K := bytes) (D := Z) 2 ltac:(lia) some_calls) as (b' & Hr & _); [vm_compute; reflexivity|].
  exists b'. rewrite Hr. vm_compute. reflexivity.
Defined.
(** The twelve pairs make a tree of height 2, the calls after them take it back to height 1. *)
Example tree_shrinks :
  match index_calls 2 (take 12 some_calls) emptyTree, index_calls 2 some_calls emptyTree with
  | Ok _ b, Ok _ b' => BTree.height b = Ok 2 b ∧ BTree.height b' = Ok 1 b'
  | _, _ => False
  end.
Proof. vm_compute. split; reflexivity. Qed.
