(* ===== verification/BTreeVerify.v ===== *)
(** The B-tree passes its own verify(). *)
From Stdlib Require Import Lia ZifyBool.
From S2P Require Import Prelude BTree BTreeRep BTreeOps BTreePath BTreeSearch BTreeErase BTreeSwap BTreeTree BTreeMap.
From stdpp Require Import list sorting gmap.
Local Open Scope Z_scope.

Section Verify.
Context {K D : Type} `{KeyOrderOk K} `{!Countable K} `{!Inhabited D} (Fanout : nat) (HF : (2 <= Fanout)%nat).
Notation V := (K * D)%type.
Notation BTree := (@BTree K D).
Notation Node := (@Node K D).
Notation gtree := (@gtree K D).
Notation sorted := (StronglySorted key_lt).
Implicit Types (b : BTree) (t c : gtree) (l : list V).

Lemma keys_in_flat h t v : shaped Fanout h t → v ∈ tkeys t → v ∈ flat h t.
Proof.
  destruct h as [|h], t as [x ks cs]; [done|]. intros [Hl _] Hv. apply keys_in_weave; [|done]. by rewrite length_fmap.
Qed.
Lemma tree_keys_sorted h t : shaped Fanout h t → sorted (flat h t) → sorted (tkeys t).
Proof. destruct h as [|h], t as [x ks cs]; [done|]. intros [Hl _] Hs. by eapply sorted_keys. Qed.
Lemma is_sorted_ok l : sorted l → is_sorted l = true.
Proof.
  induction l as [|v [|w l] IH]; [done|done|]. intros [[Hvw _]%Forall_cons Hs]%StronglySorted_cons. cbn [is_sorted].
  rewrite (comp_asym _ _ Hvw). by apply IH.
Qed.
Lemma leftmost_is_first h fuel b par idx t : rep h (nodes b) par idx t → shaped Fanout h t → (h < fuel)%nat →
  runs (leftmost_leaf fuel (tid t)) (λ p b', b' = b ∧ p = first_leaf h t) b.
Proof.
  revert fuel par idx t. induction h as [|h IH]; intros [|fuel] par idx [x ks cs] Hr Hsh Hf; try lia; cbn [leftmost_leaf tid];
    pose proof (rep_node _ _ _ _ _ Hr) as Hn; cbn [tid] in Hn; apply runs_bind; (eapply runs_read; [exact Hn|]).
  - cbn in Hsh. subst cs. rewrite leaf_is_leaf. by apply runs_ret.
  - destruct Hsh as [Hl Hs]. cbn [tkids tkeys] in Hl, Hs. rewrite internal_node by done. cbn [laid children_ tkids].
    destruct cs as [|c R]; [done|]. apply runs_bind. eapply runs_require; [done|].
    apply rep_S in Hr as [_ [Hr _]]. apply Forall_cons in Hs as [[Hsc _] _]. eapply IH; [exact Hr|done|lia].
Qed.

(** What verify() checks of a node, and finds. *)
Definition verifies (h fuel : nat) : Prop := ∀ b par idx t,
  rep h (nodes b) par idx t → shaped Fanout h t → sorted (flat h t) → bounded Fanout t ∨ par = None →
  (∀ q, par = Some q → ∃ qn, nodes b !! q = Some qn ∧ at_ (children_ qn) idx = Some (tid t)) →
  runs (verify_node Fanout fuel (tid t)) (λ r b', r = true ∧ b' = b) b.

Section Inner.
Context (h fuel : nat) (b : BTree) (par : option nat) (idx : Z) (x : nat) (ks : list V) (cs : list gtree).
Notation T := (G x ks cs).
Notation n := (laid (S h) par idx T).
Context (Hgo : verifies h fuel) (Hrep : rep (S h) (nodes b) par idx T) (Hsh : shaped Fanout (S h) T) (Hso : sorted (flat (S h) T)).

Lemma inner_child L c R : cs = L ++ c :: R → rep h (nodes b) (Some x) (Z.of_nat (length L)) c ∧ shaped Fanout h c ∧ bounded Fanout c ∧
  runs (verify_node Fanout fuel (tid c)) (λ r b', r = true ∧ b' = b) b.
Proof.
  intros ->. pose proof Hrep as [Hn Hk]%rep_S. cbn [tid tkids] in *. apply eachi_app in Hk as [_ [Hrc _]].
  destruct Hsh as [Hl [_ [[Hsc Hbc] _]%Forall_cons]%Forall_app]. cbn [tkids tkeys] in Hl. rewrite length_app in Hl. simpl in Hl.
  split; [done|]. split; [done|]. split; [done|]. eapply Hgo; [exact Hrc|done| |by left|].
  - pose proof Hso as Hso'. rewrite <-(take_drop (length L) ks) in Hso'. rewrite flat_at in Hso' by len.
    by apply StronglySorted_app in Hso' as (_ & _ & (_ & ? & _)%StronglySorted_app).
  - intros q [= <-]. eexists. split; [exact Hn|]. cbn [laid children_ tkids]. rewrite Z.add_0_l, at_of, fmap_app.
    apply lookup_between. by rewrite length_fmap.
Qed.
Lemma inner_order L c d R K1 k K2 : cs = L ++ c :: d :: R → ks = K1 ++ k :: K2 → length L = length K1 →
  (∀ v, v ∈ tkeys c → Comp v.1 k.1 = true) ∧ (∀ v, v ∈ tkeys d → Comp k.1 v.1 = true).
Proof.
  intros Ecs Eks HL. destruct (inner_child L c (d :: R) Ecs) as (_ & Hsc & _). destruct (inner_child (L ++ [c]) d R) as (_ & Hsd & _); [by rewrite <-app_assoc|].
  pose proof Hso as Hso'. rewrite Ecs, Eks, flat_at, rest_cons in Hso' by done. apply StronglySorted_app in Hso' as (_ & _ & (Hck & _ & [Hkd _]%StronglySorted_cons)%StronglySorted_app).
  split; intros v Hv; eapply keys_in_flat in Hv; try done.
  - apply Hck; [done|left].
  - apply (proj1 (Forall_forall _ _) Hkd). apply elem_of_app. by left.
Qed.
Lemma verify_children_ok K1 K2 L R : ks = K1 ++ K2 → cs = L ++ R → length L = length K1 →
  runs (verify_children (verify_node Fanout fuel) x n (length L) K2 (Z.of_nat (length ks) + sumZ (tsize h) L))
    (λ r b', b' = b ∧ ∃ L' c, cs = L' ++ [c] ∧ r = Z.of_nat (length ks) + sumZ (tsize h) L') b.
Proof.
  revert K1 L R. induction K2 as [|k K2 IH]; intros K1 L R Eks Ecs HL; cbn [verify_children].
  { apply runs_ret. split; [done|]. destruct Hsh as [Hl _]. cbn [tkids tkeys] in Hl. rewrite Ecs, Eks, !length_app in Hl.
    destruct R as [|c [|]]; simpl in Hl; try lia. by exists L, c. }
  destruct R as [|c [|d R]].
  1,2: exfalso; destruct Hsh as [Hl _]; cbn [tkids tkeys] in Hl; rewrite Ecs, Eks, !length_app in Hl; simpl in Hl; lia.
  destruct (inner_child L c (d :: R) Ecs) as (Hrc & _ & Hbc & Hvc). destruct (inner_child (L ++ [c]) d R) as (Hrd & _ & Hbd & _); [by rewrite <-app_assoc|].
  destruct (inner_order L c d R K1 k K2 Ecs Eks HL) as [Hck Hkd]. unfold bounded in Hbc, Hbd.
  cbn [laid children_ tkids]. apply runs_bind. eapply runs_require; [rewrite Ecs, fmap_app; apply lookup_between; by rewrite length_fmap|].
  apply runs_bind. eapply runs_read; [exact (rep_node _ _ _ _ _ Hrc)|]. cbn [laid keys_ parent_ height_ size_].
  destruct (tkeys c) as [|l lc _] eqn:Ec using rev_ind; [simpl in Hbc; lia|]. apply runs_bind. eapply runs_require; [apply last_snoc|].
  assert (Comp k.1 l.1 = false) as -> by (apply comp_asym, Hck, elem_of_app; right; left). apply runs_bind, runs_assert; [done|].
  apply runs_bind. eapply runs_require.
  { rewrite Ecs, fmap_app. apply lookup_next. by rewrite length_fmap. }
  apply runs_bind. eapply runs_read; [exact (rep_node _ _ _ _ _ Hrd)|]. cbn [laid keys_].
  destruct (tkeys d) as [|f ld] eqn:Ed; [simpl in Hbd; lia|]. apply runs_bind. eapply runs_require; [done|].
  assert (Comp f.1 k.1 = false) as -> by (apply comp_asym, Hkd; left). apply runs_bind, runs_assert; [done|].
  apply runs_bind, runs_assert; [by apply bool_decide_eq_true|]. apply runs_bind.
  eapply runs_mono; [exact Hvc|]. intros ok b' [-> ->]. apply runs_bind, runs_assert; [done|]. apply runs_bind, runs_assert; [lia|].
  replace (S (length L)) with (length (L ++ [c])) by len.
  replace (Z.of_nat (length ks) + sumZ (tsize h) L + tsize h c) with (Z.of_nat (length ks) + sumZ (tsize h) (L ++ [c])) by (rewrite sumZ_app; simpl; lia).
  apply (IH (K1 ++ [k]) (L ++ [c]) (d :: R)); [by rewrite <-app_assoc|by rewrite <-app_assoc|len].
Qed.
End Inner.

Lemma verify_parent b (par : option nat) idx p (Q : unit → BTree → Prop) :
  (∀ q, par = Some q → ∃ qn, nodes b !! q = Some qn ∧ at_ (children_ qn) idx = Some p) → Q tt b →
  runs (match par with
        | None => mret tt
        | Some q => qn ← node q; assert_ (bool_decide (at_ (children_ qn) idx = Some p))
        end) Q b.
Proof.
  intros Hpar HQ. destruct par as [q|]; [|by apply runs_ret]. destruct (Hpar q eq_refl) as (qn & Hq & Hat).
  apply runs_bind. eapply runs_read; [exact Hq|]. by apply runs_assert; [apply bool_decide_eq_true|].
Qed.
Lemma verify_node_ok h fuel : (h < fuel)%nat → verifies h fuel.
Proof.
  revert fuel. induction h as [|h IH]; intros [|fuel] Hf b par idx [x ks cs] Hr Hsh Hso Hb Hpar; try lia; cbn [verify_node tid];
    pose proof (rep_node _ _ _ _ _ Hr) as Hn; cbn [tid] in Hn; apply runs_bind; (eapply runs_read; [exact Hn|]);
    cbn [laid parent_ keys_ children_ index_ tkeys tkids]; unfold nkeys; cbn [keys_ tkeys laid].
  all: apply runs_bind, runs_assert; [destruct Hb as [Hb| ->]; [unfold bounded in Hb; cbn [tkeys] in Hb; lia|done]|].
  all: apply runs_bind, runs_assert; [apply is_sorted_ok; exact (tree_keys_sorted _ _ Hsh Hso)|].
  - cbn in Hsh. subst cs. rewrite leaf_is_leaf, orb_true_r. apply runs_bind, runs_assert; [done|]. apply runs_bind, verify_parent; [exact Hpar|].
    cbn [negb laid size_ height_]. apply runs_bind, runs_assert; [unfold tsize; cbn [flat tkeys]; lia|]. apply runs_bind, runs_assert; [done|].
    by apply runs_ret.
  - pose proof Hsh as [Hl _]. cbn [tkids tkeys] in Hl. rewrite internal_node by done. apply runs_bind, runs_assert.
    { rewrite length_fmap, Hl. destruct Hb as [Hb| ->]; [|done]. unfold bounded in Hb. cbn [tkeys] in Hb. lia. }
    apply runs_bind, verify_parent; [exact Hpar|]. cbn [negb].
    pose proof (verify_children_ok h fuel b par idx x ks cs (IH fuel ltac:(lia)) Hr Hsh Hso [] ks [] cs eq_refl eq_refl eq_refl) as Hvc.
    cbn [sumZ foldr length] in Hvc. rewrite Z.add_0_r in Hvc. apply runs_bind. eapply runs_mono; [exact Hvc|]. intros num b' (-> & L & c & Ecs & ->).
    destruct (inner_child h fuel b par idx x ks cs (IH fuel ltac:(lia)) Hr Hsh Hso L c [] Ecs) as (Hrc & _ & _ & Hv).
    apply runs_bind. eapply runs_require; [rewrite Ecs, fmap_app; apply last_snoc|]. apply runs_bind.
    eapply runs_read; [exact (rep_node _ _ _ _ _ Hrc)|]. cbn [laid parent_ height_ size_]. apply runs_bind, runs_assert; [by apply bool_decide_eq_true|].
    apply runs_bind. eapply runs_mono; [exact Hv|]. intros ok b' [-> ->]. apply runs_bind, runs_assert; [done|]. apply runs_bind, runs_assert; [lia|].
    apply runs_bind, runs_assert; [|by apply runs_ret]. rewrite tsize_node, Ecs, sumZ_app. simpl. lia.
Qed.

Lemma verify_ok b h t : holds Fanout b h t → verify Fanout b = Ok true b.
Proof.
  intros [Hh Hk]. assert (runs (verify Fanout) (λ r b', r = true ∧ b' = b) b) as (r & b' & E & -> & ->); [|done].
  apply runs_bind. eapply rounds_root; [exact Hh|]. apply runs_bind, runs_get. rewrite (ho_root _ _ _ _ Hh). apply runs_bind.
  eapply runs_mono; [eapply leftmost_is_first; [apply Hh|apply Hh|lia]|]. intros p b' [-> ->]. apply runs_bind, runs_assert.
  { apply bool_decide_eq_true. by rewrite (ho_begin _ _ _ _ Hh). }
  apply runs_bind. eapply runs_mono; [eapply (verify_node_ok h); [lia|apply Hh|apply Hh|apply Hh|by right|done]|].
  intros ok b' [-> ->]. apply runs_bind, runs_assert; [done|]. by apply runs_ret.
Qed.

(** C6. The tree passes its own verify(), all its assertions enabled, after any sequence of
    calls on an empty tree that is shorter than attr_t can count, and it is balanced: at a
    height h > 0 it holds at least 2 * Fanout^h - 1 pairs, so a search, which visits h + 1
    nodes at most, visits a number of nodes logarithmic in the size. *)
Theorem btree_verifies (cs : list (IndexCall K D)) : Z.of_nat (length cs) < 2 ^ 31 →
  ∃ b' h, index_calls Fanout cs emptyTree = Ok (map_calls cs ∅).1 b' ∧ verify Fanout b' = Ok true b' ∧
    BTree.height b' = Ok (Z.of_nat h) b' ∧ (h ≠ 0%nat → (2 * Fanout ^ h <= S (base.size (map_calls cs ∅).2))%nat).
Proof.
  intros Hl. destruct (btree_calls Fanout HF cs Hl) as (b' & Hr & Hb). destruct (height_ok Fanout HF b' _ Hb) as (h & Hh & Hs).
  destruct Hb as (l & (h' & t & Hh' & _) & _). exists b', h. split; [done|]. split; [by eapply verify_ok|done].
Qed.
End Verify.

Lemma btree_verifies_witness : ∃ (b' : @BTree.BTree bytes Z) h, index_calls 2 (take 12 some_calls) emptyTree = Ok (replicate 12 Assigned) b' ∧
  verify 2 b' = Ok true b' ∧ BTree.height b' = Ok (Z.of_nat h) b' ∧ (h ≠ 0%nat → (2 * 2 ^ h <= 13)%nat).
Proof.
  destruct (btree_verifies (K := bytes) (D := Z) 2 ltac:(lia) (take 12 some_calls)) as (b' & h & Hr & Hv & Hh & Hs); [vm_compute; reflexivity|].
  exists b', h. assert (base.size (map_calls (take 12 some_calls) ∅).2 = 12%nat) as E by (vm_compute; reflexivity). rewrite E in Hs.
  rewrite Hr. split; [vm_compute; reflexivity|]. split; [exact Hv|]. split; [exact Hh|exact Hs].
Defined.
