(* ===== verification/LinearStorage.v ===== *)
(** linear_storage::Tom and linear_storage::Storage (LinearStorage.h/.cpp): the
    append-only record files, their scan and their index.

    A tom's file is its bytes, together with the state of the stream it is read and
    written through: a read past the end sets the stream's failure bits, which
    nothing in the sources clears, so every later read and write on that tom fails.
    Writes to a sound stream succeed (a full disk is not modelled). The
    operations are stated over an interface of the index ([Index]), which a finite map from
    uuids to records implements here, and the B-tree in StorageIndex. *)
From stdpp Require Import sorting.
From S2P Require Import Prelude.
From Stdlib Require Import Lia ZifyBool.

(** *** Data *)
Record Header : Type := mkHeader {
  rec_uuid : bytes;
  rec_dataSize : Z;
  rec_deleted : Z
}.
#[export] Instance Header_eq_dec : EqDecision Header.
Proof. solve_decision. Defined.
Definition emptyUuid : bytes := replicate 16 b0.
Definition emptyHeader : Header := mkHeader emptyUuid 0 0.

(** linear_storage::Record *)
Record Rec : Type := mkRec {
  rec_tomId : Z;
  rec_offset : Z;
  rec_header : Header
}.
#[export] Instance Rec_eq_dec : EqDecision Rec.
Proof. solve_decision. Defined.
Definition defaultRec : Rec := mkRec UINT32_MAX UINT64_MAX emptyHeader.

Definition set_deleted (d : Z) (r : Rec) : Rec :=
  mkRec (rec_tomId r) (rec_offset r)
        (mkHeader (rec_uuid (rec_header r)) (rec_dataSize (rec_header r)) d).

(** The object representation of a Header: uuid at 0, dataSize at 16, deleted at
    24, padded to 32 bytes. *)
Definition sizeofHeader : nat := 32.
Definition offsetofDeleted : nat := 24.
Definition encHeader (h : Header) : bytes :=
  rec_uuid h ++ encLE 8 (rec_dataSize h) ++ encLE 1 (rec_deleted h) ++ replicate 7 b0.
Definition decHeader (bs : bytes) : Header :=
  mkHeader (take 16 bs) (decU (take 8 (drop 16 bs))) (decS (take 1 (drop 24 bs))).

Record Tom : Type := mkTom {
  tom_id : Z;
  tom_size : Z;        (** _size *)
  tom_file : bytes;    (** the contents of the file *)
  tom_failed : bool    (** failbit or badbit of *_tomF *)
}.
#[export] Instance Tom_eq_dec : EqDecision Tom.
Proof. solve_decision. Defined.
Definition set_size (x : Z) (t : Tom) : Tom := mkTom (tom_id t) x (tom_file t) (tom_failed t).
Definition set_file (x : bytes) (t : Tom) : Tom := mkTom (tom_id t) (tom_size t) x (tom_failed t).
Definition set_failed (x : bool) (t : Tom) : Tom := mkTom (tom_id t) (tom_size t) (tom_file t) x.

(** *** The stream *)

(** seekg(off); read(n); the bytes, or [None] when the stream is not good. *)
Definition fread (off : Z) (n : nat) : M Tom (option bytes) := λ t,
  if tom_failed t then Ok None t
  else if off + Z.of_nat n <=? Z.of_nat (length (tom_file t))
  then Ok (slice (tom_file t) (Z.to_nat off) n) t
  else Ok None (set_failed true t).

Definition write_at (file : bytes) (off : nat) (src : bytes) : bytes :=
  take off file ++ replicate (off - length file) b0 ++ src ++ drop (off + length src) file.
(** seekp(off); write(src); flush(); and good() afterwards. *)
Definition fwrite (off : Z) (src : bytes) : M Tom bool := λ t,
  if tom_failed t then Ok false t
  else Ok true (set_file (write_at (tom_file t) (Z.to_nat off) src) t).

(** *** Tom *)

(** Tom::Tom and Tom::create: opened on what the file holds. *)
Definition openTom (id : Z) (contents : bytes) : Tom :=
  mkTom id (Z.of_nat (length contents)) contents false.

Definition tom_append (uuid data : bytes) : M Tom Rec :=
  match data with
  | [] => throw (PocoInvalidArgument "Data cannot be empty")
  | _ =>
      t ← get;
      let bufSize := Z.of_nat sizeofHeader + Z.of_nat (length data) in
      let rec := mkRec (tom_id t) (tom_size t) (mkHeader uuid (Z.of_nat (length data)) 0) in
      _ ← modify (set_size (wrapU 64 (tom_size t + bufSize)));
      good ← fwrite (rec_offset rec) (encHeader (rec_header rec) ++ data);
      if (good : bool) then mret rec
      else throw (PocoRuntime "Failed to write record to file")
  end.

Definition tom_record (offset : Z) : M Tom Rec :=
  t ← get;
  if offset <? tom_size t then
    r ← fread offset sizeofHeader;
    match r with
    | Some bs => mret (mkRec (tom_id t) offset (decHeader bs))
    | None => throw (PocoRuntime "Failed to read record header from file")
    end
  else mret defaultRec.

(** std::vector<char>::resize: beyond max_size() it throws. *)
Definition resize_ok (n : Z) : bool := n <=? INT64_MAX.

Definition tom_data (record : Rec) : M Tom bytes :=
  let dataSize := rec_dataSize (rec_header record) in
  if dataSize =? 0 then mret []
  else if negb (resize_ok dataSize) then throw StdLengthError
  else
    r ← fread (wrapU 64 (rec_offset record + Z.of_nat sizeofHeader)) (Z.to_nat dataSize);
    match r with
    | Some bs => mret bs
    | None => throw (PocoRuntime "Failed to read record data from file")
    end.

Definition tom_dataPrefix (record : Rec) (len : nat) : M Tom bytes :=
  let n := Nat.min len (Z.to_nat (rec_dataSize (rec_header record))) in
  if decide (n = 0%nat) then mret []
  else
    r ← fread (wrapU 64 (rec_offset record + Z.of_nat sizeofHeader)) n;
    mret (default [] r).

(** Tom::remove: the verdict, and the record as its caller finds it afterwards. *)
Definition tom_remove (record : Rec) : M Tom (bool * Rec) :=
  if negb (rec_deleted (rec_header record) =? 0) then mret (true, record)
  else
    good ← fwrite (wrapU 64 (rec_offset record + Z.of_nat offsetofDeleted)) (encLE 1 1);
    mret (if (good : bool) then (true, set_deleted 1 record) else (false, set_deleted 0 record)).

(** *** Storage *)

(** What a storage asks of its index: find(), [None] where it would be undefined,
    the assignment to operator[], and erase(). *)
Class Index (Ix : Type) : Type := {
  index_empty : Ix;
  index_find : bytes → Ix → option (option Rec);
  index_assign : bytes → Rec → Ix → option Ix;
  index_erase : bytes → Ix → option Ix
}.
Record StorageOn (Ix : Type) : Type := mkStorage {
  currentTomId : Z;
  toms : gmap Z Tom;
  index : Ix
}.
Arguments mkStorage {_}.
Arguments currentTomId {_}.
Arguments toms {_}.
Arguments index {_}.

Section Storage.
Context {Ix : Type} `{Index Ix}.
Notation Storage := (StorageOn Ix).
Definition set_currentTomId (x : Z) (s : Storage) : Storage := mkStorage x (toms s) (index s).
Definition set_toms (x : gmap Z Tom) (s : Storage) : Storage := mkStorage (currentTomId s) x (index s).
Definition set_index (x : Ix) (s : Storage) : Storage := mkStorage (currentTomId s) (toms s) x.
Definition update_index (f : Ix → option Ix) : M Storage unit :=
  s ← get; i ← require (f (index s)); put (set_index i s).

(** tom(id).op(...): unordered_map::at throws for an unknown id. *)
Definition with_tom {A} (id : Z) (op : M Tom A) : M Storage A := λ s,
  match toms s !! id with
  | None => Exn (StdOutOfRange "unordered_map::at") s
  | Some t =>
      match op t with
      | Ok a t' => Ok a (set_toms (<[id := t']> (toms s)) s)
      | Exn e t' => Exn e (set_toms (<[id := t']> (toms s)) s)
      | UB => UB
      end
  end.

(** The id of the tom that currentTom() returns, creating it when there is none. *)
Definition currentTom : M Storage Z :=
  s ← get;
  match toms s !! currentTomId s with
  | Some _ => mret (currentTomId s)
  | None =>
      let ctd := wrapU 32 (currentTomId s + 1) in
      _ ← modify (set_currentTomId ctd);
      match toms s !! ctd with
      | Some _ => throw (PocoRuntime "Can't emplace new tom")
      | None => _ ← modify (λ s, set_toms (<[ctd := openTom ctd []]> (toms s)) s); mret ctd
      end
  end.

Definition storage_append (uuid data : bytes) : M Storage Rec :=
  match data with
  | [] => throw (PocoInvalidArgument "Data cannot be empty")
  | _ =>
      id ← currentTom;
      rec ← with_tom id (tom_append uuid data);
      _ ← update_index (index_assign (rec_uuid (rec_header rec)) rec);
      mret rec
  end.

Definition storage_record (tomId offset : Z) : M Storage Rec := with_tom tomId (tom_record offset).
Definition storage_record_uuid (uuid : bytes) : M Storage Rec :=
  s ← get; r ← require (index_find uuid (index s)); mret (default defaultRec r).
Definition storage_data (record : Rec) : M Storage bytes :=
  with_tom (rec_tomId record) (tom_data record).

Definition storage_remove (record : Rec) : M Storage (bool * Rec) :=
  s ← get;
  match toms s !! rec_tomId record with
  | None => throw (StdOutOfRange "unordered_map::at")
  | Some _ =>
      uuid ← (if decide (rec_uuid (rec_header record) = emptyUuid)
              then catch (r ← with_tom (rec_tomId record) (tom_record (rec_offset record));
                          mret (rec_uuid (rec_header r)))
                         (λ _, mret emptyUuid)
              else mret (rec_uuid (rec_header record)));
      '(ok, record') ← with_tom (rec_tomId record) (tom_remove record);
      _ ← when (ok && negb (bool_decide (uuid = emptyUuid)))
            (update_index (index_erase uuid));
      mret (ok, record')
  end.

(** The loop that rebuildIndex and scan run over one tom: [visit] is its body for
    a live record. [None]: the fuel ran out. *)
Fixpoint walk {B} (fuel : nat) (tomId : Z) (visit : Rec → M Storage (list B)) (offset : Z)
    : M Storage (option (list B)) :=
  match fuel with
  | O => mret None
  | S fuel =>
      rec ← storage_record tomId offset;
      if rec_tomId rec =? UINT32_MAX then mret (Some [])
      else if rec_dataSize (rec_header rec) =? 0 then mret (Some [])
      else
        here ← (if rec_deleted (rec_header rec) =? 0 then visit rec else mret []);
        rest ← walk fuel tomId visit
                 (wrapU 64 (offset + Z.of_nat sizeofHeader + rec_dataSize (rec_header rec)));
        mret (app here <$> rest)
  end.

(** for (auto &[tomId, t] : _tom): [order] is the map's iteration order. *)
Fixpoint walkAll {B} (fuel : nat) (visit : Rec → M Storage (list B)) (order : list Z)
    : M Storage (option (list B)) :=
  match order with
  | [] => mret (Some [])
  | id :: order =>
      here ← walk fuel id visit 0;
      match here with
      | None => mret None
      | Some here => rest ← walkAll fuel visit order; mret (app here <$> rest)
      end
  end.

Definition indexVisit (rec : Rec) : M Storage (list unit) :=
  _ ← update_index (index_assign (rec_uuid (rec_header rec)) rec); mret [].
Definition rebuildIndex (fuel : nat) (order : list Z) : M Storage bool :=
  r ← walkAll fuel indexVisit order; mret (bool_decide (is_Some r)).

Definition scanVisit (rec : Rec) : M Storage (list (Rec * bytes)) :=
  catch (data ← storage_data rec; mret [(rec, data)]) (λ _, mret []).
Definition scan (fuel : nat) (order : list Z) : M Storage (option (list (Rec * bytes))) :=
  walkAll fuel scanVisit order.

(** Storage::Storage on the tom files of its directory, given as the numeric names
    with their contents: opens every file, then rebuilds the index. *)
Definition openStorage (files : gmap Z bytes) : Storage :=
  mkStorage (foldr Z.max 0 (map_to_list files).*1)
            (map_imap (λ id contents, Some (openTom id contents)) files) index_empty.

(** Storage::scanPrefix. The cursor is (tomId, offset); the loop over one tom
    returns what it collected, the offset it stopped at when the budget was spent
    ([None] when it reached the end of the tom), and the number of records seen. *)
Definition SweepCursor : Type := Z * Z.
Fixpoint prefixWalk (fuel : nat) (tomId : Z) (prefixLen maxRecords scanned : nat) (offset : Z)
    : M Storage (option (list (Rec * bytes) * option Z * nat)) :=
  match fuel with
  | O => mret None
  | S fuel =>
      if decide (maxRecords <= scanned)%nat then mret (Some ([], Some offset, scanned))
      else
        rec ← storage_record tomId offset;
        if rec_tomId rec =? UINT32_MAX then mret (Some ([], None, scanned))
        else if rec_dataSize (rec_header rec) =? 0 then mret (Some ([], None, scanned))
        else
          let next := wrapU 64 (offset + Z.of_nat sizeofHeader + rec_dataSize (rec_header rec)) in
          here ← (if rec_deleted (rec_header rec) =? 0 then
                    prefix ← with_tom tomId (tom_dataPrefix rec prefixLen);
                    mret (match prefix with [] => [] | _ => [(rec, prefix)] end)
                  else mret []);
          rest ← prefixWalk fuel tomId prefixLen maxRecords (S scanned) next;
          mret (match rest with Some (l, o, n) => Some (here ++ l, o, n) | None => None end)
  end.

Fixpoint prefixToms (fuel : nat) (prefixLen maxRecords scanned : nat) (cursor : SweepCursor)
    (resuming : bool) (ids : list Z) : M Storage (option (list (Rec * bytes) * SweepCursor)) :=
  match ids with
  | [] => mret (Some ([], (0, 0)))
  | id :: ids =>
      if resuming && (id <? cursor.1) then prefixToms fuel prefixLen maxRecords scanned cursor resuming ids
      else
        let offset := if resuming && (id =? cursor.1) then cursor.2 else 0 in
        r ← prefixWalk fuel id prefixLen maxRecords scanned offset;
        match r with
        | None => mret None
        | Some (l, Some o, _) => mret (Some (l, (id, o)))
        | Some (l, None, n) =>
            rest ← prefixToms fuel prefixLen maxRecords n cursor false ids;
            mret (match rest with Some (l', c) => Some (l ++ l', c) | None => None end)
        end
  end.

Definition sortedIds (s : Storage) : list Z := merge_sort Z.le (map_to_list (toms s)).*1.
Definition scanPrefix (fuel : nat) (prefixLen maxRecords : nat) (cursor : SweepCursor)
    : M Storage (option (list (Rec * bytes) * SweepCursor)) :=
  ids ← gets sortedIds; prefixToms fuel prefixLen maxRecords 0 cursor true ids.
End Storage.

(** A finite map as the index. *)
#[export] Instance map_index : Index (gmap bytes Rec) := {|
  index_empty := ∅;
  index_find uuid m := Some (m !! uuid);
  index_assign uuid r m := Some (<[uuid := r]> m);
  index_erase uuid m := Some (delete uuid m)
|}.
Notation Storage := (StorageOn (@gmap bytes list.list_eq_dec list_countable Rec)).

(** *** The contents of a tom *)
Record entry : Type := mkEntry { e_uuid : bytes; e_data : bytes; e_deleted : bool }.
Definition headerOf (e : entry) : Header :=
  mkHeader (e_uuid e) (Z.of_nat (length (e_data e))) (if e_deleted e then 1 else 0).
Definition encEntry (e : entry) : bytes := encHeader (headerOf e) ++ e_data e.
Definition encAll (es : list entry) : bytes := es ≫= encEntry.
Definition okEntry (e : entry) : Prop := length (e_uuid e) = 16%nat ∧ e_data e ≠ [].

(** A sound tom holding the entries [es]. *)
Record repr (t : Tom) (es : list entry) : Prop := {
  rp_file : tom_file t = encAll es;
  rp_size : tom_size t = Z.of_nat (length (encAll es));
  rp_sound : tom_failed t = false;
  rp_entries : Forall okEntry es;
  rp_bound : tom_size t <= INT64_MAX;
  rp_id : tom_id t ≠ UINT32_MAX
}.

(** Where an entry starts when [es] precede it, and its record. *)
Definition offsetAfter (es : list entry) : Z := Z.of_nat (length (encAll es)).
Definition recOf (id : Z) (before : list entry) (e : entry) : Rec :=
  mkRec id (offsetAfter before) (headerOf e).

Lemma length_encHeader h : length (rec_uuid h) = 16%nat → length (encHeader h) = 32%nat.
Proof. intros H. unfold encHeader. rewrite !length_app, !length_encLE, length_replicate, H. done. Qed.

Lemma length_encEntry e : okEntry e → length (encEntry e) = (32 + length (e_data e))%nat.
Proof. intros [H _]. unfold encEntry. by rewrite length_app, length_encHeader. Qed.

Lemma encAll_app es1 es2 : encAll (es1 ++ es2) = encAll es1 ++ encAll es2.
Proof. apply bind_app. Qed.

Lemma encAll_cons e es : encAll (e :: es) = encEntry e ++ encAll es.
Proof. done. Qed.

Lemma decHeader_enc h rest :
  length (rec_uuid h) = 16%nat → inU 64 (rec_dataSize h) → inS 8 (rec_deleted h) →
  decHeader (encHeader h ++ rest) = h.
Proof.
  intros Hu Hs Hd. destruct h as [u s d]. unfold decHeader, encHeader. cbn [rec_uuid rec_dataSize rec_deleted] in *.
  rewrite <-!app_assoc. f_equal.
  - by rewrite take_app_length'.
  - rewrite drop_app_length' by done. rewrite take_app_length' by (by rewrite length_encLE).
    by rewrite decU_encLE.
  - rewrite (app_assoc u), drop_app_length' by (by rewrite length_app, length_encLE, Hu).
    rewrite take_app_length' by (by rewrite length_encLE). by rewrite decS_encLE by (lia || done).
Qed.

Lemma okEntry_header e : okEntry e → Z.of_nat (length (e_data e)) <= INT64_MAX →
  length (rec_uuid (headerOf e)) = 16%nat ∧ inU 64 (rec_dataSize (headerOf e)) ∧
  inS 8 (rec_deleted (headerOf e)).
Proof.
  intros [Hu _] Hl. split; [done|]. split; [|by destruct e as [? ? []]].
  unfold inU. simpl. change INT64_MAX with 9223372036854775807 in Hl. lia.
Qed.

(** The entries around one of them, as bytes at an offset. *)
Lemma repr_cursor t es1 e es2 :
  repr t (es1 ++ e :: es2) →
  cursor (tom_file t) (length (encAll es1)) (encHeader (headerOf e) ++ e_data e ++ encAll es2).
Proof.
  intros H. rewrite (rp_file _ _ H), encAll_app, encAll_cons. exists (encAll es1).
  unfold encEntry. by rewrite <-!app_assoc.
Qed.

Lemma repr_middle t es1 e es2 :
  repr t (es1 ++ e :: es2) →
  okEntry e ∧ offsetAfter es1 + 32 + Z.of_nat (length (e_data e)) <= tom_size t ∧
  tom_size t <= INT64_MAX.
Proof.
  intros H. pose proof (rp_entries _ _ H) as [_ [He _]%Forall_cons_1]%Forall_app.
  split; [done|]. split; [|apply H]. rewrite (rp_size _ _ H), encAll_app, encAll_cons, !length_app.
  rewrite length_encEntry by done. unfold offsetAfter. lia.
Qed.

Lemma fread_at t off n mid rest :
  tom_failed t = false → cursor (tom_file t) off (mid ++ rest) → n = length mid →
  fread (Z.of_nat off) n t = Ok (Some mid) t.
Proof.
  intros Hf Hc ->. unfold fread. rewrite Hf, Nat2Z.id.
  rewrite (cursor_slice _ _ _ _ _ Hc eq_refl).
  pose proof (cursor_length _ _ _ Hc) as Hl. rewrite length_app in Hl.
  by replace (_ <=? _) with true by lia.
Qed.

(** *** Reading *)
Lemma tom_record_at t es1 e es2 :
  repr t (es1 ++ e :: es2) → tom_record (offsetAfter es1) t = Ok (recOf (tom_id t) es1 e) t.
Proof.
  intros H. destruct (repr_middle _ _ _ _ H) as (He & Hb & Hm).
  unfold tom_record. mrun. replace (offsetAfter es1 <? tom_size t) with true by lia.
  pose proof (repr_cursor _ _ _ _ H) as C. unfold offsetAfter at 1.
  rewrite (fread_at t (length (encAll es1)) sizeofHeader _ _ (rp_sound _ _ H) C)
    by (by rewrite length_encHeader by apply He).
  unfold recOf. do 2 f_equal. rewrite <-(app_nil_r (encHeader _)).
  unfold offsetAfter in *. destruct (okEntry_header e He) as (? & ? & ?); [lia|]. by apply decHeader_enc.
Qed.

Lemma tom_record_end t es : repr t es → tom_record (offsetAfter es) t = Ok defaultRec t.
Proof.
  intros H. unfold tom_record. mrun. rewrite (rp_size _ _ H).
  by replace (offsetAfter es <? _) with false by (unfold offsetAfter; lia).
Qed.

Lemma offset_wrap t es1 e es2 k :
  repr t (es1 ++ e :: es2) → 0 <= k <= 32 + Z.of_nat (length (e_data e)) →
  wrapU 64 (offsetAfter es1 + k) = offsetAfter es1 + k.
Proof.
  intros H Hk. destruct (repr_middle _ _ _ _ H) as (He & Hb & Hm). apply wrapU_id.
  unfold inU. change INT64_MAX with (2 ^ 63 - 1) in Hm. unfold offsetAfter in *. lia.
Qed.

Lemma tom_data_at t es1 e es2 :
  repr t (es1 ++ e :: es2) → tom_data (recOf (tom_id t) es1 e) t = Ok (e_data e) t.
Proof.
  intros H. destruct (repr_middle _ _ _ _ H) as (He & Hb & Hm).
  unfold tom_data, recOf, headerOf. cbn [rec_header rec_dataSize rec_offset].
  destruct (e_data e) as [|b d] eqn:Hd; [by destruct He|]. rewrite <-Hd in *.
  replace (Z.of_nat (length (e_data e)) =? 0) with false by (rewrite Hd; simpl; lia).
  unfold resize_ok. replace (_ <=? INT64_MAX) with true by (unfold offsetAfter in *; lia). cbn [negb].
  change (Z.of_nat sizeofHeader) with 32. rewrite (offset_wrap t es1 e es2) by (done || lia).
  mrun. pose proof (repr_cursor _ _ _ _ H) as C.
  epose proof (cursor_next _ _ _ _ _ C eq_refl) as C1.
  rewrite length_encHeader in C1 by apply He.
  replace (offsetAfter es1 + 32) with (Z.of_nat (length (encAll es1) + 32)) by (unfold offsetAfter; lia).
  rewrite Nat2Z.id. by rewrite (fread_at _ _ _ _ _ (rp_sound _ _ H) C1 eq_refl).
Qed.

(** *** Writing *)
Lemma write_at_end file src : write_at file (length file) src = file ++ src.
Proof.
  unfold write_at. rewrite take_ge, Nat.sub_diag, drop_ge by lia. simpl. by rewrite app_nil_r.
Qed.

Lemma write_at_middle pre mid post src :
  length src = length mid → write_at (pre ++ mid ++ post) (length pre) src = pre ++ src ++ post.
Proof.
  intros H. unfold write_at. rewrite take_app_length, length_app.
  replace (length pre - _)%nat with 0%nat by lia. rewrite <-drop_drop, drop_app_length, H.
  by rewrite drop_app_length.
Qed.

Lemma tom_append_spec t es u d :
  repr t es → okEntry (mkEntry u d false) →
  tom_size t + 32 + Z.of_nat (length d) <= INT64_MAX →
  ∃ t', tom_append u d t = Ok (recOf (tom_id t) es (mkEntry u d false)) t' ∧
    repr t' (es ++ [mkEntry u d false]) ∧ tom_id t' = tom_id t.
Proof.
  intros H He Hb. pose proof (rp_size _ _ H) as Hs. pose proof (rp_sound _ _ H) as Hf.
  exists (set_file (tom_file t ++ encEntry (mkEntry u d false))
           (set_size (tom_size t + 32 + Z.of_nat (length d)) t)).
  assert (Hlen : encAll (es ++ [mkEntry u d false]) = tom_file t ++ encEntry (mkEntry u d false)).
  { by rewrite encAll_app, (rp_file _ _ H), encAll_cons, app_nil_r. }
  split; [|split; [split; simpl|done]].
  - unfold tom_append. destruct d as [|b d]; [by destruct He|]. mrun. unfold fwrite. simpl.
    rewrite Hf. change (Z.of_nat sizeofHeader) with 32.
    rewrite (wrapU_id 64) by (unfold inU; change INT64_MAX with (2 ^ 63 - 1) in Hb; simpl in Hb; lia).
    rewrite Hs at 1 2. rewrite Nat2Z.id, <-(rp_file _ _ H), write_at_end, Z.add_assoc. unfold recOf, offsetAfter.
    by rewrite <-(rp_file _ _ H).
  - done.
  - rewrite Hlen, length_app, length_encEntry by done. simpl. rewrite Hs, (rp_file _ _ H). simpl. lia.
  - done.
  - apply Forall_app. split; [apply H|]. by constructor.
  - done.
  - apply H.
Qed.

Definition kill (e : entry) : entry := mkEntry (e_uuid e) (e_data e) true.

Lemma encEntry_kill e :
  okEntry e → ∃ pre b post, encEntry e = pre ++ [b] ++ post ∧ encEntry (kill e) = pre ++ encLE 1 1 ++ post ∧
    length pre = 24%nat.
Proof.
  intros [Hu _]. exists (e_uuid e ++ encLE 8 (Z.of_nat (length (e_data e)))).
  destruct (encLE 1 (if e_deleted e then 1 else 0)) as [|b [|? ?]] eqn:Hb;
    try (apply (f_equal length) in Hb; by rewrite length_encLE in Hb).
  exists b, (replicate 7 b0 ++ e_data e). unfold encEntry, encHeader, headerOf, kill.
  cbn [rec_uuid rec_dataSize rec_deleted e_uuid e_data e_deleted]. rewrite Hb.
  split; [by rewrite <-!app_assoc|]. split; [by rewrite <-!app_assoc|].
  by rewrite length_app, length_encLE, Hu.
Qed.

Lemma length_encEntry_kill e : length (encEntry (kill e)) = length (encEntry e).
Proof. unfold encEntry, encHeader. by rewrite !length_app, !length_encLE. Qed.

Lemma tom_remove_at t es1 e es2 r :
  repr t (es1 ++ e :: es2) → rec_offset r = offsetAfter es1 → rec_deleted (rec_header r) = 0 →
  ∃ t', tom_remove r t = Ok (true, set_deleted 1 r) t' ∧
    repr t' (es1 ++ kill e :: es2) ∧ tom_id t' = tom_id t.
Proof.
  intros H Hr Hd. destruct (repr_middle _ _ _ _ H) as (He & Hb & Hm).
  destruct (encEntry_kill e He) as (pre & b & post & H1 & H2 & H3).
  exists (set_file (encAll (es1 ++ kill e :: es2)) t).
  assert (Hlen : length (encAll (es1 ++ kill e :: es2)) = length (encAll (es1 ++ e :: es2))).
  { by rewrite !encAll_app, !encAll_cons, !length_app, length_encEntry_kill. }
  split; [|split; [split; simpl|done]].
  - unfold tom_remove. rewrite Hd, Hr. cbn [Z.eqb negb].
    change (Z.of_nat offsetofDeleted) with 24. rewrite (offset_wrap t es1 e es2) by (done || lia).
    mrun. unfold fwrite. rewrite (rp_sound _ _ H). do 2 f_equal.
    rewrite (rp_file _ _ H), !encAll_app, !encAll_cons, H1, H2.
    replace (Z.to_nat (offsetAfter es1 + 24)) with (length (encAll es1 ++ pre))
      by (rewrite length_app, H3; unfold offsetAfter; lia).
    rewrite <-!app_assoc, (app_assoc (encAll es1)), write_at_middle by done. by rewrite <-!app_assoc.
  - done.
  - by rewrite Hlen, (rp_size _ _ H).
  - apply H.
  - pose proof (rp_entries _ _ H) as [F1 [F2 F3]%Forall_cons_1]%Forall_app.
    apply Forall_app. split; [done|]. by constructor.
  - apply H.
  - apply H.
Qed.

(** *** The contents of a storage *)

(** The live entries of a tom with their records, [before] being what precedes. *)
Fixpoint liveRecs (id : Z) (before es : list entry) : list (Rec * entry) :=
  match es with
  | [] => []
  | e :: es => (if e_deleted e then [] else [(recOf id before e, e)]) ++ liveRecs id (before ++ [e]) es
  end.
Notation contents := (gmap Z (list entry)).
Definition liveOf (c : contents) (id : Z) : list (Rec * entry) := liveRecs id [] (default [] (c !! id)).
Definition liveAll (c : contents) : list (Rec * entry) := map_to_list c ≫= λ p, liveRecs p.1 [] p.2.
Definition live_uuid (re : Rec * entry) : bytes := e_uuid re.2.

(** What removing records leaves as it was. *)
Definition shape (c : contents) : gmap Z (list entry) := (λ es : list entry, kill <$> es) <$> c.

(** The index finds exactly the records of [l]. *)
Definition index_of (ix : gmap bytes Rec) (l : list (Rec * entry)) : Prop :=
  ∀ u r, ix !! u = Some r ↔ ∃ e, (r, e) ∈ l ∧ e_uuid e = u.
Definition valid_ids (c : contents) : Prop := ∀ id, is_Some (c !! id) → 0 <= id < UINT32_MAX - 1.
(** A storage that holds [c] with an index that agrees: live uuids are distinct,
    and the index finds exactly the live records. *)
Record wf_storage (s : Storage) (c : contents) : Prop := {
  wfs_toms : map_Forall2 (λ id t es, repr t es ∧ tom_id t = id) (toms s) c;
  wfs_uuids : NoDup (live_uuid <$> liveAll c);
  wfs_index : index_of (index s) (liveAll c);
  wfs_ids : valid_ids c;
  wfs_current : 0 <= currentTomId s < UINT32_MAX - 1 ∧
    (toms s !! currentTomId s = None → currentTomId s = 0 ∧ toms s = ∅)
}.

Lemma offsetAfter_kill es1 e es2 : offsetAfter (es1 ++ kill e :: es2) = offsetAfter (es1 ++ e :: es2).
Proof. unfold offsetAfter. by rewrite !encAll_app, !encAll_cons, !length_app, length_encEntry_kill. Qed.

Lemma liveRecs_before id b1 b2 es :
  length (encAll b1) = length (encAll b2) → liveRecs id b1 es = liveRecs id b2 es.
Proof.
  revert b1 b2. induction es as [|e es IH]; intros b1 b2 H; simpl; [done|].
  unfold recOf, offsetAfter. rewrite H. f_equal. apply IH. by rewrite !encAll_app, !length_app, H.
Qed.

Lemma liveRecs_app id b es1 es2 :
  liveRecs id b (es1 ++ es2) = liveRecs id b es1 ++ liveRecs id (b ++ es1) es2.
Proof.
  revert b. induction es1 as [|e es1 IH]; intros b; simpl; [by rewrite app_nil_r|].
  by rewrite IH, <-!app_assoc.
Qed.

Lemma liveRecs_inv id b es r e :
  (r, e) ∈ liveRecs id b es →
  ∃ es1 es2, es = es1 ++ e :: es2 ∧ r = recOf id (b ++ es1) e ∧ e_deleted e = false.
Proof.
  revert b. induction es as [|e' es IH]; intros b; simpl; [by intros ?%not_elem_of_nil|].
  intros [H|H]%elem_of_app.
  - destruct (e_deleted e') eqn:Hd; [by apply not_elem_of_nil in H|].
    apply list_elem_of_singleton in H as [= -> ->]. exists [], es. split; [done|]. by rewrite app_nil_r.
  - destruct (IH _ H) as (es1 & es2 & -> & -> & ?). exists (e' :: es1), es2. split; [done|]. by rewrite <-app_assoc.
Qed.

Lemma liveRecs_kill id b es1 e es2 :
  e_deleted e = false →
  liveRecs id b (es1 ++ e :: es2) ≡ₚ (recOf id (b ++ es1) e, e) :: liveRecs id b (es1 ++ kill e :: es2).
Proof.
  intros Hd. rewrite !liveRecs_app. simpl. rewrite Hd. simpl.
  rewrite (liveRecs_before id ((b ++ es1) ++ [kill e]) ((b ++ es1) ++ [e])).
  - by rewrite Permutation_middle.
  - by rewrite !encAll_app, !encAll_cons, !length_app, length_encEntry_kill.
Qed.

Lemma liveAll_insert c id es es' :
  c !! id = Some es →
  ∃ rest, liveAll c ≡ₚ liveRecs id [] es ++ rest ∧ liveAll (<[id := es']> c) ≡ₚ liveRecs id [] es' ++ rest.
Proof.
  intros H. exists (liveAll (delete id c)). split.
  - rewrite <-(insert_delete_id c id es H) at 1. unfold liveAll.
    rewrite map_to_list_insert by apply lookup_delete_eq. done.
  - rewrite <-insert_delete_eq. unfold liveAll.
    rewrite map_to_list_insert by apply lookup_delete_eq. done.
Qed.

Lemma liveAll_inv c r e :
  (r, e) ∈ liveAll c →
  ∃ id es1 es2, c !! id = Some (es1 ++ e :: es2) ∧ r = recOf id es1 e ∧ e_deleted e = false.
Proof.
  unfold liveAll. intros ([id es] & Hr & Hin)%list_elem_of_bind. apply elem_of_map_to_list in Hin.
  cbn [fst snd] in Hr. apply liveRecs_inv in Hr as (es1 & es2 & -> & -> & ?). by exists id, es1, es2.
Qed.

Lemma with_tom_same {A} id (op : M Tom A) (s : Storage) t a :
  toms s !! id = Some t → op t = Ok a t → with_tom id op s = Ok a s.
Proof.
  intros Ht Ho. unfold with_tom. rewrite Ht, Ho. f_equal. unfold set_toms.
  rewrite insert_id by done. by destruct s.
Qed.

(** *** The walk *)
Section Walk.
Context {B : Type} (id : Z) (t : Tom) (visit : Rec → M Storage (list B)).
Context (out : Rec * entry → list B) (eff : Rec → Storage → Storage).
Context (Hid : tom_id t = id) (Heff : ∀ r s, toms (eff r s) = toms s).

Lemma walk_spec fuel s es1 es2 :
  toms s !! id = Some t → repr t (es1 ++ es2) → (length es2 < fuel)%nat →
  (∀ s' before e after, toms s' = toms s → es1 ++ es2 = before ++ e :: after → e_deleted e = false →
     visit (recOf id before e) s' = Ok (out (recOf id before e, e)) (eff (recOf id before e) s')) →
  walk fuel id visit (offsetAfter es1) s
  = Ok (Some (liveRecs id es1 es2 ≫= out)) (foldl (λ s re, eff re.1 s) s (liveRecs id es1 es2)).
Proof.
  revert s es1 es2. induction fuel as [|fuel IH]; intros s es1 es2 Ht Hr Hf Hv; [lia|].
  cbn [walk]. unfold storage_record. destruct es2 as [|e es2].
  - rewrite app_nil_r in Hr. by rewrite (bind_ok _ _ _ _ _ (with_tom_same _ _ _ _ _ Ht (tom_record_end _ _ Hr))).
  - pose proof (tom_record_at _ _ _ _ Hr) as Hrec. rewrite Hid in Hrec.
    rewrite (bind_ok _ _ _ _ _ (with_tom_same _ _ _ _ _ Ht Hrec)).
    pose proof (rp_id _ _ Hr) as Hmax. rewrite Hid in Hmax.
    destruct (repr_middle _ _ _ _ Hr) as ((Hu & Hd) & Hb & Hm).
    assert (length (e_data e) ≠ 0%nat) by (by destruct (e_data e)).
    change (rec_tomId (recOf id es1 e)) with id.
    change (rec_dataSize (rec_header (recOf id es1 e))) with (Z.of_nat (length (e_data e))).
    change (rec_deleted (rec_header (recOf id es1 e))) with (if e_deleted e then 1 else 0).
    replace (id =? UINT32_MAX) with false by lia.
    replace (Z.of_nat (length (e_data e)) =? 0) with false by lia.
    change (Z.of_nat sizeofHeader) with 32. rewrite <-Z.add_assoc, (offset_wrap t es1 e es2) by (done || lia).
    assert (Hnext : offsetAfter es1 + (32 + Z.of_nat (length (e_data e))) = offsetAfter (es1 ++ [e])).
    { unfold offsetAfter. rewrite encAll_app, encAll_cons, !length_app, length_encEntry by done. simpl. lia. }
    rewrite Hnext.
    assert (Hstep : ∀ s', toms s' = toms s →
      walk fuel id visit (offsetAfter (es1 ++ [e])) s'
      = Ok (Some (liveRecs id (es1 ++ [e]) es2 ≫= out))
           (foldl (λ s re, eff re.1 s) s' (liveRecs id (es1 ++ [e]) es2))).
    { intros s' Hs'. apply IH; [by rewrite Hs'|by rewrite <-app_assoc|simpl in *; lia|].
      intros s'' b e' a Hs'' He'. apply (Hv s'' b e' a); [by rewrite Hs'', Hs'|].
      by rewrite <-He', <-app_assoc. }
    cbn [liveRecs]. destruct (e_deleted e) eqn:Hdel; cbn [Z.eqb].
    + rewrite bind_ret. rewrite (bind_ok _ _ _ _ _ (Hstep s eq_refl)). done.
    + rewrite (bind_ok _ _ _ _ _ (Hv s es1 e es2 eq_refl eq_refl Hdel)).
      rewrite (bind_ok _ _ _ _ _ (Hstep _ (Heff _ _))). done.
Qed.
End Walk.

(** What the storage needs of its toms, apart from the index. *)
Notation toms_hold := (map_Forall2 (λ id t es, repr t es ∧ tom_id t = id)).

Lemma toms_lookup (s : Storage) c id es :
  toms_hold (toms s) c → c !! id = Some es → ∃ t, toms s !! id = Some t ∧ repr t es ∧ tom_id t = id.
Proof.
  intros H Hc. specialize (H id). rewrite Hc in H. inversion H as [t ? [? ?]|]; subst. by exists t.
Qed.

Lemma toms_lookup_l (s : Storage) c id t :
  toms_hold (toms s) c → toms s !! id = Some t → ∃ es, c !! id = Some es ∧ repr t es ∧ tom_id t = id.
Proof.
  intros H Hc. specialize (H id). rewrite Hc in H. inversion H as [? es [? ?]|]; subst. by exists es.
Qed.

Section WalkAll.
Context {B : Type} (visit : Rec → M Storage (list B)).
Context (out : Rec * entry → list B) (eff : Rec → Storage → Storage).
Context (Heff : ∀ r s, toms (eff r s) = toms s).
Context (c : contents) (fuel : nat).
Context (Hfuel : ∀ id es, c !! id = Some es → (length es < fuel)%nat).

Lemma walkAll_spec s order :
  toms_hold (toms s) c → Forall (λ id, is_Some (c !! id)) order →
  (∀ s' id before e after, toms s' = toms s → c !! id = Some (before ++ e :: after) → e_deleted e = false →
     visit (recOf id before e) s' = Ok (out (recOf id before e, e)) (eff (recOf id before e) s')) →
  walkAll fuel visit order s
  = Ok (Some ((order ≫= liveOf c) ≫= out)) (foldl (λ s re, eff re.1 s) s (order ≫= liveOf c)).
Proof.
  intros Hc Ho. revert s Hc. induction Ho as [|id order [es He] Ho IH]; intros s Hc Hv; [done|].
  cbn [walkAll]. destruct (toms_lookup s c id es Hc He) as (t & Ht & Hr & Hid).
  assert (Hl : liveOf c id = liveRecs id [] es) by (unfold liveOf; by rewrite He).
  pose proof (walk_spec id t visit out eff Hid Heff fuel s [] es Ht Hr (Hfuel _ _ He)) as Hw.
  change (offsetAfter []) with 0 in Hw.
  assert (Hw' := Hw ltac:(intros s' b e a Hs' Hes; apply (Hv s' id b e a Hs'); rewrite He; by f_equal)).
  rewrite (bind_ok _ _ _ _ _ Hw').
  set (s1 := foldl _ s _).
  assert (Hs1 : toms s1 = toms s).
  { unfold s1. clear -Heff. generalize (liveRecs id [] es). intros l. revert s.
    induction l as [|re l IHl]; intros s; [done|]. simpl. by rewrite IHl. }
  assert (E : walkAll fuel visit order s1
    = Ok (Some ((order ≫= liveOf c) ≫= out)) (foldl (λ s re, eff re.1 s) s1 (order ≫= liveOf c))).
  { apply IH; [by rewrite Hs1|]. intros s' i b e a Hs'. apply Hv. by rewrite Hs', Hs1. }
  rewrite (bind_ok _ _ _ _ _ E). simpl. rewrite Hl, bind_app, foldl_app. done.
Qed.
End WalkAll.

(** The iteration order of an unordered_map. *)
Definition iterates (order : list Z) (s : Storage) : Prop := order ≡ₚ (map_to_list (toms s)).*1.
Definition enough_fuel (fuel : nat) (c : contents) : Prop :=
  ∀ id es, c !! id = Some es → (length es < fuel)%nat.

Lemma hold_keys (m : gmap Z Tom) (c : contents) :
  toms_hold m c → (map_to_list m).*1 ≡ₚ (map_to_list c).*1.
Proof.
  intros H. apply NoDup_Permutation; [apply NoDup_fst_map_to_list..|]. intros id.
  rewrite !elem_of_keys. specialize (H id). inversion H; split; intros []; simplify_eq; eauto.
Qed.

Lemma order_live (s : Storage) c order :
  toms_hold (toms s) c → iterates order s →
  Forall (λ id, is_Some (c !! id)) order ∧ order ≫= liveOf c ≡ₚ liveAll c.
Proof.
  intros H Ho. unfold iterates in Ho. rewrite (hold_keys _ _ H) in Ho. split.
  - rewrite Ho. apply Forall_fmap, list.Forall_forall. intros [id es] Hin%elem_of_map_to_list. by exists es.
  - rewrite Ho. unfold liveAll.
    assert (Hg : ∀ l : list (Z * list entry), (∀ p, p ∈ l → c !! p.1 = Some p.2) →
      (l.*1 ≫= liveOf c) = (l ≫= λ p, liveRecs p.1 [] p.2)).
    { intros l. induction l as [|[id es] l IH]; intros Hl; [done|]. csimpl.
      rewrite IH by (intros p Hp; apply Hl; set_solver).
      unfold liveOf. pose proof (Hl (id, es) ltac:(set_solver)) as Hid. simpl in Hid. by rewrite Hid. }
    rewrite Hg; [done|]. intros [id es] Hp. by apply elem_of_map_to_list in Hp.
Qed.

(** *** scan *)
Lemma scan_spec (s : Storage) c order fuel :
  toms_hold (toms s) c → iterates order s → enough_fuel fuel c →
  scan fuel order s = Ok (Some ((λ re, (re.1, e_data re.2)) <$> (order ≫= liveOf c))) s.
Proof.
  intros H Ho Hf. destruct (order_live s c order H Ho) as [Hd _].
  unfold scan. rewrite (walkAll_spec scanVisit (λ re, [(re.1, e_data re.2)]) (λ _ s, s) (λ _ _, eq_refl)
    c fuel Hf s order H Hd).
  - generalize (order ≫= liveOf c). intros l.
    assert (foldl (λ s (_ : Rec * entry), s) s l = s) as -> by by induction l.
    done.
  - intros s' id b e a Hs' He Hdel. unfold scanVisit, catch.
    rewrite <-Hs' in H. destruct (toms_lookup s' c id _ H He) as (t & Ht & Hr & Hid).
    pose proof (tom_data_at _ _ _ _ Hr) as Hdata. rewrite Hid in Hdata.
    by rewrite (bind_ok (storage_data (recOf id b e)) _ _ _ _ (with_tom_same _ _ _ _ _ Ht Hdata)).
Qed.

(** *** The index *)
Lemma indexVisit_map r (s : Storage) :
  indexVisit r s = Ok [] (set_index (<[rec_uuid (rec_header r) := r]> (index s)) s).
Proof. done. Qed.
Lemma index_of_empty : index_of ∅ [].
Proof. intros u r. rewrite lookup_empty. split; [done|]. by intros (e & ?%not_elem_of_nil & _). Qed.

Lemma index_of_perm ix l l' : l ≡ₚ l' → index_of ix l → index_of ix l'.
Proof. intros Hp H u r. rewrite (H u r). by setoid_rewrite Hp. Qed.

Lemma index_of_insert ix l r e :
  NoDup (live_uuid <$> (r, e) :: l) → index_of ix l → index_of (<[e_uuid e := r]> ix) ((r, e) :: l).
Proof.
  intros [Hn _]%list.NoDup_cons H u q. rewrite lookup_insert_Some, (H u q). split.
  - intros [[<- <-]|(Hne & e' & Hin & <-)]; [exists e|exists e']; set_solver.
  - intros (e' & [[= -> ->]|Hin]%elem_of_cons & <-); [by left|right]. split; [|by exists e'].
    intros Heq. apply Hn. apply list_elem_of_fmap. exists (q, e'). done.
Qed.

Lemma index_of_delete ix l r e :
  NoDup (live_uuid <$> (r, e) :: l) → index_of ix ((r, e) :: l) → index_of (delete (e_uuid e) ix) l.
Proof.
  intros [Hn _]%list.NoDup_cons H u q. rewrite lookup_delete_Some, (H u q). split.
  - intros (Hne & e' & [[= -> ->]|Hin]%elem_of_cons & <-); [done|by exists e'].
  - intros (e' & Hin & <-). split; [|exists e'; set_solver].
    intros Heq. apply Hn. apply list_elem_of_fmap. exists (q, e'). done.
Qed.

Lemma index_of_unique ix l r e u :
  NoDup (live_uuid <$> l) → index_of ix l → (r, e) ∈ l → e_uuid e = u → ix !! u = Some r.
Proof. intros _ H Hin Hu. apply H. by exists e. Qed.

(** The effect of visiting [l] during a rebuild. *)
Definition indexAll (s : Storage) (l : list (Rec * entry)) : Storage :=
  foldl (λ s re, set_index (<[rec_uuid (rec_header re.1) := re.1]> (index s)) s) s l.

Lemma indexAll_spec l l0 s :
  Forall (λ re, rec_uuid (rec_header re.1) = e_uuid re.2) l →
  NoDup (live_uuid <$> l0 ++ l) → index_of (index s) l0 →
  index_of (index (indexAll s l)) (l0 ++ l) ∧ toms (indexAll s l) = toms s ∧
  currentTomId (indexAll s l) = currentTomId s.
Proof.
  revert l0 s. induction l as [|[r e] l IH]; intros l0 s Hf Hn H; [by rewrite app_nil_r|].
  apply Forall_cons_1 in Hf as [He Hf]. simpl in He. unfold indexAll. simpl.
  destruct (IH ((r, e) :: l0) (set_index (<[rec_uuid (rec_header r) := r]> (index s)) s) Hf)
    as (H1 & H2 & H3).
  - rewrite <-Permutation_middle in Hn. done.
  - simpl. rewrite He. apply index_of_insert; [|done].
    rewrite <-Permutation_middle in Hn. simpl in Hn. rewrite fmap_app in Hn.
    apply list.NoDup_cons in Hn as [Hn1 Hn2]. apply list.NoDup_cons.
    split; [by intros Hin; apply Hn1, elem_of_app; left|].
    by apply list.NoDup_app in Hn2 as [].
  - split; [|done]. eapply index_of_perm, H1. simpl. by rewrite Permutation_middle.
Qed.

Lemma empty_wf : wf_storage (openStorage ∅) ∅.
Proof.
  split; simpl; [|constructor|apply index_of_empty| |].
  - intros id. rewrite map_lookup_imap, !lookup_empty. constructor.
  - intros id [? Hi]. by rewrite lookup_empty in Hi.
  - done.
Qed.

Lemma liveAll_uuids c : Forall (λ re, rec_uuid (rec_header re.1) = e_uuid re.2) (liveAll c).
Proof.
  apply list.Forall_forall. intros [r e] (id & es1 & es2 & _ & -> & _)%liveAll_inv. done.
Qed.

Lemma valid_ids_insert c id es es' : valid_ids c → c !! id = Some es → valid_ids (<[id := es']> c).
Proof. intros H Hc i [? [[<- _]|[_ Hi]]%lookup_insert_Some]; apply H; eauto. Qed.

(** *** Storage::append *)
Definition within (c : contents) (n : Z) : Prop :=
  ∀ id es, c !! id = Some es → Z.of_nat (length (encAll es)) <= n.

Lemma append_spec_at s c id t es u d :
  wf_storage s c → currentTomId s = id → toms s !! id = Some t → c !! id = Some es →
  repr t es → tom_id t = id →
  okEntry (mkEntry u d false) → u ∉ (live_uuid <$> liveAll c) →
  tom_size t + 32 + Z.of_nat (length d) <= INT64_MAX →
  let e := mkEntry u d false in let r := recOf id es e in
  ∃ s' c', storage_append u d s = Ok r s' ∧ wf_storage s' c' ∧
    liveAll c' ≡ₚ (r, e) :: liveAll c ∧ c' = <[id := es ++ [e]]> c.
Proof.
  intros Hwf Hcur Ht Hc Hr Hid He Hfresh Hb e r.
  destruct (tom_append_spec t es u d Hr He Hb) as (t' & Ha & Hr' & Hid').
  rewrite Hid in Ha. fold e r in Ha.
  assert (Hperm : liveAll (<[id := es ++ [e]]> c) ≡ₚ (r, e) :: liveAll c).
  { destruct (liveAll_insert c id es (es ++ [e]) Hc) as (rest & -> & ->).
    rewrite liveRecs_app. simpl. fold r. rewrite <-app_assoc. simpl. by rewrite Permutation_middle. }
  assert (Hnd : NoDup (live_uuid <$> (r, e) :: liveAll c)).
  { simpl. apply list.NoDup_cons. split; [done|apply Hwf]. }
  eexists (set_index (<[u := r]> (index s)) (set_toms (<[id := t']> (toms s)) s)), _.
  split; [|split; [|split; [exact Hperm|done]]].
  - unfold storage_append. destruct d as [|b d]; [by destruct He|].
    assert (Hcur' : currentTom s = Ok id s).
    { unfold currentTom. mrun. rewrite Hcur, Ht. done. }
    rewrite (bind_ok _ _ _ _ _ Hcur'). unfold with_tom. mrun. rewrite Ht, Ha. done.
  - split; simpl.
    + apply map_Forall2_insert_2; [|apply Hwf]. split; [done|congruence].
    + by rewrite Hperm.
    + eapply index_of_perm; [symmetry; exact Hperm|]. apply (index_of_insert _ _ r e Hnd), Hwf.
    + exact (valid_ids_insert _ _ _ _ (wfs_ids _ _ Hwf) Hc).
    + split; [exact (proj1 (wfs_current _ _ Hwf))|]. rewrite Hcur, lookup_insert_eq. done.
Qed.

(** The first append on an empty storage creates tom 1. *)
Lemma repr_fresh id : id ≠ UINT32_MAX → repr (openTom id []) [].
Proof. intros H. by split. Qed.

Lemma currentTom_fresh s c :
  wf_storage s c → toms s !! currentTomId s = None →
  currentTom s = Ok 1 (mkStorage 1 {[1 := openTom 1 []]} (index s)) ∧ c = ∅.
Proof.
  intros Hwf Hn. destruct (proj2 (wfs_current _ _ Hwf) Hn) as [H0 He].
  assert (c = ∅) as ->.
  { apply (map_Forall2_empty_inv_l (M:=gmap Z) (λ id t es, repr t es ∧ tom_id t = id)). rewrite <-He. apply Hwf. }
  split; [|done]. unfold currentTom. mrun. rewrite Hn, H0. unfold set_currentTomId. simpl.
  rewrite He. done.
Qed.

Lemma with_currentTom s c u d r s1 s2 :
  d ≠ [] → wf_storage s c → currentTom s = Ok 1 s1 →
  storage_append u d s1 = Ok r s2 → toms s1 !! 1 ≠ None → currentTomId s1 = 1 →
  storage_append u d s = Ok r s2.
Proof.
  intros Hd Hwf Hc Ha H1 H2. unfold storage_append in *. destruct d; [done|].
  rewrite (bind_ok _ _ _ _ _ Hc).
  assert (currentTom s1 = Ok 1 s1) as Hc1.
  { unfold currentTom. mrun. rewrite H2. by destruct (toms s1 !! 1). }
  by rewrite (bind_ok _ _ _ _ _ Hc1) in Ha.
Qed.

Lemma append_spec s c u d n :
  wf_storage s c → within c n → okEntry (mkEntry u d false) → u ∉ (live_uuid <$> liveAll c) →
  0 <= n → n + 32 + Z.of_nat (length d) <= INT64_MAX →
  ∃ r s' c', storage_append u d s = Ok r s' ∧ wf_storage s' c' ∧
    liveAll c' ≡ₚ (r, mkEntry u d false) :: liveAll c ∧ rec_uuid (rec_header r) = u ∧
    rec_offset r < INT64_MAX ∧ within c' (n + 32 + Z.of_nat (length d)).
Proof.
  intros Hwf Hin He Hf Hn Hb. destruct (toms s !! currentTomId s) as [t|] eqn:Ht.
  - destruct (toms_lookup_l s c _ t (wfs_toms _ _ Hwf) Ht) as (es & Hc & Hr & Hid).
    pose proof (rp_size _ _ Hr) as Hs. pose proof (Hin _ _ Hc) as Hle.
    destruct (append_spec_at s c _ t es u d Hwf eq_refl Ht Hc Hr Hid He Hf) as (s' & c' & H1 & H2 & H3 & ->);
      [lia|]. eexists _, s', _. do 3 (split; [done|]). split; [done|]. split.
    + simpl. unfold offsetAfter. assert (0 < Z.of_nat (length d)) by (destruct d; [by destruct He|simpl; lia]). lia.
    + intros id es' [[<- <-]|[_ Hc']]%lookup_insert_Some; [|specialize (Hin _ _ Hc'); lia].
      rewrite encAll_app, encAll_cons, !length_app, length_encEntry by done. simpl. lia.
  - destruct (currentTom_fresh s c Hwf Ht) as [Hcur ->].
    set (s1 := mkStorage 1 {[1 := openTom 1 []]} (index s)) in *.
    assert (Hwf1 : wf_storage s1 {[1 := []]}).
    { assert (Hl : liveAll {[1 := []]} = []) by done.
      destruct Hwf as [_ _ H3 _ _]. split; simpl; rewrite ?Hl; [|constructor|exact H3| |done].
      2: { intros id [es [<- _]%lookup_singleton_Some]. done. }
      apply map_Forall2_singleton. split; [by apply repr_fresh|done]. }
    destruct (append_spec_at s1 {[1 := []]} 1 (openTom 1 []) [] u d Hwf1 eq_refl eq_refl eq_refl (repr_fresh 1 ltac:(done))) as (s' & c' & H1 & H2 & H3 & ->);
      try done; [simpl; lia|].
    eexists _, s', _.
    split; [apply (with_currentTom s ∅ u d _ s1 s'); try done; by destruct He|]. do 3 (split; [done|]). split; [done|].
    intros id es' [[<- <-]|[_ [<- <-]%lookup_singleton_Some]]%lookup_insert_Some.
    + rewrite app_nil_l, encAll_cons, length_app, length_encEntry by done. simpl. lia.
    + simpl. lia.
Qed.

(** *** Storage::remove and the reads *)
Lemma remove_spec s c r e q :
  wf_storage s c → (r, e) ∈ liveAll c → e_uuid e ≠ emptyUuid →
  rec_tomId q = rec_tomId r → rec_offset q = rec_offset r → rec_deleted (rec_header q) = 0 →
  rec_uuid (rec_header q) = emptyUuid ∨ rec_uuid (rec_header q) = e_uuid e →
  ∃ s' c', storage_remove q s = Ok (true, set_deleted 1 q) s' ∧ wf_storage s' c' ∧
    liveAll c ≡ₚ (r, e) :: liveAll c' ∧ (∀ n, within c n → within c' n) ∧ shape c' = shape c.
Proof.
  intros Hwf Hin Hne Hqt Hqo Hqd Hqu.
  destruct (liveAll_inv _ _ _ Hin) as (id & es1 & es2 & Hc & -> & Hd).
  destruct (toms_lookup s c id _ (wfs_toms _ _ Hwf) Hc) as (t & Ht & Hr & Hid).
  simpl in Hqt, Hqo. destruct (tom_remove_at t es1 e es2 q Hr Hqo Hqd) as (t' & Hrm & Hr' & Hid').
  pose (c' := <[id := es1 ++ kill e :: es2]> c).
  assert (Hperm : liveAll c ≡ₚ (recOf id es1 e, e) :: liveAll (<[id := es1 ++ kill e :: es2]> c)).
  { destruct (liveAll_insert c id _ (es1 ++ kill e :: es2) Hc) as (rest & -> & ->).
    by rewrite (liveRecs_kill id [] es1 e es2 Hd). }
  fold c' in Hperm.
  assert (Hnd : NoDup (live_uuid <$> (recOf id es1 e, e) :: liveAll c')).
  { rewrite <-Hperm. apply Hwf. }
  eexists (set_index (delete (e_uuid e) (index s)) (set_toms (<[id := t']> (toms s)) s)), c'.
  split; [|split; [|split; [exact Hperm|]]].
  - unfold storage_remove. rewrite (bind_ok get _ s s s eq_refl), Hqt, Ht.
    assert (Huuid : (if decide (rec_uuid (rec_header q) = emptyUuid)
              then catch (r ← with_tom id (tom_record (rec_offset q));
                          mret (rec_uuid (rec_header r)))
                         (λ _, mret emptyUuid)
              else mret (rec_uuid (rec_header q))) s = Ok (e_uuid e) s).
    { pose proof (tom_record_at _ _ _ _ Hr) as Hrec. rewrite <-Hqo in Hrec.
      case_decide as Hcase.
      - unfold catch. by rewrite (bind_ok _ _ _ _ _ (with_tom_same _ _ _ _ _ Ht Hrec)).
      - destruct Hqu as [Hq0 | ->]; done. }
    rewrite (bind_ok _ _ _ _ _ Huuid). unfold with_tom. mrun. rewrite Ht, Hrm. simpl.
    by rewrite bool_decide_eq_false_2.
  - split; simpl.
    + apply map_Forall2_insert_2; [|apply Hwf]. split; [done|congruence].
    + by apply list.NoDup_cons in Hnd as [].
    + eapply index_of_delete; [exact Hnd|]. eapply index_of_perm; [exact Hperm|]. apply Hwf.
    + exact (valid_ids_insert _ _ _ _ (wfs_ids _ _ Hwf) Hc).
    + split; [exact (proj1 (wfs_current _ _ Hwf))|]. intros Hcur. apply lookup_insert_None in Hcur as [Hcur _].
      apply (proj2 (wfs_current _ _ Hwf)) in Hcur as [_ He]. by rewrite He, lookup_empty in Ht.
  - split.
    + intros n Hw id' es' [[<- <-]|[_ Hc']]%lookup_insert_Some; [|by eapply Hw].
      specialize (Hw _ _ Hc). pose proof (offsetAfter_kill es1 e es2). unfold offsetAfter in *. lia.
    + unfold shape, c'. rewrite fmap_insert, fmap_app, fmap_cons. apply insert_id.
      by rewrite lookup_fmap, Hc; csimpl; rewrite fmap_app, fmap_cons.
Qed.

Lemma fetch_spec s c r e :
  wf_storage s c → (r, e) ∈ liveAll c →
  storage_record_uuid (e_uuid e) s = Ok r s ∧ storage_data r s = Ok (e_data e) s.
Proof.
  intros Hwf Hin. split.
  - unfold storage_record_uuid. mrun. cbn [index_find map_index].
    by rewrite (index_of_unique _ _ r e _ (wfs_uuids _ _ Hwf) (wfs_index _ _ Hwf) Hin eq_refl).
  - destruct (liveAll_inv _ _ _ Hin) as (id & es1 & es2 & Hc & -> & Hd).
    destruct (toms_lookup s c id _ (wfs_toms _ _ Hwf) Hc) as (t & Ht & Hr & Hid).
    pose proof (tom_data_at _ _ _ _ Hr) as Hdata. rewrite Hid in Hdata.
    exact (with_tom_same _ _ _ _ _ Ht Hdata).
Qed.

(** No tom has the id of a default record. *)
Lemma no_max_tom (s : Storage) c : toms_hold (toms s) c → toms s !! UINT32_MAX = None.
Proof.
  intros H. destruct (toms s !! UINT32_MAX) as [t|] eqn:Ht; [|done]. exfalso.
  destruct (toms_lookup_l _ _ _ _ H Ht) as (es & _ & Hr & Hid). by apply (rp_id _ _ Hr).
Qed.

Lemma absent_spec s c u :
  wf_storage s c → u ∉ (live_uuid <$> liveAll c) → storage_record_uuid u s = Ok defaultRec s.
Proof.
  intros Hwf Hn. unfold storage_record_uuid. mrun. cbn [index_find map_index]. destruct (index s !! u) as [r|] eqn:Hi; [|done].
  exfalso. apply Hn. apply (wfs_index _ _ Hwf) in Hi as (e & Hin & <-).
  apply list_elem_of_fmap. by exists (r, e).
Qed.

(** *** Reopening *)
Lemma foldr_max_bound l x : x ∈ l → x <= foldr Z.max 0 l.
Proof.
  induction l as [|y l IH]; [by intros ?%not_elem_of_nil|].
  intros [->|Hin]%elem_of_cons; simpl; [lia|]. specialize (IH Hin). lia.
Qed.

Lemma foldr_max_in l : Forall (λ x, 0 <= x) l → l ≠ [] → foldr Z.max 0 l ∈ l.
Proof.
  induction 1 as [|x l Hx Hl IH]; [done|]. intros _. simpl. destruct l as [|y l].
  - simpl. rewrite Z.max_l by lia. set_solver.
  - specialize (IH ltac:(done)). apply elem_of_cons.
    destruct (Z.max_spec x (foldr Z.max 0 (y :: l))) as [[_ ->]|[_ ->]]; auto.
Qed.

(** The largest tom id is that of a tom, when there is one. *)
Lemma top_id {A} (m : gmap Z A) :
  (∀ id, is_Some (m !! id) → 0 <= id) →
  (m = ∅ ∧ foldr Z.max 0 (map_to_list m).*1 = 0) ∨ is_Some (m !! foldr Z.max 0 (map_to_list m).*1).
Proof.
  intros H. destruct (decide (m = ∅)) as [->|Hne]; [by left|right].
  apply elem_of_keys, foldr_max_in.
  - apply list.Forall_forall. intros id. rewrite elem_of_keys. apply H.
  - intros He%fmap_nil_inv%map_to_list_empty_iff. done.
Qed.

Lemma open_toms (s : Storage) c :
  toms_hold (toms s) c → toms_hold (toms (openStorage (tom_file <$> toms s))) c.
Proof.
  intros H id. simpl. rewrite map_lookup_imap, lookup_fmap. specialize (H id).
  inversion H as [t es [Hr Hid] Ht Hc|]; simpl; constructor. split; [|done].
  destruct Hr as [H1 H2 H3 H4 H5 H6]. split; simpl; try done; rewrite ?Hid in *; try done; congruence.
Qed.

Lemma open_spec (s : Storage) c fuel order :
  toms_hold (toms s) c → NoDup (live_uuid <$> liveAll c) → valid_ids c → enough_fuel fuel c →
  iterates order s →
  ∃ s', rebuildIndex fuel order (openStorage (tom_file <$> toms s)) = Ok true s' ∧ wf_storage s' c.
Proof.
  intros Hc Hn Hv Hf Ho. set (s0 := openStorage _). pose proof (open_toms s c Hc) as Hc0. fold s0 in Hc0.
  assert (Ho0 : iterates order s0).
  { unfold iterates in *. by rewrite (hold_keys _ _ Hc0), <-(hold_keys _ _ Hc). }
  destruct (order_live s0 c order Hc0 Ho0) as [Hd Hperm].
  pose proof (walkAll_spec indexVisit (λ _, []) (λ r s, set_index (<[rec_uuid (rec_header r) := r]> (index s)) s)
    (λ _ _, eq_refl) c fuel Hf s0 order Hc0 Hd (λ _ _ _ _ _ _ _ _, eq_refl)) as Hw.
  change (foldl _ s0 ?l) with (indexAll s0 l) in Hw.
  destruct (indexAll_spec (order ≫= liveOf c) [] s0) as (H1 & H2 & H3).
  - rewrite Hperm. apply liveAll_uuids.
  - by rewrite app_nil_l, Hperm.
  - apply index_of_empty.
  - eexists. split; [unfold rebuildIndex; rewrite (bind_ok _ _ _ _ _ Hw); done|].
    split; [by rewrite H2|done|by eapply index_of_perm, H1|done|]. rewrite H2, H3. cbn [currentTomId toms s0 openStorage].
    assert (Hk : ∀ id, is_Some ((tom_file <$> toms s) !! id) → is_Some (c !! id)).
    { intros id. rewrite lookup_fmap, fmap_is_Some. intros [t Ht].
      destruct (toms_lookup_l _ _ _ _ Hc Ht) as (es & He & _). by exists es. }
    destruct (top_id (tom_file <$> toms s)) as [[He ->]|Hs].
    + intros id Hid. by apply Hv, Hk.
    + split; [done|]. intros _. split; [done|]. unfold openStorage. by rewrite He.
    + split; [by apply Hv, Hk|]. destruct Hs as [f Hf']. by rewrite map_lookup_imap, Hf'.
Qed.

(** *** Refinement *)

(** The storage operations of the broker: append, removal by uuid, removal by
    location only (the fast acknowledgement), fetch by uuid, scan, and closing and
    reopening the store. *)
Inductive sop : Type :=
  | SAppend (u d : bytes) | SRemove (u : bytes) | SAck (u : bytes) | SFetch (u : bytes) | SScan | SReopen.
Inductive resp : Type :=
  | RUnit | RBool (b : bool) | RData (o : option bytes) | RList (l : list (bytes * bytes)).

(** Every round of a walk advances by at least a header: the longest file bounds
    the rounds. *)
Definition fuelOf {Ix} (s : StorageOn Ix) : nat :=
  S (foldr Nat.max 0 ((λ p, length (tom_file p.2)) <$> map_to_list (toms s)))%nat.

Section Calls.
(** The iteration order of the unordered_map of toms. *)
Context {Ix : Type} `{Index Ix} (order : StorageOn Ix → list Z).

Definition uuid_data (rd : Rec * bytes) : bytes * bytes := (rec_uuid (rec_header rd.1), rd.2).

Definition do_sop (o : sop) : M (StorageOn Ix) resp :=
  match o with
  | SAppend u d => _ ← storage_append u d; mret RUnit
  | SRemove u =>
      catch (r ← storage_record_uuid u; '(ok, _) ← storage_remove r; mret (RBool ok))
            (λ _, mret (RBool false))
  | SAck u =>
      catch (r ← storage_record_uuid u;
             '(ok, _) ← storage_remove (mkRec (rec_tomId r) (rec_offset r) emptyHeader);
             mret (RBool ok))
            (λ _, mret (RBool false))
  | SFetch u =>
      catch (r ← storage_record_uuid u; d ← storage_data r; mret (RData (Some d)))
            (λ _, mret (RData None))
  | SScan =>
      s ← get;
      r ← scan (fuelOf s) (order s);
      l ← require r;
      mret (RList (uuid_data <$> l))
  | SReopen =>
      s ← get;
      _ ← put (openStorage (tom_file <$> toms s));
      s' ← get;
      ok ← rebuildIndex (fuelOf s') (order s');
      if (ok : bool) then mret RUnit else undefined
  end.

Fixpoint runSops (os : list sop) : M (StorageOn Ix) (list resp) :=
  match os with
  | [] => mret []
  | o :: os => r ← do_sop o; rs ← runSops os; mret (r :: rs)
  end.
End Calls.

Section Refinement.
Context (order : Storage → list Z) (Horder : ∀ s, iterates (order s) s).

(** The specification: a map from uuids to data. *)
Definition spec_resp (m : gmap bytes bytes) (o : sop) (r : resp) (m' : gmap bytes bytes) : Prop :=
  match o with
  | SAppend u d => r = RUnit ∧ m' = <[u := d]> m
  | SRemove u | SAck u => r = RBool (bool_decide (is_Some (m !! u))) ∧ m' = delete u m
  | SFetch u => r = RData (m !! u) ∧ m' = m
  | SScan => m' = m ∧ ∃ l, r = RList l ∧ l ≡ₚ map_to_list m
  | SReopen => r = RUnit ∧ m' = m
  end.
(** What the caller owes: fresh, real uuids, data that is not empty, and room. *)
Definition sop_ok (m : gmap bytes bytes) (n : Z) (o : sop) (n' : Z) : Prop :=
  match o with
  | SAppend u d => okEntry (mkEntry u d false) ∧ u ≠ emptyUuid ∧ m !! u = None ∧
      n' = n + 32 + Z.of_nat (length d) ∧ n' <= INT64_MAX
  | _ => n' = n
  end.

(** The storage holds the map [m] in at most [n] bytes per tom. *)
Definition holds (s : Storage) (m : gmap bytes bytes) (n : Z) : Prop :=
  ∃ c, wf_storage s c ∧ within c n ∧ 0 <= n ∧ m !! emptyUuid = None ∧
    ∀ u d, m !! u = Some d ↔ ∃ r e, (r, e) ∈ liveAll c ∧ e_uuid e = u ∧ e_data e = d.

Lemma live_unique c r1 e1 r2 e2 :
  NoDup (live_uuid <$> liveAll c) → (r1, e1) ∈ liveAll c → (r2, e2) ∈ liveAll c →
  e_uuid e1 = e_uuid e2 → (r1, e1) = (r2, e2).
Proof.
  intros Hn H1 H2 He. apply list_elem_of_lookup in H1 as [i Hi]. apply list_elem_of_lookup in H2 as [j Hj].
  assert (i = j) as ->; [|congruence].
  apply (NoDup_lookup _ i j (e_uuid e1) Hn); rewrite list_lookup_fmap, ?Hi, ?Hj; simpl; by f_equal.
Qed.

Lemma holds_absent (s : Storage) (c : contents) (m : gmap bytes bytes) (u : bytes) :
  wf_storage s c → (∀ u d, m !! u = Some d ↔ ∃ r e, (r, e) ∈ liveAll c ∧ e_uuid e = u ∧ e_data e = d) →
  m !! u = None → u ∉ (live_uuid <$> liveAll c).
Proof.
  intros Hwf Hm Hu ([r e] & -> & Hin)%list_elem_of_fmap. change (live_uuid (r, e)) with (e_uuid e) in Hu.
  rewrite (proj2 (Hm (e_uuid e) (e_data e))) in Hu; [done|]. by exists r, e.
Qed.

Lemma fuelOf_enough (s : Storage) c : toms_hold (toms s) c → enough_fuel (fuelOf s) c.
Proof.
  intros H id es Hc. destruct (toms_lookup _ _ _ _ H Hc) as (t & Ht & Hr & _). unfold fuelOf.
  assert (length es <= length (tom_file t))%nat.
  { rewrite (rp_file _ _ Hr). pose proof (rp_entries _ _ Hr) as Hok. clear -Hok.
    induction Hok as [|e es He _ IH]; [done|]. rewrite encAll_cons, length_app, length_encEntry by done. simpl. lia. }
  assert (length (tom_file t) <= foldr Nat.max 0 ((λ p, length (tom_file p.2)) <$> map_to_list (toms s)))%nat; [|lia].
  apply elem_of_map_to_list in Ht. revert Ht. generalize (map_to_list (toms s)). intros l.
  induction l as [|p l IH]; intros Hin; [by apply not_elem_of_nil in Hin|].
  apply elem_of_cons in Hin as [<-|Hin]; csimpl; [lia|]. specialize (IH Hin). lia.
Qed.

Lemma remove_sim (s : Storage) (c : contents) (m : gmap bytes bytes) n (u : bytes) q :
  wf_storage s c → within c n → 0 <= n → m !! emptyUuid = None →
  (∀ u d, m !! u = Some d ↔ ∃ r e, (r, e) ∈ liveAll c ∧ e_uuid e = u ∧ e_data e = d) →
  (∀ r e, (r, e) ∈ liveAll c → rec_tomId (q r) = rec_tomId r ∧ rec_offset (q r) = rec_offset r ∧
     rec_deleted (rec_header (q r)) = 0 ∧
     (rec_uuid (rec_header (q r)) = emptyUuid ∨ rec_uuid (rec_header (q r)) = e_uuid e)) →
  rec_tomId (q defaultRec) = UINT32_MAX →
  ∃ s', catch (r ← storage_record_uuid u; '(ok, _) ← storage_remove (q r); mret (RBool ok))
              (λ _, mret (RBool false)) s = Ok (RBool (bool_decide (is_Some (m !! u)))) s' ∧
    holds s' (delete u m) n.
Proof.
  intros Hwf Hin Hn He Hm Hq Hqd. destruct (m !! u) as [d|] eqn:Hu.
  - destruct (proj1 (Hm u d) Hu) as (r & e & Hre & <- & <-).
    destruct (fetch_spec s c r e Hwf Hre) as [Hf _].
    destruct (Hq r e Hre) as (Q1 & Q2 & Q3 & Q4).
    assert (Hne : e_uuid e ≠ emptyUuid) by (intros Heq; rewrite Heq, He in Hu; done).
    destruct (remove_spec s c r e (q r) Hwf Hre Hne Q1 Q2 Q3 Q4) as (s' & c' & H1 & H2 & H3 & H4 & _).
    exists s'. split.
    + unfold catch. rewrite (bind_ok _ _ _ _ _ Hf), (bind_ok _ _ _ _ _ H1). done.
    + exists c'. do 3 (split; [auto|]). split; [by rewrite lookup_delete_None; right|].
      intros v d. rewrite lookup_delete_Some, Hm. split.
      * intros (Hv & r' & e' & Hin' & <- & <-). exists r', e'. split; [|done].
        rewrite H3 in Hin'. apply elem_of_cons in Hin' as [[= -> ->]|]; done.
      * intros (r' & e' & Hin' & <- & <-). split; [|exists r', e'; rewrite H3; split; [by apply list_elem_of_further|done]].
        intros Heq. pose proof (wfs_uuids _ _ Hwf) as Hnd. rewrite H3 in Hnd.
        apply list.NoDup_cons in Hnd as [Hnd _]. apply Hnd, list_elem_of_fmap. by exists (r', e').
  - pose proof (absent_spec s c u Hwf (holds_absent s c m u Hwf Hm Hu)) as Hf. exists s. split.
    + unfold catch. rewrite (bind_ok _ _ _ _ _ Hf).
      assert (Hx : storage_remove (q defaultRec) s = Exn (StdOutOfRange "unordered_map::at") s).
      { unfold storage_remove. rewrite (bind_ok get _ s s s eq_refl), Hqd.
        by rewrite (no_max_tom s c (wfs_toms _ _ Hwf)). }
      unfold mbind, M_bind. rewrite Hx. done.
    + exists c. rewrite delete_id by done. done.
Qed.

(** [o] on [s] answers for the map [m] and leaves a map in at most [n'] bytes per tom. *)
Definition sop_runs (o : sop) (s : Storage) (m : gmap bytes bytes) (n' : Z) : Prop :=
  ∃ r s' m', do_sop order o s = Ok r s' ∧ spec_resp m o r m' ∧ holds s' m' n'.

Lemma append_sim s m n n' u d :
  holds s m n → sop_ok m n (SAppend u d) n' → sop_runs (SAppend u d) s m n'.
Proof.
  intros (c & Hwf & Hin & Hn & He & Hm) (Hok & Hu & Hfresh & -> & Hcap).
  destruct (append_spec s c u d n Hwf Hin Hok (holds_absent s c m u Hwf Hm Hfresh) Hn Hcap)
    as (r & s' & c' & H1 & H2 & H3 & H4 & _ & H5).
  exists RUnit, s', (<[u:=d]> m). split; [simpl; by rewrite (bind_ok _ _ _ _ _ H1)|]. split; [done|].
  exists c'. split; [done|]. split; [done|]. split; [lia|]. split; [by rewrite lookup_insert_ne|].
  intros v x. rewrite lookup_insert_Some, Hm. setoid_rewrite H3. split.
  - intros [[<- <-]|(Hne & r' & e' & ? & ? & ?)]; [exists r, (mkEntry u d false)|exists r', e'];
      (split; [by left + by right|done]).
  - intros (r' & e' & [[= -> ->]|Hin']%elem_of_cons & <- & <-); [by left|right].
    split; [|by exists r', e']. intros ->. rewrite (proj2 (Hm (e_uuid e') (e_data e'))) in Hfresh; [done|].
    by exists r', e'.
Qed.

Lemma fetch_sim s m n u : holds s m n → sop_runs (SFetch u) s m n.
Proof.
  intros Hh. pose proof Hh as (c & Hwf & _ & _ & _ & Hm).
  exists (RData (m !! u)), s, m. split; [|done]. simpl. unfold catch.
  destruct (m !! u) as [d|] eqn:Hu.
  - destruct (proj1 (Hm u d) Hu) as (r & e & Hre & <- & <-).
    destruct (fetch_spec s c r e Hwf Hre) as [Hf Hd].
    by rewrite (bind_ok _ _ _ _ _ Hf), (bind_ok _ _ _ _ _ Hd).
  - rewrite (bind_ok _ _ _ _ _ (absent_spec s c u Hwf (holds_absent s c m u Hwf Hm Hu))).
    unfold storage_data, with_tom. mrun. change (rec_tomId defaultRec) with UINT32_MAX.
    by rewrite (no_max_tom s c (wfs_toms _ _ Hwf)).
Qed.

(** The live entries of the model, with the identifiers their records carry, are the map. *)
Lemma live_map (c : contents) (m : gmap bytes bytes) :
  NoDup (live_uuid <$> liveAll c) →
  (∀ u d, m !! u = Some d ↔ ∃ r e, (r, e) ∈ liveAll c ∧ e_uuid e = u ∧ e_data e = d) →
  (uuid_data ∘ λ re : Rec * entry, (re.1, e_data re.2)) <$> liveAll c ≡ₚ map_to_list m.
Proof.
  intros Hnd Hm. pose proof (liveAll_uuids c) as Hall.
  assert (Hkeys : ((uuid_data ∘ λ re : Rec * entry, (re.1, e_data re.2)) <$> liveAll c).*1 = live_uuid <$> liveAll c).
  { rewrite <-list_fmap_compose. apply list_fmap_ext. intros i [r e] Hi. simpl.
    by apply (Forall_lookup_1 _ _ _ _ Hall Hi). }
  rewrite list.Forall_forall in Hall.
  apply NoDup_Permutation; [apply (NoDup_fmap_1 fst); by rewrite Hkeys|apply NoDup_map_to_list|].
  intros [u d]. rewrite elem_of_map_to_list, Hm, list_elem_of_fmap. split.
  - intros ([r e] & [= -> ->] & Hre). exists r, e. split; [done|]. split; [|done].
    symmetry. by apply (Hall (r, e)).
  - intros (r & e & Hre & <- & <-). exists (r, e). split; [|done]. unfold uuid_data. simpl. f_equal.
    symmetry. by apply (Hall (r, e)).
Qed.

Lemma scan_sim s m n : holds s m n → sop_runs SScan s m n.
Proof.
  intros Hh. pose proof Hh as (c & Hwf & _ & _ & _ & Hm). pose proof (wfs_toms _ _ Hwf) as Ht.
  pose proof (scan_spec s c (order s) (fuelOf s) Ht (Horder s) (fuelOf_enough s c Ht)) as Hs.
  eexists _, s, m. split.
  { simpl. rewrite (bind_ok get _ s s s eq_refl), (bind_ok _ _ _ _ _ Hs). simpl. rewrite bind_ret. done. }
  split; [|done]. split; [done|]. eexists. split; [done|].
  destruct (order_live s c (order s) Ht (Horder s)) as [_ Hperm]. rewrite Hperm, <-list_fmap_compose.
  apply live_map; [apply Hwf|done].
Qed.

Lemma reopen_sim s m n : holds s m n → sop_runs SReopen s m n.
Proof.
  intros (c & Hwf & Hin & Hn & He & Hm). pose proof (wfs_toms _ _ Hwf) as Ht.
  set (s0 := openStorage (tom_file <$> toms s)).
  assert (Ht0 : toms_hold (toms s0) c) by by apply open_toms.
  destruct (open_spec s c (fuelOf s0) (order s0) Ht (wfs_uuids _ _ Hwf) (wfs_ids _ _ Hwf)
    (fuelOf_enough s0 c Ht0)) as (s' & H1 & H2).
  { unfold iterates. rewrite (Horder s0). unfold iterates. by rewrite (hold_keys _ _ Ht0), <-(hold_keys _ _ Ht). }
  exists RUnit, s', m. split; [|split; [done|by exists c]]. cbn [do_sop].
  rewrite (bind_ok get _ s s s eq_refl), (bind_ok (put _) _ s tt s0 eq_refl), (bind_ok get _ s0 s0 s0 eq_refl).
  by rewrite (bind_ok _ _ _ _ _ H1).
Qed.

(** One operation of the storage is one operation of the map. *)
Lemma sop_sim o s m n n' : holds s m n → sop_ok m n o n' → sop_runs o s m n'.
Proof.
  intros Hh Hok. destruct o as [u d|u|u|u| |]; [by eapply append_sim|simpl in Hok; subst n'..].
  - pose proof Hh as (c & Hwf & Hin & Hn & He & Hm).
    destruct (remove_sim s c m n u (λ r, r) Hwf Hin Hn He Hm) as (s' & H1 & H2); [|done|].
    + intros r e (id & es1 & es2 & _ & -> & Hd)%liveAll_inv. simpl. rewrite Hd. auto.
    + by exists (RBool (bool_decide (is_Some (m !! u)))), s', (delete u m).
  - pose proof Hh as (c & Hwf & Hin & Hn & He & Hm).
    destruct (remove_sim s c m n u (λ r, mkRec (rec_tomId r) (rec_offset r) emptyHeader) Hwf Hin Hn He Hm)
      as (s' & H1 & H2); [by auto|done|].
    by exists (RBool (bool_decide (is_Some (m !! u)))), s', (delete u m).
  - by apply fetch_sim.
  - by apply scan_sim.
  - by apply reopen_sim.
Qed.

(** *** Runs *)
Definition spec_map (m : gmap bytes bytes) (o : sop) : gmap bytes bytes :=
  match o with
  | SAppend u d => <[u := d]> m
  | SRemove u | SAck u => delete u m
  | _ => m
  end.
Fixpoint sops_ok (m : gmap bytes bytes) (n : Z) (os : list sop) : Prop :=
  match os with
  | [] => True
  | o :: os => ∃ n', sop_ok m n o n' ∧ sops_ok (spec_map m o) n' os
  end.
Fixpoint spec_run (m : gmap bytes bytes) (os : list sop) (rs : list resp) : Prop :=
  match os, rs with
  | [], [] => True
  | o :: os, r :: rs => spec_resp m o r (spec_map m o) ∧ spec_run (spec_map m o) os rs
  | _, _ => False
  end.

Lemma spec_resp_map m o r m' : spec_resp m o r m' → m' = spec_map m o.
Proof. destruct o; simpl; tauto. Qed.

Lemma holds_empty : holds (openStorage ∅) ∅ 0.
Proof.
  exists ∅. split.
  - apply empty_wf.
  - split; [intros id es Hi; by rewrite lookup_empty in Hi|]. split; [done|]. split; [done|].
    intros u d. rewrite lookup_empty. split; [done|]. by intros (r & e & Hin%not_elem_of_nil & _).
Qed.

(** The storage implements a map from uuids to data that survives restarts:
    for every sequence of appends (of fresh uuids, within the file size limit),
    removals by uuid or by bare location, fetches, scans and reopenings of the
    files, starting from an empty directory and for every iteration order of the
    tom map, every call returns, and returns what the map says: a fetch the data
    last appended and not removed, a scan exactly the live pairs, each once. All the
    loops end within a number of rounds bounded by the length of the files. *)
Theorem storage_refines os :
  sops_ok ∅ 0 os →
  ∃ rs s', runSops order os (openStorage ∅) = Ok rs s' ∧ spec_run ∅ os rs.
Proof.
  pose proof holds_empty as H. revert H. generalize (openStorage ∅), (∅ : gmap bytes bytes), 0.
  induction os as [|o os IH]; intros s m n Hh Hok; [by exists [], s|].
  destruct Hok as (n' & Ho & Hos). destruct (sop_sim o s m n n' Hh Ho) as (r & s1 & m1 & H1 & H2 & H3).
  pose proof (spec_resp_map _ _ _ _ H2) as ->.
  destruct (IH s1 _ n' H3 Hos) as (rs & s2 & H4 & H5). exists (r :: rs), s2. split; [|done].
  cbn [runSops]. by rewrite (bind_ok _ _ _ _ _ H1), (bind_ok _ _ _ _ _ H4).
Qed.
End Refinement.

Definition keyOrder (s : Storage) : list Z := (map_to_list (toms s)).*1.

Definition sampleOps : list sop :=
  [SAppend (replicate 16 Byte.x01) [Byte.x05]; SAppend (replicate 16 Byte.x02) [Byte.x06; Byte.x07];
   SAck (replicate 16 Byte.x01); SReopen; SFetch (replicate 16 Byte.x02); SFetch (replicate 16 Byte.x01); SScan].

Lemma storage_refines_witness :
  ∃ rs s', runSops keyOrder sampleOps (openStorage ∅) = Ok rs s' ∧ spec_run ∅ sampleOps rs.
Proof.
  apply (storage_refines keyOrder (λ _, reflexivity _) sampleOps).
  unfold sampleOps. cbn [sops_ok]. do 2 (eexists; split; [split; [by split|split; [done|split;
    [by vm_compute|split; [reflexivity|by vm_compute]]]]|]).
  repeat (eexists; split; [reflexivity|]). done.
Defined.

(** *** Damage *)

(** One failed read disables a tom: asking for a record in the last 31 bytes
    of a file throws and leaves the stream failed, and from then on every append
    throws and every read of a record that exists throws, until the storage is
    reopened; the append still moves _size, past the end of the file. *)
Theorem failed_read_poisons t offset u d :
  tom_failed t = false → 0 <= offset < tom_size t →
  Z.of_nat (length (tom_file t)) < offset + 32 → d ≠ [] →
  ∃ e t', tom_record offset t = Exn e t' ∧
    (∀ o, o < tom_size t → ∃ e', tom_record o t' = Exn e' t') ∧
    ∃ e' t'', tom_append u d t' = Exn e' t'' ∧ tom_file t'' = tom_file t ∧
      tom_size t'' = wrapU 64 (tom_size t + (32 + Z.of_nat (length d))).
Proof.
  intros Hf Ho Hl Hd. exists (PocoRuntime "Failed to read record header from file"), (set_failed true t).
  split.
  - unfold tom_record, fread. mrun. replace (offset <? tom_size t) with true by lia.
    rewrite Hf. change (Z.of_nat sizeofHeader) with 32.
    by replace (offset + 32 <=? Z.of_nat (length (tom_file t))) with false by lia.
  - split.
    + intros o Ho'. exists (PocoRuntime "Failed to read record header from file").
      unfold tom_record, fread. mrun. simpl. by replace (o <? tom_size t) with true by lia.
    + destruct d as [|b d]; [done|]. eexists _, _. split; [by unfold tom_append|done].
Qed.

Lemma failed_read_poisons_witness :
  ∃ e t', tom_record 0 (openTom 1 [Byte.x00]) = Exn e t' ∧ tom_failed t' = true.
Proof.
  destruct (failed_read_poisons (openTom 1 [Byte.x00]) 0 [] [Byte.x00] eq_refl) as (e & t' & H & _);
    [done|done|done|].
  exists e, t'. split; [exact H|]. vm_compute in H. by injection H as _ <-.
Defined.

(** A header whose dataSize is 2^64 - 32: the walk's next offset is its own. *)
Definition loopHeader : bytes := encHeader (mkHeader (replicate 16 Byte.x01) (2 ^ 64 - 32) 0).

(** A corrupt size can hang the storage: opening a directory whose tom starts
    with a header of dataSize 2^64 - 32 never finishes rebuilding the index, whatever
    the number of rounds, because the 64-bit offset wraps back to the same record. *)
Theorem corrupt_size_hangs fuel :
  ∃ s : Storage, rebuildIndex fuel [1] (openStorage {[1 := loopHeader]}) = Ok false s.
Proof.
  assert (H : ∀ s : Storage, toms s = {[1 := openTom 1 loopHeader]} →
    ∃ s', walk fuel 1 indexVisit 0 s = Ok None s').
  { induction fuel as [|fuel IH]; intros s Hs; [by exists s|]. cbn [walk].
    assert (E : storage_record 1 0 s
      = Ok (mkRec 1 0 (mkHeader (replicate 16 Byte.x01) (2 ^ 64 - 32) 0)) s).
    { unfold storage_record. apply with_tom_same with (t := openTom 1 loopHeader); [|by vm_compute].
      by rewrite Hs, lookup_singleton_eq. }
    rewrite (bind_ok _ _ _ _ _ E). cbn [rec_tomId rec_header rec_dataSize rec_deleted].
    change (1 =? UINT32_MAX) with false. change (2 ^ 64 - 32 =? 0) with false. change (0 =? 0) with true. cbn iota.
    change (wrapU 64 (0 + Z.of_nat sizeofHeader + (2 ^ 64 - 32))) with 0.
    set (r := mkRec 1 0 _). set (s1 := set_index (<[rec_uuid (rec_header r) := r]> (index s)) s).
    rewrite (bind_ok _ _ _ _ _ (indexVisit_map r s)).
    destruct (IH s1 Hs) as [s' Hs']. exists s'. by rewrite (bind_ok _ _ _ _ _ Hs'). }
  destruct (H (openStorage {[1 := loopHeader]})) as [s' Hs'].
  { apply map_eq. intros i. simpl. rewrite map_lookup_imap.
    destruct (decide (i = 1)) as [->|Hne]; [by rewrite !lookup_singleton_eq|by rewrite !lookup_singleton_ne]. }
  exists s'. unfold rebuildIndex. cbn [walkAll]. mrun. by rewrite Hs'.
Qed.

(** *** Torn records *)

Lemma tom_record_in t off h rest :
  tom_failed t = false → cursor (tom_file t) off (encHeader h ++ rest) → Z.of_nat off < tom_size t →
  length (rec_uuid h) = 16%nat → inU 64 (rec_dataSize h) → inS 8 (rec_deleted h) →
  tom_record (Z.of_nat off) t = Ok (mkRec (tom_id t) (Z.of_nat off) h) t.
Proof.
  intros Hf Hc Ho Hu Hs Hd. unfold tom_record. mrun. replace (Z.of_nat off <? tom_size t) with true by lia.
  rewrite (fread_at t off sizeofHeader _ _ Hf Hc) by (by rewrite length_encHeader).
  do 2 f_equal. rewrite <-(app_nil_r (encHeader h)). by apply decHeader_enc.
Qed.

(** A tom whose file is [file], just opened, of no more than [limit] bytes. *)
Lemma walk_step fuel id off h file rest (s : Storage) :
  toms s !! id = Some (openTom id file) → id ≠ UINT32_MAX → cursor file off (encHeader h ++ rest) →
  length (rec_uuid h) = 16%nat → inS 8 (rec_deleted h) → rec_dataSize h ≠ 0 →
  0 <= rec_dataSize h → Z.of_nat off + 32 + rec_dataSize h <= INT64_MAX →
  walk (S fuel) id indexVisit (Z.of_nat off) s =
  walk fuel id indexVisit (Z.of_nat off + 32 + rec_dataSize h)
    (if rec_deleted h =? 0 then set_index (<[rec_uuid h := mkRec id (Z.of_nat off) h]> (index s)) s else s).
Proof.
  intros Ht Hid Hc Hu Hd Hn Hs Hb. change INT64_MAX with (2 ^ 63 - 1) in Hb.
  pose proof (cursor_length _ _ _ Hc) as Hl. rewrite length_app, length_encHeader in Hl by done.
  assert (Hrec : tom_record (Z.of_nat off) (openTom id file) = Ok (mkRec id (Z.of_nat off) h) (openTom id file)).
  { apply (tom_record_in (openTom id file) off h rest); simpl; try done; [lia|]. unfold inU. lia. }
  cbn [walk]. unfold storage_record. rewrite (bind_ok _ _ _ _ _ (with_tom_same _ _ _ _ _ Ht Hrec)).
  cbn [rec_tomId rec_header]. replace (id =? UINT32_MAX) with false by lia.
  replace (rec_dataSize h =? 0) with false by lia. change (Z.of_nat sizeofHeader) with 32.
  rewrite (wrapU_id 64) by (unfold inU; lia).
  assert (Happ : ∀ s', (rest ← walk fuel id indexVisit (Z.of_nat off + 32 + rec_dataSize h); mret (app [] <$> rest)) s'
    = walk fuel id indexVisit (Z.of_nat off + 32 + rec_dataSize h) s').
  { intros s'. unfold mbind, M_bind. by destruct (walk _ _ _ _ s') as [[l|] s1|e s1|]. }
  destruct (rec_deleted h =? 0).
  - rewrite (bind_ok _ _ _ _ _ (indexVisit_map _ s)). apply Happ.
  - rewrite bind_ret. apply Happ.
Qed.

(** The walk gets through whole entries, whatever follows them. *)
Lemma walk_prefix fuel id file es2 rest : id ≠ UINT32_MAX → Forall okEntry es2 → ∀ es1 (s : Storage),
  toms s !! id = Some (openTom id file) → cursor file (length (encAll es1)) (encAll es2 ++ rest) →
  offsetAfter (es1 ++ es2) <= INT64_MAX →
  walk (length es2 + fuel) id indexVisit (offsetAfter es1) s =
  walk fuel id indexVisit (offsetAfter (es1 ++ es2)) (indexAll s (liveRecs id es1 es2)).
Proof.
  intros Hid. induction 1 as [|e es2 He Hes IH]; intros es1 s Ht Hc Hb; [by rewrite app_nil_r|].
  rewrite cons_middle, app_assoc in Hb |- *.
  assert (Hnext : offsetAfter (es1 ++ [e]) = offsetAfter es1 + 32 + Z.of_nat (length (e_data e))).
  { unfold offsetAfter. rewrite encAll_app, encAll_cons, !length_app, length_encEntry by done. simpl. lia. }
  assert (Hle : offsetAfter (es1 ++ [e]) <= INT64_MAX).
  { revert Hb. unfold offsetAfter. rewrite (encAll_app (es1 ++ [e])), length_app. lia. }
  rewrite Hnext in Hle. unfold offsetAfter in Hle.
  rewrite encAll_cons in Hc. unfold encEntry in Hc. rewrite <-!app_assoc in Hc. pose proof He as [Hu Hd].
  assert (Hc' : cursor file (length (encAll (es1 ++ [e]))) (encAll es2 ++ rest)).
  { epose proof (cursor_next _ _ _ _ _ Hc eq_refl) as C. eapply (cursor_next _ _ _ _ _ C).
    rewrite length_encHeader by done. rewrite encAll_app, encAll_cons, !length_app, length_encEntry by done. simpl. lia. }
  change (length (e :: es2) + fuel)%nat with (S (length es2 + fuel)). unfold offsetAfter at 1.
  rewrite (walk_step _ _ _ (headerOf e) file (e_data e ++ encAll es2 ++ rest)); try done.
  - cbn [headerOf rec_dataSize rec_deleted rec_uuid]. fold (offsetAfter es1). rewrite <-Hnext. cbn [liveRecs].
    destruct (e_deleted e); cbn [Z.eqb]; by apply IH.
  - simpl. by destruct (e_deleted e).
  - simpl. by destruct (e_data e).
  - simpl. lia.
Qed.

Lemma indexAll_other u l : ∀ s : Storage, Forall (λ re, rec_uuid (rec_header re.1) ≠ u) l →
  index (indexAll s l) !! u = index s !! u ∧ toms (indexAll s l) = toms s ∧ currentTomId (indexAll s l) = currentTomId s.
Proof.
  induction l as [|re l IH]; intros s Hl; [done|]. apply Forall_cons_1 in Hl as [Hre Hl].
  destruct (IH (set_index (<[rec_uuid (rec_header re.1) := re.1]> (index s)) s) Hl) as (H1 & H2 & H3).
  unfold indexAll in *. cbn [foldl]. rewrite H1, H2, H3. simpl. by rewrite lookup_insert_ne.
Qed.
Lemma liveRecs_uuids id es : ∀ es1, Forall (λ re, rec_uuid (rec_header re.1) ∈ e_uuid <$> es) (liveRecs id es1 es).
Proof.
  intros es1. apply list.Forall_forall. intros [r e] (b & a & -> & -> & _)%liveRecs_inv. simpl.
  rewrite fmap_app. csimpl. apply elem_of_app. right. by left.
Qed.

(** Opening a directory whose only tom ends with the header of [e] and bytes that are
    fewer than its data, up to the offset behind [e]. *)
Lemma rebuild_torn fuel id es e bytes u :
  0 <= id → id ≠ UINT32_MAX → Forall okEntry (es ++ [e]) → offsetAfter (es ++ [e]) <= INT64_MAX → u ∉ (e_uuid <$> es ++ [e]) →
  let file := encAll es ++ encHeader (headerOf e) ++ bytes in
  ∃ s : Storage, index s !! u = None ∧ toms s = {[id := openTom id file]} ∧ currentTomId s = id ∧
    walk (S (length es) + fuel) id indexVisit 0 (openStorage {[id := file]})
    = walk fuel id indexVisit (offsetAfter (es ++ [e])) s.
Proof.
  intros Hid0 Hid Hok Hb Hu file. apply Forall_app in Hok as [Hes [He _]%Forall_cons_1].
  rewrite fmap_app in Hu. apply not_elem_of_app in Hu as [Hu1 Hu2]. csimpl in Hu2.
  assert (Hnext : offsetAfter (es ++ [e]) = offsetAfter es + 32 + Z.of_nat (length (e_data e))).
  { unfold offsetAfter. rewrite encAll_app, encAll_cons, !length_app, length_encEntry by done. simpl. lia. }
  set (s0 := openStorage {[id := file]} : Storage).
  assert (Ht0 : toms s0 = {[id := openTom id file]}).
  { apply map_eq. intros i. simpl. rewrite map_lookup_imap.
    destruct (decide (i = id)) as [->|Hne]; [by rewrite !lookup_singleton_eq|by rewrite !lookup_singleton_ne]. }
  assert (Hcur : currentTomId s0 = id).
  { simpl. rewrite map_to_list_singleton. simpl. lia. }
  assert (Hl : Forall (λ re, rec_uuid (rec_header re.1) ≠ u) (liveRecs id [] es)).
  { eapply Forall_impl; [|apply liveRecs_uuids]. intros re Hre Heq. apply Hu1. by rewrite <-Heq. }
  destruct (indexAll_other u _ s0 Hl) as (I1 & I2 & I3). set (s1 := indexAll s0 (liveRecs id [] es)) in *.
  set (h := headerOf e). assert (rec_uuid h ≠ u) as Hne by (intros Heq; apply Hu2; rewrite <-Heq; by left).
  exists (if rec_deleted h =? 0 then set_index (<[rec_uuid h := mkRec id (offsetAfter es) h]> (index s1)) s1 else s1).
  split; [|split; [|split]].
  - destruct (_ =? 0); simpl; [rewrite lookup_insert_ne by done|]; by rewrite I1.
  - destruct (_ =? 0); simpl; by rewrite I2.
  - destruct (_ =? 0); simpl; by rewrite I3.
  - replace (S (length es) + fuel)%nat with (length es + S fuel)%nat by lia. change 0 with (offsetAfter []).
    rewrite (walk_prefix (S fuel) id file es (encHeader h ++ bytes) Hid Hes [] s0).
    + rewrite app_nil_l. fold s1. unfold offsetAfter at 1.
      rewrite (walk_step fuel id (length (encAll es)) h file bytes); try done.
      * by rewrite Hnext.
      * by rewrite I2, Ht0, lookup_singleton_eq.
      * by exists (encAll es).
      * apply He.
      * simpl. by destruct (e_deleted e).
      * simpl. destruct He as [_ He]. by destruct (e_data e).
      * simpl. lia.
      * rewrite Hnext in Hb. exact Hb.
    + by rewrite Ht0, lookup_singleton_eq.
    + by exists [].
    + rewrite app_nil_l. lia.
Qed.

(** The end of such a walk: behind the file, or in its last 31 bytes. *)
Lemma rebuild_one fuel id (s0 : Storage) :
  (∀ s, walk fuel id indexVisit 0 s0 = Ok (Some []) s → rebuildIndex fuel [id] s0 = Ok true s) ∧
  (∀ ex s, walk fuel id indexVisit 0 s0 = Exn ex s → rebuildIndex fuel [id] s0 = Exn ex s).
Proof.
  unfold rebuildIndex. cbn [walkAll]. unfold mbind, M_bind. split.
  - intros s H. by rewrite H.
  - intros ex s H. by rewrite H.
Qed.
Lemma walk_behind fuel id off file (s : Storage) :
  toms s = {[id := openTom id file]} → Z.of_nat (length file) <= off →
  walk (S fuel) id indexVisit off s = Ok (Some []) s.
Proof.
  intros Hs Hoff. cbn [walk]. unfold storage_record.
  assert (Hr : tom_record off (openTom id file) = Ok defaultRec (openTom id file)).
  { unfold tom_record. mrun. simpl. by replace (off <? _) with false by lia. }
  rewrite (bind_ok _ _ _ _ _ (with_tom_same id _ s _ _ ltac:(by rewrite Hs, lookup_singleton_eq) Hr)). done.
Qed.
Lemma walk_misses fuel id off file (s : Storage) :
  toms s = {[id := openTom id file]} → off < Z.of_nat (length file) < off + 32 →
  ∃ ex s', walk (S fuel) id indexVisit off s = Exn ex s'.
Proof.
  intros Hs Hoff. cbn [walk]. unfold storage_record, mbind, M_bind, with_tom. rewrite Hs, lookup_singleton_eq.
  unfold tom_record, fread, mbind, M_bind. simpl. replace (off <? _) with true by lia.
  change (Z.of_nat sizeofHeader) with 32. cbn [tom_failed tom_file openTom].
  replace (off + 32 <=? _) with false by lia. by do 2 eexists.
Qed.

(** An append to a storage with one tom. *)
Lemma append_alone id file u d (s : Storage) :
  toms s = {[id := openTom id file]} → currentTomId s = id → length u = 16%nat → d ≠ [] →
  Z.of_nat (length file) + 32 + Z.of_nat (length d) <= INT64_MAX →
  ∃ r s1, storage_append u d s = Ok r s1 ∧ storage_record_uuid u s1 = Ok r s1 ∧ storage_data r s1 = Ok d s1 ∧
    tom_file <$> toms s1 = {[id := file ++ encEntry (mkEntry u d false)]}.
Proof.
  intros Hs Hcur Hu Hd Hb. change INT64_MAX with (2 ^ 63 - 1) in Hb.
  set (h := mkHeader u (Z.of_nat (length d)) 0). set (r := mkRec id (Z.of_nat (length file)) h).
  set (t' := mkTom id (Z.of_nat (length file) + (32 + Z.of_nat (length d))) (file ++ encEntry (mkEntry u d false)) false).
  set (s1 := set_index (<[u := r]> (index s)) (set_toms {[id := t']} s)).
  assert (Ha : tom_append u d (openTom id file) = Ok r t').
  { unfold tom_append. destruct d as [|b d]; [done|]. unfold mbind, M_bind, get, modify, fwrite, set_file, set_size, openTom.
    cbn [tom_failed tom_size tom_file tom_id].
    change (Z.of_nat sizeofHeader) with 32. cbn [tom_failed tom_size tom_file tom_id rec_offset rec_header].
    rewrite (wrapU_id 64) by (unfold inU; lia). by rewrite Nat2Z.id, write_at_end. }
  exists r, s1. split; [|split; [|split]].
  - unfold storage_append. destruct d as [|b d]; [done|].
    assert (Hc : currentTom s = Ok id s).
    { unfold currentTom. mrun. by rewrite Hcur, Hs, lookup_singleton_eq. }
    rewrite (bind_ok _ _ _ _ _ Hc). unfold with_tom. mrun. rewrite Hs, lookup_singleton_eq, Ha.
    by rewrite insert_singleton_eq.
  - unfold storage_record_uuid. mrun. simpl. by rewrite lookup_insert_eq.
  - unfold storage_data. apply with_tom_same with t'; [apply lookup_singleton_eq|]. unfold tom_data, r, h.
    cbn [rec_header rec_dataSize rec_offset]. destruct d as [|b d]; [done|]. 
    replace (Z.of_nat (length (b :: d)) =? 0) with false by (simpl; lia). unfold resize_ok.
    replace (_ <=? INT64_MAX) with true by (change INT64_MAX with (2 ^ 63 - 1); lia). cbn [negb].
    change (Z.of_nat sizeofHeader) with 32. rewrite (wrapU_id 64) by (unfold inU; lia).
    replace (Z.of_nat (length file) + 32) with (Z.of_nat (length file + 32)) by lia. rewrite Nat2Z.id.
    assert (C : cursor (tom_file t') (length file + 32) ((b :: d) ++ [])).
    { exists (file ++ encHeader h). split; [|by rewrite length_app, length_encHeader].
      rewrite app_nil_r. unfold t', encEntry. cbn [tom_file]. by rewrite app_assoc. }
    mrun. by rewrite (fread_at t' _ _ _ _ eq_refl C eq_refl).
  - unfold s1. cbn [toms set_index set_toms]. by rewrite map_fmap_singleton.
Qed.

(** C32. A torn record hides or blocks its successors. Whatever whole entries the only
    file of a directory holds, when a crash leaves behind them the header of a record
    and fewer bytes than its data, the storage opens, and the next append returns a
    record that can be fetched. After one more restart the walk that rebuilds the index
    goes on where the torn record's data should have ended: if that is behind the
    appended record, the storage opens and the record is gone from the index, though
    all its bytes are in the file; if it is in the last 31 bytes of the file, the
    storage cannot be opened any more. *)
Theorem torn_record_hides_next id es e k u d fuel :
  0 <= id → id ≠ UINT32_MAX → Forall okEntry (es ++ [e]) → (k < length (e_data e))%nat →
  length u = 16%nat → d ≠ [] → u ∉ (e_uuid <$> es ++ [e]) →
  offsetAfter (es ++ [e]) + 32 + Z.of_nat (length d) <= INT64_MAX → (length es + 1 < fuel)%nat →
  let torn := encAll es ++ take (32 + k) (encEntry e) in
  let missing := (length (e_data e) - k)%nat in
  let file := torn ++ encEntry (mkEntry u d false) in
  ∃ (s : Storage) r s1,
    rebuildIndex fuel [id] (openStorage {[id := torn]}) = Ok true s ∧
    storage_append u d s = Ok r s1 ∧ storage_record_uuid u s1 = Ok r s1 ∧ storage_data r s1 = Ok d s1 ∧
    tom_file <$> toms s1 = {[id := file]} ∧
    ((32 + length d <= missing)%nat → ∃ s2 : Storage,
       rebuildIndex fuel [id] (openStorage {[id := file]}) = Ok true s2 ∧ storage_record_uuid u s2 = Ok defaultRec s2) ∧
    ((length d < missing < 32 + length d)%nat → ∃ ex (s2 : Storage),
       rebuildIndex fuel [id] (openStorage {[id := file]}) = Exn ex s2).
Proof.
  intros Hid0 Hid Hok Hk Hu Hd Hfresh Hb Hfuel torn missing file.
  assert (okEntry e) as He by (apply Forall_app in Hok as [_ [? _]%Forall_cons_1]; done).
  set (part := take k (e_data e)). assert (length part = k) as Hpart by (unfold part; rewrite length_take; lia).
  assert (Hlh : length (encHeader (headerOf e)) = 32%nat) by by apply length_encHeader, He.
  assert (Htorn : torn = encAll es ++ encHeader (headerOf e) ++ part).
  { unfold torn, encEntry. by rewrite <-Hlh, take_app_add. }
  assert (Hnext : offsetAfter (es ++ [e]) = offsetAfter es + 32 + Z.of_nat (length (e_data e))).
  { unfold offsetAfter. rewrite encAll_app, encAll_cons, !length_app, length_encEntry by done. simpl. lia. }
  assert (Hlt : Z.of_nat (length torn) = offsetAfter es + 32 + Z.of_nat k).
  { rewrite Htorn, !length_app, Hlh. unfold offsetAfter. lia. }
  assert (Hlf : Z.of_nat (length file) = offsetAfter es + 64 + Z.of_nat k + Z.of_nat (length d)).
  { unfold file. rewrite length_app, length_encEntry by done. simpl. lia. }
  destruct fuel as [|[|fuel]]; [lia..|]. assert (Hf : ∃ f, S (S fuel) = (S (length es) + S f)%nat).
  { exists (fuel - length es)%nat. lia. }
  destruct Hf as [f ->].
  destruct (rebuild_torn (S f) id es e part u Hid0 Hid Hok ltac:(lia) Hfresh) as (s & S1 & S2 & S3 & S4).
  cbv zeta in S2, S4. rewrite <-Htorn in S2, S4.
  rewrite (walk_behind f id (offsetAfter (es ++ [e])) torn s S2 ltac:(lia)) in S4.
  destruct (append_alone id torn u d s S2 S3 Hu Hd ltac:(lia)) as (r & s1 & A1 & A2 & A3 & A4).
  exists s, r, s1. split; [by apply rebuild_one|]. do 4 (split; [done|]).
  destruct (rebuild_torn (S f) id es e (part ++ encEntry (mkEntry u d false)) u Hid0 Hid Hok ltac:(lia) Hfresh)
    as (s2 & T1 & T2 & _ & T4). cbv zeta in T2, T4.
  assert (Hfile : encAll es ++ encHeader (headerOf e) ++ part ++ encEntry (mkEntry u d false) = file).
  { unfold file. rewrite Htorn. by rewrite <-!app_assoc. }
  rewrite Hfile in T2, T4. split.
  - intros Hm. exists s2. rewrite (walk_behind f id (offsetAfter (es ++ [e])) file s2 T2 ltac:(lia)) in T4. split; [by apply rebuild_one|].
    unfold storage_record_uuid. mrun. simpl. by rewrite T1.
  - intros Hm. destruct (walk_misses f id (offsetAfter (es ++ [e])) file s2 T2 ltac:(lia)) as (ex & s3 & W).
    rewrite W in T4. exists ex, s3. by apply rebuild_one.
Qed.

(** Records torn 8 bytes into their data: one hides a record of one byte, the other
    keeps the storage from opening. *)
Definition tornEntry (n : nat) : entry := mkEntry (replicate 16 Byte.x01) (replicate n Byte.x07) false.
Lemma torn_record_hides_next_witness :
  (∃ s2 : Storage, rebuildIndex 3 [1] (openStorage {[1 := (encAll [] ++ take (32 + 8) (encEntry (tornEntry 41)))
      ++ encEntry (mkEntry (replicate 16 Byte.x02) [Byte.x09] false)]}) = Ok true s2 ∧
    storage_record_uuid (replicate 16 Byte.x02) s2 = Ok defaultRec s2) ∧
  ∃ ex (s2 : Storage), rebuildIndex 3 [1] (openStorage {[1 := (encAll [] ++ take (32 + 8) (encEntry (tornEntry 40)))
      ++ encEntry (mkEntry (replicate 16 Byte.x02) [Byte.x09] false)]}) = Exn ex s2.
Proof.
  assert (Hf : ∀ n, replicate 16 Byte.x02 ∉ (e_uuid <$> [] ++ [tornEntry n])) by (by intros n ?%list_elem_of_singleton).
  split.
  - destruct (torn_record_hides_next 1 [] (tornEntry 41) 8 (replicate 16 Byte.x02) [Byte.x09] 3)
      as (s & r & s1 & _ & _ & _ & _ & _ & H & _); [done|done|by repeat constructor|simpl; lia|done|done|apply Hf|done|simpl; lia|].
    apply H. simpl. lia.
  - destruct (torn_record_hides_next 1 [] (tornEntry 40) 8 (replicate 16 Byte.x02) [Byte.x09] 3)
      as (s & r & s1 & _ & _ & _ & _ & _ & _ & H); [done|done|by repeat constructor|simpl; lia|done|done|apply Hf|done|simpl; lia|].
    apply H. simpl. lia.
Defined.
