(* ===== verification/StorageIndex.v ===== *)
(** A storage on its B-tree: DiskBTreeMap<MsgUUIDType, Record> (disk_btree.h), with the
    fanout 64, is an instance of the interface [Index] through which a storage uses its
    index, and a storage on the tree does what a storage on a finite map does, as long as
    the tree can count its pairs. *)
From Stdlib Require Import Lia ZifyBool.
From S2P Require Import Prelude BTree BTreeRep BTreeMap LinearStorage.
From stdpp Require Import gmap.
Local Open Scope Z_scope.

(** V() of a pair of the index value-initialises the record. *)
#[export] Instance rec_inhabited : Inhabited Rec := populate defaultRec.
Definition DiskBTreeMap : Type := @BTree.BTree bytes Rec.
Definition DiskFanout : nat := 64.
#[export] Instance tree_index : Index DiskBTreeMap := {|
  index_empty := emptyTree;
  index_find uuid b := match lookup_value uuid b with Ok o _ => Some o | _ => None end;
  index_assign uuid r b := match assign DiskFanout uuid r b with Ok _ b' => Some b' | _ => None end;
  index_erase uuid b := match erase DiskFanout uuid b with Ok _ b' => Some b' | _ => None end
|}.
Notation DiskStorage := (StorageOn DiskBTreeMap).

(** The storage on the tree is in the state of the storage on the map. *)
Record like (sd : DiskStorage) (s : Storage) : Prop := {
  like_id : currentTomId sd = currentTomId s;
  like_toms : toms sd = toms s;
  like_index : abstracts DiskFanout (index sd) (index s)
}.
(** The count of the tree can grow. *)
Definition fits (s : Storage) : Prop := Z.of_nat (size (index s)) < 2 ^ 31 - 1.

(** *** The tree serves as the map *)
Lemma call_on_tree c (b : DiskBTreeMap) m : abstracts DiskFanout b m → Z.of_nat (size m) < 2 ^ 31 - 1 →
  ∃ b', index_call DiskFanout c b = Ok (map_call c m).1 b' ∧ abstracts DiskFanout b' (map_call c m).2.
Proof.
  intros Hb Hs. destruct (index_call_ok (K := bytes) (D := Rec) DiskFanout ltac:(unfold DiskFanout; lia) b _ c Hb Hs) as (a & b' & Hr & -> & Hb'). by exists b'.
Qed.
Lemma assign_on_tree key r (b : DiskBTreeMap) m : abstracts DiskFanout b m → Z.of_nat (size m) < 2 ^ 31 - 1 →
  ∃ b', index_assign key r b = Some b' ∧ abstracts DiskFanout b' (<[key := r]> m).
Proof.
  intros Hb Hs. destruct (call_on_tree (CallAssign key r) b m Hb Hs) as (b' & Hr & Hb'). exists b'. split; [|exact Hb'].
  cbn [index_call] in Hr. unfold mbind, M_bind in Hr. cbn [index_assign tree_index]. destruct (assign DiskFanout key r b) as [[] b1| |]; [|done|done].
  by injection Hr as <-.
Qed.
Lemma erase_on_tree key (b : DiskBTreeMap) m : abstracts DiskFanout b m → Z.of_nat (size m) < 2 ^ 31 - 1 →
  ∃ b', index_erase key b = Some b' ∧ abstracts DiskFanout b' (delete key m).
Proof.
  intros Hb Hs. destruct (call_on_tree (CallErase key) b m Hb Hs) as (b' & Hr & Hb'). exists b'. split; [|exact Hb'].
  cbn [index_call] in Hr. unfold mbind, M_bind in Hr. cbn [index_erase tree_index]. destruct (erase DiskFanout key b) as [n b1| |]; [|done|done].
  by injection Hr as _ <-.
Qed.
Lemma find_on_tree key (b : DiskBTreeMap) m : abstracts DiskFanout b m → index_find key b = Some (m !! key).
Proof.
  intros (l & Hl & ->). destruct (lookup_value_ok (K := bytes) (D := Rec) DiskFanout ltac:(unfold DiskFanout; lia) b l key Hl) as (o & b' & Hr & -> & ->).
  cbn [index_find tree_index]. by rewrite Hr.
Qed.

(** *** What operations do to the size of the index *)
Definition steps {A} (R : Storage → Storage → Prop) (o : M Storage A) : Prop :=
  ∀ s, match o s with Ok _ s' | Exn _ s' => R s s' | UB => True end.
Definition same_index (s s' : Storage) : Prop := index s' = index s.
Definition no_smaller (s s' : Storage) : Prop := (size (index s) <= size (index s'))%nat.
Notation keeps := (steps same_index).
Notation grows := (steps no_smaller).
#[export] Instance same_index_preorder : PreOrder same_index.
Proof. split; [by intros s|by intros s1 s2 s3 H1 H2; unfold same_index in *; congruence]. Qed.
#[export] Instance no_smaller_preorder : PreOrder no_smaller.
Proof. split; [by intros s; unfold no_smaller|intros s1 s2 s3; unfold no_smaller; lia]. Qed.

Section Steps.
Context (R : Storage → Storage → Prop) `{!PreOrder R}.
Lemma steps_ret {A} (a : A) : steps R (mret a).
Proof. intros s. simpl. done. Qed.
Lemma steps_throw {A} e : steps R (throw (A := A) e).
Proof. intros s. simpl. done. Qed.
Lemma steps_get : steps R get.
Proof. intros s. simpl. done. Qed.
Lemma steps_require {A} (x : option A) : steps R (require x).
Proof. destruct x; [apply steps_ret|done]. Qed.
Lemma steps_bind {A B} (o : M Storage A) (f : A → M Storage B) : steps R o → (∀ a, steps R (f a)) → steps R (o ≫= f).
Proof.
  intros Ho Hf s. specialize (Ho s). unfold mbind, M_bind. destruct (o s) as [a s1|e s1|]; [|done|done].
  specialize (Hf a s1). destruct (f a s1) as [b s2|e s2|]; [by etrans|by etrans|done].
Qed.
Lemma steps_catch {A} (o : M Storage A) h : steps R o → (∀ e, steps R (h e)) → steps R (catch o h).
Proof.
  intros Ho Hh s. specialize (Ho s). unfold catch. destruct (o s) as [a s1|e s1|]; [done| |done].
  specialize (Hh e s1). destruct (h e s1) as [b s2|e' s2|]; [by etrans|by etrans|done].
Qed.
End Steps.
Lemma keeps_grows {A} (o : M Storage A) : keeps o → grows o.
Proof. intros Ho s. specialize (Ho s). unfold no_smaller. destruct (o s); [by rewrite Ho|by rewrite Ho|done]. Qed.
Lemma with_tom_keeps {A} id (op : M Tom A) : keeps (with_tom id op).
Proof. intros s. unfold with_tom. destruct (toms s !! id) as [t|]; [|done]. by destruct (op t). Qed.
Lemma currentTom_keeps : keeps currentTom.
Proof. intros s. unfold currentTom. mrun. repeat case_match; simplify_eq; done. Qed.
Lemma record_uuid_keeps u : keeps (storage_record_uuid u).
Proof. by intros s. Qed.
Lemma assign_grows key r : grows (update_index (index_assign key r)).
Proof.
  intros s. change (size (index s) <= size (<[key := r]> (index s)))%nat. rewrite map_size_insert. destruct (_ !! _); simpl; lia.
Qed.


(** *** The simulation *)

(** The operation on the tree ends like the operation on the map, provided the map is small
    enough before and after. *)
Definition sim {A} (od : M DiskStorage A) (o : M Storage A) : Prop := ∀ sd s, like sd s → fits s →
  match o s with
  | Ok a s' => fits s' → ∃ sd', od sd = Ok a sd' ∧ like sd' s'
  | Exn e s' => fits s' → ∃ sd', od sd = Exn e sd' ∧ like sd' s'
  | UB => True
  end.
Lemma sim_ret {A} (a : A) : sim (mret a) (mret a).
Proof. intros sd s Hl _ _. by exists sd. Qed.
Lemma sim_throw {A} e : sim (throw (A := A) e) (throw e).
Proof. intros sd s Hl _ _. by exists sd. Qed.
Lemma sim_require {A} (x : option A) : sim (require x) (require x).
Proof. destruct x; [apply sim_ret|done]. Qed.
(** What follows does not make the index smaller, so that what comes before it fits as well. *)
Lemma sim_bind_grows {A B} (od : M DiskStorage A) o (fd : A → M DiskStorage B) f :
  sim od o → (∀ a, sim (fd a) (f a)) → (∀ a, grows (f a)) → sim (od ≫= fd) (o ≫= f).
Proof.
  intros Ho Hf Hg sd s Hl Hs. specialize (Ho sd s Hl Hs). unfold mbind, M_bind. destruct (o s) as [a s1|e s1|]; [| |done].
  - specialize (Hg a s1). pose proof (λ sd1 H1, Hf a sd1 s1 H1) as Hf'. unfold fits, no_smaller in *.
    destruct (f a s1) as [b s2|e s2|]; [| |done]; intros Hs2; destruct Ho as (sd1 & E & H1); try lia; rewrite E; apply Hf'; [done|lia|done|done|lia|done].
  - intros H1. destruct (Ho H1) as (sd1 & E & H2). exists sd1. by rewrite E.
Qed.
(** What comes before it leaves the index alone. *)
Lemma sim_bind_keeps {A B} (od : M DiskStorage A) o (fd : A → M DiskStorage B) f :
  sim od o → keeps o → (∀ a, sim (fd a) (f a)) → sim (od ≫= fd) (o ≫= f).
Proof.
  intros Ho Hk Hf sd s Hl Hs. specialize (Ho sd s Hl Hs). specialize (Hk s). unfold mbind, M_bind, fits, same_index in *.
  destruct (o s) as [a s1|e s1|]; [| |done]; rewrite Hk in Ho; destruct (Ho Hs) as (sd1 & E & H1); rewrite E.
  - apply Hf; [done|]. unfold fits. by rewrite Hk.
  - intros _. by exists sd1.
Qed.
Lemma sim_catch {A} (od : M DiskStorage A) o hd h : sim od o → (∀ e, sim (hd e) (h e)) → (∀ e, grows (h e)) → sim (catch od hd) (catch o h).
Proof.
  intros Ho Hh Hg sd s Hl Hs. specialize (Ho sd s Hl Hs). unfold catch. destruct (o s) as [a s1|e s1|]; [| |done].
  - intros H1. destruct (Ho H1) as (sd1 & E & H2). exists sd1. by rewrite E.
  - specialize (Hg e s1). pose proof (λ sd1 H1, Hh e sd1 s1 H1) as Hh'. unfold fits, no_smaller in *.
    destruct (h e s1) as [b s2|e' s2|]; [| |done]; intros Hs2; destruct Ho as (sd1 & E & H1); try lia; rewrite E; apply Hh'; [done|lia|done|done|lia|done].
Qed.
Lemma sim_get {A} (fd : DiskStorage → M DiskStorage A) f : (∀ sd s, like sd s → sim (fd sd) (f s)) → sim (sd ← get; fd sd) (s ← get; f s).
Proof. intros Hf sd s Hl Hs. exact (Hf sd s Hl sd s Hl Hs). Qed.
Lemma sim_with_tom {A} id (op : M Tom A) : sim (with_tom id op) (with_tom id op).
Proof.
  intros sd s [H1 H2 H3] _. unfold with_tom. destruct (toms s !! id) as [t|] eqn:E; [|intros _; exists sd; by rewrite H2, E].
  destruct (op t) as [a t'|e t'|] eqn:Eo; [| |done]; intros _; rewrite H2, E, Eo; eexists; split; try done; split; simpl; congruence.
Qed.
Lemma sim_currentTom : sim currentTom currentTom.
Proof.
  intros sd s [H1 H2 H3] _. unfold currentTom. mrun. rewrite H1, H2. destruct (toms s !! currentTomId s); [intros _; by exists sd|].
  destruct (toms s !! _); intros _; eexists; split; try done; split; simpl; congruence.
Qed.
Lemma sim_assign key r : sim (update_index (index_assign key r)) (update_index (index_assign key r)).
Proof.
  intros sd s [H1 H2 H3] Hs _. destruct (assign_on_tree key r _ _ H3 Hs) as (b & Hb & Hm). unfold update_index. mrun. rewrite Hb.
  eexists. split; [done|]. by split.
Qed.
Lemma sim_erase key : sim (update_index (index_erase key)) (update_index (index_erase key)).
Proof.
  intros sd s [H1 H2 H3] Hs _. destruct (erase_on_tree key _ _ H3 Hs) as (b & Hb & Hm). unfold update_index. mrun. rewrite Hb.
  eexists. split; [done|]. by split.
Qed.
Lemma sim_record_uuid u : sim (storage_record_uuid u) (storage_record_uuid u).
Proof.
  intros sd s Hl _ _. exists sd. split; [|done]. unfold storage_record_uuid. mrun. by rewrite (find_on_tree u _ _ (like_index _ _ Hl)).
Qed.

(** An operation that returns: it has no effect to compare. *)
Ltac rets := intros; first [apply sim_ret|apply steps_ret; apply _].

(** *** The operations *)
Lemma sim_append u d : sim (storage_append u d) (storage_append u d).
Proof.
  destruct d as [|x d]; [apply sim_throw|]. apply sim_bind_keeps; [apply sim_currentTom|apply currentTom_keeps|]. intros id.
  apply sim_bind_keeps; [apply sim_with_tom|apply with_tom_keeps|]. intros r.
  apply sim_bind_grows; [apply sim_assign|rets|rets].
Qed.
Lemma sim_remove q : sim (storage_remove q) (storage_remove q).
Proof.
  apply sim_get. intros sd s Hl. rewrite (like_toms _ _ Hl). destruct (toms s !! rec_tomId q); [|apply sim_throw].
  apply sim_bind_keeps.
  - case_decide; [|rets]. apply sim_catch; [|rets|rets].
    apply sim_bind_keeps; [apply sim_with_tom|apply with_tom_keeps|rets].
  - case_decide; [|rets]. apply steps_catch; [apply _| |rets].
    apply steps_bind; [apply _|apply with_tom_keeps|rets].
  - intros u. apply sim_bind_keeps; [apply sim_with_tom|apply with_tom_keeps|]. intros [ok r].
    apply sim_bind_grows; [|rets|rets].
    destruct (ok && _); [apply sim_erase|rets].
Qed.
Lemma walk_grows {B} fuel id (visit : Rec → M Storage (list B)) offset : (∀ r, grows (visit r)) → grows (walk fuel id visit offset).
Proof.
  intros Hv. revert offset. induction fuel as [|fuel IH]; intros offset; cbn [walk]; [rets|].
  apply steps_bind; [apply _|apply keeps_grows, with_tom_keeps|]. intros r.
  repeat (case_match; [rets|]). apply steps_bind; [apply _| |].
  - case_match; [apply Hv|rets].
  - intros here. apply steps_bind; [apply _|apply IH|]. rets.
Qed.
Lemma walkAll_grows {B} fuel (visit : Rec → M Storage (list B)) order : (∀ r, grows (visit r)) → grows (walkAll fuel visit order).
Proof.
  intros Hv. induction order as [|id order IH]; cbn [walkAll]; [rets|].
  apply steps_bind; [apply _|by apply walk_grows|]. intros [here|]; [|rets].
  apply steps_bind; [apply _|apply IH|]. rets.
Qed.
Lemma sim_walk {B} fuel id (vd : Rec → M DiskStorage (list B)) v offset :
  (∀ r, sim (vd r) (v r)) → (∀ r, grows (v r)) → sim (walk fuel id vd offset) (walk fuel id v offset).
Proof.
  intros Hv Hg. revert offset. induction fuel as [|fuel IH]; intros offset; cbn [walk]; [rets|].
  apply sim_bind_keeps; [apply sim_with_tom|apply with_tom_keeps|]. intros r.
  repeat (case_match; [rets|]). apply sim_bind_grows.
  - case_match; [apply Hv|rets].
  - intros here. apply sim_bind_grows; [apply IH|rets|rets].
  - intros here. apply steps_bind; [apply _|by apply walk_grows|rets].
Qed.
Lemma sim_walkAll {B} fuel (vd : Rec → M DiskStorage (list B)) v order :
  (∀ r, sim (vd r) (v r)) → (∀ r, grows (v r)) → sim (walkAll fuel vd order) (walkAll fuel v order).
Proof.
  intros Hv Hg. induction order as [|id order IH]; cbn [walkAll]; [rets|].
  apply sim_bind_grows; [by apply sim_walk| |]; intros [here|]; try rets; try rets.
  - apply sim_bind_grows; [apply IH|rets|rets].
  - apply steps_bind; [apply _|by apply walkAll_grows|rets].
Qed.
Lemma indexVisit_grows r : grows (indexVisit r).
Proof. apply steps_bind; [apply _|apply assign_grows|rets]. Qed.
Lemma sim_rebuild fuel order : sim (rebuildIndex fuel order) (rebuildIndex fuel order).
Proof.
  apply sim_bind_grows; [|rets|rets]. apply sim_walkAll; [|apply indexVisit_grows].
  intros r. apply sim_bind_grows; [apply sim_assign|rets|rets].
Qed.
Lemma scanVisit_keeps r : keeps (scanVisit r).
Proof.
  apply steps_catch; [apply _| |rets].
  apply steps_bind; [apply _|apply with_tom_keeps|rets].
Qed.
Lemma sim_scan fuel order : sim (scan fuel order) (scan fuel order).
Proof.
  apply sim_walkAll; [|intros r; apply keeps_grows, scanVisit_keeps]. intros r. apply sim_catch; [|rets|rets].
  apply sim_bind_keeps; [apply sim_with_tom|apply with_tom_keeps|rets].
Qed.
Lemma like_open files : like (openStorage files) (openStorage files).
Proof. split; [done|done|]. exact (emptyTree_abstracts (K := bytes) (D := Rec) DiskFanout ltac:(unfold DiskFanout; lia)). Qed.
Lemma open_fits files : fits (openStorage files).
Proof. unfold fits. change (index (openStorage files)) with (∅ : gmap bytes Rec). rewrite map_size_empty. lia. Qed.

(** *** The storage on the tree *)
Section DiskStorage.
(** The iteration order of the hash map of toms. *)
Context (order : gmap Z Tom → list Z) (Horder : ∀ m, order m ≡ₚ (map_to_list m).*1).
Notation run o := (do_sop (λ s, order (toms s)) o).
Notation runs_of os := (runSops (λ s, order (toms s)) os).

Lemma sim_sop o : sim (run o) (run o).
Proof.
  destruct o as [u d|u|u|u| |]; cbn [do_sop].
  - apply sim_bind_grows; [apply sim_append|rets|rets].
  - apply sim_catch; [|rets|rets]. apply sim_bind_keeps; [apply sim_record_uuid|apply record_uuid_keeps|]. intros r.
    apply sim_bind_grows; [apply sim_remove| |]; intros [ok q]; rets.
  - apply sim_catch; [|rets|rets]. apply sim_bind_keeps; [apply sim_record_uuid|apply record_uuid_keeps|]. intros r.
    apply sim_bind_grows; [apply sim_remove| |]; intros [ok q]; rets.
  - apply sim_catch; [|rets|rets]. apply sim_bind_keeps; [apply sim_record_uuid|apply record_uuid_keeps|]. intros r.
    apply sim_bind_keeps; [apply sim_with_tom|apply with_tom_keeps|rets].
  - apply sim_get. intros sd s Hl. unfold fuelOf. rewrite (like_toms _ _ Hl).
    apply sim_bind_grows; [apply sim_scan| |]; intros r.
    + apply sim_bind_grows; [apply sim_require|rets|rets].
    + apply steps_bind; [apply _|apply steps_require, _|rets].
  - apply sim_get. intros sd s Hl sd0 s0 _ _. rewrite (like_toms _ _ Hl). set (files := tom_file <$> toms s).
    assert (sim (ok ← rebuildIndex (fuelOf (Ix := DiskBTreeMap) (openStorage files)) (order (toms (Ix := DiskBTreeMap) (openStorage files))); if (ok : bool) then mret RUnit else undefined)
                (ok ← rebuildIndex (fuelOf (Ix := gmap bytes Rec) (openStorage files)) (order (toms (Ix := gmap bytes Rec) (openStorage files))); if (ok : bool) then mret RUnit else undefined)) as Hr.
    { apply sim_bind_grows; [apply sim_rebuild| |]; intros []; try rets; done. }
    exact (Hr _ _ (like_open files) (open_fits files)).
Qed.

(** The index has no more keys than the map that the storage holds. *)
Lemma holds_size (s : Storage) m n : holds s m n → (size (index s) <= size m)%nat.
Proof.
  intros (c & Hwf & _ & _ & _ & Hm). rewrite <-!size_dom. apply subseteq_size. intros u [r Hr]%elem_of_dom.
  apply (wfs_index _ _ Hwf) in Hr as (e & Hin & <-). apply elem_of_dom. exists (e_data e). apply Hm. by exists r, e.
Qed.
Lemma spec_map_size m o : (size (spec_map m o) <= S (size m))%nat.
Proof.
  destruct o; simpl; try lia.
  - rewrite map_size_insert. destruct (m !! _); simpl; lia.
  - rewrite map_size_delete. destruct (m !! _); simpl; lia.
  - rewrite map_size_delete. destruct (m !! _); simpl; lia.
Qed.
Lemma disk_runs os sd s m n : like sd s → holds s m n → sops_ok m n os → Z.of_nat (size m + length os) < 2 ^ 31 - 1 →
  ∃ rs sd' s', runs_of os sd = Ok rs sd' ∧ spec_run m os rs ∧ like sd' s'.
Proof.
  assert (∀ s : Storage, iterates (order (toms s)) s) as Ho by (intros; apply Horder).
  revert sd s m n. induction os as [|o os IH]; intros sd s m n Hl Hh Hok Hs; [by exists [], sd, s|].
  destruct Hok as (n' & Hon & Hos). destruct (sop_sim (λ s, order (toms s)) Ho o s m n n' Hh Hon) as (r & s1 & m1 & H1 & H2 & H3).
  pose proof (spec_resp_map _ _ _ _ H2) as ->. pose proof (spec_map_size m o). pose proof (holds_size _ _ _ Hh). pose proof (holds_size _ _ _ H3).
  simpl length in Hs. pose proof (sim_sop o sd s Hl) as Hsim. unfold fits in Hsim. rewrite H1 in Hsim.
  destruct Hsim as (sd1 & E1 & Hl1); [lia|lia|]. destruct (IH sd1 s1 _ n' Hl1 H3 Hos) as (rs & sd2 & s2 & E2 & Hsp & Hl2); [lia|].
  exists (r :: rs), sd2, s2. split; [|done]. cbn [runSops]. by rewrite (bind_ok _ _ _ _ _ E1), (bind_ok _ _ _ _ _ E2).
Qed.

End DiskStorage.

