(* ===== verification/StorageWorker.v ===== *)
(** linear_storage::ConcurrentLinearStorage (ConcurrentLinearStorage.h/.cpp): the
    worker thread that owns a Storage and serves requests from a queue, and the
    expiration sweep it runs between requests.

    [dispatch] is the body of the worker's loop for one request; the client
    functions post a request and wait for it, so a single client sees them as calls.
    The thread's start and stop are in WorkerLifecycle.v. *)
From stdpp Require Import sorting.
From S2P Require Import Prelude StorageRecord LinearStorage.
From Stdlib Require Import Lia ZifyBool.

(** Operation: OperationId with the fields each request carries. *)
Inductive request : Type :=
  | GET_RECORD_BY_TOM_OFFSET (tomId offset : Z)
  | GET_RECORD_BY_UUID (uuid : bytes)
  | GET_DATA_BY_RECORD (record : Rec)
  | APPEND (uuid data : bytes)
  | REMOVE (record : Rec)
  | SCAN
  | APPEND_BATCH (items : list (bytes * bytes)).

(** The fields of an Operation a client reads back. *)
Record reply : Type := mkReply {
  op_record : Rec;
  op_data : bytes;
  op_scan : list (Rec * bytes)
}.
(** The Operation as posted: what the client finds when the worker caught an
    exception. *)
Definition posted (req : request) : reply :=
  match req with
  | GET_DATA_BY_RECORD r | REMOVE r => mkReply r [] []
  | APPEND _ d => mkReply defaultRec d []
  | _ => mkReply defaultRec [] []
  end.
Definition reply_record (r : Rec) (rep : reply) : reply := mkReply r (op_data rep) (op_scan rep).

Section Worker.
(** The iteration order of the unordered_map of toms. *)
Context (order : Storage → list Z).

Definition scanAll : M Storage (list (Rec * bytes)) :=
  s ← get; r ← scan (fuelOf s) (order s); require r.

(** The switch of run(), inside its try block. *)
Definition perform (req : request) : M Storage reply :=
  match req with
  | GET_RECORD_BY_TOM_OFFSET tomId offset =>
      r ← storage_record tomId offset; mret (reply_record r (posted req))
  | GET_RECORD_BY_UUID uuid => r ← storage_record_uuid uuid; mret (reply_record r (posted req))
  | GET_DATA_BY_RECORD record => d ← storage_data record; mret (mkReply record d [])
  | APPEND uuid data => r ← storage_append uuid data; mret (reply_record r (posted req))
  | REMOVE record => '(_, r) ← storage_remove record; mret (reply_record r (posted req))
  | APPEND_BATCH items =>
      _ ← for_each (λ '(uuid, data), _ ← storage_append uuid data; mret tt) items; mret (posted req)
  | SCAN => l ← scanAll; mret (mkReply defaultRec [] l)
  end.
(** Every exception is caught and logged; the client gets the fields as posted. *)
Definition dispatch (req : request) : M Storage reply := catch (perform req) (λ _, mret (posted req)).

(** *** The client calls *)
Definition cls_append (uuid data : bytes) : M Storage Rec :=
  rep ← dispatch (APPEND uuid data); mret (op_record rep).
Definition cls_record (tomId offset : Z) : M Storage Rec :=
  rep ← dispatch (GET_RECORD_BY_TOM_OFFSET tomId offset); mret (op_record rep).
Definition cls_record_uuid (uuid : bytes) : M Storage Rec :=
  rep ← dispatch (GET_RECORD_BY_UUID uuid); mret (op_record rep).
Definition cls_data (record : Rec) : M Storage bytes :=
  rep ← dispatch (GET_DATA_BY_RECORD record); mret (op_data rep).
Definition cls_remove (record : Rec) : M Storage bool :=
  rep ← dispatch (REMOVE record); mret (negb (rec_deleted (rec_header (op_record rep)) =? 0)).
(** removeAsync posts the request and returns without waiting for it. Here the request is
    served at once; in between the client can only post more, and what it and the
    storage see in the end does not depend on when the worker gets to it
    ([posted_is_immediate] below, over every interleaving of the two threads). *)
Definition cls_removeAsync (record : Rec) : M Storage unit :=
  if rec_tomId record =? UINT32_MAX then mret tt
  else _ ← dispatch (REMOVE record); mret tt.
Definition cls_appendBatch (items : list (bytes * bytes)) : M Storage unit :=
  match items with [] => mret tt | _ => _ ← dispatch (APPEND_BATCH items); mret tt end.
Definition cls_scan : M Storage (list (Rec * bytes)) :=
  rep ← dispatch SCAN; mret (op_scan rep).

(** *** The sweep *)
Definition kSweepBudget : nat := 4096.

(** sweepExpired: one chunk of the sweep at wall-clock time [nowMs]; returns the
    new _sweepCursor. scanPrefix's fuel is that of a walk plus its budget check. *)
Definition sweepChunk (budget : nat) (nowMs : Z) (cursor : SweepCursor) : M Storage SweepCursor :=
  s ← get;
  r ← scanPrefix (S (fuelOf s)) kPrefixLen budget cursor;
  '(batch, cursor') ← require r;
  _ ← for_each (λ '(record, prefix),
        if sweep_expired nowMs prefix then _ ← storage_remove record; mret tt else mret tt) batch;
  mret cursor'.
Definition sweepExpired (nowMs : Z) (cursor : SweepCursor) : M Storage SweepCursor :=
  sweepChunk kSweepBudget nowMs cursor.

(** A request never brings the worker down: no exception escapes. *)
Lemma dispatch_catches req s e s' : dispatch req s ≠ Exn e s'.
Proof. unfold dispatch, catch. by destruct (perform req s). Qed.
End Worker.

(** *** Requests that are posted

    A client thread and the worker, with the client's requests in the order in which it
    enqueued them. The client waits for the event of a request it calls and not for one
    it posts (async = true). *)
Section Posted.
Context (order : Storage → list Z).

Inductive client_op : Type := Call (req : request) | Post (req : request).
Definition requestOf (o : client_op) : request := match o with Call req | Post req => req end.
Definition waits_for (o : client_op) : bool := match o with Call _ => true | Post _ => false end.
Record exchange : Type := mkExchange {
  ex_storage : Storage;          (** the worker's *)
  ex_queued : list client_op;    (** enqueued and not yet served *)
  ex_replies : list reply;       (** what the client's calls have returned *)
  ex_program : list client_op    (** what the client has not enqueued yet *)
}.
Definition startExchange (s : Storage) (program : list client_op) : exchange := mkExchange s [] [] program.
Definition answerTo (o : client_op) (rep : reply) : list reply := if waits_for o then [rep] else [].

(** The client goes on unless it waits for a call; the worker serves the head of the
    queue and signals a call, or deletes the operation of a post. *)
Inductive exchange_step : exchange → exchange → Prop :=
  | client_enqueues s queued replies o program :
      existsb waits_for queued = false →
      exchange_step (mkExchange s queued replies (o :: program)) (mkExchange s (queued ++ [o]) replies program)
  | worker_serves s queued replies o program rep s' :
      dispatch order (requestOf o) s = Ok rep s' →
      exchange_step (mkExchange s (o :: queued) replies program) (mkExchange s' queued (replies ++ answerTo o rep) program).
Definition exchange_done (x : exchange) : Prop := ex_queued x = [] ∧ ex_program x = [].

(** The program with every request served when it is made. *)
Fixpoint atOnce (program : list client_op) : M Storage (list reply) :=
  match program with
  | [] => mret []
  | o :: program =>
      rep ← dispatch order (requestOf o); reps ← atOnce program; mret (answerTo o rep ++ reps)
  end.

Lemma exchange_rest x x' s' replies :
  exchange_step x x' →
  (∃ reps, atOnce (ex_queued x ++ ex_program x) (ex_storage x) = Ok reps s' ∧ replies = ex_replies x ++ reps) →
  ∃ reps, atOnce (ex_queued x' ++ ex_program x') (ex_storage x') = Ok reps s' ∧ replies = ex_replies x' ++ reps.
Proof.
  intros [s queued rs o program _|s queued rs o program rep s1 Hd] (reps & Hr & ->); cbn [ex_queued ex_program ex_storage ex_replies] in *.
  - exists reps. by rewrite <-app_assoc.
  - cbn [app atOnce] in Hr. rewrite (bind_ok _ _ _ _ _ Hd) in Hr. unfold mbind, M_bind in Hr.
    destruct (atOnce (queued ++ program) s1) as [reps1 s2|e s2|]; [|done..]. injection Hr as <- <-.
    exists reps1. by rewrite app_assoc.
Qed.

(** A posted request might as well be served at once: however the client and the worker
    interleave, what the calls of the client's program return and the storage once
    everything is served are those of the program with every request, posted or not,
    served when it is made; and the two threads never block each other before that. *)
Theorem posted_is_immediate program s replies s' x :
  atOnce program s = Ok replies s' → rtc exchange_step (startExchange s program) x →
  (∃ reps, atOnce (ex_queued x ++ ex_program x) (ex_storage x) = Ok reps s' ∧ replies = ex_replies x ++ reps) ∧
  (exchange_done x → ex_replies x = replies ∧ ex_storage x = s') ∧
  (¬ exchange_done x → ∃ x', exchange_step x x').
Proof.
  intros H Hx.
  assert (Hinv : ∃ reps, atOnce (ex_queued x ++ ex_program x) (ex_storage x) = Ok reps s' ∧ replies = ex_replies x ++ reps).
  { assert (H0 : ∃ reps, atOnce (ex_queued (startExchange s program) ++ ex_program (startExchange s program))
      (ex_storage (startExchange s program)) = Ok reps s' ∧ replies = ex_replies (startExchange s program) ++ reps)
      by (by exists replies). revert H0. clear H.
    induction Hx as [x|x y z Hstep _ IH]; [done|]. intros H0. apply IH. by eapply exchange_rest. }
  split; [done|]. destruct Hinv as (reps & Hr & ->). destruct x as [sx [|o queued] rs program']; cbn in *.
  - split.
    + intros [_ Hp]. cbn in Hp. subst program'. injection Hr as <- <-. by rewrite app_nil_r.
    + intros Hnd. destruct program' as [|o program']; [by destruct Hnd|]. eexists. by constructor.
  - split; [by intros []|]. intros _. unfold mbind, M_bind in Hr.
    destruct (dispatch order (requestOf o) sx) as [rep s1|e s1|] eqn:Hd; [|done..].
    eexists. by eapply worker_serves.
Qed.

(** One posted request: the storage is as before until the worker serves it. *)
Lemma post_alone req s rep s' x :
  dispatch order req s = Ok rep s' → rtc exchange_step (startExchange s [Post req]) x →
  (ex_storage x = s ∧ ¬ exchange_done x) ∨ (ex_storage x = s' ∧ exchange_done x).
Proof.
  intros Hd Hx. apply rtc_inv in Hx as [<-|(y & Hy & Hx)]; [left; by split; [|intros []]|].
  inversion Hy; subst. apply rtc_inv in Hx as [<-|(z & Hz & Hx)]; [left; by split; [|intros []]|].
  inversion Hz; subst. match goal with H : dispatch _ _ _ = _ |- _ => cbn in H; rewrite Hd in H; injection H as <- <- end.
  apply rtc_inv in Hx as [<-|(w & Hw & _)]; [right; by split|]. inversion Hw.
Qed.
End Posted.

(** *** scanPrefix returns what it should *)
Lemma tom_dataPrefix_at t es1 e es2 n :
  repr t (es1 ++ e :: es2) → (0 < n)%nat →
  tom_dataPrefix (recOf (tom_id t) es1 e) n t = Ok (take n (e_data e)) t.
Proof.
  intros H Hn. destruct (repr_middle _ _ _ _ H) as (He & Hb & Hm).
  unfold tom_dataPrefix, recOf, headerOf. cbn [rec_header rec_dataSize rec_offset].
  rewrite Nat2Z.id. assert (length (e_data e) ≠ 0%nat) by (destruct He as [_ He]; by destruct (e_data e)).
  rewrite decide_False by lia. change (Z.of_nat sizeofHeader) with 32.
  rewrite (offset_wrap t es1 e es2) by (done || lia). mrun.
  pose proof (repr_cursor _ _ _ _ H) as C. epose proof (cursor_next _ _ _ _ _ C eq_refl) as C1.
  rewrite length_encHeader in C1 by apply He.
  replace (offsetAfter es1 + 32) with (Z.of_nat (length (encAll es1) + 32)) by (unfold offsetAfter; lia).
  rewrite <-(take_drop n (e_data e)), <-app_assoc in C1.
  by rewrite (fread_at _ _ _ _ _ (rp_sound _ _ H) C1) by (rewrite length_take; lia).
Qed.

(** What the walk collects from a list of live entries. *)
Definition prefixes (n : nat) (l : list (Rec * entry)) : list (Rec * bytes) :=
  (λ re, (re.1, take n (e_data re.2))) <$> l.

Lemma prefixWalk_spec fuel id t n k sc (s : Storage) es1 es2 :
  toms s !! id = Some t → repr t (es1 ++ es2) → tom_id t = id → (0 < n)%nat →
  (length es2 < fuel)%nat → (sc <= k)%nat →
  prefixWalk fuel id n k sc (offsetAfter es1) s
  = Ok (Some (prefixes n (liveRecs id es1 (take (k - sc) es2)),
              (if decide (k - sc <= length es2)%nat then Some (offsetAfter (es1 ++ take (k - sc) es2)) else None),
              (sc + length (take (k - sc) es2))%nat)) s.
Proof.
  revert es1 es2 sc. induction fuel as [|fuel IH]; intros es1 es2 sc Ht Hr Hid Hn Hf Hsc; [lia|].
  cbn [prefixWalk]. case_decide as Hk.
  { replace (k - sc)%nat with 0%nat by lia. rewrite decide_True by lia. simpl.
    by rewrite app_nil_r, Nat.add_0_r. }
  unfold storage_record. destruct es2 as [|e es2].
  - rewrite app_nil_r in Hr.
    rewrite (bind_ok _ _ _ _ _ (with_tom_same _ _ _ _ _ Ht (tom_record_end _ _ Hr))).
    rewrite decide_False by (simpl; lia). rewrite take_nil. simpl. by rewrite Nat.add_0_r.
  - pose proof (tom_record_at _ _ _ _ Hr) as Hrec. rewrite Hid in Hrec.
    rewrite (bind_ok _ _ _ _ _ (with_tom_same _ _ _ _ _ Ht Hrec)).
    pose proof (rp_id _ _ Hr) as Hmax. rewrite Hid in Hmax.
    destruct (repr_middle _ _ _ _ Hr) as ((Hu & Hd) & Hb & Hm).
    assert (length (e_data e) ≠ 0%nat) by (by destruct (e_data e)).
    change (rec_tomId (recOf id es1 e)) with id.
    change (rec_dataSize (rec_header (recOf id es1 e))) with (Z.of_nat (length (e_data e))).
    change (rec_deleted (rec_header (recOf id es1 e))) with (if e_deleted e then 1 else 0).
    replace (id =? UINT32_MAX) with false by lia.
    replace (Z.of_nat (length (e_data e)) =? 0) with false by lia.
    change (Z.of_nat sizeofHeader) with 32. rewrite <-Z.add_assoc, (offset_wrap t es1 e es2) by (done || lia).
    assert (Hnext : offsetAfter es1 + (32 + Z.of_nat (length (e_data e))) = offsetAfter (es1 ++ [e])).
    { unfold offsetAfter. rewrite encAll_app, encAll_cons, !length_app, length_encEntry by done. simpl. lia. }
    rewrite Hnext. replace (k - sc)%nat with (S (k - S sc)) by lia.
    assert (Hrest := IH (es1 ++ [e]) es2 (S sc) Ht ltac:(by rewrite <-app_assoc) Hid Hn
      ltac:(simpl in *; lia) ltac:(lia)). rewrite <-app_assoc in Hrest. cbn [app] in Hrest.
    assert (Hdec : (if decide (S (k - S sc) <= length (e :: es2))%nat
                    then Some (offsetAfter (es1 ++ take (S (k - S sc)) (e :: es2))) else None)
      = (if decide (k - S sc <= length es2)%nat then Some (offsetAfter (es1 ++ e :: take (k - S sc) es2)) else None)).
    { simpl. do 2 case_decide; done || lia. }
    rewrite Hdec. cbn [take liveRecs length]. destruct (e_deleted e) eqn:Hdel; cbn [Z.eqb].
    + rewrite bind_ret, (bind_ok _ _ _ _ _ Hrest). unfold prefixes. cbn [app].
      mrun. do 3 f_equal. lia.
    + pose proof (tom_dataPrefix_at t es1 e es2 n Hr Hn) as Hp. rewrite Hid in Hp.
      assert (Hhere : (prefix ← with_tom id (tom_dataPrefix (recOf id es1 e) n);
        mret match prefix with [] => [] | _ => [(recOf id es1 e, prefix)] end) s
        = Ok [(recOf id es1 e, take n (e_data e))] s).
      { rewrite (bind_ok _ _ _ _ _ (with_tom_same _ _ _ _ _ Ht Hp)).
        destruct (e_data e) as [|b d]; [done|]. by destruct n; [lia|]. }
      rewrite (bind_ok _ _ _ _ _ Hhere), (bind_ok _ _ _ _ _ Hrest). unfold prefixes. csimpl.
      mrun. do 3 f_equal. lia.
Qed.

(** *** Positions *)

(** Every entry of a tom with its record, removed ones included. *)
Fixpoint allRecs (id : Z) (before es : list entry) : list (Rec * entry) :=
  match es with
  | [] => []
  | e :: es => (recOf id before e, e) :: allRecs id (before ++ [e]) es
  end.
Definition allOf (c : contents) (id : Z) : list (Rec * entry) := allRecs id [] (default [] (c !! id)).
Definition pos (r : Rec) : Z * Z := (rec_tomId r, rec_offset r).
Definition before (p q : Z * Z) : Prop := p.1 < q.1 ∨ p.1 = q.1 ∧ p.2 < q.2.
#[export] Instance before_dec p q : Decision (before p q).
Proof. unfold before. apply _. Defined.
Notation isLive := (λ re : Rec * entry, e_deleted re.2 = false).

(** A cursor is at an entry boundary, or at the start. *)
Definition valid_cursor (c : contents) (cur : SweepCursor) : Prop :=
  cur = (0, 0) ∨
  ∃ es1 es2, c !! cur.1 = Some (es1 ++ es2) ∧ cur.2 = offsetAfter es1.

Lemma liveRecs_allRecs id b es : liveRecs id b es = filter isLive (allRecs id b es).
Proof.
  revert b. induction es as [|e es IH]; intros b; [done|]. simpl. rewrite filter_cons, IH.
  destruct (e_deleted e) eqn:Hd; [by rewrite decide_False by (simpl; congruence)|by rewrite decide_True].
Qed.

Lemma allRecs_app id b es1 es2 : allRecs id b (es1 ++ es2) = allRecs id b es1 ++ allRecs id (b ++ es1) es2.
Proof.
  revert b. induction es1 as [|e es1 IH]; intros b; simpl; [by rewrite app_nil_r|]. by rewrite IH, <-app_assoc.
Qed.

Lemma length_allRecs id b es : length (allRecs id b es) = length es.
Proof. revert b. induction es as [|e es IH]; intros b; simpl; [done|by rewrite IH]. Qed.

Lemma offsetAfter_snoc es e : offsetAfter es + 16 <= offsetAfter (es ++ [e]).
Proof.
  unfold offsetAfter. rewrite encAll_app, encAll_cons, !length_app. unfold encEntry, encHeader.
  rewrite !length_app, !length_encLE, length_replicate. lia.
Qed.

Lemma allRecs_range id b es re :
  re ∈ allRecs id b es →
  rec_tomId re.1 = id ∧ offsetAfter b <= rec_offset re.1 < offsetAfter (b ++ es).
Proof.
  revert b. induction es as [|e es IH]; intros b; simpl; [by intros ?%not_elem_of_nil|].
  pose proof (offsetAfter_snoc b e) as Hs.
  assert (Hm : offsetAfter (b ++ [e]) <= offsetAfter (b ++ e :: es)).
  { replace (b ++ e :: es) with ((b ++ [e]) ++ es) by (by rewrite <-app_assoc).
    unfold offsetAfter. rewrite (encAll_app (b ++ [e])), length_app. lia. }
  intros [->|H]%elem_of_cons; [cbn [fst rec_tomId rec_offset recOf]; lia|].
  apply IH in H. rewrite <-app_assoc in H. cbn [app] in H. lia.
Qed.

Lemma allOf_range c id re : re ∈ allOf c id → rec_tomId re.1 = id ∧ 0 <= rec_offset re.1.
Proof.
  unfold allOf. intros H%allRecs_range. unfold offsetAfter in H at 1. simpl in H. lia.
Qed.

(** What is at or after a cursor inside its own tom. *)
Lemma filter_from id es1 es2 :
  filter (λ re, ¬ before (pos re.1) (id, offsetAfter es1)) (allRecs id [] (es1 ++ es2)) = allRecs id es1 es2.
Proof.
  rewrite allRecs_app, list.filter_app, app_nil_l, filter_none, filter_every; [done| |];
    apply list.Forall_forall; intros re [H1 H2]%allRecs_range; unfold before, pos; cbn [fst snd].
  - lia.
  - rewrite app_nil_l in H2. intros Hn. apply Hn. lia.
Qed.

(** *** scanPrefix *)
Definition fromCursor (c : contents) (resuming : bool) (cur : SweepCursor) (ids : list Z) : list (Rec * entry) :=
  filter (λ re, resuming = true → ¬ before (pos re.1) cur) (ids ≫= allOf c).

Lemma fromCursor_false c cur ids : fromCursor c false cur ids = ids ≫= allOf c.
Proof. apply filter_every. by apply list.Forall_forall. Qed.

Lemma fromCursor_later c b cur id ids :
  cur.1 <= id → Forall (Z.lt id) ids → fromCursor c b cur ids = ids ≫= allOf c.
Proof.
  intros Hc Hs. apply filter_every, list.Forall_forall. intros re (i & Hr & Hi)%list_elem_of_bind _.
  apply allOf_range in Hr. pose proof (proj1 (list.Forall_forall _ _) Hs i Hi). unfold before, pos. simpl. lia.
Qed.

(** One tom, from the cursor in it. *)
Lemma prefixWalk_from fuel id t n k sc (s : Storage) es1 es2 :
  toms s !! id = Some t → repr t (es1 ++ es2) → tom_id t = id → (0 < n)%nat →
  (length es2 < fuel)%nat → (sc <= k)%nat →
  prefixWalk fuel id n k sc (offsetAfter es1) s
  = Ok (Some (prefixes n (filter isLive (take (k - sc) (allRecs id es1 es2))),
              (if decide (k - sc <= length es2)%nat then Some (offsetAfter (es1 ++ take (k - sc) es2)) else None),
              (sc + length (take (k - sc) es2))%nat)) s.
Proof.
  intros Ht Hr Hid Hn Hf Hsc. rewrite (prefixWalk_spec fuel id t n k sc s es1 es2) by done.
  do 2 f_equal. do 3 f_equal. unfold prefixes. f_equal. generalize (k - sc)%nat. clear.
  intros m. rewrite liveRecs_allRecs. f_equal. revert m es1.
  induction es2 as [|e es2 IH]; intros [|m] b; simpl; [done..|]. by rewrite IH.
Qed.

(** The outcome of a chunk with budget [m] over the entries [all] of the toms
    [ids]: [out] was inspected, and the new cursor is where it ends. *)
Definition chunk_outcome (c : contents) (ids : list Z) (m : nat) (all out : list (Rec * entry))
    (cur' : SweepCursor) : Prop :=
  (cur' = (0, 0) ∧ out = all) ∨
  (valid_cursor c cur' ∧ cur'.1 ∈ ids ∧ ∃ rest, all = out ++ rest ∧ length out = m ∧
     Forall (λ re, before (pos re.1) cur') out ∧ Forall (λ re, ¬ before (pos re.1) cur') rest).

(** A tom before the cursor's contributes nothing. *)
Lemma fromCursor_skip c b cur id ids :
  b && (id <? cur.1) = true → fromCursor c b cur (id :: ids) = fromCursor c b cur ids.
Proof.
  intros Hskip. unfold fromCursor. csimpl. rewrite list.filter_app, filter_none; [done|].
  apply list.Forall_forall. intros re [Hr1 _]%allOf_range Hn'. apply Hn'; [by destruct b|].
  unfold before, pos. simpl. lia.
Qed.

(** Outside the cursor's tom the whole tom is taken. *)
Lemma fromCursor_whole c b cur id ids es :
  c !! id = Some es → Forall (Z.lt id) ids → b = false ∨ cur.1 < id →
  fromCursor c b cur (id :: ids) = allRecs id [] es ++ (ids ≫= allOf c).
Proof.
  intros He Hlt Hb. transitivity ((id :: ids) ≫= allOf c).
  - destruct Hb as [->|Hb]; [apply fromCursor_false|apply (fromCursor_later _ _ _ cur.1); [done|]].
    constructor; [done|]. eapply Forall_impl; [|exact Hlt]. simpl. lia.
  - csimpl. unfold allOf at 1. by rewrite He.
Qed.

(** A cursor in a tom cuts its entries in two. *)
Lemma cursor_splits c cur es :
  valid_cursor c cur → c !! cur.1 = Some es →
  ∃ es1 es2, es = es1 ++ es2 ∧ cur = (cur.1, offsetAfter es1).
Proof.
  destruct cur as [ci co]. intros [[= -> ->]|(es1 & es2 & He' & Hco)] He; simpl in *.
  - by exists [], es.
  - rewrite He in He'. injection He' as ->. exists es1, es2. by rewrite Hco.
Qed.

(** Where the walk of a tom that is not skipped starts. *)
Lemma fromCursor_start c b cur id ids es :
  valid_cursor c cur → c !! id = Some es → Forall (Z.lt id) ids → b && (id <? cur.1) = false →
  ∃ es1 es2, es = es1 ++ es2 ∧ (if b && (id =? cur.1) then cur.2 else 0) = offsetAfter es1 ∧
    fromCursor c b cur (id :: ids) = allRecs id es1 es2 ++ (ids ≫= allOf c).
Proof.
  intros Hcur He Hlt Hskip. destruct (decide (b = true ∧ id = cur.1)) as [[-> ->]|Hn].
  - destruct (cursor_splits _ _ _ Hcur He) as (es1 & es2 & -> & Hc). exists es1, es2.
    split; [done|]. revert He Hlt. rewrite Hc. simpl. intros He Hlt. rewrite Z.eqb_refl. split; [done|].
    unfold fromCursor. csimpl. rewrite list.filter_app. f_equal.
    + unfold allOf. rewrite He. simpl. rewrite <-(filter_from cur.1 es1 es2). apply list_filter_iff. naive_solver.
    + apply (fromCursor_later c true (cur.1, offsetAfter es1) cur.1 ids); [done|exact Hlt].
  - exists [], es. split; [done|]. split.
    + destruct b; simpl in *; [|done]. by replace (id =? cur.1) with false by lia.
    + apply fromCursor_whole; [done..|]. destruct b; simpl in *; [right; lia|by left].
Qed.

(** Every entry of a later tom is after the cursor. *)
Lemma later_toms_after c id off ids :
  Forall (Z.lt id) ids → Forall (λ re, ¬ before (pos re.1) (id, off)) (ids ≫= allOf c).
Proof.
  intros Hlt. apply list.Forall_forall. intros re (i & [Hi _]%allOf_range & Hin)%list_elem_of_bind.
  pose proof (proj1 (list.Forall_forall _ _) Hlt i Hin). unfold before, pos. simpl. lia.
Qed.

(** The budget ends in the tom. *)
Lemma chunk_stops c id ids es1 es2 m :
  c !! id = Some (es1 ++ es2) → Forall (Z.lt id) ids → (m <= length es2)%nat →
  chunk_outcome c (id :: ids) m (allRecs id es1 es2 ++ (ids ≫= allOf c))
    (take m (allRecs id es1 es2)) (id, offsetAfter (es1 ++ take m es2)).
Proof.
  intros He Hlt Hm. right. split_and!.
  - right. simpl. rewrite He. exists (es1 ++ take m es2), (drop m es2). by rewrite <-app_assoc, take_drop.
  - set_solver.
  - exists (drop m (allRecs id es1 es2) ++ (ids ≫= allOf c)).
    rewrite app_assoc, take_drop. split; [done|]. split; [rewrite length_take, length_allRecs; lia|].
    assert (Es : allRecs id es1 es2 = allRecs id es1 (take m es2)
      ++ allRecs id (es1 ++ take m es2) (drop m es2)) by (by rewrite <-allRecs_app, take_drop).
    assert (Hl : length (allRecs id es1 (take m es2)) = m) by (rewrite length_allRecs, length_take; lia).
    rewrite !Es, take_app_length', drop_app_length' by done.
    split; [|apply Forall_app; split; [|by apply later_toms_after]];
      apply list.Forall_forall; intros re [H1 H2]%allRecs_range; unfold before, pos; simpl; lia.
Qed.

(** The budget outlasts the tom. *)
Lemma chunk_continues c id ids es1 es2 cur m out cur' :
  Forall (Z.lt id) ids → (length es2 <= m)%nat →
  chunk_outcome c ids (m - length es2) (fromCursor c false cur ids) out cur' →
  chunk_outcome c (id :: ids) m (allRecs id es1 es2 ++ (ids ≫= allOf c)) (allRecs id es1 es2 ++ out) cur'.
Proof.
  intros Hlt Hm [[-> ->]|(Hv & Hin & rest & E' & Hl & H3 & H4)]; rewrite fromCursor_false in *; [by left|right].
  split; [done|]. split; [by right|]. exists rest. rewrite E', app_assoc.
  split; [done|]. rewrite length_app, length_allRecs. split; [lia|]. split; [|done].
  apply Forall_app. split; [|done]. apply list.Forall_forall. intros re [Hr1 _]%allRecs_range.
  pose proof (proj1 (list.Forall_forall _ _) Hlt _ Hin). unfold before, pos. simpl. lia.
Qed.

Lemma prefixToms_spec fuel n k c cur (s : Storage) ids sc b :
  toms_hold (toms s) c → enough_fuel fuel c → (0 < n)%nat →
  valid_cursor c cur → StronglySorted Z.lt ids → Forall (λ id, is_Some (c !! id)) ids → (sc <= k)%nat →
  ∃ out cur', prefixToms fuel n k sc cur b ids s = Ok (Some (prefixes n (filter isLive out), cur')) s ∧
    chunk_outcome c ids (k - sc) (fromCursor c b cur ids) out cur'.
Proof.
  intros Hc Hf Hn Hcur. revert sc b. induction ids as [|id ids IH]; intros sc b Hs Hk Hsc.
  { exists [], (0, 0). split; [done|by left]. }
  apply StronglySorted_inv in Hs as [Hs Hlt]. apply Forall_cons_1 in Hk as [[es He] Hk].
  destruct (toms_lookup s c id es Hc He) as (t & Ht & Hr & Hid). cbn [prefixToms].
  destruct (b && (id <? cur.1)) eqn:Hskip.
  - destruct (IH sc b Hs Hk Hsc) as (out & cur' & H1 & H2). exists out, cur'. split; [exact H1|].
    rewrite fromCursor_skip by done. destruct H2 as [?|(? & ? & ?)]; [by left|right]. split_and!; [done|by right|done].
  - destruct (fromCursor_start c b cur id ids es Hcur He Hlt Hskip) as (es1 & es2 & -> & Ho & E). rewrite E, Ho.
    assert (Hlen : (length es2 < fuel)%nat).
    { specialize (Hf _ _ He). rewrite length_app in Hf. lia. }
    rewrite (bind_ok _ _ _ _ _ (prefixWalk_from fuel id t n k sc s es1 es2 Ht Hr Hid Hn Hlen Hsc)).
    case_decide as Hd.
    + eexists _, _. split; [done|]. by apply chunk_stops.
    + rewrite (take_ge es2) by lia.
      destruct (IH (sc + length es2)%nat false Hs Hk) as (out & cur' & H1 & H2); [lia|].
      rewrite (bind_ok _ _ _ _ _ H1). eexists (_ ++ out), cur'. split.
      { mrun. unfold prefixes. rewrite list.filter_app, fmap_app. rewrite take_ge by (rewrite length_allRecs; lia). done. }
      apply (chunk_continues _ _ _ _ _ cur); [done|lia|]. by rewrite <-Nat.sub_add_distr.
Qed.

(** *** Removing what has expired *)
Definition noEmptyUuid (c : contents) : Prop := Forall (λ re, e_uuid re.2 ≠ emptyUuid) (liveAll c).
Definition removeExpired (nowMs : Z) (batch : list (Rec * bytes)) : M Storage unit :=
  for_each (λ '(record, prefix),
    if sweep_expired nowMs prefix then _ ← storage_remove record; mret tt else mret tt) batch.
Definition expiredEntry (nowMs : Z) (n : nat) (re : Rec * entry) : bool :=
  sweep_expired nowMs (take n (e_data re.2)).

Lemma liveAll_NoDup s c : wf_storage s c → NoDup (liveAll c).
Proof. intros Hwf. eapply NoDup_fmap_1, (wfs_uuids _ _ Hwf). Qed.

Lemma removeExpired_spec nowMs n l s c :
  wf_storage s c → noEmptyUuid c → NoDup l → (∀ re, re ∈ l → re ∈ liveAll c) →
  ∃ s' c', removeExpired nowMs (prefixes n l) s = Ok tt s' ∧ wf_storage s' c' ∧ shape c' = shape c ∧
    ∀ re, re ∈ liveAll c' ↔ re ∈ liveAll c ∧ ¬ (re ∈ l ∧ expiredEntry nowMs n re = true).
Proof.
  revert s c. induction l as [|[r e] l IH]; intros s c Hwf Hne Hnd Hl.
  { exists s, c. split_and!; try done. intros re. split; [intros H; split; [done|by intros [?%not_elem_of_nil _]]|by intros []]. }
  apply list.NoDup_cons in Hnd as [Hr Hnd]. unfold removeExpired, prefixes in *. csimpl. cbn [for_each].
  change (sweep_expired nowMs (take n (e_data e))) with (expiredEntry nowMs n (r, e)).
  destruct (expiredEntry nowMs n (r, e)) eqn:Hx.
  - pose proof (Hl _ (list_elem_of_here _ _)) as Hin.
    destruct (liveAll_inv _ _ _ Hin) as (id & es1 & es2 & Hc & Hre & Hd).
    destruct (remove_spec s c r e r Hwf Hin) as (s1 & c1 & H1 & H2 & H3 & _ & H5); try done.
    { by apply (proj1 (list.Forall_forall _ _) Hne (r, e)). }
    { subst r. simpl. by rewrite Hd. }
    { right. by subst r. }
    pose proof (liveAll_NoDup _ _ Hwf) as Hn. rewrite H3 in Hn. apply list.NoDup_cons in Hn as [Hn _].
    assert (Hne1 : noEmptyUuid c1). { unfold noEmptyUuid in Hne. rewrite H3 in Hne. by apply Forall_cons_1 in Hne as []. }
    destruct (IH s1 c1 H2 Hne1 Hnd) as (s' & c' & I1 & I2 & I3 & I4).
    { intros re Hi. assert (re ∈ liveAll c) as Hi' by (apply Hl; by right).
      rewrite H3 in Hi'. apply elem_of_cons in Hi' as [->|]; [done|done]. }
    assert (Hrm : (_ ← storage_remove r; mret tt) s = Ok tt s1) by (by rewrite (bind_ok _ _ _ _ _ H1)).
    exists s', c'. rewrite (bind_ok _ _ _ _ _ Hrm).
    split_and!; [exact I1|done|congruence|]. intros re. rewrite I4, H3, !elem_of_cons.
    split.
    + intros [Ha Hb]. split; [by right|]. intros [[->|Hi] Hx']; [done|by apply Hb].
    + intros [[->|Ha] Hb]; [by destruct Hb; auto|]. split; [done|]. intros [Hi Hx']. apply Hb. auto.
  - destruct (IH s c Hwf Hne Hnd) as (s' & c' & I1 & I2 & I3 & I4); [intros re Hi; apply Hl; by right|].
    exists s', c'. rewrite bind_ret. split_and!; [exact I1|done..|]. intros re. rewrite I4, elem_of_cons.
    split; intros [Ha Hb]; (split; [done|]); intros [Hi Hx']; apply Hb; [|by auto].
    destruct Hi as [->|Hi]; [congruence|done].
Qed.

(** *** The order of the toms *)
Definition idsOf {A} (m : gmap Z A) : list Z := merge_sort Z.le (map_to_list m).*1.

Lemma sorted_lt l : StronglySorted Z.le l → NoDup l → StronglySorted Z.lt l.
Proof.
  induction 1 as [|x l Hs IH Hx]; intros Hn; [constructor|]. apply list.NoDup_cons in Hn as [Hnx Hn].
  constructor; [by apply IH|]. apply list.Forall_forall. intros y Hy.
  pose proof (proj1 (list.Forall_forall _ _) Hx y Hy). destruct (decide (x = y)) as [->|]; [done|lia].
Qed.

Lemma idsOf_sorted {A} (m : gmap Z A) :
  StronglySorted Z.lt (idsOf m) ∧ (idsOf m ≡ₚ (map_to_list m).*1).
Proof.
  unfold idsOf. pose proof (merge_sort_Permutation Z.le (map_to_list m).*1) as Hp. split; [|done].
  apply sorted_lt; [apply (StronglySorted_merge_sort Z.le)|rewrite Hp; apply NoDup_fst_map_to_list].
Qed.

Lemma idsOf_keys {A B} (m1 : gmap Z A) (m2 : gmap Z B) :
  (map_to_list m1).*1 ≡ₚ (map_to_list m2).*1 → idsOf m1 = idsOf m2.
Proof.
  intros H. apply (StronglySorted_unique Z.le); [apply (StronglySorted_merge_sort Z.le)..|].
  by rewrite (proj2 (idsOf_sorted m1)), (proj2 (idsOf_sorted m2)).
Qed.

Lemma sortedIds_spec (s : Storage) c : toms_hold (toms s) c → sortedIds s = idsOf c.
Proof. intros H. apply (idsOf_keys (toms s) c), hold_keys, H. Qed.

Definition flat (c : contents) : list (Rec * entry) := idsOf c ≫= allOf c.
Definition positions (c : contents) : list (Z * Z) := (pos ∘ fst) <$> flat c.

Lemma flat_live c : filter isLive (flat c) ≡ₚ liveAll c.
Proof.
  unfold flat. rewrite (proj2 (idsOf_sorted c)). unfold liveAll.
  assert (H : ∀ p, p ∈ map_to_list c → c !! p.1 = Some p.2) by (intros [i es]; apply elem_of_map_to_list).
  revert H. generalize (map_to_list c). intros l H. induction l as [|p l IH]; [done|]. csimpl.
  rewrite list.filter_app, IH by (intros q Hq; apply H; by right).
  rewrite liveRecs_allRecs. unfold allOf. by rewrite (H p (list_elem_of_here _ _)).
Qed.

Lemma allPos_kill id b b' es es' :
  length (encAll b) = length (encAll b') → kill <$> es = kill <$> es' →
  (pos ∘ fst) <$> allRecs id b es = (pos ∘ fst) <$> allRecs id b' es'.
Proof.
  revert b b' es'. induction es as [|e es IH]; intros b b' [|e' es'] Hb He; csimpl in He; try done.
  injection He as Hu Hd Hes. cbn [allRecs]. rewrite !fmap_cons. f_equal.
  - unfold pos. simpl. unfold offsetAfter. by rewrite Hb.
  - apply IH; [|done]. rewrite !encAll_app, !encAll_cons, !length_app, Hb. do 2 f_equal.
    rewrite <-(length_encEntry_kill e), <-(length_encEntry_kill e'). unfold kill. by rewrite Hu, Hd.
Qed.

Lemma kill_length es es' : kill <$> es = kill <$> es' → length (encAll es) = length (encAll es').
Proof.
  revert es'. induction es as [|e es IH]; intros [|e' es'] H; csimpl in H; try done.
  injection H as Hu Hd H. rewrite !encAll_cons, !length_app, (IH es' H). f_equal.
  rewrite <-(length_encEntry_kill e), <-(length_encEntry_kill e'). unfold kill. by rewrite Hu, Hd.
Qed.

Lemma shape_lookup c c' id : shape c' = shape c → 
  (λ es : list entry, kill <$> es) <$> c' !! id = (λ es : list entry, kill <$> es) <$> c !! id.
Proof. intros H. apply (f_equal (.!! id)) in H. unfold shape in H. by rewrite !lookup_fmap in H. Qed.

Lemma shape_positions c c' : shape c' = shape c → positions c' = positions c.
Proof.
  intros H. unfold positions, flat.
  assert (Hi : idsOf c' = idsOf c).
  { apply idsOf_keys, NoDup_Permutation; [apply NoDup_fst_map_to_list..|]. intros id. rewrite !elem_of_keys.
    pose proof (shape_lookup c c' id H) as Hs. destruct (c !! id), (c' !! id); naive_solver. }
  rewrite Hi. generalize (idsOf c). intros l. induction l as [|id l IH]; [done|]. csimpl.
  rewrite !fmap_app, IH. f_equal. unfold allOf. pose proof (shape_lookup c c' id H) as Hs.
  destruct (c !! id), (c' !! id); simplify_eq/=; [by apply allPos_kill|done].
Qed.

Lemma shape_cursor c c' cur : shape c' = shape c → valid_cursor c cur → valid_cursor c' cur.
Proof.
  intros H [->|(es1 & es2 & Hc & Ho)]; [by left|right]. pose proof (shape_lookup c c' cur.1 H) as Hs.
  rewrite Hc in Hs. destruct (c' !! cur.1) as [es|]; simplify_eq/=. rewrite fmap_app in Hs.
  apply fmap_app_inv in Hs as (es1' & es2' & H1 & H2 & ->). exists es1', es2'. split; [done|].
  rewrite Ho. unfold offsetAfter. by rewrite (kill_length es1 es1').
Qed.

(** *** A chunk and a pass *)
Notation fromHere c cur := (fromCursor c true cur (idsOf c)).
Definition pending (c : contents) (cur : SweepCursor) : nat :=
  length (filter (λ p, ¬ before p cur) (positions c)).

Lemma fromHere_elem c cur re : re ∈ fromHere c cur ↔ re ∈ flat c ∧ ¬ before (pos re.1) cur.
Proof. unfold fromCursor, flat. rewrite list_elem_of_filter. naive_solver. Qed.

Lemma pending_fromHere c cur : pending c cur = length (fromHere c cur).
Proof.
  unfold pending, positions, fromCursor. fold (flat c). rewrite filter_fmap, length_fmap. f_equal.
  apply list_filter_iff. intros re. simpl. naive_solver.
Qed.

Lemma sweepChunk_spec budget nowMs s c cur :
  wf_storage s c → noEmptyUuid c → valid_cursor c cur →
  ∃ cur' s' c' out, sweepChunk budget nowMs cur s = Ok cur' s' ∧ wf_storage s' c' ∧ shape c' = shape c ∧
    chunk_outcome c (idsOf c) budget (fromHere c cur) out cur' ∧
    ∀ re, re ∈ liveAll c' ↔ re ∈ liveAll c ∧ ¬ (re ∈ out ∧ expiredEntry nowMs kPrefixLen re = true).
Proof.
  intros Hwf Hne Hv. pose proof (wfs_toms _ _ Hwf) as Ht.
  assert (Hfuel : enough_fuel (S (fuelOf s)) c).
  { intros id es He. pose proof (fuelOf_enough s c Ht id es He). lia. }
  assert (Hids : Forall (λ id, is_Some (c !! id)) (idsOf c)).
  { rewrite (proj2 (idsOf_sorted c)). apply list.Forall_forall. intros id. by rewrite elem_of_keys. }
  destruct (prefixToms_spec (S (fuelOf s)) kPrefixLen budget c cur s (idsOf c) 0 true Ht Hfuel ltac:(unfold kPrefixLen; lia)
    Hv (proj1 (idsOf_sorted c)) Hids ltac:(lia)) as (out & cur' & H1 & H2).
  rewrite Nat.sub_0_r in H2.
  assert (Hsub : ∃ rest, fromHere c cur = out ++ rest).
  { destruct H2 as [[_ ->]|(_ & _ & rest & -> & _)]; [exists []; by rewrite app_nil_r|by exists rest]. }
  destruct Hsub as [rest Hsub].
  assert (Hnd : NoDup (filter isLive out)).
  { assert (Hn : NoDup (filter isLive (fromHere c cur))).
    { unfold fromCursor. fold (flat c). rewrite filter_comm. apply list.NoDup_filter.
      rewrite flat_live. by eapply liveAll_NoDup. }
    rewrite Hsub, list.filter_app in Hn. by apply list.NoDup_app in Hn as []. }
  assert (Hmem : ∀ re, re ∈ filter isLive out ↔ re ∈ liveAll c ∧ re ∈ out).
  { intros re. rewrite <-(flat_live c), !list_elem_of_filter. split; [|tauto]. intros [? Hin]. split_and!; try done.
    apply (fromHere_elem c cur). rewrite Hsub. apply elem_of_app. by left. }
  destruct (removeExpired_spec nowMs kPrefixLen (filter isLive out) s c Hwf Hne Hnd) as (s' & c' & R1 & R2 & R3 & R4).
  { intros re Hre. by apply Hmem in Hre as []. }
  exists cur', s', c', out. split_and!; try done.
  - unfold sweepChunk. rewrite (bind_ok get _ s s s eq_refl).
    assert (Hsp : scanPrefix (S (fuelOf s)) kPrefixLen budget cur s
      = Ok (Some (prefixes kPrefixLen (filter isLive out), cur')) s).
    { unfold scanPrefix, gets. mrun. by rewrite (sortedIds_spec s c Ht). }
    rewrite (bind_ok _ _ _ _ _ Hsp). unfold require. rewrite bind_ret.
    by rewrite (bind_ok _ _ _ _ _ R1).
  - intros re. rewrite R4, Hmem. tauto.
Qed.

(** The sweeps of an idle worker from [cursor] to the end of the storage, at most
    [rounds] of them. *)
Fixpoint sweepPass (rounds budget : nat) (nowMs : Z) (cursor : SweepCursor) : M Storage bool :=
  match rounds with
  | O => mret false
  | S rounds =>
      cursor' ← sweepChunk budget nowMs cursor;
      if decide (cursor' = (0, 0)) then mret true else sweepPass rounds budget nowMs cursor'
  end.

Lemma cursor_moves c cur cur' l rest :
  valid_ids c → fromHere c cur = l ++ rest → l ≠ [] →
  Forall (λ re, before (pos re.1) cur') l → cur' ≠ (0, 0) ∧ ∀ p, before p cur → before p cur'.
Proof.
  intros Hv Hl Hne Hb. destruct l as [|x l]; [done|].
  assert (Hx : x ∈ fromHere c cur) by (rewrite Hl; by left).
  apply fromHere_elem in Hx as [Hx Hxc]. apply Forall_cons_1 in Hb as [Hb _].
  apply list_elem_of_bind in Hx as (id & Hr & Hi). apply allOf_range in Hr as [Hr1 Hr2].
  rewrite (proj2 (idsOf_sorted c)) in Hi. apply elem_of_keys, Hv in Hi.
  unfold before, pos in *. cbn [fst snd] in *. split; [intros ->; simpl in Hb; lia|]. intros [p1 p2]. simpl. lia.
Qed.

(** The same with a clock that moves: one reading per chunk. Returns the readings it
    did not use, [None] when there were not enough. *)
Fixpoint sweepsAt (budget : nat) (readings : list Z) (cursor : SweepCursor) : M Storage (option (list Z)) :=
  match readings with
  | [] => mret None
  | nowMs :: readings =>
      cursor' ← sweepChunk budget nowMs cursor;
      if decide (cursor' = (0, 0)) then mret (Some readings) else sweepsAt budget readings cursor'
  end.

Lemma sweepPass_sweepsAt rounds budget nowMs : ∀ cur s rest s',
  sweepsAt budget (replicate rounds nowMs) cur s = Ok (Some rest) s' → sweepPass rounds budget nowMs cur s = Ok true s'.
Proof.
  induction rounds as [|rounds IH]; intros cur s rest s' H; [done|]. cbn [replicate sweepsAt sweepPass] in *.
  unfold mbind, M_bind in *. destruct (sweepChunk budget nowMs cur s) as [cur' s1|e s1|]; [|done..].
  case_decide; [by injection H as _ <-|]. by eapply IH.
Qed.

(** What a sweep from [cur] makes of each record: those before the cursor stay, and each
    of the others is judged at one of the readings. *)
Lemma sweepsAt_spec budget readings s c cur :
  wf_storage s c → noEmptyUuid c → valid_cursor c cur → (0 < budget)%nat → (pending c cur < length readings)%nat →
  ∃ used rest s' c', readings = used ++ rest ∧ sweepsAt budget readings cur s = Ok (Some rest) s' ∧ wf_storage s' c' ∧
    (∀ re, re ∈ liveAll c' → re ∈ liveAll c) ∧
    ∀ re, re ∈ liveAll c → (before (pos re.1) cur ∧ re ∈ liveAll c') ∨
      (¬ before (pos re.1) cur ∧ ∃ nowMs, nowMs ∈ used ∧ (re ∈ liveAll c' ↔ expiredEntry nowMs kPrefixLen re = false)).
Proof.
  revert s c cur. induction readings as [|nowMs readings IH]; intros s c cur Hwf Hne Hv Hb Hp; [simpl in Hp; lia|].
  destruct (sweepChunk_spec budget nowMs s c cur Hwf Hne Hv) as (cur' & s1 & c1 & out & H1 & H2 & H3 & H4 & H5).
  assert (Hlive : ∀ re, re ∈ liveAll c → re ∈ flat c).
  { intros re. rewrite <-(flat_live c), list_elem_of_filter. tauto. }
  assert (Hjudge : ∀ re, re ∈ liveAll c → re ∈ out →
    (re ∈ liveAll c1 ↔ expiredEntry nowMs kPrefixLen re = false)).
  { intros re Ha Ho. rewrite H5, <-not_true_iff_false. tauto. }
  cbn [sweepsAt]. rewrite (bind_ok _ _ _ _ _ H1). destruct H4 as [[-> ->]|(Hv' & _ & rest & E & Hl & F1 & F2)].
  - exists [nowMs], readings, s1, c1. rewrite decide_True by done. split_and!; [done..|by intros re [? _]%H5|].
    intros re Ha. destruct (decide (before (pos re.1) cur)) as [Hbf|Hbf]; [left|right].
    + split; [done|]. apply H5. split; [done|]. rewrite fromHere_elem. tauto.
    + split; [done|]. exists nowMs. split; [by left|]. apply Hjudge; [done|]. apply fromHere_elem. auto.
  - destruct (cursor_moves c cur cur' out rest (wfs_ids _ _ Hwf) E) as [Hnz Hmono]; [by destruct out; simpl in *; [lia|]|done|].
    rewrite decide_False by done.
    assert (Hne1 : noEmptyUuid c1).
    { apply list.Forall_forall. intros re [Hre _]%H5. by apply (proj1 (list.Forall_forall _ _) Hne). }
    assert (Hpend : pending c1 cur' = length rest).
    { unfold pending. rewrite (shape_positions c c1 H3). fold (pending c cur'). rewrite pending_fromHere.
      assert (Hf : fromHere c cur' = filter (λ re, ¬ before (pos re.1) cur') (fromHere c cur)).
      { unfold fromCursor. rewrite list_filter_filter. apply list_filter_iff. intros re. naive_solver. }
      rewrite Hf, E, list.filter_app, filter_none, filter_every; [done..|].
      eapply Forall_impl; [|exact F1]. simpl. tauto. }
    rewrite pending_fromHere, E, length_app in Hp. simpl in Hp.
    destruct (IH s1 c1 cur' H2 Hne1) as (used & left_ & s' & c' & I0 & I1 & I2 & I3 & I4);
      [by eapply shape_cursor|done|lia|].
    exists (nowMs :: used), left_, s', c'. split; [by rewrite I0|]. split; [done|]. split; [done|].
    split; [by intros re [? _]%I3%H5|]. intros re Ha.
    pose proof (fromHere_elem c cur re) as Hf. rewrite E, elem_of_app in Hf.
    destruct (decide (before (pos re.1) cur)) as [Hbf|Hbf]; [left|right].
    + split; [done|]. assert (re ∈ liveAll c1) as Ha1 by (apply H5; split; [done|tauto]).
      destruct (I4 re Ha1) as [[_ ?]|[Hn _]]; [done|]. destruct Hn. by apply Hmono.
    + split; [done|]. destruct (proj2 Hf (conj (Hlive re Ha) Hbf)) as [Ho|Hr].
      * exists nowMs. split; [by left|]. rewrite <-(Hjudge re Ha Ho). split; [apply I3|]. intros Ha1.
        destruct (I4 re Ha1) as [[_ ?]|[Hn _]]; [done|]. destruct Hn. by apply (proj1 (list.Forall_forall _ _) F1).
      * assert (Hn : ¬ before (pos re.1) cur') by by apply (proj1 (list.Forall_forall _ _) F2).
        assert (re ∈ liveAll c1) as Ha1.
        { apply H5. split; [done|]. intros [Ho _]. by apply Hn, (proj1 (list.Forall_forall _ _) F1). }
        destruct (I4 re Ha1) as [[? _]|[_ (ms & Hms & Hj)]]; [done|]. exists ms. split; [by right|done].
Qed.

(** From the start of the storage every record is judged. *)
Lemma sweepsAt_all budget readings s c :
  wf_storage s c → noEmptyUuid c → (0 < budget)%nat → (length (positions c) < length readings)%nat →
  ∃ used rest s' c', readings = used ++ rest ∧ sweepsAt budget readings (0, 0) s = Ok (Some rest) s' ∧
    wf_storage s' c' ∧ (∀ re, re ∈ liveAll c' → re ∈ liveAll c) ∧
    ∀ r e, (r, e) ∈ liveAll c →
      ∃ nowMs, nowMs ∈ used ∧ ((r, e) ∈ liveAll c' ↔ sweep_expired nowMs (take kPrefixLen (e_data e)) = false).
Proof.
  intros Hwf Hne Hb Hr.
  destruct (sweepsAt_spec budget readings s c (0, 0) Hwf Hne (or_introl eq_refl) Hb)
    as (used & rest & s' & c' & H0 & H1 & H2 & H3 & H4).
  { unfold pending. pose proof (list.length_filter (λ p, ¬ before p (0, 0)) (positions c)). lia. }
  exists used, rest, s', c'. split_and!; [done..|]. intros r e Ha.
  destruct (H4 (r, e) Ha) as [[Hbf _]|[_ Hj]]; [|exact Hj]. exfalso.
  destruct (liveAll_inv _ _ _ Ha) as (id & es1 & es2 & Hc & -> & _).
  pose proof (wfs_ids _ _ Hwf id (ex_intro _ _ Hc)). revert Hbf.
  unfold before, pos, recOf, offsetAfter. cbn [fst snd rec_tomId rec_offset]. lia.
Qed.

Lemma sweepPass_all budget nowMs s c :
  wf_storage s c → noEmptyUuid c → (0 < budget)%nat →
  ∃ s' c', sweepPass (S (length (positions c))) budget nowMs (0, 0) s = Ok true s' ∧ wf_storage s' c' ∧
    ∀ r e, (r, e) ∈ liveAll c' ↔
      (r, e) ∈ liveAll c ∧ sweep_expired nowMs (take kPrefixLen (e_data e)) = false.
Proof.
  intros Hwf Hne Hb.
  destruct (sweepsAt_all budget (replicate (S (length (positions c))) nowMs) s c Hwf Hne Hb)
    as (used & rest & s' & c' & H0 & H1 & H2 & H3 & H4); [rewrite length_replicate; lia|].
  exists s', c'. split; [by eapply sweepPass_sweepsAt|]. split; [done|]. intros r e.
  assert (Hu : ∀ ms, ms ∈ used → ms = nowMs).
  { intros ms Hms. assert (ms ∈ replicate (S (length (positions c))) nowMs) as [? _]%elem_of_replicate; [|done].
    rewrite H0. apply elem_of_app. by left. }
  split.
  - intros Hre. pose proof (H3 _ Hre) as Ha. destruct (H4 r e Ha) as (ms & ->%Hu & Hj). tauto.
  - intros [Ha Hx]. destruct (H4 r e Ha) as (ms & ->%Hu & Hj). tauto.
Qed.

(** C19. The sweep removes what has expired and nothing else: from the start of any
    well-formed storage (no live record with the null uuid), with any positive budget
    per chunk, a pass of the sweep ends after at most one chunk more than there are
    entries, the storage is well formed again, and its live records are exactly
    those that were live and whose stored expiration has not passed, with the same
    location, uuid and data. *)
Theorem sweep_removes_expired budget nowMs s c :
  wf_storage s c → noEmptyUuid c → (0 < budget)%nat →
  ∃ s' c', sweepPass (S (length (positions c))) budget nowMs (0, 0) s = Ok true s' ∧ wf_storage s' c' ∧
    ∀ r e, (r, e) ∈ liveAll c' ↔
      (r, e) ∈ liveAll c ∧ sweep_expired nowMs (take kPrefixLen (e_data e)) = false.
Proof. apply sweepPass_all. Qed.

(** A record of 43 bytes whose expiration is 1. *)
Definition expiredData : bytes := [Byte.x01; Byte.x02] ++ replicate 33 b0 ++ encLE 8 1.

Lemma sweep_removes_expired_witness :
  ∃ r s rounds s' c', storage_append (replicate 16 Byte.x01) expiredData (openStorage ∅) = Ok r s ∧
    sweepPass rounds kSweepBudget 5 (0, 0) s = Ok true s' ∧ wf_storage s' c' ∧ liveAll c' = [].
Proof.
  destruct (append_spec (openStorage ∅) ∅ (replicate 16 Byte.x01) expiredData 0 empty_wf) as (r & s & c & H1 & H2 & H3 & _);
    [by intros id es Hi|by split|by apply not_elem_of_nil|done|by vm_compute|].
  destruct (sweep_removes_expired kSweepBudget 5 s c H2) as (s' & c' & H4 & H5 & H6).
  { unfold noEmptyUuid. rewrite H3. by repeat constructor. }
  { unfold kSweepBudget. lia. }
  exists r, s, (S (length (positions c))), s', c'. split_and!; [done..|].
  destruct (liveAll c') as [|[r1 e1] l]; [done|]. exfalso.
  destruct (proj1 (H6 r1 e1) (list_elem_of_here _ _)) as [Hin Hx]. rewrite H3 in Hin.
  apply list_elem_of_singleton in Hin as [= -> ->]. by vm_compute in Hx.
Defined.

(** *** The worker's loop *)

(** What the worker thread keeps between two iterations of its loop. *)
Record loop_state : Type := mkLoop {
  wk_storage : Storage;
  wk_sweepIntervalUs : Z;
  wk_lastSweepUs : Z;
  wk_sweepCursor : SweepCursor
}.
Definition kSweepIntervalUs : Z := 1000000.
(** run() up to its loop, at clock reading [now]. *)
Definition enterLoop (s : Storage) (interval now : Z) : loop_state := mkLoop s interval now (0, 0).

(** ConcurrentLinearStorage::setSweepIntervalMicros *)
Definition setSweepIntervalMicros (us : Z) (w : loop_state) : loop_state :=
  if 0 <? us then mkLoop (wk_storage w) us (wk_lastSweepUs w) (wk_sweepCursor w) else w.

Section Loop.
Context (order : Storage → list Z).

(** The sweep inside run(), with its catch-all: the cursor has moved once scanPrefix
    returned, whatever the removals do. *)
Definition sweepStep (nowMs : Z) : M loop_state unit := λ w,
  let s := wk_storage w in
  match scanPrefix (S (fuelOf s)) kPrefixLen kSweepBudget (wk_sweepCursor w) s with
  | Ok (Some (batch, cursor)) s1 =>
      match for_each (λ '(record, prefix),
              if sweep_expired nowMs prefix then _ ← storage_remove record; mret tt else mret tt) batch s1 with
      | Ok _ s2 | Exn _ s2 => Ok tt (mkLoop s2 (wk_sweepIntervalUs w) (wk_lastSweepUs w) cursor)
      | UB => UB
      end
  | Ok None _ => UB
  | Exn _ s1 => Ok tt (mkLoop s1 (wk_sweepIntervalUs w) (wk_lastSweepUs w) (wk_sweepCursor w))
  | UB => UB
  end.

(** One iteration: the request that wait_dequeue_timed returned, if any, and the sweep
    when its deadline has passed; [nowUs] and [nowMs] are the two clock readings. *)
Definition iteration (req : option request) (nowUs nowMs : Z) : M loop_state (option reply) := λ w,
  match (match req with Some r => rep ← dispatch order r; mret (Some rep) | None => mret None end) (wk_storage w) with
  | Ok rep s =>
      let w1 := mkLoop s (wk_sweepIntervalUs w) (wk_lastSweepUs w) (wk_sweepCursor w) in
      if wk_sweepIntervalUs w <=? nowUs - wk_lastSweepUs w then
        match sweepStep nowMs w1 with
        | Ok _ w2 => Ok rep (mkLoop (wk_storage w2) (wk_sweepIntervalUs w2) nowUs (wk_sweepCursor w2))
        | Exn e w2 => Exn e w2
        | UB => UB
        end
      else Ok rep w1
  | Exn e s => Exn e (mkLoop s (wk_sweepIntervalUs w) (wk_lastSweepUs w) (wk_sweepCursor w))
  | UB => UB
  end.
Fixpoint iterations (l : list (option request * Z * Z)) : M loop_state (list (option reply)) :=
  match l with
  | [] => mret []
  | (req, us, ms) :: l => rep ← iteration req us ms; reps ← iterations l; mret (rep :: reps)
  end.

(** An idle iteration whose deadline has passed is a chunk of the sweep. *)
Lemma idle_iteration nowUs nowMs w cursor s :
  wk_sweepIntervalUs w <= nowUs - wk_lastSweepUs w →
  sweepChunk kSweepBudget nowMs (wk_sweepCursor w) (wk_storage w) = Ok cursor s →
  iteration None nowUs nowMs w = Ok None (mkLoop s (wk_sweepIntervalUs w) nowUs cursor).
Proof.
  intros Hdue Hchunk. unfold iteration. cbn [mret M_ret]. rewrite (proj2 (Z.leb_le _ _) Hdue).
  unfold sweepStep. cbn [wk_storage wk_sweepCursor wk_sweepIntervalUs]. unfold sweepChunk in Hchunk.
  rewrite (bind_ok get _ _ _ _ eq_refl) in Hchunk. unfold mbind at 1, M_bind at 1 in Hchunk.
  destruct (scanPrefix _ _ _ _ _) as [[[batch cur]|] s1|e s1|]; [|done..]. cbn [require] in Hchunk. rewrite bind_ret in Hchunk.
  unfold mbind at 1, M_bind at 1 in Hchunk. destruct (for_each _ batch s1) as [u s2|e s2|]; [injection Hchunk as <- <-; done|done|done].
Qed.

(** Idle iterations, each a sweep interval after the one before. Each has two readings
    of the one clock, in microseconds: the deadline check's and, later, the sweep's. *)
Fixpoint on_time (interval last : Z) (times : list (Z * Z)) : Prop :=
  match times with [] => True | t :: times => interval <= t.1 - last ∧ on_time interval t.1 times end.
Definition sweepMs (t : Z * Z) : Z := Z.quot t.2 1000.
Definition idle (times : list (Z * Z)) : list (option request * Z * Z) := (λ t, (None, t.1, sweepMs t)) <$> times.

Lemma idle_pass times : ∀ w s rest,
  on_time (wk_sweepIntervalUs w) (wk_lastSweepUs w) times →
  sweepsAt kSweepBudget (sweepMs <$> times) (wk_sweepCursor w) (wk_storage w) = Ok (Some rest) s →
  ∃ times1 times2 w', times = times1 ++ times2 ∧ rest = sweepMs <$> times2 ∧
    iterations (idle times1) w = Ok (replicate (length times1) None) w' ∧
    wk_storage w' = s ∧ wk_sweepCursor w' = (0, 0).
Proof.
  induction times as [|t times IH]; intros w s rest Ht Hs; [done|]. destruct Ht as [Hdue Ht].
  rewrite fmap_cons in Hs. cbn [sweepsAt] in Hs. unfold mbind, M_bind in Hs.
  destruct (sweepChunk kSweepBudget (sweepMs t) (wk_sweepCursor w) (wk_storage w)) as [cur s1|e s1|] eqn:Hc; [|done..].
  pose proof (idle_iteration t.1 (sweepMs t) w cur s1 Hdue Hc) as Hi. case_decide as Hcur.
  - injection Hs as <- <-. subst cur. eexists [t], times, _. split; [done|]. split; [done|].
    cbn [idle fmap list_fmap iterations]. rewrite (bind_ok _ _ _ _ _ Hi). by split.
  - set (w1 := mkLoop s1 (wk_sweepIntervalUs w) t.1 cur) in *.
    destruct (IH w1 s rest Ht Hs) as (t1 & t2 & w' & -> & E0 & E1 & E2 & E3).
    exists (t :: t1), t2, w'. split; [done|]. split; [done|]. cbn [idle fmap list_fmap iterations].
    rewrite (bind_ok _ _ _ _ _ Hi). fold (idle t1). by rewrite (bind_ok _ _ _ _ _ E1).
Qed.

(** C20. An idle worker gets rid of what has expired, with a clock that moves on while
    it sweeps: started on any well-formed storage (no live record with the null uuid),
    after at most one due iteration of its loop more than there are entries, each a
    sweep interval or more after the one before, its storage is well formed and the
    next sweep starts over; nothing has become live, and every record that was live
    has been judged once, at the clock reading of one of those iterations: it is gone
    if its stored expiration had passed then, and else still live. So what had expired
    at a reading not later than theirs is gone, and what has not expired at one not
    earlier is there. *)
Theorem idle_worker_expires interval start times s c :
  wf_storage s c → noEmptyUuid c → on_time interval start times → length times = S (length (positions c)) →
  ∃ times1 times2 w' c', times = times1 ++ times2 ∧
    iterations (idle times1) (enterLoop s interval start) = Ok (replicate (length times1) None) w' ∧
    wf_storage (wk_storage w') c' ∧ wk_sweepCursor w' = (0, 0) ∧
    (∀ re, re ∈ liveAll c' → re ∈ liveAll c) ∧
    ∀ r e, (r, e) ∈ liveAll c →
      let expiredAt us := sweep_expired (Z.quot us 1000) (take kPrefixLen (e_data e)) in
      (∃ t, t ∈ times1 ∧ ((r, e) ∈ liveAll c' ↔ expiredAt t.2 = false)) ∧
      (∀ us, Forall (λ t, us <= t.2) times1 → expiredAt us = true → (r, e) ∉ liveAll c') ∧
      (∀ us, Forall (λ t, t.2 <= us) times1 → expiredAt us = false → (r, e) ∈ liveAll c').
Proof.
  intros Hwf Hne Ht Hlen.
  destruct (sweepsAt_all kSweepBudget (sweepMs <$> times) s c Hwf Hne)
    as (used & rest & s' & c' & H0 & H1 & H2 & H3 & H4); [unfold kSweepBudget; lia|rewrite length_fmap; lia|].
  destruct (idle_pass times (enterLoop s interval start) s' rest Ht H1) as (t1 & t2 & w' & E1 & -> & E2 & E3 & E4).
  exists t1, t2, w', c'. split; [exact E1|]. rewrite E3. split_and!; [done..|]. intros r e Ha expiredAt.
  rewrite E1, fmap_app in H0. apply app_inv_tail in H0 as <-.
  destruct (H4 r e Ha) as (ms & (t & -> & Hin)%list_elem_of_fmap & Hj). fold (expiredAt t.2) in Hj.
  pose proof (sweep_expired_mono (take kPrefixLen (e_data e))) as Hm. split; [by exists t|].
  split; intros us Hus Hx; apply (proj1 (list.Forall_forall _ _) Hus) in Hin; cbn beta in Hin;
    apply (Z.quot_le_mono _ _ 1000) in Hin; try done.
  - rewrite Hj. unfold expiredAt in *. unfold sweepMs. by rewrite (Hm _ _ Hin Hx).
  - apply Hj. unfold expiredAt, sweepMs in *. apply not_true_iff_false. intros Ht2. by rewrite (Hm _ _ Hin Ht2) in Hx.
Qed.

(** What the worker does with requests never delays the sweep: the time of the last
    sweep depends on the clock alone. *)
Definition lastSweep (interval last : Z) (times : list Z) : Z :=
  foldl (λ last now, if interval <=? now - last then now else last) last times.
Lemma sweep_cadence l : ∀ w reps w', iterations l w = Ok reps w' →
  wk_lastSweepUs w' = lastSweep (wk_sweepIntervalUs w) (wk_lastSweepUs w) ((λ i, i.1.2) <$> l) ∧
  wk_sweepIntervalUs w' = wk_sweepIntervalUs w.
Proof.
  induction l as [|[[req us] ms] l IH]; intros w reps w' H; [cbn in H; by injection H as _ <-|].
  cbn [iterations] in H. unfold mbind, M_bind in H.
  destruct (iteration req us ms w) as [rep w1|e w1|] eqn:Hi; [|done..].
  destruct (iterations l w1) as [reps1 w2|e w2|] eqn:Hl; [|done..]. injection H as _ <-.
  destruct (IH w1 reps1 w2 Hl) as [-> ->]. unfold iteration in Hi.
  assert (Hs : ∀ n v v', sweepStep n v = Ok tt v' → wk_sweepIntervalUs v' = wk_sweepIntervalUs v).
  { intros n v v' Hv. unfold sweepStep in Hv. repeat case_match; by simplify_eq/=. }
  destruct (_ (wk_storage w)) as [rep' s|e s|] in Hi; [|done..].
  cbn [fmap list_fmap lastSweep foldl fst snd]. unfold lastSweep. cbn [foldl].
  destruct (_ <=? _) eqn:Hdue in Hi.
  - destruct (sweepStep ms _) as [[] w3|e w3|] eqn:Hsw in Hi; [|done..]. apply Hs in Hsw. injection Hi as _ <-. simpl in *.
    by rewrite Hdue, Hsw.
  - injection Hi as _ <-. simpl. by rewrite Hdue.
Qed.
End Loop.

Fixpoint evenly (n : nat) (last interval : Z) : list (Z * Z) :=
  match n with O => [] | S n => (last + interval, last + interval + 10) :: evenly n (last + interval) interval end.
Lemma evenly_on_time n : ∀ last interval, on_time interval last (evenly n last interval) ∧ length (evenly n last interval) = n.
Proof. induction n as [|n IH]; intros last interval; simpl; [done|]. destruct (IH (last + interval) interval). split; [split; [simpl; lia|done]|by f_equal]. Qed.
Lemma evenly_late n : ∀ last interval, 0 <= interval → Forall (λ t, last + interval <= t.2) (evenly n last interval).
Proof.
  induction n as [|n IH]; intros last interval Hi; simpl; constructor; [simpl; lia|].
  eapply Forall_impl; [|by apply IH]. simpl. lia.
Qed.

Lemma idle_worker_expires_witness :
  ∃ r s times w' c', storage_append (replicate 16 Byte.x01) expiredData (openStorage ∅) = Ok r s ∧
    iterations keyOrder (idle times) (enterLoop s kSweepIntervalUs 0) = Ok (replicate (length times) None) w' ∧
    wf_storage (wk_storage w') c' ∧ liveAll c' = [].
Proof.
  destruct (append_spec (openStorage ∅) ∅ (replicate 16 Byte.x01) expiredData 0 empty_wf) as (r & s & c & H1 & H2 & H3 & _);
    [by intros id es Hi|by split|by apply not_elem_of_nil|done|by vm_compute|].
  destruct (evenly_on_time (S (length (positions c))) 0 kSweepIntervalUs) as [Ht Hl].
  pose proof (evenly_late (S (length (positions c))) 0 kSweepIntervalUs ltac:(done)) as Hlate.
  assert (Hne : noEmptyUuid c) by (unfold noEmptyUuid; rewrite H3; by repeat constructor).
  destruct (idle_worker_expires keyOrder kSweepIntervalUs 0 _ s c H2 Hne Ht Hl)
    as (times & times2 & w' & c' & Et & H4 & H5 & _ & H6 & H7).
  exists r, s, times, w', c'. split; [done|]. split; [done|]. split; [done|].
  destruct (liveAll c') as [|[r1 e1] l]; [done|]. exfalso.
  pose proof (H6 _ (list_elem_of_here _ _)) as Hin. destruct (H7 r1 e1 Hin) as (_ & Hgone & _).
  rewrite Et in Hlate. apply Forall_app in Hlate as [Hlate _].
  eapply Hgone; [exact Hlate| |by left]. rewrite H3 in Hin.
  apply list_elem_of_singleton in Hin as [= -> ->]. by vm_compute.
Defined.
