(* ===== verification/WorkerLifecycle.v ===== *)
(** The life of the storage worker's thread (ConcurrentLinearStorage::start, run and
    stop), interleaved with the threads that post requests. The worker takes requests
    from a concurrent queue, which keeps each thread's requests in order and promises
    no order between threads. *)
From S2P Require Import Prelude BlockingQueue.
From Stdlib Require Import Lia.

Module Lifecycle.

(** The worker thread: not created, created but not yet in run(), in run()'s loop,
    or returned from run(). *)
Inductive thread := NotCreated | Created | Looping | Exited.
(** What is in _operations: a client's request, or stop()'s. *)
Inductive op := Request (id : nat) | Stop.
(** The thread that calls stop(): before the call; past the guard with _isRunning
    read true, waiting for the event; in join(); returned. *)
Inductive stopper := BeforeStop | WaitingStop | Joining | Returned.
#[export] Instance thread_eq_dec : EqDecision thread.
Proof. solve_decision. Defined.
#[export] Instance stopper_eq_dec : EqDecision stopper.
Proof. solve_decision. Defined.

(** Each actor's next action: a client is a thread [t] that posts the request [id],
    the worker looks where the queue's [choice] says. *)
Inductive actor := Starter | Client (t id : nat) | Worker (choice : nat) | Stopper.
#[export] Instance actor_eq_dec : EqDecision actor.
Proof. solve_decision. Defined.

Section Lifecycle.
(** [me] is the thread that calls stop(). *)
Context {Q : ConcurrentQueue op} (me : nat).

Record state : Type := mkState {
  isRunning : bool;
  started : bool;
  stopRequested : bool;
  worker : thread;
  operations : cq;
  stopping : stopper;
  stopEvent : bool;
  served : list (nat * nat)   (* thread and request *)
}.
Definition initial : state := mkState false false false NotCreated cq_empty BeforeStop false [].

Definition set_isRunning b s := mkState b (started s) (stopRequested s) (worker s) (operations s) (stopping s) (stopEvent s) (served s).
Definition set_started b s := mkState (isRunning s) b (stopRequested s) (worker s) (operations s) (stopping s) (stopEvent s) (served s).
Definition set_stopRequested b s := mkState (isRunning s) (started s) b (worker s) (operations s) (stopping s) (stopEvent s) (served s).
Definition set_worker w s := mkState (isRunning s) (started s) (stopRequested s) w (operations s) (stopping s) (stopEvent s) (served s).
Definition set_operations o s := mkState (isRunning s) (started s) (stopRequested s) (worker s) o (stopping s) (stopEvent s) (served s).
Definition set_stopping p s := mkState (isRunning s) (started s) (stopRequested s) (worker s) (operations s) p (stopEvent s) (served s).
Definition set_stopEvent b s := mkState (isRunning s) (started s) (stopRequested s) (worker s) (operations s) (stopping s) b (served s).
Definition set_served l s := mkState (isRunning s) (started s) (stopRequested s) (worker s) (operations s) (stopping s) (stopEvent s) l.

(** start(): nothing when _isRunning is set, else the thread is started and _started
    set. Poco::Thread::start throws while the thread runs. *)
Definition start (s : state) : option state :=
  if isRunning s then Some s
  else match worker s with
       | NotCreated | Exited => Some (set_started true (set_worker Created s))
       | Created | Looping => None
       end.
(** run(): its prologue, then one round of its loop; a wait that times out takes
    nothing. *)
Definition run (choice : nat) (s : state) : option state :=
  match worker s with
  | Created => Some (set_worker Looping (set_isRunning true s))
  | Looping =>
      if isRunning s then
        match cq_try_dequeue choice (operations s) with
        | None => Some s
        | Some (t, Request id, ops) => Some (set_served (served s ++ [(t, id)]) (set_operations ops s))
        | Some (_, Stop, ops) =>
            Some (set_worker Exited (set_stopEvent true (set_isRunning false (set_operations ops s))))
        end
      else Some (set_worker Exited s)
  | _ => None
  end.
(** stop(): the guards and the enqueue; the wait; the join. *)
Definition stop (s : state) : option state :=
  match stopping s with
  | BeforeStop =>
      let s' := set_stopRequested true s in
      if stopRequested s then Some (set_stopping Returned s')
      else if negb (started s) then Some (set_stopping Returned s')
      else if isRunning s then
        Some (set_stopping WaitingStop (set_operations (cq_enqueue me [Stop] (operations s)) s'))
      else Some (set_stopping Joining s')
  | WaitingStop => if stopEvent s then Some (set_stopping Joining s) else None
  | Joining => if decide (worker s = Exited) then Some (set_stopping Returned s) else None
  | Returned => None
  end.
Definition act (a : actor) (s : state) : option state :=
  match a with
  | Starter => start s
  | Client t id => Some (set_operations (cq_enqueue t [Request id] (operations s)) s)
  | Worker choice => run choice s
  | Stopper => stop s
  end.

(** A schedule: the turn of a blocked actor passes. *)
Definition turn (s : state) (a : actor) : state := default s (act a s).
Definition schedule (l : list actor) (s : state) : state := foldl turn s l.

(** The requests of thread [t] among those served, and among those posted in [l]. *)
Definition servedOf (t : nat) (l : list (nat * nat)) : list nat := l ≫= λ r, if decide (t = r.1) then [r.2] else [].
Definition postedBy (t : nat) (l : list actor) : list nat :=
  l ≫= λ a, match a with Client t' id => if decide (t = t') then [id] else [] | _ => [] end.
Definition turns (l : list actor) : nat := length (l ≫= λ a, match a with Worker _ => [a] | _ => [] end).
Definition posts (l : list actor) : nat := length (l ≫= λ a, match a with Client _ _ => [a] | _ => [] end).

(** The worker has left run() by stop()'s request, having served [final] in all. *)
Definition drained (final : list (nat * nat)) (s : state) : Prop :=
  worker s = Exited ∧ stopEvent s = true ∧ isRunning s = false ∧ stopping s ≠ BeforeStop ∧ served s = final.

Lemma drained_turn final a s : a ≠ Starter → drained final s → drained final (turn s a).
Proof.
  intros Ha (H1 & H2 & H3 & H4 & H5). unfold turn. destruct a as [|t id|ch|]; [done|..]; simpl.
  - by repeat split.
  - unfold run. rewrite H1. by repeat split.
  - unfold stop. destruct (stopping s) eqn:Hs; rewrite ?H2; simpl; rewrite ?H1; [done| | |by repeat split; congruence].
    + by repeat split.
    + case_decide; by repeat split; rewrite ?Hs.
Qed.
Lemma drained_schedule final l s : Starter ∉ l → drained final s → drained final (schedule l s).
Proof.
  revert s. induction l as [|a l IH]; intros s Hl Hd; [done|]. apply not_elem_of_cons in Hl as [Ha Hl].
  simpl. apply IH; [done|]. by apply drained_turn.
Qed.
Lemma stop_returns final s : drained final s → stopping (turn (turn s Stopper) Stopper) = Returned.
Proof.
  intros (H1 & H2 & H3 & H4 & H5). destruct (stopping s) eqn:Hs; [done|..].
  - assert (turn s Stopper = set_stopping Joining s) as -> by (unfold turn; simpl; unfold stop; by rewrite Hs, H2).
    unfold turn. simpl. unfold stop. simpl. by rewrite decide_True.
  - assert (turn s Stopper = set_stopping Returned s) as -> by (unfold turn; simpl; unfold stop; by rewrite Hs, decide_True).
    done.
  - assert (turn s Stopper = s) as -> by (unfold turn; simpl; unfold stop; by rewrite Hs).
    unfold turn. simpl. unfold stop. by rewrite Hs.
Qed.

(** What thread [t] has put into the queue by now: what was there when stop() was
    called, stop()'s request, and what it posted later. *)
Definition history (lane0 : nat → list op) (later : nat → list nat) (t : nat) : list op :=
  lane0 t ++ (if decide (t = me) then [Stop] else []) ++ (Request <$> later t).
(** While stop()'s request is in the queue: [new] has been served since the call. *)
Record draining (base : list (nat * nat)) (lane0 : nat → list op) (later : nat → list nat) (new : list (nat * nat)) (s : state) : Prop := {
  dr_flags : isRunning s = true ∧ worker s = Looping ∧ stopping s = WaitingStop ∧ stopEvent s = false;
  dr_served : served s = base ++ new;
  dr_queue : cq_ok (operations s);
  dr_lanes : ∀ t, history lane0 later t = (Request <$> servedOf t new) ++ cq_lane (operations s) t
}.

Lemma servedOf_snoc t new r : servedOf t (new ++ [r]) = servedOf t new ++ (if decide (t = r.1) then [r.2] else []).
Proof. unfold servedOf. rewrite bind_app. simpl. by rewrite app_nil_r. Qed.
Lemma requests_only (ids : list nat) : Stop ∉ (Request <$> ids).
Proof. by intros (id & ? & _)%list_elem_of_fmap. Qed.
(** Before stop()'s request there is only what was there before it. *)
Lemma split_at_stop (l : list op) ids r r' : Stop ∉ l → l ++ Stop :: r = (Request <$> ids) ++ Stop :: r' → l = Request <$> ids.
Proof.
  revert ids. induction l as [|o l IH]; intros [|id ids] Hl H; csimpl in H; try done.
  - injection H as -> _. exfalso. apply Hl. by left.
  - injection H as -> H. apply not_elem_of_cons in Hl as [_ Hl]. csimpl. by rewrite (IH ids Hl H).
Qed.

Context {QOk : SoleConsumer op}.

Lemma draining_nonempty base lane0 later new s : draining base lane0 later new s → 0 < cq_size (operations s).
Proof.
  intros [_ _ Hq Hl]. pose proof (cq_lane_size (operations s) me Hq) as Hs. specialize (Hl me). unfold history in Hl.
  rewrite decide_True in Hl by done. destruct (cq_lane (operations s) me) as [|o lane]; [|simpl in Hs; lia]. exfalso.
  rewrite app_nil_r in Hl. apply (requests_only (servedOf me new)). rewrite <-Hl. set_solver.
Qed.

(** The worker's next round while stop()'s request is in the queue. *)
Lemma draining_round base lane0 later new s ch : (∀ t, Stop ∉ lane0 t) → draining base lane0 later new s →
  (∃ r, draining base lane0 later (new ++ [r]) (turn s (Worker ch)) ∧ cq_size (operations (turn s (Worker ch))) = cq_size (operations s) - 1) ∨
  drained (base ++ new) (turn s (Worker ch)) ∧ Request <$> servedOf me new = lane0 me.
Proof.
  intros H0 Hd. pose proof (draining_nonempty _ _ _ _ _ Hd) as Hpos. destruct Hd as [(F1 & F2 & F3 & F4) Hs Hq Hl].
  unfold turn. simpl. unfold run. rewrite F2, F1. destruct (cq_try_dequeue ch (operations s)) as [[[t o] q]|] eqn:Ht.
  2: { apply sole_take_none in Ht; [lia|done]. }
  pose proof (cq_take_lane _ _ _ _ _ Hq Ht) as Htl. destruct o as [id|]; simpl.
  - left. exists (t, id). split; [|exact (cq_take_size _ _ _ _ _ Hq Ht)]. split; simpl; [done|by rewrite Hs, app_assoc|exact (cq_take_ok _ _ _ _ _ Hq Ht)|].
    intros t'. rewrite Hl, servedOf_snoc, Htl, fmap_app. simpl. rewrite <-app_assoc. f_equal. by case_decide.
  - right. split; [do 3 (split; [done|]); split; [simpl; by rewrite F3|exact Hs]|]. specialize (Hl t). rewrite Htl, decide_True in Hl by done. unfold history in Hl.
    destruct (decide (t = me)) as [->|Hne].
    + symmetry. by eapply split_at_stop.
    + exfalso. assert (Hin : Stop ∈ lane0 t ++ [] ++ (Request <$> later t)) by (rewrite Hl; set_solver).
      apply elem_of_app in Hin as [Hin|Hin]; [by apply (H0 t)|by apply (requests_only (later t))].
Qed.

Lemma draining_posted base lane0 later new s t id : draining base lane0 later new s →
  draining base lane0 (λ t', later t' ++ (if decide (t' = t) then [id] else [])) new (turn s (Client t id)) ∧
  cq_size (operations (turn s (Client t id))) = cq_size (operations s) + 1.
Proof.
  intros [HF Hs Hq Hl]. unfold turn. simpl. split; [|by rewrite (cq_enqueue_size t [Request id] _ Hq)]. split; simpl; [done|done|by apply cq_enqueue_ok|].
  intros t'. rewrite cq_enqueue_lane, app_assoc, <-Hl by done. unfold history. rewrite fmap_app, !app_assoc. f_equal. by case_decide.
Qed.

Lemma turns_cons a l : turns (a :: l) = ((match a with Worker _ => 1 | _ => 0 end) + turns l)%nat.
Proof. by destruct a. Qed.
Lemma posts_cons a l : posts (a :: l) = ((match a with Client _ _ => 1 | _ => 0 end) + posts l)%nat.
Proof. by destruct a. Qed.
Lemma draining_schedule base lane0 l : (∀ t, Stop ∉ lane0 t) → ∀ later new s,
  Starter ∉ l → draining base lane0 later new s → cq_size (operations s) + Z.of_nat (posts l) <= Z.of_nat (turns l) →
  ∃ new', drained (base ++ new') (schedule l s) ∧ Request <$> servedOf me new' = lane0 me ∧
    ∀ t, (Request <$> servedOf t new') `prefix_of` history lane0 (λ t, later t ++ postedBy t l) t.
Proof.
  intros H0. induction l as [|a l IH]; intros later new s Hl Hd Hn.
  { pose proof (draining_nonempty _ _ _ _ _ Hd). unfold turns, posts in Hn. simpl in Hn. lia. }
  rewrite turns_cons, posts_cons in Hn. apply not_elem_of_cons in Hl as [Ha Hl]. cbn [schedule foldl]. fold (schedule l (turn s a)).
  destruct a as [|t id|ch|]; [done|..].
  - destruct (draining_posted _ _ _ _ _ t id Hd) as [Hd' Hsize].
    destruct (IH _ _ _ Hl Hd') as (new' & N1 & N2 & N3); [lia|].
    exists new'. split; [done|]. split; [done|]. intros t'. specialize (N3 t'). unfold history in *. rewrite <-app_assoc in N3. exact N3.
  - destruct (draining_round _ _ _ _ _ ch H0 Hd) as [(r & Hd' & Hsize)|[Hd' Hme]].
    + destruct (IH _ _ _ Hl Hd') as (new' & N1 & N2 & N3); [lia|]. by exists new'.
    + exists new. split; [by apply drained_schedule|]. split; [done|]. intros t. destruct Hd as [_ _ _ Hlanes]. unfold history.
      rewrite fmap_app, !app_assoc, <-(app_assoc (lane0 t)). fold (history lane0 later t). rewrite Hlanes, <-app_assoc. by eexists.
  - assert (turn s Stopper = s) as ->.
    { unfold turn. simpl. unfold stop. destruct (dr_flags _ _ _ _ _ Hd) as (_ & _ & -> & ->). done. }
    destruct (IH _ _ _ Hl Hd Hn) as (new' & N1 & N2 & N3). by exists new'.
Qed.

(** C22. Stopping a running worker ends it: from the call of stop() on, whatever the
    clients post meanwhile and however their turns interleave, once the worker has had
    one turn more than there are requests, queued or posted later, and stop() two,
    stop() has returned and the worker has left run(). By then it has served every
    request that stop()'s own thread had queued, and of every other thread a prefix of
    what that thread had queued and posted, each in order and once. *)
Theorem stop_drains s l :
  worker s = Looping → isRunning s = true → stopping s = BeforeStop → started s = true →
  stopRequested s = false → stopEvent s = false → cq_ok (operations s) → (∀ t, Stop ∉ cq_lane (operations s) t) →
  Starter ∉ l → cq_size (operations s) + Z.of_nat (posts l) < Z.of_nat (turns l) →
  let s' := schedule (Stopper :: l ++ [Stopper; Stopper]) s in
  stopping s' = Returned ∧ worker s' = Exited ∧
  ∃ new, served s' = served s ++ new ∧ Request <$> servedOf me new = cq_lane (operations s) me ∧
    ∀ t, t ≠ me → (Request <$> servedOf t new) `prefix_of` cq_lane (operations s) t ++ (Request <$> postedBy t l).
Proof.
  intros H1 H2 H3 H4 H5 H6 Hq H0 H8 H9. unfold schedule. cbn [foldl]. rewrite foldl_app. fold (schedule l (turn s Stopper)).
  assert (Hd : draining (served s) (cq_lane (operations s)) (λ _, []) [] (turn s Stopper)).
  { unfold turn. cbn [act]. unfold stop. rewrite H3, H5, H4, H2. simpl. split; simpl; [by split_and!|by rewrite app_nil_r|by apply cq_enqueue_ok|].
    intros t. rewrite cq_enqueue_lane by done. unfold history. simpl. by rewrite app_nil_r. }
  assert (Hsize : cq_size (operations (turn s Stopper)) = cq_size (operations s) + 1).
  { unfold turn. cbn [act]. unfold stop. rewrite H3, H5, H4, H2. simpl. by rewrite (cq_enqueue_size me [Stop] _ Hq). }
  destruct (draining_schedule _ _ l H0 _ _ _ H8 Hd) as (new & N1 & N2 & N3); [lia|].
  cbn [foldl]. split; [by eapply stop_returns|].
  destruct (drained_turn _ Stopper _ ltac:(done) (drained_turn _ Stopper _ ltac:(done) N1)) as (E1 & _ & _ & _ & E2).
  split; [done|]. exists new. split; [done|]. split; [done|]. intros t Ht. specialize (N3 t). unfold history in N3.
  by rewrite decide_False in N3.
Qed.

(** What stop() finds when it overtakes run(): it joins without posting a request. *)
Definition overtaken (s : state) : Prop :=
  stopping s = Joining ∧ cq_ok (operations s) ∧ (∀ t, Stop ∉ cq_lane (operations s) t) ∧
  (worker s = Created ∧ isRunning s = false ∨ worker s = Looping ∧ isRunning s = true).

Lemma overtaken_turn a s : overtaken s → overtaken (turn s a).
Proof.
  intros (H1 & Hq & H2 & H3). unfold turn. destruct a as [|t id|ch|]; simpl.
  - unfold start. destruct H3 as [[H3 H4]|[H3 H4]]; rewrite H4, ?H3; simpl; unfold overtaken; auto 6.
  - split; [done|]. split; [by apply cq_enqueue_ok|]. split; [|done]. intros t'. simpl. rewrite cq_enqueue_lane by done.
    specialize (H2 t'). case_decide; set_solver.
  - unfold run. destruct H3 as [[H3 H4]|[H3 H4]]; rewrite H3, ?H4.
    + split; [done|]. split; [done|]. split; [done|]. by right.
    + destruct (cq_try_dequeue ch (operations s)) as [[[t o] q]|] eqn:Ht; simpl; [|unfold overtaken; auto 6].
      pose proof (cq_take_lane _ _ _ _ _ Hq Ht) as Hl. destruct o as [id|]; simpl.
      * split; [done|]. split; [exact (cq_take_ok _ _ _ _ _ Hq Ht)|]. split; [|by right]. intros t'. simpl. specialize (H2 t').
        rewrite Hl in H2. set_solver.
      * exfalso. apply (H2 t). rewrite Hl, decide_True by done. by left.
  - unfold stop. rewrite H1, decide_False; [by repeat split|]. destruct H3 as [[-> _]|[-> _]]; done.
Qed.

(** A stop() that overtakes the new thread never returns: when stop() runs
    between start() and the thread's first action in run(), it reads _isRunning
    false, posts nothing and joins; the thread then enters its loop, and whatever
    happens next, stop() is still in its join. *)
Theorem stop_overtakes_run l :
  stopping (schedule ([Starter; Stopper] ++ l) initial) = Joining.
Proof.
  assert (H : ∀ l s, overtaken s → overtaken (schedule l s)).
  { clear -QOk. intros l. induction l as [|a l IH]; intros s Hs; [done|]. by apply IH, overtaken_turn. }
  unfold schedule. rewrite foldl_app. apply (H l). split; [done|]. split; [apply cq_empty_ok|]. split; [|by left].
  intros t. simpl. rewrite cq_empty_lane. apply not_elem_of_nil.
Qed.
End Lifecycle.

(** Thread 1 has two requests in the queue and thread 2, which calls stop(), one. *)
Lemma stop_drains_witness :
  let s := schedule 2 [Starter; Worker 0; Client 2 7; Client 1 8; Client 1 9] initial in
  let s' := schedule 2 (Stopper :: [Worker 0; Client 3 6; Worker 0; Stopper; Worker 0; Worker 0; Worker 0] ++ [Stopper; Stopper]) s in
  stopping s' = Returned ∧ worker s' = Exited ∧ ∃ new, served s' = [] ++ new ∧ servedOf 2 new = [7%nat].
Proof.
  cbn zeta.
  destruct (stop_drains 2 (schedule 2 [Starter; Worker 0; Client 2 7; Client 1 8; Client 1 9] initial)
    [Worker 0; Client 3 6; Worker 0; Stopper; Worker 0; Worker 0; Worker 0]) as (H1 & H2 & new & H3 & H4 & _); try reflexivity.
  - by apply (bool_decide_unpack _); vm_compute.
  - intros t. change (cq_lane _ t) with (laneOf [(1%nat, [Request 8; Request 9]); (2%nat, [Request 7])] t). simpl.
    repeat case_decide; set_solver.
  - set_solver.
  - split; [exact H1|]. split; [exact H2|]. exists new. split; [exact H3|].
    change (cq_lane _ 2%nat) with [Request 7] in H4. destruct (servedOf 2 new) as [|id [|]]; [discriminate H4| |discriminate H4]. by injection H4 as ->.
Defined.

(** C29. The request of stop() overtakes what other threads had queued before it: with
    the queue of the code, whose try_dequeue looks at the newest of equally long
    producers, a request that thread 1 posted before thread 2 called stop() is still in
    the queue when the worker has left and stop() has returned, and it is never served,
    whatever happens next: its caller, waiting for the answer, waits for ever. *)
Theorem stop_overtakes_requests l : Starter ∉ l →
  let s := schedule 2 [Starter; Worker 0; Client 1 7; Stopper; Worker 0; Stopper; Stopper] initial in
  stopping s = Returned ∧ worker s = Exited ∧ cq_lane (operations s) 1%nat = [Request 7] ∧ served (schedule 2 l s) = [].
Proof.
  intros Hl s. split; [done|]. split; [done|]. split; [done|].
  assert (Hd : drained [] s) by (by split_and!).
  apply (drained_schedule 2 [] l s Hl Hd).
Qed.
Lemma stop_overtakes_requests_witness :
  let s := schedule 2 [Starter; Worker 0; Client 1 7; Stopper; Worker 0; Stopper; Stopper] initial in
  served (schedule 2 [Worker 0; Client 3 8; Worker 1] s) = [].
Proof.
  cbn zeta. destruct (stop_overtakes_requests [Worker 0; Client 3 8; Worker 1]) as (_ & _ & _ & H); [set_solver|exact H].
Defined.
End Lifecycle.
