(* ===== verification/TransactionBuffer.v ===== *)
(** TransactionBuffer (TransactionBuffer.h/.cpp): the persistent messages of the
    transactions that are not committed yet, kept in memory, and the transaction log
    that a restart reads back.

    Poco's time formatting and its StringTokenizer are parameters with their
    documented laws; the log is the text of its file, read line by line. Every
    operation runs under the buffer's mutex, except the storage I/O that ends a
    commit, so the operations are atomic steps and a commit is two. *)
From S2P Require Import Prelude Property Message JsonInstance StorageRecord LinearStorage StorageWorker.
From Stdlib Require Import Lia ZifyBool Ascii.

(** *** Text *)
Definition chars (s : string) : list ascii := String.list_ascii_of_string s.
Definition newline : ascii := "010"%char.
Definition bar : ascii := "|"%char.

(** The segments of [s] between occurrences of [c]. *)
Fixpoint split_on (c : ascii) (s : string) : list string :=
  match s with
  | "" => [""]
  | String a s =>
      if decide (a = c) then "" :: split_on c s
      else match split_on c s with w :: ws => String a w :: ws | [] => [String a ""] end
  end.

(** A field of a log line: it survives the separator and the trimming. *)
Record field (s : string) : Prop := {
  field_chars : Forall (λ a, a ≠ bar ∧ a ≠ newline) (chars s);
  field_trimmed : Forall (λ a, is_space a = false) (option_list (head (chars s)) ++ option_list (head (reverse (chars s))))
}.
(** A word has no space at all. *)
Definition word (s : string) : Prop := Forall (λ a, a ≠ bar ∧ is_space a = false) (chars s).

(** Poco::DateTimeFormatter::format with the buffer's pattern, and
    Poco::StringTokenizer(line, "|", TOK_TRIM). *)
Class PocoText : Type := {
  formatTime : Z → string;
  tokenize : string → list string
}.
Class PocoTextOk (T : PocoText) (U : PocoUUID) : Prop := {
  formatTime_field : ∀ t, field (formatTime t);
  tokenize_join : ∀ l, l ≠ [] → Forall field l → tokenize (String.concat "|" l) = l;
  uuid_word : ∀ u : UUID, word (uuid_toString u);
  uuid_parse_toString : ∀ u : UUID, length u = 16%nat → uuid_parse (uuid_toString u) = Some u
}.

Lemma split_on_nonempty c s : split_on c s ≠ [].
Proof. destruct s; simpl; [done|]. case_decide; [done|]. by case_match. Qed.
Lemma split_on_app c a b : split_on c (a +:+ String c b) = split_on c a ++ split_on c b.
Proof.
  induction a as [|x a IH]; simpl; [by rewrite decide_True|]. rewrite IH. case_decide; [done|].
  pose proof (split_on_nonempty c a). by destruct (split_on c a).
Qed.
Lemma split_on_none c s : Forall (λ a, a ≠ c) (chars s) → split_on c s = [s].
Proof.
  induction s as [|a s IH]; intros H; [done|]. apply Forall_cons_1 in H as [Ha H]. simpl.
  by rewrite decide_False, IH.
Qed.
Lemma word_field s : word s → field s.
Proof.
  intros H. split.
  - eapply Forall_impl; [|exact H]. simpl. intros a [Hb Hs]. split; [done|]. by intros ->.
  - assert (Hs : Forall (λ a, is_space a = false) (chars s)) by (eapply Forall_impl; [|exact H]; by intros ? []).
    assert (Hh : ∀ l, Forall (λ a, is_space a = false) l → Forall (λ a, is_space a = false) (option_list (head l))).
    { intros l Hl. destruct Hl; simpl; [constructor|]. by repeat constructor. }
    apply Forall_app. split; apply Hh; [done|]. by rewrite reverse_Permutation.
Qed.

(** *** State *)
Record TB : Type := mkTB {
  transactionMessages : gmap string (list UUID);
  messageToTransaction : gmap UUID string;
  bufferedData : gmap UUID bytes;
  transactionLog : string;   (* the contents of transaction.log *)
  logOpens : bool            (* opening the log file succeeds *)
}.
Definition set_transactionMessages x (b : TB) := mkTB x (messageToTransaction b) (bufferedData b) (transactionLog b) (logOpens b).
Definition set_messageToTransaction x (b : TB) := mkTB (transactionMessages b) x (bufferedData b) (transactionLog b) (logOpens b).
Definition set_bufferedData x (b : TB) := mkTB (transactionMessages b) (messageToTransaction b) x (transactionLog b) (logOpens b).
Definition set_transactionLog x (b : TB) := mkTB (transactionMessages b) (messageToTransaction b) (bufferedData b) x (logOpens b).

Definition freshTB (opens : bool) (log : string) : TB := mkTB ∅ ∅ ∅ log opens.

(** *** Operations *)
Section Operations.
Context {T : PocoText} {U : PocoUUID}.

Definition logLine (now : Z) (operation transactionId : string) (messageId : UUID) : string :=
  String.concat "|" [formatTime now; operation; transactionId; uuid_toString messageId].
(** ensureLogOpenLocked and logOperationLocked *)
Definition logOperation (now : Z) (operation transactionId : string) (messageId : UUID) : M TB unit :=
  b ← get;
  if logOpens b then
    modify (λ b, set_transactionLog
      (transactionLog b +:+ (logLine now operation transactionId messageId +:+ String newline "")) b)
  else throw (PocoOpenFile "Cannot open transaction log").

Definition addMessage (now1 now2 : Z) (transactionId : string) (messageId : UUID) (data : bytes) : M TB unit :=
  b ← get;
  _ ← match transactionMessages b !! transactionId with
      | None =>
          _ ← modify (λ b, set_transactionMessages (<[transactionId := []]> (transactionMessages b)) b);
          logOperation now1 "BEGIN" transactionId nullUUID
      | Some _ => mret tt
      end;
  _ ← modify (λ b, set_bufferedData (<[messageId := data]> (bufferedData b)) b);
  _ ← modify (λ b, set_messageToTransaction (<[messageId := transactionId]> (messageToTransaction b)) b);
  _ ← modify (λ b, set_transactionMessages
        (alter (λ l, l ++ [messageId]) transactionId (transactionMessages b)) b);
  logOperation now2 "ADD" transactionId messageId.

Definition patchDeliveryTime (messageId : UUID) (deliveryTime : Z) : M TB unit :=
  modify (λ b, set_bufferedData (alter (patchDeliveryTimeInBytes deliveryTime) messageId (bufferedData b)) b).

(** The loop of commitTransaction that moves a transaction's data out. *)
Fixpoint takeBatch (ids : list UUID) : M TB (list (UUID * bytes)) :=
  match ids with
  | [] => mret []
  | id :: ids =>
      b ← get;
      here ← match bufferedData b !! id with
             | Some d =>
                 _ ← modify (λ b, set_bufferedData (delete id (bufferedData b)) b);
                 _ ← modify (λ b, set_messageToTransaction (delete id (messageToTransaction b)) b);
                 mret [(id, d)]
             | None => mret []
             end;
      rest ← takeBatch ids; mret (here ++ rest)
  end.
(** commitTransaction up to the release of the mutex: what it will write. *)
Definition commitLocked (now : Z) (transactionId : string) : M TB (list (UUID * bytes)) :=
  b ← get;
  match transactionMessages b !! transactionId with
  | None => mret []
  | Some ids =>
      batch ← takeBatch ids;
      _ ← modify (λ b, set_transactionMessages (delete transactionId (transactionMessages b)) b);
      _ ← logOperation now "COMMIT" transactionId nullUUID;
      mret batch
  end.

Definition dropIds (ids : list UUID) : M TB unit :=
  for_each (λ id, modify (λ b, set_messageToTransaction (delete id (messageToTransaction b))
                              (set_bufferedData (delete id (bufferedData b)) b))) ids.
Definition rollbackTransaction (now : Z) (transactionId : string) : M TB unit :=
  b ← get;
  match transactionMessages b !! transactionId with
  | None => mret tt
  | Some ids =>
      _ ← dropIds ids;
      _ ← modify (λ b, set_transactionMessages (delete transactionId (transactionMessages b)) b);
      logOperation now "ROLLBACK" transactionId nullUUID
  end.

(** One line of the log, as loadTransactionLog reads it. *)
Definition loadLine (line : string) (b : TB) : TB :=
  if decide (line = "") then b
  else match tokenize line with
  | _ :: operation :: transactionId :: rest =>
      if decide (operation = "BEGIN") then
        set_transactionMessages (<[transactionId := []]> (transactionMessages b)) b
      else if decide (operation = "ADD" ∧ rest ≠ []) then
        match rest with
        | s :: _ =>
            match uuid_parse s, transactionMessages b !! transactionId with
            | Some messageId, Some _ =>
                set_messageToTransaction (<[messageId := transactionId]> (messageToTransaction b))
                  (set_transactionMessages
                    (alter (λ l, l ++ [messageId]) transactionId (transactionMessages b)) b)
            | _, _ => b
            end
        | [] => b
        end
      else if decide (operation = "COMMIT" ∨ operation = "ROLLBACK") then
        set_transactionMessages (delete transactionId (transactionMessages b)) b
      else b
  | _ => b
  end.
(** loadTransactionLog; a missing file reads like an empty one. The last segment
    of a file that ends in a newline is empty, and skipped. *)
Definition loadTransactionLog : M TB unit :=
  modify (λ b, foldl (λ b line, loadLine line b) (freshTB (logOpens b) (transactionLog b))
                     (split_on newline (transactionLog b))).

(** recover(); [order] is the iteration order of the map. *)
Definition recover (order : gmap string (list UUID) → list string) (now : Z) : M TB unit :=
  b ← get;
  for_each (λ transactionId,
    b ← get;
    _ ← match transactionMessages b !! transactionId with
        | Some ids =>
            _ ← dropIds ids;
            modify (λ b, set_transactionMessages (delete transactionId (transactionMessages b)) b)
        | None => mret tt
        end;
    logOperation now "ROLLBACK" transactionId nullUUID) (order (transactionMessages b)).

(** Constructing the buffer over the log a previous process left. *)
Definition restart (order : gmap string (list UUID) → list string) (now : Z) : M TB unit :=
  _ ← loadTransactionLog; recover order now.
End Operations.

(** *** The log *)
Lemma chars_app a b : chars (a +:+ b) = chars a ++ chars b.
Proof. induction a as [|x a IH]; simpl; [done|]. by rewrite IH. Qed.
Lemma str_append_assoc a b c : (a +:+ b) +:+ c = a +:+ (b +:+ c).
Proof. induction a as [|x a IH]; [done|]. exact (f_equal (String x) IH). Qed.

Fixpoint unlines (ls : list string) : string :=
  match ls with [] => "" | l :: ls => l +:+ String newline (unlines ls) end.
Definition one_line (s : string) : Prop := Forall (λ a, a ≠ newline) (chars s).

Lemma unlines_snoc ls l : unlines (ls ++ [l]) = unlines ls +:+ (l +:+ String newline "").
Proof.
  induction ls as [|x ls IH]; [done|]. cbn [unlines app]. rewrite IH, str_append_assoc. done.
Qed.
Lemma split_unlines ls : Forall one_line ls → split_on newline (unlines ls) = ls ++ [""].
Proof.
  induction 1 as [|l ls Hl _ IH]; [done|]. cbn [unlines]. rewrite split_on_app, IH.
  by rewrite (split_on_none newline l).
Qed.
Lemma field_one_line s : field s → one_line s.
Proof. intros [H _]. eapply Forall_impl; [|exact H]. by intros a []. Qed.

Section Log.
Context {T : PocoText} {U : PocoUUID} {TU : PocoTextOk T U}.

Definition operations : list string := ["BEGIN"; "ADD"; "COMMIT"; "ROLLBACK"].
Lemma operation_field op : op ∈ operations → field op.
Proof.
  intros H. apply word_field. unfold word.
  repeat (apply elem_of_cons in H as [->|H]; [by repeat constructor|]). by apply not_elem_of_nil in H.
Qed.

Lemma logLine_fields now op tx id :
  op ∈ operations → field tx → Forall field [formatTime now; op; tx; uuid_toString id].
Proof.
  intros Ho Ht. apply Forall_cons_2; [apply formatTime_field|]. apply Forall_cons_2; [by apply operation_field|].
  apply Forall_cons_2; [done|]. apply Forall_cons_2; [|constructor]. apply word_field, uuid_word.
Qed.
Lemma logLine_tokens now op tx id :
  op ∈ operations → field tx →
  tokenize (logLine now op tx id) = [formatTime now; op; tx; uuid_toString id].
Proof. intros Ho Ht. apply tokenize_join; [done|]. by apply logLine_fields. Qed.
Lemma logLine_one_line now op tx id : op ∈ operations → field tx → one_line (logLine now op tx id).
Proof.
  intros Ho Ht. pose proof (logLine_fields now op tx id Ho Ht) as H.
  apply Forall_cons_1 in H as [H1 H]. apply Forall_cons_1 in H as [H2 H].
  apply Forall_cons_1 in H as [H3 H]. apply Forall_cons_1 in H as [H4 _].
  unfold one_line, logLine. cbn [String.concat]. rewrite !chars_app. repeat (apply Forall_app; split); try by apply field_one_line. all: by repeat constructor.
Qed.
Lemma logLine_nonempty now op tx id : op ∈ operations → logLine now op tx id ≠ "".
Proof.
  intros _ H. apply (f_equal chars) in H. unfold logLine in H. cbn [String.concat] in H.
  rewrite !chars_app in H. simpl in H.
  by apply app_eq_nil in H as [_ H].
Qed.

Lemma loadLine_op now op tx id b :
  op ∈ operations → field tx →
  transactionMessages (loadLine (logLine now op tx id) b) =
  if decide (op = "BEGIN") then <[tx := []]> (transactionMessages b)
  else if decide (op = "ADD") then
    match uuid_parse (uuid_toString id) with
    | Some u => alter (λ l, l ++ [u]) tx (transactionMessages b)
    | None => transactionMessages b
    end
  else delete tx (transactionMessages b).
Proof.
  intros Ho Ht. unfold loadLine. rewrite decide_False by by apply logLine_nonempty.
  rewrite (logLine_tokens now op tx id Ho Ht). case_decide as H1; [done|].
  destruct (decide (op = "ADD")) as [H2|H2].
  - rewrite decide_True by done. destruct (uuid_parse _) as [u|]; [|done].
    destruct (transactionMessages b !! tx) eqn:Htx; [done|]. by rewrite alter_id' by done.
  - rewrite decide_False by tauto. rewrite decide_True; [done|].
    unfold operations in Ho. rewrite !elem_of_cons in Ho. pose proof (not_elem_of_nil op). tauto.
Qed.
End Log.

(** *** The log tells the open transactions *)
Section LogInvariant.
Context {T : PocoText} {U : PocoUUID} {TU : PocoTextOk T U}.

Definition replay (ls : list string) (b : TB) : TB := foldl (λ b line, loadLine line b) b ls.

Lemma loadLine_congr line b1 b2 :
  transactionMessages b1 = transactionMessages b2 →
  transactionMessages (loadLine line b1) = transactionMessages (loadLine line b2).
Proof. intros H. unfold loadLine. repeat case_match; simpl; rewrite ?H in *; congruence. Qed.
Lemma replay_congr ls b1 b2 :
  transactionMessages b1 = transactionMessages b2 →
  transactionMessages (replay ls b1) = transactionMessages (replay ls b2).
Proof.
  revert b1 b2. induction ls as [|l ls IH]; intros b1 b2 H; [done|]. by apply IH, loadLine_congr.
Qed.

(** The log of [b] is sound: reading it back gives the open transactions. *)
Definition log_ok (b : TB) : Prop :=
  logOpens b = true ∧ (∀ tx, is_Some (transactionMessages b !! tx) → field tx) ∧
  ∃ ls, transactionLog b = unlines ls ∧ Forall one_line ls ∧
    transactionMessages (replay ls (freshTB true "")) = transactionMessages b.

Lemma log_ok_load b : log_ok b →
  ∃ b', loadTransactionLog b = Ok tt b' ∧ transactionMessages b' = transactionMessages b ∧
    bufferedData b' = ∅ ∧ transactionLog b' = transactionLog b ∧ logOpens b' = true.
Proof.
  intros (Ho & _ & ls & Hl & Hls & Hr). eexists. split; [done|]. fold (replay (split_on newline (transactionLog b)) (freshTB (logOpens b) (transactionLog b))).
  assert (Hkeep : ∀ ls b, bufferedData (replay ls b) = bufferedData b ∧ transactionLog (replay ls b) = transactionLog b ∧
    logOpens (replay ls b) = logOpens b).
  { clear. intros ls. induction ls as [|l ls IH]; intros b; [done|].
    change (replay (l :: ls) b) with (replay ls (loadLine l b)).
    destruct (IH (loadLine l b)) as (-> & -> & ->). unfold loadLine. by repeat case_match. }
  destruct (Hkeep (split_on newline (transactionLog b)) (freshTB (logOpens b) (transactionLog b))) as (H1 & H2 & H3).
  split; [|by rewrite H1, H2, H3, <-Ho].
  rewrite Hl, split_unlines by done. unfold replay. rewrite foldl_app. simpl. fold (replay ls (freshTB (logOpens b) (unlines ls))).
  transitivity (transactionMessages (replay ls (freshTB (logOpens b) (unlines ls)))); [by unfold loadLine; rewrite decide_True|].
  rewrite <-Hr. by apply replay_congr.
Qed.

(** The effect a log line has on the open transactions. *)
Definition lineEffect (op tx : string) (id : UUID) (m : gmap string (list UUID)) : gmap string (list UUID) :=
  if decide (op = "BEGIN") then <[tx := []]> m
  else if decide (op = "ADD") then
    match uuid_parse (uuid_toString id) with
    | Some u => alter (λ l, l ++ [u]) tx m
    | None => m
    end
  else delete tx m.

Lemma log_extend b b1 now op tx id :
  log_ok b → op ∈ operations → field tx →
  transactionLog b1 = transactionLog b → logOpens b1 = logOpens b →
  transactionMessages b1 = lineEffect op tx id (transactionMessages b) →
  ∃ b2, logOperation now op tx id b1 = Ok tt b2 ∧ log_ok b2 ∧
    transactionMessages b2 = transactionMessages b1 ∧ bufferedData b2 = bufferedData b1.
Proof.
  intros (Ho & Hk & ls & Hl & Hls & Hr) Hop Htx E1 E2 E3.
  exists (set_transactionLog (transactionLog b1 +:+ (logLine now op tx id +:+ String newline "")) b1).
  split; [unfold logOperation; mrun; by rewrite E2, Ho|]. split; [|done]. split; [by simpl; rewrite E2|]. split.
  - simpl. rewrite E3. unfold lineEffect. intros tx'. repeat case_decide.
    + rewrite lookup_insert_is_Some. intros [<-|[_ ?]]; [done|by apply Hk].
    + destruct (uuid_parse _) as [u|]; [|apply Hk]. rewrite lookup_alter_is_Some. apply Hk.
    + rewrite lookup_delete_is_Some. intros [_ ?]. by apply Hk.
  - exists (ls ++ [logLine now op tx id]). split; [by simpl; rewrite E1, Hl, unlines_snoc|].
    split; [apply Forall_app; split; [done|]; constructor; [by apply logLine_one_line|done]|].
    unfold replay. rewrite foldl_app. cbn [foldl]. rewrite (loadLine_op now op tx id) by done.
    fold (replay ls (freshTB true "")). rewrite Hr. done.
Qed.

(** *** What the loops do *)
Definition deleteAll {A} (ids : list UUID) (m : gmap UUID A) : gmap UUID A := foldl (λ m id, delete id m) m ids.
Fixpoint batchOf (ids : list UUID) (buffered : gmap UUID bytes) : list (UUID * bytes) :=
  match ids with
  | [] => []
  | id :: ids => match buffered !! id with Some d => [(id, d)] | None => [] end ++ batchOf ids (delete id buffered)
  end.

Lemma takeBatch_run ids b :
  ∃ mtt, takeBatch ids b = Ok (batchOf ids (bufferedData b))
    (mkTB (transactionMessages b) mtt (deleteAll ids (bufferedData b)) (transactionLog b) (logOpens b)).
Proof.
  revert b. induction ids as [|id ids IH]; intros b.
  { exists (messageToTransaction b). by destruct b. }
  cbn [takeBatch]. rewrite (bind_ok get _ b b b eq_refl). destruct (bufferedData b !! id) as [d|] eqn:Hd.
  - set (b1 := set_messageToTransaction (delete id (messageToTransaction b)) (set_bufferedData (delete id (bufferedData b)) b)).
    destruct (IH b1) as [mtt H]. exists mtt.
    erewrite (bind_ok _ _ b [(id, d)] b1); [|reflexivity]. rewrite (bind_ok _ _ _ _ _ H).
    cbn [batchOf]. by rewrite Hd.
  - destruct (IH b) as [mtt H]. exists mtt. rewrite bind_ret, (bind_ok _ _ _ _ _ H).
    cbn [batchOf deleteAll foldl]. by rewrite Hd, delete_id.
Qed.

Lemma dropIds_run ids b :
  dropIds ids b = Ok tt (mkTB (transactionMessages b) (deleteAll ids (messageToTransaction b))
    (deleteAll ids (bufferedData b)) (transactionLog b) (logOpens b)).
Proof.
  revert b. induction ids as [|id ids IH]; intros b; [by destruct b|].
  unfold dropIds in *. cbn [for_each]. mrun. by rewrite IH.
Qed.
End LogInvariant.

Lemma lookup_deleteAll {A} (ids : list UUID) (m : gmap UUID A) (u : UUID) :
  deleteAll ids m !! u = if decide (u ∈ ids) then None else m !! u.
Proof.
  revert m. induction ids as [|id ids IH]; intros m; [done|]. unfold deleteAll in *. cbn [foldl]. rewrite IH.
  destruct (decide (u = id)) as [->|Hne].
  - rewrite lookup_delete_eq, (decide_True (P := id ∈ id :: ids)) by by left. by case_decide.
  - rewrite lookup_delete_ne by done. do 2 case_decide; set_solver.
Qed.

Lemma batchOf_all (l : list (UUID * bytes)) (m : gmap UUID bytes) :
  NoDup l.*1 → (∀ u d, (u, d) ∈ l → m !! u = Some d) → batchOf l.*1 m = l.
Proof.
  revert m. induction l as [|[u d] l IH]; intros m Hn Hm; [done|].
  apply list.NoDup_cons in Hn as [Hu Hn]. cbn [fmap list_fmap batchOf fst].
  rewrite (Hm u d) by by left. simpl. f_equal. apply IH; [done|]. intros u' d' Hin.
  rewrite lookup_delete_ne; [by apply Hm; right|]. intros <-. apply Hu, list_elem_of_fmap. by exists (u, d').
Qed.

(** *** Specification: the open transactions with their data, in order *)
Notation pend := (gmap string (list (UUID * bytes))).

Inductive tbop : Type :=
  | TAdd (now1 now2 : Z) (tx : string) (u : UUID) (d : bytes)
  | TPatch (u : UUID) (deliveryTime : Z)
  | TCommit (now : Z) (tx : string)
  | TRollback (now : Z) (tx : string)
  | TRestart (now : Z).

Definition patch_if (u : UUID) (t : Z) (ud : UUID * bytes) : UUID * bytes :=
  if decide (ud.1 = u) then (ud.1, patchDeliveryTimeInBytes t ud.2) else ud.
Definition spec_pend (p : pend) (o : tbop) : pend :=
  match o with
  | TAdd _ _ tx u d => <[tx := default [] (p !! tx) ++ [(u, d)]]> p
  | TPatch u t => (λ l : list (UUID * bytes), patch_if u t <$> l) <$> p
  | TCommit _ tx | TRollback _ tx => delete tx p
  | TRestart _ => ∅
  end.
(** What an operation hands to the storage. *)
Definition spec_batch (p : pend) (o : tbop) : list (UUID * bytes) :=
  match o with TCommit _ tx => default [] (p !! tx) | _ => [] end.
Definition buffered (p : pend) (u : UUID) : Prop := ∃ tx l, p !! tx = Some l ∧ u ∈ l.*1.
Lemma buffered_elem p u : buffered p u ↔ u ∈ map_to_list p ≫= λ tl, tl.2.*1.
Proof.
  rewrite list_elem_of_bind. split.
  - intros (tx & l & Hl & Hu). exists (tx, l). by rewrite elem_of_map_to_list.
  - intros ([tx l] & Hu & Hin). apply elem_of_map_to_list in Hin. by exists tx, l.
Qed.
#[export] Instance buffered_dec p u : Decision (buffered p u).
Proof.
  destruct (decide (u ∈ map_to_list p ≫= λ tl, tl.2.*1)) as [H|H];
    [left|right]; by rewrite buffered_elem.
Defined.
Definition tbop_ok (p : pend) (o : tbop) : Prop :=
  match o with
  | TAdd _ _ tx u _ => field tx ∧ length u = 16%nat ∧ ¬ buffered p u
  | _ => True
  end.

(** A message id is buffered once. *)
Definition unique (p : pend) : Prop :=
  ∀ tx l, p !! tx = Some l → NoDup l.*1 ∧
    ∀ tx' l' u, p !! tx' = Some l' → u ∈ l.*1 → u ∈ l'.*1 → tx = tx'.
Record tb_holds (b : TB) (p : pend) : Prop := {
  tbh_messages : transactionMessages b = (λ l : list (UUID * bytes), l.*1) <$> p;
  tbh_data : ∀ u d, bufferedData b !! u = Some d ↔ ∃ tx l, p !! tx = Some l ∧ (u, d) ∈ l;
  tbh_unique : unique p
}.

Lemma unique_delete p tx : unique p → unique (delete tx p).
Proof.
  intros H t l [Ht Hl]%lookup_delete_Some. destruct (H t l Hl) as [H1 H2]. split; [done|].
  intros t' l' u [_ Hl']%lookup_delete_Some. by apply H2.
Qed.

(** Ending a transaction: its data leaves the buffer, the rest stays. *)
Lemma tb_holds_delete b p tx l mtt log opens :
  tb_holds b p → p !! tx = Some l →
  tb_holds (mkTB (delete tx (transactionMessages b)) mtt (deleteAll l.*1 (bufferedData b)) log opens) (delete tx p).
Proof.
  intros [H1 H2 H3] Hl. split; simpl.
  - by rewrite H1, fmap_delete.
  - intros u d. rewrite lookup_deleteAll. destruct (H3 tx l Hl) as [_ Hu]. case_decide as Hin.
    + split; [done|]. intros (t & l' & [Ht Hl']%lookup_delete_Some & Hin'). exfalso. apply Ht.
      apply (Hu t l' u Hl' Hin). apply list_elem_of_fmap. by exists (u, d).
    + rewrite H2. split; intros (t & l' & Hl' & Hin'); exists t, l'; (split; [|done]).
      * apply lookup_delete_Some. split; [|done]. intros <-. simplify_eq. apply Hin, list_elem_of_fmap. by exists (u, d).
      * by apply lookup_delete_Some in Hl' as [].
  - by apply unique_delete.
Qed.

Lemma unique_insert p tx u d :
  unique p → ¬ buffered p u → unique (<[tx := default [] (p !! tx) ++ [(u, d)]]> p).
Proof.
  intros H Hu t l Hl.
  assert (Hfresh : ∀ t l, p !! t = Some l → u ∉ l.*1) by (intros t' l' Hl' Hin; apply Hu; by exists t', l').
  assert (Hin : ∀ t l v, <[tx := default [] (p !! tx) ++ [(u, d)]]> p !! t = Some l → v ∈ l.*1 →
    (v = u ∧ t = tx) ∨ (v ≠ u ∧ ∃ l0, p !! t = Some l0 ∧ v ∈ l0.*1)).
  { intros t' l' v [[<- <-]|[Ht Hl']]%lookup_insert_Some Hv.
    - rewrite fmap_app, elem_of_app in Hv. destruct Hv as [Hv|Hv].
      + right. destruct (p !! tx) as [l0|] eqn:E; [|by apply not_elem_of_nil in Hv]. split; [|by exists l0].
        intros ->. by apply (Hfresh tx l0).
      + left. simpl in Hv. by apply list_elem_of_singleton in Hv.
    - right. split; [intros ->; by apply (Hfresh t' l')|by exists l']. }
  split.
  - apply lookup_insert_Some in Hl as [[<- <-]|[_ Hl]]; [|by apply (H t l)].
    rewrite fmap_app. apply list.NoDup_app. simpl. split_and!.
    + destruct (p !! tx) as [l0|] eqn:E; [by apply (H tx l0)|constructor].
    + intros v Hv ->%list_elem_of_singleton. destruct (p !! tx) as [l0|] eqn:E; [by apply (Hfresh tx l0)|by apply not_elem_of_nil in Hv].
    + apply NoDup_singleton.
  - intros t' l' v Hl' Hv Hv'. destruct (Hin t l v Hl Hv) as [[-> ->]|[Hne (l0 & E & Hv0)]];
      destruct (Hin t' l' _ Hl' Hv') as [[? ->]|[Hne' (l1 & E' & Hv1)]]; try done.
    by apply (proj2 (H t l0 E) t' l1 v).
Qed.

Section Refinement.
Context {T : PocoText} {U : PocoUUID} {TU : PocoTextOk T U}.
(** The iteration order of the unordered_map. *)
Context (order : gmap string (list UUID) → list string).
Context (Horder : ∀ m, order m ≡ₚ (map_to_list m).*1).

Definition do_tbop (o : tbop) : M TB (list (UUID * bytes)) :=
  match o with
  | TAdd now1 now2 tx u d => _ ← addMessage now1 now2 tx u d; mret []
  | TPatch u t => _ ← patchDeliveryTime u t; mret []
  | TCommit now tx => commitLocked now tx
  | TRollback now tx => _ ← rollbackTransaction now tx; mret []
  | TRestart now => _ ← restart order now; mret []
  end.

Lemma add_sim b p now1 now2 tx (u : UUID) d :
  tb_holds b p → log_ok b → field tx → length u = 16%nat → ¬ buffered p u →
  ∃ b', addMessage now1 now2 tx u d b = Ok tt b' ∧
    tb_holds b' (<[tx := default [] (p !! tx) ++ [(u, d)]]> p) ∧ log_ok b'.
Proof using TU.
  intros [H1 H2 H3] Hlog Htx Hu Hfresh.
  assert (Hbegin : ∃ b1, (match transactionMessages b !! tx with
      | None =>
          _ ← modify (λ b, set_transactionMessages (<[tx := []]> (transactionMessages b)) b);
          logOperation now1 "BEGIN" tx nullUUID
      | Some _ => mret tt
      end) b = Ok tt b1 ∧ log_ok b1 ∧ bufferedData b1 = bufferedData b ∧
      transactionMessages b1 = <[tx := default [] (transactionMessages b !! tx)]> (transactionMessages b)).
  { destruct (transactionMessages b !! tx) as [l|] eqn:Hl.
    - exists b. by rewrite insert_id.
    - set (b0 := set_transactionMessages (<[tx := []]> (transactionMessages b)) b).
      destruct (log_extend b b0 now1 "BEGIN" tx nullUUID Hlog) as (b1 & E1 & E2 & E3 & E4);
        [by left|done|done|done|done|].
      exists b1. split; [|by rewrite E3]. erewrite (bind_ok _ _ b tt b0); [exact E1|reflexivity]. }
  destruct Hbegin as (b1 & E1 & L1 & D1 & M1).
  pose (b2 := set_transactionMessages (alter (λ l, l ++ [u]) tx (transactionMessages b1))
    (set_messageToTransaction (<[u := tx]> (messageToTransaction b1))
      (set_bufferedData (<[u := d]> (bufferedData b1)) b1))).
  destruct (log_extend b1 b2 now2 "ADD" tx u L1) as (b3 & E2 & L3 & M3 & D3); [by right; left|done|done|done| |].
  { unfold lineEffect. simpl. by rewrite uuid_parse_toString. }
  exists b3. split.
  { unfold addMessage. rewrite (bind_ok get _ b b b eq_refl), (bind_ok _ _ _ _ _ E1). exact E2. }
  split; [|done].
  assert (Hd : default [] (transactionMessages b !! tx) = (default [] (p !! tx)).*1).
  { rewrite H1, lookup_fmap. by destruct (p !! tx). }
  split; [| |by apply unique_insert].
  - rewrite M3. simpl. rewrite M1, alter_insert_eq, Hd, H1, fmap_insert. by rewrite fmap_app.
  - intros u' d'. rewrite D3. simpl. rewrite D1, lookup_insert_Some, H2. split.
    + intros [[<- <-]|(Hne & t & l & Hl & Hin)].
      * eexists tx, _. split; [apply lookup_insert_eq|]. apply elem_of_app. right. by left.
      * destruct (decide (t = tx)) as [->|Ht].
        -- eexists tx, _. split; [apply lookup_insert_eq|]. rewrite Hl. apply elem_of_app. by left.
        -- exists t, l. by rewrite lookup_insert_ne.
    + assert (Hold : ∀ t l, p !! t = Some l → (u', d') ∈ l → u ≠ u').
      { intros t l Hl Hin ->. apply Hfresh. exists t, l. split; [done|]. apply list_elem_of_fmap. by exists (u', d'). }
      intros (t & l & [[<- <-]|[Ht Hl]]%lookup_insert_Some & Hin).
      * apply elem_of_app in Hin as [Hin|[= -> ->]%list_elem_of_singleton]; [|by left].
        destruct (p !! tx) as [l|] eqn:Hl; [|by apply not_elem_of_nil in Hin]. right. eauto 7.
      * right. eauto 7.
Qed.

Lemma end_sim b p tx l op now :
  tb_holds b p → log_ok b → p !! tx = Some l → op ∈ ["COMMIT"; "ROLLBACK"] → 
  ∀ mtt, let b1 := mkTB (transactionMessages b) mtt (deleteAll l.*1 (bufferedData b)) (transactionLog b) (logOpens b) in
  ∃ b2, (_ ← modify (λ b, set_transactionMessages (delete tx (transactionMessages b)) b);
         logOperation now op tx nullUUID) b1 = Ok tt b2 ∧ tb_holds b2 (delete tx p) ∧ log_ok b2.
Proof using TU.
  clear Horder order.
  intros Hb Hlog Hl Hop mtt b1.
  assert (Htx : field tx). { apply Hlog. rewrite (tbh_messages _ _ Hb), lookup_fmap, Hl. by eexists. }
  set (b2 := set_transactionMessages (delete tx (transactionMessages b1)) b1).
  assert (Hops : op ∈ operations ∧ op ≠ "BEGIN" ∧ op ≠ "ADD").
  { unfold operations. apply elem_of_cons in Hop as [->|Hop%list_elem_of_singleton]; [set_solver|].
    rewrite Hop. set_solver. }
  destruct Hops as (Ho1 & Ho2 & Ho3).
  destruct (log_extend b b2 now op tx nullUUID Hlog) as (b3 & E1 & E2 & E3 & E4); try done.
  { unfold lineEffect. by rewrite !decide_False. }
  exists b3. split; [erewrite (bind_ok _ _ b1 tt b2); [exact E1|reflexivity]|]. split; [|done].
  pose proof (tb_holds_delete b p tx l mtt (transactionLog b) (logOpens b) Hb Hl) as [K1 K2 K3].
  split; [by rewrite E3| |done]. intros u d. rewrite E4. apply K2.
Qed.

Lemma patched_ids u t (l : list (UUID * bytes)) : (patch_if u t <$> l).*1 = l.*1.
Proof. rewrite <-list_fmap_compose. apply list_fmap_ext. intros _ ud _. unfold patch_if. simpl. by case_decide. Qed.

Lemma patch_sim b p u t :
  tb_holds b p → log_ok b →
  ∃ b', patchDeliveryTime u t b = Ok tt b' ∧ tb_holds b' (spec_pend p (TPatch u t)) ∧ log_ok b'.
Proof using TU.
  intros [H1 H2 H3] Hlog. eexists. split; [done|]. split; [|done]. split; simpl.
  - rewrite H1. apply map_eq. intros tx. rewrite !lookup_fmap. destruct (p !! tx) as [l|]; [|done].
    cbn [fmap option_fmap option_map]. by rewrite patched_ids.
  - intros u' d'. rewrite lookup_alter. setoid_rewrite lookup_fmap. split.
    + intros Hd. case_decide as Hu.
      * subst u'. apply fmap_Some in Hd as (d & Hd & ->). apply H2 in Hd as (tx & l & Hl & Hin).
        exists tx, (patch_if u t <$> l). rewrite Hl. split; [done|]. apply list_elem_of_fmap. exists (u, d).
        split; [|done]. unfold patch_if. simpl. by rewrite decide_True.
      * apply H2 in Hd as (tx & l & Hl & Hin). exists tx, (patch_if u t <$> l). rewrite Hl. split; [done|].
        apply list_elem_of_fmap. exists (u', d'). split; [|done]. unfold patch_if. simpl. by rewrite decide_False.
    + intros (tx & l & Hl & Hin). apply fmap_Some in Hl as (l0 & Hl & ->).
      apply list_elem_of_fmap in Hin as ([v e] & Hp & Hin). unfold patch_if in Hp. simpl in Hp.
      assert (Hv : bufferedData b !! v = Some e) by (apply H2; eauto).
      destruct (decide (v = u)) as [Hvu|Hvu]; injection Hp as -> ->.
      * rewrite decide_True by done. by rewrite Hvu, Hv in *.
      * rewrite decide_False by done. done.
  - intros tx l Hl. rewrite lookup_fmap in Hl. apply fmap_Some in Hl as (l0 & Hl & ->). rewrite patched_ids.
    destruct (H3 tx l0 Hl) as [N1 N2]. split; [done|]. intros tx' l' v Hl'.
    rewrite lookup_fmap in Hl'. apply fmap_Some in Hl' as (l1 & Hl1 & ->). rewrite patched_ids. by apply N2.
Qed.

Lemma commit_sim b p now tx :
  tb_holds b p → log_ok b →
  ∃ b', commitLocked now tx b = Ok (default [] (p !! tx)) b' ∧ tb_holds b' (delete tx p) ∧ log_ok b'.
Proof using TU.
  intros Hb Hlog. pose proof Hb as [H1 H2 H3]. unfold commitLocked. rewrite (bind_ok get _ b b b eq_refl).
  rewrite H1, lookup_fmap. destruct (p !! tx) as [l|] eqn:Hl; simpl.
  - destruct (takeBatch_run l.*1 b) as [mtt Ht].
    rewrite batchOf_all in Ht; [|by apply (H3 tx l)|intros u d Hin; apply H2; eauto].
    rewrite (bind_ok _ _ _ _ _ Ht).
    destruct (end_sim b p tx l "COMMIT" now Hb Hlog Hl ltac:(by left) mtt) as (b2 & E1 & E2 & E3).
    exists b2. split; [|done]. revert E1. rewrite !(bind_ok (modify _) _ _ _ _ eq_refl). intros E1.
    by rewrite (bind_ok _ _ _ _ _ E1).
  - exists b. by rewrite delete_id.
Qed.

Lemma rollback_sim b p now tx :
  tb_holds b p → log_ok b →
  ∃ b', rollbackTransaction now tx b = Ok tt b' ∧ tb_holds b' (delete tx p) ∧ log_ok b'.
Proof using TU.
  intros Hb Hlog. pose proof Hb as [H1 H2 H3]. unfold rollbackTransaction. rewrite (bind_ok get _ b b b eq_refl).
  rewrite H1, lookup_fmap. destruct (p !! tx) as [l|] eqn:Hl; simpl.
  - destruct (end_sim b p tx l "ROLLBACK" now Hb Hlog Hl ltac:(by right; left) (deleteAll l.*1 (messageToTransaction b))) as (b2 & E1 & E2 & E3).
    exists b2. split; [|done]. by rewrite (bind_ok _ _ _ _ _ (dropIds_run l.*1 b)).
  - exists b. by rewrite delete_id.
Qed.

(** The loop of recover. *)
Lemma recover_loop now l b :
  log_ok b → (∀ tx, tx ∈ l → is_Some (transactionMessages b !! tx)) → NoDup l → bufferedData b = ∅ →
  ∃ b', for_each (λ tx,
    b ← get;
    _ ← match transactionMessages b !! tx with
        | Some ids =>
            _ ← dropIds ids;
            modify (λ b, set_transactionMessages (delete tx (transactionMessages b)) b)
        | None => mret tt
        end;
    logOperation now "ROLLBACK" tx nullUUID) l b = Ok tt b' ∧
  log_ok b' ∧ bufferedData b' = ∅ ∧
  ∀ tx, transactionMessages b' !! tx = if decide (tx ∈ l) then None else transactionMessages b !! tx.
Proof.
  revert b. induction l as [|tx l IH]; intros b Hlog Hl Hnd Hbuf; [by exists b|].
  apply list.NoDup_cons in Hnd as [Htx Hnd]. destruct (Hl tx ltac:(by left)) as [ids Hids].
  set (b1 := mkTB (delete tx (transactionMessages b)) (deleteAll ids (messageToTransaction b))
    (deleteAll ids (bufferedData b)) (transactionLog b) (logOpens b)).
  assert (Hf : field tx) by (apply Hlog; by rewrite Hids).
  destruct (log_extend b b1 now "ROLLBACK" tx nullUUID Hlog) as (b2 & E1 & E2 & E3 & E4); try done.
  { by do 3 right; left. }
  destruct (IH b2 E2) as (b' & I1 & I2 & I3 & I4); [|done| |].
  { intros t Ht. rewrite E3. simpl. rewrite lookup_delete_ne by set_solver. apply Hl. by right. }
  { rewrite E4. simpl. rewrite Hbuf. apply map_eq. intros u. rewrite lookup_deleteAll, lookup_empty. by case_decide. }
  exists b'. split.
  { cbn [for_each]. rewrite <-I1.
    erewrite bind_ok; [done|]. rewrite (bind_ok get _ b b b eq_refl), Hids.
    erewrite (bind_ok _ _ b tt b1); [exact E1|]. by rewrite (bind_ok _ _ _ _ _ (dropIds_run ids b)). }
  split; [done|]. split; [done|]. intros t. rewrite I4, E3. simpl.
  destruct (decide (t = tx)) as [->|Hne].
  - rewrite lookup_delete_eq, (decide_True (P := tx ∈ tx :: l)) by by left. by case_decide.
  - rewrite lookup_delete_ne by done. do 2 case_decide; set_solver.
Qed.

Lemma restart_sim b now :
  log_ok b → ∃ b', restart order now b = Ok tt b' ∧ tb_holds b' ∅ ∧ log_ok b'.
Proof.
  intros Hlog. destruct (log_ok_load b Hlog) as (b1 & E1 & E2 & E3 & E4 & E5).
  assert (Hlog1 : log_ok b1).
  { destruct Hlog as (H1 & H2 & ls & H3 & H4 & H5). split; [done|]. split; [by rewrite E2|].
    exists ls. by rewrite E4, E2. }
  unfold restart, recover. rewrite (bind_ok _ _ _ _ _ E1), (bind_ok get _ b1 b1 b1 eq_refl).
  destruct (recover_loop now (order (transactionMessages b1)) b1 Hlog1) as (b' & I1 & I2 & I3 & I4).
  - intros tx. rewrite Horder. by rewrite elem_of_keys.
  - rewrite Horder. apply NoDup_fst_map_to_list.
  - done.
  - exists b'. split; [done|]. split; [|done]. split.
    + rewrite fmap_empty. apply map_eq. intros tx. rewrite I4, lookup_empty. case_decide as Hin; [done|].
      destruct (transactionMessages b1 !! tx) as [l|] eqn:Ht; [|done]. exfalso. apply Hin. rewrite Horder.
      apply elem_of_keys. by exists l.
    + intros u d. rewrite I3. setoid_rewrite lookup_empty. split; [done|]. by intros (? & ? & ? & _).
    + intros tx l. by rewrite lookup_empty.
Qed.

Lemma tbop_sim o b p :
  tb_holds b p → log_ok b → tbop_ok p o →
  ∃ b', do_tbop o b = Ok (spec_batch p o) b' ∧ tb_holds b' (spec_pend p o) ∧ log_ok b'.
Proof.
  intros Hb Hlog Ho. destruct o as [now1 now2 tx u d|u t|now tx|now tx|now]; simpl in *.
  - destruct Ho as (H1 & H2 & H3). destruct (add_sim b p now1 now2 tx u d Hb Hlog H1 H2 H3) as (b' & E & ?).
    exists b'. by rewrite (bind_ok _ _ _ _ _ E).
  - destruct (patch_sim b p u t Hb Hlog) as (b' & E & ?). exists b'. by rewrite (bind_ok _ _ _ _ _ E).
  - by apply commit_sim.
  - destruct (rollback_sim b p now tx Hb Hlog) as (b' & E & ?). exists b'. by rewrite (bind_ok _ _ _ _ _ E).
  - destruct (restart_sim b now Hlog) as (b' & E & ?). exists b'. by rewrite (bind_ok _ _ _ _ _ E).
Qed.

(** *** Runs *)
Fixpoint runTb (os : list tbop) : M TB (list (list (UUID * bytes))) :=
  match os with
  | [] => mret []
  | o :: os => r ← do_tbop o; rs ← runTb os; mret (r :: rs)
  end.
Fixpoint tbops_ok (p : pend) (os : list tbop) : Prop :=
  match os with [] => True | o :: os => tbop_ok p o ∧ tbops_ok (spec_pend p o) os end.
Fixpoint spec_batches (p : pend) (os : list tbop) : list (list (UUID * bytes)) :=
  match os with [] => [] | o :: os => spec_batch p o :: spec_batches (spec_pend p o) os end.
Definition spec_final (p : pend) (os : list tbop) : pend := foldl spec_pend p os.

Lemma runTb_sim os b p :
  tb_holds b p → log_ok b → tbops_ok p os →
  ∃ b', runTb os b = Ok (spec_batches p os) b' ∧ tb_holds b' (spec_final p os) ∧ log_ok b'.
Proof.
  revert b p. induction os as [|o os IH]; intros b p Hb Hlog Hok; [by exists b|]. destruct Hok as [Ho Hos].
  destruct (tbop_sim o b p Hb Hlog Ho) as (b1 & E1 & Hb1 & L1). destruct (IH b1 _ Hb1 L1 Hos) as (b2 & E2 & ?).
  exists b2. split; [|done]. cbn [runTb]. by rewrite (bind_ok _ _ _ _ _ E1), (bind_ok _ _ _ _ _ E2).
Qed.

Lemma fresh_ok : tb_holds (freshTB true "") ∅ ∧ log_ok (freshTB true "").
Proof.
  split; [split|].
  - by rewrite fmap_empty.
  - intros u d. setoid_rewrite lookup_empty. split; [done|]. by intros (? & ? & ? & _).
  - intros tx l. by rewrite lookup_empty.
  - split; [done|]. split; [intros tx [? Hx]; simpl in Hx; by rewrite lookup_empty in Hx|]. by exists [].
Qed.

(** C7. The buffer implements the open transactions: for every sequence of
    additions (of messages not already buffered), delivery-time patches, commits,
    rollbacks and restarts, and every order in which the map is iterated, every call
    returns, a commit hands over exactly the data of its own transaction, patched,
    in the order of addition, and every other call hands over nothing; what a
    transaction that was rolled back or was open at a restart had buffered is never
    handed over. *)
Theorem transactions_refine os :
  tbops_ok ∅ os →
  ∃ b, runTb os (freshTB true "") = Ok (spec_batches ∅ os) b ∧ tb_holds b (spec_final ∅ os).
Proof. intros Hos. destruct fresh_ok as [H1 H2]. destruct (runTb_sim os _ _ H1 H2 Hos) as (b & ? & ? & _). by exists b. Qed.

(** C21. The log is enough to recover: after every such sequence, reading the log
    back gives exactly the transactions that are open, with the ids of their
    messages in order. *)
Theorem log_tells_open_transactions os :
  tbops_ok ∅ os →
  ∃ rs b b', runTb os (freshTB true "") = Ok rs b ∧ loadTransactionLog b = Ok tt b' ∧
    transactionMessages b' = (λ l : list (UUID * bytes), l.*1) <$> spec_final ∅ os.
Proof.
  intros Hos. destruct fresh_ok as [H1 H2]. destruct (runTb_sim os _ _ H1 H2 Hos) as (b & E1 & H3 & H4).
  destruct (log_ok_load b H4) as (b' & E2 & H5 & _). exists (spec_batches ∅ os), b, b'. split; [exact E1|]. split; [exact E2|].
  rewrite H5. by apply tbh_messages.
Qed.

(** The process dies: what survives is the log. *)
Definition crashed (b : TB) : TB := freshTB (logOpens b) (transactionLog b).

(** A crash inside a commit loses the transaction: commitTransaction writes its
    COMMIT line before it hands the data to the storage, so after a crash between the
    two the log no longer lists the transaction, the restart rolls nothing back, and
    its data is neither in the storage, which was not called yet, nor in the buffer. *)
Theorem commit_crash_loses b p now now' tx l :
  tb_holds b p → log_ok b → p !! tx = Some l →
  ∃ b1 b2, commitLocked now tx b = Ok l b1 ∧ loadTransactionLog (crashed b1) = Ok tt b2 ∧
    transactionMessages b2 !! tx = None ∧
    ∃ b3, restart order now' (crashed b1) = Ok tt b3 ∧ bufferedData b3 = ∅.
Proof.
  intros Hb Hlog Hl. destruct (commit_sim b p now tx Hb Hlog) as (b1 & E1 & Hb1 & L1). rewrite Hl in E1.
  destruct (log_ok_load b1 L1) as (b2 & E2 & M2 & D2 & T2 & O2).
  exists b1, b2. split; [done|]. split; [exact E2|]. split.
  - rewrite M2, (tbh_messages _ _ Hb1), lookup_fmap, lookup_delete_eq. done.
  - destruct (restart_sim b1 now' L1) as (b3 & E3 & Hb3 & _). exists b3. split; [exact E3|].
    apply map_eq. intros u. rewrite lookup_empty. destruct (bufferedData b3 !! u) as [d|] eqn:Hu; [|done].
    apply (tbh_data _ _ Hb3) in Hu as (tx' & l' & Hl' & _). by rewrite lookup_empty in Hl'.
Qed.

(** TransactionBuffer::commitTransaction, with the storage worker it hands the
    batch to. *)
Definition commitTransaction (now : Z) (transactionId : string) : M (TB * Storage) unit := λ '(b, s),
  match commitLocked now transactionId b with
  | Ok batch b' =>
      match cls_appendBatch keyOrder batch s with
      | Ok _ s' => Ok tt (b', s')
      | Exn e s' => Exn e (b', s')
      | UB => UB
      end
  | Exn e b' => Exn e (b', s)
  | UB => UB
  end.

Lemma appends_sim (l : list (UUID * bytes)) (s : Storage) (m : gmap bytes bytes) n :
  holds s m n → sops_ok m n ((λ ud, SAppend ud.1 ud.2) <$> l) →
  ∃ s' n', for_each (λ '(uuid, data), _ ← storage_append uuid data; mret tt) l s = Ok tt s' ∧
    holds s' (foldl (λ m ud, <[ud.1 := ud.2]> m) m l) n'.
Proof using TU.
  revert s m n. induction l as [|[u d] l IH]; intros s m n Hs Hok; [by exists s, n|].
  destruct Hok as (n1 & Ho & Hos).
  destruct (sop_sim keyOrder (λ _, reflexivity _) _ s m n n1 Hs Ho) as (r & s1 & m1 & E1 & E2 & Hs1).
  simpl in E2. destruct E2 as [-> ->]. destruct (IH s1 _ n1 Hs1 Hos) as (s2 & n2 & E3 & Hs2). exists s2, n2.
  split; [|done]. cbn [for_each].
  assert (Ea : (_ ← storage_append u d; mret tt) s = Ok tt s1).
  { revert E1. cbn [do_sop fst snd]. unfold mbind, M_bind. by destruct (storage_append u d s); intros [=]; subst. }
  by rewrite (bind_ok _ _ _ _ _ Ea).
Qed.

(** Committing persists the whole transaction: when the storage holds the map
    [m] and can take the transaction's records, a commit returns with a storage that
    holds [m] with exactly those records added, and with the other open transactions
    untouched. *)
Theorem commit_persists b p (now : Z) (tx : string) (s : Storage) (m : gmap bytes bytes) n :
  tb_holds b p → log_ok b → holds s m n →
  sops_ok m n ((λ ud, SAppend ud.1 ud.2) <$> default [] (p !! tx)) →
  ∃ b' s' n', commitTransaction now tx (b, s) = Ok tt (b', s') ∧ tb_holds b' (delete tx p) ∧
    holds s' (foldl (λ m ud, <[ud.1 := ud.2]> m) m (default [] (p !! tx))) n'.
Proof using TU.
  intros Hb Hlog Hs Hok. destruct (commit_sim b p now tx Hb Hlog) as (b' & E1 & Hb' & _).
  unfold commitTransaction. rewrite E1. destruct (default [] (p !! tx)) as [|ud l] eqn:Hl.
  - by exists b', s, n.
  - destruct (appends_sim (ud :: l) s m n Hs Hok) as (s' & n' & E2 & Hs').
    exists b', s', n'. split; [|done]. unfold cls_appendBatch, dispatch, catch.
    assert (E : perform keyOrder (APPEND_BATCH (ud :: l)) s = Ok (posted (APPEND_BATCH (ud :: l))) s').
    { unfold perform. by rewrite (bind_ok _ _ _ _ _ E2). }
    unfold mbind, M_bind. by rewrite E.
Qed.
End Refinement.

(** *** An instance *)
Definition nibble (n : nat) : ascii := ascii_of_nat (if (n <? 10)%nat then 48 + n else 87 + n).
Definition byte_hex (b : Byte.byte) : list ascii :=
  let n := Z.to_nat (byte.unsigned b) in [nibble (n / 16); nibble (n mod 16)].
Definition unnibble (a : ascii) : nat := let n := nat_of_ascii a in if (n <? 58)%nat then n - 48 else n - 87.
Fixpoint unhex (l : list ascii) : bytes :=
  match l with
  | a :: b :: l => byte.of_Z (Z.of_nat (16 * unnibble a + unnibble b)) :: unhex l
  | _ => []
  end.
#[local] Instance hex_uuid : PocoUUID := {|
  uuid_toString u := String.string_of_list_ascii (u ≫= byte_hex);
  uuid_parse s := Some (unhex (String.list_ascii_of_string s))
|}.
#[local] Instance split_text : PocoText := {|
  formatTime _ := "2025-12-30 10:00:00.000";
  tokenize := split_on bar
|}.

Lemma byte_hex_ok b : Forall (λ a, a ≠ bar ∧ is_space a = false) (byte_hex b) ∧
  ∀ l, unhex (byte_hex b ++ l) = b :: unhex l.
Proof. destruct b; (split; [by repeat constructor|done]). Qed.

Lemma split_concat l : l ≠ [] → Forall field l → split_on bar (String.concat "|" l) = l.
Proof.
  intros Hn Hl. induction Hl as [|s l Hs Hl IH]; [done|].
  assert (Hbar : Forall (λ a, a ≠ bar) (chars s)).
  { destruct Hs as [Hs _]. eapply Forall_impl; [|exact Hs]. by intros a []. }
  destruct l as [|s' l]; [by apply split_on_none|].
  change (String.concat "|" (s :: s' :: l)) with (s +:+ String bar (String.concat "|" (s' :: l))).
  rewrite split_on_app, IH by done. by rewrite (split_on_none bar s).
Qed.

#[local] Instance split_text_ok : PocoTextOk split_text hex_uuid.
Proof.
  split; simpl.
  - intros _. split; by repeat constructor.
  - apply split_concat.
  - intros u. unfold word, chars. rewrite String.list_ascii_of_string_of_list_ascii.
    induction u as [|b u IH]; [constructor|]. apply Forall_app. split; [apply byte_hex_ok|done].
  - intros u _. f_equal. rewrite String.list_ascii_of_string_of_list_ascii.
    induction u as [|b u IH]; [done|].
    change (unhex (byte_hex b ++ (u ≫= byte_hex)) = b :: u). by rewrite (proj2 (byte_hex_ok b)), IH.
Qed.

Definition mapOrder (m : gmap string (list UUID)) : list string := (map_to_list m).*1.
Definition txid (n : nat) : UUID := replicate 16 (byte.of_Z (Z.of_nat n)).
Definition sampleTbops : list tbop :=
  [TAdd 0 0 "t1" (txid 1) [Byte.x01]; TAdd 0 0 "t2" (txid 2) [Byte.x02]; TAdd 0 0 "t1" (txid 3) [Byte.x03];
   TCommit 0 "t1"; TAdd 0 0 "t3" (txid 4) [Byte.x04]; TRollback 0 "t3"].

Lemma sampleTbops_ok : tbops_ok ∅ sampleTbops.
Proof.
  assert (Hf : field "t1" ∧ field "t2" ∧ field "t3") by (split_and!; split; by repeat constructor).
  destruct Hf as (F1 & F2 & F3). unfold sampleTbops. cbn [tbops_ok tbop_ok].
  split_and!; try done; apply (bool_decide_unpack _); by vm_compute.
Qed.

Lemma transactions_refine_witness :
  ∃ b, runTb mapOrder sampleTbops (freshTB true "")
    = Ok [[]; []; []; [(txid 1, [Byte.x01]); (txid 3, [Byte.x03])]; []; []] b ∧
  tb_holds b (spec_final ∅ sampleTbops).
Proof. exact (transactions_refine mapOrder (λ _, reflexivity _) sampleTbops sampleTbops_ok). Defined.

Lemma log_tells_open_transactions_witness :
  ∃ rs b b', runTb mapOrder sampleTbops (freshTB true "") = Ok rs b ∧ loadTransactionLog b = Ok tt b' ∧
    transactionMessages b' = {["t2" := [txid 2]]}.
Proof.
  destruct (log_tells_open_transactions mapOrder (λ _, reflexivity _) sampleTbops sampleTbops_ok)
    as (rs & b & b' & H1 & H2 & H3).
  exists rs, b, b'. split; [exact H1|]. split; [exact H2|]. rewrite H3. by vm_compute.
Defined.

(** One transaction with one record. *)
Definition onePend : gmap string (list (UUID * bytes)) := {["t1" := [(txid 1, [Byte.x01])]]}.
Lemma one_open : ∃ b, addMessage 0 0 "t1" (txid 1) [Byte.x01] (freshTB true "") = Ok tt b ∧
  tb_holds b onePend ∧ log_ok b.
Proof.
  destruct fresh_ok as [H1 H2]. apply (add_sim _ _ 0 0 "t1" (txid 1) [Byte.x01] H1 H2).
  - split; by repeat constructor.
  - done.
  - apply (bool_decide_unpack _). by vm_compute.
Qed.

Lemma commit_crash_loses_witness :
  ∃ b b1 b2, commitLocked 0 "t1" b = Ok [(txid 1, [Byte.x01])] b1 ∧
    loadTransactionLog (crashed b1) = Ok tt b2 ∧ transactionMessages b2 !! "t1" = None.
Proof.
  destruct one_open as (b & _ & H1 & H2).
  destruct (commit_crash_loses mapOrder (λ _, reflexivity _) b onePend 0 0 "t1" _ H1 H2 eq_refl)
    as (b1 & b2 & H3 & H4 & H5 & _).
  exists b, b1, b2. split; [exact H3|]. split; [exact H4|exact H5].
Defined.

Lemma commit_persists_witness :
  ∃ b b' s' n', commitTransaction 0 "t1" (b, openStorage ∅) = Ok tt (b', s') ∧
    tb_holds b' ∅ ∧ holds s' {[txid 1 := [Byte.x01]]} n'.
Proof.
  destruct one_open as (b & _ & H1 & H2).
  destruct (commit_persists b onePend 0 "t1" (openStorage ∅) ∅ 0 H1 H2 holds_empty)
    as (b' & s' & n' & H3 & H4 & H5).
  { cbn. eexists. split; [|done]. split; [by split|]. split; [done|]. split; [done|]. split; [done|by vm_compute]. }
  exists b, b', s', n'. split; [exact H3|]. split; [exact H4|exact H5].
Defined.
