(* ===== verification/InFlight.v ===== *)
(** Message::InFlightLink and the chains threaded through it (Message.h,
    Consumer.cpp): the messages a consumer has delivered and not yet seen
    acknowledged, as a doubly linked list whose links live in the messages.

    A message is named by its address and a consumer by its identity; a copied or
    moved message has an empty link, so links belong to addresses and not to message
    values. Shared ownership only keeps messages alive here, which the store does. *)
From S2P Require Import Prelude.
From Stdlib Require Import Lia ZifyBool.
Local Open Scope nat_scope.

Record Link : Type := mkLink { next : option nat; prev : option nat; owner : option nat }.
Definition emptyLink : Link := mkLink None None None.
Definition set_next x (l : Link) := mkLink x (prev l) (owner l).
Definition set_prev x (l : Link) := mkLink (next l) x (owner l).
Definition set_owner x (l : Link) := mkLink (next l) (prev l) x.

(** The links of all messages, and each consumer's _inFlightHead and _inFlightTail. *)
Record chains : Type := mkChains { links : gmap nat Link; ends : gmap nat (option nat * option nat) }.
Definition link_of (s : chains) (p : nat) : Link := default emptyLink (links s !! p).
Definition head_of (s : chains) (c : nat) : option nat := (default (None, None) (ends s !! c)).1.
Definition tail_of (s : chains) (c : nat) : option nat := (default (None, None) (ends s !! c)).2.
Definition upd_link (p : nat) (f : Link → Link) (s : chains) : chains :=
  mkChains (<[p := f (link_of s p)]> (links s)) (ends s).
Definition set_head (c : nat) (x : option nat) (s : chains) : chains :=
  mkChains (links s) (<[c := (x, tail_of s c)]> (ends s)).
Definition set_tail (c : nat) (x : option nat) (s : chains) : chains :=
  mkChains (links s) (<[c := (head_of s c, x)]> (ends s)).

(** recv(): append [p] to the chain of consumer [c]. *)
Definition link (c p : nat) (s : chains) : chains :=
  let s1 := match tail_of s c with
            | Some t => upd_link p (set_prev (Some t)) (upd_link t (set_next (Some p)) s)
            | None => set_head c (Some p) (upd_link p (set_prev None) s)
            end in
  upd_link p (set_owner (Some c)) (set_tail c (Some p) s1).

(** acknowledgeOn(): splice [p] out of the chain of [c], if it is in it. *)
Definition unlink (c p : nat) (s : chains) : chains :=
  let l := link_of s p in
  if decide (owner l = Some c) then
    let s1 := upd_link p (set_next None) s in                       (* the move out of next *)
    let s2 := match prev l with
              | Some q => upd_link q (set_next (next l)) s1
              | None => set_head c (next l) s1
              end in
    let s3 := match next l with
              | Some n => upd_link n (set_prev (prev l)) s2
              | None => set_tail c (prev l) s2
              end in
    upd_link p (set_owner None) (upd_link p (set_prev None) s3)
  else s.

(** recover() and clearInFlight(): the chain is detached, then each node's link is
    cleared before [body] runs on it. *)
Definition detach (c : nat) (s : chains) : option nat * chains := (head_of s c, set_tail c None (set_head c None s)).
Definition extract (p : nat) (s : chains) : option nat * chains :=
  (next (link_of s p), upd_link p (set_owner None) (upd_link p (set_prev None) (upd_link p (set_next None) s))).

Section Drain.
Context {S : Type} (getC : S → chains) (setC : chains → S → S) (body : nat → M S unit).
(** [None] : the fuel ran out. *)
Fixpoint drain (fuel : nat) (node : option nat) : M S (option unit) :=
  match node with
  | None => mret (Some tt)
  | Some p =>
      match fuel with
      | O => mret None
      | Datatypes.S fuel =>
          s ← get;
          let '(n, ch) := extract p (getC s) in
          _ ← put (setC ch s);
          _ ← body p;
          drain fuel n
      end
  end.
Definition drainAll (fuel : nat) (c : nat) : M S (option unit) :=
  s ← get;
  let '(node, ch) := detach c (getC s) in
  _ ← put (setC ch s);
  drain fuel node.
End Drain.

(** *** Specification: what a chain is *)

Definition before_at (l : list nat) (i : nat) : option nat := match i with O => None | S i => l !! i end.
(** The chains are the lists [L]. *)
Record chained (s : chains) (L : nat → list nat) : Prop := {
  ch_link : ∀ c i p, L c !! i = Some p → link_of s p = mkLink (L c !! S i) (before_at (L c) i) (Some c);
  ch_free : ∀ p, (∀ c, p ∉ L c) → link_of s p = emptyLink;
  ch_head : ∀ c, head_of s c = L c !! 0;
  ch_tail : ∀ c, tail_of s c = before_at (L c) (length (L c));
  ch_nodup : ∀ c, NoDup (L c)
}.
Definition upd_list (L : nat → list nat) (c : nat) (l : list nat) (c' : nat) : list nat :=
  if decide (c' = c) then l else L c'.

Lemma upd_list_eq L c l : upd_list L c l c = l.
Proof. unfold upd_list. by rewrite decide_True. Qed.
Lemma upd_list_ne L c l c' : c' ≠ c → upd_list L c l c' = L c'.
Proof. intros H. unfold upd_list. by rewrite decide_False. Qed.

Lemma link_of_upd s p f q : link_of (upd_link p f s) q = if decide (q = p) then f (link_of s p) else link_of s q.
Proof.
  unfold link_of at 1, upd_link. simpl. case_decide as H; [subst; by rewrite lookup_insert_eq|].
  by rewrite lookup_insert_ne.
Qed.
Lemma link_of_head s c x q : link_of (set_head c x s) q = link_of s q.
Proof. done. Qed.
Lemma link_of_tail s c x q : link_of (set_tail c x s) q = link_of s q.
Proof. done. Qed.
Lemma head_of_upd s p f c : head_of (upd_link p f s) c = head_of s c.
Proof. done. Qed.
Lemma tail_of_upd s p f c : tail_of (upd_link p f s) c = tail_of s c.
Proof. done. Qed.
Lemma head_of_head s c x d : head_of (set_head c x s) d = if decide (d = c) then x else head_of s d.
Proof. unfold head_of, set_head. simpl. case_decide; subst; [by rewrite lookup_insert_eq|by rewrite lookup_insert_ne]. Qed.
Lemma tail_of_head s c x d : tail_of (set_head c x s) d = tail_of s d.
Proof.
  unfold tail_of, set_head. simpl. destruct (decide (d = c)) as [->|]; [by rewrite lookup_insert_eq|by rewrite lookup_insert_ne].
Qed.
Lemma tail_of_tail s c x d : tail_of (set_tail c x s) d = if decide (d = c) then x else tail_of s d.
Proof. unfold tail_of, set_tail. simpl. case_decide; subst; [by rewrite lookup_insert_eq|by rewrite lookup_insert_ne]. Qed.
Lemma head_of_tail s c x d : head_of (set_tail c x s) d = head_of s d.
Proof.
  unfold head_of, set_tail. simpl. destruct (decide (d = c)) as [->|]; [by rewrite lookup_insert_eq|by rewrite lookup_insert_ne].
Qed.
Ltac chain_simpl :=
  repeat first [rewrite link_of_upd | rewrite link_of_head | rewrite link_of_tail | rewrite head_of_upd
               | rewrite tail_of_upd | rewrite head_of_head | rewrite tail_of_head | rewrite tail_of_tail
               | rewrite head_of_tail].

Lemma chained_owner s L c p : chained s L → owner (link_of s p) = Some c ↔ p ∈ L c.
Proof.
  intros H. split.
  - intros Ho. destruct (decide (p ∈ L c)) as [|Hn]; [done|]. exfalso.
    destruct (links s !! p) as [l|] eqn:Hl; unfold link_of in Ho; rewrite Hl in Ho; [|done]. simpl in Ho.
    assert (∀ d, p ∈ L d → d = c) as Hd.
    { intros d (i & Hi)%list_elem_of_lookup. pose proof (ch_link _ _ H _ _ _ Hi) as E.
      unfold link_of in E. rewrite Hl in E. simpl in E. subst l. simpl in Ho. congruence. }
    pose proof (ch_free _ _ H p) as E. unfold link_of in E. rewrite Hl in E. simpl in E.
    rewrite E in Ho; [done|]. intros d Hin. apply Hn. by rewrite <-(Hd d Hin).
  - intros (i & Hi)%list_elem_of_lookup. by rewrite (ch_link _ _ H _ _ _ Hi).
Qed.
Lemma chained_disjoint s L c d p : chained s L → p ∈ L c → p ∈ L d → c = d.
Proof.
  intros H Hc Hd. apply (chained_owner s L c p H) in Hc. apply (chained_owner s L d p H) in Hd. congruence.
Qed.

(** *** Lists by index *)
Lemma before_at_app_l l1 l2 i : i <= length l1 → before_at (l1 ++ l2) i = before_at l1 i.
Proof. intros H. destruct i as [|i]; simpl; [done|]. by rewrite lookup_app_l by lia. Qed.
Lemma before_at_mid l1 p l2 i :
  before_at (l1 ++ p :: l2) (S i) =
  if decide (i < length l1) then l1 !! i else if decide (i = length l1) then Some p else l2 !! (i - S (length l1)).
Proof.
  simpl. case_decide; [by rewrite lookup_app_l|]. rewrite lookup_app_r by lia. case_decide as H2.
  - by replace (i - length l1) with 0 by lia.
  - by replace (i - length l1) with (S (i - S (length l1))) by lia.
Qed.
Lemma lookup_mid l1 (p : nat) l2 i :
  (l1 ++ p :: l2) !! i =
  if decide (i < length l1) then l1 !! i else if decide (i = length l1) then Some p else l2 !! (i - S (length l1)).
Proof. exact (before_at_mid l1 p l2 i). Qed.
Lemma NoDup_at (l : list nat) i j p : NoDup l → l !! i = Some p → l !! j = Some p → i = j.
Proof. intros H H1 H2. by apply (NoDup_lookup l i j p). Qed.

Lemma chained_length s L c p : chained s L → p ∈ L c → 0 < length (L c).
Proof. intros _ H. destruct (L c); [by apply not_elem_of_nil in H|simpl; lia]. Qed.

(** *** link *)
Section Link.
Context (s : chains) (L : nat → list nat) (c p : nat).
Context (H : chained s L) (Hp : ∀ d, p ∉ L d).

Lemma linked_ne d i q : L d !! i = Some q → q ≠ p.
Proof. intros Hq ->. apply (Hp d). by apply list_elem_of_lookup_2 with i. Qed.
Lemma tail_is_last i q : L c !! i = Some q → tail_of s c = Some q ↔ S i = length (L c).
Proof.
  intros Hq. rewrite (ch_tail _ _ H c). pose proof (lookup_lt_Some _ _ _ Hq) as Hlt.
  destruct (length (L c)) as [|m] eqn:E; [lia|]. simpl. split.
  - intros Hm. f_equal. by eapply NoDup_at; [apply H|exact Hq|exact Hm].
  - intros [= <-]. done.
Qed.
Lemma tail_in q : tail_of s c = Some q → q ∈ L c.
Proof.
  rewrite (ch_tail _ _ H c). destruct (length (L c)) as [|m]; [done|]. simpl. apply list_elem_of_lookup_2.
Qed.

Lemma link_link q :
  link_of (link c p s) q =
  if decide (q = p) then mkLink None (tail_of s c) (Some c)
  else if decide (tail_of s c = Some q) then set_next (Some p) (link_of s q) else link_of s q.
Proof.
  pose proof (ch_free _ _ H p Hp) as Hpl. unfold link. destruct (tail_of s c) as [t|] eqn:E; chain_simpl.
  - assert (t ≠ p) as Htp by (intros ->; by apply (Hp c), tail_in).
    repeat (case_decide; subst; try done); try congruence; by rewrite Hpl.
  - repeat (case_decide; subst; try done); by rewrite Hpl.
Qed.

Lemma link_ends d :
  head_of (link c p s) d = upd_list L c (L c ++ [p]) d !! 0 ∧
  tail_of (link c p s) d = before_at (upd_list L c (L c ++ [p]) d) (length (upd_list L c (L c ++ [p]) d)).
Proof.
  pose proof (ch_tail _ _ H c) as Ht. unfold upd_list, link.
  destruct (tail_of s c) as [t|] eqn:E; chain_simpl; case_decide as Hd; subst;
    rewrite ?length_app; rewrite ?Nat.add_1_r; rewrite ?(ch_head _ _ H), ?(ch_tail _ _ H); try done;
    (split; [|by rewrite before_at_mid, decide_False, decide_True by lia]); destruct (L c) as [|x l] eqn:El; try done.
  simpl in Ht. symmetry in Ht. apply lookup_ge_None in Ht. simpl in Ht. lia.
Qed.

(** The records of the chain itself, the new one included. *)
Lemma link_here i q :
  (L c ++ [p]) !! i = Some q →
  link_of (link c p s) q = mkLink ((L c ++ [p]) !! S i) (before_at (L c ++ [p]) i) (Some c).
Proof.
  intros Hq. rewrite link_link. remember (length (L c)) as n eqn:Hlen.
  rewrite lookup_mid, <-Hlen in Hq. rewrite lookup_mid, <-Hlen. destruct (decide (i < n)) as [Hi|Hi].
  - rewrite (decide_False (P := q = p)) by by eapply linked_ne. pose proof (tail_is_last i q Hq) as Hl.
    rewrite before_at_app_l by lia. rewrite (ch_link _ _ H _ _ _ Hq). case_decide as Htq.
    + apply Hl in Htq. rewrite (decide_False (P := S i < n)), decide_True by lia. done.
    + assert (S i ≠ n) by (rewrite Hlen; tauto). by rewrite decide_True by lia.
  - case_decide as Hin; [|done]. injection Hq as <-. rewrite decide_True by done.
    rewrite (decide_False (P := S i < n)), (decide_False (P := S i = n)), lookup_nil by lia. f_equal.
    rewrite (ch_tail _ _ H c), before_at_app_l by lia. by rewrite Hin, Hlen.
Qed.

Lemma link_spec : chained (link c p s) (upd_list L c (L c ++ [p])).
Proof.
  split; try by (intros d; apply link_ends).
  - intros d i q Hq. unfold upd_list in *. case_decide as Hd; [subst d; by apply link_here|].
    rewrite link_link, decide_False by by eapply linked_ne. rewrite decide_False; [by apply (ch_link _ _ H)|].
    intros Htq%tail_in. apply Hd. by apply (chained_disjoint s L d c q H); [eapply list_elem_of_lookup_2|].
  - intros q Hq. rewrite link_link.
    assert (Hqc : q ∉ L c ++ [p]) by (pose proof (Hq c) as Hqc; by rewrite upd_list_eq in Hqc).
    assert (Hq' : ∀ d, q ∉ L d).
    { intros d. destruct (decide (d = c)) as [->|Hne]; [set_solver|]. specialize (Hq d). by rewrite upd_list_ne in Hq. }
    rewrite decide_False, decide_False; [by apply (ch_free _ _ H)| |set_solver].
    intros Htq%tail_in. by apply (Hq' c).
  - intros d. unfold upd_list. case_decide as Hd; [|apply H]. apply list.NoDup_app.
    split; [apply H|]. split; [|apply NoDup_singleton]. intros x Hx ->%list_elem_of_singleton. by apply (Hp c).
Qed.
End Link.

(** *** unlink *)
Lemma unlink_foreign s L c p : chained s L → p ∉ L c → unlink c p s = s.
Proof.
  intros H Hp. unfold unlink. rewrite decide_False; [done|]. intros Ho. by apply Hp, (chained_owner s L).
Qed.

Section Unlink.
Context (s : chains) (L : nat → list nat) (c p : nat) (l1 l2 : list nat).
Context (H : chained s L) (Hl : L c = l1 ++ p :: l2).
Let P := before_at l1 (length l1).
Let N := l2 !! 0.

Lemma unlink_at : link_of s p = mkLink N P (Some c).
Proof.
  rewrite (ch_link _ _ H c (length l1) p); rewrite Hl; [|by rewrite lookup_mid, decide_False, decide_True by lia].
  rewrite lookup_mid, decide_False, decide_False by lia. rewrite before_at_app_l by lia.
  by rewrite Nat.sub_diag.
Qed.
Lemma unlink_parts : NoDup l1 ∧ NoDup l2 ∧ p ∉ l1 ∧ p ∉ l2 ∧ ∀ q, q ∈ l1 → q ∉ l2.
Proof.
  pose proof (ch_nodup _ _ H c) as Hn. rewrite Hl in Hn. apply list.NoDup_app in Hn as (H1 & H2 & H3).
  apply list.NoDup_cons in H3 as [H3 H4]. split_and!; try done; set_solver.
Qed.
Lemma prev_in q : P = Some q → q ∈ l1.
Proof. unfold P. destruct (length l1) as [|n]; [done|]. simpl. apply list_elem_of_lookup_2. Qed.
Lemma next_in q : N = Some q → q ∈ l2.
Proof. unfold N. apply list_elem_of_lookup_2. Qed.

Lemma unlink_link q :
  link_of (unlink c p s) q =
  if decide (q = p) then emptyLink
  else if decide (P = Some q) then set_next N (link_of s q)
  else if decide (N = Some q) then set_prev P (link_of s q) else link_of s q.
Proof.
  destruct unlink_parts as (_ & _ & H1 & H2 & H3). unfold unlink. rewrite unlink_at. cbn [owner prev next].
  rewrite decide_True by done.
  assert (HP : ∀ x, P = Some x → x ≠ p) by (intros x Hx ->; by apply H1, prev_in).
  assert (HN : ∀ x, N = Some x → x ≠ p) by (intros x Hx ->; by apply H2, next_in).
  assert (HPN : ∀ x, P = Some x → N ≠ Some x) by (intros x Hx Hx'; by apply (H3 x); [apply prev_in|apply next_in]).
  destruct P as [a|] eqn:EP, N as [b|] eqn:EN; chain_simpl;
    repeat (case_decide; simplify_eq; try done); try (by destruct (HPN _ eq_refl));
    try (by destruct (HP _ eq_refl)); try (by destruct (HN _ eq_refl)); rewrite ?unlink_at; done.
Qed.

Lemma unlink_ends d :
  head_of (unlink c p s) d = upd_list L c (l1 ++ l2) d !! 0 ∧
  tail_of (unlink c p s) d = before_at (upd_list L c (l1 ++ l2) d) (length (upd_list L c (l1 ++ l2) d)).
Proof.
  assert (HP0 : P = None ↔ l1 = []).
  { unfold P. destruct l1 as [|x l] using rev_ind; [done|]. rewrite length_app, Nat.add_1_r. simpl.
    rewrite lookup_app_r by lia. rewrite Nat.sub_diag. split; [done|]. by destruct l. }
  assert (HN0 : N = None ↔ l2 = []) by (unfold N; by destruct l2).
  unfold unlink. rewrite unlink_at. cbn [owner prev next]. rewrite decide_True by done. unfold upd_list.
  destruct (decide (d = c)) as [->|Hd].
  - split.
    + destruct P as [a|] eqn:EP, N as [b|] eqn:EN; chain_simpl; rewrite ?(ch_head _ _ H), ?Hl;
        rewrite ?decide_True by done.
      * destruct l1; [by destruct (proj2 HP0 eq_refl)|done].
      * destruct l1; [by destruct (proj2 HP0 eq_refl)|done].
      * rewrite (proj1 HP0 eq_refl). by rewrite <-EN.
      * rewrite (proj1 HP0 eq_refl). by rewrite <-EN.
    + destruct N as [b|] eqn:EN.
      * assert (Hpos : length l2 = S (length l2 - 1)) by (destruct l2; [by destruct (proj2 HN0 eq_refl)|simpl; lia]).
        assert (tail_of s c = before_at (l1 ++ l2) (length (l1 ++ l2))) as <-.
        { rewrite (ch_tail _ _ H c), Hl, !length_app. cbn [length]. rewrite Nat.add_succ_r, Hpos, Nat.add_succ_r.
          rewrite before_at_mid, decide_False, decide_False by lia. simpl. rewrite lookup_app_r by lia. done. }
        destruct P as [a|]; chain_simpl; done.
      * rewrite (proj1 HN0 eq_refl), app_nil_r. destruct P as [a|] eqn:EP; chain_simpl; rewrite decide_True by done; by rewrite <-EP.
  - destruct P as [a|], N as [b|]; chain_simpl; rewrite ?(decide_False (P := d = c)) by done;
      split; apply H.
Qed.

Lemma unlink_old j q :
  (l1 ++ p :: l2) !! j = Some q →
  link_of s q = mkLink ((l1 ++ p :: l2) !! S j) (before_at (l1 ++ p :: l2) j) (Some c).
Proof. intros Hj. rewrite <-Hl in *. by apply (ch_link _ _ H). Qed.

(** A record before [p]: only the last of them changes its successor. *)
Lemma unlink_before i q :
  l1 !! i = Some q →
  link_of (unlink c p s) q = mkLink ((l1 ++ l2) !! S i) (before_at (l1 ++ l2) i) (Some c).
Proof.
  intros Hq. destruct unlink_parts as (N1 & N2 & H1 & H2 & H3).
  pose proof (list_elem_of_lookup_2 _ _ _ Hq) as Hin. pose proof (lookup_lt_Some _ _ _ Hq) as Hi.
  rewrite unlink_link, decide_False by (intros ->; done).
  rewrite (decide_False (P := N = Some q)) by (intros ?%next_in; by apply (H3 q)).
  rewrite (unlink_old i) by (by rewrite lookup_app_l). rewrite !before_at_app_l by lia. rewrite lookup_mid.
  assert (HPi : P = Some q ↔ S i = length l1).
  { unfold P. destruct (length l1) as [|m] eqn:E; [lia|]. simpl. split.
    - intros Hm. f_equal. by apply (NoDup_at l1 i m q).
    - intros [= <-]. done. }
  case_decide as HPq.
  - apply HPi in HPq. unfold set_next. cbn [prev owner]. rewrite lookup_app_r by lia.
    by replace (S i - length l1) with 0 by lia.
  - assert (S i ≠ length l1) by tauto. rewrite decide_True by lia. by rewrite lookup_app_l by lia.
Qed.

(** A record after [p]: only the first of them changes its predecessor. *)
Lemma unlink_after i q :
  length l1 <= i → l2 !! (i - length l1) = Some q →
  link_of (unlink c p s) q = mkLink ((l1 ++ l2) !! S i) (before_at (l1 ++ l2) i) (Some c).
Proof.
  intros Hi Hq. destruct unlink_parts as (N1 & N2 & H1 & H2 & H3). pose proof (list_elem_of_lookup_2 _ _ _ Hq) as Hin.
  rewrite unlink_link, decide_False by (intros ->; done).
  rewrite (decide_False (P := P = Some q)) by (intros ?%prev_in; by apply (H3 q)).
  rewrite (unlink_old (S i)) by (rewrite lookup_mid, decide_False, decide_False by lia;
    by replace (S i - S (length l1)) with (i - length l1) by lia).
  rewrite lookup_mid, before_at_mid, (decide_False (P := S (S i) < length l1)),
    (decide_False (P := S (S i) = length l1)), (decide_False (P := i < length l1)) by lia.
  rewrite lookup_app_r by lia. replace (S (S i) - S (length l1)) with (S i - length l1) by lia.
  assert (HNi : N = Some q ↔ i = length l1).
  { unfold N. split; [|intros ->; by rewrite Nat.sub_diag in Hq]. intros H0.
    pose proof (NoDup_at l2 0 (i - length l1) q N2 H0 Hq). lia. }
  case_decide as HNq.
  - apply HNi in HNq. unfold set_prev. cbn [next owner]. rewrite HNq. by rewrite before_at_app_l by lia.
  - assert (i ≠ length l1) by tauto. rewrite decide_False by done. f_equal.
    destruct i as [|i']; [lia|]. simpl. rewrite lookup_app_r by lia. done.
Qed.

Lemma unlink_elsewhere q : q ∉ l1 ++ p :: l2 → link_of (unlink c p s) q = link_of s q.
Proof.
  intros Hq. rewrite unlink_link. rewrite decide_False by (intros ->; apply Hq; set_solver).
  rewrite decide_False by (intros ?%prev_in; apply Hq; set_solver).
  by rewrite decide_False by (intros ?%next_in; apply Hq; set_solver).
Qed.

Lemma unlink_spec : chained (unlink c p s) (upd_list L c (l1 ++ l2)).
Proof.
  destruct unlink_parts as (N1 & N2 & H1 & H2 & H3).
  split; try by (intros d; apply unlink_ends).
  - intros d i q Hq. unfold upd_list in *. case_decide as Hd; [subst d|].
    + destruct (decide (i < length l1)) as [Hi|Hi].
      * apply unlink_before. by rewrite lookup_app_l in Hq.
      * apply unlink_after; [lia|]. by rewrite lookup_app_r in Hq by lia.
    + assert (Hqd : q ∈ L d) by (by eapply list_elem_of_lookup_2).
      rewrite unlink_elsewhere; [by apply (ch_link _ _ H)|].
      rewrite <-Hl. intros Hc. by apply Hd, (chained_disjoint s L d c q H).
  - intros q Hq. destruct (decide (q = p)) as [->|Hne]; [by rewrite unlink_link, decide_True|].
    pose proof (Hq c) as Hqc. rewrite upd_list_eq in Hqc. rewrite unlink_elsewhere by set_solver.
    apply (ch_free _ _ H). intros d. destruct (decide (d = c)) as [->|Hd]; [rewrite Hl; set_solver|].
    specialize (Hq d). by rewrite upd_list_ne in Hq.
  - intros d. unfold upd_list. case_decide; [|apply H]. apply list.NoDup_app. split_and!; done.
Qed.
End Unlink.

(** *** Walking a detached chain *)

(** [node] starts a detached chain holding [l], on top of the chains [L]. *)
Record detached (s : chains) (L : nat → list nat) (node : option nat) (l : list nat) : Prop := {
  de_link : ∀ c i p, L c !! i = Some p → link_of s p = mkLink (L c !! S i) (before_at (L c) i) (Some c);
  de_free : ∀ p, p ∉ l → (∀ c, p ∉ L c) → link_of s p = emptyLink;
  de_head : ∀ c, head_of s c = L c !! 0;
  de_tail : ∀ c, tail_of s c = before_at (L c) (length (L c));
  de_nodup : ∀ c, NoDup (L c);
  de_node : node = l !! 0;
  de_next : ∀ i p, l !! i = Some p → next (link_of s p) = l !! S i;
  de_rest : NoDup l ∧ ∀ p c, p ∈ l → p ∉ L c
}.

Lemma detach_spec s L c :
  chained s L → detached (detach c s).2 (upd_list L c []) (detach c s).1 (L c).
Proof.
  intros H. unfold detach. cbn [fst snd].
  assert (Hin : ∀ d q, q ∈ upd_list L c [] d → d ≠ c ∧ q ∈ L d).
  { intros d q. unfold upd_list. case_decide; [by intros ?%not_elem_of_nil|done]. }
  split.
  - intros d i q Hq. chain_simpl. unfold upd_list in *. case_decide; [done|]. by apply (ch_link _ _ H).
  - intros q Hq Hd. chain_simpl. apply (ch_free _ _ H). intros d. destruct (decide (d = c)) as [->|Hne]; [done|].
    specialize (Hd d). by rewrite upd_list_ne in Hd.
  - intros d. chain_simpl. unfold upd_list. case_decide; [done|apply H].
  - intros d. chain_simpl. unfold upd_list. case_decide; [done|apply H].
  - intros d. unfold upd_list. case_decide; [constructor|apply H].
  - apply H.
  - intros i q Hq. chain_simpl. by rewrite (ch_link _ _ H _ _ _ Hq).
  - split; [apply H|]. intros q d Hq [Hd Hqd]%Hin. by apply Hd, (chained_disjoint s L d c q H).
Qed.

Lemma extract_spec s L p l :
  detached s L (Some p) (p :: l) → (extract p s).1 = l !! 0 ∧ detached (extract p s).2 L (l !! 0) l.
Proof.
  intros H. unfold extract. cbn [fst snd]. split; [by rewrite (de_next _ _ _ _ H 0 p)|].
  pose proof (de_rest _ _ _ _ H) as [Hn Hd]. apply list.NoDup_cons in Hn as [Hp Hn].
  assert (HL : ∀ c i q, L c !! i = Some q → q ≠ p).
  { intros c i q Hq ->. apply (Hd p c); [by left|]. by eapply list_elem_of_lookup_2. }
  split; try apply H; try done.
  - intros c i q Hq. chain_simpl. rewrite !(decide_False (P := q = p)) by by eapply HL. by apply (de_link _ _ _ _ H).
  - intros q Hq Hc. chain_simpl. destruct (decide (q = p)) as [->|Hne]; [by rewrite !decide_True|].
    apply (de_free _ _ _ _ H); [set_solver|done].
  - intros i q Hq. chain_simpl.
    assert (q ≠ p) by (intros ->; apply Hp; by eapply list_elem_of_lookup_2).
    rewrite !(decide_False (P := q = p)) by done. exact (de_next _ _ _ _ H (S i) q Hq).
  - split; [done|]. intros q c Hq. apply Hd. by right.
Qed.

Lemma detached_nil s L : detached s L None [] → chained s L.
Proof. intros H. split; try apply H. intros p Hp. apply H; [apply not_elem_of_nil|done]. Qed.

Section DrainSpec.
Context {St : Type} (getC : St → chains) (setC : chains → St → St) (body : nat → M St unit).
Context (get_set : ∀ ch s, getC (setC ch s) = ch).
(** The body leaves the links alone and returns, given [I] of the rest. *)
Context (I : list nat → St → Prop) (I_set : ∀ l ch s, I l s → I l (setC ch s)).
Context (Hbody : ∀ p l s, I (p :: l) s → ∃ s', body p s = Ok tt s' ∧ getC s' = getC s ∧ I l s').

Lemma drain_spec fuel L node l s :
  detached (getC s) L node l → length l <= fuel → I l s →
  ∃ s', drain getC setC body fuel node s = Ok (Some tt) s' ∧ chained (getC s') L ∧ I [] s'.
Proof.
  revert node l s. induction fuel as [|fuel IH]; intros node l s Hd Hf Hi;
    pose proof (de_node _ _ _ _ Hd) as Hn; destruct l as [|p l]; simpl in Hn, Hf; subst node; try lia;
    try (exists s; split; [done|]; split; [by apply detached_nil|done]).
  cbn [drain]. rewrite (bind_ok get _ s s s eq_refl). destruct (extract_spec _ _ _ _ Hd) as [E1 E2].
  destruct (extract p (getC s)) as [n ch]. simpl in E1, E2. subst n.
  rewrite (bind_ok (put (setC ch s)) _ s tt (setC ch s) eq_refl).
  destruct (Hbody p l (setC ch s)) as (s' & H1 & H2 & H3); [by apply I_set|].
  rewrite (bind_ok _ _ _ _ _ H1). apply (IH _ l); [by rewrite H2, get_set|lia|done].
Qed.

Lemma drainAll_spec fuel L c s :
  chained (getC s) L → length (L c) <= fuel → I (L c) s →
  ∃ s', drainAll getC setC body fuel c s = Ok (Some tt) s' ∧ chained (getC s') (upd_list L c []) ∧ I [] s'.
Proof.
  intros Hc Hf Hi. unfold drainAll. rewrite (bind_ok get _ s s s eq_refl).
  pose proof (detach_spec _ _ c Hc) as Hd. destruct (detach c (getC s)) as [node ch]. simpl in Hd.
  rewrite (bind_ok (put (setC ch s)) _ s tt (setC ch s) eq_refl).
  apply (drain_spec _ _ _ (L c)); [by rewrite get_set|done|by apply I_set].
Qed.
End DrainSpec.

(** The walk needs no more rounds than there are links. *)
Definition chainFuel (s : chains) : nat := size (links s).
Lemma chain_fuel s L c : chained s L → length (L c) <= chainFuel s.
Proof.
  intros H. unfold chainFuel. rewrite <-size_dom, <-(size_list_to_set (C := gset nat) (L c)) by apply H.
  apply subseteq_size. intros p Hp. apply elem_of_list_to_set in Hp. apply elem_of_dom.
  apply (chained_owner s L c p H) in Hp. unfold link_of in Hp. destruct (links s !! p); [by eexists|done].
Qed.

(** *** Runs *)
Inductive chain_op : Type :=
  | Deliver (c p : nat)     (* recv() hands message p to consumer c *)
  | Acknowledge (c p : nat) (* acknowledgeOn(p), on whichever consumer c *)
  | Recover (c : nat).      (* recover() or ~Consumer() *)

(** The messages a consumer hands on, in order. *)
Definition do_chain (o : chain_op) : M (chains * list nat) unit :=
  match o with
  | Deliver c p => modify (λ s, (link c p s.1, s.2))
  | Acknowledge c p => modify (λ s, (unlink c p s.1, s.2))
  | Recover c =>
      s ← get;
      r ← drainAll fst (λ ch s, (ch, s.2)) (λ p, modify (λ s, (s.1, s.2 ++ [p]))) (chainFuel s.1) c;
      require r
  end.
Definition spec_chain (L : nat → list nat) (o : chain_op) : nat → list nat :=
  match o with
  | Deliver c p => upd_list L c (L c ++ [p])
  | Acknowledge c p => upd_list L c (filter (λ q, q ≠ p) (L c))
  | Recover c => upd_list L c []
  end.
Definition spec_out (L : nat → list nat) (o : chain_op) : list nat :=
  match o with Recover c => L c | _ => [] end.
Definition chain_op_ok (L : nat → list nat) (o : chain_op) : Prop :=
  match o with Deliver _ p => ∀ d, p ∉ L d | _ => True end.
Fixpoint chain_ops_ok (L : nat → list nat) (os : list chain_op) : Prop :=
  match os with [] => True | o :: os => chain_op_ok L o ∧ chain_ops_ok (spec_chain L o) os end.
Fixpoint spec_chains (L : nat → list nat) (os : list chain_op) : (nat → list nat) * list nat :=
  match os with
  | [] => (L, [])
  | o :: os => let '(L', out) := spec_chains (spec_chain L o) os in (L', spec_out L o ++ out)
  end.

Lemma filter_out (p : nat) l1 l2 : NoDup (l1 ++ p :: l2) → filter (λ q, q ≠ p) (l1 ++ p :: l2) = l1 ++ l2.
Proof.
  intros (H1 & H2 & [H3 H4]%list.NoDup_cons)%list.NoDup_app.
  rewrite list.filter_app, filter_cons_False by (intros H; by apply H). f_equal; apply filter_every, list.Forall_forall.
  - intros q Hq ->. apply (H2 p Hq). by left.
  - intros q Hq ->. done.
Qed.

(** [L] and a list are the chains up to pointwise equality. *)
Lemma chained_ext s L L' : (∀ c, L c = L' c) → chained s L → chained s L'.
Proof.
  intros He H. split.
  - intros c i p. rewrite <-He. apply H.
  - intros p Hp. apply H. intros c. rewrite He. apply Hp.
  - intros c. rewrite <-He. apply H.
  - intros c. rewrite <-He. apply H.
  - intros c. rewrite <-He. apply H.
Qed.

Lemma do_chain_sim o s out L :
  chained s L → chain_op_ok L o →
  ∃ s', do_chain o (s, out) = Ok tt (s', out ++ spec_out L o) ∧ chained s' (spec_chain L o).
Proof.
  intros H Ho. destruct o as [c p|c p|c]; cbn [do_chain spec_out spec_chain].
  - eexists. rewrite app_nil_r. split; [done|]. by apply link_spec.
  - exists (unlink c p s). rewrite app_nil_r. split; [done|].
    destruct (decide (p ∈ L c)) as [Hin|Hin].
    + apply list_elem_of_split in Hin as (l1 & l2 & Hl). rewrite Hl, filter_out by (rewrite <-Hl; apply H).
      by apply unlink_spec.
    + rewrite (unlink_foreign s L) by done. eapply chained_ext, H. intros d. unfold upd_list. case_decide as Hd; [|done].
      subst. symmetry. apply filter_every, list.Forall_forall. by intros q Hq ->.
  - rewrite (bind_ok get _ (s, out) (s, out) (s, out) eq_refl).
    destruct (drainAll_spec fst (λ ch s, (ch, s.2)) (λ p, modify (λ s, (s.1, s.2 ++ [p]))) ltac:(done)
      (λ l s, s.2 ++ l = out ++ L c)) with (fuel := chainFuel s) (L := L) (c := c) (s := (s, out))
      as ([s' out'] & H1 & H2 & H3); try done.
    + intros p l [s1 o1] Hi. eexists. split; [done|]. split; [done|]. simpl in *. by rewrite <-Hi, <-app_assoc.
    + by apply chain_fuel.
    + exists s'. simpl in H3. rewrite app_nil_r in H3. subst out'. by rewrite (bind_ok _ _ _ _ _ H1).
Qed.

(** C8. The in-flight chains are one list of messages per consumer: for every
    sequence of deliveries (of messages in no chain), acknowledgements on any consumer
    and recoveries, a message joins its consumer's list at the end, an
    acknowledgement removes it from that list in whatever position, and does nothing
    at all when the message is in another consumer's list or in none, and a recovery
    hands over the whole list in order of delivery, leaving every link in it clear. *)
Theorem chains_refine os :
  chain_ops_ok (λ _, []) os →
  ∃ s, for_each do_chain os (mkChains ∅ ∅, []) = Ok tt (s, (spec_chains (λ _, []) os).2) ∧
    chained s (spec_chains (λ _, []) os).1.
Proof.
  assert (H : chained (mkChains ∅ ∅) (λ _, [])).
  { split; try done. intros c. constructor. }
  assert (Hgen : ∀ L s out, chained s L → chain_ops_ok L os →
    ∃ s', for_each do_chain os (s, out) = Ok tt (s', out ++ (spec_chains L os).2) ∧ chained s' (spec_chains L os).1).
  { clear H. induction os as [|o os IH]; intros L s out H Hok; [exists s; by rewrite app_nil_r|].
    destruct Hok as [Ho Hos]. destruct (do_chain_sim o s out L H Ho) as (s1 & E1 & H1).
    destruct (IH _ s1 (out ++ spec_out L o) H1 Hos) as (s2 & E2 & H2). exists s2. cbn [for_each].
    rewrite (bind_ok _ _ _ _ _ E1), E2. cbn [spec_chains].
    destruct (spec_chains (spec_chain L o) os) as [L' out']. simpl in *. by rewrite <-app_assoc. }
  intros Hok. by apply (Hgen _ _ [] H).
Qed.

Definition sampleChainOps : list chain_op :=
  [Deliver 1 10; Deliver 1 11; Deliver 2 12; Deliver 1 13; Acknowledge 1 11; Acknowledge 1 12; Recover 1; Recover 2].
Lemma chains_refine_witness :
  ∃ s, for_each do_chain sampleChainOps (mkChains ∅ ∅, []) = Ok tt (s, [10; 13; 12]).
Proof.
  destruct (chains_refine sampleChainOps) as (s & H & _).
  - unfold sampleChainOps. cbn [chain_ops_ok chain_op_ok]. split_and!; try done;
      intros d; unfold spec_chain, upd_list; repeat case_decide; vm_compute; set_solver.
  - exists s. exact H.
Defined.
