(* ===== verification/Broker.v ===== *)
(** The state of a broker process and what its classes share: the objects that
    Destination, Consumer, Producer and Session reach through pointers and
    references, each under its identity, the lifting of the components' operations
    to that state, and the operations of Destination that the other classes call
    back into (delayed enqueueing and dead-lettering).

    A Session and its consumers belong to one thread, so a call is one operation on
    the state. A dangling reference is a lookup that fails, which is undefined.
    The clock, random ids and the iteration order of the hash maps are parameters. *)
From S2P Require Import Prelude Property Message JsonInstance StorageRecord PriorityQueue World DeliveryScheduler LinearStorage StorageWorker TransactionBuffer InFlight.
From Stdlib Require Import Lia ZifyBool.

(** Selector::parse and Selector::matches, as the broker uses them. *)
Class MessageFilter : Type := {
  filter_t : Type;
  filter_parse : string → filter_t + exn;
  filter_matches : filter_t → Message → bool
}.

(** Session::AcknowledgeMode *)
Inductive AcknowledgeMode : Type :=
  SESSION_TRANSACTED | AUTO_ACKNOWLEDGE | CLIENT_ACKNOWLEDGE | INDIVIDUAL_ACKNOWLEDGE | DUPS_OK_ACKNOWLEDGE.
#[export] Instance AcknowledgeMode_eq_dec : EqDecision AcknowledgeMode.
Proof. solve_decision. Defined.
Definition getAcknowledgeModeName (mode : AcknowledgeMode) : string :=
  match mode with
  | AUTO_ACKNOWLEDGE => "AUTO_ACKNOWLEDGE"
  | SESSION_TRANSACTED => "SESSION_TRANSACTED"
  | CLIENT_ACKNOWLEDGE => "CLIENT_ACKNOWLEDGE"
  | INDIVIDUAL_ACKNOWLEDGE => "INDIVIDUAL_ACKNOWLEDGE"
  | DUPS_OK_ACKNOWLEDGE => "DUPS_OK_ACKNOWLEDGE"
  end.

(** destination::Type and destination::TypeName *)
Inductive DestinationType : Type := Queue | Topic | TemporaryQueue | TemporaryTopic.
#[export] Instance DestinationType_eq_dec : EqDecision DestinationType.
Proof. solve_decision. Defined.
Definition TypeName (t : DestinationType) : string :=
  match t with
  | Queue => "queue" | Topic => "topic" | TemporaryQueue => "temp-queue" | TemporaryTopic => "temp-topic"
  end.

(** SendOptions *)
Record SendOptions : Type := mkSendOptions {
  so_deliveryMode : Reliability;
  so_priority : Z;
  so_timeToLive : Z;
  so_deliveryDelay : Z
}.

(** RedeliveryPolicy; the dead letter queue is a destination's identity. *)
Record RedeliveryPolicy : Type := mkPolicy {
  maxRedeliveries : Z;
  backoffMs : Z;
  maxBackoffMs : Z;
  deadLetterQueue : option nat
}.
Definition defaultPolicy : RedeliveryPolicy := mkPolicy 6 0 60000 None.

Section Data.
Context {F : MessageFilter}.

(** Destination::DurableSubState; [None] for activeConsumerUuid is the null UUID. *)
Record DurableSubState : Type := mkSub {
  sub_name : string;
  sub_path : string;
  sub_storage : nat;
  sub_active : option nat;
  sub_selector : option filter_t
}.

Record Consumer : Type := mkConsumer {
  cs_destination : nat;
  cs_session : nat;
  cs_queue : nat;
  cs_transactQueue : option nat;
  cs_storage : nat;
  cs_selector : option filter_t;
  cs_pendingAcks : list Rec
}.
Definition set_pendingAcks x (c : Consumer) :=
  mkConsumer (cs_destination c) (cs_session c) (cs_queue c) (cs_transactQueue c) (cs_storage c) (cs_selector c) x.

Record Producer : Type := mkProducer {
  pr_destination : nat;
  pr_session : nat;
  pr_token : bool;
  pr_transactQueue : option nat;
  pr_disableMessageID : bool;
  pr_disableMessageTimestamp : bool;
  pr_default : option SendOptions
}.
Definition set_default x (p : Producer) :=
  mkProducer (pr_destination p) (pr_session p) (pr_token p) (pr_transactQueue p) (pr_disableMessageID p)
    (pr_disableMessageTimestamp p) x.
Definition set_disableMessageID x (p : Producer) :=
  mkProducer (pr_destination p) (pr_session p) (pr_token p) (pr_transactQueue p) x
    (pr_disableMessageTimestamp p) (pr_default p).
Definition set_disableMessageTimestamp x (p : Producer) :=
  mkProducer (pr_destination p) (pr_session p) (pr_token p) (pr_transactQueue p) (pr_disableMessageID p)
    x (pr_default p).

(** Session; [ss_suffix] is the id of its current transaction. *)
Record Session : Type := mkSession {
  ss_mode : AcknowledgeMode;
  ss_clientID : string;
  ss_suffix : string;
  ss_producers : gset nat;
  ss_consumers : gset nat
}.
Definition set_suffix x (s : Session) := mkSession (ss_mode s) (ss_clientID s) x (ss_producers s) (ss_consumers s).
Definition set_ss_producers x (s : Session) := mkSession (ss_mode s) (ss_clientID s) (ss_suffix s) x (ss_consumers s).
Definition set_ss_consumers x (s : Session) := mkSession (ss_mode s) (ss_clientID s) (ss_suffix s) (ss_producers s) x.

Record Destination : Type := mkDestination {
  ds_type : DestinationType;
  ds_name : string;
  ds_path : string;
  ds_messageCounter : Z;
  ds_consumers : gset nat;
  ds_producers : gset nat;
  ds_queue : option nat;
  ds_defaultConsumer : option nat;
  ds_storage : nat;
  ds_transactionBuffer : TB;
  ds_scheduler : scheduler;
  ds_durableSubs : gmap string DurableSubState;
  ds_consumerToSubName : gmap nat string;
  ds_redeliveryPolicy : RedeliveryPolicy
}.
Definition set_ds_messageCounter x (d : Destination) :=
  mkDestination (ds_type d) (ds_name d) (ds_path d) x (ds_consumers d) (ds_producers d) (ds_queue d) (ds_defaultConsumer d) (ds_storage d) (ds_transactionBuffer d) (ds_scheduler d) (ds_durableSubs d) (ds_consumerToSubName d) (ds_redeliveryPolicy d).
Definition set_ds_consumers x (d : Destination) :=
  mkDestination (ds_type d) (ds_name d) (ds_path d) (ds_messageCounter d) x (ds_producers d) (ds_queue d) (ds_defaultConsumer d) (ds_storage d) (ds_transactionBuffer d) (ds_scheduler d) (ds_durableSubs d) (ds_consumerToSubName d) (ds_redeliveryPolicy d).
Definition set_ds_producers x (d : Destination) :=
  mkDestination (ds_type d) (ds_name d) (ds_path d) (ds_messageCounter d) (ds_consumers d) x (ds_queue d) (ds_defaultConsumer d) (ds_storage d) (ds_transactionBuffer d) (ds_scheduler d) (ds_durableSubs d) (ds_consumerToSubName d) (ds_redeliveryPolicy d).
Definition set_ds_queue x (d : Destination) :=
  mkDestination (ds_type d) (ds_name d) (ds_path d) (ds_messageCounter d) (ds_consumers d) (ds_producers d) x (ds_defaultConsumer d) (ds_storage d) (ds_transactionBuffer d) (ds_scheduler d) (ds_durableSubs d) (ds_consumerToSubName d) (ds_redeliveryPolicy d).
Definition set_ds_defaultConsumer x (d : Destination) :=
  mkDestination (ds_type d) (ds_name d) (ds_path d) (ds_messageCounter d) (ds_consumers d) (ds_producers d) (ds_queue d) x (ds_storage d) (ds_transactionBuffer d) (ds_scheduler d) (ds_durableSubs d) (ds_consumerToSubName d) (ds_redeliveryPolicy d).
Definition set_ds_transactionBuffer x (d : Destination) :=
  mkDestination (ds_type d) (ds_name d) (ds_path d) (ds_messageCounter d) (ds_consumers d) (ds_producers d) (ds_queue d) (ds_defaultConsumer d) (ds_storage d) x (ds_scheduler d) (ds_durableSubs d) (ds_consumerToSubName d) (ds_redeliveryPolicy d).
Definition set_ds_scheduler x (d : Destination) :=
  mkDestination (ds_type d) (ds_name d) (ds_path d) (ds_messageCounter d) (ds_consumers d) (ds_producers d) (ds_queue d) (ds_defaultConsumer d) (ds_storage d) (ds_transactionBuffer d) x (ds_durableSubs d) (ds_consumerToSubName d) (ds_redeliveryPolicy d).
Definition set_ds_durableSubs x (d : Destination) :=
  mkDestination (ds_type d) (ds_name d) (ds_path d) (ds_messageCounter d) (ds_consumers d) (ds_producers d) (ds_queue d) (ds_defaultConsumer d) (ds_storage d) (ds_transactionBuffer d) (ds_scheduler d) x (ds_consumerToSubName d) (ds_redeliveryPolicy d).
Definition set_ds_consumerToSubName x (d : Destination) :=
  mkDestination (ds_type d) (ds_name d) (ds_path d) (ds_messageCounter d) (ds_consumers d) (ds_producers d) (ds_queue d) (ds_defaultConsumer d) (ds_storage d) (ds_transactionBuffer d) (ds_scheduler d) (ds_durableSubs d) x (ds_redeliveryPolicy d).
Definition set_ds_redeliveryPolicy x (d : Destination) :=
  mkDestination (ds_type d) (ds_name d) (ds_path d) (ds_messageCounter d) (ds_consumers d) (ds_producers d) (ds_queue d) (ds_defaultConsumer d) (ds_storage d) (ds_transactionBuffer d) (ds_scheduler d) (ds_durableSubs d) (ds_consumerToSubName d) x.

Record broker : Type := mkBroker {
  br_world : world;
  br_chains : chains;
  br_destinations : gmap nat Destination;
  br_consumers : gmap nat Consumer;
  br_producers : gmap nat Producer;
  br_sessions : gmap nat Session;
  br_storages : gmap nat Storage;
  br_dirs : gmap string (gmap Z bytes);  (* the tom files of the directories not opened yet *)
  br_fresh : nat;    (* the next identity *)
  br_reads : nat;    (* clock readings so far *)
  br_uuids : nat     (* random uuids so far *)
}.
Definition set_br_world x (b : broker) :=
  mkBroker x (br_chains b) (br_destinations b) (br_consumers b) (br_producers b) (br_sessions b) (br_storages b) (br_dirs b) (br_fresh b) (br_reads b) (br_uuids b).
Definition set_br_chains x (b : broker) :=
  mkBroker (br_world b) x (br_destinations b) (br_consumers b) (br_producers b) (br_sessions b) (br_storages b) (br_dirs b) (br_fresh b) (br_reads b) (br_uuids b).
Definition set_br_destinations x (b : broker) :=
  mkBroker (br_world b) (br_chains b) x (br_consumers b) (br_producers b) (br_sessions b) (br_storages b) (br_dirs b) (br_fresh b) (br_reads b) (br_uuids b).
Definition set_br_consumers x (b : broker) :=
  mkBroker (br_world b) (br_chains b) (br_destinations b) x (br_producers b) (br_sessions b) (br_storages b) (br_dirs b) (br_fresh b) (br_reads b) (br_uuids b).
Definition set_br_producers x (b : broker) :=
  mkBroker (br_world b) (br_chains b) (br_destinations b) (br_consumers b) x (br_sessions b) (br_storages b) (br_dirs b) (br_fresh b) (br_reads b) (br_uuids b).
Definition set_br_sessions x (b : broker) :=
  mkBroker (br_world b) (br_chains b) (br_destinations b) (br_consumers b) (br_producers b) x (br_storages b) (br_dirs b) (br_fresh b) (br_reads b) (br_uuids b).
Definition set_br_storages x (b : broker) :=
  mkBroker (br_world b) (br_chains b) (br_destinations b) (br_consumers b) (br_producers b) (br_sessions b) x (br_dirs b) (br_fresh b) (br_reads b) (br_uuids b).
Definition set_br_dirs x (b : broker) :=
  mkBroker (br_world b) (br_chains b) (br_destinations b) (br_consumers b) (br_producers b) (br_sessions b) (br_storages b) x (br_fresh b) (br_reads b) (br_uuids b).
Definition set_br_fresh x (b : broker) :=
  mkBroker (br_world b) (br_chains b) (br_destinations b) (br_consumers b) (br_producers b) (br_sessions b) (br_storages b) (br_dirs b) x (br_reads b) (br_uuids b).
Definition set_br_reads x (b : broker) :=
  mkBroker (br_world b) (br_chains b) (br_destinations b) (br_consumers b) (br_producers b) (br_sessions b) (br_storages b) (br_dirs b) (br_fresh b) x (br_uuids b).
Definition set_br_uuids x (b : broker) :=
  mkBroker (br_world b) (br_chains b) (br_destinations b) (br_consumers b) (br_producers b) (br_sessions b) (br_storages b) (br_dirs b) (br_fresh b) (br_reads b) x.
End Data.
Arguments DurableSubState {F}.
Arguments Consumer {F}.
Arguments Destination {F}.
Arguments broker {F}.

(** What the process runs in: Poco with its string hash, the clock (in microseconds),
    the random uuids, the iteration orders of the hash maps, and whether the file of
    a transaction log can be opened. *)
Class Environment : Type := {
  env_json :: PocoJson;
  env_uuid :: PocoUUID;
  env_text :: PocoText;
  env_filter :: MessageFilter;
  clock : nat → Z;
  randomUUID : nat → UUID;
  iter_set : gset nat → list nat;
  iter_subs : gmap string DurableSubState → list string;
  iter_toms : Storage → list Z;
  iter_transactions : gmap string (list UUID) → list string;
  poco_hash : string → Z;
  log_opens : string → bool
}.
Class EnvironmentOk (E : Environment) : Prop := {
  iter_set_ok : ∀ X, iter_set X ≡ₚ elements X;
  iter_subs_ok : ∀ m, iter_subs m ≡ₚ (map_to_list m).*1;
  iter_toms_ok : ∀ s, iterates (iter_toms s) s;
  iter_transactions_ok : ∀ m, iter_transactions m ≡ₚ (map_to_list m).*1;
  poco_hash_ok : ∀ s, inU 64 (poco_hash s);
  randomUUID_ok : ∀ n, length (randomUUID n) = 16%nat ∧ randomUUID n ≠ nullUUID
}.

(** *** Reaching into the state *)
Section Lifts.
Context {E : Environment}.

(** An operation on one part of the state. *)
Definition zoom {S A} (rd : broker → option S) (wr : S → broker → broker) (op : M S A) : M broker A := λ b,
  match rd b with
  | Some s =>
      match op s with
      | Ok a s' => Ok a (wr s' b)
      | Exn e s' => Exn e (wr s' b)
      | UB => UB
      end
  | None => UB
  end.

Definition bWorld {A} (op : M world A) : M broker A := zoom (λ b, Some (br_world b)) set_br_world op.
Definition bStorage {A} (sid : nat) (op : M Storage A) : M broker A :=
  zoom (λ b, br_storages b !! sid) (λ s b, set_br_storages (<[sid := s]> (br_storages b)) b) op.
Definition bDest {A} (d : nat) (op : M Destination A) : M broker A :=
  zoom (λ b, br_destinations b !! d) (λ x b, set_br_destinations (<[d := x]> (br_destinations b)) b) op.
Definition bTB {A} (d : nat) (op : M TB A) : M broker A :=
  zoom (λ b, ds_transactionBuffer <$> br_destinations b !! d)
       (λ x b, set_br_destinations (alter (set_ds_transactionBuffer x) d (br_destinations b)) b) op.
Definition bSched {A} (d : nat) (op : M system A) : M broker A :=
  zoom (λ b, (λ x, (ds_scheduler x, br_world b)) <$> br_destinations b !! d)
       (λ sw b, set_br_world sw.2
         (set_br_destinations (alter (set_ds_scheduler sw.1) d (br_destinations b)) b)) op.
Definition bConsumer {A} (c : nat) (op : M Consumer A) : M broker A :=
  zoom (λ b, br_consumers b !! c) (λ x b, set_br_consumers (<[c := x]> (br_consumers b)) b) op.
Definition bProducer {A} (p : nat) (op : M Producer A) : M broker A :=
  zoom (λ b, br_producers b !! p) (λ x b, set_br_producers (<[p := x]> (br_producers b)) b) op.
Definition bSession {A} (s : nat) (op : M Session A) : M broker A :=
  zoom (λ b, br_sessions b !! s) (λ x b, set_br_sessions (<[s := x]> (br_sessions b)) b) op.

(** An operation on the message at an address. *)
Definition onMessage {A} (p : nat) (op : M Message A) : M world A := λ w,
  match heap w !! p with
  | Some m =>
      match op m with
      | Ok a m' => Ok a (set_heap (<[p := m']> (heap w)) w)
      | Exn e m' => Exn e (set_heap (<[p := m']> (heap w)) w)
      | UB => UB
      end
  | None => UB
  end.

(** Poco::Timestamp, in microseconds and as the sources' milliseconds. *)
Definition readClock : M broker Z := λ b, Ok (clock (br_reads b)) (set_br_reads (S (br_reads b)) b).
Definition nowMs : M broker Z := us ← readClock; mret (Z.quot us 1000).
Definition freshUUID : M broker UUID := λ b, Ok (randomUUID (br_uuids b)) (set_br_uuids (S (br_uuids b)) b).
Definition freshId : M broker nat := λ b, Ok (br_fresh b) (set_br_fresh (S (br_fresh b)) b).
(** std::make_shared of a message, and of a queue. *)
Definition alloc (m : Message) : M broker nat :=
  p ← freshId; _ ← bWorld (modify (λ w, set_heap (<[p := m]> (heap w)) w)); mret p.
Definition newQueue : M broker nat :=
  q ← freshId; _ ← bWorld (modify (λ w, set_queues (<[q := Seq.empty_pq]> (queues w)) w)); mret q.

Definition message (p : nat) : M broker Message := bWorld (deref p).
(** Every bound on a loop over a queue is its length. *)
Definition queueLength (q : nat) : M broker nat := bWorld (gets (λ w, length (queue_abs w q))).

Definition isQueueFamily (d : Destination) : bool :=
  bool_decide (ds_type d = Queue) || bool_decide (ds_type d = TemporaryQueue).
Definition isTopicFamily (d : Destination) : bool :=
  bool_decide (ds_type d = Topic) || bool_decide (ds_type d = TemporaryTopic).

(** Destination::enqueueOrSchedule *)
Definition dest_enqueueOrSchedule (d q : nat) (msg : Ptr) : M broker unit :=
  now1 ← nowMs; now2 ← nowMs; bSched d (enqueueOrSchedule now1 now2 q msg).

(** Destination::setRedeliveryPolicy *)
Definition setRedeliveryPolicy (d : nat) (policy : RedeliveryPolicy) : M broker unit :=
  _ ← match deadLetterQueue policy with
      | Some q =>
          if decide (q = d) then throw (PocoInvalidArgument "deadLetterQueue")
          else x ← bDest q get;
               if isQueueFamily x then mret tt else throw (PocoInvalidArgument "deadLetterQueue")
      | None => mret tt
      end;
  bDest d (modify (set_ds_redeliveryPolicy policy)).

(** Destination::deadLetter: noexcept, everything is caught. *)
Definition deadLetterBody (d p : nat) (reason : string) : M broker unit :=
  x ← bDest d get;
  match deadLetterQueue (ds_redeliveryPolicy x) with
  | None => mret tt
  | Some dlq =>
      m ← message p;
      cp ← alloc (setRawProperty "JMSXDeadLetterReason" (RString reason)
                   (upd_hdr (set_deliveryTime 0) (copy m)));
      cm ← message cp;
      y ← bDest dlq get;
      _ ← (if isPersistent cm then
             data ← require (storageBytes cm);
             rec ← bStorage (ds_storage y) (cls_append iter_toms (uuid cm) data);
             bWorld (update cp (λ m, set_storageOffset (rec_offset rec)
               (set_storageTomId (rec_tomId rec) (set_cachedStorageBytes data m))))
           else mret tt);
      match ds_queue y with
      | Some q => dest_enqueueOrSchedule dlq q (Some cp)
      | None => mret tt
      end
  end.
Definition deadLetter (d p : nat) (reason : string) : M broker unit :=
  catch (deadLetterBody d p reason) (λ _, mret tt).

(** Destination::patchPendingDeliveryTime *)
Definition patchPendingDeliveryTime (d : nat) (messageId : UUID) (deliveryTime : Z) : M broker unit :=
  bTB d (patchDeliveryTime messageId deliveryTime).
(** Destination::commitTransaction and rollbackTransaction *)
Definition dest_commitTransaction (d : nat) (transactionId : string) : M broker unit :=
  if decide (transactionId = "") then mret tt
  else
    now ← readClock;
    batch ← bTB d (commitLocked now transactionId);
    x ← bDest d get;
    bStorage (ds_storage x) (cls_appendBatch iter_toms batch).
Definition dest_rollbackTransaction (d : nat) (transactionId : string) : M broker unit :=
  if decide (transactionId = "") then mret tt
  else now ← readClock; bTB d (rollbackTransaction now transactionId).
End Lifts.
