(* ===== verification/Consumer.v ===== *)
(** Consumer (Consumer.h/.cpp): delivery to the application, acknowledgement,
    redelivery with its limit and backoff, and what a producer's send pushes. *)
From S2P Require Import Prelude Double Property Message JsonInstance StorageRecord PriorityQueue World DeliveryScheduler LinearStorage StorageWorker TransactionBuffer InFlight Broker.
From Stdlib Require Import Lia ZifyBool SpecFloat.

(** *** The backoff *)

(** min(backoffMs * 2^(deliveryCount-1), maxBackoffMs) in doubles; the conversion back
    is undefined ([None]) for a double out of range. *)
Definition backoffDelay (backoffMs maxBackoffMs deliveryCount : Z) : option Z :=
  let factor := pow2 (deliveryCount - 1) in
  let rawDelayMs := mulDouble (doubleOfInt backoffMs) factor in
  if SFltb rawDelayMs (doubleOfInt maxBackoffMs) then truncDouble rawDelayMs else Some maxBackoffMs.

Section Consumer.
Context {E : Environment}.

(** Resolve the storage record of a message: the cached location, with the uuid so
    that the index entry can be dropped, else a lookup by uuid. *)
Definition resolveRecord (sid : nat) (m : Message) : M broker Rec :=
  if storageTomId m =? UINT32_MAX then bStorage sid (cls_record_uuid iter_toms (uuid m))
  else mret (mkRec (storageTomId m) (storageOffset m) (mkHeader (uuid m) 0 0)).
Definition removeRecord (sid : nat) (m : Message) : M broker unit :=
  rec ← resolveRecord sid m;
  if rec_tomId rec =? UINT32_MAX then mret tt else bStorage sid (cls_removeAsync iter_toms rec).

(** *** recv *)

(** The part of recv that gives a persistent message its contents back. *)
Definition rehydrate (sid p : nat) : M broker unit :=
  m ← message p;
  if isPersistent m then
    match cachedStorageBytes m with
    | [] =>
        record ← bStorage sid (cls_record_uuid iter_toms (uuid m));
        if rec_tomId record =? UINT32_MAX then mret tt
        else data ← bStorage sid (cls_data iter_toms record);
             bWorld (onMessage p (fromBytes (drop 1 data)))
    | cached =>
        _ ← bWorld (onMessage p (fromBytes (drop 1 cached)));
        bWorld (update p (set_cachedStorageBytes []))
    end
  else mret tt.

(** The application has the message: remember it until it is acknowledged. *)
Definition track (c p : nat) : M broker unit :=
  cons ← bConsumer c get;
  s ← bSession (cs_session cons) get;
  match ss_mode s, cs_transactQueue cons with
  | SESSION_TRANSACTED, Some q => bWorld (queue_enqueue q (Some p))
  | AUTO_ACKNOWLEDGE, _ => mret tt
  | _, _ => modify (λ b, set_br_chains (link c p (br_chains b)) b)
  end.

Definition isExpiredNow (m : Message) : M broker bool :=
  if expiration (jmsHeaders m) =? 0 then mret false else now ← nowMs; mret (isExpired now m).

(** What a call of recv ends with: a pointer, null on a timeout, or no return at
    all when the timeout is negative and the queue empty. *)
Inductive received : Type := Returned (msg : Ptr) | Blocked.

Fixpoint recvLoop (fuel : nat) (c : nat) (usec_timeout : Z) (started : option Z) (remaining : Z) : M broker received :=
  match fuel with
  | O => undefined
  | S fuel =>
      cons ← bConsumer c get;
      r ← bWorld (queue_try_dequeue (cs_queue cons));
      match r with
      | None => mret (if remaining <? 0 then Blocked else Returned None)
      | Some None => mret (Returned None)
      | Some (Some p) =>
          _ ← rehydrate (cs_storage cons) p;
          m ← message p;
          expired ← isExpiredNow m;
          if (expired : bool) then
            _ ← (if isPersistent m then removeRecord (cs_storage cons) m else mret tt);
            if 0 <=? usec_timeout then
              started ← match started with Some t => mret t | None => readClock end;
              t ← readClock;
              let remaining := usec_timeout - (t - started) in
              if remaining <=? 0 then mret (Returned None)
              else recvLoop fuel c usec_timeout (Some started) remaining
            else recvLoop fuel c usec_timeout started remaining
          else
            _ ← track c p;
            mret (Returned (Some p))
      end
  end.
Definition recv (c : nat) (usec_timeout : Z) : M broker received :=
  cons ← bConsumer c get;
  n ← queueLength (cs_queue cons);
  recvLoop (S n) c usec_timeout None usec_timeout.

(** *** acknowledgeOn *)
Definition flushPendingAcks (c : nat) : M broker unit :=
  cons ← bConsumer c get;
  _ ← for_each (λ rec, bStorage (cs_storage cons) (cls_removeAsync iter_toms rec)) (cs_pendingAcks cons);
  bConsumer c (modify (set_pendingAcks [])).
Definition kDupsOkBatch : nat := 100.
Definition acknowledgeOn (c p : nat) : M broker unit :=
  cons ← bConsumer c get;
  s ← bSession (cs_session cons) get;
  if decide (ss_mode s = SESSION_TRANSACTED) then mret tt
  else
    _ ← modify (λ b, set_br_chains (unlink c p (br_chains b)) b);
    m ← message p;
    if isPersistent m then
      rec ← resolveRecord (cs_storage cons) m;
      if rec_tomId rec =? UINT32_MAX then mret tt
      else if decide (ss_mode s = DUPS_OK_ACKNOWLEDGE) then
        _ ← bConsumer c (modify (λ x, set_pendingAcks (cs_pendingAcks x ++ [rec]) x));
        if decide (kDupsOkBatch <= S (length (cs_pendingAcks cons)))%nat then flushPendingAcks c else mret tt
      else bStorage (cs_storage cons) (cls_removeAsync iter_toms rec)
    else mret tt.

(** *** Redelivery *)
Definition redeliver (c p : nat) (sessionClosing : bool) : M broker unit :=
  cons ← bConsumer c get;
  m ← message p;
  count ← checkS 32 (deliveryCount (jmsHeaders m) + 1);
  _ ← bWorld (update p (upd_hdr (λ h, set_deliveryCount count (set_redelivered true h))));
  x ← bDest (cs_destination cons) get;
  let policy := ds_redeliveryPolicy x in
  if (0 <=? maxRedeliveries policy) && (maxRedeliveries policy <? count) then
    _ ← deadLetter (cs_destination cons) p "maxRedeliveries exceeded";
    m ← message p;
    if isPersistent m then removeRecord (cs_storage cons) m else mret tt
  else
    let applyBackoff := negb sessionClosing && (0 <? backoffMs policy) in
    deliveryTime ←
      (if applyBackoff then
         delayMs ← require (backoffDelay (backoffMs policy) (maxBackoffMs policy) count);
         now ← nowMs; checkS 64 (now + delayMs)
       else mret 0);
    _ ← bWorld (update p (upd_hdr (set_deliveryTime deliveryTime)));
    m ← message p;
    m' ← require (refreshCachedStorageBytes m);
    _ ← bWorld (update p (λ _, m'));
    if applyBackoff then dest_enqueueOrSchedule (cs_destination cons) (cs_queue cons) (Some p)
    else bWorld (queue_enqueue (cs_queue cons) (Some p)).

Definition recoverConsumer (c : nat) : M broker unit :=
  b ← get;
  r ← drainAll br_chains set_br_chains (λ p, redeliver c p false) (chainFuel (br_chains b)) c;
  require r.
Definition clearInFlight (c : nat) : M broker unit :=
  b ← get;
  r ← drainAll br_chains set_br_chains (λ _, mret tt) (chainFuel (br_chains b)) c;
  require r.

(** *** Transactions *)
Fixpoint commitLoop (fuel c q : nat) : M broker unit :=
  match fuel with
  | O => undefined
  | S fuel =>
      r ← bWorld (queue_try_dequeue q);
      match r with
      | None => mret tt
      | Some None => commitLoop fuel c q
      | Some (Some p) =>
          m ← message p;
          cons ← bConsumer c get;
          _ ← (if isPersistent m then removeRecord (cs_storage cons) m else mret tt);
          commitLoop fuel c q
      end
  end.
Definition commitConsumer (c : nat) : M broker unit :=
  cons ← bConsumer c get;
  match cs_transactQueue cons with
  | None => mret tt
  | Some q => n ← queueLength q; commitLoop (S n) c q
  end.

Fixpoint rollbackLoop (fuel c q : nat) (sessionClosing : bool) : M broker unit :=
  match fuel with
  | O => undefined
  | S fuel =>
      r ← bWorld (queue_try_dequeue q);
      match r with
      | Some (Some p) => _ ← redeliver c p sessionClosing; rollbackLoop fuel c q sessionClosing
      | _ => mret tt
      end
  end.
Definition rollbackConsumer (c : nat) (sessionClosing : bool) : M broker unit :=
  cons ← bConsumer c get;
  match cs_transactQueue cons with
  | None => mret tt
  | Some q => n ← queueLength q; rollbackLoop (S n) c q sessionClosing
  end.

(** ~Consumer(), run when the last reference to the consumer goes. *)
Definition destroyConsumer (c : nat) : M broker unit :=
  _ ← flushPendingAcks c;
  _ ← catch (rollbackConsumer c false) (λ _, mret tt);
  _ ← clearInFlight c;
  modify (λ b, set_br_consumers (delete c (br_consumers b)) b).

(** *** What a send pushes *)
Definition transactionIdOf (producer : nat) : M broker string :=
  pr ← bProducer producer get; s ← bSession (pr_session pr) get; mret (ss_suffix s).

Definition preparePush (c : nat) (number : Z) (producer p : nat) : M broker nat :=
  cons ← bConsumer c get;
  m ← message p;
  cp ← alloc (copy m);
  cm ← message cp;
  _ ← (if decide (uuid cm = nullUUID) then
         u ← freshUUID; bWorld (update cp (set_uuid u))
       else mret tt);
  _ ← bWorld (update cp (set_number number));
  transactionId ← transactionIdOf producer;
  cm ← message cp;
  _ ← (if isPersistent cm then
         data ← require (storageBytes cm);
         _ ← bWorld (update cp (set_cachedStorageBytes data));
         if negb (bool_decide (transactionId = "")) then
           now1 ← readClock; now2 ← readClock;
           bTB (cs_destination cons) (addMessage now1 now2 transactionId (uuid cm) data)
         else
           rec ← bStorage (cs_storage cons) (cls_append iter_toms (uuid cm) data);
           bWorld (update cp (λ m, set_storageOffset (rec_offset rec) (set_storageTomId (rec_tomId rec) m)))
       else mret tt);
  mret cp.

Definition matchesSelector (sel : option filter_t) (m : Message) : bool :=
  match sel with Some f => filter_matches f m | None => true end.

Definition push (c : nat) (number : Z) (producer p : nat) : M broker unit :=
  cons ← bConsumer c get;
  m ← message p;
  if negb (matchesSelector (cs_selector cons) m) then mret tt
  else
    cp ← preparePush c number producer p;
    transactionId ← transactionIdOf producer;
    cm ← message cp;
    if decide (transactionId = "") then
      if deliveryTime (jmsHeaders cm) =? 0 then bWorld (queue_enqueue (cs_queue cons) (Some cp))
      else dest_enqueueOrSchedule (cs_destination cons) (cs_queue cons) (Some cp)
    else
      pr ← bProducer producer get;
      q ← require (pr_transactQueue pr);
      bWorld (queue_enqueue q (Some cp)).
End Consumer.
