(* ===== verification/Destination.v ===== *)
(** Destination (Destination.h/.cpp): the fan-out of a send to the consumers, the
    durable subscriptions of a topic with their replay, and the registries of
    consumers and producers. *)
From S2P Require Import Prelude Property Message JsonInstance StorageRecord PriorityQueue World DeliveryScheduler LinearStorage StorageWorker TransactionBuffer InFlight Broker Consumer.
From Stdlib Require Import Lia ZifyBool.

Section Destination.
Context {E : Environment}.

(** *** Construction of consumers and storages *)

(** Consumer::Consumer: a token is taken of the queue, and a transacted session
    gets a queue for what it has received. *)
Definition newConsumer (d session : nat) (queue : option nat) (storage : nat) (selector : option filter_t) : M broker nat :=
  q ← require queue;
  s ← bSession session get;
  tq ← (if decide (ss_mode s = SESSION_TRANSACTED) then q ← newQueue; mret (Some q) else mret None);
  c ← freshId;
  _ ← modify (λ b, set_br_consumers (<[c := mkConsumer d session q tq storage selector []]> (br_consumers b)) b);
  mret c.

(** std::make_shared<ConcurrentLinearStorage> over a directory, opened once. *)
Definition newStorage (dir : string) : M broker nat :=
  b ← get;
  sid ← freshId;
  let s := openStorage (default ∅ (br_dirs b !! dir)) in
  _ ← modify (λ b, set_br_storages (<[sid := s]> (br_storages b)) b);
  ok ← bStorage sid (s ← get; rebuildIndex (fuelOf s) (iter_toms s));
  if (ok : bool) then mret sid else undefined.

(** Destination::createDefaultConsumer *)
Definition createDefaultConsumer (d session : nat) : M broker (option nat) :=
  x ← bDest d get;
  _ ← (if isQueueFamily x then
         q ← match ds_queue x with
             | None => q ← newQueue; _ ← bDest d (modify (set_ds_queue (Some q))); mret q
             | Some q => mret q
             end;
         c ← newConsumer d session (Some q) (ds_storage x) None;
         bDest d (modify (λ x, set_ds_consumers (ds_consumers x ∪ {[c]}) (set_ds_defaultConsumer (Some c) x)))
       else mret tt);
  x ← bDest d get;
  mret (ds_defaultConsumer x).

(** *** Durable subscriptions *)

(** Destination::persistToOfflineSub *)
Definition persistToOfflineSub (sub : DurableSubState) (p : nat) : M broker unit :=
  m ← message p;
  let cp := copy m in
  cp ← (if decide (uuid cp = nullUUID) then u ← freshUUID; mret (set_uuid u cp) else mret cp);
  data ← require (storageBytes cp);
  _ ← bStorage (sub_storage sub) (cls_append iter_toms (uuid cp) data);
  mret tt.
(** The loop over _durableSubs in save and deliverCommitted. *)
Definition bufferOffline (d p : nat) : M broker unit :=
  x ← bDest d get;
  for_each (λ name,
    sub ← require (ds_durableSubs x !! name);
    m ← message p;
    if bool_decide (is_Some (sub_active sub)) then mret tt
    else if negb (matchesSelector (sub_selector sub) m) then mret tt
    else persistToOfflineSub sub p) (iter_subs (ds_durableSubs x)).

(** Destination::replayFromStorage *)
Definition shellOf (now : Z) (record : Rec) (data : bytes) : option Message :=
  match data with
  | [] => None
  | b :: _ =>
      shell ← makeMessageShell (byte.unsigned b);
      let t := deliveryTimeFromStorageBytes now data in
      let h := set_deliveryTime t (set_priority (priorityFromStorageBytes data) (jmsHeaders shell)) in
      let m := set_jmsHeaders h (set_cachedStorageBytes data
                 (set_reliability PERSISTENT (set_uuid (rec_uuid (rec_header record)) shell))) in
      Some (set_storageOffset (rec_offset record) (set_storageTomId (rec_tomId record) (patchCachedDeliveryTime t m)))
  end.
Definition replayFromStorage (d q sid : nat) : M broker unit :=
  records ← bStorage sid (cls_scan iter_toms);
  for_each (λ '(record, data),
    now ← nowMs;
    match shellOf now record data with
    | None => mret tt
    | Some m => p ← alloc m; dest_enqueueOrSchedule d q (Some p)
    end) records.
Definition replayStoredMessages (d q : nat) : M broker unit :=
  x ← bDest d get; replayFromStorage d q (ds_storage x).

(** Destination::durableKey, and the names createDurableConsumer gives a
    subscription's directory. *)
Definition durableKey (clientID subscriptionName : string) : string :=
  if decide (clientID = "") then subscriptionName
  else clientID +:+ String (Ascii.ascii_of_nat 31) subscriptionName.
Definition durableDir (clientID subscriptionName : string) : string :=
  if decide (clientID = "") then "durable-" +:+ subscriptionName
  else "durable-" +:+ (clientID +:+ ("-" +:+ subscriptionName)).
Definition durablePath (x : Destination) (clientID subscriptionName : string) : string :=
  ds_path x +:+ (durableDir clientID subscriptionName +:+ "/").

(** *** Consumers *)

(** Destination::createConsumer *)
Definition createConsumer (d session : nat) (selector : option filter_t) : M broker nat :=
  x ← bDest d get;
  c ← (if isQueueFamily x then
         _ ← match ds_defaultConsumer x with
             | Some dc => bDest d (modify (λ x, set_ds_defaultConsumer None (set_ds_consumers (ds_consumers x ∖ {[dc]}) x)))
             | None => mret tt
             end;
         c ← newConsumer d session (ds_queue x) (ds_storage x) selector;
         _ ← match ds_queue x with Some q => replayStoredMessages d q | None => mret tt end;
         mret c
       else
         q ← newQueue;
         newConsumer d session (Some q) (ds_storage x) selector);
  _ ← bDest d (modify (λ x, set_ds_consumers (ds_consumers x ∪ {[c]}) x));
  mret c.

(** Destination::createDurableConsumer *)
Definition createDurableConsumer (d session : nat) (clientID subscriptionName : string) (selector : option filter_t) : M broker nat :=
  x ← bDest d get;
  if negb (isTopicFamily x) then
    throw (PocoRuntime "Durable subscribers are only supported on topic destinations")
  else
    let key := durableKey clientID subscriptionName in
    sub ← match ds_durableSubs x !! key with
          | None =>
              sid ← newStorage (durablePath x clientID subscriptionName);
              mret (mkSub subscriptionName (durablePath x clientID subscriptionName) sid None selector)
          | Some sub =>
              match sub_active sub with
              | Some _ => throw (PocoRuntime "Durable subscription already has an active consumer")
              | None => mret (mkSub (sub_name sub) (sub_path sub) (sub_storage sub) None selector)
              end
          end;
    _ ← bDest d (modify (λ x, set_ds_durableSubs (<[key := sub]> (ds_durableSubs x)) x));
    q ← newQueue;
    c ← newConsumer d session (Some q) (sub_storage sub) selector;
    _ ← replayFromStorage d q (sub_storage sub);
    _ ← bDest d (modify (λ x,
          set_ds_consumerToSubName (<[c := key]> (ds_consumerToSubName x))
          (set_ds_durableSubs (<[key := mkSub (sub_name sub) (sub_path sub) (sub_storage sub) (Some c) selector]> (ds_durableSubs x))
          (set_ds_consumers (ds_consumers x ∪ {[c]}) x))));
    mret c.

(** Destination::deleteConsumer *)
Definition dest_deleteConsumer (d c : nat) : M broker unit :=
  _ ← bDest d (modify (λ x, set_ds_consumers (ds_consumers x ∖ {[c]}) x));
  bDest d (modify (λ x,
    match ds_consumerToSubName x !! c with
    | Some key =>
        set_ds_consumerToSubName (delete c (ds_consumerToSubName x))
          (set_ds_durableSubs
            (alter (λ s, mkSub (sub_name s) (sub_path s) (sub_storage s) None (sub_selector s)) key (ds_durableSubs x)) x)
    | None => x
    end)).

(** Destination::deleteSubscription: the storage is stopped and its directory
    removed. *)
Definition deleteSubscription (d : nat) (clientID subscriptionName : string) : M broker unit :=
  x ← bDest d get;
  let key := durableKey clientID subscriptionName in
  match ds_durableSubs x !! key with
  | None => mret tt
  | Some sub =>
      _ ← match sub_active sub with Some c => dest_deleteConsumer d c | None => mret tt end;
      _ ← modify (λ b, set_br_dirs
            (delete (sub_path sub) (br_dirs b)) b);
      bDest d (modify (λ x, set_ds_durableSubs (delete key (ds_durableSubs x)) x))
  end.

(** *** Producers *)
Definition createProducer (d session : nat) : M broker nat :=
  x ← bDest d get;
  _ ← (if isQueueFamily x then
         match iter_set (ds_consumers x) with
         | c :: _ => _ ← bConsumer c get; mret tt
         | [] => undefined
         end
       else mret tt);
  s ← bSession session get;
  tq ← (if decide (ss_mode s = SESSION_TRANSACTED) then q ← newQueue; mret (Some q) else mret None);
  p ← freshId;
  _ ← modify (λ b, set_br_producers (<[p := mkProducer d session (isQueueFamily x) tq false false None]> (br_producers b)) b);
  _ ← bDest d (modify (λ x, set_ds_producers (ds_producers x ∪ {[p]}) x));
  mret p.
Definition dest_deleteProducer (d p : nat) : M broker unit :=
  bDest d (modify (λ x, set_ds_producers (ds_producers x ∖ {[p]}) x)).

(** *** Sends *)

(** Destination::save *)
Fixpoint pushAll (queueFamily : bool) (number : Z) (producer p : nat) (consumers : list nat) : M broker unit :=
  match consumers with
  | [] => mret tt
  | c :: consumers =>
      _ ← push c number producer p;
      if queueFamily then mret tt else pushAll queueFamily number producer p consumers
  end.
Definition save (d producer p : nat) : M broker unit :=
  x ← bDest d get;
  let number := ds_messageCounter x in
  _ ← bDest d (modify (set_ds_messageCounter (wrapS 64 (number + 1))));
  _ ← pushAll (isQueueFamily x) number producer p (iter_set (ds_consumers x));
  m ← message p;
  transactionId ← transactionIdOf producer;
  if isTopicFamily x && isPersistent m && bool_decide (transactionId = "") then bufferOffline d p else mret tt.

(** Destination::deliverCommitted *)
Fixpoint deliverAll (d p : nat) (consumers : list nat) : M broker unit :=
  match consumers with
  | [] => mret tt
  | c :: consumers =>
      cons ← bConsumer c get;
      m ← message p;
      cp ← alloc (copy m);
      _ ← dest_enqueueOrSchedule d (cs_queue cons) (Some cp);
      deliverAll d p consumers
  end.
Definition deliverCommitted (d p : nat) : M broker unit :=
  x ← bDest d get;
  if isQueueFamily x then
    match iter_set (ds_consumers x) with
    | c :: _ => cons ← bConsumer c get; dest_enqueueOrSchedule d (cs_queue cons) (Some p)
    | [] => mret tt
    end
  else
    _ ← deliverAll d p (iter_set (ds_consumers x));
    m ← message p;
    if isPersistent m then bufferOffline d p else mret tt.
End Destination.
