(* ===== verification/Session.v ===== *)
(** Producer and Session (Producer.h/.cpp, Session.h/.cpp): send options, sends,
    and the transactions of a session over its producers and consumers. *)
From S2P Require Import Prelude Property Message JsonInstance StorageRecord PriorityQueue World DeliveryScheduler LinearStorage StorageWorker TransactionBuffer InFlight Broker Consumer Destination.
From Stdlib Require Import Lia ZifyBool.

Section Producer.
Context {E : Environment}.

(** validateSendOptions *)
Definition validateSendOptions {S} (opts : SendOptions) : M S unit :=
  if (so_priority opts <? 0) || (9 <? so_priority opts) then throw (StdInvalidArgument "priority must be in range 0..9")
  else if (so_timeToLive opts <? 0) || (so_deliveryDelay opts <? 0) then
    throw (StdInvalidArgument "timeToLive and deliveryDelay must be non-negative")
  else if (kMaxFutureHeaderMs <? so_timeToLive opts) || (kMaxFutureHeaderMs <? so_deliveryDelay opts) then
    throw (StdInvalidArgument "timeToLive and deliveryDelay must not exceed 10 years (ms)")
  else mret tt.

(** Producer::applyOptions, at clock reading [now]; signed overflow is undefined. *)
Definition applyOptions (now : Z) (opts : SendOptions) (transactional : bool) : M Message unit :=
  _ ← modify (set_reliability (so_deliveryMode opts));
  _ ← modify (upd_hdr (set_priority (so_priority opts)));
  e ← (if 0 <? so_timeToLive opts then checkS 64 (now + so_timeToLive opts) else mret 0);
  _ ← modify (upd_hdr (set_expiration e));
  if transactional then
    modify (λ m, set_pendingDeliveryDelay (so_deliveryDelay opts) (upd_hdr (set_deliveryTime 0) m))
  else
    t ← (if 0 <? so_deliveryDelay opts then checkS 64 (now + so_deliveryDelay opts) else mret 0);
    modify (λ m, set_pendingDeliveryDelay 0 (upd_hdr (set_deliveryTime t) m)).

(** Producer::setDefault and the disable flags *)
Definition setDefault (p : nat) (opts : SendOptions) : M broker unit :=
  _ ← validateSendOptions opts; bProducer p (modify (set_default (Some opts))).
Definition setDisableMessageID (p : nat) (value : bool) : M broker unit :=
  bProducer p (modify (set_disableMessageID value)).
Definition setDisableMessageTimestamp (p : nat) (value : bool) : M broker unit :=
  bProducer p (modify (set_disableMessageTimestamp value)).

(** Producer::dispatch *)
Definition fillHeaders (disableID disableTimestamp : bool) (now : Z) (m : Message) : Message :=
  let h := jmsHeaders m in
  let h := if disableID then set_messageId "" h
           else if decide (messageId h = "") then set_messageId ("ID:" +:+ uuid_toString (uuid m)) h else h in
  let h := if disableTimestamp then set_timestamp 0 h
           else if timestamp h =? 0 then set_timestamp now h else h in
  set_jmsHeaders h m.
Definition dispatchMessage (producer p : nat) : M broker unit :=
  pr ← bProducer producer get;
  m ← message p;
  now ← (if negb (pr_disableMessageTimestamp pr) && (timestamp (jmsHeaders m) =? 0) then nowMs else mret 0);
  _ ← bWorld (update p (fillHeaders (pr_disableMessageID pr) (pr_disableMessageTimestamp pr) now));
  save (pr_destination pr) producer p.

Definition applyTo (producer p : nat) (opts : SendOptions) : M broker unit :=
  transactionId ← transactionIdOf producer;
  now ← nowMs;
  bWorld (onMessage p (applyOptions now opts (negb (bool_decide (transactionId = ""))))).
(** Producer::send, without and with options *)
Definition send (producer p : nat) : M broker unit :=
  pr ← bProducer producer get;
  _ ← match pr_default pr with Some opts => applyTo producer p opts | None => mret tt end;
  dispatchMessage producer p.
Definition sendWith (producer p : nat) (opts : SendOptions) : M broker unit :=
  _ ← validateSendOptions opts;
  _ ← applyTo producer p opts;
  dispatchMessage producer p.

(** Producer::commit: the staged messages with their delay resolved. *)
Definition resolveDelay (d : nat) (now : Z) (p : nat) : M broker unit :=
  m ← message p;
  if 0 <? pendingDeliveryDelay m then
    t ← checkS 64 (now + pendingDeliveryDelay m);
    _ ← bWorld (update p (λ m, set_pendingDeliveryDelay 0 (upd_hdr (set_deliveryTime t) m)));
    if isPersistent m then
      _ ← patchPendingDeliveryTime d (uuid m) t;
      bWorld (update p (patchCachedDeliveryTime t))
    else mret tt
  else mret tt.
Fixpoint stage (fuel d q : nat) (now : Z) : M broker (list nat) :=
  match fuel with
  | O => undefined
  | S fuel =>
      r ← bWorld (queue_try_dequeue q);
      match r with
      | None => mret []
      | Some None => stage fuel d q now
      | Some (Some p) =>
          _ ← resolveDelay d now p;
          rest ← stage fuel d q now; mret (p :: rest)
      end
  end.
Definition commitProducer (producer : nat) (transactionId : string) : M broker unit :=
  pr ← bProducer producer get;
  match pr_transactQueue pr with
  | None => mret tt
  | Some q =>
      now ← nowMs;
      n ← queueLength q;
      staged ← stage (S n) (pr_destination pr) q now;
      _ ← dest_commitTransaction (pr_destination pr) transactionId;
      for_each (deliverCommitted (pr_destination pr)) staged
  end.

Fixpoint discard (fuel q : nat) : M broker unit :=
  match fuel with
  | O => undefined
  | S fuel =>
      r ← bWorld (queue_try_dequeue q);
      match r with None => mret tt | Some _ => discard fuel q end
  end.
Definition rollbackProducer (producer : nat) (transactionId : string) : M broker unit :=
  pr ← bProducer producer get;
  match pr_transactQueue pr with
  | None => mret tt
  | Some q =>
      _ ← dest_rollbackTransaction (pr_destination pr) transactionId;
      n ← queueLength q; discard (S n) q
  end.
(** ~Producer() *)
Definition destroyProducer (producer : nat) : M broker unit :=
  pr ← bProducer producer get;
  transactionId ← transactionIdOf producer;
  _ ← rollbackProducer producer transactionId;
  modify (λ b, set_br_producers (delete producer (br_producers b)) b).
End Producer.

Section Session.
Context {E : Environment}.

(** Session::Session *)
Definition newSession (mode : AcknowledgeMode) (clientID : string) : M broker nat :=
  sid ← freshId;
  suffix ← (if decide (mode = SESSION_TRANSACTED) then u ← freshUUID; mret (uuid_toString u) else mret "");
  _ ← modify (λ b, set_br_sessions (<[sid := mkSession mode clientID suffix ∅ ∅]> (br_sessions b)) b);
  mret sid.

Definition ss_createConsumer (s d : nat) : M broker nat :=
  c ← createConsumer d s None;
  _ ← bSession s (modify (λ x, set_ss_consumers (ss_consumers x ∪ {[c]}) x)); mret c.
Definition parseSelector (expr : string) : M broker filter_t :=
  match filter_parse expr with inl f => mret f | inr e => throw e end.
Definition ss_createConsumerSelector (s d : nat) (expr : string) : M broker nat :=
  f ← parseSelector expr;
  c ← createConsumer d s (Some f);
  _ ← bSession s (modify (λ x, set_ss_consumers (ss_consumers x ∪ {[c]}) x)); mret c.
Definition ss_createDurableConsumer (s d : nat) (subscriptionName : string) : M broker nat :=
  x ← bSession s get;
  c ← createDurableConsumer d s (ss_clientID x) subscriptionName None;
  _ ← bSession s (modify (λ x, set_ss_consumers (ss_consumers x ∪ {[c]}) x)); mret c.
Definition ss_createDurableConsumerSelector (s d : nat) (subscriptionName expr : string) : M broker nat :=
  f ← parseSelector expr;
  x ← bSession s get;
  c ← createDurableConsumer d s (ss_clientID x) subscriptionName (Some f);
  _ ← bSession s (modify (λ x, set_ss_consumers (ss_consumers x ∪ {[c]}) x)); mret c.
Definition unsubscribe (s d : nat) (subscriptionName : string) : M broker unit :=
  x ← bSession s get; deleteSubscription d (ss_clientID x) subscriptionName.
Definition ss_createProducer (s d : nat) : M broker nat :=
  p ← createProducer d s;
  _ ← bSession s (modify (λ x, set_ss_producers (ss_producers x ∪ {[p]}) x)); mret p.
Definition ss_deleteConsumer (s c : nat) : M broker unit :=
  x ← bSession s get;
  if decide (c ∈ ss_consumers x) then
    cons ← bConsumer c get;
    _ ← dest_deleteConsumer (cs_destination cons) c;
    bSession s (modify (λ x, set_ss_consumers (ss_consumers x ∖ {[c]}) x))
  else mret tt.
Definition ss_deleteProducer (s p : nat) : M broker unit :=
  x ← bSession s get;
  if decide (p ∈ ss_producers x) then
    pr ← bProducer p get;
    _ ← dest_deleteProducer (pr_destination pr) p;
    bSession s (modify (λ x, set_ss_producers (ss_producers x ∖ {[p]}) x))
  else mret tt.

(** Session::createTextMessage and the other factories: a message of the session's
    own uuid, which the application then owns. *)
Definition createMessage (data : Body) (r : Reliability) : M broker nat :=
  u ← freshUUID; alloc (set_reliability r (set_uuid u (newMessage data))).
Definition createTextMessage (text : string) := createMessage (TextBody text).
Definition createMapMessage := createMessage (MapBody ∅).
Definition createStreamMessage := createMessage (emptyBody STREAM_MESSAGE).
Definition createBytesMessage (data : bytes) := createMessage (BytesBody data).
Definition createObjectMessage (obj : bytes) (className : string) := createMessage (ObjectBody obj className).

(** Session::commit and rollback: the transaction id is empty while they run. *)
Definition commitSession (s : nat) : M broker unit :=
  x ← bSession s get;
  let oldSuffix := ss_suffix x in
  _ ← bSession s (modify (set_suffix ""));
  _ ← for_each (λ p, commitProducer p oldSuffix) (iter_set (ss_producers x));
  _ ← for_each commitConsumer (iter_set (ss_consumers x));
  u ← freshUUID;
  bSession s (modify (set_suffix (uuid_toString u))).
Definition rollbackSession (s : nat) (sessionClosing : bool) : M broker unit :=
  x ← bSession s get;
  let oldSuffix := ss_suffix x in
  _ ← bSession s (modify (set_suffix ""));
  _ ← for_each (λ p, rollbackProducer p oldSuffix) (iter_set (ss_producers x));
  _ ← for_each (λ c, rollbackConsumer c sessionClosing) (iter_set (ss_consumers x));
  u ← freshUUID;
  bSession s (modify (set_suffix (uuid_toString u))).

(** Session::recover *)
Definition recoverSession (s : nat) : M broker unit :=
  x ← bSession s get;
  if decide (ss_mode x = SESSION_TRANSACTED) then
    throw (IllegalStateException "Session.recover() is not valid on a transacted session; use rollback() instead")
  else for_each recoverConsumer (iter_set (ss_consumers x)).

(** ~Session() *)
Definition destroySession (s : nat) : M broker unit :=
  _ ← catch (rollbackSession s true) (λ _, mret tt);
  x ← bSession s get;
  _ ← for_each (λ c, cons ← bConsumer c get; dest_deleteConsumer (cs_destination cons) c) (iter_set (ss_consumers x));
  for_each (λ p, pr ← bProducer p get; dest_deleteProducer (pr_destination pr) p) (iter_set (ss_producers x)).
End Session.
