(* ===== verification/Connection.v ===== *)
(** Connection, ConnectionFactory and Exchange (Connection.h/.cpp,
    ConnectionFactory.h/.cpp, ConnectionMetaData.h, Exchange.h/.cpp,
    DestinationHash.cpp): the process around the broker's objects, with the life cycle
    of a connection and its sessions, the registry of destinations, and what an
    orderly shutdown leaves on disk for the next start.

    Every method of Connection and Exchange::create holds the object's mutex from its
    first to its last access, so that a call is one step. *)
From S2P Require Import Prelude Property Message JsonInstance StorageRecord PriorityQueue World DeliveryScheduler LinearStorage StorageWorker TransactionBuffer InFlight Broker Consumer Destination Session.
From stdpp Require Import pretty.
From Stdlib Require Import Lia ZifyBool.

(** Connection; the exception listener is application code, known by an identity,
    and the sessions by theirs, in creation order. *)
Record Connection : Type := mkConnection {
  cn_clientID : string;
  cn_started : bool;
  cn_closed : bool;
  cn_exceptionListener : option nat;
  cn_sessions : list nat
}.
Definition set_clientID x (c : Connection) := mkConnection x (cn_started c) (cn_closed c) (cn_exceptionListener c) (cn_sessions c).
Definition set_started x (c : Connection) := mkConnection (cn_clientID c) x (cn_closed c) (cn_exceptionListener c) (cn_sessions c).
Definition set_closed x (c : Connection) := mkConnection (cn_clientID c) (cn_started c) x (cn_exceptionListener c) (cn_sessions c).
Definition set_listener x (c : Connection) := mkConnection (cn_clientID c) (cn_started c) (cn_closed c) x (cn_sessions c).
Definition set_cn_sessions x (c : Connection) := mkConnection (cn_clientID c) (cn_started c) (cn_closed c) (cn_exceptionListener c) x.

(** ConnectionMetaData *)
Record ConnectionMetaData : Type := mkMetaData {
  providerName : string;
  providerVersion : string;
  providerMajorVersion : Z;
  providerMinorVersion : Z;
  jmsVersion : string;
  jmsMajorVersion : Z;
  jmsMinorVersion : Z;
  jmsxPropertyNames : list string
}.
Definition metadata : ConnectionMetaData :=
  mkMetaData "tiny-mq" "0.1" 0 1 "2.0" 2 0 ["JMSXDeliveryCount"; "JMSXDeadLetterReason"].

Section Process.
Context {E : Environment}.

(** A process: the broker's objects, the exchange with its directory, the
    connections, and the transaction logs on disk by directory. *)
Record process : Type := mkProcess {
  pc_broker : broker;
  pc_path : string;
  pc_destinations : gmap Z nat;
  pc_connections : gmap nat Connection;
  pc_logs : gmap string string
}.
Definition set_broker x (p : process) := mkProcess x (pc_path p) (pc_destinations p) (pc_connections p) (pc_logs p).
Definition set_destinations x (p : process) := mkProcess (pc_broker p) (pc_path p) x (pc_connections p) (pc_logs p).
Definition set_connections x (p : process) := mkProcess (pc_broker p) (pc_path p) (pc_destinations p) x (pc_logs p).
Definition set_logs x (p : process) := mkProcess (pc_broker p) (pc_path p) (pc_destinations p) (pc_connections p) x.

(** An operation on the broker's objects, and on one connection. *)
Definition pBroker {A} (op : M broker A) : M process A := λ p,
  match op (pc_broker p) with
  | Ok a b => Ok a (set_broker b p)
  | Exn e b => Exn e (set_broker b p)
  | UB => UB
  end.
Definition pConn {A} (c : nat) (op : M Connection A) : M process A := λ p,
  match pc_connections p !! c with
  | Some x =>
      match op x with
      | Ok a y => Ok a (set_connections (<[c := y]> (pc_connections p)) p)
      | Exn e y => Exn e (set_connections (<[c := y]> (pc_connections p)) p)
      | UB => UB
      end
  | None => UB
  end.

(** *** Exchange *)

(** destination::hash, and Destination::_uri *)
Definition uri (type : DestinationType) (name : string) : string := TypeName type +:+ ("://" +:+ name).
Definition hash (type : DestinationType) (name : string) : Z := poco_hash (uri type name).

(** Destination::Destination: the storage of its directory is opened, and its
    transaction buffer recovers from the log there. *)
Definition newDestination (type : DestinationType) (name path : string) : M process nat :=
  sid ← pBroker (newStorage path);
  now ← pBroker readClock;
  p ← get;
  match TransactionBuffer.restart iter_transactions now (freshTB (log_opens path) (default "" (pc_logs p !! path))) with
  | Ok _ tb =>
      d ← pBroker freshId;
      _ ← pBroker (modify (λ b, set_br_destinations (<[d :=
            mkDestination type name path 0 ∅ ∅ None None sid tb newScheduler ∅ ∅ defaultPolicy]> (br_destinations b)) b));
      mret d
  | Exn e _ => throw e
  | UB => undefined
  end.

(** Exchange::create *)
Definition exchange_create (type : DestinationType) (name : string) : M process nat :=
  p ← get;
  let h := hash type name in
  match pc_destinations p !! h with
  | Some d => mret d
  | None =>
      d ← newDestination type name (pc_path p +:+ (pretty h +:+ "/"));
      _ ← modify (λ p, set_destinations (<[h := d]> (pc_destinations p)) p);
      mret d
  end.

(** Session::createDestination *)
Definition createDestination (s : nat) (type : DestinationType) (name : string) : M process nat :=
  d ← exchange_create type name;
  _ ← pBroker (createDefaultConsumer d s);
  mret d.

(** *** Connection *)

(** Connection::ensureOpen *)
Definition ensureOpen : M Connection unit :=
  c ← get; if cn_closed c then throw (IllegalStateException "connection is closed") else mret tt.

(** ConnectionFactory::createConnection *)
Definition createConnection : M process nat :=
  c ← pBroker freshId;
  _ ← modify (λ p, set_connections (<[c := mkConnection "" false false None []]> (pc_connections p)) p);
  mret c.

(** Connection::createSession *)
Definition createSession (c : nat) (mode : AcknowledgeMode) : M process nat :=
  _ ← pConn c ensureOpen;
  x ← pConn c get;
  s ← pBroker (newSession mode (cn_clientID x));
  _ ← pConn c (modify (λ x, set_cn_sessions (cn_sessions x ++ [s]) x));
  mret s.

(** Connection::start and stop *)
Definition start : M Connection unit := _ ← ensureOpen; modify (set_started true).
Definition stop : M Connection unit := _ ← ensureOpen; modify (set_started false).
Definition isStarted : M Connection bool := gets cn_started.

(** Connection::setClientID *)
Definition setClientID (clientID : string) : M Connection unit :=
  _ ← ensureOpen;
  c ← get;
  if negb (bool_decide (cn_clientID c = "")) then throw (IllegalStateException "clientID is already set")
  else if negb (bool_decide (cn_sessions c = [])) || cn_started c then
    throw (IllegalStateException "clientID must be set before the connection is used")
  else modify (set_clientID clientID).

(** Connection::setExceptionListener; onException gives the listener it calls and
    what with. *)
Definition setExceptionListener (listener : option nat) : M Connection unit :=
  _ ← ensureOpen; modify (set_listener listener).
Definition onException (ex : exn) : M Connection (option (nat * exn)) :=
  c ← get; mret ((λ l, (l, ex)) <$> cn_exceptionListener c).

(** Destroying a session, with its unique_ptr. *)
Definition deleteSession (s : nat) : M broker unit :=
  _ ← destroySession s;
  modify (λ b, set_br_sessions (delete s (br_sessions b)) b).

(** Connection::close *)
Definition close (c : nat) : M process unit :=
  x ← pConn c get;
  if cn_closed x then mret tt
  else
    _ ← pConn c (modify (set_closed true));
    _ ← pBroker (for_each deleteSession (cn_sessions x));
    pConn c (modify (λ x, set_started false (set_cn_sessions [] x))).
(** ~Connection() *)
Definition destroyConnection (c : nat) : M process unit :=
  _ ← close c; modify (λ p, set_connections (delete c (pc_connections p)) p).

(** *** Shutdown *)

(** What the files of a storage hold. *)
Definition files (s : Storage) : gmap Z bytes := tom_file <$> toms s.
(** ~Destination(): nothing is left but the files of its storages and its log. *)
Definition leave (b : broker) (path : string) (sid : nat) (dirs : gmap string (gmap Z bytes)) : gmap string (gmap Z bytes) :=
  match br_storages b !! sid with Some s => <[path := files s]> dirs | None => dirs end.
Definition destroyDestination (d : nat) : M process unit :=
  p ← get;
  let b := pc_broker p in
  x ← require (br_destinations b !! d);
  let subs := (map_to_list (ds_durableSubs x)).*2 in
  let dirs := foldr (λ sub dirs, leave b (sub_path sub) (sub_storage sub) dirs) (br_dirs b) subs in
  _ ← pBroker (modify (λ b, set_br_dirs (leave b (ds_path x) (ds_storage x) dirs)
        (set_br_destinations (delete d (br_destinations b)) b)));
  modify (λ p, set_logs (<[ds_path x := transactionLog (ds_transactionBuffer x)]> (pc_logs p)) p).
(** ~Exchange(), when nothing else points to the destinations any more. *)
Definition destroyExchange : M process unit :=
  p ← get;
  _ ← for_each destroyDestination (map_to_list (pc_destinations p)).*2;
  modify (set_destinations ∅).
End Process.
