(* ===== verification/ConnectionFacts.v ===== *)
(** The invariant of a process: whatever sequence of calls its clients make, however
    they end, the sessions of a connection carry its client id, a closed connection is
    empty and stopped, and the exchange's registry leads to the destinations it was
    asked for. The first part shows what every operation of the broker leaves alone. *)
From S2P Require Import Prelude Property Message JsonInstance StorageRecord PriorityQueue World DeliveryScheduler LinearStorage StorageWorker TransactionBuffer InFlight Broker Consumer Destination Session Connection.
From Stdlib Require Import Lia ZifyBool.

Create HintDb keep.

Section Keeping.
Context {E : Environment}.

(** *** What the broker's operations leave alone *)

(** What never changes about a session and about a destination. *)
Definition same_session (x y : Session) : Prop := ss_mode y = ss_mode x ∧ ss_clientID y = ss_clientID x.
Definition same_destination (x y : Destination) : Prop :=
  ds_type y = ds_type x ∧ ds_name y = ds_name x ∧ ds_path y = ds_path x ∧ ds_storage y = ds_storage x.
#[export] Instance same_session_preorder : PreOrder same_session.
Proof. split; [by intros x|intros x y z [] []; split; congruence]. Qed.
#[export] Instance same_destination_preorder : PreOrder same_destination.
Proof. split; [by intros x|intros x y z (?&?&?&?) (?&?&?&?); split_and!; congruence]. Qed.

(** Identities are taken in order. *)
Record bounded (b : broker) : Prop := {
  bd_session : ∀ s x, br_sessions b !! s = Some x → (s < br_fresh b)%nat;
  bd_destination : ∀ d x, br_destinations b !! d = Some x → (d < br_fresh b)%nat
}.
(** From [b] to [b'] no session but those of [X] and no destination goes away or
    becomes another, and no session comes back. *)
Record keeps (X : gset nat) (b b' : broker) : Prop := {
  kp_bounded : bounded b';
  kp_fresh : (br_fresh b <= br_fresh b')%nat;
  kp_session : ∀ s x, s ∉ X → br_sessions b !! s = Some x → ∃ y, br_sessions b' !! s = Some y ∧ same_session x y;
  kp_destination : ∀ d x, br_destinations b !! d = Some x → ∃ y, br_destinations b' !! d = Some y ∧ same_destination x y;
  kp_gone : ∀ s, (s < br_fresh b)%nat → br_sessions b !! s = None → br_sessions b' !! s = None
}.
Definition keeping {A} (X : gset nat) (op : M broker A) : Prop := ∀ b, bounded b →
  match op b with Ok _ b' | Exn _ b' => keeps X b b' | UB => True end.

Lemma keeps_refl X b : bounded b → keeps X b b.
Proof. intros H. split; [done|done| | |done]; intros ? x; [intros _|]; intros ?; by exists x. Qed.
Lemma keeps_trans X b1 b2 b3 : keeps X b1 b2 → keeps X b2 b3 → keeps X b1 b3.
Proof.
  intros [A1 A2 A3 A4 A5] [B1 B2 B3 B4 B5]. split; [done|lia| | |intros s Hs H; apply B5; [lia|by apply A5]].
  - intros s x Hs Hx. destruct (A3 s x Hs Hx) as (y & Hy & H1). destruct (B3 s y Hs Hy) as (z & Hz & H2).
    exists z. split; [done|]. by transitivity y.
  - intros d x Hx. destruct (A4 d x Hx) as (y & Hy & H1). destruct (B4 d y Hy) as (z & Hz & H2).
    exists z. split; [done|]. by transitivity y.
Qed.

Lemma keeping_ret {A} X (a : A) : keeping X (mret a).
Proof. intros b Hb. by apply keeps_refl. Qed.
Lemma keeping_throw {A} X e : keeping X (throw e : M broker A).
Proof. intros b Hb. by apply keeps_refl. Qed.
Lemma keeping_undefined {A} X : keeping X (undefined : M broker A).
Proof. done. Qed.
Lemma keeping_require {A} X (o : option A) : keeping X (require o).
Proof. destruct o; [apply keeping_ret|apply keeping_undefined]. Qed.
Lemma keeping_get X : keeping X get.
Proof. intros b Hb. by apply keeps_refl. Qed.
Lemma keeping_bind {A B} X (op : M broker A) (f : A → M broker B) :
  keeping X op → (∀ a, keeping X (f a)) → keeping X (op ≫= f).
Proof.
  intros H1 H2 b Hb. unfold mbind, M_bind. specialize (H1 b Hb). destruct (op b) as [a b'|e b'|]; [|done|done].
  specialize (H2 a b' (kp_bounded _ _ _ H1)). destruct (f a b'); [by eapply keeps_trans..|done].
Qed.
Lemma keeping_catch {A} X (op : M broker A) h : keeping X op → (∀ e, keeping X (h e)) → keeping X (catch op h).
Proof.
  intros H1 H2 b Hb. unfold catch. specialize (H1 b Hb). destruct (op b) as [a b'|e b'|]; [done| |done].
  specialize (H2 e b' (kp_bounded _ _ _ H1)). destruct (h e b'); [by eapply keeps_trans..|done].
Qed.
Lemma keeping_for_each {A} X (f : A → M broker unit) l : (∀ x, keeping X (f x)) → keeping X (for_each f l).
Proof. intros H. induction l as [|x l IH]; simpl; [apply keeping_ret|by apply keeping_bind]. Qed.

(** A change that touches neither sessions nor destinations nor identities. *)
Definition apart (b b' : broker) : Prop :=
  br_sessions b' = br_sessions b ∧ br_destinations b' = br_destinations b ∧ br_fresh b' = br_fresh b.
Lemma keeps_apart X b b' : bounded b → apart b b' → keeps X b b'.
Proof.
  intros [B1 B2] (H1 & H2 & H3). split; [split; rewrite ?H1, ?H2, ?H3; done|lia| | |by rewrite H1]; rewrite ?H1, ?H2;
    intros ? x; [intros _|]; intros ?; by exists x.
Qed.
Lemma keeping_modify X (f : broker → broker) : (∀ b, apart b (f b)) → keeping X (modify f).
Proof. intros H b Hb. by apply keeps_apart. Qed.
Lemma keeping_zoom {S A} X rd (wr : S → broker → broker) (op : M S A) :
  (∀ s b, apart b (wr s b)) → keeping X (zoom rd wr op).
Proof. intros H b Hb. unfold zoom. destruct (rd b) as [s|]; [|done]. by destruct (op s); [apply keeps_apart..|]. Qed.
Lemma keeping_world {A} X (op : M world A) : keeping X (bWorld op).
Proof. by apply keeping_zoom. Qed.
Lemma keeping_storage {A} X sid (op : M Storage A) : keeping X (bStorage sid op).
Proof. by apply keeping_zoom. Qed.
Lemma keeping_consumer {A} X c (op : M Consumer A) : keeping X (bConsumer c op).
Proof. by apply keeping_zoom. Qed.
Lemma keeping_producer {A} X p (op : M Producer A) : keeping X (bProducer p op).
Proof. by apply keeping_zoom. Qed.
Lemma keeping_clock X : keeping X readClock.
Proof. intros b Hb. by apply keeps_apart. Qed.
Lemma keeping_uuid X : keeping X freshUUID.
Proof. intros b Hb. by apply keeps_apart. Qed.
Lemma keeping_id X : keeping X freshId.
Proof.
  intros b Hb. simpl. split.
  - split; intros ? x Hx; apply Hb in Hx; simpl; lia.
  - simpl. lia.
  - intros s x _ Hx. by exists x.
  - intros d x Hx. by exists x.
  - done.
Qed.
(** An operation on a destination or session that leaves it the same. *)
Definition staying {S A} (R : S → S → Prop) (op : M S A) : Prop :=
  ∀ x, match op x with Ok _ y | Exn _ y => R x y | UB => True end.

Lemma keeps_destination X b d x y : bounded b → br_destinations b !! d = Some x → same_destination x y →
  keeps X b (set_br_destinations (<[d := y]> (br_destinations b)) b).
Proof.
  intros [B1 B2] Hd Hxy. split; simpl.
  - split; simpl; [done|]. intros d' z [[<- _]|[_ Hz]]%lookup_insert_Some; eauto.
  - done.
  - intros s z _ Hz. by exists z.
  - intros d' z Hz. destruct (decide (d = d')) as [<-|Hne].
    + rewrite lookup_insert_eq. exists y. split; [done|]. congruence.
    + rewrite lookup_insert_ne by done. by exists z.
  - done.
Qed.
Lemma keeping_dest {A} X d (op : M Destination A) : staying same_destination op → keeping X (bDest d op).
Proof.
  intros H b Hb. unfold bDest, zoom. destruct (br_destinations b !! d) as [x|] eqn:Hd; [|done].
  specialize (H x). destruct (op x); [by eapply keeps_destination..|done].
Qed.
Lemma keeps_session X b s x y : bounded b → br_sessions b !! s = Some x → same_session x y →
  keeps X b (set_br_sessions (<[s := y]> (br_sessions b)) b).
Proof.
  intros [B1 B2] Hs Hxy. split; simpl.
  - split; simpl; [|done]. intros s' z [[<- _]|[_ Hz]]%lookup_insert_Some; eauto.
  - done.
  - intros s' z _ Hz. destruct (decide (s = s')) as [<-|Hne].
    + rewrite lookup_insert_eq. exists y. split; [done|]. congruence.
    + rewrite lookup_insert_ne by done. by exists z.
  - intros d z Hz. by exists z.
  - intros s' _ Hz. rewrite lookup_insert_ne; [done|]. intros ->. by rewrite Hs in Hz.
Qed.
Lemma keeping_session {A} X s (op : M Session A) : staying same_session op → keeping X (bSession s op).
Proof.
  intros H b Hb. unfold bSession, zoom. destruct (br_sessions b !! s) as [x|] eqn:Hs; [|done].
  specialize (H x). destruct (op x); [by eapply keeps_session..|done].
Qed.
Lemma alter_insert {V} (f : V → V) (m : gmap nat V) i x : m !! i = Some x → alter f i m = <[i := f x]> m.
Proof.
  intros Hx. apply map_eq. intros j. destruct (decide (i = j)) as [<-|].
  - by rewrite lookup_alter_eq, Hx, lookup_insert_eq.
  - by rewrite lookup_alter_ne, lookup_insert_ne.
Qed.
Lemma keeping_TB {A} X d (op : M TB A) : keeping X (bTB d op).
Proof.
  intros b Hb. unfold bTB, zoom. destruct (br_destinations b !! d) as [x|] eqn:Hd; [|done].
  simpl. destruct (op _); [..|done]; rewrite (alter_insert _ _ _ _ Hd); by eapply keeps_destination.
Qed.
Lemma keeping_sched {A} X d (op : M system A) : keeping X (bSched d op).
Proof.
  intros b Hb. unfold bSched, zoom. destruct (br_destinations b !! d) as [x|] eqn:Hd; [|done].
  assert (Hk : ∀ sc w, keeps X b (set_br_world w (set_br_destinations (alter (set_ds_scheduler sc) d (br_destinations b)) b))).
  { intros sc w. rewrite (alter_insert _ _ _ _ Hd). pose proof (keeps_destination X b d x (set_ds_scheduler sc x) Hb Hd) as H.
    eapply keeps_trans; [by apply H|]. apply keeps_apart; [|done]. by eapply kp_bounded, H. }
  simpl. destruct (op _) as [a [s w]|e [s w]|]; [apply Hk|apply Hk|done].
Qed.
End Keeping.

#[export] Hint Resolve keeping_ret keeping_throw keeping_undefined keeping_require keeping_get keeping_world
  keeping_storage keeping_consumer keeping_producer keeping_clock keeping_uuid keeping_id keeping_TB keeping_sched : keep.
(** A modification of one object, or of a part of the state that is apart. *)
Ltac stay := let x := fresh "x" in intros x; simpl; repeat case_match; by split_and!.
#[export] Hint Extern 2 (keeping _ (bDest _ _)) => apply keeping_dest; stay : keep.
#[export] Hint Extern 2 (keeping _ (bSession _ _)) => apply keeping_session; stay : keep.
#[export] Hint Extern 2 (keeping _ (modify _)) => apply keeping_modify; stay : keep.
Ltac keep :=
  repeat first
    [ solve [auto with keep nocore]
    | match goal with
      | |- keeping _ (mbind _ _) => apply keeping_bind; [|intros ?]
      | |- keeping _ (catch _ _) => apply keeping_catch; [|intros ?]
      | |- keeping _ (for_each _ _) => apply keeping_for_each; intros ?
      end
    | case_match ].

Section Operations.
Context {E : Environment} (X : gset nat).

(** Broker.v *)
Lemma keeping_nowMs : keeping X nowMs.
Proof. unfold nowMs. keep. Qed.
Hint Resolve keeping_nowMs : keep.
Lemma keeping_alloc m : keeping X (alloc m).
Proof. unfold alloc. keep. Qed.
Lemma keeping_newQueue : keeping X newQueue.
Proof. unfold newQueue. keep. Qed.
Lemma keeping_message p : keeping X (message p).
Proof. unfold message. keep. Qed.
Lemma keeping_queueLength q : keeping X (queueLength q).
Proof. unfold queueLength. keep. Qed.
Lemma keeping_enqueueOrSchedule d q m : keeping X (dest_enqueueOrSchedule d q m).
Proof. unfold dest_enqueueOrSchedule. keep. Qed.
Lemma keeping_patchPending d u t : keeping X (patchPendingDeliveryTime d u t).
Proof. unfold patchPendingDeliveryTime. keep. Qed.
Lemma keeping_setRedeliveryPolicy d policy : keeping X (setRedeliveryPolicy d policy).
Proof. unfold setRedeliveryPolicy. keep. Qed.
Lemma keeping_commitTransaction d t : keeping X (dest_commitTransaction d t).
Proof. unfold dest_commitTransaction. keep. Qed.
Lemma keeping_rollbackTransaction d t : keeping X (dest_rollbackTransaction d t).
Proof. unfold dest_rollbackTransaction. keep. Qed.
Hint Resolve keeping_alloc keeping_newQueue keeping_message keeping_queueLength keeping_enqueueOrSchedule
  keeping_patchPending keeping_commitTransaction keeping_rollbackTransaction : keep.
Lemma keeping_deadLetter d p reason : keeping X (deadLetter d p reason).
Proof. unfold deadLetter, deadLetterBody. keep. Qed.
Hint Resolve keeping_deadLetter : keep.

(** Consumer.v *)
Lemma keeping_removeRecord sid m : keeping X (removeRecord sid m).
Proof. unfold removeRecord, resolveRecord. keep. Qed.
Lemma keeping_rehydrate sid p : keeping X (rehydrate sid p).
Proof. unfold rehydrate. keep. Qed.
Lemma keeping_track c p : keeping X (track c p).
Proof. unfold track. keep. Qed.
Lemma keeping_isExpiredNow m : keeping X (isExpiredNow m).
Proof. unfold isExpiredNow. keep. Qed.
Hint Resolve keeping_removeRecord keeping_rehydrate keeping_track keeping_isExpiredNow : keep.
Lemma keeping_recvLoop fuel c t : ∀ started remaining, keeping X (recvLoop fuel c t started remaining).
Proof. induction fuel as [|fuel IH]; intros; simpl; keep. Qed.
Hint Resolve keeping_recvLoop : keep.
Lemma keeping_recv c t : keeping X (recv c t).
Proof. unfold recv. keep. Qed.
Lemma keeping_flush c : keeping X (flushPendingAcks c).
Proof. unfold flushPendingAcks. keep. Qed.
Hint Resolve keeping_flush : keep.
Lemma keeping_acknowledgeOn c p : keeping X (acknowledgeOn c p).
Proof. unfold acknowledgeOn, resolveRecord. keep. Qed.
Lemma keeping_redeliver c p closing : keeping X (redeliver c p closing).
Proof. unfold redeliver, checkS. keep. Qed.
Hint Resolve keeping_redeliver : keep.
Lemma keeps_after {A} b b1 (op : M broker A) : keeps X b b1 → keeping X op →
  match op b1 with Ok _ b' | Exn _ b' => keeps X b b' | UB => True end.
Proof. intros H1 H2. specialize (H2 b1 (kp_bounded _ _ _ H1)). destruct (op b1); [by eapply keeps_trans..|done]. Qed.
Lemma keeping_drainAll body fuel c : (∀ p, keeping X (body p)) → keeping X (drainAll br_chains set_br_chains body fuel c).
Proof.
  intros Hbody. assert (Hput : ∀ b ch, bounded b → keeps X b (set_br_chains ch b)) by (intros; by apply keeps_apart).
  assert (Hd : ∀ n node, keeping X (drain br_chains set_br_chains body n node)).
  { induction n as [|n IH]; intros [p|]; cbn [drain]; [keep..| |keep].
    intros b Hb. rewrite (bind_ok get _ b b b eq_refl). destruct (extract p (br_chains b)) as [q ch].
    rewrite (bind_ok (put _) _ b tt _ eq_refl). apply keeps_after; [by apply Hput|by apply keeping_bind]. }
  intros b Hb. unfold drainAll. rewrite (bind_ok get _ b b b eq_refl). destruct (detach c (br_chains b)) as [q ch].
  rewrite (bind_ok (put _) _ b tt _ eq_refl). apply keeps_after; [by apply Hput|apply Hd].
Qed.
Lemma keeping_recoverConsumer c : keeping X (recoverConsumer c).
Proof. unfold recoverConsumer. keep. apply keeping_drainAll. intros p. keep. Qed.
Lemma keeping_clearInFlight c : keeping X (clearInFlight c).
Proof. unfold clearInFlight. keep. apply keeping_drainAll. intros p. keep. Qed.
Hint Resolve keeping_recoverConsumer keeping_clearInFlight : keep.
Lemma keeping_commitConsumer c : keeping X (commitConsumer c).
Proof.
  unfold commitConsumer. keep. match goal with |- keeping _ (commitLoop ?n _ _) => induction n as [|k IH] end; simpl; keep.
Qed.
Lemma keeping_rollbackConsumer c closing : keeping X (rollbackConsumer c closing).
Proof.
  unfold rollbackConsumer. keep. match goal with |- keeping _ (rollbackLoop ?n _ _ _) => induction n as [|k IH] end; simpl; keep.
Qed.
Hint Resolve keeping_commitConsumer keeping_rollbackConsumer : keep.
Lemma keeping_destroyConsumer c : keeping X (destroyConsumer c).
Proof. unfold destroyConsumer. keep. Qed.
Lemma keeping_transactionIdOf p : keeping X (transactionIdOf p).
Proof. unfold transactionIdOf. keep. Qed.
Hint Resolve keeping_transactionIdOf : keep.
Lemma keeping_push c number producer p : keeping X (push c number producer p).
Proof. unfold push, preparePush. keep. Qed.
Hint Resolve keeping_push : keep.

(** Destination.v *)
Lemma keeping_newConsumer d s q sid sel : keeping X (newConsumer d s q sid sel).
Proof. unfold newConsumer. keep. Qed.
Lemma keeping_newStorage dir : keeping X (newStorage dir).
Proof. unfold newStorage. keep. Qed.
Hint Resolve keeping_newConsumer keeping_newStorage : keep.
Lemma keeping_createDefaultConsumer d s : keeping X (createDefaultConsumer d s).
Proof. unfold createDefaultConsumer. keep. Qed.
Lemma keeping_bufferOffline d p : keeping X (bufferOffline d p).
Proof. unfold bufferOffline, persistToOfflineSub. keep. Qed.
Lemma keeping_replay d q sid : keeping X (replayFromStorage d q sid).
Proof. unfold replayFromStorage. keep. Qed.
Hint Resolve keeping_bufferOffline keeping_replay : keep.
Lemma keeping_createConsumer d s sel : keeping X (createConsumer d s sel).
Proof. unfold createConsumer, replayStoredMessages. keep. Qed.
Lemma keeping_createDurableConsumer d s client name sel : keeping X (createDurableConsumer d s client name sel).
Proof. unfold createDurableConsumer. keep. Qed.
Lemma keeping_deleteConsumer d c : keeping X (dest_deleteConsumer d c).
Proof. unfold dest_deleteConsumer. keep. Qed.
Hint Resolve keeping_createConsumer keeping_createDurableConsumer keeping_deleteConsumer : keep.
Lemma keeping_deleteSubscription d client name : keeping X (deleteSubscription d client name).
Proof. unfold deleteSubscription. keep. Qed.
Lemma keeping_createProducer d s : keeping X (createProducer d s).
Proof. unfold createProducer. keep. Qed.
Lemma keeping_deleteProducer d p : keeping X (dest_deleteProducer d p).
Proof. unfold dest_deleteProducer. keep. Qed.
Lemma keeping_pushAll qf number producer p cs : keeping X (pushAll qf number producer p cs).
Proof. induction cs; simpl; keep. Qed.
Hint Resolve keeping_deleteSubscription keeping_createProducer keeping_deleteProducer keeping_pushAll : keep.
Lemma keeping_save d producer p : keeping X (save d producer p).
Proof. unfold save. keep. Qed.
Lemma keeping_deliverAll d p cs : keeping X (deliverAll d p cs).
Proof. induction cs; simpl; keep. Qed.
Hint Resolve keeping_save keeping_deliverAll : keep.
Lemma keeping_deliverCommitted d p : keeping X (deliverCommitted d p).
Proof. unfold deliverCommitted. keep. Qed.
Hint Resolve keeping_deliverCommitted : keep.

(** Session.v *)
Lemma keeping_applyTo producer p opts : keeping X (applyTo producer p opts).
Proof. unfold applyTo. keep. Qed.
Lemma keeping_dispatchMessage producer p : keeping X (dispatchMessage producer p).
Proof. unfold dispatchMessage. keep. Qed.
Lemma keeping_validate opts : keeping X (validateSendOptions opts).
Proof. unfold validateSendOptions. keep. Qed.
Lemma keeping_resolveDelay d now p : keeping X (resolveDelay d now p).
Proof. unfold resolveDelay, checkS. keep. Qed.
Hint Resolve keeping_applyTo keeping_dispatchMessage keeping_validate keeping_resolveDelay : keep.
Lemma keeping_stage fuel d q now : keeping X (stage fuel d q now).
Proof. induction fuel; simpl; keep. Qed.
Lemma keeping_discard fuel q : keeping X (discard fuel q).
Proof. induction fuel; simpl; keep. Qed.
Hint Resolve keeping_stage keeping_discard : keep.
Lemma keeping_commitProducer producer t : keeping X (commitProducer producer t).
Proof. unfold commitProducer. keep. Qed.
Lemma keeping_rollbackProducer producer t : keeping X (rollbackProducer producer t).
Proof. unfold rollbackProducer. keep. Qed.
Hint Resolve keeping_commitProducer keeping_rollbackProducer : keep.
Lemma keeping_rollbackSession s closing : keeping X (rollbackSession s closing).
Proof. unfold rollbackSession. keep. Qed.
Hint Resolve keeping_rollbackSession : keep.
Lemma keeping_destroySession s : keeping X (destroySession s).
Proof. unfold destroySession. keep. Qed.
Hint Resolve keeping_destroySession keeping_recv keeping_acknowledgeOn keeping_recoverConsumer keeping_destroyConsumer keeping_setRedeliveryPolicy : keep.

(** The calls an application makes on the objects of a session. *)
Inductive request : Type :=
  | CreateConsumer (s d : nat) (selector : option string)
  | CreateDurableConsumer (s d : nat) (name : string) (selector : option string)
  | Unsubscribe (s d : nat) (name : string)
  | CreateProducer (s d : nat)
  | DeleteConsumer (s c : nat) | DeleteProducer (s p : nat)
  | DropConsumer (c : nat) | DropProducer (p : nat)
  | NewMessage (m : Message) | CreateMessage (data : Body) (r : Reliability)
  | Send (p m : nat) (options : option SendOptions)
  | SetDefault (p : nat) (options : SendOptions)
  | SetDisableMessageID (p : nat) (value : bool) | SetDisableMessageTimestamp (p : nat) (value : bool)
  | Recv (c : nat) (usec_timeout : Z)
  | Acknowledge (c p : nat)
  | Commit (s : nat) | Rollback (s : nat) | RecoverSession (s : nat)
  | SetRedeliveryPolicy (d : nat) (policy : RedeliveryPolicy).
Definition ignore {S A} (op : M S A) : M S unit := _ ← op; mret tt.
Definition perform (r : request) : M broker unit :=
  match r with
  | CreateConsumer s d None => ignore (ss_createConsumer s d)
  | CreateConsumer s d (Some e) => ignore (ss_createConsumerSelector s d e)
  | CreateDurableConsumer s d n None => ignore (ss_createDurableConsumer s d n)
  | CreateDurableConsumer s d n (Some e) => ignore (ss_createDurableConsumerSelector s d n e)
  | Unsubscribe s d n => unsubscribe s d n
  | CreateProducer s d => ignore (ss_createProducer s d)
  | DeleteConsumer s c => ss_deleteConsumer s c
  | DeleteProducer s p => ss_deleteProducer s p
  | DropConsumer c => destroyConsumer c
  | DropProducer p => destroyProducer p
  | NewMessage m => ignore (alloc m)
  | CreateMessage data r => ignore (createMessage data r)
  | Send p m None => send p m
  | Send p m (Some o) => sendWith p m o
  | SetDefault p o => setDefault p o
  | SetDisableMessageID p v => setDisableMessageID p v
  | SetDisableMessageTimestamp p v => setDisableMessageTimestamp p v
  | Recv c t => ignore (recv c t)
  | Acknowledge c p => acknowledgeOn c p
  | Commit s => commitSession s
  | Rollback s => rollbackSession s false
  | RecoverSession s => recoverSession s
  | SetRedeliveryPolicy d policy => setRedeliveryPolicy d policy
  end.

Lemma keeping_perform r : keeping X (perform r).
Proof.
  destruct r; simpl; repeat case_match;
    unfold ignore, ss_createConsumer, ss_createConsumerSelector, ss_createDurableConsumer, ss_createDurableConsumerSelector,
      unsubscribe, createMessage, ss_createProducer, ss_deleteConsumer, ss_deleteProducer, destroyProducer, send, sendWith, setDefault,
      setDisableMessageID, setDisableMessageTimestamp, commitSession, recoverSession, parseSelector; keep.
Qed.
End Operations.

(** *** The process *)
Section Process.
Context {E : Environment}.
#[local] Hint Resolve keeping_destroySession keeping_createDefaultConsumer keeping_newStorage : keep.

(** A call on the process, and the steps calls make, whether they return or throw. *)
Inductive call : Type :=
  | CreateConnection | DestroyConnection (c : nat)
  | Start (c : nat) | Stop (c : nat) | Close (c : nat)
  | SetClientID (c : nat) (clientID : string)
  | SetExceptionListener (c : nat) (listener : option nat)
  | CreateSession (c : nat) (mode : AcknowledgeMode)
  | CreateDestination (s : nat) (type : DestinationType) (name : string)
  | Request (r : request).
Definition perform_call (k : call) : M process unit :=
  match k with
  | CreateConnection => ignore createConnection
  | DestroyConnection c => destroyConnection c
  | Start c => pConn c start
  | Stop c => pConn c stop
  | Close c => close c
  | SetClientID c i => pConn c (setClientID i)
  | SetExceptionListener c l => pConn c (setExceptionListener l)
  | CreateSession c mode => ignore (createSession c mode)
  | CreateDestination s t n => ignore (createDestination s t n)
  | Request r => pBroker (perform r)
  end.
Definition step (p p' : process) : Prop :=
  ∃ k, perform_call k p = Ok tt p' ∨ ∃ e, perform_call k p = Exn e p'.
(** A process that starts in a directory. *)
Definition initial (path : string) (dirs : gmap string (gmap Z bytes)) (logs : gmap string string) : process :=
  mkProcess (mkBroker (mkWorld ∅ ∅) (mkChains ∅ ∅) ∅ ∅ ∅ ∅ ∅ dirs 0 0 0) path ∅ ∅ logs.

Definition wf_connection (x : Connection) : Prop :=
  NoDup (cn_sessions x) ∧ (cn_closed x = true → cn_sessions x = [] ∧ cn_started x = false).
Record wf_process (p : process) : Prop := {
  wp_bounded : bounded (pc_broker p);
  wp_new : ∀ c x, pc_connections p !! c = Some x → (c < br_fresh (pc_broker p))%nat;
  wp_connection : ∀ c x, pc_connections p !! c = Some x → wf_connection x;
  wp_session : ∀ c x s, pc_connections p !! c = Some x → s ∈ cn_sessions x →
    ∃ y, br_sessions (pc_broker p) !! s = Some y ∧ ss_clientID y = cn_clientID x;
  wp_owner : ∀ c1 x1 c2 x2 s, pc_connections p !! c1 = Some x1 → pc_connections p !! c2 = Some x2 →
    s ∈ cn_sessions x1 → s ∈ cn_sessions x2 → c1 = c2;
  wp_destination : ∀ h d, pc_destinations p !! h = Some d →
    ∃ x, br_destinations (pc_broker p) !! d = Some x ∧ hash (ds_type x) (ds_name x) = h
      ∧ ds_path x = pc_path p +:+ (pretty.pretty h +:+ "/")
}.

Lemma wf_initial path dirs logs : wf_process (initial path dirs logs).
Proof. split; simpl; try done. Qed.

(** What the broker's operations do to it. *)
Lemma wf_broker p b : wf_process p → keeps ∅ (pc_broker p) b → wf_process (set_broker b p).
Proof.
  intros [W1 W2 W3 W4 W5 W6] [K1 K2 K3 K4 _]. split; simpl; try done.
  - intros c x Hx. apply W2 in Hx. lia.
  - intros c x s Hx Hs. destruct (W4 c x s Hx Hs) as (y & Hy & Hc).
    destruct (K3 s y (not_elem_of_empty _) Hy) as (z & Hz & _ & Hyz). exists z. split; [done|congruence].
  - intros h d Hd. destruct (W6 h d Hd) as (x & Hx & H1 & H2).
    destruct (K4 d x Hx) as (y & Hy & E1 & E2 & E3 & _). exists y. split; [done|]. split; congruence.
Qed.
(** A connection replaced by one with the same sessions that are in its name. *)
Lemma wf_replace p c x y : wf_process p → pc_connections p !! c = Some x → cn_sessions y = cn_sessions x →
  (cn_sessions x ≠ [] → cn_clientID y = cn_clientID x) →
  (cn_closed y = true → cn_sessions x = [] ∧ cn_started y = false) →
  wf_process (set_connections (<[c := y]> (pc_connections p)) p).
Proof.
  intros [W1 W2 W3 W4 W5 W6] Hc Hs Hid Hcl.
  assert (Hold : ∀ c' x', <[c := y]> (pc_connections p) !! c' = Some x' →
    ∃ z, pc_connections p !! c' = Some z ∧ cn_sessions x' = cn_sessions z ∧
      (cn_sessions z ≠ [] → cn_clientID x' = cn_clientID z)).
  { intros c' x' [[<- <-]|[_ Hx]]%lookup_insert_Some; [by exists x|by exists x']. }
  split; simpl; try done.
  - intros c' x' (z & Hz & _)%Hold. by eapply W2.
  - intros c' x' [[<- <-]|[_ Hx]]%lookup_insert_Some; [|by eapply W3]. destruct (W3 c x Hc) as [Hn _].
    split; [by rewrite Hs|by rewrite Hs].
  - intros c' x' s (z & Hz & E1 & E2)%Hold Hin. rewrite E1 in Hin. destruct (W4 c' z s Hz Hin) as (w & Hw & Hcw).
    exists w. split; [done|]. rewrite E2; [done|]. by intros Hnil; rewrite Hnil in Hin; apply not_elem_of_nil in Hin.
  - intros c1 x1 c2 x2 s (z1 & Hz1 & E1 & _)%Hold (z2 & Hz2 & E2 & _)%Hold. rewrite E1, E2. by apply W5.
Qed.

Lemma wf_op {A} (op : M broker A) p : keeping ∅ op → wf_process p →
  match pBroker op p with Ok _ p' | Exn _ p' => wf_process p' | UB => True end.
Proof.
  intros Hk Hp. unfold pBroker. specialize (Hk _ (wp_bounded _ Hp)). destruct (op (pc_broker p)); [by apply wf_broker..|done].
Qed.
Lemma wf_conn {A} c (op : M Connection A) p :
  (∀ x, wf_connection x → match op x with
     | Ok _ y | Exn _ y => cn_sessions y = cn_sessions x ∧ (cn_sessions x ≠ [] → cn_clientID y = cn_clientID x)
         ∧ (cn_closed y = true → cn_sessions x = [] ∧ cn_started y = false)
     | UB => True end) →
  wf_process p → match pConn c op p with Ok _ p' | Exn _ p' => wf_process p' | UB => True end.
Proof.
  intros Hop Hp. unfold pConn. destruct (pc_connections p !! c) as [x|] eqn:Hc; [|done].
  specialize (Hop x (wp_connection _ Hp c x Hc)).
  destruct (op x) as [a y|e y|]; [..|done]; destruct Hop as (H1 & H2 & H3); by eapply wf_replace.
Qed.
Lemma ensureOpen_run x : ensureOpen x = if cn_closed x then Exn (IllegalStateException "connection is closed") x else Ok tt x.
Proof. unfold ensureOpen. rewrite (bind_ok get _ x x x eq_refl). by destruct (cn_closed x). Qed.
Lemma wf_simple x (op : M Connection unit) :
  wf_connection x → (op = start ∨ op = stop ∨ (∃ l, op = setExceptionListener l) ∨ ∃ i, op = setClientID i) →
  match op x with
  | Ok _ y | Exn _ y => cn_sessions y = cn_sessions x ∧ (cn_sessions x ≠ [] → cn_clientID y = cn_clientID x)
      ∧ (cn_closed y = true → cn_sessions x = [] ∧ cn_started y = false)
  | UB => True
  end.
Proof.
  intros [_ Hx] Hc.
  assert (Hrun : ∀ (k : M Connection unit), (_ ← ensureOpen; k) x =
    if cn_closed x then Exn (IllegalStateException "connection is closed") x else k x).
  { intros k. unfold mbind, M_bind. rewrite ensureOpen_run. by destruct (cn_closed x). }
  destruct Hc as [-> |[-> |[[l ->]|[i ->]]]]; unfold start, stop, setExceptionListener, setClientID; rewrite Hrun;
    destruct (cn_closed x) eqn:Hcl; simpl; try (split_and!; [done|done|by intros _; apply Hx]); try (split_and!; [done|done|congruence]).
  rewrite (bind_ok get _ x x x eq_refl).
  destruct (negb (bool_decide (cn_clientID x = ""))); simpl; [split_and!; [done|done|congruence]|].
  destruct (negb (bool_decide (cn_sessions x = [])) || cn_started x) eqn:Hb; simpl; [split_and!; [done|done|congruence]|].
  apply orb_false_iff in Hb as [Hb _]. apply negb_false_iff, bool_decide_eq_true in Hb.
  split_and!; [done|done|congruence].
Qed.

Lemma process_eta p : set_connections (pc_connections p) p = p.
Proof. by destruct p. Qed.
Lemma pConn_get c x p : pc_connections p !! c = Some x → pConn c get p = Ok x p.
Proof. intros Hc. unfold pConn. rewrite Hc. simpl. by rewrite insert_id, process_eta. Qed.
Lemma pConn_modify c x f p : pc_connections p !! c = Some x →
  pConn c (modify f) p = Ok tt (set_connections (<[c := f x]> (pc_connections p)) p).
Proof. intros Hc. unfold pConn. by rewrite Hc. Qed.
Lemma pBroker_ok {A} (op : M broker A) p a b : op (pc_broker p) = Ok a b → pBroker op p = Ok a (set_broker b p).
Proof. unfold pBroker. by intros ->. Qed.

(** *** Sessions *)
Lemma newSession_spec mode cid b : bounded b → ∃ b', newSession mode cid b = Ok (br_fresh b) b' ∧ keeps ∅ b b' ∧
  ∃ y, br_sessions b' !! br_fresh b = Some y ∧ ss_clientID y = cid.
Proof.
  intros Hb. unfold newSession. rewrite (bind_ok freshId _ b (br_fresh b) (set_br_fresh (S (br_fresh b)) b) eq_refl).
  assert (Hk : ∀ b1 y, keeps ∅ b b1 → br_sessions b1 = br_sessions b → (br_fresh b < br_fresh b1)%nat →
    keeps ∅ b (set_br_sessions (<[br_fresh b := y]> (br_sessions b1)) b1)).
  { intros b1 y [K1 K2 K3 K4 K5] Hs Hf. split; simpl; [|done| |done|].
    - split; simpl; [|by apply K1]. intros s z [[<- _]|[_ Hz]]%lookup_insert_Some; [done|]. by eapply K1.
    - intros s x _ Hx. rewrite lookup_insert_ne; [|intros Heq; subst; apply Hb in Hx; lia]. rewrite Hs. by exists x.
    - intros s Hlt Hx. rewrite lookup_insert_ne by lia. by rewrite Hs. }
  pose proof (keeping_id ∅ b Hb) as Hid. simpl in Hid.
  case_decide; simpl; eexists; (split; [reflexivity|]); (split; [apply Hk; [|done|simpl; lia]|]).
  - eapply keeps_trans; [exact Hid|]. by apply keeps_apart; [apply Hid|].
  - eexists. simpl. by rewrite lookup_insert_eq.
  - done.
  - eexists. simpl. by rewrite lookup_insert_eq.
Qed.

Lemma wf_add_session p c x s : wf_process p → pc_connections p !! c = Some x → cn_closed x = false →
  (∃ y, br_sessions (pc_broker p) !! s = Some y ∧ ss_clientID y = cn_clientID x) →
  (∀ c' x', pc_connections p !! c' = Some x' → s ∉ cn_sessions x') →
  wf_process (set_connections (<[c := set_cn_sessions (cn_sessions x ++ [s]) x]> (pc_connections p)) p).
Proof.
  intros [W1 W2 W3 W4 W5 W6] Hc Hop Hs Hnew.
  assert (Hold : ∀ c' x', <[c := set_cn_sessions (cn_sessions x ++ [s]) x]> (pc_connections p) !! c' = Some x' →
    ∃ z, pc_connections p !! c' = Some z ∧ cn_clientID x' = cn_clientID z ∧
      ∀ s', s' ∈ cn_sessions x' → s' ∈ cn_sessions z ∨ s' = s ∧ c' = c ∧ z = x).
  { intros c' x' [[<- <-]|[_ Hx]]%lookup_insert_Some; [exists x|by exists x'; split_and!; [done..|by left]].
    split_and!; [done..|]. simpl. intros s' [?|?%list_elem_of_singleton]%elem_of_app; [by left|by right]. }
  split; simpl; try done.
  - intros c' x' (z & Hz & _)%Hold. by eapply W2.
  - intros c' x' [[<- <-]|[_ Hx]]%lookup_insert_Some; [|by eapply W3]. destruct (W3 c x Hc) as [Hn _]. split; simpl.
    + apply list.NoDup_app. split; [done|]. split; [|apply NoDup_singleton].
      intros s' Hin ->%list_elem_of_singleton. by apply (Hnew c x).
    + congruence.
  - intros c' x' s' (z & Hz & E1 & E2)%Hold Hin. rewrite E1.
    destruct (E2 s' Hin) as [Hin'|(-> & -> & ->)]; [by eapply W4|done].
  - intros c1 x1 c2 x2 s' (z1 & Hz1 & _ & E1)%Hold (z2 & Hz2 & _ & E2)%Hold Hi1 Hi2.
    destruct (E1 s' Hi1) as [H1|(H1 & -> & _)], (E2 s' Hi2) as [H2|(H2 & -> & _)]; subst; try done.
    + by eapply W5.
    + by apply Hnew in Hz1.
    + by apply Hnew in Hz2.
Qed.

(** What a call leaves, however it ends. *)
Definition leaves {A} (op : M process A) : Prop :=
  ∀ p, wf_process p → match op p with Ok _ p' | Exn _ p' => wf_process p' | UB => True end.
Lemma leaves_bind {A B} (op : M process A) (f : A → M process B) : leaves op → (∀ a, leaves (f a)) → leaves (op ≫= f).
Proof.
  intros H1 H2 p Hp. unfold mbind, M_bind. specialize (H1 p Hp). destruct (op p); [by apply H2|done|done].
Qed.
Lemma leaves_ignore {A} (op : M process A) : leaves op → leaves (ignore op).
Proof. intros H. apply leaves_bind; [done|]. by intros a p Hp. Qed.
Lemma leaves_broker {A} (op : M broker A) : keeping ∅ op → leaves (pBroker op).
Proof. intros Hk p. by apply wf_op. Qed.

Lemma leaves_createSession c mode : leaves (createSession c mode).
Proof.
  intros p Hp. unfold createSession. destruct (pc_connections p !! c) as [x|] eqn:Hc.
  2: { unfold mbind, M_bind, pConn. by rewrite Hc. }
  assert (Hopen : pConn c ensureOpen p = if cn_closed x then Exn (IllegalStateException "connection is closed") p else Ok tt p).
  { unfold pConn. rewrite Hc, ensureOpen_run. by destruct (cn_closed x); rewrite insert_id, process_eta. }
  destruct (cn_closed x) eqn:Hcl.
  { unfold mbind at 1, M_bind at 1. by rewrite Hopen. }
  rewrite (bind_ok _ _ _ _ _ Hopen), (bind_ok _ _ _ _ _ (pConn_get c x p Hc)).
  pose proof (wp_bounded _ Hp) as Hb.
  destruct (newSession_spec mode (cn_clientID x) (pc_broker p) Hb) as (b & Hn & Hk & Hy).
  rewrite (bind_ok _ _ _ _ _ (pBroker_ok _ p _ _ Hn)).
  erewrite (bind_ok _ _ _ _ _ (pConn_modify c x _ (set_broker b p) Hc)).
  apply (wf_add_session (set_broker b p) c x); [by apply wf_broker|done..|].
  intros c' x' Hx' Hin. destruct (wp_session _ Hp c' x' _ Hx' Hin) as (y & Hy' & _).
  apply (bd_session _ Hb) in Hy'. lia.
Qed.
Lemma leaves_createConnection : leaves createConnection.
Proof.
  intros p Hp. unfold createConnection. pose proof (keeping_id ∅ _ (wp_bounded _ Hp)) as Hk. simpl in Hk.
  rewrite (bind_ok _ _ _ _ _ (pBroker_ok freshId p (br_fresh (pc_broker p)) _ eq_refl)). simpl.
  apply wf_broker in Hk as [W1 W2 W3 W4 W5 W6]; [|done]. simpl in *.
  assert (Hold : ∀ c x, <[br_fresh (pc_broker p) := mkConnection "" false false None []]> (pc_connections p) !! c = Some x →
    x = mkConnection "" false false None [] ∧ c = br_fresh (pc_broker p) ∨ pc_connections p !! c = Some x).
  { intros c x [[<- <-]|[_ Hx]]%lookup_insert_Some; [by left|by right]. }
  split; simpl; try done.
  - intros c x [[-> ->]|Hx]%Hold; [lia|by eapply W2].
  - intros c x [[-> ->]|Hx]%Hold; [|by eapply W3]. split; [constructor|done].
  - intros c x s [[-> ->]|Hx]%Hold; [by intros Hin%not_elem_of_nil|by apply (W4 c x s)].
  - intros c1 x1 c2 x2 s [[-> ->]|H1]%Hold [[-> ->]|H2]%Hold; simpl;
      try (by intros Hin%not_elem_of_nil); try (by intros _ Hin%not_elem_of_nil). by apply (W5 c1 x1 c2 x2).
Qed.

(** *** Closing a connection *)
Definition quiet {S A} (op : M S A) : Prop := ∀ s e s', op s ≠ Exn e s'.
Lemma quiet_bind {S A B} (op : M S A) (f : A → M S B) : quiet op → (∀ a, quiet (f a)) → quiet (op ≫= f).
Proof.
  intros H1 H2 s e s'. unfold mbind, M_bind. specialize (H1 s). destruct (op s); [apply H2|by edestruct H1|done].
Qed.
Lemma quiet_for_each {S A} (f : A → M S unit) l : (∀ x, quiet (f x)) → quiet (for_each f l).
Proof. intros H. induction l; simpl; [done|by apply quiet_bind]. Qed.
Lemma quiet_catch {S A} (op : M S A) h : (∀ e, quiet (h e)) → quiet (catch op h).
Proof. intros H s e s'. unfold catch. destruct (op s); [done|apply H|done]. Qed.
Lemma quiet_zoom {S A} rd (wr : S → broker → broker) (op : M S A) : quiet op → quiet (zoom rd wr op).
Proof. intros H b e b'. unfold zoom. destruct (rd b) as [s|]; [|done]. specialize (H s). destruct (op s); [done|by edestruct H|done]. Qed.

Lemma quiet_deleteSession s : quiet (deleteSession s).
Proof.
  unfold deleteSession, destroySession, dest_deleteConsumer, dest_deleteProducer.
  repeat first [ apply quiet_bind; [|intros ?] | apply quiet_for_each; intros ? | apply quiet_catch; intros ? | by apply quiet_zoom | done ].
Qed.
Lemma keeping_deleteSession X s : s ∈ X → keeping X (deleteSession s).
Proof.
  intros Hs. unfold deleteSession. apply keeping_bind; [apply keeping_destroySession|intros _].
  intros b [B1 B2]. simpl. split; simpl; [|done| | |].
  - split; simpl; [|done]. intros s' x [_ Hx]%lookup_delete_Some. by eapply B1.
  - intros s' x Hs' Hx. rewrite lookup_delete_ne by (intros ->; done). by exists x.
  - intros d x Hx. by exists x.
  - intros s' _ Hx. by apply lookup_delete_None; right.
Qed.
Lemma keeping_deleteSessions X l : Forall (.∈ X) l → keeping X (for_each deleteSession l).
Proof.
  induction 1 as [|s l Hs _ IH]; simpl; [apply keeping_ret|]. apply keeping_bind; [by apply keeping_deleteSession|done].
Qed.

Lemma wf_close p c x b : wf_process p → pc_connections p !! c = Some x →
  keeps (list_to_set (cn_sessions x)) (pc_broker p) b →
  wf_process (set_connections (<[c := set_started false (set_cn_sessions [] (set_closed true x))]> (pc_connections p)) (set_broker b p)).
Proof.
  intros [W1 W2 W3 W4 W5 W6] Hc [K1 K2 K3 K4 _].
  assert (Hold : ∀ c' x', <[c := set_started false (set_cn_sessions [] (set_closed true x))]> (pc_connections p) !! c' = Some x' →
    cn_sessions x' = [] ∧ cn_started x' = false ∧ c' = c ∨ pc_connections p !! c' = Some x' ∧ c' ≠ c).
  { intros c' x' [[<- <-]|[? Hx]]%lookup_insert_Some; [by left|by right]. }
  split; simpl; try done.
  - intros c' x' [(_ & _ & ->)|[Hx _]]%Hold; [apply W2 in Hc|apply W2 in Hx]; lia.
  - intros c' x' [(H1 & H2 & _)|[Hx _]]%Hold; [|by eapply W3]. split; [rewrite H1; constructor|done].
  - intros c' x' s [(H1 & _)|[Hx Hne]]%Hold Hin; [rewrite H1 in Hin; by apply not_elem_of_nil in Hin|].
    destruct (W4 c' x' s Hx Hin) as (y & Hy & Hcid).
    destruct (K3 s y) as (z & Hz & _ & Hyz); [|done|exists z; split; [done|congruence]].
    intros Hs%elem_of_list_to_set. by apply Hne, (W5 c' x' c x s).
  - intros c1 x1 c2 x2 s [(H1 & _)|[H1 _]]%Hold [(H2 & _)|[H2 _]]%Hold;
      rewrite ?H1, ?H2; try (by intros Hin%not_elem_of_nil); try (by intros _ Hin%not_elem_of_nil). by apply (W5 c1 x1 c2 x2).
  - intros h d Hd. destruct (W6 h d Hd) as (y & Hy & H1 & H2).
    destruct (K4 d y Hy) as (z & Hz & E1 & E2 & E3 & _). exists z. split; [done|]. split; congruence.
Qed.
(** close() either leaves the closed connection, or does not return. *)
Lemma close_spec c p x : wf_process p → pc_connections p !! c = Some x → cn_closed x = false →
  close c p = UB ∨ ∃ b, keeps (list_to_set (cn_sessions x)) (pc_broker p) b ∧
    for_each deleteSession (cn_sessions x) (pc_broker p) = Ok tt b ∧
    close c p = Ok tt (set_connections (<[c := set_started false (set_cn_sessions [] (set_closed true x))]> (pc_connections p)) (set_broker b p)).
Proof.
  intros Hp Hc Hcl. unfold close. rewrite (bind_ok _ _ _ _ _ (pConn_get c x p Hc)), Hcl.
  rewrite (bind_ok _ _ _ _ _ (pConn_modify c x _ p Hc)).
  set (p1 := set_connections _ p).
  pose proof (keeping_deleteSessions (list_to_set (cn_sessions x)) (cn_sessions x)) as Hk.
  specialize (Hk ltac:(apply list.Forall_forall; intros s Hs; by apply elem_of_list_to_set) (pc_broker p) (wp_bounded _ Hp)).
  pose proof (quiet_for_each deleteSession (cn_sessions x) quiet_deleteSession (pc_broker p)) as Hq.
  unfold mbind, M_bind, pBroker. change (pc_broker p1) with (pc_broker p).
  destruct (for_each deleteSession (cn_sessions x) (pc_broker p)) as [[] b|e b|]; [|by edestruct Hq|by left].
  right. exists b. split; [done|]. split; [done|]. erewrite pConn_modify; [|apply lookup_insert_eq]. simpl. by rewrite insert_insert_eq.
Qed.
Lemma leaves_close c : leaves (close c).
Proof.
  intros p Hp. destruct (pc_connections p !! c) as [x|] eqn:Hc.
  2: { unfold close, mbind, M_bind, pConn. by rewrite Hc. }
  destruct (cn_closed x) eqn:Hcl.
  { unfold close. by rewrite (bind_ok _ _ _ _ _ (pConn_get c x p Hc)), Hcl. }
  destruct (close_spec c p x Hp Hc Hcl) as [-> |(b & Hk & _ & ->)]; [done|by apply wf_close].
Qed.
Lemma leaves_forget c : leaves (modify (λ p, set_connections (delete c (pc_connections p)) p)).
Proof.
  intros p [W1 W2 W3 W4 W5 W6]. simpl. split; simpl; try done.
  - intros c' x' [_ Hx]%lookup_delete_Some. by eapply W2.
  - intros c' x' [_ Hx]%lookup_delete_Some. by eapply W3.
  - intros c' x' s [_ Hx]%lookup_delete_Some. by apply W4 with c'.
  - intros c1 x1 c2 x2 s [_ H1]%lookup_delete_Some [_ H2]%lookup_delete_Some. by apply (W5 c1 x1 c2 x2).
Qed.

(** *** Destinations *)

(** Nothing but the broker's objects. *)
Definition beside (p p' : process) : Prop := p' = set_broker (pc_broker p') p.
Lemma newDestination_spec type name path p : wf_process p →
  match newDestination type name path p with
  | Ok d p' => beside p p' ∧ keeps ∅ (pc_broker p) (pc_broker p') ∧ (br_fresh (pc_broker p) <= d)%nat ∧
      ∃ x, br_destinations (pc_broker p') !! d = Some x ∧ ds_type x = type ∧ ds_name x = name ∧ ds_path x = path
  | Exn _ p' => beside p p' ∧ keeps ∅ (pc_broker p) (pc_broker p')
  | UB => True
  end.
Proof.
  intros Hp. unfold newDestination.
  assert (Hk : keeping ∅ (sid ← newStorage path; now ← readClock; mret (sid, now))) by (keep; apply keeping_newStorage).
  specialize (Hk _ (wp_bounded _ Hp)). unfold mbind, M_bind, pBroker in *.
  destruct (newStorage path (pc_broker p)) as [sid b1|e b1|]; [|by split; [destruct p|]|done].
  simpl in *. set (b2 := set_br_reads _ b1) in *.
  destruct (TransactionBuffer.restart _ _ _) as [u tb|e tb|]; [|by split; [destruct p|]|done]. simpl.
  assert (Hfresh : (br_fresh (pc_broker p) <= br_fresh b1)%nat) by apply (kp_fresh _ _ _ Hk).
  split; [by destruct p|]. split; [|split; [done|]].
  - destruct Hk as [K1 K2 K3 K4 K5]. split; simpl.
    + split; simpl; [intros s x Hx; apply (bd_session _ K1) in Hx; simpl in *; lia|].
      intros d x [[<- _]|[_ Hx]]%lookup_insert_Some; [lia|]. apply (bd_destination _ K1) in Hx. simpl in *. lia.
    + lia.
    + done.
    + intros d x Hx. destruct (K4 d x Hx) as (y & Hy & Hxy). exists y. split; [|done].
      rewrite lookup_insert_ne; [done|]. apply (bd_destination _ K1) in Hy. simpl in *. lia.
    + done.
  - eexists. by rewrite lookup_insert_eq.
Qed.

Lemma uri_inj t n t' n' : uri t n = uri t' n' → t = t' ∧ n = n'.
Proof. destruct t, t'; unfold uri; simpl; intros [=]; by subst. Qed.

Lemma wf_register p h d x : wf_process p → br_destinations (pc_broker p) !! d = Some x →
  hash (ds_type x) (ds_name x) = h → ds_path x = pc_path p +:+ (pretty.pretty h +:+ "/") →
  wf_process (set_destinations (<[h := d]> (pc_destinations p)) p).
Proof.
  intros [W1 W2 W3 W4 W5 W6] Hx Hh Hpath. split; simpl; try done.
  intros h' d' [[<- <-]|[_ Hd]]%lookup_insert_Some; [by exists x|by apply W6].
Qed.

Lemma create_spec type name p : wf_process p →
  match exchange_create type name p with
  | Ok d p' => wf_process p' ∧ pc_destinations p' !! hash type name = Some d ∧
      (pc_destinations p !! hash type name = None → ∃ x, br_destinations (pc_broker p') !! d = Some x ∧
        ds_type x = type ∧ ds_name x = name)
  | Exn _ p' => wf_process p'
  | UB => True
  end.
Proof.
  intros Hp. unfold exchange_create. rewrite (bind_ok get _ p p p eq_refl). cbv zeta.
  destruct (pc_destinations p !! hash type name) as [d|] eqn:Hd; [done|].
  pose proof (newDestination_spec type name (pc_path p +:+ (pretty.pretty (hash type name) +:+ "/")) p Hp) as Hn.
  unfold mbind, M_bind. destruct (newDestination _ _ _ p) as [d p1|e p1|]; [|destruct Hn as [-> Hk]; by apply wf_broker|done].
  destruct Hn as (Hb & Hk & _ & x & Hx & H1 & H2 & H3). simpl. rewrite Hb.
  split; [|split; [apply lookup_insert_eq|intros _; by exists x]].
  eapply (wf_register _ _ d x); [by apply wf_broker|done|by rewrite H1, H2|done].
Qed.
Lemma leaves_createDestination s type name : leaves (createDestination s type name).
Proof.
  apply leaves_bind.
  - intros p Hp. pose proof (create_spec type name p Hp) as H. by destruct (exchange_create type name p); [apply H|..].
  - intros d. apply leaves_bind; [apply leaves_broker, keeping_createDefaultConsumer|]. by intros _ p Hp.
Qed.

Lemma leaves_call k : leaves (perform_call k).
Proof.
  destruct k; simpl.
  - apply leaves_ignore, leaves_createConnection.
  - apply leaves_bind; [apply leaves_close|intros _; apply leaves_forget].
  - intros p. apply wf_conn. intros x Hx. by apply wf_simple; [|left].
  - intros p. apply wf_conn. intros x Hx. by apply wf_simple; [|right; left].
  - apply leaves_close.
  - intros p. apply wf_conn. intros x Hx. apply wf_simple; [done|right; right; right; by eexists].
  - intros p. apply wf_conn. intros x Hx. apply wf_simple; [done|right; right; left; by eexists].
  - apply leaves_ignore, leaves_createSession.
  - apply leaves_ignore, leaves_createDestination.
  - apply leaves_broker, keeping_perform.
Qed.

(** C16. In every process that calls reach from its start, returning or throwing: the
    sessions of a connection exist and read its client id, under which their durable
    subscriptions are filed; no session has two owners; a closed connection has no
    sessions and is stopped; and the registry of the exchange maps the hash of a
    destination's uri to that destination, in the directory named after the hash. *)
Theorem process_invariant path dirs logs p :
  rtc step (initial path dirs logs) p → wf_process p.
Proof.
  intros H. pose proof (wf_initial path dirs logs) as Hw. revert Hw. generalize dependent (initial path dirs logs).
  induction 1 as [|p p1 p2 [k [Hk|[e Hk]]] _ IH]; [done|..]; intros Hw; apply IH;
    pose proof (leaves_call k p Hw) as Hl; by rewrite Hk in Hl.
Qed.

(** The exchange identifies destinations by the hash of their uri: what
    Exchange::create returns is registered under it and is what every later call with
    the same hash returns; a destination created by the call has the type and name
    asked for, and so has every destination returned when no other uri has its hash. *)
Theorem create_by_hash type name p :
  wf_process p →
  match exchange_create type name p with
  | Ok d p' =>
      (∀ type' name', hash type' name' = hash type name → exchange_create type' name' p' = Ok d p') ∧
      ∃ x, br_destinations (pc_broker p') !! d = Some x ∧ hash (ds_type x) (ds_name x) = hash type name ∧
        (pc_destinations p !! hash type name = None ∨
         (∀ type' name', hash type' name' = hash type name → uri type' name' = uri type name) →
         ds_type x = type ∧ ds_name x = name)
  | Exn _ p' => wf_process p'
  | UB => True
  end.
Proof.
  intros Hp. pose proof (create_spec type name p Hp) as H.
  destruct (exchange_create type name p) as [d p'|e p'|]; [|done|done]. destruct H as (Hp' & Hd & Hnew). split.
  - intros type' name' Hh. unfold exchange_create. rewrite (bind_ok get _ p' p' p' eq_refl), Hh. cbv zeta. by rewrite Hd.
  - destruct (wp_destination _ Hp' _ _ Hd) as (x & Hx & Hh & _). exists x. split; [done|]. split; [done|].
    intros [Hnone|Hfree].
    + destruct (Hnew Hnone) as (y & Hy & H1 & H2). by rewrite Hx in Hy; injection Hy as <-.
    + by apply uri_inj, Hfree.
Qed.

(** The calls that would change a connection. *)
Definition mutates (c : nat) (k : call) : bool :=
  match k with
  | Start c' | Stop c' | SetClientID c' _ | SetExceptionListener c' _ | CreateSession c' _ => bool_decide (c' = c)
  | _ => false
  end.
Lemma closed_throws c k p x : pc_connections p !! c = Some x → cn_closed x = true → mutates c k = true →
  perform_call k p = Exn (IllegalStateException "connection is closed") p.
Proof.
  intros Hc Hcl Hk.
  assert (Hrun : ∀ (op : M Connection unit), pConn c (_ ← ensureOpen; op) p = Exn (IllegalStateException "connection is closed") p).
  { intros op. unfold pConn, mbind, M_bind. rewrite Hc, ensureOpen_run, Hcl. by rewrite insert_id, process_eta. }
  destruct k; try done; apply bool_decide_eq_true in Hk; subst; simpl; try apply Hrun.
  unfold ignore, createSession, mbind, M_bind, pConn. rewrite Hc, ensureOpen_run, Hcl. by rewrite insert_id, process_eta.
Qed.
Lemma deleteSessions_gone l b b' : bounded b → (∀ s, s ∈ l → (s < br_fresh b)%nat) →
  for_each deleteSession l b = Ok tt b' → ∀ s, s ∈ l → br_sessions b' !! s = None.
Proof.
  revert b. induction l as [|s l IH]; intros b Hb Hl Hrun s' Hs'; [by apply not_elem_of_nil in Hs'|].
  cbn [for_each] in Hrun. unfold mbind, M_bind in Hrun. pose proof (keeping_deleteSession {[s]} s ltac:(set_solver) b Hb) as Hk.
  destruct (deleteSession s b) as [[] b1|e b1|] eqn:Hd; [|done|done].
  assert (Hl1 : ∀ s, s ∈ l → (s < br_fresh b1)%nat).
  { intros t Ht. pose proof (kp_fresh _ _ _ Hk). specialize (Hl t ltac:(by right)). lia. }
  apply elem_of_cons in Hs' as [->|Hs']; [|by apply (IH b1 (kp_bounded _ _ _ Hk) Hl1 Hrun)].
  pose proof (keeping_deleteSessions (list_to_set l) l) as Hks.
  specialize (Hks ltac:(apply list.Forall_forall; intros t Ht; by apply elem_of_list_to_set) b1 (kp_bounded _ _ _ Hk)).
  rewrite Hrun in Hks. apply (kp_gone _ _ _ Hks).
  - pose proof (kp_fresh _ _ _ Hk). specialize (Hl s ltac:(by left)). lia.
  - unfold deleteSession, mbind, M_bind in Hd. destruct (destroySession s b) as [u b2|e b2|]; [|done|done].
    injection Hd as <-. simpl. apply lookup_delete_eq.
Qed.

(** C40. Closing a connection destroys its sessions and is final: close() either does
    not return or leaves the connection closed, stopped and without sessions, none of
    which exists any more; a second close() does nothing, and every call that would
    change the connection throws IllegalStateException and leaves the process as it
    was. *)
Theorem close_is_final c p x :
  wf_process p → pc_connections p !! c = Some x → cn_closed x = false →
  close c p = UB ∨ ∃ p', close c p = Ok tt p' ∧ wf_process p' ∧
    pc_connections p' !! c = Some (mkConnection (cn_clientID x) false true (cn_exceptionListener x) []) ∧
    (∀ s, s ∈ cn_sessions x → br_sessions (pc_broker p') !! s = None) ∧
    close c p' = Ok tt p' ∧
    ∀ k, mutates c k = true → perform_call k p' = Exn (IllegalStateException "connection is closed") p'.
Proof.
  intros Hp Hc Hcl. pose proof (leaves_close c p Hp) as Hw.
  destruct (close_spec c p x Hp Hc Hcl) as [H|(b & Hk & Hdel & Hrun)]; [by left|right].
  rewrite Hrun in Hw. eexists. split; [exact Hrun|]. split; [done|].
  set (p' := set_connections _ _) in *.
  assert (Hc' : pc_connections p' !! c = Some (mkConnection (cn_clientID x) false true (cn_exceptionListener x) [])) by apply lookup_insert_eq.
  split; [done|]. split; [|split; [|intros k; by eapply closed_throws]].
  - eapply deleteSessions_gone; [apply (wp_bounded _ Hp)| |exact Hdel]. intros s Hs.
    destruct (wp_session _ Hp c x s Hc Hs) as (y & Hy & _). by apply (bd_session _ (wp_bounded _ Hp)) in Hy.
  - unfold close. by rewrite (bind_ok _ _ _ _ _ (pConn_get c _ p' Hc')).
Qed.
End Process.
