(* ===== verification/Selector.v ===== *)
(** Selector (Selector.h/.cpp): the tokenizer, the recursive-descent parser and the
    evaluation of message selectors. Each closure the parser builds is a constructor
    of [EvalFn] with what it captures, and [eval] is their bodies. The recursion of
    the parser takes fuel; [parse] gives it more than any input uses. *)
From Stdlib Require Import SpecFloat Ascii.
Set Warnings "-register-all".
From S2P Require Import Prelude Double Property Message Broker.
From Stdlib Require Import Lia ZifyBool.

(** *** Tokenizer *)
Inductive TokenType : Type :=
  | IDENT | STRING | INT_LIT | FLOAT_LIT | TRUE_LIT | FALSE_LIT | NULL_LIT
  | AND | OR | NOT | LIKE | BETWEEN | IN | IS
  | EQ | NEQ | LT | LTE | GT | GTE
  | LPAREN | RPAREN | COMMA | EOF_TOKEN.
#[export] Instance TokenType_eq_dec : EqDecision TokenType.
Proof. solve_decision. Defined.
Record Token : Type := mkToken { tok_type : TokenType; tok_text : string }.

Definition skipWhitespace (s : string) : string := (span is_space s).2.

(** Tokenizer::readString, after the opening quote. *)
Fixpoint readQuoted (s : string) : string * string :=
  match s with
  | "" => ("", "")
  | String c s' =>
      if decide (c = "'"%char) then
        match s' with
        | String c' s'' =>
            if decide (c' = "'"%char) then let '(r, rest) := readQuoted s'' in (String "'" r, rest) else ("", s')
        | "" => ("", "")
        end
      else let '(r, rest) := readQuoted s' in (String c r, rest)
  end.
Definition readNumber (s : string) : Token * string :=
  let '(sign, s1) := match s with
                     | String c s' => if decide (c = "-"%char) then ("-", s') else ("", s)
                     | "" => ("", s)
                     end in
  let '(ds, s2) := span is_digit s1 in
  match s2 with
  | String c s3 =>
      if decide (c = "."%char) then
        let '(fs, s4) := span is_digit s3 in (mkToken FLOAT_LIT (sign +:+ (ds +:+ String "." fs)), s4)
      else (mkToken INT_LIT (sign +:+ ds), s2)
  | "" => (mkToken INT_LIT (sign +:+ ds), s2)
  end.
Definition is_ident (c : ascii) : bool :=
  is_alpha c || is_digit c || bool_decide (c = "_"%char) || bool_decide (c = "."%char).
Fixpoint upper (s : string) : string :=
  match s with "" => "" | String c s' => String (to_upper c) (upper s') end.
Definition keyword (text : string) : TokenType :=
  let u := upper text in
  if decide (u = "AND") then AND
  else if decide (u = "OR") then OR
  else if decide (u = "NOT") then NOT
  else if decide (u = "LIKE") then LIKE
  else if decide (u = "BETWEEN") then BETWEEN
  else if decide (u = "IN") then IN
  else if decide (u = "IS") then IS
  else if decide (u = "TRUE") then TRUE_LIT
  else if decide (u = "FALSE") then FALSE_LIT
  else if decide (u = "NULL") then NULL_LIT
  else IDENT.
Definition readIdent (s : string) : Token * string :=
  let '(text, rest) := span is_ident s in (mkToken (keyword text) text, rest).

Definition starts (p : ascii → bool) (s : string) : bool := match s with String c _ => p c | "" => false end.
(** The one- and two-character operators; [None] for any other character. *)
Definition readOperator (c : ascii) (s : string) : option (Token * string) :=
  let same (d : ascii) := bool_decide (c = d) in
  let then_ (d : ascii) := starts (λ x, bool_decide (x = d)) s in
  let tail := match s with String _ s' => s' | "" => "" end in
  if same "="%char then Some (mkToken EQ "=", s)
  else if same "("%char then Some (mkToken LPAREN "(", s)
  else if same ")"%char then Some (mkToken RPAREN ")", s)
  else if same ","%char then Some (mkToken COMMA ",", s)
  else if same "<"%char then
    if then_ ">"%char then Some (mkToken NEQ "<>", tail)
    else if then_ "="%char then Some (mkToken LTE "<=", tail)
    else Some (mkToken LT "<", s)
  else if same ">"%char then
    if then_ "="%char then Some (mkToken GTE ">=", tail) else Some (mkToken GT ">", s)
  else None.

(** Tokenizer::next; the state is the input from _pos on. *)
Definition next : M string Token :=
  s ← get;
  let s := skipWhitespace s in
  _ ← put s;
  match s with
  | "" => mret (mkToken EOF_TOKEN "")
  | String c s' =>
      let emit (r : Token * string) : M string Token := _ ← put r.2; mret r.1 in
      if decide (c = "'"%char) then let '(text, rest) := readQuoted s' in emit (mkToken STRING text, rest)
      else if is_digit c || (bool_decide (c = "-"%char) && starts is_digit s') then emit (readNumber s)
      else if is_alpha c || bool_decide (c = "_"%char) then emit (readIdent s)
      else match readOperator c s' with
           | Some r => emit r
           | None => throw (InvalidSelectorException ("unexpected character '" +:+ String c "'"))
           end
  end.

(** *** Values *)

(** SelectorValue *)
Inductive SelectorValue : Type :=
  | VNull | VBool (b : bool) | VInt (z : Z) | VDouble (d : spec_float) | VString (s : string).
#[export] Instance SelectorValue_eq_dec : EqDecision SelectorValue.
Proof. solve_decision. Defined.

(** extractProperty: a property of the message, widened; anything else is null. *)
Definition extractProperty (m : Message) (name : string) : SelectorValue :=
  match properties m !! name with
  | Some (PBool (Some b)) => VBool b
  | Some (PString (Some s)) => VString s
  | Some (PInt (Some z)) | Some (PLong (Some z)) | Some (PShort (Some z)) | Some (PByte (Some z)) => VInt z
  | Some (PDouble (Some d)) | Some (PFloat (Some d)) => VDouble d
  | Some (PChar (Some c)) => VString (String (ascii_of_byte c) "")
  | _ => VNull
  end.

(** toDouble is only called on numeric values. *)
Definition toDouble (v : SelectorValue) : spec_float :=
  match v with VInt z => doubleOfInt z | VDouble d => d | _ => S754_nan end.
Definition isNumeric (v : SelectorValue) : bool := match v with VInt _ | VDouble _ => true | _ => false end.
Definition selEQ (a b : SelectorValue) : bool :=
  match a, b with
  | VNull, _ | _, VNull => false
  | VBool x, VBool y => Bool.eqb x y
  | VString x, VString y => bool_decide (x = y)
  | _, _ => if isNumeric a && isNumeric b then SFeqb (toDouble a) (toDouble b) else false
  end.
Definition selLT (a b : SelectorValue) : bool :=
  if isNumeric a && isNumeric b then SFltb (toDouble a) (toDouble b) else false.
Definition selGT (a b : SelectorValue) : bool := selLT b a.
Definition selLTE (a b : SelectorValue) : bool := selEQ a b || selLT a b.
Definition selGTE (a b : SelectorValue) : bool := selEQ a b || selGT a b.

(** *** LIKE *)
Definition special (c : ascii) : bool :=
  bool_decide (c ∈ [".";"^";"$";"*";"+";"?";"(";")";"[";"]";"{";"}";"|";"\"]%char).
Fixpoint likeBody (pattern : string) : string :=
  match pattern with
  | "" => ""
  | String c p =>
      if decide (c = "%"%char) then String "." (String "*" (likeBody p))
      else if decide (c = "_"%char) then String "." (likeBody p)
      else if special c then String "\" (String c (likeBody p))
      else String c (likeBody p)
  end.
Definition likeToRegex (pattern : string) : string := String "^" (likeBody pattern +:+ "$").

(** std::regex (ECMAScript) and std::regex_match on the expressions made of single
    characters, escaped characters, [.] and [.*] between the anchors: [.] matches
    any character but a line terminator. [None] is an expression outside this. *)
Inductive atom : Type := Any | AnyStar | Chr (c : ascii).
Fixpoint regexAtoms (r : string) : option (list atom) :=
  match r with
  | String c r1 =>
      if decide (c = "$"%char) then match r1 with "" => Some [] | _ => None end
      else if decide (c = "."%char) then
        match r1 with
        | String d r2 => if decide (d = "*"%char) then cons AnyStar <$> regexAtoms r2 else cons Any <$> regexAtoms r1
        | "" => None
        end
      else if decide (c = "\"%char) then
        match r1 with
        | String d r2 => if special d then cons (Chr d) <$> regexAtoms r2 else None
        | "" => None
        end
      else if special c then None
      else cons (Chr c) <$> regexAtoms r1
  | "" => None
  end.
Definition not_terminator (c : ascii) : bool := negb (bool_decide (c = "010"%char) || bool_decide (c = "013"%char)).
Fixpoint atomsMatch (l : list atom) : string → bool :=
  match l with
  | [] => λ s, bool_decide (s = "")
  | Any :: l => λ s, match s with String c s' => not_terminator c && atomsMatch l s' | "" => false end
  | Chr d :: l => λ s, match s with String c s' => bool_decide (c = d) && atomsMatch l s' | "" => false end
  | AnyStar :: l => fix star s :=
      atomsMatch l s || match s with String c s' => not_terminator c && star s' | "" => false end
  end.
Definition regex_match (s r : string) : option bool :=
  match r with
  | String c r => if decide (c = "^"%char) then (λ l, atomsMatch l s) <$> regexAtoms r else None
  | "" => None
  end.

(** *** Evaluation *)
Inductive EvalFn : Type :=
  | OrFn (l r : EvalFn)
  | AndFn (l r : EvalFn)
  | NotFn (e : EvalFn)
  | IsNullFn (l : EvalFn) (negated : bool)
  | BetweenFn (l lo hi : EvalFn) (negated : bool)
  | InFn (l : EvalFn) (items : list EvalFn) (negated : bool)
  | LikeFn (l : EvalFn) (regex : string) (negated : bool)
  | RelFn (l r : EvalFn) (op : TokenType)
  | NullFn
  | BoolFn (b : bool)
  | StringFn (val : string)
  | IntFn (val : Z)
  | FloatFn (val : spec_float)
  | PropertyFn (name : string).

(** !result when negated *)
Definition flip (negated result : bool) : bool := if negated then negb result else result.
Definition relation (op : TokenType) (lv rv : SelectorValue) : SelectorValue :=
  match op with
  | EQ => VBool (selEQ lv rv)
  | NEQ => VBool (negb (selEQ lv rv))
  | LT => VBool (selLT lv rv)
  | LTE => VBool (selLTE lv rv)
  | GT => VBool (selGT lv rv)
  | GTE => VBool (selGTE lv rv)
  | _ => VNull
  end.
Fixpoint eval (e : EvalFn) (m : Message) : SelectorValue :=
  match e with
  | OrFn l r =>
      match eval l m with
      | VBool true => VBool true
      | lv => match eval r m with
              | VBool true => VBool true
              | VBool false => match lv with VBool _ => VBool false | _ => VNull end
              | _ => VNull
              end
      end
  | AndFn l r =>
      match eval l m with
      | VBool false => VBool false
      | lv => match eval r m with
              | VBool false => VBool false
              | VBool true => match lv with VBool _ => VBool true | _ => VNull end
              | _ => VNull
              end
      end
  | NotFn e => match eval e m with VBool b => VBool (negb b) | _ => VNull end
  | IsNullFn l negated => VBool (flip negated (bool_decide (eval l m = VNull)))
  | BetweenFn l lo hi negated =>
      let lv := eval l m in
      VBool (flip negated (selGTE lv (eval lo m) && selLTE lv (eval hi m)))
  | InFn l items negated =>
      match eval l m with
      | VNull => VNull
      | lv => VBool (flip negated (existsb (λ item, selEQ lv (eval item m)) items))
      end
  | LikeFn l regex negated =>
      match eval l m with
      | VString s => match regex_match s regex with Some result => VBool (flip negated result) | None => VNull end
      | _ => VNull
      end
  | RelFn l r op => relation op (eval l m) (eval r m)
  | NullFn => VNull
  | BoolFn b => VBool b
  | StringFn val => VString val
  | IntFn val => VInt val
  | FloatFn val => VDouble val
  | PropertyFn name => extractProperty m name
  end.
(** Selector::matches *)
Definition matches (e : EvalFn) (m : Message) : bool := match eval e m with VBool b => b | _ => false end.

(** *** Numbers of literals *)
Fixpoint digitsValue (acc : Z) (s : string) : Z :=
  match s with "" => acc | String c s' => digitsValue (acc * 10 + (Z.of_nat (char_code c) - 48)) s' end.
(** An optional sign, as strtoll and strtod read it. *)
Definition splitSign (s : string) : bool * string :=
  match s with
  | String c s' => if decide (c = "-"%char) then (true, s') else if decide (c = "+"%char) then (false, s') else (false, s)
  | "" => (false, s)
  end.
(** std::stoll: the number at the head of the text, behind white space; invalid_argument
    when there is no digit, out_of_range when it does not fit. *)
Definition stoll {S} (s : string) : M S Z :=
  let '(neg, rest) := splitSign (skipWhitespace s) in
  let ds := (span is_digit rest).1 in
  if decide (ds = "") then throw (StdInvalidArgument "stoll")
  else
    let z := if neg : bool then - digitsValue 0 ds else digitsValue 0 ds in
    if decide (inS 64 z) then mret z else throw (StdOutOfRange "stoll").
(** The double nearest to n / 10^k, and whether it lost bits to the exponent range:
    the quotient of SpecFloat is correctly rounded for operands of any size. *)
Definition decimalToDouble (neg : bool) (n : Z) (k : nat) : spec_float :=
  match n with
  | Zpos p => SFdiv 53 1024 (S754_finite neg p 0) (S754_finite false (Z.to_pos (10 ^ Z.of_nat k)) 0)
  | _ => S754_zero neg
  end.
Definition underflows (n : Z) (k : nat) (d : spec_float) : bool :=
  let tiny := match d with S754_zero _ => true | S754_finite _ m e => Z.pos m * 2 ^ (e + 1074) <? 2 ^ 52 | _ => false end in
  tiny && negb ((n * 2 ^ 1074) mod 10 ^ Z.of_nat k =? 0).
(** std::stod: the decimal number at the head of the text, behind white space;
    invalid_argument when there is no digit, out_of_range on ERANGE. (No text that the
    tokenizer makes a number of has an exponent or the other forms strtod reads.) *)
Definition stod {S} (s : string) : M S spec_float :=
  let '(neg, ds) := splitSign (skipWhitespace s) in
  let '(whole, rest) := span is_digit ds in
  let frac := match rest with
              | String c fs => if decide (c = "."%char) then (span is_digit fs).1 else ""
              | "" => ""
              end in
  if decide (whole +:+ frac = "") then throw (StdInvalidArgument "stod")
  else
    let n := digitsValue 0 (whole +:+ frac) in
    let d := decimalToDouble neg n (String.length frac) in
    match d with
    | S754_infinity _ => throw (StdOutOfRange "stod")
    | _ => if underflows n (String.length frac) d then throw (StdOutOfRange "stod") else mret d
    end.

(** *** Parser *)
Record parser : Type := mkParser { current : Token; input : string }.
Definition advance : M parser unit := λ p,
  match next (input p) with
  | Ok t s => Ok tt (mkParser t s)
  | Exn e s => Exn e (mkParser (current p) s)
  | UB => UB
  end.
Definition peek : M parser TokenType := gets (λ p, tok_type (current p)).
Definition consume (t : TokenType) (what : string) : M parser Token :=
  p ← get;
  if decide (tok_type (current p) = t) then _ ← advance; mret (current p)
  else throw (InvalidSelectorException ("expected " +:+ (what +:+ (", got '" +:+ (tok_text (current p) +:+ "'"))))).
(** if (check(t)) { advance(); return true; } *)
Definition accept (t : TokenType) : M parser bool :=
  c ← peek; if decide (c = t) then _ ← advance; mret true else mret false.
Definition is_relational (t : TokenType) : bool :=
  bool_decide (t ∈ [EQ; NEQ; LT; LTE; GT; GTE]).

(** parseComparison after the optional
    NOT: [primary] and [more] are its calls of parsePrimary and of the loop of IN. *)
Definition comparisonTail (primary : M parser EvalFn) (more : list EvalFn → M parser (list EvalFn))
    (left : EvalFn) (negated : bool) : M parser EvalFn :=
  c ← peek;
  if decide (c = BETWEEN) then
    _ ← advance;
    low ← primary;
    _ ← consume AND "AND";
    high ← primary;
    mret (BetweenFn left low high negated)
  else if decide (c = IN) then
    _ ← advance;
    _ ← consume LPAREN "(";
    first ← primary;
    items ← more [first];
    _ ← consume RPAREN ")";
    mret (InFn left items negated)
  else if decide (c = LIKE) then
    _ ← advance;
    patTok ← consume STRING "pattern string";
    mret (LikeFn left (likeToRegex (tok_text patTok)) negated)
  else if negated then
    throw (InvalidSelectorException "NOT must be followed by BETWEEN, IN, or LIKE")
  else if is_relational c then
    _ ← advance;
    right ← primary;
    mret (RelFn left right c)
  else mret left.

Fixpoint parseOr (fuel : nat) : M parser EvalFn :=
  match fuel with
  | O => undefined
  | S f => left ← parseAnd f; orLoop f left
  end
with orLoop (fuel : nat) (left : EvalFn) : M parser EvalFn :=
  match fuel with
  | O => undefined
  | S f =>
      more ← accept OR;
      if more : bool then right ← parseAnd f; orLoop f (OrFn left right) else mret left
  end
with parseAnd (fuel : nat) : M parser EvalFn :=
  match fuel with
  | O => undefined
  | S f => left ← parseNot f; andLoop f left
  end
with andLoop (fuel : nat) (left : EvalFn) : M parser EvalFn :=
  match fuel with
  | O => undefined
  | S f =>
      more ← accept AND;
      if more : bool then right ← parseNot f; andLoop f (AndFn left right) else mret left
  end
with parseNot (fuel : nat) : M parser EvalFn :=
  match fuel with
  | O => undefined
  | S f =>
      negated ← accept NOT;
      if negated : bool then e ← parseNot f; mret (NotFn e) else parseComparison f
  end
with parseComparison (fuel : nat) : M parser EvalFn :=
  match fuel with
  | O => undefined
  | S f =>
      left ← parsePrimary f;
      isNull ← accept IS;
      if isNull : bool then
        negated ← accept NOT;
        _ ← consume NULL_LIT "NULL";
        mret (IsNullFn left negated)
      else
        negated ← accept NOT;
        comparisonTail (parsePrimary f) (inLoop f) left negated
  end
with inLoop (fuel : nat) (items : list EvalFn) : M parser (list EvalFn) :=
  match fuel with
  | O => undefined
  | S f =>
      more ← accept COMMA;
      if more : bool then item ← parsePrimary f; inLoop f (items ++ [item]) else mret items
  end
with parsePrimary (fuel : nat) : M parser EvalFn :=
  match fuel with
  | O => undefined
  | S f =>
      p ← get;
      let text := tok_text (current p) in
      match tok_type (current p) with
      | LPAREN => _ ← advance; e ← parseOr f; _ ← consume RPAREN ")"; mret e
      | NULL_LIT => _ ← advance; mret NullFn
      | TRUE_LIT => _ ← advance; mret (BoolFn true)
      | FALSE_LIT => _ ← advance; mret (BoolFn false)
      | STRING => _ ← advance; mret (StringFn text)
      | INT_LIT => val ← stoll text; _ ← advance; mret (IntFn val)
      | FLOAT_LIT => val ← stod text; _ ← advance; mret (FloatFn val)
      | IDENT => _ ← advance; mret (PropertyFn text)
      | _ => throw (InvalidSelectorException ("unexpected token '" +:+ (text +:+ "' in expression")))
      end
  end.

Definition parseExpression (fuel : nat) : M parser EvalFn :=
  expr ← parseOr fuel;
  p ← get;
  if decide (tok_type (current p) = EOF_TOKEN) then mret expr
  else throw (InvalidSelectorException ("unexpected token '" +:+ (tok_text (current p) +:+ "'"))).
(** Enough for any input: every seven calls consume a token. *)
Definition parseFuel (expression : string) : nat := 8 * (String.length expression + 2).
(** Selector::parse *)
Definition parse (expression : string) : res parser EvalFn :=
  let p := mkParser (mkToken EOF_TOKEN "") expression in
  if decide (expression = "") then Ok (BoolFn true) p
  else (_ ← advance; parseExpression (parseFuel expression)) p.

(** What the broker uses of a selector. A parse that is undefined does not exist. *)
Definition selector_filter : MessageFilter := {|
  filter_t := EvalFn;
  filter_parse s := match parse s with
                    | Ok e _ => inl e
                    | Exn e _ => inr e
                    | UB => inr (InvalidSelectorException "")
                    end;
  filter_matches := matches
|}.

(** A run of the parser, as a check of the model. *)
Example parse_sample :
  match parse "rank > 100 AND (name LIKE 'J%' OR NOT age NOT BETWEEN 1 AND 2.5)" with
  | Ok e _ => e = AndFn (RelFn (PropertyFn "rank") (IntFn 100) GT)
      (OrFn (LikeFn (PropertyFn "name") "^J.*$" false)
        (NotFn (BetweenFn (PropertyFn "age") (IntFn 1) (FloatFn (S754_finite false 5629499534213120 (-51))) true)))
  | _ => False
  end.
Proof. by vm_compute. Qed.
