(* ===== verification/SelectorFacts.v ===== *)
(** What message selectors guarantee whatever the text: parsing ends on every input
    and only throws what it may, and LIKE is the SQL pattern match within a line. *)
From Stdlib Require Import SpecFloat Ascii.
Set Warnings "-register-all".
From S2P Require Import Prelude Property Message Broker Selector.
From Stdlib Require Import Lia ZifyBool.

(** What a parse may throw. *)
Definition parse_error (e : exn) : Prop :=
  match e with InvalidSelectorException _ | StdOutOfRange _ => True | _ => False end.

(** *** Parsing ends *)

(** [r] is defined, throws what the parser's code can throw on any tokens, and its
    result satisfies [Q]. *)
Definition wp {S A} (r : res S A) (Q : A → S → Prop) : Prop :=
  match r with
  | Ok a s => Q a s
  | Exn e _ => parse_error e ∨ ∃ what, e = StdInvalidArgument what
  | UB => False
  end.

Lemma wp_mono {S A} (r : res S A) (Q Q' : A → S → Prop) : wp r Q → (∀ a s, Q a s → Q' a s) → wp r Q'.
Proof. destruct r; simpl; eauto. Qed.
Lemma wp_bind {S A B} (m : M S A) (f : A → M S B) s Q :
  wp (m s) (λ a s', wp (f a s') Q) → wp ((m ≫= f) s) Q.
Proof. unfold mbind, M_bind. by destruct (m s). Qed.
Lemma wp_and {S A} (r : res S A) Q Q' : wp r Q → wp r Q' → wp r (λ a s, Q a s ∧ Q' a s).
Proof. destruct r; simpl; eauto. Qed.

Lemma span_length p s : (String.length (span p s).1 + String.length (span p s).2 = String.length s)%nat.
Proof. induction s as [|c s IH]; [done|]. simpl. destruct (p c); [|done]. destruct (span p s). simpl in *. lia. Qed.
Lemma readQuoted_length s : (String.length (readQuoted s).2 <= String.length s)%nat.
Proof.
  induction s as [s IH] using (induction_ltof1 _ String.length). unfold ltof in IH.
  destruct s as [|c [|c' s]]; simpl; [done|case_decide; simpl; lia|].
  case_decide; [case_decide; [|simpl; lia]|].
  - specialize (IH s ltac:(simpl; lia)). destruct (readQuoted s). simpl in *. lia.
  - specialize (IH (String c' s) ltac:(simpl; lia)). simpl in IH. 
    destruct (if decide (c' = _) then _ else _). simpl in *. lia.
Qed.
Lemma readNumber_length s :
  is_digit (default "a"%char (String.get 0 s)) = true ∨ starts (λ c, bool_decide (c = "-"%char)) s = true →
  (String.length (readNumber s).2 < String.length s)%nat.
Proof.
  unfold readNumber. destruct s as [|c s]; [by intros [|]|]. simpl. intros H.
  assert (Hs : ∀ p x, (String.length (span p x).2 <= String.length x)%nat).
  { intros p x. pose proof (span_length p x). lia. }
  case_decide as Hc.
  - simpl. specialize (Hs is_digit s). destruct (span is_digit s) as [ds [|d s2]]; simpl in *; [lia|].
    case_decide; [|simpl; lia]. pose proof (span_length is_digit s2). destruct (span is_digit s2). simpl in *. lia.
  - destruct H as [H|H]; [|by apply bool_decide_eq_true in H]. simpl in H. simpl. rewrite H.
    specialize (Hs is_digit s). destruct (span is_digit s) as [ds [|d s2]]; simpl in *; [lia|].
    case_decide; [|simpl; lia]. pose proof (span_length is_digit s2). destruct (span is_digit s2). simpl in *. lia.
Qed.
Lemma readOperator_length c s r : readOperator c s = Some r → (String.length r.2 <= String.length s)%nat.
Proof.
  unfold readOperator. cbv zeta. intros H. repeat case_match; simplify_eq; simpl in *; try lia; destruct s; simpl; lia.
Qed.

Lemma next_spec s :
  wp (next s) (λ t s', (String.length s' <= String.length s)%nat ∧
    (tok_type t ≠ EOF_TOKEN → (String.length s' < String.length s)%nat)).
Proof.
  unfold next. apply wp_bind. simpl. apply wp_bind. simpl.
  assert (Hw : (String.length (skipWhitespace s) <= String.length s)%nat).
  { unfold skipWhitespace. pose proof (span_length is_space s). lia. }
  destruct (skipWhitespace s) as [|c s'] eqn:Hs; [done|]. simpl in Hw.
  assert (Hemit : ∀ r : Token * string, (String.length r.2 < S (String.length s'))%nat →
    wp ((_ ← put r.2; mret r.1) (String c s')) (λ t s0, (String.length s0 <= String.length s)%nat ∧
      (tok_type t ≠ EOF_TOKEN → (String.length s0 < String.length s)%nat))).
  { intros r Hr. apply wp_bind. simpl. split; lia. }
  case_decide.
  { pose proof (readQuoted_length s'). destruct (readQuoted s') as [q rest]. apply (Hemit (mkToken STRING q, rest)). simpl in *. lia. }
  destruct (is_digit c || _) eqn:Hn.
  { apply (Hemit (readNumber (String c s'))). apply (readNumber_length (String c s')). simpl. destruct (is_digit c); [by left|right].
    by apply andb_true_iff in Hn as [Hn _]. }
  destruct (is_alpha c || _) eqn:Hi.
  { unfold readIdent. pose proof (span_length is_ident (String c s')) as Hl. simpl in Hl |- *.
    assert (Hc : is_ident c = true).
    { unfold is_ident. apply orb_true_iff in Hi as [Hi|Hi]; rewrite Hi; simpl; [done|].
      by rewrite !orb_true_r. }
    rewrite Hc in *. destruct (span is_ident s') as [w rest]. simpl in Hl.
    apply (Hemit (mkToken (keyword (String c w)) (String c w), rest)). simpl. lia. }
  destruct (readOperator c s') as [r|] eqn:Hr; [|by left]. apply (Hemit r). apply readOperator_length in Hr. lia.
Qed.

(** What is left to parse: a token, unless it is the last, and the input. *)
Definition psize (p : parser) : nat :=
  if decide (tok_type (current p) = EOF_TOKEN) then 0 else S (String.length (input p)).

Lemma advance_spec p :
  wp (advance p) (λ _ p', (psize p' <= S (String.length (input p)))%nat ∧
    (tok_type (current p) ≠ EOF_TOKEN → (psize p' < psize p)%nat)).
Proof.
  unfold advance. pose proof (next_spec (input p)) as H. destruct (next (input p)) as [t s|e s|]; [|done..].
  simpl in *. unfold psize. simpl. destruct H as [H1 H2]. split.
  - case_decide; lia.
  - intros Hp. rewrite (decide_False (P := tok_type (current p) = EOF_TOKEN)) by done. case_decide; [lia|].
    specialize (H2 ltac:(done)). lia.
Qed.
Lemma wp_advance p (Q : unit → parser → Prop) :
  tok_type (current p) ≠ EOF_TOKEN → (∀ p', (psize p' < psize p)%nat → Q tt p') → wp (advance p) Q.
Proof. intros Ht HQ. eapply wp_mono; [apply advance_spec|]. intros [] p' [_ H]. by apply HQ, H. Qed.
Lemma wp_accept t p (Q : bool → parser → Prop) :
  t ≠ EOF_TOKEN → Q false p → (∀ p', (psize p' < psize p)%nat → Q true p') → wp (accept t p) Q.
Proof.
  intros Ht H1 H2. unfold accept. apply wp_bind. simpl. case_decide as Hc; [|done].
  apply wp_bind. apply wp_advance; [by rewrite Hc|]. intros p' Hp. by apply H2.
Qed.
Lemma wp_consume t what p (Q : Token → parser → Prop) :
  t ≠ EOF_TOKEN → (∀ p', (psize p' < psize p)%nat → Q (current p) p') → wp (consume t what p) Q.
Proof.
  intros Ht HQ. unfold consume. apply wp_bind. simpl. case_decide as Hc; [|by left].
  apply wp_bind. apply wp_advance; [by rewrite Hc|]. intros p' Hp. by apply HQ.
Qed.

(** The step of every lemma below: run the next operation of the parser. *)
Ltac parser_step :=
  match goal with
  | |- wp ((_ ≫= _) _) _ => apply wp_bind
  | |- wp (accept _ _) _ => apply wp_accept; [done| |intros ? ?]
  | |- wp (consume _ _ _) _ => apply wp_consume; [done|intros ? ?]
  | |- wp (advance _) _ => apply wp_advance; [congruence|intros ? ?]
  | |- wp (throw (StdInvalidArgument _) _) _ => right; by eexists
  | |- wp (throw _ _) _ => by left
  | |- wp (mret _ _) _ => simpl
  | |- wp (get _) _ => simpl
  | |- wp (peek _) _ => simpl
  | |- wp ((if decide _ then _ else _) _) _ => case_decide
  end.

(** Each function ends within its fuel; those that return an expression consume it. *)
Record ends (f : nat) : Prop := {
  en_or : ∀ p, (8 * psize p + 6 <= f)%nat → wp (parseOr f p) (λ _ p', (psize p' < psize p)%nat);
  en_orLoop : ∀ l p, (8 * psize p + 1 <= f)%nat → wp (orLoop f l p) (λ _ p', (psize p' <= psize p)%nat);
  en_and : ∀ p, (8 * psize p + 5 <= f)%nat → wp (parseAnd f p) (λ _ p', (psize p' < psize p)%nat);
  en_andLoop : ∀ l p, (8 * psize p + 1 <= f)%nat → wp (andLoop f l p) (λ _ p', (psize p' <= psize p)%nat);
  en_not : ∀ p, (8 * psize p + 3 <= f)%nat → wp (parseNot f p) (λ _ p', (psize p' < psize p)%nat);
  en_comparison : ∀ p, (8 * psize p + 2 <= f)%nat → wp (parseComparison f p) (λ _ p', (psize p' < psize p)%nat);
  en_in : ∀ l p, (8 * psize p + 1 <= f)%nat → wp (inLoop f l p) (λ _ p', (psize p' <= psize p)%nat);
  en_primary : ∀ p, (8 * psize p + 1 <= f)%nat → wp (parsePrimary f p) (λ _ p', (psize p' < psize p)%nat)
}.
(** A call whose fuel is enough, after which the rest is smaller. *)
Ltac parser_call H :=
  apply wp_bind; eapply wp_mono; [apply H; lia|intros ? ? ?; cbn beta in *].

Lemma ends_all f : ends f.
Proof.
  induction f as [|f IH]; [by split; intros; lia|].
  destruct IH as [H1 H2 H3 H4 H5 H6 H7 H8]. split; intros.
  - cbn [parseOr]. parser_call H3. eapply wp_mono; [apply H2; lia|]. simpl. intros. lia.
  - cbn [orLoop]. parser_step. parser_step; [simpl; lia|]. parser_call H3.
    eapply wp_mono; [apply H2; lia|]. simpl. intros. lia.
  - cbn [parseAnd]. parser_call H5. eapply wp_mono; [apply H4; lia|]. simpl. intros. lia.
  - cbn [andLoop]. parser_step. parser_step; [simpl; lia|]. parser_call H5.
    eapply wp_mono; [apply H4; lia|]. simpl. intros. lia.
  - cbn [parseNot]. parser_step. parser_step; [apply H6; lia|]. parser_call H5. simpl. lia.
  - cbn [parseComparison]. parser_call H8. parser_step. parser_step; [|by repeat parser_step; simpl; lia].
    assert (Hc : ∀ negated p', (psize p' < psize p)%nat →
      wp (comparisonTail (parsePrimary f) (inLoop f) a negated p') (λ _ p', (psize p' < psize p)%nat)).
    { intros negated p' Hp. unfold comparisonTail. parser_step. simpl. case_decide; [|case_decide; [|case_decide]].
      - do 2 parser_step. parser_call H8. do 2 parser_step. parser_call H8. simpl. lia.
      - do 4 parser_step. parser_call H8. parser_call H7. do 2 parser_step. simpl. lia.
      - do 4 parser_step. simpl. lia.
      - destruct negated; [by left|]. destruct (is_relational (tok_type (current p'))) eqn:Hr; [|simpl; lia].
        parser_step. apply wp_advance.
        { intros He. by rewrite He in Hr. }
        intros p1 Hp1. parser_call H8. simpl. lia. }
    parser_step. parser_step; [by apply Hc|]. apply Hc. lia.
  - cbn [inLoop]. parser_step. parser_step; [simpl; lia|]. parser_call H8.
    eapply wp_mono; [apply H7; lia|]. simpl. intros. lia.
  - cbn [parsePrimary]. parser_step. parser_step. destruct (tok_type (current p)) eqn:Ht; try (by left);
      try (by parser_step; parser_step; simpl; lia).
    + parser_step. unfold stoll. destruct (splitSign _) as [neg ds].
      cbv zeta. parser_step; [parser_step|]. parser_step; [|parser_step]. simpl. do 2 parser_step. simpl. lia.
    + parser_step. unfold stod. destruct (splitSign _) as [neg ds]. destruct (span is_digit ds) as [whole rest].
      assert (Hd : ∀ d : spec_float, wp ((_ ← advance; mret (FloatFn d)) p) (λ _ p', (psize p' < psize p)%nat)).
      { intros d. parser_step. parser_step. simpl. lia. }
      cbv zeta. parser_step; [parser_step|]. repeat case_match; try (by left); apply Hd.
    + do 2 parser_step. parser_call H1. do 2 parser_step. simpl. lia.
Qed.

Lemma parse_wp expression : wp (parse expression) (λ _ _, True).
Proof.
  unfold parse. case_decide; [done|]. set (p0 := mkParser _ expression). apply wp_bind.
  eapply wp_mono; [apply (advance_spec p0)|]. intros [] p [Hp _]. unfold p0 in Hp. simpl in Hp.
  unfold parseExpression. apply wp_bind. eapply wp_mono; [apply ends_all; unfold parseFuel; lia|].
  intros e p' _. apply wp_bind. simpl. case_decide; [done|by left].
Qed.

(** *** Every number has a digit *)

(** The token is not a number, or its text is one that strtoll and strtod can read. *)
Definition literal (t : Token) : Prop :=
  tok_type t = INT_LIT ∨ tok_type t = FLOAT_LIT →
  starts is_digit (splitSign (skipWhitespace (tok_text t))).2 = true.

Lemma is_digit_plain c : is_digit c = true → is_space c = false ∧ c ≠ "-"%char ∧ c ≠ "+"%char.
Proof.
  unfold is_digit, is_space, in_range. intros H. split; [lia|]. split; intros ->; done.
Qed.
Lemma number_literal sign ds s1 t :
  sign = "" ∨ sign = "-" → ds = (span is_digit s1).1 → starts is_digit s1 = true →
  starts is_digit (splitSign (skipWhitespace (sign +:+ (ds +:+ t)))).2 = true.
Proof.
  intros Hsign -> Hs. destruct s1 as [|c s1]; [done|]. simpl in Hs. simpl. rewrite Hs.
  destruct (is_digit_plain c Hs) as (H1 & H2 & H3). destruct (span is_digit s1) as [ds r]. simpl.
  unfold skipWhitespace. destruct Hsign as [->| ->]; simpl.
  - rewrite H1. simpl. by rewrite !decide_False by done.
  - done.
Qed.
Lemma app_empty s : s +:+ "" = s.
Proof. induction s as [|c s IH]; [done|]. change (String c (s +:+ "") = String c s). by rewrite IH. Qed.
Lemma readNumber_literal c s :
  is_digit c = true ∨ (c = "-"%char ∧ starts is_digit s = true) → literal (readNumber (String c s)).1.
Proof.
  intros Hc. unfold readNumber.
  assert (∃ sign s1, (if decide (c = "-"%char) then ("-", s) else ("", String c s)) = (sign, s1) ∧
    (sign = "" ∨ sign = "-") ∧ starts is_digit s1 = true) as (sign & s1 & -> & Hsign & Hs).
  { case_decide as Hm; [exists "-", s|exists "", (String c s)]; split_and!; auto; [|by destruct Hc as [|[]]].
    destruct Hc as [Hc|[]]; [|done]. by destruct (is_digit_plain c Hc) as (_ & []). }
  destruct (span is_digit s1) as [ds s2] eqn:Hd. assert (ds = (span is_digit s1).1) by by rewrite Hd.
  assert (Hint : literal (mkToken INT_LIT (sign +:+ ds))).
  { intros _. simpl. rewrite <-(app_empty ds). by eapply number_literal. }
  destruct s2 as [|d s3]; [done|]. case_decide; [|done]. destruct (span is_digit s3) as [fs s4].
  intros _. simpl. by eapply number_literal.
Qed.

Lemma keyword_not_number text : keyword text ≠ INT_LIT ∧ keyword text ≠ FLOAT_LIT.
Proof. unfold keyword. repeat case_decide; done. Qed.
Lemma readOperator_literal c s r : readOperator c s = Some r → literal r.1.
Proof. unfold readOperator. cbv zeta. intros H. repeat case_match; simplify_eq; intros [|]; done. Qed.
Lemma next_literal s : match next s with Ok t _ => literal t | _ => True end.
Proof.
  unfold next, mbind, M_bind. cbn [get put]. destruct (skipWhitespace s) as [|c s'].

  { intros [|]; done. }
  case_decide; [destruct (readQuoted s'); intros [|]; done|].
  destruct (is_digit c || _) eqn:Hn.
  { apply readNumber_literal. apply orb_true_iff in Hn as [Hn|[Hm Hn]%andb_true_iff]; [by left|right].
    by apply bool_decide_eq_true in Hm. }
  destruct (is_alpha c || _).
  { unfold readIdent. destruct (span is_ident (String c s')) as [w r]. simpl.
    destruct (keyword_not_number w). intros [|]; done. }
  destruct (readOperator c s') as [r|] eqn:Hr; [|done]. by eapply readOperator_literal.
Qed.

(** [r] is not an invalid_argument, and leaves a current token that would raise none. *)
Definition safe {A} (r : res parser A) : Prop :=
  match r with Ok _ p => literal (current p) | Exn e _ => ∀ what, e ≠ StdInvalidArgument what | UB => True end.
Definition safe_op {A} (m : M parser A) : Prop := ∀ p, literal (current p) → safe (m p).

Lemma safe_bind_at {A B} (m : M parser A) (f : A → M parser B) p :
  safe (m p) → (∀ a, safe_op (f a)) → safe ((m ≫= f) p).
Proof.
  intros Hm Hf. unfold mbind, M_bind in *. destruct (m p) as [a p'| |]; [by apply Hf|done..].
Qed.
Lemma safe_bind {A B} (m : M parser A) (f : A → M parser B) :
  safe_op m → (∀ a, safe_op (f a)) → safe_op (m ≫= f).
Proof. intros Hm Hf p Hp. apply safe_bind_at; auto. Qed.
Lemma safe_ret {A} (a : A) : safe_op (mret a).
Proof. by intros p Hp. Qed.
Lemma safe_advance : safe_op advance.
Proof.
  intros p Hp. unfold advance. pose proof (next_literal (input p)) as Hl.
  pose proof (next_spec (input p)) as Hs. destruct (next (input p)) as [t s|e s|] eqn:Hn; [done| |done].
  simpl in Hs |- *. intros what ->. clear Hl Hs. revert Hn. unfold next, mbind, M_bind. cbn [get put].
  repeat case_match; simplify_eq; try done; cbn; congruence.
Qed.
#[local] Hint Resolve safe_bind safe_ret safe_advance : safe.
Lemma safe_get {A} (f : parser → M parser A) : (∀ q, safe_op (f q)) → safe_op (get ≫= f).
Proof. intros Hf. apply safe_bind; [by intros p|done]. Qed.
Lemma safe_peek : safe_op peek.
Proof. by intros p. Qed.
Lemma safe_throw {A} s : safe_op (throw (InvalidSelectorException s) : M parser A).
Proof. by intros p _ what. Qed.
Lemma safe_undefined {A} : safe_op (undefined : M parser A).
Proof. by intros p. Qed.
Lemma safe_consume t what : safe_op (consume t what).
Proof.
  apply safe_get. intros q. case_decide; [|apply safe_throw]. apply safe_bind; auto with safe.
Qed.
Lemma safe_accept t : safe_op (accept t).
Proof. apply safe_bind; [apply safe_peek|]. intros c. case_decide; auto with safe. Qed.

Lemma starts_span s : starts is_digit s = true → ∃ c ds, (span is_digit s).1 = String c ds.
Proof. destruct s as [|c s]; [done|]. simpl. intros ->. destruct (span is_digit s). eauto. Qed.
Lemma stoll_safe p : literal (current p) → tok_type (current p) = INT_LIT →
  safe (stoll (tok_text (current p)) p).
Proof.
  intros Hp Ht. pose proof (Hp (or_introl Ht)) as Hd. unfold stoll.
  destruct (splitSign _) as [neg ds]. simpl in Hd. apply starts_span in Hd as (c & ds' & Hd). rewrite Hd.
  cbv zeta. rewrite decide_False by done. by case_decide.
Qed.
Lemma stod_safe p : literal (current p) → tok_type (current p) = FLOAT_LIT →
  safe (stod (tok_text (current p)) p).
Proof.
  intros Hp Ht. pose proof (Hp (or_intror Ht)) as Hd. unfold stod.
  destruct (splitSign _) as [neg ds]. simpl in Hd. apply starts_span in Hd as (c & ds' & Hd).
  destruct (span is_digit ds) as [whole rest]. simpl in Hd. subst whole.
  cbv zeta. rewrite decide_False by done. by repeat case_match.
Qed.

Ltac safe_step :=
  match goal with
  | |- ∀ _, safe_op _ => intros ?
  | |- safe_op (get ≫= _) => apply safe_get; intros ?
  | |- safe_op (_ ≫= _) => apply safe_bind; [|intros ?]
  | |- safe_op (accept _) => apply safe_accept
  | |- safe_op (consume _ _) => apply safe_consume
  | |- safe_op advance => apply safe_advance
  | |- safe_op peek => apply safe_peek
  | |- safe_op (mret _) => apply safe_ret
  | |- safe_op (throw _) => apply safe_throw
  | |- safe_op (if decide _ then _ else _) => case_decide
  | |- safe_op (if ?b then _ else _) => destruct b
  end.
Lemma safe_tail primary more left negated :
  safe_op primary → (∀ l, safe_op (more l)) → safe_op (comparisonTail primary more left negated).
Proof. intros H1 H2. unfold comparisonTail. by repeat safe_step. Qed.

Record safe_all (f : nat) : Prop := {
  sa_or : safe_op (parseOr f);
  sa_orLoop : ∀ l, safe_op (orLoop f l);
  sa_and : safe_op (parseAnd f);
  sa_andLoop : ∀ l, safe_op (andLoop f l);
  sa_not : safe_op (parseNot f);
  sa_comparison : safe_op (parseComparison f);
  sa_in : ∀ l, safe_op (inLoop f l);
  sa_primary : safe_op (parsePrimary f)
}.
Lemma parser_safe f : safe_all f.
Proof.
  induction f as [|f []]; [split; intros; apply safe_undefined|]. split;
    cbn [parseOr orLoop parseAnd andLoop parseNot parseComparison inLoop]; try by repeat safe_step.
  - repeat safe_step; try done. by apply safe_tail.
  - intros p Hp. cbn [parsePrimary]. change (safe ((match tok_type (current p) with
      | LPAREN => _ ← advance; e ← parseOr f; _ ← consume RPAREN ")"; mret e
      | NULL_LIT => _ ← advance; mret NullFn
      | TRUE_LIT => _ ← advance; mret (BoolFn true)
      | FALSE_LIT => _ ← advance; mret (BoolFn false)
      | STRING => _ ← advance; mret (StringFn (tok_text (current p)))
      | INT_LIT => val ← stoll (tok_text (current p)); _ ← advance; mret (IntFn val)
      | FLOAT_LIT => val ← stod (tok_text (current p)); _ ← advance; mret (FloatFn val)
      | IDENT => _ ← advance; mret (PropertyFn (tok_text (current p)))
      | _ => throw (InvalidSelectorException ("unexpected token '" +:+ (tok_text (current p) +:+ "' in expression")))
      end) p)). pose proof (stoll_safe p Hp) as Hi. pose proof (stod_safe p Hp) as Hf.
    set (text := tok_text (current p)) in *.
    assert (Hop : ∀ m : M parser EvalFn, safe_op m → safe (m p)) by auto.
    destruct (tok_type (current p)) eqn:Ht; try (by apply Hop; repeat safe_step).
    + apply safe_bind_at; [by apply Hi|]. by repeat safe_step.
    + apply safe_bind_at; [by apply Hf|]. by repeat safe_step.
Qed.

Lemma parse_no_invalid expression :
  match parse expression with Exn e _ => ∀ what, e ≠ StdInvalidArgument what | _ => True end.
Proof.
  unfold parse. case_decide; [done|]. set (p0 := mkParser _ expression).
  assert (Hop : safe_op (_ ← advance; parseExpression (parseFuel expression))).
  { unfold parseExpression. destruct (parser_safe (parseFuel expression)). repeat safe_step; done. }
  specialize (Hop p0 ltac:(by intros [|])). revert Hop. unfold safe. by case_match.
Qed.

(** C38. Parsing a selector always ends, within the bound on its recursion: for every
    string it returns a selector, or throws an InvalidSelectorException, or lets the
    out_of_range of a literal that no number can hold escape. In particular the
    invalid_argument of stoll and stod, which a number without a digit would raise,
    never does: the tokenizer makes no such number. *)
Theorem parse_ends expression :
  match parse expression with
  | Ok _ _ => True
  | Exn e _ => parse_error e
  | UB => False
  end.
Proof.
  pose proof (parse_wp expression) as H. pose proof (parse_no_invalid expression) as H'.
  destruct (parse expression) as [e p|e p|]; [done| |done]. destruct H as [H|[what ->]]; [done|].
  by destruct (H' what).
Qed.

(** *** LIKE *)

(** The SQL pattern match, on text within a line: [%] is any run of characters and
    [_] any one of them, neither a line terminator. *)
Inductive Like : string → string → Prop :=
  | like_nil : Like "" ""
  | like_one c p s : not_terminator c = true → Like p s → Like (String "_" p) (String c s)
  | like_end p s : Like p s → Like (String "%" p) s
  | like_more c p s : not_terminator c = true → Like (String "%" p) s → Like (String "%" p) (String c s)
  | like_char c p s : c ≠ "%"%char → c ≠ "_"%char → Like p s → Like (String c p) (String c s).

Definition atomOf (c : ascii) : atom :=
  if decide (c = "%"%char) then AnyStar else if decide (c = "_"%char) then Any else Chr c.
Definition atomsOf (p : string) : list atom := atomOf <$> String.list_ascii_of_string p.

Lemma likeBody_head p : starts (λ c, bool_decide (c = "*"%char)) (likeBody p +:+ "$") = false.
Proof.
  destruct p as [|c p]; [done|]. simpl. repeat (case_decide; [done|]).
  destruct (special c) eqn:Hc; [done|]. simpl. apply bool_decide_eq_false. by intros ->.
Qed.
Lemma regexAtoms_likeBody p : regexAtoms (likeBody p +:+ "$") = Some (atomsOf p).
Proof.
  induction p as [|c p IH]; [done|]. pose proof (likeBody_head p) as Hh. unfold atomsOf in *. simpl.
  change (atomOf <$> c :: ?l) with (atomOf c :: (atomOf <$> l)). unfold atomOf at 1.
  repeat (case_decide; [subst; simpl; rewrite ?IH; try done|]).
  - simpl in *. destruct (likeBody p +:+ "$") as [|d r]; [done|]. simpl in Hh. apply bool_decide_eq_false in Hh.
    by rewrite decide_False by done.
  - destruct (special c) eqn:Hs.
    + simpl. rewrite Hs, IH. done.
    + assert (Hn : ∀ d, special d = true → c ≠ d) by (by intros d Hd ->; rewrite Hd in Hs).
      simpl. rewrite !decide_False by (by apply Hn). by rewrite Hs, IH.
Qed.

Lemma atomsMatch_star l s :
  atomsMatch (AnyStar :: l) s =
  atomsMatch l s || match s with String c s' => not_terminator c && atomsMatch (AnyStar :: l) s' | "" => false end.
Proof. by destruct s. Qed.
Lemma Like_inv_any p s : Like (String "%" p) s →
  Like p s ∨ ∃ c s', s = String c s' ∧ not_terminator c = true ∧ Like (String "%" p) s'.
Proof. inversion 1; subst; [by left|right; by eauto|done]. Qed.
Lemma atomsMatch_Like p s : atomsMatch (atomsOf p) s = true ↔ Like p s.
Proof.
  revert s. induction p as [|c p IH]; intros s.
  { simpl. rewrite bool_decide_eq_true. split; [intros ->; constructor|by inversion 1]. }
  change (atomsOf (String c p)) with (atomOf c :: atomsOf p). unfold atomOf.
  case_decide; [subst|case_decide; [subst|]].
  - induction s as [|d s IHs]; rewrite atomsMatch_star.
    + rewrite orb_false_r, IH. split; [apply like_end|]. intros [Hl|(?&?&?&?)]%Like_inv_any; done.
    + rewrite orb_true_iff, andb_true_iff, IH, IHs. split.
      * intros [Hl|[Hd Hl]]; [by apply like_end|by apply like_more].
      * intros [Hl|(d' & s' & [= <- <-] & Hd & H)]%Like_inv_any; [by left|by right].
  - simpl. destruct s as [|d s]; [split; [done|by inversion 1]|]. rewrite andb_true_iff, IH. split.
    + intros [Hd Hl]. by apply like_one.
    + inversion 1; subst; done.
  - simpl. destruct s as [|d s]; [split; [done|by inversion 1]|]. rewrite andb_true_iff, IH, bool_decide_eq_true. split.
    + intros [-> Hl]. by apply like_char.
    + inversion 1; subst; done.
Qed.

(** C39. LIKE is the SQL pattern match: the regular expression made of a pattern is
    always a valid one, and it matches a text exactly when [%] and [_] can be filled,
    whatever other characters the pattern has, the ones a regular expression gives a
    meaning to included; within the text a wildcard covers, line terminators never
    match. *)
Theorem like_is_sql pattern s :
  ∃ b, regex_match s (likeToRegex pattern) = Some b ∧ (b = true ↔ Like pattern s).
Proof.
  exists (atomsMatch (atomsOf pattern) s). split; [|apply atomsMatch_Like].
  simpl. by rewrite regexAtoms_likeBody.
Qed.
