(* ===== verification/SelectorGrammar.v ===== *)
(** The grammar of message selectors (the comment at Selector.cpp:287-297) as
    relations between token lists and expressions, and the equivalence of the parser
    with it: soundness by the recursion of the parser, completeness by the derivation,
    with the fuel that the derivation needs. *)
From Stdlib Require Import SpecFloat Ascii.
Set Warnings "-register-all".
From S2P Require Import Prelude Property Message Broker Selector SelectorFacts.
From Stdlib Require Import Lia ZifyBool.

(** *** The grammar *)
Definition is_a (t : TokenType) (tok : Token) : Prop := tok_type tok = t.
(** An optional NOT. *)
Inductive optNot : list Token → bool → Prop :=
  | no_not : optNot [] false
  | one_not t : is_a NOT t → optNot [t] true.

(** or_expr := and_expr (OR and_expr)*, left-associative, and so on down. *)
Inductive orE : list Token → EvalFn → Prop :=
  | or_expr ts us l e : andE ts l → orTail l us e → orE (ts ++ us) e
with orTail : EvalFn → list Token → EvalFn → Prop :=
  | or_end l : orTail l [] l
  | or_more l t ts r us e : is_a OR t → andE ts r → orTail (OrFn l r) us e → orTail l (t :: ts ++ us) e
with andE : list Token → EvalFn → Prop :=
  | and_expr ts us l e : notE ts l → andTail l us e → andE (ts ++ us) e
with andTail : EvalFn → list Token → EvalFn → Prop :=
  | and_end l : andTail l [] l
  | and_more l t ts r us e : is_a AND t → notE ts r → andTail (AndFn l r) us e → andTail l (t :: ts ++ us) e
with notE : list Token → EvalFn → Prop :=
  | not_not t ts e : is_a NOT t → notE ts e → notE (t :: ts) (NotFn e)
  | not_comparison ts e : comparisonE ts e → notE ts e
with comparisonE : list Token → EvalFn → Prop :=
  | comparison_primary ts l : primaryE ts l → comparisonE ts l
  | comparison_null ts l t nots n negated :
      primaryE ts l → is_a IS t → optNot nots negated → is_a NULL_LIT n →
      comparisonE (ts ++ t :: nots ++ [n]) (IsNullFn l negated)
  | comparison_between ts l nots negated b lows lo a highs hi :
      primaryE ts l → optNot nots negated → is_a BETWEEN b → primaryE lows lo → is_a AND a → primaryE highs hi →
      comparisonE (ts ++ nots ++ b :: lows ++ a :: highs) (BetweenFn l lo hi negated)
  | comparison_in ts l nots negated i o firsts first mores items c :
      primaryE ts l → optNot nots negated → is_a IN i → is_a LPAREN o → primaryE firsts first →
      itemsE [first] mores items → is_a RPAREN c →
      comparisonE (ts ++ nots ++ i :: o :: firsts ++ mores ++ [c]) (InFn l items negated)
  | comparison_like ts l nots negated k p :
      primaryE ts l → optNot nots negated → is_a LIKE k → is_a STRING p →
      comparisonE (ts ++ nots ++ [k; p]) (LikeFn l (likeToRegex (tok_text p)) negated)
  | comparison_relation ts l op us r :
      primaryE ts l → is_relational (tok_type op) = true → primaryE us r →
      comparisonE (ts ++ op :: us) (RelFn l r (tok_type op))
with itemsE : list EvalFn → list Token → list EvalFn → Prop :=
  | items_end l : itemsE l [] l
  | items_more l t ts e us items :
      is_a COMMA t → primaryE ts e → itemsE (l ++ [e]) us items → itemsE l (t :: ts ++ us) items
with primaryE : list Token → EvalFn → Prop :=
  | primary_paren o ts e c : is_a LPAREN o → orE ts e → is_a RPAREN c → primaryE (o :: ts ++ [c]) e
  | primary_null t : is_a NULL_LIT t → primaryE [t] NullFn
  | primary_true t : is_a TRUE_LIT t → primaryE [t] (BoolFn true)
  | primary_false t : is_a FALSE_LIT t → primaryE [t] (BoolFn false)
  | primary_string t : is_a STRING t → primaryE [t] (StringFn (tok_text t))
  | primary_int t val : is_a INT_LIT t → stoll (tok_text t) tt = Ok val tt → primaryE [t] (IntFn val)
  | primary_float t val : is_a FLOAT_LIT t → stod (tok_text t) tt = Ok val tt → primaryE [t] (FloatFn val)
  | primary_property t : is_a IDENT t → primaryE [t] (PropertyFn (tok_text t)).

Scheme orE_mut := Induction for orE Sort Prop
with orTail_mut := Induction for orTail Sort Prop
with andE_mut := Induction for andE Sort Prop
with andTail_mut := Induction for andTail Sort Prop
with notE_mut := Induction for notE Sort Prop
with comparisonE_mut := Induction for comparisonE Sort Prop
with itemsE_mut := Induction for itemsE Sort Prop
with primaryE_mut := Induction for primaryE Sort Prop.
Combined Scheme grammar_ind from orE_mut, orTail_mut, andE_mut, andTail_mut, notE_mut, comparisonE_mut, itemsE_mut, primaryE_mut.

(** The tokens of a text, up to the end. *)
Inductive lexes : string → list Token → Prop :=
  | lexes_end s t s' : next s = Ok t s' → is_a EOF_TOKEN t → lexes s []
  | lexes_more s t s' ts : next s = Ok t s' → ¬ is_a EOF_TOKEN t → lexes s' ts → lexes s (t :: ts).

(** *** Runs of advance *)
Inductive reads : parser → list Token → parser → Prop :=
  | reads_nil p : reads p [] p
  | reads_cons p p1 ts p' :
      ¬ is_a EOF_TOKEN (current p) → advance p = Ok tt p1 → reads p1 ts p' → reads p (current p :: ts) p'.
Lemma reads_app p us p1 vs p' : reads p us p1 → reads p1 vs p' → reads p (us ++ vs) p'.
Proof. induction 1; [done|]. intros. simpl. econstructor; eauto. Qed.
Lemma reads_one p p' : ¬ is_a EOF_TOKEN (current p) → advance p = Ok tt p' → reads p [current p] p'.
Proof. intros. econstructor; [done|done|constructor]. Qed.

(** *** Soundness *)
(** If [r] returns, its result satisfies [Q]. *)
Definition pwp {S A} (r : res S A) (Q : A → S → Prop) : Prop := match r with Ok a s => Q a s | _ => True end.
Lemma pwp_mono {S A} (r : res S A) (Q Q' : A → S → Prop) : pwp r Q → (∀ a s, Q a s → Q' a s) → pwp r Q'.
Proof. destruct r; simpl; eauto. Qed.
Lemma pwp_bind {S A B} (m : M S A) (f : A → M S B) s Q :
  pwp (m s) (λ a s', pwp (f a s') Q) → pwp ((m ≫= f) s) Q.
Proof. unfold mbind, M_bind. by destruct (m s). Qed.
Lemma pwp_advance p (Q : unit → parser → Prop) :
  ¬ is_a EOF_TOKEN (current p) → (∀ p', reads p [current p] p' → Q tt p') → pwp (advance p) Q.
Proof.
  intros Hp HQ. destruct (advance p) as [[] p'|?|] eqn:E; [|done..]. by apply HQ, reads_one.
Qed.
Lemma pwp_accept t p (Q : bool → parser → Prop) :
  t ≠ EOF_TOKEN → Q false p → (∀ p', is_a t (current p) → reads p [current p] p' → Q true p') → pwp (accept t p) Q.
Proof.
  intros Ht H1 H2. unfold accept. apply pwp_bind. simpl. case_decide as Hc; [|done].
  apply pwp_bind, pwp_advance; [unfold is_a; congruence|]. intros p' Hp. by apply H2.
Qed.
Lemma pwp_consume t what p (Q : Token → parser → Prop) :
  t ≠ EOF_TOKEN → (∀ p', is_a t (current p) → reads p [current p] p' → Q (current p) p') → pwp (consume t what p) Q.
Proof.
  intros Ht H. unfold consume. apply pwp_bind. simpl. case_decide as Hc; [|done].
  apply pwp_bind, pwp_advance; [unfold is_a; congruence|]. intros p' Hp. by apply H.
Qed.
Lemma pwp_optNot p (Q : bool → parser → Prop) :
  (∀ nots negated p', optNot nots negated → reads p nots p' → Q negated p') → pwp (accept NOT p) Q.
Proof.
  intros H. apply pwp_accept; [done|apply (H []); constructor|]. intros p' Hp Hr. by apply (H [current p]); [constructor|].
Qed.

(** From [p] the parser reads tokens that [G] relates to its result. *)
Definition derives {A} (G : list Token → A → Prop) (p : parser) (a : A) (p' : parser) : Prop :=
  ∃ us, reads p us p' ∧ G us a.
Record sound (f : nat) : Prop := {
  so_or : ∀ p, pwp (parseOr f p) (derives orE p);
  so_orLoop : ∀ l p, pwp (orLoop f l p) (derives (orTail l) p);
  so_and : ∀ p, pwp (parseAnd f p) (derives andE p);
  so_andLoop : ∀ l p, pwp (andLoop f l p) (derives (andTail l) p);
  so_not : ∀ p, pwp (parseNot f p) (derives notE p);
  so_comparison : ∀ p, pwp (parseComparison f p) (derives comparisonE p);
  so_in : ∀ l p, pwp (inLoop f l p) (derives (itemsE l) p);
  so_primary : ∀ p, pwp (parsePrimary f p) (derives primaryE p)
}.
(** Run a call whose soundness is known, or a step. *)
Ltac sound_call H := apply pwp_bind; eapply pwp_mono; [apply H|intros ? ? (? & ? & ?)].
Ltac sound_step :=
  match goal with
  | |- pwp ((_ ≫= _) _) _ => apply pwp_bind
  | |- pwp (accept NOT _) _ => apply pwp_optNot; intros ? ? ? ? ?
  | |- pwp (accept _ _) _ => apply pwp_accept; [done| |intros ? ? ?]
  | |- pwp (consume _ _ _) _ => apply pwp_consume; [done|intros ? ? ?]
  | |- pwp (advance _) _ => apply pwp_advance; [unfold is_a; congruence|intros ? ?]
  | |- pwp (throw _ _) _ => exact I
  | |- pwp (mret _ _) _ => simpl
  | |- pwp (get _) _ => simpl
  | |- pwp (peek _) _ => simpl
  end.
(** The tokens read are those of the runs in the context, one after the other. *)
Ltac reads_chain :=
  repeat match goal with
  | |- reads ?p _ ?p => apply reads_nil
  | H : reads ?p ?us ?p1 |- reads ?p _ _ =>
      first [ eapply (reads_app _ _ _ _ _ H); clear H; match goal with |- reads ?q _ ?q => idtac | _ : reads p1 _ _ |- _ => idtac end
            | exact H ]
  end.
Ltac derive := eexists; split; [reads_chain|cbn [app]; rewrite ?app_nil_r].

Lemma sound_tail f l us p negated nots p' p0 :
  sound f → primaryE us l → reads p0 us p → optNot nots negated → reads p nots p' →
  pwp (comparisonTail (parsePrimary f) (inLoop f) l negated p') (derives comparisonE p0).
Proof.
  intros [_ _ _ _ _ _ H7 H8] Hl Hr Hn Hr'.
  unfold comparisonTail. sound_step. simpl. case_decide; [|case_decide; [|case_decide]].
  - do 2 sound_step. sound_call H8. do 2 sound_step. sound_call H8. simpl. derive.
    by eapply comparison_between.
  - do 4 sound_step. sound_call H8. sound_call H7. do 2 sound_step. simpl. derive.
    by eapply comparison_in.
  - do 4 sound_step. simpl. derive. by eapply comparison_like.
  - destruct negated; [done|]. inversion Hn; subst. inversion Hr'; subst.
    destruct (is_relational (tok_type (current p'))) eqn:Hop.
    + sound_step. apply pwp_advance; [unfold is_a; intros He; by rewrite He in Hop|]. intros p1 Hp1.
      sound_call H8. simpl. derive. by apply comparison_relation.
    + simpl. derive. by apply comparison_primary.
Qed.

Lemma sound_all f : sound f.
Proof.
  induction f as [|f IH]; [by split|]. pose proof IH as [H1 H2 H3 H4 H5 H6 H7 H8]. split; intros.
  - cbn [parseOr]. sound_call H3. eapply pwp_mono; [apply H2|]. intros e p' (us & Hr & He). derive. by econstructor.
  - cbn [orLoop]. do 2 sound_step; [simpl; derive; constructor|]. sound_call H3.
    eapply pwp_mono; [apply H2|]. intros e p1 (us & Hr & He). derive. by econstructor.
  - cbn [parseAnd]. sound_call H5. eapply pwp_mono; [apply H4|]. intros e p' (us & Hr & He). derive. by econstructor.
  - cbn [andLoop]. do 2 sound_step; [simpl; derive; constructor|]. sound_call H5.
    eapply pwp_mono; [apply H4|]. intros e p1 (us & Hr & He). derive. by econstructor.
  - cbn [parseNot]. sound_step. apply pwp_accept; [done| |intros p' Hp Hr].
    + eapply pwp_mono; [apply H6|]. intros e p' (us & Hr & He). derive. by apply not_comparison.
    + sound_call H5. simpl. derive. by apply not_not.
  - cbn [parseComparison]. sound_call H8. do 2 sound_step.
    + do 2 sound_step. by eapply sound_tail.
    + do 4 sound_step. simpl. derive. by eapply comparison_null.
  - cbn [inLoop]. do 2 sound_step; [simpl; derive; constructor|]. sound_call H8.
    eapply pwp_mono; [apply H7|]. intros e p1 (us & Hr & He). derive. by econstructor.
  - cbn [parsePrimary]. do 2 sound_step. destruct (tok_type (current p)) eqn:Ht; try exact I;
      try (by do 2 sound_step; simpl; derive; constructor).
    + sound_step. pose proof (primary_int (current p)) as Hi. unfold stoll in *. destruct (splitSign _) as [neg ds].
      cbv zeta in *. case_decide; [exact I|]. case_decide; [|exact I]. simpl. do 2 sound_step. simpl. derive. by apply Hi.
    + sound_step. pose proof (primary_float (current p)) as Hf. unfold stod in *.
      destruct (splitSign _) as [neg ds]. destruct (span is_digit ds) as [whole rest]. cbv zeta in *.
      case_decide; [exact I|].
      destruct (decimalToDouble _ _ _); try exact I; (destruct (underflows _ _ _); [exact I|]);
        simpl; do 2 sound_step; simpl; derive; by apply Hf.
    + do 2 sound_step. sound_call H1. do 2 sound_step. simpl. derive. by apply primary_paren.
Qed.

(** *** Completeness *)
Lemma reads_app_inv us vs p p' : reads p (us ++ vs) p' → ∃ p1, reads p us p1 ∧ reads p1 vs p'.
Proof.
  revert p. induction us as [|u us IH]; intros p H; simpl in H; [exists p; by split; [constructor|]|].
  inversion H; subst. destruct (IH p1 ltac:(done)) as (p2 & Hx & Hy). exists p2. by split; [econstructor|].
Qed.
Lemma reads_cons_inv t us p p' :
  reads p (t :: us) p' → t = current p ∧ ∃ p1, advance p = Ok tt p1 ∧ reads p1 us p' ∧ (psize p1 < psize p)%nat.
Proof.
  inversion 1 as [|? p1 ? ? Ht Ha Hr]; subst. split; [done|]. exists p1. split; [done|]. split; [done|].
  pose proof (advance_spec p) as Hs. rewrite Ha in Hs. simpl in Hs. by apply Hs.
Qed.
Lemma reads_size p us p' : reads p us p' → (psize p' <= psize p)%nat.
Proof.
  induction 1 as [|p p1 us p' Ht Ha _ IH]; [done|]. pose proof (advance_spec p) as Hs. rewrite Ha in Hs. simpl in Hs.
  destruct Hs as [_ Hs]. specialize (Hs Ht). lia.
Qed.

Lemma accept_yes t p p1 : is_a t (current p) → advance p = Ok tt p1 → accept t p = Ok true p1.
Proof. intros Ht Ha. unfold accept. rewrite (bind_ok peek _ p _ p eq_refl). rewrite decide_True by done. by rewrite (bind_ok _ _ _ _ _ Ha). Qed.
Lemma accept_no t p : ¬ is_a t (current p) → accept t p = Ok false p.
Proof. intros Ht. unfold accept. rewrite (bind_ok peek _ p _ p eq_refl). by rewrite decide_False by done. Qed.
Lemma consume_yes t what p p1 : is_a t (current p) → advance p = Ok tt p1 → consume t what p = Ok (current p) p1.
Proof.
  intros Ht Ha. unfold consume. rewrite (bind_ok get _ p _ p eq_refl). rewrite decide_True by done.
  by rewrite (bind_ok _ _ _ _ _ Ha).
Qed.

(** What may follow a comparison, a conjunction, a disjunction. *)
Definition follow_comparison (t : TokenType) : bool :=
  negb (bool_decide (t ∈ [IS; NOT; BETWEEN; IN; LIKE])) && negb (is_relational t).
Definition follow_and (t : TokenType) : bool := follow_comparison t && negb (bool_decide (t = AND)).
Definition follow_or (t : TokenType) : bool := follow_and t && negb (bool_decide (t = OR)).
Definition at_type (P : TokenType → bool) (p : parser) : Prop := P (tok_type (current p)) = true.

Lemma orTail_start l us e p p' : orTail l us e → reads p us p' → at_type follow_or p' → at_type follow_and p.
Proof.
  intros [|? t ts r us' e' Ht _ _] Hr Hf.
  - inversion Hr; subst. by apply andb_true_iff in Hf as [].
  - apply reads_cons_inv in Hr as [-> _]. unfold at_type. by rewrite Ht.
Qed.
Lemma andTail_start l us e p p' : andTail l us e → reads p us p' → at_type follow_and p' → at_type follow_comparison p.
Proof.
  intros [|? t ts r us' e' Ht _ _] Hr Hf.
  - inversion Hr; subst. by apply andb_true_iff in Hf as [].
  - apply reads_cons_inv in Hr as [-> _]. unfold at_type. by rewrite Ht.
Qed.
Lemma optNot_accept nots negated p p1 :
  optNot nots negated → reads p nots p1 → ¬ is_a NOT (current p1) → accept NOT p = Ok negated p1.
Proof.
  intros [|t Ht] Hr Hn; [inversion Hr; subst; by apply accept_no|].
  apply reads_cons_inv in Hr as (-> & p2 & Ha & Hr & _). inversion Hr; subst. by apply accept_yes.
Qed.
(** The head of what follows the left operand is not an IS. *)
Lemma optNot_not_is nots negated p p1 :
  optNot nots negated → reads p nots p1 → ¬ is_a IS (current p1) → ¬ is_a IS (current p).
Proof.
  intros [|t Ht] Hr Hn; [by inversion Hr; subst|]. apply reads_cons_inv in Hr as (-> & _).
  unfold is_a in *. by rewrite Ht.
Qed.

Ltac run H := rewrite (bind_ok _ _ _ _ _ H).
(** The next token read with its advance, and a run cut in two. *)
Tactic Notation "next_token" hyp(H) "as" ident(p1) ident(Ha) ident(Hr) :=
  let Hs := fresh "Hs" in apply reads_cons_inv in H as (-> & p1 & Ha & Hr & Hs).
Tactic Notation "split_reads" hyp(H) "as" ident(p1) ident(H1) ident(H2) :=
  apply reads_app_inv in H as (p1 & H1 & H2); pose proof (reads_size _ _ _ H1).

Lemma parseComparison_start f p l p1 nots negated p2 :
  parsePrimary f p = Ok l p1 → optNot nots negated → reads p1 nots p2 →
  ¬ is_a IS (current p2) → ¬ is_a NOT (current p2) →
  parseComparison (S f) p = comparisonTail (parsePrimary f) (inLoop f) l negated p2.
Proof.
  intros Hl Hn Hr His Hnot. cbn [parseComparison]. run Hl.
  run (accept_no IS p1 (optNot_not_is _ _ _ _ Hn Hr His)). cbn iota. by run (optNot_accept _ _ _ _ Hn Hr Hnot).
Qed.
Lemma follow_not t p : at_type follow_comparison p → t ∈ [IS; NOT; BETWEEN; IN; LIKE] → ¬ is_a t (current p).
Proof.
  intros Hf Ht Hp. unfold at_type, follow_comparison, is_a in *. rewrite Hp in Hf.
  by rewrite bool_decide_true in Hf.
Qed.
Lemma tail_type P M l negated p t : is_a t (current p) →
  comparisonTail P M l negated p =
  (if decide (t = BETWEEN) then
     _ ← advance; low ← P; _ ← consume AND "AND"; high ← P; mret (BetweenFn l low high negated)
   else if decide (t = IN) then
     _ ← advance; _ ← consume LPAREN "("; first ← P; items ← M [first]; _ ← consume RPAREN ")";
     mret (InFn l items negated)
   else if decide (t = LIKE) then
     _ ← advance; patTok ← consume STRING "pattern string";
     mret (LikeFn l (likeToRegex (tok_text patTok)) negated)
   else if negated then throw (InvalidSelectorException "NOT must be followed by BETWEEN, IN, or LIKE")
   else if is_relational t then _ ← advance; right ← P; mret (RelFn l right t)
   else mret l) p.
Proof. intros <-. done. Qed.
(** A token whose type is known is not of another type. *)
Ltac other_type := match goal with H : is_a _ _ |- _ => unfold is_a in *; rewrite H; done end.

Lemma complete_comparison_tail f p p1 l nots negated t tl p' :
  parsePrimary f p = Ok l p1 → reads p1 (nots ++ t :: tl) p' → optNot nots negated →
  ¬ is_a IS t → ¬ is_a NOT t →
  ∃ p2 p3, parseComparison (S f) p = comparisonTail (parsePrimary f) (inLoop f) l negated p2 ∧
    t = current p2 ∧ advance p2 = Ok tt p3 ∧ reads p3 tl p' ∧ (psize p3 < psize p1)%nat.
Proof.
  intros Hl Hr Hn His Hnot. apply reads_app_inv in Hr as (p2 & Hr1 & Hr2). pose proof (reads_size _ _ _ Hr1).
  next_token Hr2 as p0 Ha Hr. exists p2, p0. split_and!; [by eapply parseComparison_start|done..|lia].
Qed.

Lemma primary_start ts e p p' : primaryE ts e → reads p ts p' → ¬ is_a NOT (current p).
Proof.
  intros He Hr Hn. unfold is_a in Hn.
  destruct He; apply reads_cons_inv in Hr as [-> _]; unfold is_a in *; congruence.
Qed.
Lemma comparison_start ts e p p' : comparisonE ts e → reads p ts p' → ¬ is_a NOT (current p).
Proof. intros [] Hr; try apply reads_app_inv in Hr as (? & Hr & _); (eapply primary_start; [|exact Hr]; eassumption). Qed.

(** The numbers of literals do not depend on the parser's state. *)
Lemma stoll_any {S} text val (u : unit) (s : S) : stoll text u = Ok val u → stoll text s = Ok val s.
Proof. unfold stoll. destruct (splitSign _). cbv zeta. case_decide; [done|]. case_decide; [|done]. by intros [= ->]. Qed.
Lemma stod_any {S} text val (u : unit) (s : S) : stod text u = Ok val u → stod text s = Ok val s.
Proof.
  unfold stod. destruct (splitSign _) as [neg ds]. destruct (span is_digit ds) as [whole rest]. cbv zeta.
  case_decide; [done|]. destruct (decimalToDouble _ _ _); try done; (destruct (underflows _ _ _); [done|]); by intros [= <-].
Qed.

(** A literal: its token is read and nothing else. *)
Lemma parseLiteral f p p' t e T :
  is_a T t → reads p [t] p' → (is_a T (current p) → t = current p → parsePrimary (S f) p = (_ ← advance; mret e) p) →
  parsePrimary (S f) p = Ok e p'.
Proof.
  intros Ht Hr He. apply reads_cons_inv in Hr as (-> & p1 & Ha & Hr & _). inversion Hr; subst.
  rewrite (He Ht eq_refl). by run Ha.
Qed.
(** [P] parses the tokens [ts] as [e] and stops where [stop] holds, with fuel [k]
    on top of the input's. *)
Definition parses {A} (P : nat → M parser A) (stop : parser → Prop) (k : nat) (ts : list Token) (e : A) : Prop :=
  ∀ f p p', reads p ts p' → stop p' → (8 * psize p + k <= f)%nat → P f p = Ok e p'.
Notation or_reads := (parses parseOr (at_type follow_or) 6).
Notation or_rest_reads l := (parses (λ f, orLoop f l) (at_type follow_or) 1).
Notation and_reads := (parses parseAnd (at_type follow_and) 5).
Notation and_rest_reads l := (parses (λ f, andLoop f l) (at_type follow_and) 1).
Notation not_reads := (parses parseNot (at_type follow_comparison) 3).
Notation comparison_reads := (parses parseComparison (at_type follow_comparison) 2).
Notation items_read l := (parses (λ f, inLoop f l) (λ p, ¬ is_a COMMA (current p)) 1).
Notation primary_reads := (parses parsePrimary (λ _, True) 1).

Ltac literal_case :=
  intros Ht [|f] p p' Hr _ Hfuel; [lia|]; apply (parseLiteral _ _ _ _ _ _ Ht Hr); intros Hp ->;
  cbn [parsePrimary]; rewrite (bind_ok get _ p _ p eq_refl); cbn zeta; by rewrite Hp.

(** A lemma per production: if the parts are parsed, so is the whole. *)
Lemma parses_or_expr ts us l e :
  and_reads ts l → orTail l us e → or_rest_reads l us e → or_reads (ts ++ us) e.
Proof.
  intros IHl Ht IHt [|f] p p' Hr Hf Hfuel; [lia|]. split_reads Hr as p1 H1 H2. cbn [parseOr].
  rewrite (bind_ok _ _ _ l p1); [apply IHt; [done|done|lia]|]. apply IHl; [done|by eapply orTail_start|lia].
Qed.
Lemma parses_or_end l :
  or_rest_reads l [] l.
Proof.
  intros [|f] p p' Hr Hf Hfuel; [lia|]. inversion Hr; subst. cbn [orLoop].
  rewrite (bind_ok _ _ _ false p'); [done|]. apply accept_no. intros He. unfold at_type, follow_or in Hf. rewrite He in Hf.
  by rewrite andb_false_r in Hf.
Qed.
Lemma parses_or_more l t ts r us e :
  is_a OR t → and_reads ts r → orTail (OrFn l r) us e → or_rest_reads (OrFn l r) us e → or_rest_reads l (t :: ts ++ us) e.
Proof.
  intros Ho IHl Ht IHt [|f] p p' Hr Hf Hfuel; [lia|]. next_token Hr as p1 Ha Hr1.
  split_reads Hr1 as p2 H1 H2. cbn [orLoop]. run (accept_yes OR p p1 Ho Ha). cbn iota.
  rewrite (bind_ok _ _ _ r p2); [apply IHt; [done|done|lia]|]. apply IHl; [done|by eapply orTail_start|lia].
Qed.
Lemma parses_and_expr ts us l e :
  not_reads ts l → andTail l us e → and_rest_reads l us e → and_reads (ts ++ us) e.
Proof.
  intros IHl Ht IHt [|f] p p' Hr Hf Hfuel; [lia|]. split_reads Hr as p1 H1 H2. cbn [parseAnd].
  rewrite (bind_ok _ _ _ l p1); [apply IHt; [done|done|lia]|]. apply IHl; [done|by eapply andTail_start|lia].
Qed.
Lemma parses_and_end l :
  and_rest_reads l [] l.
Proof.
  intros [|f] p p' Hr Hf Hfuel; [lia|]. inversion Hr; subst. cbn [andLoop].
  rewrite (bind_ok _ _ _ false p'); [done|]. apply accept_no. intros He. unfold at_type, follow_and in Hf. rewrite He in Hf.
  by rewrite andb_false_r in Hf.
Qed.
Lemma parses_and_more l t ts r us e :
  is_a AND t → not_reads ts r → andTail (AndFn l r) us e → and_rest_reads (AndFn l r) us e → and_rest_reads l (t :: ts ++ us) e.
Proof.
  intros Ho IHl Ht IHt [|f] p p' Hr Hf Hfuel; [lia|]. next_token Hr as p1 Ha Hr1.
  split_reads Hr1 as p2 H1 H2. cbn [andLoop]. run (accept_yes AND p p1 Ho Ha). cbn iota.
  rewrite (bind_ok _ _ _ r p2); [apply IHt; [done|done|lia]|]. apply IHl; [done|by eapply andTail_start|lia].
Qed.
Lemma parses_not_not t ts e :
  is_a NOT t → not_reads ts e → not_reads (t :: ts) (NotFn e).
Proof.
  intros Ht IH [|f] p p' Hr Hf Hfuel; [lia|]. next_token Hr as p1 Ha Hr1. cbn [parseNot].
  run (accept_yes NOT p p1 Ht Ha). cbn iota. by rewrite (bind_ok _ _ _ e p') by (apply IH; [done|done|lia]).
Qed.
Lemma parses_not_comparison ts e :
  comparisonE ts e → comparison_reads ts e → not_reads ts e.
Proof.
  intros He IH [|f] p p' Hr Hf Hfuel; [lia|]. cbn [parseNot].
  rewrite (bind_ok _ _ _ false p); [apply IH; [done|done|lia]|]. apply accept_no. eapply comparison_start; eassumption.
Qed.
Lemma parses_primary ts l :
  primary_reads ts l → comparison_reads ts l.
Proof.
  intros IHl [|f] p p' Hr Hf Hfuel; [lia|].
  rewrite (parseComparison_start f p l p' [] false p');
    [|apply IHl; [done|done|lia]|apply no_not|apply reads_nil|apply follow_not; [done|set_solver]..].
  unfold comparisonTail. run (eq_refl : peek p' = Ok (tok_type (current p')) p').
  pose proof (follow_not BETWEEN p' Hf ltac:(set_solver)). pose proof (follow_not IN p' Hf ltac:(set_solver)).
  pose proof (follow_not LIKE p' Hf ltac:(set_solver)). rewrite !decide_False by done. cbn iota.
  apply andb_true_iff in Hf as [_ Hf%negb_true_iff]. by rewrite Hf.
Qed.
Lemma parses_null ts l t nots n negated :
  primary_reads ts l → is_a IS t → optNot nots negated → is_a NULL_LIT n →
  comparison_reads (ts ++ t :: nots ++ [n]) (IsNullFn l negated).
Proof.
  intros IHl Ht Hn Hnull [|f] p p' Hr Hf Hfuel; [lia|]. split_reads Hr as p1 H1 H2.
  next_token H2 as p2 Ha H3. split_reads H3 as p3 H4 H5. next_token H5 as p4 Hb H6. cbn [parseComparison].
  rewrite (bind_ok _ _ _ l p1) by (apply IHl; [done|done|lia]). run (accept_yes IS p1 p2 Ht Ha). cbn iota.
  rewrite (bind_ok _ _ _ negated p3);
    [|eapply optNot_accept; [done|done|unfold is_a in *; rewrite Hnull; done]].
  run (consume_yes NULL_LIT "NULL" p3 p4 Hnull Hb). by inversion H6; subst.
Qed.
Lemma parses_between ts l nots negated b lows lo a highs hi :
  primary_reads ts l → optNot nots negated → is_a BETWEEN b → primary_reads lows lo → is_a AND a → primary_reads highs hi →
  comparison_reads (ts ++ nots ++ b :: lows ++ a :: highs) (BetweenFn l lo hi negated).
Proof.
  intros IHl Hn Hb IHlo Hand IHhi [|f] p p' Hr Hf Hfuel; [lia|].
  split_reads Hr as p1 H1 H2.
  destruct (complete_comparison_tail f p p1 l nots negated b (lows ++ a :: highs) p')
    as (p2 & p3 & -> & -> & Ha & H3 & Hs); [by apply IHl; [|done|lia]|done|done|other_type|other_type|].
  rewrite (tail_type _ _ _ _ p2 BETWEEN Hb). rewrite decide_True by done. run Ha.
  split_reads H3 as p4 H4 H5. next_token H5 as p5 Hc H6.
  rewrite (bind_ok _ _ _ lo p4) by (apply IHlo; [done|done|lia]). run (consume_yes AND "AND" p4 p5 Hand Hc).
  by rewrite (bind_ok _ _ _ hi p') by (apply IHhi; [done|done|lia]).
Qed.
Lemma parses_in ts l nots negated i o firsts first mores items c :
  primary_reads ts l → optNot nots negated → is_a IN i → is_a LPAREN o → primary_reads firsts first →
  items_read [first] mores items → is_a RPAREN c →
  comparison_reads (ts ++ nots ++ i :: o :: firsts ++ mores ++ [c]) (InFn l items negated).
Proof.
  intros IHl Hn Hi Ho IHfirst IHit Hc [|f] p p' Hr Hf Hfuel;
    [lia|].
  split_reads Hr as p1 H1 H2.
  destruct (complete_comparison_tail f p p1 l nots negated i (o :: firsts ++ mores ++ [c]) p')
    as (p2 & p3 & -> & -> & Ha & H3 & Hs); [by apply IHl; [|done|lia]|done|done|other_type|other_type|].
  rewrite (tail_type _ _ _ _ p2 IN Hi). rewrite decide_False, decide_True by done. run Ha.
  next_token H3 as p4 Hb H4. run (consume_yes LPAREN "(" p3 p4 Ho Hb). split_reads H4 as p5 H5 H6.
  split_reads H6 as p6 H7 H8. next_token H8 as p7 Hd H9.
  rewrite (bind_ok _ _ _ first p5) by (apply IHfirst; [done|done|lia]).
  rewrite (bind_ok _ _ _ items p6) by (apply IHit; [done|unfold is_a in *; by rewrite Hc|lia]).
  run (consume_yes RPAREN ")" p6 p7 Hc Hd). by inversion H9; subst.
Qed.
Lemma parses_like ts l nots negated k q :
  primary_reads ts l → optNot nots negated → is_a LIKE k → is_a STRING q →
  comparison_reads (ts ++ nots ++ [k; q]) (LikeFn l (likeToRegex (tok_text q)) negated).
Proof.
  intros IHl Hn Hk Hq [|f] p p' Hr Hf Hfuel; [lia|]. split_reads Hr as p1 H1 H2.
  destruct (complete_comparison_tail f p p1 l nots negated k [q] p')
    as (p2 & p3 & -> & -> & Ha & H3 & Hs); [by apply IHl; [|done|lia]|done|done|unfold is_a in *; by rewrite Hk..|].
  rewrite (tail_type _ _ _ _ p2 LIKE Hk). rewrite !decide_False, decide_True by done. run Ha.
  next_token H3 as p4 Hb H4. run (consume_yes STRING "pattern string" p3 p4 Hq Hb). by inversion H4; subst.
Qed.
Lemma parses_relation ts l op us r :
  primary_reads ts l → is_relational (tok_type op) = true → primary_reads us r → comparison_reads (ts ++ op :: us) (RelFn l r (tok_type op)).
Proof.
  intros IHl Hop IHr [|f] p p' Hr Hf Hfuel; [lia|]. split_reads Hr as p1 H1 H2.
  assert (Hne : ∀ t, is_relational t = false → ¬ is_a t op) by (intros t Ht He; unfold is_a in He; congruence).
  destruct (complete_comparison_tail f p p1 l [] false op us p')
    as (p2 & p3 & -> & -> & Ha & H3 & Hs); [by apply IHl; [|done|lia]|done|constructor|by apply Hne|by apply Hne|].
  rewrite (tail_type _ _ _ _ p2 (tok_type (current p2)) eq_refl).
  rewrite !decide_False by (intros He; by rewrite He in Hop). rewrite Hop. cbn iota. run Ha.
  by rewrite (bind_ok _ _ _ r p') by (apply IHr; [done|done|lia]).
Qed.
Lemma parses_items_end l :
  items_read l [] l.
Proof.
  intros [|f] p p' Hr Hf Hfuel; [lia|]. inversion Hr; subst. cbn [inLoop].
  by rewrite (bind_ok _ _ _ false p') by (by apply accept_no).
Qed.
Lemma parses_items_more l t ts e us items :
  is_a COMMA t → primary_reads ts e → items_read (l ++ [e]) us items → items_read l (t :: ts ++ us) items.
Proof.
  intros Hc IHe IHi [|f] p p' Hr Hf Hfuel; [lia|]. next_token Hr as p1 Ha H1.
  split_reads H1 as p2 H2 H3. cbn [inLoop]. run (accept_yes COMMA p p1 Hc Ha). cbn iota.
  rewrite (bind_ok _ _ _ e p2) by (apply IHe; [done|done|lia]). apply IHi; [done|done|lia].
Qed.
Lemma parses_paren o ts e c :
  is_a LPAREN o → or_reads ts e → is_a RPAREN c → primary_reads (o :: ts ++ [c]) e.
Proof.
  intros Ho IHe Hc [|f] p p' Hr _ Hfuel; [lia|]. next_token Hr as p1 Ha H1. split_reads H1 as p2 H2 H3.
  next_token H3 as p3 Hb H4. cbn [parsePrimary]. run (eq_refl : get p = Ok p p). cbn zeta. rewrite Ho. run Ha.
  rewrite (bind_ok _ _ _ e p2) by (apply IHe; [done|by unfold at_type; rewrite Hc|lia]).
  run (consume_yes RPAREN ")" p2 p3 Hc Hb). by inversion H4; subst.
Qed.
Lemma parses_null_literal t :
  is_a NULL_LIT t → primary_reads [t] NullFn.
Proof.
  literal_case.
Qed.
Lemma parses_true t :
  is_a TRUE_LIT t → primary_reads [t] (BoolFn true).
Proof.
  literal_case.
Qed.
Lemma parses_false t :
  is_a FALSE_LIT t → primary_reads [t] (BoolFn false).
Proof.
  literal_case.
Qed.
Lemma parses_string t :
  is_a STRING t → primary_reads [t] (StringFn (tok_text t)).
Proof.
  literal_case.
Qed.
Lemma parses_int t val :
  is_a INT_LIT t → stoll (tok_text t) tt = Ok val tt → primary_reads [t] (IntFn val).
Proof.
  intros Ht Hv [|f] p p' Hr _ Hfuel; [lia|]. next_token Hr as p1 Ha H1. inversion H1; subst.
  cbn [parsePrimary]. run (eq_refl : get p = Ok p p). cbn zeta. rewrite Ht. run (stoll_any _ _ _ p Hv). by run Ha.
Qed.
Lemma parses_float t val :
  is_a FLOAT_LIT t → stod (tok_text t) tt = Ok val tt → primary_reads [t] (FloatFn val).
Proof.
  intros Ht Hv [|f] p p' Hr _ Hfuel; [lia|]. next_token Hr as p1 Ha H1. inversion H1; subst.
  cbn [parsePrimary]. run (eq_refl : get p = Ok p p). cbn zeta. rewrite Ht. run (stod_any _ _ _ p Hv). by run Ha.
Qed.
Lemma parses_property t :
  is_a IDENT t → primary_reads [t] (PropertyFn (tok_text t)).
Proof.
  literal_case.
Qed.

Lemma complete :
  (∀ ts e, orE ts e → or_reads ts e) ∧
  (∀ l ts e, orTail l ts e → or_rest_reads l ts e) ∧
  (∀ ts e, andE ts e → and_reads ts e) ∧
  (∀ l ts e, andTail l ts e → and_rest_reads l ts e) ∧
  (∀ ts e, notE ts e → not_reads ts e) ∧
  (∀ ts e, comparisonE ts e → comparison_reads ts e) ∧
  (∀ l ts items, itemsE l ts items → items_read l ts items) ∧
  (∀ ts e, primaryE ts e → primary_reads ts e).
Proof.
  apply grammar_ind; intros; eauto using parses_or_expr, parses_or_end, parses_or_more, parses_and_expr, parses_and_end, parses_and_more, parses_not_not, parses_not_comparison, parses_primary, parses_null, parses_between, parses_in, parses_like, parses_relation, parses_items_end, parses_items_more, parses_paren, parses_null_literal, parses_true, parses_false, parses_string, parses_int, parses_float, parses_property.
Qed.

(** *** The parser and the grammar agree *)
Lemma lexes_reads s us t0 :
  lexes s us ↔ ∃ p p', advance (mkParser t0 s) = Ok tt p ∧ reads p us p' ∧ is_a EOF_TOKEN (current p').
Proof.
  split.
  - intros H. revert t0. induction H as [s t s' Hn Ht|s t s' ts Hn Ht _ IH]; intros t0; unfold advance; cbn [input];
      rewrite Hn; exists (mkParser t s').
    + exists (mkParser t s'). by split_and!; [|constructor|].
    + destruct (IH t) as (p1 & p' & Ha & Hr & He). exists p'. split_and!; [done| |done].
      by apply (reads_cons (mkParser t s') p1).
  - intros (p & p' & Ha & Hr & He). revert s t0 Ha.
    induction Hr as [p|p p1 ts p' Hp Hp1 _ IH]; intros s t0 Ha; unfold advance in Ha; cbn [input] in Ha;
      destruct (next s) as [t s'|?|] eqn:Hn; try done; injection Ha as <-.
    + by eapply lexes_end.
    + eapply lexes_more; [exact Hn|done|]. by apply (IH He s' t).
Qed.

(** C37. The parser is the grammar: on every text that is not empty, parsing succeeds
    exactly when the text splits into tokens that the grammar derives an expression
    from, and gives that expression: precedence and left associativity of OR, AND and
    NOT, every comparison form with its optional NOT, parentheses and literals, and
    nothing else is accepted. *)
Theorem parse_is_grammar s e :
  s ≠ "" → (∃ p, parse s = Ok e p) ↔ ∃ ts, lexes s ts ∧ orE ts e.
Proof.
  intros Hs. unfold parse. rewrite decide_False by done. set (t0 := mkToken EOF_TOKEN "").
  assert (Hend : ∀ f p p', at_type follow_or p' → is_a EOF_TOKEN (current p') → parseOr f p = Ok e p' →
    parseExpression f p = Ok e p').
  { intros f p p' _ He H. unfold parseExpression. run H. run (eq_refl : get p' = Ok p' p').
    by rewrite decide_True by done. }
  split.
  - intros [p Hp]. destruct (advance (mkParser t0 s)) as [[] p0|?|] eqn:Ha; unfold mbind, M_bind in Hp; rewrite Ha in Hp;
      [|done..].
    unfold parseExpression in Hp. pose proof (so_or _ (sound_all (parseFuel s)) p0) as Hso.
    unfold mbind, M_bind in Hp. destruct (parseOr _ p0) as [e' p'|?|]; [|done..]. destruct Hso as (us & Hr & He).
    cbn [get] in Hp. case_decide as Hf; [|done]. injection Hp as -> _. exists us. split; [|done].
    apply (lexes_reads s us t0). eauto.
  - intros (ts & Hl & He). apply (lexes_reads s ts t0) in Hl as (p0 & p' & Ha & Hr & Hf). exists p'. run Ha.
    assert (Hfollow : at_type follow_or p') by (unfold at_type; by rewrite Hf).
    apply Hend; [done|done|]. apply (proj1 complete ts); [done|done|done|].
    pose proof (advance_spec (mkParser t0 s)) as Hsz. rewrite Ha in Hsz. simpl in Hsz. unfold parseFuel. lia.
Qed.

Lemma parse_is_grammar_witness : "a = 1" ≠ "" ∧ ∃ p, parse "a = 1" = Ok (RelFn (PropertyFn "a") (IntFn 1) EQ) p.
Proof.
  split; [done|]. apply (parse_is_grammar "a = 1"); [done|].
  exists [mkToken IDENT "a"; mkToken EQ "="; mkToken INT_LIT "1"]. split.
  - eapply lexes_more; [by vm_compute|done|]. eapply lexes_more; [by vm_compute|done|].
    eapply lexes_more; [by vm_compute|done|]. eapply lexes_end; [by vm_compute|done].
  - eapply (or_expr [mkToken IDENT "a"; mkToken EQ "="; mkToken INT_LIT "1"] []); [|constructor].
    eapply (and_expr [mkToken IDENT "a"; mkToken EQ "="; mkToken INT_LIT "1"] []); [|constructor].
    apply not_comparison. apply (comparison_relation [mkToken IDENT "a"] (PropertyFn "a") (mkToken EQ "=") [mkToken INT_LIT "1"]);
      [by apply (primary_property (mkToken IDENT "a"))|done|by apply primary_int].
Defined.

(** *** Evaluation *)
(** False below unknown below true: what is not a boolean counts as unknown. *)
Definition level (v : SelectorValue) : Z := match v with VBool true => 2 | VBool false => 0 | _ => 1 end.

(** The connectives are Kleene's: with false < unknown < true, OR is the maximum,
    AND the minimum and NOT the reversal of its operands, whatever is evaluated lazily,
    and a selector matches only what is true: neither an expression nor its negation
    matches a message on which it is unknown. *)
Theorem connectives_are_kleene l r m :
  level (eval (OrFn l r) m) = Z.max (level (eval l m)) (level (eval r m)) ∧
  level (eval (AndFn l r) m) = Z.min (level (eval l m)) (level (eval r m)) ∧
  level (eval (NotFn l) m) = 2 - level (eval l m) ∧
  matches l m = (level (eval l m) =? 2).
Proof.
  unfold matches. cbn [eval]. by destruct (eval l m) as [|[]|?|?|?], (eval r m) as [|[]|?|?|?].
Qed.

(** BETWEEN and IN are abbreviations: BETWEEN is the conjunction of its two
    comparisons and IN of a value that is not null the disjunction of its equalities,
    and a NOT before them is the negation, for every message and operands. *)
Theorem between_in_unfold l lo hi x xs negated m :
  let neg e := if negated : bool then NotFn e else e in
  eval (BetweenFn l lo hi negated) m = eval (neg (AndFn (RelFn l lo GTE) (RelFn l hi LTE))) m ∧
  (eval l m ≠ VNull →
   eval (InFn l (x :: xs) negated) m = eval (neg (foldl (λ e y, OrFn e (RelFn l y EQ)) (RelFn l x EQ) xs)) m).
Proof.
  cbv zeta. split.
  - cbn [eval relation]. destruct negated; cbn [eval relation flip];
      destruct (selGTE _ _), (selLTE _ _); done.
  - intros Hl. set (lv := eval l m).
    assert (Hfold : ∀ e b, eval e m = VBool b →
      eval (foldl (λ e y, OrFn e (RelFn l y EQ)) e xs) m = VBool (b || existsb (λ item, selEQ lv (eval item m)) xs)).
    { induction xs as [|y ys IH]; intros e b He; simpl; [by rewrite orb_false_r|].
      rewrite (IH _ (b || selEQ lv (eval y m))); [by rewrite orb_assoc|]. cbn [eval relation]. rewrite He. fold lv.
      by destruct b, (selEQ _ _). }
    assert (Hin : eval (InFn l (x :: xs) negated) m =
      VBool (flip negated (selEQ lv (eval x m) || existsb (λ item, selEQ lv (eval item m)) xs))).
    { cbn [eval existsb]. fold lv. unfold lv in *. by destruct (eval l m). }
    rewrite Hin. destruct negated; cbn [eval]; by rewrite (Hfold (RelFn l x EQ) (selEQ lv (eval x m)) eq_refl).
Qed.

(** A property that a message lacks does not make a comparison unknown: unlike
    SQL's, the relational operators and BETWEEN answer false for null, so that their
    negations match a message without the property. *)
Theorem null_comparisons_are_false m name e lo hi :
  properties m !! name = None →
  matches (NotFn (RelFn (PropertyFn name) e EQ)) m = true ∧
  matches (RelFn (PropertyFn name) e NEQ) m = true ∧
  matches (BetweenFn (PropertyFn name) lo hi true) m = true.
Proof.
  intros H. unfold matches. cbn [eval relation]. assert (extractProperty m name = VNull) as ->.
  { unfold extractProperty. by rewrite H. }
  split_and!; [done|done|]. unfold selGTE, selGT, selLT. cbn. by destruct (eval lo m).
Qed.

(** *** Witnesses *)
Definition noProperties : Message := newMessage (TextBody "").
Lemma between_in_unfold_witness :
  eval (InFn (IntFn 2) [IntFn 1; IntFn 2] false) noProperties
  = eval (OrFn (RelFn (IntFn 2) (IntFn 1) EQ) (RelFn (IntFn 2) (IntFn 2) EQ)) noProperties.
Proof. exact (proj2 (between_in_unfold (IntFn 2) NullFn NullFn (IntFn 1) [IntFn 2] false noProperties) ltac:(discriminate)). Defined.
Lemma null_comparisons_are_false_witness :
  matches (RelFn (PropertyFn "colour") (StringFn "red") NEQ) noProperties = true.
Proof. exact (proj1 (proj2 (null_comparisons_are_false noProperties "colour" (StringFn "red") NullFn NullFn eq_refl))). Defined.
