(* ===== verification/ConsumerFacts.v ===== *)
(** What the operations of Consumer.v do: the backoff, redelivery with its limit,
    recovery in order, and delivery of the first message that has not expired. *)
From S2P Require Import Prelude Double Property Message JsonInstance MessageFacts StorageRecord PriorityQueue World DeliveryScheduler LinearStorage StorageWorker TransactionBuffer InFlight Broker Consumer.
From Stdlib Require Import Lia ZifyBool.

(** *** The backoff *)
(** C36. The backoff is exactly exponential with a ceiling, although it is computed in
    binary64 arithmetic with its rounding, overflow to infinity and truncation: for a
    positive backoffMs and a non-negative maxBackoffMs below 2^53 ms (285,000 years)
    and any delivery count from 1 up, however large the power, the conversion back to
    an integer is defined and the delay before the n-th redelivery is the smaller of
    backoffMs * 2^(n-1) and maxBackoffMs. *)
Theorem backoff_is_min backoff maxBackoff n :
  0 < backoff < 2 ^ 53 → 0 <= maxBackoff < 2 ^ 53 → 1 <= n →
  backoffDelay backoff maxBackoff n = Some (Z.min (backoff * 2 ^ (n - 1)) maxBackoff).
Proof.
  intros Hb Hm Hn. unfold backoffDelay. rewrite scale_lt by lia.
  destruct (_ <? _) eqn:Hlt; [rewrite scale_trunc by lia|]; f_equal; lia.
Qed.

(** *** Removing a record always returns *)
Lemma defined_with_tom {A} id (op : M Tom A) : defined op → defined (with_tom id op : M Storage A).
Proof. intros H s. unfold with_tom. destruct (toms s !! id) as [t|]; [|done]. specialize (H t). by destruct (op t). Qed.
Lemma defined_catch {S A} (m : M S A) h : defined m → (∀ e, defined (h e)) → defined (catch m h).
Proof. intros Hm Hh s. unfold catch. specialize (Hm s). destruct (m s); [done|apply Hh|done]. Qed.
Lemma tom_record_defined off : defined (tom_record off).
Proof.
  intros t. unfold tom_record, fread, mbind, M_bind, get. by repeat case_match; simplify_eq.
Qed.
Lemma tom_remove_defined r : defined (tom_remove r).
Proof.
  intros t. unfold tom_remove, fwrite, mbind, M_bind. by repeat case_match; simplify_eq.
Qed.
Lemma storage_remove_defined r : defined (storage_remove r : M Storage _).
Proof.
  intros s. unfold storage_remove. unfold mbind at 1, M_bind at 1. cbn [get]. destruct (toms s !! rec_tomId r); [|done].
  apply (defined_bind (S := Storage)).
  - case_decide; [|done]. apply defined_catch; [|done]. apply defined_bind; [|done].
    by apply defined_with_tom, tom_record_defined.
  - intros u. apply defined_bind; [by apply defined_with_tom, tom_remove_defined|]. intros [ok r'].
    apply defined_bind; [|done]. by destruct (_ && _).
Qed.
Lemma removeAsync_ok order r (s : Storage) : ∃ s', cls_removeAsync order r s = Ok tt s'.
Proof.
  unfold cls_removeAsync. destruct (_ =? _); [by exists s|].
  assert (Hd : defined (perform order (REMOVE r))).
  { unfold perform. apply defined_bind; [apply storage_remove_defined|]. by intros []. }
  unfold dispatch, catch, mbind, M_bind. specialize (Hd s).
  destruct (perform order (REMOVE r) s); [eauto|eauto|done].
Qed.
Lemma record_uuid_ok order u (s : Storage) : ∃ r, cls_record_uuid order u s = Ok r s.
Proof.
  unfold cls_record_uuid, dispatch, catch, perform, storage_record_uuid, gets, mbind, M_bind. eauto.
Qed.

(** *** Steps *)
Section Facts.
Context {E : Environment}.

Lemma zoom_ok {S A} (rd : broker → option S) wr (op : M S A) b s a s' :
  rd b = Some s → op s = Ok a s' → zoom rd wr op b = Ok a (wr s' b).
Proof. intros H1 H2. unfold zoom. by rewrite H1, H2. Qed.
Lemma bWorld_ok {A} (op : M world A) b a w :
  op (br_world b) = Ok a w → bWorld op b = Ok a (set_br_world w b).
Proof. intros H. by apply (zoom_ok (λ b, Some (br_world b)) _ op b (br_world b)). Qed.
Lemma bWorld_get {A} (op : M world A) b a : op (br_world b) = Ok a (br_world b) → bWorld op b = Ok a b.
Proof. intros H. rewrite (bWorld_ok _ _ _ _ H). by destruct b. Qed.
Lemma bConsumer_get c b x : br_consumers b !! c = Some x → bConsumer c get b = Ok x b.
Proof.
  intros H. unfold bConsumer. rewrite (zoom_ok _ _ get b x x x H eq_refl). unfold set_br_consumers.
  rewrite insert_id by done. by destruct b.
Qed.
Lemma bDest_get d b x : br_destinations b !! d = Some x → bDest d get b = Ok x b.
Proof.
  intros H. unfold bDest. rewrite (zoom_ok _ _ get b x x x H eq_refl). unfold set_br_destinations.
  rewrite insert_id by done. by destruct b.
Qed.
Lemma bSession_get s b x : br_sessions b !! s = Some x → bSession s get b = Ok x b.
Proof.
  intros H. unfold bSession. rewrite (zoom_ok _ _ get b x x x H eq_refl). unfold set_br_sessions.
  rewrite insert_id by done. by destruct b.
Qed.
Lemma bProducer_get s b x : br_producers b !! s = Some x → bProducer s get b = Ok x b.
Proof.
  intros H. unfold bProducer. rewrite (zoom_ok _ _ get b x x x H eq_refl). unfold set_br_producers.
  rewrite insert_id by done. by destruct b.
Qed.
Lemma message_get p b m : heap (br_world b) !! p = Some m → message p b = Ok m b.
Proof. intros H. apply bWorld_get. unfold deref. by rewrite H. Qed.

Definition with_message (p : nat) (m : Message) (b : broker) : broker :=
  set_br_world (set_heap (<[p := m]> (heap (br_world b))) (br_world b)) b.
Lemma bWorld_update p f b m :
  heap (br_world b) !! p = Some m → bWorld (update p f) b = Ok tt (with_message p (f m) b).
Proof. intros H. apply bWorld_ok. unfold update. by rewrite H. Qed.
Lemma queueLength_get q b : queueLength q b = Ok (length (queue_abs (br_world b) q)) b.
Proof. by apply bWorld_get. Qed.
Lemma with_message_twice p m m' b : with_message p m' (with_message p m b) = with_message p m' b.
Proof. unfold with_message. destruct b; simpl. by rewrite insert_insert_eq. Qed.
Lemma with_message_at p m b : heap (br_world (with_message p m b)) !! p = Some m.
Proof. simpl. apply lookup_insert_eq. Qed.

(** A consumer with all that it refers to. *)
Record ready (b : broker) (c : nat) (cons : Consumer) (x : Destination) : Prop := {
  rd_consumer : br_consumers b !! c = Some cons;
  rd_destination : br_destinations b !! cs_destination cons = Some x;
  rd_world : wf_world (br_world b);
  rd_queue : is_Some (queues (br_world b) !! cs_queue cons);
  rd_storage : is_Some (br_storages b !! cs_storage cons)
}.

Lemma bStorage_ok {A} sid (op : M Storage A) b s a s' :
  br_storages b !! sid = Some s → op s = Ok a s' →
  bStorage sid op b = Ok a (set_br_storages (<[sid := s']> (br_storages b)) b).
Proof. intros H1 H2. unfold bStorage. by rewrite (zoom_ok _ _ op b s a s' H1 H2). Qed.
Lemma removeRecord_ok sid m b :
  is_Some (br_storages b !! sid) →
  ∃ st, removeRecord sid m b = Ok tt (set_br_storages (<[sid := st]> (br_storages b)) b).
Proof.
  intros [s Hs]. unfold removeRecord, resolveRecord.
  assert (Hr : ∃ r, (if storageTomId m =? UINT32_MAX then bStorage sid (cls_record_uuid iter_toms (uuid m))
     else mret (mkRec (storageTomId m) (storageOffset m) (mkHeader (uuid m) 0 0))) b = Ok r b).
  { destruct (_ =? _); [|by eexists]. destruct (record_uuid_ok iter_toms (uuid m) s) as [r Hr]. exists r.
    unfold bStorage. rewrite (zoom_ok _ _ _ b s r s Hs Hr). unfold set_br_storages. rewrite insert_id by done.
    by destruct b. }
  destruct Hr as [r Hr]. rewrite (bind_ok _ _ _ _ _ Hr). destruct (rec_tomId r =? UINT32_MAX).
  { exists s. rewrite insert_id by done. by destruct b. }
  destruct (removeAsync_ok iter_toms r s) as [s' Hs']. exists s'. by apply bStorage_ok with s.
Qed.

Lemma refresh_ok m : length (uuid m) = 16%nat →
  ∃ m', refreshCachedStorageBytes m = Some m' ∧ jmsHeaders m' = jmsHeaders m ∧
    reliability m' = reliability m ∧ uuid m' = uuid m ∧ body m' = body m ∧ properties m' = properties m ∧
    (isPersistent m = true → storageBytes m = Some (cachedStorageBytes m')) ∧ (isPersistent m = false → m' = m).
Proof.
  intros Hu. unfold refreshCachedStorageBytes. destruct (isPersistent m); [|by exists m].
  destruct (toBytes_defined m Hu) as (data & bs & _ & Ht & _). unfold storageBytes. rewrite Ht. simpl.
  eexists. split; [done|]. by split_and!.
Qed.

(** *** Redelivery without backoff *)
(** The message after its redelivery was counted. *)
Definition redelivered_once (m : Message) : Message :=
  upd_hdr (λ h, set_deliveryTime 0 (set_deliveryCount (deliveryCount (jmsHeaders m) + 1) (set_redelivered true h))) m.

(** Whether the policy gives the message up at its next redelivery. *)
Definition over_limit (policy : RedeliveryPolicy) (m : Message) : bool :=
  (0 <=? maxRedeliveries policy) && (maxRedeliveries policy <? deliveryCount (jmsHeaders m) + 1).

(** The counting that starts every redelivery. *)
Definition counted (m : Message) : Message :=
  upd_hdr (λ h, set_deliveryCount (deliveryCount (jmsHeaders m) + 1) (set_redelivered true h)) m.

Lemma redeliver_requeues b c cons x p m closing :
  ready b c cons x → heap (br_world b) !! p = Some m → length (uuid m) = 16%nat →
  inS 32 (deliveryCount (jmsHeaders m) + 1) → over_limit (ds_redeliveryPolicy x) m = false →
  closing = true ∨ backoffMs (ds_redeliveryPolicy x) <= 0 →
  ∃ w' m', redeliver c p closing b = Ok tt (set_br_world w' b) ∧ wf_world w' ∧
    heap w' = <[p := m']> (heap (br_world b)) ∧
    refreshCachedStorageBytes (redelivered_once m) = Some m' ∧
    queue_abs w' (cs_queue cons)
      = Seq.insert_prio (bandOf (Some (priority (jmsHeaders m)))) (Some p) (queue_abs (br_world b) (cs_queue cons)) ∧
    (∀ q', q' ≠ cs_queue cons → queues w' !! q' = queues (br_world b) !! q') ∧
    is_Some (queues w' !! cs_queue cons).
Proof.
  intros [R1 R2 R3 R4 R5] Hp Hu Hcount Hlimit Hback.
  destruct (refresh_ok (redelivered_once m) Hu) as (m' & Hm' & Hh & _).
  set (b1 := with_message p m' b).
  assert (Hw1 : wf_world (br_world b1)).
  { destruct R3 as [W1 W2]. split; [done|]. intros q bq z o Hq Hin. specialize (W2 q bq z o Hq Hin).
    destruct o as [i|]; [|done]. simpl in *. by rewrite lookup_insert_is_Some'; right. }
  destruct (queue_enqueue_spec (br_world b1) (cs_queue cons) (Some p) Hw1 R4) as (w' & Q1 & Q2 & Q3 & Q4 & Q5 & Q6).
  { simpl. by rewrite lookup_insert_eq. }
  exists w', m'. split; [|split_and!; try done].
  - unfold redeliver.
    rewrite (bind_ok _ _ _ _ _ (bConsumer_get _ _ _ R1)), (bind_ok _ _ _ _ _ (message_get _ _ _ Hp)).
    unfold checkS. rewrite decide_True by done. rewrite bind_ret.
    rewrite (bind_ok _ _ _ _ _ (bWorld_update p _ b m Hp)).
    fold (counted m).
    erewrite (bind_ok _ _ _ _ _ (bDest_get _ _ x _)). Unshelve. 2: exact R2.
    change ((0 <=? maxRedeliveries (ds_redeliveryPolicy x)) && _) with (over_limit (ds_redeliveryPolicy x) m).
    rewrite Hlimit.
    replace (negb closing && (0 <? backoffMs (ds_redeliveryPolicy x))) with false
      by (destruct Hback as [->|Hb]; [done|]; destruct closing; simpl; lia).
    rewrite bind_ret. cbn zeta.
    rewrite (bind_ok _ _ _ _ _ (bWorld_update p _ _ _ (with_message_at p (counted m) b))), with_message_twice.
    change (upd_hdr (set_deliveryTime 0) (counted m)) with (redelivered_once m).
    rewrite (bind_ok _ _ _ _ _ (message_get _ _ _ (with_message_at p (redelivered_once m) b))), Hm'.
    unfold require. rewrite bind_ret.
    rewrite (bind_ok _ _ _ _ _ (bWorld_update p _ _ _ (with_message_at p (redelivered_once m) b))), with_message_twice.
    fold b1. rewrite (bWorld_ok _ _ _ _ Q1). by destruct b.
  - rewrite Q4. f_equal. unfold prio_of. simpl. rewrite lookup_insert_eq. simpl. by rewrite Hh.
Qed.

(** The start of a redelivery, up to the decision. *)
Lemma redeliver_start b c cons x p m closing :
  ready b c cons x → heap (br_world b) !! p = Some m → inS 32 (deliveryCount (jmsHeaders m) + 1) →
  over_limit (ds_redeliveryPolicy x) m = true →
  redeliver c p closing b =
  (_ ← deadLetter (cs_destination cons) p "maxRedeliveries exceeded";
   m ← message p;
   if isPersistent m then removeRecord (cs_storage cons) m else mret tt) (with_message p (counted m) b).
Proof.
  intros [R1 R2 R3 R4 R5] Hp Hcount Hlimit. unfold redeliver.
  rewrite (bind_ok _ _ _ _ _ (bConsumer_get _ _ _ R1)), (bind_ok _ _ _ _ _ (message_get _ _ _ Hp)).
  unfold checkS. rewrite decide_True by done. rewrite bind_ret.
  rewrite (bind_ok _ _ _ _ _ (bWorld_update p _ b m Hp)). fold (counted m).
  erewrite (bind_ok _ _ _ _ _ (bDest_get _ _ x _)). Unshelve. 2: exact R2.
  change ((0 <=? maxRedeliveries (ds_redeliveryPolicy x)) && _) with (over_limit (ds_redeliveryPolicy x) m).
  by rewrite Hlimit.
Qed.

(** Removing a persistent message's record, or nothing. *)
Lemma remove_origin sid p m b :
  heap (br_world b) !! p = Some m → is_Some (br_storages b !! sid) →
  ∃ sts, (m ← message p; if isPersistent m then removeRecord sid m else mret tt) b = Ok tt (set_br_storages sts b) ∧
    (isPersistent m = false → sts = br_storages b).
Proof.
  intros Hm Hs. rewrite (bind_ok _ _ _ _ _ (message_get _ _ _ Hm)). destruct (isPersistent m).
  - destruct (removeRecord_ok sid m b Hs) as [st H]. rewrite H. by eexists.
  - exists (br_storages b). split; [by destruct b|done].
Qed.

(** A message that is due goes straight to its queue. *)
Definition ticks (n : nat) (b : broker) : broker := set_br_reads (n + br_reads b) b.
Lemma enqueue_due d x q p m b :
  br_destinations b !! d = Some x → wf_world (br_world b) → is_Some (queues (br_world b) !! q) →
  heap (br_world b) !! p = Some m → deliveryTime (jmsHeaders m) = 0 →
  ∃ w', dest_enqueueOrSchedule d q (Some p) b = Ok tt (set_br_world w' (ticks 2 b)) ∧ wf_world w' ∧
    heap w' = heap (br_world b) ∧
    queue_abs w' q = Seq.insert_prio (bandOf (Some (priority (jmsHeaders m)))) (Some p) (queue_abs (br_world b) q) ∧
    (∀ q', q' ≠ q → queues w' !! q' = queues (br_world b) !! q') ∧ is_Some (queues w' !! q).
Proof.
  intros Hd Hw Hq Hp Ht.
  destruct (queue_enqueue_spec (br_world b) q (Some p) Hw Hq) as (w' & Q1 & Q2 & Q3 & Q4 & Q5 & Q6); [by exists m|].
  exists w'. split; [|split_and!; try done].
  - unfold dest_enqueueOrSchedule. mrun. unfold nowMs, readClock. mrun.
    unfold bSched, zoom. simpl. rewrite Hd. simpl.
    assert (Hs : ∀ now1 now2, enqueueOrSchedule now1 now2 q (Some p) (ds_scheduler x, br_world b) = Ok tt (ds_scheduler x, w')).
    { intros now1 now2. unfold enqueueOrSchedule.
      assert (H0 : onWorld (sanitisedDeliveryTime now1 (Some p)) (ds_scheduler x, br_world b) = Ok 0 (ds_scheduler x, br_world b)).
      { unfold onWorld, sanitisedDeliveryTime, deref. mrun. rewrite Hp. by rewrite Ht. }
      rewrite (bind_ok _ _ _ _ _ H0).
      change (onWorld (queue_enqueue q (Some p)) (ds_scheduler x, br_world b) = Ok tt (ds_scheduler x, w')).
      unfold onWorld. by rewrite Q1. }
    rewrite Hs. simpl. f_equal.
    assert (alter (set_ds_scheduler (ds_scheduler x)) d (br_destinations b) = br_destinations b) as ->.
    { apply alter_id. intros y Hy. rewrite Hd in Hy. injection Hy as <-. by destruct x. }
    by destruct b.
  - rewrite Q4. unfold prio_of. simpl. by rewrite Hp.
Qed.

(** The redelivery limit, without a dead letter queue and without backoff: a
    redelivery always returns; below the limit (or with none) the message goes back
    to its consumer's queue, behind the messages of its own and higher priority, with
    its redelivered flag set, its count one higher and its stored bytes rebuilt to
    match; from the limit on it is dropped, with no queue changed. *)
Theorem redelivery_limit b c cons x p m closing :
  ready b c cons x → heap (br_world b) !! p = Some m → length (uuid m) = 16%nat →
  inS 32 (deliveryCount (jmsHeaders m) + 1) → deadLetterQueue (ds_redeliveryPolicy x) = None →
  closing = true ∨ backoffMs (ds_redeliveryPolicy x) <= 0 →
  ∃ b', redeliver c p closing b = Ok tt b' ∧
    if over_limit (ds_redeliveryPolicy x) m
    then queues (br_world b') = queues (br_world b)
    else queue_abs (br_world b') (cs_queue cons)
           = Seq.insert_prio (bandOf (Some (priority (jmsHeaders m)))) (Some p) (queue_abs (br_world b) (cs_queue cons)) ∧
         ∃ m', heap (br_world b') !! p = Some m' ∧ refreshCachedStorageBytes (redelivered_once m) = Some m'.
Proof.
  intros Hr Hp Hu Hc Hd Hb. destruct (over_limit (ds_redeliveryPolicy x) m) eqn:Hl.
  - rewrite (redeliver_start b c cons x p m closing) by done. destruct Hr as [R1 R2 R3 R4 R5].
    assert (Hdl : deadLetter (cs_destination cons) p "maxRedeliveries exceeded" (with_message p (counted m) b)
      = Ok tt (with_message p (counted m) b)).
    { unfold deadLetter, catch, deadLetterBody.
      erewrite (bind_ok _ _ _ _ _ (bDest_get _ _ x _)). Unshelve. 2: exact R2. by rewrite Hd. }
    rewrite (bind_ok _ _ _ _ _ Hdl).
    destruct (remove_origin (cs_storage cons) p (counted m) (with_message p (counted m) b)) as (sts & H1 & _);
      [apply with_message_at|done|].
    rewrite H1. by eexists.
  - destruct (redeliver_requeues b c cons x p m closing) as (w' & m' & H1 & _ & H3 & H4 & H5 & _); try done.
    eexists. split; [exact H1|]. split; [exact H5|]. exists m'. simpl. by rewrite H3, lookup_insert_eq.
Qed.

(** The dead letter made from a message whose redelivery was counted. *)
Definition deadLetterOf (m : Message) : Message :=
  setRawProperty "JMSXDeadLetterReason" (RString "maxRedeliveries exceeded")
    (upd_hdr (set_deliveryTime 0) (copy (counted m))).

(** *** recv *)

(** The contents a queued message has when recv looks at them. *)
Definition rehydrated (m : Message) : option Message :=
  if isPersistent m then
    match cachedStorageBytes m with
    | [] => None
    | cached => match fromBytes (drop 1 cached) m with Ok _ m' => Some (set_cachedStorageBytes [] m') | _ => None end
    end
  else Some m.

Lemma rehydrate_ok sid p m m' b :
  heap (br_world b) !! p = Some m → rehydrated m = Some m' →
  rehydrate sid p b = Ok tt (with_message p m' b).
Proof.
  intros Hp Hr. unfold rehydrate, rehydrated in *. rewrite (bind_ok _ _ _ _ _ (message_get _ _ _ Hp)).
  destruct (isPersistent m); [|injection Hr as <-; unfold with_message; rewrite insert_id by done; by destruct b as [[]]].
  destruct (cachedStorageBytes m) as [|t l]; [done|].
  destruct (fromBytes (drop 1 (t :: l)) m) as [[] m1|?|] eqn:Hf; try done. injection Hr as <-.
  assert (H1 : bWorld (onMessage p (fromBytes (drop 1 (t :: l)))) b = Ok tt (with_message p m1 b)).
  { apply bWorld_ok. unfold onMessage. by rewrite Hp, Hf. }
  rewrite (bind_ok _ _ _ _ _ H1), (bWorld_update p _ _ _ (with_message_at p m1 b)). by rewrite with_message_twice.
Qed.

(** *** The clock *)

(** The clock, in milliseconds, at a reading, and when an operation starts. *)
Definition nowAt (n : nat) : Z := Z.quot (clock n) 1000.
Definition startOf (b : broker) : Z := nowAt (br_reads b).
(** A clock that is not set back while the process runs. *)
Record steady : Prop := {
  sd_mono : ∀ i j, (i <= j)%nat → clock i <= clock j;
  sd_range : ∀ i, 0 <= clock i <= INT64_MAX
}.
Lemma nowAt_mono (Hclock : steady) i j : (i <= j)%nat → nowAt i <= nowAt j.
Proof. intros H. unfold nowAt. apply Z.quot_le_mono; [done|]. by apply (sd_mono Hclock). Qed.
Lemma nowAt_range (Hclock : steady) i : 0 <= nowAt i <= INT64_MAX.
Proof.
  unfold nowAt. pose proof (sd_range Hclock i) as H. rewrite Z.quot_div_nonneg by lia.
  split; [apply Z.div_pos; lia|]. transitivity (clock i); [|lia]. apply Z.div_le_upper_bound; lia.
Qed.

(** What has expired stays so. *)
Lemma isExpired_mono now now' m : now <= now' → isExpired now m = true → isExpired now' m = true.
Proof. unfold isExpired. lia. Qed.
(** recv reads the clock for a message with an expiration only. *)
Lemma isExpiredNow_ok m b : ∃ n, (n <= 1)%nat ∧ isExpiredNow m b = Ok (isExpired (startOf b) m) (ticks n b).
Proof.
  unfold isExpiredNow, isExpired. destruct (expiration (jmsHeaders m) =? 0) eqn:Hz.
  - exists 0%nat. split; [lia|]. by destruct b.
  - exists 1%nat. split; [done|]. unfold nowMs, readClock. mrun. by rewrite ?Hz.
Qed.

(** The queue of consumer [c] holds the messages [l], each with its contents. *)
Record holding (b : broker) (c : nat) (cons : Consumer) (s : Session) (l : list (nat * Message)) : Prop := {
  hd_consumer : br_consumers b !! c = Some cons;
  hd_session : br_sessions b !! cs_session cons = Some s;
  hd_storage : is_Some (br_storages b !! cs_storage cons);
  hd_world : wf_world (br_world b);
  hd_queue : is_Some (queues (br_world b) !! cs_queue cons);
  hd_abs : (queue_abs (br_world b) (cs_queue cons)).*2 = Some <$> l.*1;
  hd_nodup : NoDup l.*1;
  hd_contents : Forall (λ pm, ∃ m, heap (br_world b) !! pm.1 = Some m ∧ rehydrated m = Some pm.2) l
}.

(** What recv leaves: the queue without what it took, and the rest of the process
    unchanged except for the clock, the storage and the contents of what it took. *)
Lemma take_one b c cons s p m l :
  holding b c cons s ((p, m) :: l) →
  ∃ w', bWorld (queue_try_dequeue (cs_queue cons)) b = Ok (Some (Some p)) (set_br_world w' b) ∧
    rehydrate (cs_storage cons) p (set_br_world w' b) = Ok tt (with_message p m (set_br_world w' b)) ∧
    holding (with_message p m (set_br_world w' b)) c cons s l.
Proof.
  intros [H1 H2 H3 H4 H5 H6 H7 H8].
  destruct (queue_try_dequeue_spec (br_world b) (cs_queue cons) H4 H5) as (r & w' & D1 & D2 & D3 & D4 & D5 & D6).
  destruct (queue_abs (br_world b) (cs_queue cons)) as [|[z x] rest] eqn:Hq; [done|]. csimpl in H6.
  injection H6 as -> Hrest. destruct D6 as [-> Hrest'].
  apply Forall_cons_1 in H8 as [(m0 & Hp & Hm) H8]. simpl in Hp, Hm. apply list.NoDup_cons in H7 as [Hnp H7].
  exists w'. split; [by apply bWorld_ok|]. split; [apply rehydrate_ok with m0; [by simpl; rewrite D3|done]|].
  split; try done; simpl.
  - apply wf_world_heap; [|done]. intros i Hi. rewrite lookup_insert_is_Some'. by right.
  - unfold queue_abs in *. simpl. by rewrite Hrest'.
  - apply list.Forall_forall. intros [p' m'] Hin. simpl.
    destruct (proj1 (list.Forall_forall _ _) H8 (p', m') Hin) as (m1 & E1 & E2). exists m1. simpl in *.
    rewrite lookup_insert_ne, D3; [done|]. intros <-. apply Hnp, list_elem_of_fmap. by exists (p, m').
Qed.

Lemma holding_other b c cons s l n sts :
  holding b c cons s l → is_Some (sts !! cs_storage cons) → holding (ticks n (set_br_storages sts b)) c cons s l.
Proof. intros [H1 H2 H3 H4 H5 H6 H7 H8] Hs. by split. Qed.

Lemma track_ok b c cons s p :
  br_consumers b !! c = Some cons → br_sessions b !! cs_session cons = Some s → ss_mode s ≠ SESSION_TRANSACTED →
  track c p b = Ok tt (if decide (ss_mode s = AUTO_ACKNOWLEDGE) then b else set_br_chains (link c p (br_chains b)) b).
Proof.
  intros H1 H2 Hm. unfold track. rewrite (bind_ok _ _ _ _ _ (bConsumer_get _ _ _ H1)).
  erewrite (bind_ok _ _ _ _ _ (bSession_get _ _ s _)). Unshelve. 2: exact H2.
  destruct (ss_mode s); try done; by destruct (cs_transactQueue cons).
Qed.
(** A drop of an expired message does not touch the queue nor use up the timeout. *)
Lemma drop_ok b c cons s l n sid m :
  holding b c cons s l → sid = cs_storage cons →
  ∃ b', (if isPersistent m then removeRecord sid m else mret tt) (ticks n b) = Ok tt b' ∧
    holding b' c cons s l ∧ br_chains b' = br_chains b ∧ br_reads b' = (n + br_reads b)%nat.
Proof.
  intros H ->. pose proof (hd_storage _ _ _ _ _ H) as Hs. destruct (isPersistent m).
  - destruct (removeRecord_ok (cs_storage cons) m (ticks n b) Hs) as [st Hst]. eexists. split; [exact Hst|].
    split; [|done]. change (holding (ticks n (set_br_storages (<[cs_storage cons:=st]> (br_storages b)) b)) c cons s l).
    apply holding_other; [done|]. rewrite lookup_insert_eq. by eexists.
  - exists (ticks n b). split; [done|]. split; [|done].
    replace (ticks n b) with (ticks n (set_br_storages (br_storages b) b)) by (by destruct b).
    by apply holding_other.
Qed.

(** A timeout that is not reached between two clock readings; a negative one waits for
    ever. *)
Definition patient (usec_timeout : Z) (i j : nat) : Prop := usec_timeout < 0 ∨ clock j - clock i < usec_timeout.

Lemma recvLoop_delivers c cons s usec p m rest first last dead : steady → ss_mode s ≠ SESSION_TRANSACTED →
  patient usec first last → isExpired (nowAt last) m = false → Forall (λ pm, isExpired (nowAt first) pm.2 = true) dead →
  ∀ fuel b (started : option Z) remaining,
  (length dead < fuel)%nat → holding b c cons s (dead ++ (p, m) :: rest) →
  (first <= br_reads b)%nat → (br_reads b + 2 * length dead + (if started then 0 else 1) <= last)%nat →
  (∀ t, started = Some t → ∃ i, (first <= i)%nat ∧ t = clock i) →
  ∃ b', recvLoop fuel c usec started remaining b = Ok (Returned (Some p)) b' ∧ holding b' c cons s rest ∧
    heap (br_world b') !! p = Some m ∧
    br_chains b' = if decide (ss_mode s = AUTO_ACKNOWLEDGE) then br_chains b else link c p (br_chains b).
Proof.
  intros Hclock Hmode Hpat Hlive. induction dead as [|[p0 m0] dead IH]; intros Hdead fuel b started remaining Hfuel Hh Hfirst Hlast Hst.
  - destruct fuel as [|fuel]; [simpl in Hfuel; lia|]. simpl in Hh, Hlast. cbn [recvLoop].
    destruct (take_one _ _ _ _ _ _ _ Hh) as (w' & T1 & T2 & T3).
    rewrite (bind_ok _ _ _ _ _ (bConsumer_get _ _ _ (hd_consumer _ _ _ _ _ Hh))).
    rewrite (bind_ok _ _ _ _ _ T1), (bind_ok _ _ _ _ _ T2).
    set (b1 := with_message p m (set_br_world w' b)) in *.
    rewrite (bind_ok _ _ _ _ _ (message_get p b1 m (with_message_at p m _))).
    destruct (isExpiredNow_ok m b1) as (n & _ & Hn).
    assert (isExpired (startOf b1) m = false) as Hl.
    { apply not_true_iff_false. intros Hx. apply (isExpired_mono _ (nowAt last)) in Hx; [by rewrite Hx in Hlive|].
      apply (nowAt_mono Hclock). simpl. lia. }
    rewrite Hl in Hn. rewrite (bind_ok _ _ _ _ _ Hn).
    assert (Ht : track c p (ticks n b1) = Ok tt (if decide (ss_mode s = AUTO_ACKNOWLEDGE) then ticks n b1
      else set_br_chains (link c p (br_chains (ticks n b1))) (ticks n b1))).
    { apply track_ok with cons; [apply T3|apply T3|done]. }
    rewrite (bind_ok _ _ _ _ _ Ht). eexists. split; [done|].
    destruct T3 as [H1 H2 H3 H4 H5 H6 H7 H8]. case_decide; (split; [by split|]); simpl; by rewrite lookup_insert_eq.
  - destruct fuel as [|fuel]; [simpl in Hfuel; lia|]. cbn [recvLoop app] in *. simpl in Hlast.
    apply Forall_cons_1 in Hdead as [Hd0 Hdead]. simpl in Hd0.
    destruct (take_one _ _ _ _ _ _ _ Hh) as (w' & T1 & T2 & T3).
    rewrite (bind_ok _ _ _ _ _ (bConsumer_get _ _ _ (hd_consumer _ _ _ _ _ Hh))).
    rewrite (bind_ok _ _ _ _ _ T1), (bind_ok _ _ _ _ _ T2).
    set (b1 := with_message p0 m0 (set_br_world w' b)) in *.
    rewrite (bind_ok _ _ _ _ _ (message_get p0 b1 m0 (with_message_at p0 m0 _))).
    destruct (isExpiredNow_ok m0 b1) as (n & Hn1 & Hn).
    rewrite (isExpired_mono (nowAt first) (startOf b1) m0) in Hn; [|by apply (nowAt_mono Hclock)|done].
    rewrite (bind_ok _ _ _ _ _ Hn). cbn iota.
    destruct (drop_ok b1 c cons s _ n (cs_storage cons) m0 T3 eq_refl) as (b2 & D1 & D2 & D3 & D4).
    rewrite (bind_ok _ _ _ _ _ D1). simpl in Hfuel, D4.
    assert (Hc : br_chains b2 = br_chains b) by (by rewrite D3).
    destruct (0 <=? usec) eqn:Hu; [|rewrite <-Hc; apply IH; [done|lia|done|lia|lia|done]].
    destruct Hpat as [Hneg|Hpat]; [lia|].
    assert (Hstart : ∃ i k, (match started with Some t => mret t | None => readClock end) b2 = Ok (clock i) (ticks k b2) ∧
      (first <= i)%nat ∧ (k = if started then 0 else 1)%nat).
    { destruct started as [t|]; [destruct (Hst t eq_refl) as (i & Hi & ->); exists i, 0%nat; split; [by destruct b2|done]|].
      exists (br_reads b2), 1%nat. split; [done|]. split; [lia|done]. }
    destruct Hstart as (i & k & Hstart & Hi & Hk). rewrite (bind_ok _ _ _ _ _ Hstart).
    assert (Hread : readClock (ticks k b2) = Ok (clock (br_reads (ticks k b2))) (ticks (S k) b2)) by done.
    rewrite (bind_ok _ _ _ _ _ Hread). cbn zeta.
    pose proof (sd_mono Hclock first i Hi). assert (Hlate : (br_reads (ticks k b2) <= last)%nat) by (simpl; lia).
    pose proof (sd_mono Hclock _ _ Hlate).
    replace (_ <=? 0) with false by lia.
    assert (Hh2 : holding (ticks (S k) b2) c cons s (dead ++ (p, m) :: rest)).
    { replace (ticks (S k) b2) with (ticks (S k) (set_br_storages (br_storages b2) b2)) by (by destruct b2).
      apply holding_other; [done|]. apply D2. }
    rewrite <-Hc. apply (IH Hdead fuel (ticks (S k) b2)); [lia|done|simpl; lia|simpl; lia|]. intros t [= <-]. eauto.
Qed.

(** C33. recv outside a transaction skips what has expired and returns the first live
    message. On a clock that is not set back: whatever number of messages that have
    expired when recv starts precede it in priority order, they are dropped, and the
    next message, if it has not expired by the time recv gets to it (at most two clock
    readings per dropped message and one more) and the timeout has not passed by then,
    comes with its own contents; the rest of the queue is left as it was, and the
    message is put at the end of the consumer's in-flight chain unless the session
    acknowledges automatically. *)
Theorem recv_delivers_first_live b c cons s usec_timeout dead p m rest :
  steady → holding b c cons s (dead ++ (p, m) :: rest) → ss_mode s ≠ SESSION_TRANSACTED →
  let last := (br_reads b + 2 * length dead + 1)%nat in
  patient usec_timeout (br_reads b) last →
  Forall (λ pm, isExpired (startOf b) pm.2 = true) dead → isExpired (nowAt last) m = false →
  ∃ b', recv c usec_timeout b = Ok (Returned (Some p)) b' ∧ holding b' c cons s rest ∧
    heap (br_world b') !! p = Some m ∧
    br_chains b' = if decide (ss_mode s = AUTO_ACKNOWLEDGE) then br_chains b else link c p (br_chains b).
Proof.
  intros Hclock Hh Hmode last Hpat Hdead Hlive. unfold recv.
  rewrite (bind_ok _ _ _ _ _ (bConsumer_get _ _ _ (hd_consumer _ _ _ _ _ Hh))).
  rewrite (bind_ok _ _ _ _ _ (queueLength_get _ _)).
  apply (recvLoop_delivers c cons s _ p m rest (br_reads b) last dead); try done.
  assert (Hlen : length (queue_abs (br_world b) (cs_queue cons)) = length (dead ++ (p, m) :: rest)).
  { pose proof (f_equal length (hd_abs _ _ _ _ _ Hh)) as Hlen. by rewrite !length_fmap in Hlen. }
  rewrite Hlen, length_app. simpl. lia.
Qed.
(** *** recover *)

(** What a queue becomes when messages are put back into it one after the other. *)
Definition requeued (q : list (Z * Ptr)) (l : list (nat * Message)) : list (Z * Ptr) :=
  foldl (λ q pm, Seq.insert_prio (bandOf (Some (priority (jmsHeaders pm.2)))) (Some pm.1) q) q l.
(** A message that its policy still redelivers. *)
Definition redeliverable (policy : RedeliveryPolicy) (m : Message) : Prop :=
  length (uuid m) = 16%nat ∧ inS 32 (deliveryCount (jmsHeaders m) + 1) ∧ over_limit policy m = false.
Definition at_heap (w : world) (pm : nat * Message) : Prop := heap w !! pm.1 = Some pm.2.

(** A recovery of the messages [l] that started in [b] has put [done] back. *)
Record recovering (b : broker) c cons x (l : list (nat * Message)) (rem : list nat) (b' : broker) : Prop := {
  rc_ready : ready b' c cons x;
  rc_done : ∃ done todo, l = done ++ todo ∧ todo.*1 = rem ∧
    queue_abs (br_world b') (cs_queue cons) = requeued (queue_abs (br_world b) (cs_queue cons)) done ∧
    Forall (λ pm, ∃ m', heap (br_world b') !! pm.1 = Some m' ∧
      refreshCachedStorageBytes (redelivered_once pm.2) = Some m') done ∧
    Forall (at_heap (br_world b')) todo;
  rc_others : ∀ q, q ≠ cs_queue cons → queues (br_world b') !! q = queues (br_world b) !! q
}.

Lemma recovering_step b c cons x l p rem b' :
  NoDup l.*1 → Forall (λ pm, redeliverable (ds_redeliveryPolicy x) pm.2) l →
  backoffMs (ds_redeliveryPolicy x) <= 0 → recovering b c cons x l (p :: rem) b' →
  ∃ b'', redeliver c p false b' = Ok tt b'' ∧ br_chains b'' = br_chains b' ∧ recovering b c cons x l rem b''.
Proof.
  intros Hn Hl Hback [Hr (dn & todo & -> & Htodo & Hq & Hdn & Hheap) Hoth].
  destruct todo as [|[p' m] todo]; [done|]. csimpl in Htodo. injection Htodo as -> Htodo.
  apply Forall_app in Hl as [_ Hl]. apply Forall_cons_1 in Hl as [(Hu & Hc & Ho) _].
  apply Forall_cons_1 in Hheap as [Hp Hheap]. unfold at_heap in Hp. simpl in Hp, Hu, Hc, Ho.
  rewrite fmap_app in Hn. csimpl in Hn. apply list.NoDup_app in Hn as (_ & Hn1 & Hn2).
  apply list.NoDup_cons in Hn2 as [Hn2 _].
  assert (Hne : ∀ pm, pm ∈ dn ∨ pm ∈ todo → p ≠ pm.1).
  { intros pm [Hin|Hin] ->; [apply (Hn1 pm.1); [by apply list_elem_of_fmap_2|by left]|].
    apply Hn2. by apply list_elem_of_fmap_2. }
  destruct (redeliver_requeues b' c cons x p m false) as (w' & m' & R1 & R2 & R3 & R4 & R5 & R6 & R7); try done;
    [by right|].
  exists (set_br_world w' b'). split; [done|]. split; [done|]. destruct Hr as [H1 H2 H3 H4 H5].
  split; [by split| |by intros q Hne'; simpl; rewrite R6, Hoth].
  exists (dn ++ [(p, m)]), todo. split_and!; [by rewrite <-app_assoc|done| | |].
  - simpl. rewrite R5, Hq. unfold requeued. by rewrite foldl_app.
  - apply Forall_app. split; [|constructor; [|constructor]].
    + rewrite list.Forall_forall in Hdn |- *. intros pm Hin. destruct (Hdn pm Hin) as (m1 & E1 & E2).
      exists m1. simpl. by rewrite R3, lookup_insert_ne by (by apply Hne; left).
    + exists m'. simpl. by rewrite R3, lookup_insert_eq.
  - rewrite list.Forall_forall in Hheap |- *. intros pm Hin. unfold at_heap in *. simpl.
    rewrite R3, lookup_insert_ne by (by apply Hne; right). by apply Hheap.
Qed.

(** C34. recover() redelivers in order: with a redelivery policy without backoff, as the
    default one is, and messages that are all within its redelivery limit (one past it is
    dead-lettered, see [dead_letter_moves]), every message that was delivered and not
    acknowledged goes back into the consumer's queue exactly once, in the order of its
    first delivery within its priority, marked redelivered with its count one higher,
    the chain is empty afterwards, the other consumers' chains and queues are not
    touched. *)
Theorem recover_in_order b c cons x L l :
  ready b c cons x → chained (br_chains b) L → L c = l.*1 → Forall (at_heap (br_world b)) l →
  Forall (λ pm, redeliverable (ds_redeliveryPolicy x) pm.2) l → backoffMs (ds_redeliveryPolicy x) <= 0 →
  ∃ b', recoverConsumer c b = Ok tt b' ∧ chained (br_chains b') (upd_list L c []) ∧
    queue_abs (br_world b') (cs_queue cons) = requeued (queue_abs (br_world b) (cs_queue cons)) l ∧
    (∀ q, q ≠ cs_queue cons → queues (br_world b') !! q = queues (br_world b) !! q) ∧
    Forall (λ pm, ∃ m', heap (br_world b') !! pm.1 = Some m' ∧
      refreshCachedStorageBytes (redelivered_once pm.2) = Some m') l.
Proof.
  intros Hr Hch HL Hheap Hl Hback. unfold recoverConsumer. rewrite (bind_ok get _ b b b eq_refl).
  assert (Hn : NoDup l.*1) by (rewrite <-HL; apply Hch).
  destruct (drainAll_spec br_chains set_br_chains (λ p, redeliver c p false) ltac:(done)
    (recovering b c cons x l)) with (fuel := chainFuel (br_chains b)) (L := L) (c := c) (s := b)
    as (b' & D1 & D2 & [D3 (dn & todo & -> & Htodo & Hq & Hdn & _) D5]).
  - by intros rem ch b' [[H1 H2 H3 H4 H5] Hd Ho].
  - intros p rem b' H. by apply recovering_step.
  - done.
  - by apply chain_fuel.
  - split; [done| |done]. exists [], l. by rewrite HL.
  - exists b'. rewrite (bind_ok _ _ _ _ _ D1). apply fmap_nil_inv in Htodo as ->. rewrite app_nil_r. by split_and!.
Qed.
End Facts.
