(* ===== verification/SendFacts.v ===== *)
(** What the copies of a message are: the message that a stored record is replayed
    as, and the fan-out of a send to the consumers it is for. *)
From S2P Require Import Prelude Property Message JsonInstance MessageFacts StorageRecord PriorityQueue World DeliveryScheduler LinearStorage StorageWorker TransactionBuffer InFlight Broker Consumer Destination Session ConsumerFacts.
From Stdlib Require Import Lia ZifyBool.

(** *** Replay *)
Section Replay.
Context {E : Environment} {JOk : PocoJsonOk env_json}.

Lemma patchCached_record t dt m rest sh : length (uuid m) = 16%nat →
  cachedStorageBytes sh = record t m rest →
  patchCachedDeliveryTime dt sh = set_cachedStorageBytes (record t (upd_hdr (set_deliveryTime dt) m) rest) sh.
Proof.
  intros Hu Hc. unfold patchCachedDeliveryTime. rewrite Hc. pose proof (record_long t m rest Hu).
  unfold kDeliveryTimeOffset, kDeliveryTimeSize. rewrite decide_False by lia. rewrite record_magic. cbn [negb].
  change (1 + 1 + 8 + 16 + 1 + 8 + 8)%nat with 43%nat. by rewrite (patch_record t m rest Hu).
Qed.

Lemma shell_of_type m :
  makeMessageShell (byte.unsigned (byte.of_Z (type_code (message_type m)))) = Some (newMessage (emptyBody (message_type m))).
Proof. unfold message_type. destruct (body m); vm_compute; reflexivity. Qed.

(** recv parses the cached bytes of a message over the message itself. *)
Lemma rehydrated_record m sh t data :
  codable_message m → isPersistent sh = true → properties sh = ∅ → body sh = emptyBody (message_type m) →
  dataAsBytes (body m) = Some data → cachedStorageBytes sh = t :: wireOf m (propsJson m) data →
  rehydrated sh = Some (set_cachedStorageBytes [] (MessageFacts.received m sh (properties m) (arrived_body (body m)))).
Proof.
  intros Hm Hper Hps Hbody Hd Hc. unfold rehydrated. rewrite Hper, Hc. cbn [drop]. rewrite drop_0.
  destruct (body_roundtrip (body m) (cm_body m Hm)) as (data' & Hd' & Hrb). rewrite Hd in Hd'. injection Hd' as <-.
  rewrite (fromBytes_wire m sh _ data (properties m) (arrived_body (body m))); [done|apply Hm|apply Hm| |].
  - rewrite Hps. by apply props_roundtrip, Hm.
  - by rewrite Hbody.
Qed.

(** What a replayed message is delivered as: the delivery time the replay accepts,
    and the place of its record. *)
Definition replayed (now : Z) (record : Rec) (m : Message) : Message :=
  let d := deliveryTime (jmsHeaders m) in
  let t := if (d <? 0) || (now + kMaxFutureHeaderMs <? d) then 0 else d in
  set_storageOffset (rec_offset record) (set_storageTomId (rec_tomId record)
    (arrived (upd_hdr (set_deliveryTime t) m))).

Lemma codable_deliveryTime t m : codable_message m → inS 64 t → codable_message (upd_hdr (set_deliveryTime t) m).
Proof.
  intros [[H1 H2 []] H3 H4 H5] Ht. split; [|done..]. split; [done..|]. by split.
Qed.

(** A stored message comes back from a restart: the replay of its record makes a
    message that enters the queue at its own (clamped) priority and delivery time, and
    recv, parsing the cached bytes, hands out the message that was stored: number,
    uuid, headers, properties and body, with only an absurd delivery time reset. *)
Theorem replay_restores now (record : Rec) m data :
  codable_message m → isPersistent m = true → storageBytes m = Some data → rec_uuid (rec_header record) = uuid m →
  ∃ sh, shellOf now record data = Some sh ∧ rehydrated sh = Some (replayed now record m) ∧
    priority (jmsHeaders sh) = clamp 0 9 (priority (jmsHeaders m)) ∧
    deliveryTime (jmsHeaders sh) = deliveryTime (jmsHeaders (replayed now record m)).
Proof.
  intros Hm Hper Hdata Huuid. pose proof (wf_uuid m (cm_wf m Hm)) as Hu.
  destruct (storageBytes_record m Hu) as [rest Hrest]. rewrite Hrest in Hdata. injection Hdata as <-.
  set (ty := byte.of_Z (type_code (message_type m))) in *.
  pose proof (wf_hdr m (cm_wf m Hm)) as Hh.
  set (t := deliveryTimeFromStorageBytes now (StorageRecord.record ty m rest)).
  assert (Ht : t = deliveryTime (jmsHeaders (replayed now record m))).
  { unfold t. by rewrite (deliveryTime_in_record ty m rest now Hu (wf_deliveryTime _ Hh)). }
  assert (Ht64 : inS 64 t).
  { rewrite Ht. simpl. pose proof (wf_deliveryTime _ Hh). destruct (_ || _); [|done]. by vm_compute. }
  set (m2 := upd_hdr (set_deliveryTime t) m).
  assert (Hm2 : codable_message m2) by (by apply codable_deliveryTime).
  destruct (body_roundtrip (body m2) (cm_body m2 Hm2)) as (body_data & Hbd & Hrb).
  pose proof (toBytes_wire m2 body_data (cm_wf _ Hm2) (cm_size _ Hm2) Hbd) as Hwire.
  assert (Hrec : StorageRecord.record ty m2 rest = ty :: wireOf m2 (propsJson m2) body_data).
  { pose proof (storageBytes_set_deliveryTime m t Hu) as Hs. rewrite Hrest in Hs. simpl in Hs.
    unfold ty in *. rewrite patch_in_record in Hs by done. fold m2 in Hs. unfold storageBytes in Hs.
    rewrite Hwire in Hs. cbn [mbind option_bind] in Hs. by apply (inj Some) in Hs. }
  assert (Hshell : makeMessageShell (byte.unsigned ty) = Some (newMessage (emptyBody (message_type m)))).
  { apply shell_of_type. }
  unfold shellOf. cbn [StorageRecord.record]. fold (StorageRecord.record ty m rest). rewrite Hshell.
  cbn [mbind option_bind]. fold t. erewrite patchCached_record by done.
  eexists. split; [done|]. split.
  - erewrite rehydrated_record; [|exact Hm2|done..|exact Hbd|exact Hrec]. unfold MessageFacts.received. cbn.
    change (deliveryTime (jmsHeaders (replayed now record m))) with (if (deliveryTime (jmsHeaders m) <? 0) || (now + kMaxFutureHeaderMs <? deliveryTime (jmsHeaders m)) then 0 else deliveryTime (jmsHeaders m)) in Ht.
    unfold replayed. cbn zeta. by rewrite <-Ht.
  - split; [|done]. cbn. by rewrite (priority_in_record ty m rest Hu (wf_priority _ Hh)).
Qed.
End Replay.

(** *** Sends outside a transaction *)
Section Send.
Context {E : Environment}.

Lemma transactionIdOf_ok producer b pr s :
  br_producers b !! producer = Some pr → br_sessions b !! pr_session pr = Some s →
  transactionIdOf producer b = Ok (ss_suffix s) b.
Proof.
  intros H1 H2. unfold transactionIdOf. rewrite (bind_ok _ _ _ _ _ (bProducer_get _ _ _ H1)).
  by rewrite (bind_ok _ _ _ _ _ (bSession_get _ _ _ H2)).
Qed.

(** The copy of a message that a consumer gets. *)
Definition pushed (number : Z) (m : Message) : Message := set_number number (copy m).
Definition with_copy (m : Message) (b : broker) : broker :=
  with_message (br_fresh b) m (set_br_fresh (S (br_fresh b)) b).

Lemma preparePush_plain c cons number producer p m b pr s :
  br_consumers b !! c = Some cons → heap (br_world b) !! p = Some m →
  br_producers b !! producer = Some pr → br_sessions b !! pr_session pr = Some s →
  isPersistent m = false → uuid m ≠ nullUUID →
  preparePush c number producer p b = Ok (br_fresh b) (with_copy (pushed number m) b).
Proof.
  intros Hc Hp Hpr Hs Hper Hu. unfold preparePush.
  rewrite (bind_ok _ _ _ _ _ (bConsumer_get _ _ _ Hc)), (bind_ok _ _ _ _ _ (message_get _ _ _ Hp)).
  rewrite (bind_ok (alloc (copy m)) _ b (br_fresh b) (with_copy (copy m) b) eq_refl). unfold with_copy.
  rewrite (bind_ok _ _ _ _ _ (message_get _ _ _ (with_message_at (br_fresh b) (copy m) _))).
  rewrite decide_False, bind_ret by done.
  rewrite (bind_ok _ _ _ _ _ (bWorld_update (br_fresh b) _ _ _ (with_message_at _ _ _))).
  rewrite with_message_twice. fold (pushed number m).
  erewrite (bind_ok _ _ _ _ _ (transactionIdOf_ok producer _ pr s _ _)). Unshelve. 2, 3: done.
  rewrite (bind_ok _ _ _ _ _ (message_get _ _ _ (with_message_at (br_fresh b) _ _))).
  change (isPersistent (pushed number m)) with (isPersistent m). by rewrite Hper.
Qed.

(** A sender outside a transaction with a message that is due, not persistent and
    has its uuid. *)
Record plain_send (b : broker) (producer p : nat) (m : Message) : Prop := {
  ps_producer : ∃ pr s, br_producers b !! producer = Some pr ∧ br_sessions b !! pr_session pr = Some s ∧ ss_suffix s = "";
  ps_message : heap (br_world b) !! p = Some m;
  ps_volatile : isPersistent m = false;
  ps_uuid : uuid m ≠ nullUUID;
  ps_due : deliveryTime (jmsHeaders m) = 0
}.

Lemma wf_world_new w i m : heap w !! i = None → wf_world w → wf_world (set_heap (<[i := m]> (heap w)) w).
Proof. intros Hi Hw. apply wf_world_heap; [|done]. intros j Hj. destruct (decide (j = i)) as [->|]; [rewrite lookup_insert_eq; by eexists|by rewrite lookup_insert_ne]. Qed.

Lemma push_plain c cons number producer p m b :
  br_consumers b !! c = Some cons → plain_send b producer p m → wf_world (br_world b) →
  is_Some (queues (br_world b) !! cs_queue cons) → heap (br_world b) !! br_fresh b = None →
  matchesSelector (cs_selector cons) m = true →
  ∃ w', push c number producer p b = Ok tt (set_br_world w' (set_br_fresh (S (br_fresh b)) b)) ∧ wf_world w' ∧
    heap w' = <[br_fresh b := pushed number m]> (heap (br_world b)) ∧
    queue_abs w' (cs_queue cons) = Seq.insert_prio (bandOf (Some (priority (jmsHeaders m)))) (Some (br_fresh b))
      (queue_abs (br_world b) (cs_queue cons)) ∧
    (∀ q', q' ≠ cs_queue cons → queues w' !! q' = queues (br_world b) !! q') ∧ is_Some (queues w' !! cs_queue cons).
Proof.
  intros Hc [(pr & s & Hpr & Hs & Hsuf) Hp Hper Hu Hdue] Hw Hq Hfresh Hmatch.
  set (b1 := with_copy (pushed number m) b).
  assert (Hw1 : wf_world (br_world b1)) by (by apply wf_world_new).
  destruct (queue_enqueue_spec (br_world b1) (cs_queue cons) (Some (br_fresh b)) Hw1 Hq) as (w' & Q1 & Q2 & Q3 & Q4 & Q5 & Q6).
  { simpl. rewrite lookup_insert_eq. by eexists. }
  exists w'. split; [|split_and!; try done].
  - unfold push. rewrite (bind_ok _ _ _ _ _ (bConsumer_get _ _ _ Hc)), (bind_ok _ _ _ _ _ (message_get _ _ _ Hp)).
    rewrite Hmatch. cbn [negb].
    rewrite (bind_ok _ _ _ _ _ (preparePush_plain c cons number producer p m b pr s Hc Hp Hpr Hs Hper Hu)). fold b1.
    erewrite (bind_ok _ _ _ _ _ (transactionIdOf_ok producer b1 pr s _ _)). Unshelve. 2, 3: done.
    rewrite (bind_ok _ _ _ _ _ (message_get _ b1 _ (with_message_at (br_fresh b) _ _))).
    rewrite Hsuf, decide_True by done. change (deliveryTime (jmsHeaders (pushed number m))) with (deliveryTime (jmsHeaders m)).
    rewrite Hdue. cbn [Z.eqb]. by rewrite (bWorld_ok _ _ _ _ Q1).
  - rewrite Q4. f_equal. unfold prio_of. simpl. by rewrite lookup_insert_eq.
Qed.
(** The queues a message goes to: those of the accepting consumers, in order. *)
Definition targets (b : broker) (m : Message) (cs : list nat) : list nat :=
  cs ≫= λ c, match br_consumers b !! c with
             | Some k => if matchesSelector (cs_selector k) m then [cs_queue k] else []
             | None => []
             end.
(** A queue after the copies [out], each with the queue it went to, were put into it. *)
Definition joined (z : Z) (q : nat) (l : list (Z * Ptr)) (out : list (nat * nat)) : list (Z * Ptr) :=
  foldl (λ l o, if decide (o.1 = q) then Seq.insert_prio z (Some o.2) l else l) l out.

(** The state after copies [out] of [m] were pushed, from [b]. *)
Record fanned (b : broker) (number : Z) (m : Message) (out : list (nat * nat)) (b' : broker) : Prop := {
  fa_state : b' = set_br_world (br_world b') (set_br_fresh (br_fresh b') b);
  fa_world : wf_world (br_world b');
  fa_fresh : ∀ i, (br_fresh b' <= i)%nat → heap (br_world b') !! i = None;
  fa_old : ∀ i, (i < br_fresh b)%nat → heap (br_world b') !! i = heap (br_world b) !! i;
  fa_copies : Forall (λ o, (br_fresh b <= o.2 < br_fresh b')%nat ∧ heap (br_world b') !! o.2 = Some (pushed number m)) out;
  fa_nodup : NoDup out.*2;
  fa_queues : ∀ q, queue_abs (br_world b') q = joined (bandOf (Some (priority (jmsHeaders m)))) q (queue_abs (br_world b) q) out;
  fa_open : ∀ q, is_Some (queues (br_world b) !! q) → is_Some (queues (br_world b') !! q);
  fa_mono : (br_fresh b <= br_fresh b')%nat
}.

Lemma queue_abs_other w w' q : queues w' !! q = queues w !! q → queue_abs w' q = queue_abs w q.
Proof. unfold queue_abs. by intros ->. Qed.

Lemma fanned_push b number producer p m out b' c cons :
  plain_send b producer p m → (p < br_fresh b)%nat → fanned b number m out b' →
  br_consumers b !! c = Some cons → is_Some (queues (br_world b) !! cs_queue cons) →
  ∃ b'' out', push c number producer p b' = Ok tt b'' ∧ fanned b number m (out ++ out') b'' ∧ out'.*1 = targets b m [c].
Proof.
  intros Hsend Hp Hf Hc Hq. pose proof Hf as [F1 F2 F3 F4 F5 F6 F7 F8 F9].
  assert (Hsend' : plain_send b' producer p m).
  { destruct Hsend as [H1 H2 H3 H4 H5]. rewrite F1. split; try done. simpl. by rewrite F4. }
  assert (Hc' : br_consumers b' !! c = Some cons) by (by rewrite F1).
  assert (Ht : targets b m [c] = if matchesSelector (cs_selector cons) m then [cs_queue cons] else []).
  { unfold targets. csimpl. rewrite Hc. by destruct (matchesSelector _ _). }
  rewrite Ht. destruct (matchesSelector (cs_selector cons) m) eqn:Hm.
  - destruct (push_plain c cons number producer p m b' Hc' Hsend' F2 (F8 _ Hq) (F3 _ (le_n _)) Hm)
      as (w' & P1 & P2 & P3 & P4 & P5 & P6).
    exists (set_br_world w' (set_br_fresh (S (br_fresh b')) b')), [(cs_queue cons, br_fresh b')].
    split; [done|]. split; [|done]. split; cbn [br_world br_fresh set_br_world set_br_fresh].
    + by rewrite F1.
    + done.
    + intros i Hi. rewrite P3, lookup_insert_ne by lia. apply F3. lia.
    + intros i Hi. rewrite P3, lookup_insert_ne by lia. by apply F4.
    + apply Forall_app. split.
      * eapply Forall_impl; [|exact F5]. intros o [Ho1 Ho2]. split; [lia|]. rewrite P3. by rewrite lookup_insert_ne by lia.
      * constructor; [|constructor]. cbn [snd]. split; [lia|]. rewrite P3. apply lookup_insert_eq.
    + rewrite fmap_app. apply list.NoDup_app. split; [done|]. split; [|apply NoDup_singleton].
      intros i (o & -> & Ho)%list_elem_of_fmap Hi. csimpl in Hi. apply list_elem_of_singleton in Hi.
      pose proof (proj1 (list.Forall_forall _ _) F5 o Ho) as [Hr _]. lia.
    + intros q. unfold joined. rewrite foldl_app. cbn [foldl fst snd]. case_decide as Hq'.
      * subst. rewrite P4. f_equal. apply F7.
      * rewrite (queue_abs_other (br_world b') w' q) by (by apply P5). apply F7.
    + intros q Hq'. destruct (decide (q = cs_queue cons)) as [->|Hne]; [done|]. rewrite P5 by done. by apply F8.
    + lia.
  - exists b', []. rewrite app_nil_r. split; [|done]. unfold push. rewrite (bind_ok _ _ _ _ _ (bConsumer_get _ _ _ Hc')).
    rewrite (bind_ok _ _ _ _ _ (message_get _ _ _ (ps_message _ _ _ _ Hsend'))). by rewrite Hm.
Qed.
Lemma targets_app b m cs cs' : targets b m (cs ++ cs') = targets b m cs ++ targets b m cs'.
Proof. apply bind_app. Qed.

(** The consumers of a destination that a send reaches: all of a topic's, the first
    of a queue's in iteration order. *)
Definition recipients (x : Destination) : list nat :=
  if isQueueFamily x then take 1 (iter_set (ds_consumers x)) else iter_set (ds_consumers x).

Lemma fanned_pushAll b number producer p m qf cs : ∀ out b',
  plain_send b producer p m → (p < br_fresh b)%nat → fanned b number m out b' →
  Forall (λ c, ∃ cons, br_consumers b !! c = Some cons ∧ is_Some (queues (br_world b) !! cs_queue cons)) cs →
  ∃ b'' out', pushAll qf number producer p cs b' = Ok tt b'' ∧ fanned b number m (out ++ out') b'' ∧
    out'.*1 = targets b m (if qf then take 1 cs else cs).
Proof.
  induction cs as [|c cs IH]; intros out b' Hsend Hp Hf Hcs.
  { exists b', []. rewrite app_nil_r. split; [done|]. split; [done|]. by destruct qf. }
  apply Forall_cons_1 in Hcs as [(cons & Hc & Hq) Hcs].
  destruct (fanned_push b number producer p m out b' c cons) as (b1 & o1 & P1 & P2 & P3); try done.
  cbn [pushAll]. rewrite (bind_ok _ _ _ _ _ P1). destruct qf; [by exists b1, o1|].
  destruct (IH (out ++ o1) b1) as (b2 & o2 & Q1 & Q2 & Q3); try done. cbn iota in Q3.
  exists b2, (o1 ++ o2). split; [done|]. rewrite app_assoc. split; [done|].
  rewrite fmap_app, P3, Q3. by rewrite <-(targets_app b m [c] cs).
Qed.

(** C18. A non-persistent send reaches exactly the consumers it is for: outside a
    transaction, a non-persistent message without a delivery time goes, as a copy of its
    own with the destination's next number, to the queue of every consumer of a topic
    whose selector accepts it, or of the one consumer that represents a queue, once,
    behind what is there with its priority; every other queue stays as it was. Any
    number of consumers may share a storage. *)
Theorem save_fans_out b d x producer p m :
  br_destinations b !! d = Some x → plain_send b producer p m → wf_world (br_world b) →
  (∀ i, (br_fresh b <= i)%nat → heap (br_world b) !! i = None) →
  (∀ c, c ∈ iter_set (ds_consumers x) →
    ∃ cons, br_consumers b !! c = Some cons ∧ is_Some (queues (br_world b) !! cs_queue cons)) →
  ∃ b' out, save d producer p b = Ok tt b' ∧ out.*1 = targets b m (recipients x) ∧ NoDup out.*2 ∧
    Forall (λ o, heap (br_world b) !! o.2 = None ∧
      heap (br_world b') !! o.2 = Some (pushed (ds_messageCounter x) m)) out ∧
    ∀ q, queue_abs (br_world b') q
      = joined (bandOf (Some (priority (jmsHeaders m)))) q (queue_abs (br_world b) q) out.
Proof.
  intros Hd Hsend Hw Hfresh Hcons. unfold save. rewrite (bind_ok _ _ _ _ _ (bDest_get _ _ _ Hd)).
  set (x1 := set_ds_messageCounter (wrapS 64 (ds_messageCounter x + 1)) x).
  set (b1 := set_br_destinations (<[d := x1]> (br_destinations b)) b).
  assert (H1 : bDest d (modify (set_ds_messageCounter (wrapS 64 (ds_messageCounter x + 1)))) b = Ok tt b1).
  { unfold bDest. by rewrite (zoom_ok _ _ _ b x tt x1). }
  cbv zeta. rewrite (bind_ok _ _ _ _ _ H1).
  assert (Hp : (p < br_fresh b)%nat).
  { destruct (decide (p < br_fresh b)%nat) as [Hp|Hp]; [done|]. pose proof (ps_message _ _ _ _ Hsend) as Hm.
    by rewrite Hfresh in Hm by lia. }
  assert (Hsend1 : plain_send b1 producer p m) by (by destruct Hsend; split).
  destruct (fanned_pushAll b1 (ds_messageCounter x) producer p m (isQueueFamily x) (iter_set (ds_consumers x)) [] b1)
    as (b2 & out & P1 & P2 & P3); try done.
  { split; try done; constructor. }
  { apply list.Forall_forall. intros c Hc. by apply Hcons. }
  rewrite (bind_ok _ _ _ _ _ P1). simpl in P2. destruct P2 as [F1 F2 F3 F4 F5 F6 F7 F8 F9].
  assert (Hm : heap (br_world b2) !! p = Some m) by (rewrite F4 by done; apply Hsend).
  rewrite (bind_ok _ _ _ _ _ (message_get _ _ _ Hm)). destruct Hsend as [(pr & s & S1 & S2 & S3) _ S4 _ _].
  erewrite (bind_ok _ _ _ _ _ (transactionIdOf_ok producer b2 pr s _ _)). Unshelve. 2, 3: by rewrite F1.
  rewrite S4, andb_false_r. exists b2, out. split; [done|]. split; [done|]. split; [done|]. split; [|done].
  eapply Forall_impl; [|exact F5]. intros o [Ho1 Ho2]. split; [|done]. apply Hfresh. simpl in Ho1. lia.
Qed.
End Send.
