(* ===== verification/Durability.v ===== *)
(** Persistent messages and their records: the record that a persistent send leaves in
    the storage before it returns, its removal by the acknowledgement, and what a
    shutdown and a new start keep. The storage is seen through its live records. *)
From S2P Require Import Prelude Property Message JsonInstance MessageFacts StorageRecord PriorityQueue World DeliveryScheduler LinearStorage StorageWorker TransactionBuffer InFlight Broker Consumer Destination Session Connection ConnectionFacts ConsumerFacts SendFacts.
From Stdlib Require Import Lia ZifyBool Sorted.

(** *** The storage as a list of live records *)

Definition record_of (re : Rec * entry) : Rec * bytes := (re.1, e_data re.2).
(** The live records of [s], with their data, are [l]; no tom is longer than [n]. *)
Definition stores (s : Storage) (l : list (Rec * bytes)) (n : Z) : Prop :=
  ∃ c, wf_storage s c ∧ within c n ∧ 0 <= n ∧ emptyUuid ∉ (live_uuid <$> liveAll c) ∧ l ≡ₚ record_of <$> liveAll c.
Definition uuids (l : list (Rec * bytes)) : list bytes := (λ rd, rec_uuid (rec_header rd.1)) <$> l.
(** How the broker names a record it remembers the place of. *)
Definition names (q r : Rec) : Prop :=
  rec_tomId q = rec_tomId r ∧ rec_offset q = rec_offset r ∧ rec_deleted (rec_header q) = 0 ∧
  (rec_uuid (rec_header q) = emptyUuid ∨ rec_uuid (rec_header q) = rec_uuid (rec_header r)).

Lemma uuids_live c : uuids (record_of <$> liveAll c) = live_uuid <$> liveAll c.
Proof.
  unfold uuids. rewrite <-list_fmap_compose. apply list_fmap_ext. intros i [r e] Hi. simpl.
  pose proof (liveAll_uuids c) as Hall. exact (Forall_lookup_1 _ _ _ _ Hall Hi).
Qed.
Lemma stores_perm s l l' n : stores s l n → l ≡ₚ l' → stores s l' n.
Proof. intros (c & H1 & H2 & H3 & H4 & H5) Hl. exists c. split_and!; try done. by rewrite <-Hl. Qed.
#[export] Instance uuids_perm : Proper ((≡ₚ) ==> (≡ₚ)) uuids.
Proof. intros l l' H. unfold uuids. by rewrite H. Qed.
Lemma stores_nodup s l n : stores s l n → NoDup (uuids l).
Proof. intros (c & Hwf & _ & _ & _ & ->). rewrite uuids_live. apply Hwf. Qed.

Section Stores.
Context (order : Storage → list Z) (Horder : ∀ s, iterates (order s) s).

Lemma dispatch_ok req s rep s' : StorageWorker.perform order req s = Ok rep s' → dispatch order req s = Ok rep s'.
Proof. unfold dispatch, catch. by intros ->. Qed.

Lemma storage_append_stores s l n u d :
  stores s l n → length u = 16%nat → u ≠ emptyUuid → d ≠ [] → u ∉ uuids l → n + 32 + Z.of_nat (length d) <= INT64_MAX →
  ∃ r s', storage_append u d s = Ok r s' ∧ stores s' ((r, d) :: l) (n + 32 + Z.of_nat (length d)) ∧
    rec_uuid (rec_header r) = u ∧ rec_tomId r ≠ UINT32_MAX.
Proof.
  intros (c & Hwf & Hin & Hn & He & Hl) Hu Hne Hd Hfresh Hroom. rewrite Hl, uuids_live in Hfresh.
  destruct (append_spec s c u d n Hwf Hin) as (r & s' & c' & A1 & A2 & A3 & A4 & _ & A6); try done.
  exists r, s'. split; [done|split; [|split; [done|]]].
  - exists c'. split_and!; try done; [lia| |by rewrite A3, Hl].
    rewrite A3. csimpl. intros [H|H]%elem_of_cons; [by apply Hne|done].
  - assert (Hr : (r, mkEntry u d false) ∈ liveAll c') by (rewrite A3; by left).
    apply liveAll_inv in Hr as (id & es1 & es2 & Hc & -> & _). simpl. intros ->.
    pose proof (wfs_ids _ _ A2 UINT32_MAX) as Hid. rewrite Hc in Hid. specialize (Hid ltac:(by eexists)). lia.
Qed.

Lemma append_stores s l n u d :
  stores s l n → length u = 16%nat → u ≠ emptyUuid → d ≠ [] → u ∉ uuids l → n + 32 + Z.of_nat (length d) <= INT64_MAX →
  ∃ r s', cls_append order u d s = Ok r s' ∧ stores s' ((r, d) :: l) (n + 32 + Z.of_nat (length d)) ∧
    rec_uuid (rec_header r) = u ∧ rec_tomId r ≠ UINT32_MAX.
Proof.
  intros Hs Hu Hne Hd Hfresh Hroom.
  destruct (storage_append_stores s l n u d Hs Hu Hne Hd Hfresh Hroom) as (r & s' & A1 & A2).
  exists r, s'. split; [|done]. unfold cls_append. erewrite (bind_ok _ _ _ _ _ (dispatch_ok _ s _ s' _)). Unshelve.
  3: { cbn [StorageWorker.perform]. by rewrite (bind_ok _ _ _ _ _ A1). }
  done.
Qed.

(** No record is at the place that stands for none. *)
Lemma stored_tom s l n r d : stores s ((r, d) :: l) n → rec_tomId r ≠ UINT32_MAX.
Proof.
  intros (c & Hwf & _ & _ & _ & Hl).
  assert (Hre : (r, d) ∈ record_of <$> liveAll c) by (rewrite <-Hl; by left).
  apply list_elem_of_fmap in Hre as ([r' e] & [= -> ->] & Hre). apply liveAll_inv in Hre as (id & es1 & es2 & Hc & -> & _).
  simpl. intros ->. pose proof (wfs_ids _ _ Hwf UINT32_MAX) as Hid. rewrite Hc in Hid. specialize (Hid ltac:(by eexists)). lia.
Qed.
Lemma remove_served s l n r d q :
  stores s ((r, d) :: l) n → names q r →
  ∃ rep s', dispatch order (REMOVE q) s = Ok rep s' ∧ cls_removeAsync order q s = Ok tt s' ∧ stores s' l n.
Proof.
  intros Hs (Q1 & Q2 & Q3 & Q4). pose proof (stored_tom _ _ _ _ _ Hs) as Htom. destruct Hs as (c & Hwf & Hin & Hn & He & Hl).
  assert (Hre : (r, d) ∈ record_of <$> liveAll c) by (rewrite <-Hl; by left).
  apply list_elem_of_fmap in Hre as ([r' e] & [= -> ->] & Hre).
  pose proof (proj1 (list.Forall_forall _ _) (liveAll_uuids c) (r', e) Hre) as Hu. simpl in Hu. rewrite Hu in Q4.
  assert (Hne : e_uuid e ≠ emptyUuid).
  { intros Heq. apply He. rewrite <-Heq. apply list_elem_of_fmap. by exists (r', e). }
  destruct (remove_spec s c r' e q Hwf Hre Hne Q1 Q2 Q3 Q4) as (s' & c' & R1 & R2 & R3 & R4 & _).
  assert (Hd : dispatch order (REMOVE q) s = Ok (reply_record (set_deleted 1 q) (posted (REMOVE q))) s').
  { apply dispatch_ok. cbn [StorageWorker.perform]. by rewrite (bind_ok _ _ _ _ _ R1). }
  do 2 eexists. split; [exact Hd|]. split.
  - unfold cls_removeAsync. replace (rec_tomId q =? UINT32_MAX) with false; [by rewrite (bind_ok _ _ _ _ _ Hd)|].
    symmetry. apply Z.eqb_neq. by rewrite Q1.
  - exists c'. split_and!; try done; [by apply R4| |].
    + rewrite R3 in He. csimpl in He. intros H. apply He. by right.
    + rewrite R3 in Hl. csimpl in Hl. by apply (Permutation_cons_inv (a := (r', e_data e))).
Qed.
Lemma remove_stores s l n r d q :
  stores s ((r, d) :: l) n → names q r →
  ∃ s', cls_removeAsync order q s = Ok tt s' ∧ stores s' l n.
Proof. intros Hs Hq. destruct (remove_served s l n r d q Hs Hq) as (rep & s' & _ & H). by exists s'. Qed.

(** A live record is found under its uuid. *)
Lemma find_stores s l n r d : stores s ((r, d) :: l) n →
  cls_record_uuid order (rec_uuid (rec_header r)) s = Ok r s ∧ names r r.
Proof.
  intros (c & Hwf & Hin & Hn & He & Hl).
  assert (Hre : (r, d) ∈ record_of <$> liveAll c) by (rewrite <-Hl; by left).
  apply list_elem_of_fmap in Hre as ([r' e] & [= -> ->] & Hre).
  pose proof (proj1 (list.Forall_forall _ _) (liveAll_uuids c) (r', e) Hre) as Hu. simpl in Hu.
  destruct (fetch_spec s c r' e Hwf Hre) as [Hf _]. rewrite Hu. split.
  - unfold cls_record_uuid. erewrite (bind_ok _ _ _ _ _ (dispatch_ok _ s _ s _)). Unshelve.
    3: { cbn [StorageWorker.perform]. by rewrite (bind_ok _ _ _ _ _ Hf). }
    done.
  - apply liveAll_inv in Hre as (id & es1 & es2 & _ & -> & Hdel). split_and!; try done; [|by right].
    unfold recOf. simpl. by rewrite Hdel.
Qed.

Lemma scan_stores s l n : stores s l n → ∃ l', cls_scan order s = Ok l' s ∧ l' ≡ₚ l.
Proof.
  intros (c & Hwf & _ & _ & _ & Hl). pose proof (wfs_toms _ _ Hwf) as Ht.
  pose proof (scan_spec s c (order s) (fuelOf s) Ht (Horder s) (fuelOf_enough s c Ht)) as Hs.
  destruct (order_live s c (order s) Ht (Horder s)) as [_ Hperm].
  eexists. split; [|by rewrite Hl, <-Hperm].
  unfold cls_scan. erewrite (bind_ok _ _ _ _ _ (dispatch_ok SCAN s _ s _)). Unshelve.
  3: { cbn [StorageWorker.perform]. unfold scanAll. unfold mbind, M_bind, get. rewrite Hs. cbn [require]. done. }
  done.
Qed.

Lemma reopen_stores s l n : stores s l n →
  let s0 := openStorage (tom_file <$> toms s) in
  ∃ s', rebuildIndex (fuelOf s0) (order s0) s0 = Ok true s' ∧ stores s' l n.
Proof.
  intros (c & Hwf & Hin & Hn & He & Hl) s0. pose proof (wfs_toms _ _ Hwf) as Ht.
  assert (Ht0 : toms_hold (toms s0) c) by by apply open_toms.
  destruct (open_spec s c (fuelOf s0) (order s0) Ht (wfs_uuids _ _ Hwf) (wfs_ids _ _ Hwf) (fuelOf_enough s0 c Ht0)) as (s' & H1 & H2).
  { unfold iterates. rewrite (Horder s0). unfold iterates. by rewrite (hold_keys _ _ Ht0), <-(hold_keys _ _ Ht). }
  exists s'. split; [done|]. by exists c.
Qed.
End Stores.

(** *** Sending and acknowledging a persistent message *)
Section Send.
Context {E : Environment} {EOk : EnvironmentOk E}.

(** A sender outside a transaction with a message that is due, persistent, has its
    uuid, and serialises to [data] under the number [number]. *)
Record persistent_send (b : broker) (producer p : nat) (m : Message) (number : Z) (data : bytes) : Prop := {
  pp_producer : ∃ pr s, br_producers b !! producer = Some pr ∧ br_sessions b !! pr_session pr = Some s ∧ ss_suffix s = "";
  pp_message : heap (br_world b) !! p = Some m;
  pp_persistent : isPersistent m = true;
  pp_uuid : length (uuid m) = 16%nat ∧ uuid m ≠ nullUUID;
  pp_due : deliveryTime (jmsHeaders m) = 0;
  pp_data : storageBytes (pushed number m) = Some data
}.
(** The copy of the message that is queued: its bytes and the place of its record. *)
Definition stored_copy (number : Z) (m : Message) (data : bytes) (r : Rec) : Message :=
  set_storageOffset (rec_offset r) (set_storageTomId (rec_tomId r) (set_cachedStorageBytes data (pushed number m))).
(** What resolveRecord makes of the place a message remembers. *)
Definition place (m : Message) : Rec := mkRec (storageTomId m) (storageOffset m) (mkHeader (uuid m) 0 0).

Lemma data_nonempty m data : storageBytes m = Some data → data ≠ [].
Proof. unfold storageBytes. destruct (toBytes m); intros [=]. by subst. Qed.

Lemma bStorage_run {A} sid (op : M Storage A) b s a s' : br_storages b !! sid = Some s → op s = Ok a s' →
  bStorage sid op b = Ok a (set_br_storages (<[sid := s']> (br_storages b)) b).
Proof. intros H1 H2. unfold bStorage. exact (zoom_ok _ _ op b s a s' H1 H2). Qed.

(** The state in which push has stored the copy, before it queues it. *)
Definition with_stored (sid : nat) (s' : Storage) (m : Message) (b : broker) : broker :=
  set_br_storages (<[sid := s']> (br_storages b)) (with_copy m b).

Lemma preparePush_stores c cons number producer p b m data s l n :
  br_consumers b !! c = Some cons → persistent_send b producer p m number data →
  br_storages b !! cs_storage cons = Some s → stores s l n → uuid m ∉ uuids l → n + 32 + Z.of_nat (length data) <= INT64_MAX →
  ∃ r s', preparePush c number producer p b = Ok (br_fresh b) (with_stored (cs_storage cons) s' (stored_copy number m data r) b) ∧
    stores s' ((r, data) :: l) (n + 32 + Z.of_nat (length data)) ∧ rec_uuid (rec_header r) = uuid m ∧ rec_tomId r ≠ UINT32_MAX.
Proof.
  intros Hc [(pr & ss & Hpr & Hss & Hsuf) Hp Hper [Hlen Hu] Hdue Hdata] Hs Hst Hfresh Hroom.
  destruct (append_stores iter_toms s l n (uuid m) data Hst Hlen Hu (data_nonempty _ _ Hdata) Hfresh Hroom)
    as (r & s' & A1 & A2 & A3 & A4).
  exists r, s'. split; [|done]. unfold preparePush.
  rewrite (bind_ok _ _ _ _ _ (bConsumer_get _ _ _ Hc)), (bind_ok _ _ _ _ _ (message_get _ _ _ Hp)).
  rewrite (bind_ok (alloc (copy m)) _ b (br_fresh b) (with_copy (copy m) b) eq_refl). unfold with_copy.
  rewrite (bind_ok _ _ _ _ _ (message_get _ _ _ (with_message_at (br_fresh b) (copy m) _))).
  rewrite decide_False, bind_ret by done.
  rewrite (bind_ok _ _ _ _ _ (bWorld_update (br_fresh b) _ _ _ (with_message_at _ _ _))).
  rewrite with_message_twice. fold (pushed number m).
  erewrite (bind_ok _ _ _ _ _ (transactionIdOf_ok producer _ pr ss _ _)). Unshelve. 2, 3: done.
  rewrite (bind_ok _ _ _ _ _ (message_get _ _ _ (with_message_at (br_fresh b) _ _))).
  change (isPersistent (pushed number m)) with (isPersistent m). rewrite Hper.
  set (b1 := with_message (br_fresh b) (pushed number m) (set_br_fresh (S (br_fresh b)) b)).
  assert (Hcached : bWorld (update (br_fresh b) (set_cachedStorageBytes data)) b1
    = Ok tt (with_copy (set_cachedStorageBytes data (pushed number m)) b)).
  { unfold b1. rewrite (bWorld_update (br_fresh b) _ _ (pushed number m) (with_message_at _ _ _)). by rewrite with_message_twice. }
  erewrite (bind_ok _ _ b1 tt (with_stored (cs_storage cons) s' (stored_copy number m data r) b)); [done|].
  rewrite Hdata. cbn [require]. rewrite bind_ret, (bind_ok _ _ _ _ _ Hcached), Hsuf, bool_decide_true by done. cbn [negb].
  set (b2 := with_copy (set_cachedStorageBytes data (pushed number m)) b).
  assert (Hs2 : br_storages b2 !! cs_storage cons = Some s) by done.
  rewrite (bind_ok _ _ _ _ _ (bStorage_run (cs_storage cons) (cls_append iter_toms (uuid m) data) b2 s r s' Hs2 A1)).
  rewrite (bWorld_update (br_fresh b) _ _ (set_cachedStorageBytes data (pushed number m))).
  2: { unfold b2, with_copy. simpl. apply lookup_insert_eq. }
  unfold b2, with_stored, with_copy. unfold with_message. simpl. by rewrite insert_insert_eq.
Qed.

Lemma place_names number m data r : rec_uuid (rec_header r) = uuid m → names (place (stored_copy number m data r)) r.
Proof. intros Hu. by split_and!; [..|right]. Qed.

Lemma push_stores c cons number producer p b m data s l n :
  br_consumers b !! c = Some cons → matchesSelector (cs_selector cons) m = true → persistent_send b producer p m number data →
  br_storages b !! cs_storage cons = Some s → stores s l n → uuid m ∉ uuids l → n + 32 + Z.of_nat (length data) <= INT64_MAX →
  wf_world (br_world b) → is_Some (queues (br_world b) !! cs_queue cons) → heap (br_world b) !! br_fresh b = None →
  ∃ b' r s', push c number producer p b = Ok tt b' ∧
    br_storages b' !! cs_storage cons = Some s' ∧ stores s' ((r, data) :: l) (n + 32 + Z.of_nat (length data)) ∧
    b' = set_br_world (br_world b') (with_stored (cs_storage cons) s' (stored_copy number m data r) b) ∧
    heap (br_world b') = <[br_fresh b := stored_copy number m data r]> (heap (br_world b)) ∧
    names (place (stored_copy number m data r)) r ∧ rec_tomId r ≠ UINT32_MAX ∧
    queue_abs (br_world b') (cs_queue cons) = Seq.insert_prio (bandOf (Some (priority (jmsHeaders m)))) (Some (br_fresh b))
      (queue_abs (br_world b) (cs_queue cons)) ∧
    wf_world (br_world b') ∧ is_Some (queues (br_world b') !! cs_queue cons) ∧
    ∀ q, q ≠ cs_queue cons → queues (br_world b') !! q = queues (br_world b) !! q.
Proof.
  intros Hc Hm Hsend Hs Hst Hfresh Hroom Hw Hq Hnew.
  destruct (preparePush_stores c cons number producer p b m data s l n Hc Hsend Hs Hst Hfresh Hroom)
    as (r & s' & P1 & P2 & P3 & P4).
  set (sc := stored_copy number m data r) in *. set (b1 := with_stored (cs_storage cons) s' sc b) in *.
  assert (Hw1 : wf_world (br_world b1)) by (by apply wf_world_new).
  assert (Hh1 : heap (br_world b1) !! br_fresh b = Some sc) by apply lookup_insert_eq.
  destruct (queue_enqueue_spec (br_world b1) (cs_queue cons) (Some (br_fresh b)) Hw1 Hq) as (w' & Q1 & Q2 & Q3 & Q4 & Q5 & Q6);
    [by eexists|].
  exists (set_br_world w' b1), r, s'. split; [|split_and!].
  - unfold push. rewrite (bind_ok _ _ _ _ _ (bConsumer_get _ _ _ Hc)), (bind_ok _ _ _ _ _ (message_get _ _ _ (pp_message _ _ _ _ _ _ Hsend))).
    rewrite Hm. cbn [negb]. rewrite (bind_ok _ _ _ _ _ P1).
    destruct Hsend as [(pr & ss & Hpr & Hss & Hsuf) _ _ _ Hdue _].
    erewrite (bind_ok _ _ _ _ _ (transactionIdOf_ok producer b1 pr ss _ _)). Unshelve. 2, 3: done.
    rewrite (bind_ok _ _ _ _ _ (message_get _ _ _ Hh1)), decide_True by done.
    change (deliveryTime (jmsHeaders sc)) with (deliveryTime (jmsHeaders m)). rewrite Hdue. cbn [Z.eqb].
    by rewrite (bWorld_ok _ _ _ _ Q1).
  - apply lookup_insert_eq.
  - done.
  - done.
  - simpl. by rewrite Q3.
  - by apply place_names.
  - done.
  - change (queue_abs (br_world (set_br_world w' b1)) (cs_queue cons)) with (queue_abs w' (cs_queue cons)).
    rewrite Q4. f_equal. unfold prio_of. simpl. by rewrite lookup_insert_eq.
  - done.
  - done.
  - exact Q5.
Qed.

(** A persistent send to a queue is on disk before it returns: outside a
    transaction, send leaves a new live record with exactly the bytes of the numbered
    copy, and the copy in the queue, behind what is there with its priority, knows the
    place of that record. *)
Theorem send_is_stored b d x c rest cons producer p m data s l n :
  br_destinations b !! d = Some x → isQueueFamily x = true → iter_set (ds_consumers x) = c :: rest →
  br_consumers b !! c = Some cons → matchesSelector (cs_selector cons) m = true →
  persistent_send b producer p m (ds_messageCounter x) data →
  br_storages b !! cs_storage cons = Some s → stores s l n → uuid m ∉ uuids l → n + 32 + Z.of_nat (length data) <= INT64_MAX →
  wf_world (br_world b) → is_Some (queues (br_world b) !! cs_queue cons) → heap (br_world b) !! br_fresh b = None →
  ∃ b' r s', save d producer p b = Ok tt b' ∧
    br_storages b' !! cs_storage cons = Some s' ∧ stores s' ((r, data) :: l) (n + 32 + Z.of_nat (length data)) ∧
    heap (br_world b') !! br_fresh b = Some (stored_copy (ds_messageCounter x) m data r) ∧
    names (place (stored_copy (ds_messageCounter x) m data r)) r ∧ rec_tomId r ≠ UINT32_MAX ∧
    queue_abs (br_world b') (cs_queue cons) = Seq.insert_prio (bandOf (Some (priority (jmsHeaders m)))) (Some (br_fresh b))
      (queue_abs (br_world b) (cs_queue cons)).
Proof.
  intros Hd Hfam Hiter Hc Hm Hsend Hs Hst Hfresh Hroom Hw Hq Hnew. unfold save.
  rewrite (bind_ok _ _ _ _ _ (bDest_get _ _ _ Hd)). cbv zeta.
  set (x1 := set_ds_messageCounter (wrapS 64 (ds_messageCounter x + 1)) x).
  set (b1 := set_br_destinations (<[d := x1]> (br_destinations b)) b).
  assert (H1 : bDest d (modify (set_ds_messageCounter (wrapS 64 (ds_messageCounter x + 1)))) b = Ok tt b1).
  { unfold bDest. by rewrite (zoom_ok _ _ _ b x tt x1). }
  rewrite (bind_ok _ _ _ _ _ H1).
  assert (Hsend1 : persistent_send b1 producer p m (ds_messageCounter x) data) by (by destruct Hsend; split).
  destruct (push_stores c cons (ds_messageCounter x) producer p b1 m data s l n) as (b' & r & s' & P1 & P2 & P3 & P0 & P4 & P5 & P6 & P7 & _);
    try done.
  exists b', r, s'. split; [|split_and!; try done; by rewrite P4, lookup_insert_eq]. rewrite Hiter. cbn [pushAll]. rewrite Hfam.
  assert (P1' : (_ ← push c (ds_messageCounter x) producer p; mret tt) b1 = Ok tt b') by (by rewrite (bind_ok _ _ _ _ _ P1)).
  rewrite (bind_ok _ _ _ _ _ P1').
  assert (Hk : isTopicFamily x = false) by (unfold isQueueFamily, isTopicFamily in *; destruct (ds_type x); done).
  assert (Hp : heap (br_world b') !! p = Some m).
  { rewrite P4, lookup_insert_ne; [apply Hsend|]. intros Heq. simpl in Heq. pose proof (pp_message _ _ _ _ _ _ Hsend) as Hm'.
    by rewrite <-Heq, Hnew in Hm'. }
  rewrite (bind_ok _ _ _ _ _ (message_get _ _ _ Hp)). destruct Hsend as [(pr & ss & Hpr & Hss & Hsuf) _ _ _ _ _].
  erewrite (bind_ok _ _ _ _ _ (transactionIdOf_ok producer b' pr ss _ _)). Unshelve. 2, 3: by rewrite P0.
  by rewrite Hk.
Qed.

(** The record [r] of the message [m]: the message remembers its place, or has none and
    is looked up by its uuid. *)
Definition locates (m : Message) (r : Rec) : Prop :=
  (storageTomId m ≠ UINT32_MAX ∧ names (place m) r) ∨ (storageTomId m = UINT32_MAX ∧ rec_uuid (rec_header r) = uuid m).
Lemma resolveRecord_stores sid m b st r d l n :
  br_storages b !! sid = Some st → stores st ((r, d) :: l) n → locates m r →
  ∃ q, resolveRecord sid m b = Ok q b ∧ names q r ∧ (rec_tomId q =? UINT32_MAX) = false.
Proof.
  intros Hst Hl Hm. pose proof (stored_tom _ _ _ _ _ Hl) as Htom. apply Z.eqb_neq in Htom. unfold resolveRecord.
  destruct Hm as [[Hm Hn]|[-> Hu]].
  - exists (place m). apply Z.eqb_neq in Hm. rewrite Hm. split; [done|]. split; [done|]. destruct Hn as [-> _]. done.
  - destruct (find_stores iter_toms st l n r d Hl) as [F1 F2]. rewrite Hu in F1. exists r. rewrite Z.eqb_refl. split; [|done].
    rewrite (bStorage_run _ _ _ _ _ _ Hst F1), insert_id by done. by destruct b.
Qed.
Lemma removeRecord_stores sid m b st r d l n :
  br_storages b !! sid = Some st → stores st ((r, d) :: l) n → locates m r →
  ∃ st', removeRecord sid m b = Ok tt (set_br_storages (<[sid := st']> (br_storages b)) b) ∧ stores st' l n.
Proof.
  intros Hst Hl Hm. destruct (resolveRecord_stores sid m b st r d l n Hst Hl Hm) as (q & Q1 & Q2 & Q3).
  destruct (remove_stores iter_toms st l n r d q Hl Q2) as (st' & R1 & R2). exists st'. split; [|done].
  unfold removeRecord. rewrite (bind_ok _ _ _ _ _ Q1), Q3. by apply (bStorage_run sid _ b st tt st').
Qed.

(** *** Dead letters *)

Definition reason : string := "JMSXDeadLetterReason".
Lemma deadLetter_reason m : properties m !! reason = None →
  properties (deadLetterOf m) !! reason = Some (PString (Some "maxRedeliveries exceeded")).
Proof.
  intros Hm. unfold deadLetterOf, setRawProperty, Props.setProperty. simpl. fold reason. rewrite ?Hm. simpl.
  by rewrite ?lookup_insert_eq.
Qed.

(** The letter of [m] with its record [r2] in the dead letter queue's storage. *)
Definition stored_letter (data : bytes) (r2 : Rec) (m : Message) : Message :=
  set_storageOffset (rec_offset r2) (set_storageTomId (rec_tomId r2) (set_cachedStorageBytes data (deadLetterOf m))).
(** A persistent message [m] with its record [r], among [l] in the storage [st] of its
    consumer, and the dead letter queue's own storage [st2], which has no record with
    its uuid and has room for the letter. *)
Record movable (b : broker) (cons : Consumer) (y : Destination) (m : Message) (r : Rec) (d : bytes)
    (l : list (Rec * bytes)) (n : Z) (l2 : list (Rec * bytes)) (n2 : Z) (data : bytes) : Prop := {
  mv_uuid : length (uuid m) = 16%nat ∧ uuid m ≠ nullUUID;
  mv_data : storageBytes (deadLetterOf m) = Some data;
  mv_apart : ds_storage y ≠ cs_storage cons;
  mv_source : ∃ st, br_storages b !! cs_storage cons = Some st ∧ stores st ((r, d) :: l) n ∧ locates m r;
  mv_target : ∃ st2, br_storages b !! ds_storage y = Some st2 ∧ stores st2 l2 n2;
  mv_fresh : uuid m ∉ uuids l2;
  mv_room : n2 + 32 + Z.of_nat (length data) <= INT64_MAX
}.

(** The letter's record is written before the letter is queued. *)
Lemma store_letter b0 cons y m r d l n l2 n2 data cp b :
  heap (br_world b) !! cp = Some (deadLetterOf m) → br_storages b = br_storages b0 →
  (isPersistent m = true → movable b0 cons y m r d l n l2 n2 data) →
  ∃ sts copy,
    (if isPersistent (deadLetterOf m) then
       data ← require (storageBytes (deadLetterOf m));
       rec ← bStorage (ds_storage y) (cls_append iter_toms (uuid (deadLetterOf m)) data);
       bWorld (update cp (λ m, set_storageOffset (rec_offset rec) (set_storageTomId (rec_tomId rec) (set_cachedStorageBytes data m))))
     else mret tt) b = Ok tt (with_message cp copy (set_br_storages sts b)) ∧
    if isPersistent m then
      ∃ r2 st2, copy = stored_letter data r2 m ∧ names (place copy) r2 ∧ sts = <[ds_storage y := st2]> (br_storages b0) ∧
        stores st2 ((r2, data) :: l2) (n2 + 32 + Z.of_nat (length data))
    else copy = deadLetterOf m ∧ sts = br_storages b0.
Proof.
  intros Hcp Hb Hmv. change (isPersistent (deadLetterOf m)) with (isPersistent m). destruct (isPersistent m).
  - destruct (Hmv eq_refl) as [[Hlen Hu] Hdata _ _ (st2 & Hst2 & Hl2) Hfresh Hroom].
    destruct (append_stores iter_toms st2 l2 n2 (uuid m) data Hl2 Hlen Hu (data_nonempty _ _ Hdata) Hfresh Hroom)
      as (r2 & st2' & A1 & A2 & A3 & A4).
    exists (<[ds_storage y := st2']> (br_storages b0)), (stored_letter data r2 m). split.
    + rewrite Hdata. cbn [require]. rewrite bind_ret. change (uuid (deadLetterOf m)) with (uuid m).
      rewrite <-Hb in Hst2. rewrite (bind_ok _ _ _ _ _ (bStorage_run _ _ _ _ _ _ Hst2 A1)), Hb.
      by rewrite (bWorld_update cp _ _ (deadLetterOf m)).
    + exists r2, st2'. split; [done|]. split; [by split_and!; [..|right]|done].
  - exists (br_storages b0), (deadLetterOf m). split; [|done]. rewrite <-Hb. unfold with_message.
    rewrite insert_id by done. by destruct b as [[]].
Qed.

(** C35. Dead-lettering moves the message: past the limit of a policy with a dead letter
    queue, a copy with its body, its final count and, when the message has none of its
    own yet, the reason arrives there once, deliverable at once at its own priority, and
    every other queue is as it was, its consumer's included; when nobody ever consumed
    from the dead letter queue no queue changes. For a persistent message, whose
    record the broker knows or finds by its uuid, the letter's own bytes are a new live
    record of the dead letter queue's storage, the queued copy knows its place, and of
    the storage it came from exactly its own record is gone; for a non-persistent one no
    storage changes. *)
Theorem dead_letter_moves b c cons x p m closing dlq y r d l n l2 n2 data :
  ready b c cons x → heap (br_world b) !! p = Some m → inS 32 (deliveryCount (jmsHeaders m) + 1) →
  over_limit (ds_redeliveryPolicy x) m = true → deadLetterQueue (ds_redeliveryPolicy x) = Some dlq →
  br_destinations b !! dlq = Some y → (∀ q, ds_queue y = Some q → is_Some (queues (br_world b) !! q)) →
  heap (br_world b) !! br_fresh b = None → (isPersistent m = true → movable b cons y m r d l n l2 n2 data) →
  ∃ b' copy, redeliver c p closing b = Ok tt b' ∧
    heap (br_world b') !! br_fresh b = Some copy ∧
    (properties m !! reason = None → properties copy !! reason = Some (PString (Some "maxRedeliveries exceeded"))) ∧
    match ds_queue y with
    | Some q =>
        queue_abs (br_world b') q
          = Seq.insert_prio (bandOf (Some (priority (jmsHeaders m)))) (Some (br_fresh b)) (queue_abs (br_world b) q) ∧
        ∀ q', q' ≠ q → queues (br_world b') !! q' = queues (br_world b) !! q'
    | None => queues (br_world b') = queues (br_world b)
    end ∧
    if isPersistent m then
      ∃ r2 st st2, copy = stored_letter data r2 m ∧ names (place copy) r2 ∧
        br_storages b' = <[cs_storage cons := st]> (<[ds_storage y := st2]> (br_storages b)) ∧
        stores st l n ∧ stores st2 ((r2, data) :: l2) (n2 + 32 + Z.of_nat (length data))
    else copy = deadLetterOf m ∧ br_storages b' = br_storages b.
Proof.
  intros Hr Hp Hc Hl Hd Hy Hqs Hfresh Hmv. rewrite (redeliver_start b c cons x p m closing) by done.
  destruct Hr as [R1 R2 R3 R4 R5]. set (b1 := with_message p (counted m) b).
  set (cp := br_fresh b). assert (Hpc : p ≠ cp) by (intros ->; unfold cp in *; congruence).
  set (b2 := with_message cp (deadLetterOf m) (set_br_fresh (S cp) b1)).
  destruct (store_letter b cons y m r d l n l2 n2 data cp b2 (with_message_at cp _ _) eq_refl Hmv)
    as (sts & copy & S1 & S2).
  set (b3 := with_message cp copy (set_br_storages sts b2)).
  assert (Hprio : deliveryTime (jmsHeaders copy) = 0 ∧ priority (jmsHeaders copy) = priority (jmsHeaders m) ∧
    properties copy = properties (deadLetterOf m)).
  { destruct (isPersistent m); [destruct S2 as (? & ? & -> & _)|destruct S2 as [-> _]]; done. }
  destruct Hprio as (Ht & Hpr & Hprops).
  assert (Hw3 : wf_world (br_world b3)).
  { destruct R3 as [W1 W2]. split; [done|]. intros q' bq z o Hq' Hin. specialize (W2 q' bq z o Hq' Hin).
    destruct o as [i|]; [|done]. simpl in *. do 3 (rewrite lookup_insert_is_Some'; right). done. }
  assert (Hqueue : ∃ w' k, match ds_queue y with
      | Some q => dest_enqueueOrSchedule dlq q (Some cp)
      | None => mret tt
      end b3 = Ok tt (set_br_world w' (ticks k b3)) ∧ heap w' = heap (br_world b3) ∧
    match ds_queue y with
    | Some q => queue_abs w' q = Seq.insert_prio (bandOf (Some (priority (jmsHeaders m)))) (Some cp) (queue_abs (br_world b) q) ∧
        ∀ q', q' ≠ q → queues w' !! q' = queues (br_world b) !! q'
    | None => queues w' = queues (br_world b)
    end).
  { destruct (ds_queue y) as [q|] eqn:Hq; [|exists (br_world b3), 0%nat; split; [by destruct b3|done]].
    destruct (enqueue_due dlq y q cp copy b3) as (w' & E1 & _ & E3 & E4 & E5 & _); try done.
    { simpl. by apply Hqs. }
    { apply with_message_at. }
    exists w', 2%nat. split; [done|]. split; [done|]. rewrite E4, Hpr. split; [done|exact E5]. }
  destruct Hqueue as (w' & k & Q1 & Q2 & Q3). set (b4 := set_br_world w' (ticks k b3)).
  assert (Hbody : deadLetter (cs_destination cons) p "maxRedeliveries exceeded" b1 = Ok tt b4).
  { unfold deadLetter, catch, deadLetterBody.
    erewrite (bind_ok _ _ _ _ _ (bDest_get _ _ x _)). Unshelve. 2: exact R2. rewrite Hd.
    rewrite (bind_ok _ _ _ _ _ (message_get p b1 (counted m) (with_message_at p _ b))).
    assert (Ha : alloc (deadLetterOf m) b1 = Ok cp b2) by done. fold (deadLetterOf m).
    rewrite (bind_ok _ _ _ _ _ Ha).
    rewrite (bind_ok _ _ _ _ _ (message_get cp b2 (deadLetterOf m) (with_message_at cp _ _))).
    erewrite (bind_ok _ _ _ _ _ (bDest_get _ _ y _)). Unshelve. 2: exact Hy.
    rewrite (bind_ok _ _ _ _ _ S1). fold b3. by rewrite Q1. }
  rewrite (bind_ok _ _ _ _ _ Hbody).
  assert (Hp4 : heap (br_world b4) !! p = Some (counted m)).
  { simpl. rewrite Q2. simpl. rewrite !lookup_insert_ne by done. apply lookup_insert_eq. }
  assert (Hcp4 : heap w' !! cp = Some copy) by (rewrite Q2; apply lookup_insert_eq).
  rewrite (bind_ok _ _ _ _ _ (message_get _ _ _ Hp4)). change (isPersistent (counted m)) with (isPersistent m).
  assert (Hreason : properties m !! reason = None → properties copy !! reason = Some (PString (Some "maxRedeliveries exceeded"))).
  { rewrite Hprops. apply deadLetter_reason. }
  destruct (isPersistent m).
  - destruct (Hmv eq_refl) as [_ _ Hapart (st & Hst & Hstores & Hloc) _ _ _].
    destruct S2 as (r2 & st2 & C1 & C2 & -> & C3).
    assert (Hst4 : br_storages b4 !! cs_storage cons = Some st) by (simpl; by rewrite lookup_insert_ne).
    destruct (removeRecord_stores (cs_storage cons) (counted m) b4 st r d l n Hst4 Hstores Hloc) as (st' & D1 & D2).
    rewrite D1. do 2 eexists. split; [done|]. split; [exact Hcp4|]. split; [done|]. split; [exact Q3|].
    by exists r2, st', st2.
  - destruct S2 as [-> ->]. do 2 eexists. split; [done|]. by split_and!.
Qed.

(** Flushing the delayed acknowledgements removes their records. *)
Lemma flush_stores sid qs : ∀ lp l b st n,
  br_storages b !! sid = Some st → stores st (lp ++ l) n → Forall2 names qs lp.*1 →
  ∃ st', for_each (λ rec, bStorage sid (cls_removeAsync iter_toms rec)) qs b
    = Ok tt (set_br_storages (<[sid := st']> (br_storages b)) b) ∧ stores st' l n.
Proof.
  induction qs as [|q qs IH]; intros lp l b st n Hst Hl Hq.
  - destruct lp as [|? lp]; [|by inversion Hq]. exists st. split; [|done]. simpl. rewrite insert_id by done. by destruct b.
  - destruct lp as [|[r d] lp]; [by inversion Hq|]. inversion Hq as [|? ? ? ? Hq1 Hqs]; subst; simpl in Hq1.
    destruct (remove_stores iter_toms st (lp ++ l) n r d q Hl Hq1) as (st1 & R1 & R2).
    set (b1 := set_br_storages (<[sid := st1]> (br_storages b)) b).
    destruct (IH lp l b1 st1 n) as (st' & F1 & F2); [apply lookup_insert_eq|done|done|]. exists st'. split; [|done].
    cbn [for_each]. rewrite (bind_ok _ _ _ _ _ (bStorage_run sid _ b st tt st1 Hst R1)).
    fold b1. rewrite F1. unfold b1, set_br_storages. simpl. by rewrite insert_insert_eq.
Qed.

Definition with_pendingAcks (c : nat) (cons : Consumer) (qs : list Rec) (b : broker) : broker :=
  set_br_consumers (<[c := set_pendingAcks qs cons]> (br_consumers b)) b.
Definition with_storage (sid : nat) (st : Storage) (b : broker) : broker :=
  set_br_storages (<[sid := st]> (br_storages b)) b.

End Send.

(** *** Shutdown and start *)
Section Reopen.
Context {E : Environment} {EOk : EnvironmentOk E} {TU : PocoTextOk env_text env_uuid}.

Lemma newStorage_stores dir b s l n : stores s l n → br_dirs b !! dir = Some (files s) →
  ∃ s', newStorage dir b = Ok (br_fresh b) (set_br_storages (<[br_fresh b := s']> (br_storages b)) (set_br_fresh (S (br_fresh b)) b)) ∧
    stores s' l n.
Proof.
  intros Hs Hdir. destruct (reopen_stores iter_toms iter_toms_ok s l n Hs) as (s' & R1 & R2). cbv zeta in R1.
  exists s'. split; [|done]. unfold newStorage. rewrite (bind_ok get _ b b b eq_refl).
  rewrite (bind_ok freshId _ b (br_fresh b) (set_br_fresh (S (br_fresh b)) b) eq_refl). rewrite Hdir. cbn [default from_option]. cbv zeta.
  set (s0 := openStorage (files s)). change (openStorage (tom_file <$> toms s)) with s0 in R1.
  set (b1 := set_br_storages (<[br_fresh b := s0]> (br_storages b)) (set_br_fresh (S (br_fresh b)) b)).
  match goal with |- context [modify ?f ≫= _] => rewrite (bind_ok (modify f) _ (set_br_fresh (S (br_fresh b)) b) tt b1 eq_refl) end.
  assert (Hb1 : br_storages b1 !! br_fresh b = Some s0) by apply lookup_insert_eq.
  assert (Hop : (s ← get; rebuildIndex (fuelOf s) (iter_toms s)) s0 = Ok true s') by (by rewrite (bind_ok get _ s0 s0 s0 eq_refl)).
  rewrite (bind_ok _ _ _ _ _ (bStorage_run (br_fresh b) _ b1 s0 true s' Hb1 Hop)).
  unfold b1, set_br_storages. simpl. by rewrite insert_insert_eq.
Qed.

Lemma restart_log b now : logOpens b = true →
  TransactionBuffer.restart iter_transactions now (freshTB true (transactionLog b)) = TransactionBuffer.restart iter_transactions now b.
Proof. intros Hb. unfold TransactionBuffer.restart, mbind, M_bind, loadTransactionLog, modify. simpl. by rewrite Hb. Qed.

(** C13. Shutting a destination down and creating it again over its directory loses
    nothing that was stored and keeps nothing that was not committed: the new
    destination's storage has the same live records, and its transaction buffer no
    open transaction. *)
Theorem reopen_keeps p d x s l n type name :
  br_destinations (pc_broker p) !! d = Some x → br_storages (pc_broker p) !! ds_storage x = Some s → stores s l n →
  log_ok (ds_transactionBuffer x) → log_opens (ds_path x) = true →
  ∃ p1 d' p2 y s', destroyDestination d p = Ok tt p1 ∧ newDestination type name (ds_path x) p1 = Ok d' p2 ∧
    br_destinations (pc_broker p2) !! d' = Some y ∧ ds_type y = type ∧ ds_name y = name ∧ ds_consumers y = ∅ ∧
    br_storages (pc_broker p2) !! ds_storage y = Some s' ∧ stores s' l n ∧ tb_holds (ds_transactionBuffer y) ∅.
Proof.
  intros Hd Hs Hl Hlog Hopen.
  assert (Hdes : ∃ p1, destroyDestination d p = Ok tt p1 ∧ br_dirs (pc_broker p1) !! ds_path x = Some (files s) ∧
    pc_logs p1 !! ds_path x = Some (transactionLog (ds_transactionBuffer x))).
  { unfold destroyDestination. rewrite (bind_ok get _ p p p eq_refl). cbv zeta. rewrite Hd. cbn [require].
    rewrite bind_ret. eexists. split; [reflexivity|]. simpl. unfold leave at 1. rewrite Hs.
    split; apply lookup_insert_eq. }
  destruct Hdes as (p1 & Hdes & Hdir & Hlogs). exists p1. unfold newDestination.
  destruct (newStorage_stores (ds_path x) (pc_broker p1) s l n Hl Hdir) as (s' & N1 & N2).
  rewrite (bind_ok _ _ _ _ _ (pBroker_ok _ p1 _ _ N1)).
  set (b1 := set_br_storages _ _). set (now := clock (br_reads b1)).
  rewrite (bind_ok _ _ _ _ _ (pBroker_ok readClock (set_broker b1 p1) now (set_br_reads (S (br_reads b1)) b1) eq_refl)).
  set (p2 := set_broker _ (set_broker b1 p1)). rewrite (bind_ok get _ p2 p2 p2 eq_refl).
  change (pc_logs p2) with (pc_logs p1). rewrite Hlogs, Hopen. cbn [default from_option id].
  rewrite restart_log by apply Hlog.
  destruct (restart_sim iter_transactions iter_transactions_ok (ds_transactionBuffer x) now Hlog) as (tb & T1 & T2 & _).
  rewrite T1. do 4 eexists. split; [exact Hdes|]. split; [reflexivity|]. simpl. rewrite lookup_insert_eq. split; [done|].
  do 3 (split; [done|]). rewrite lookup_insert_eq. done.
Qed.
End Reopen.
