(* ===== verification/Replay.v ===== *)
(** The replay of stored messages: a consumer that is created over a storage, after a
    restart or when a durable subscriber comes back, is delivered what the storage
    holds; what is not due yet is armed on the scheduler. *)
From S2P Require Import Prelude Property Message JsonInstance MessageFacts StorageRecord PriorityQueue World DeliveryScheduler LinearStorage StorageWorker TransactionBuffer InFlight Broker Consumer Destination Session Connection ConnectionFacts ConsumerFacts SendFacts Durability.
From Stdlib Require Import Lia ZifyBool Sorted.

(** *** Queues as sorted insertion *)
Section InsertBy.
Context {A : Type} (key : A → Z).
Fixpoint insert_by (x : A) (l : list A) : list A :=
  match l with
  | [] => [x]
  | y :: l' => if key y <? key x then x :: l else y :: insert_by x l'
  end.
Definition inserted (l : list A) : list A := foldl (λ l x, insert_by x l) [] l.
Definition descending : list A → Prop := StronglySorted (λ x y, key y <= key x).

Lemma insert_by_perm x l : insert_by x l ≡ₚ x :: l.
Proof. induction l as [|y l IH]; simpl; [done|]. case_match; [done|]. rewrite IH. by constructor. Qed.
Lemma insert_by_descending x l : descending l → descending (insert_by x l).
Proof.
  unfold descending. induction 1 as [|y l Hl IH Hy]; simpl; [repeat constructor|]. case_match eqn:Hlt.
  - constructor; [by constructor|]. constructor; [lia|]. eapply Forall_impl; [|exact Hy]. intros z Hz. simpl in Hz. lia.
  - constructor; [done|]. rewrite insert_by_perm. constructor; [lia|done].
Qed.
Lemma inserted_perm l : inserted l ≡ₚ l.
Proof.
  unfold inserted. rewrite <-(app_nil_r l) at 2. generalize (@nil A). induction l as [|x l IH]; intros k; simpl; [done|].
  rewrite IH, insert_by_perm. by rewrite Permutation_middle.
Qed.
Lemma inserted_descending l : descending (inserted l).
Proof.
  unfold inserted. assert (H : descending []) by constructor. revert H. generalize (@nil A).
  induction l as [|x l IH]; intros k Hk; simpl; [done|]. by apply IH, insert_by_descending.
Qed.
End InsertBy.
Lemma inserted_fmap {A B} (f : A → B) key l : inserted key (f <$> l) = f <$> inserted (λ x, key (f x)) l.
Proof.
  unfold inserted. change (@nil B) with (f <$> []) at 1. generalize (@nil A).
  assert (Hi : ∀ x k, insert_by key (f x) (f <$> k) = f <$> insert_by (λ x, key (f x)) x k).
  { intros x k. induction k as [|y k IH]; csimpl; [done|]. case_match; [done|]. by rewrite IH. }
  induction l as [|x l IH]; intros k; csimpl; [done|]. by rewrite Hi, IH.
Qed.
Lemma insert_prio_by {A} z (x : A) l : Seq.insert_prio z x l = insert_by fst (z, x) l.
Proof. induction l as [|[z' y] l IH]; simpl; [done|]. case_match; [done|]. by rewrite IH. Qed.

(** *** The clock *)
Section Clock.
Context {E : Environment}.

Context (Hclock : steady).

(** What the destination does with a message whose delivery time is sane: it is due
    and goes to the queue, or is armed on the scheduler. *)
Lemma enqueue_or_arm d x q p m b :
  br_destinations b !! d = Some x → wf_world (br_world b) → is_Some (queues (br_world b) !! q) →
  heap (br_world b) !! p = Some m → let t := deliveryTime (jmsHeaders m) in
  0 <= t <= startOf b + kMaxFutureHeaderMs → stopped (ds_scheduler x) = false →
  if t <=? nowAt (S (br_reads b)) then
    ∃ w', dest_enqueueOrSchedule d q (Some p) b = Ok tt (set_br_world w' (ticks 2 b)) ∧ wf_world w' ∧
      heap w' = heap (br_world b) ∧
      queue_abs w' q = Seq.insert_prio (bandOf (Some (priority (jmsHeaders m)))) (Some p) (queue_abs (br_world b) q) ∧
      is_Some (queues w' !! q) ∧ (∀ q', q' ≠ q → queues w' !! q' = queues (br_world b) !! q')
  else dest_enqueueOrSchedule d q (Some p) b
    = Ok tt (set_br_destinations (<[d := set_ds_scheduler (arm t (DeliveryScheduler.mkEntry q (Some p)) (ds_scheduler x)) x]> (br_destinations b)) (ticks 2 b)).
Proof.
  intros Hd Hw Hq Hp t Ht Hst. pose proof (nowAt_range Hclock (br_reads b)) as Hr. pose proof (nowAt_range Hclock (S (br_reads b))) as Hr2.
  assert (Hrun : ∀ sw', enqueueOrSchedule (nowAt (br_reads b)) (nowAt (S (br_reads b))) q (Some p) (ds_scheduler x, br_world b) = Ok tt sw' →
    dest_enqueueOrSchedule d q (Some p) b
      = Ok tt (set_br_world sw'.2 (set_br_destinations (<[d := set_ds_scheduler sw'.1 x]> (br_destinations b)) (ticks 2 b)))).
  { intros sw' Hsw. unfold dest_enqueueOrSchedule.
    rewrite (bind_ok nowMs _ b (nowAt (br_reads b)) (ticks 1 b) eq_refl).
    rewrite (bind_ok nowMs _ (ticks 1 b) (nowAt (S (br_reads b))) (ticks 2 b) eq_refl).
    unfold bSched. rewrite (zoom_ok _ _ _ (ticks 2 b) (ds_scheduler x, br_world b) tt sw'); [|by simpl; rewrite Hd|done].
    f_equal. unfold set_br_world, set_br_destinations. simpl. f_equal.
    apply map_eq. intros i. rewrite lookup_alter. case_decide; subst; [by rewrite Hd, lookup_insert_eq|by rewrite lookup_insert_ne]. }
  assert (Hsan : onWorld (sanitisedDeliveryTime (nowAt (br_reads b)) (Some p)) (ds_scheduler x, br_world b) = Ok t (ds_scheduler x, br_world b)).
  { unfold onWorld, sanitisedDeliveryTime, deref. mrun. rewrite Hp. fold t. destruct (0 <? t) eqn:H0; [|done].
    unfold checkS. rewrite decide_True by (unfold inS; change (2 ^ (64 - 1)) with (INT64_MAX + 1); unfold startOf, kMaxFutureHeaderMs, INT64_MAX in *; lia).
    mrun. replace (kMaxFutureHeaderMs <? _) with false by (unfold startOf in Ht; lia). done. }
  destruct (t <=? nowAt (S (br_reads b))) eqn:Hdue.
  - destruct (queue_enqueue_spec (br_world b) q (Some p) Hw Hq) as (w' & Q1 & Q2 & Q3 & Q4 & Q5 & Q6); [by exists m|].
    exists w'. rewrite (Hrun (ds_scheduler x, w')).
    + split; [|split_and!; try done; rewrite Q4; unfold prio_of; simpl; by rewrite Hp].
      simpl. rewrite insert_id; [by destruct b|]. rewrite Hd. by destruct x.
    + unfold enqueueOrSchedule. rewrite (bind_ok _ _ _ _ _ Hsan), Hdue, orb_true_r. unfold onWorld. by rewrite Q1.
  - rewrite (Hrun (arm t (DeliveryScheduler.mkEntry q (Some p)) (ds_scheduler x), br_world b)); [by destruct b|].
    unfold enqueueOrSchedule. rewrite (bind_ok _ _ _ _ _ Hsan), Hdue. replace (t =? 0) with false by lia. cbn [orb].
    rewrite (bind_ok (gets fst) _ (ds_scheduler x, br_world b) (ds_scheduler x) _ eq_refl), Hst. done.
Qed.
End Clock.

(** *** Restart *)
Section Restart.
Context {E : Environment} {EOk : EnvironmentOk E} {JOk : PocoJsonOk env_json} (Hclock : steady).

(** The record [rd] is the stored form of the message [m], whose delivery time a
    replay that starts at [now] does not take for garbage. *)
Definition stored_as (now : Z) (rd : Rec * bytes) (m : Message) : Prop :=
  codable_message m ∧ isPersistent m = true ∧ storageBytes m = Some rd.2 ∧ rec_uuid (rec_header rd.1) = uuid m ∧
  0 <= deliveryTime (jmsHeaders m) <= now + kMaxFutureHeaderMs.
(** What it is delivered as: the message, knowing the place of its record. *)
Definition restored (rm : (Rec * bytes) * Message) : Message :=
  set_storageOffset (rec_offset rm.1.1) (set_storageTomId (rec_tomId rm.1.1) (arrived rm.2)).
Definition dueTime (rm : (Rec * bytes) * Message) : Z := deliveryTime (jmsHeaders rm.2).

Lemma same_deliveryTime m : upd_hdr (set_deliveryTime (deliveryTime (jmsHeaders m))) m = m.
Proof. by destruct m as [? ? ? ? ? ? ? ? [] ? ?]. Qed.
Lemma replayed_sane now rd m : 0 <= deliveryTime (jmsHeaders m) <= now + kMaxFutureHeaderMs →
  replayed now rd.1 m = restored (rd, m).
Proof.
  intros Hd. unfold replayed, restored. cbn zeta. replace (_ || _) with false by lia. by rewrite same_deliveryTime.
Qed.

Definition replayRecord (d q : nat) (rd : Rec * bytes) : M broker unit :=
  now ← nowMs;
  match shellOf now rd.1 rd.2 with
  | None => mret tt
  | Some m => p ← alloc m; dest_enqueueOrSchedule d q (Some p)
  end.
Lemma replay_loop_eq d q l :
  for_each (λ '(record, data), now ← nowMs; match shellOf now record data with
    | None => mret tt | Some m => p ← alloc m; dest_enqueueOrSchedule d q (Some p) end) l = for_each (replayRecord d q) l.
Proof. induction l as [|[r data] l IH]; simpl; [done|]. by rewrite IH. Qed.

Lemma band_clamp p : bandOf (Some (clamp 0 9 p)) = bandOf (Some p).
Proof. unfold bandOf, clampBand, clamp. repeat case_match; lia. Qed.

(** A destination whose scheduler was changed, and a state with its next object. *)
Definition with_scheduler (d : nat) (sch : scheduler) (x : Destination) (b : broker) : broker :=
  set_br_destinations (<[d := set_ds_scheduler sch x]> (br_destinations b)) b.

Lemma replay_one d x q rd m b :
  br_destinations b !! d = Some x → wf_world (br_world b) → is_Some (queues (br_world b) !! q) →
  heap (br_world b) !! br_fresh b = None → stored_as (startOf b) rd m → stopped (ds_scheduler x) = false →
  ∃ w' sh, rehydrated sh = Some (restored (rd, m)) ∧ wf_world w' ∧ is_Some (queues w' !! q) ∧
    heap w' = <[br_fresh b := sh]> (heap (br_world b)) ∧
    let b1 := set_br_world w' (set_br_fresh (S (br_fresh b)) (ticks 3 b)) in
    if deliveryTime (jmsHeaders m) <=? nowAt (S (S (br_reads b))) then
      replayRecord d q rd b = Ok tt b1 ∧
      queue_abs w' q = Seq.insert_prio (bandOf (Some (priority (jmsHeaders m)))) (Some (br_fresh b)) (queue_abs (br_world b) q)
    else
      replayRecord d q rd b = Ok tt (with_scheduler d
        (arm (deliveryTime (jmsHeaders m)) (DeliveryScheduler.mkEntry q (Some (br_fresh b))) (ds_scheduler x)) x b1) ∧
      queue_abs w' q = queue_abs (br_world b) q.
Proof.
  intros Hd Hw Hq Hnew (Hm & Hper & Hdata & Hu & Hsane) Hst. unfold replayRecord.
  rewrite (bind_ok nowMs _ b (startOf b) (ticks 1 b) eq_refl).
  destruct (replay_restores (startOf b) rd.1 m rd.2 Hm Hper Hdata Hu) as (sh & Hsh & Hre & Hprio & Hdt).
  rewrite Hsh. rewrite replayed_sane in Hre, Hdt by done. change (deliveryTime (jmsHeaders (restored (rd, m)))) with (deliveryTime (jmsHeaders m)) in Hdt.
  set (b1 := with_message (br_fresh b) sh (set_br_fresh (S (br_fresh b)) (ticks 1 b))).
  rewrite (bind_ok (alloc sh) _ (ticks 1 b) (br_fresh b) b1 eq_refl).
  assert (Hs1 : startOf b <= startOf b1) by (apply nowAt_mono; [done|]; simpl; lia).
  pose proof (enqueue_or_arm Hclock d x q (br_fresh b) sh b1) as Ha. cbv zeta in Ha. rewrite Hdt in Ha.
  specialize (Ha Hd ltac:(by apply wf_world_new) Hq ltac:(apply lookup_insert_eq) ltac:(lia) Hst).
  change (nowAt (S (br_reads b1))) with (nowAt (S (S (br_reads b)))) in Ha.
  destruct (deliveryTime (jmsHeaders m) <=? nowAt (S (S (br_reads b)))).
  - destruct Ha as (w' & E1 & E2 & E3 & E4 & E5 & _). exists w', sh. split_and!; try done. rewrite E4, Hprio. by rewrite band_clamp.
  - exists (br_world b1), sh. split_and!; try done. by apply wf_world_new.
Qed.

(** The band of a message to be restored. *)
Definition band (rm : (Rec * bytes) * Message) : Z := bandOf (Some (priority (jmsHeaders rm.2))).
Notation replayed_copy := (nat * ((Rec * bytes) * Message))%type.
(** The entries the scheduler holds after [later] was armed for the queue [q]. *)
Definition armed (q : nat) (l : list (Z * Entry)) (later : list replayed_copy) : list (Z * Entry) :=
  foldl (λ l o, emplace (dueTime o.2) (DeliveryScheduler.mkEntry q (Some o.1)) l) l later.
(** The address [o.1] has a message that recv hands out as what [o.2] stored. *)
Definition restored_at (b : broker) (o : replayed_copy) : Prop :=
  ∃ sh, heap (br_world b) !! o.1 = Some sh ∧ rehydrated sh = Some (restored o.2).

(** A replay into [q] that started in [b0], where the destination [d] was [x], has put
    [due] there, in this order, and has armed [later]. *)
Record replaying (b0 : broker) (d : nat) (x : Destination) (q : nat) (sch : scheduler) (due later : list replayed_copy) (b : broker) : Prop := {
  ry_state : b = set_br_world (br_world b) (with_scheduler d sch x (set_br_fresh (br_fresh b) (set_br_reads (br_reads b) b0)));
  ry_world : wf_world (br_world b);
  ry_open : is_Some (queues (br_world b) !! q);
  ry_fresh : ∀ i, (br_fresh b <= i)%nat → heap (br_world b) !! i = None;
  ry_heap : Forall (restored_at b) (due ++ later);
  ry_range : Forall (λ o, o.1 < br_fresh b)%nat (due ++ later);
  ry_nodup : NoDup (due ++ later).*1;
  ry_queue : queue_abs (br_world b) q = inserted fst ((λ o, (band o.2, Some o.1)) <$> due);
  ry_pending : DeliveryScheduler.pending sch = armed q (DeliveryScheduler.pending (ds_scheduler x)) later;
  ry_thread : later ≠ [] → is_Some (thread sch);
  ry_running : stopped sch = false;
  ry_reads : (br_reads b0 <= br_reads b)%nat;
  ry_due : Forall (λ o, dueTime o.2 <= nowAt (br_reads b)) due;
  ry_later : Forall (λ o, startOf b0 < dueTime o.2) later
}.

(** What a step of the replay adds to the copies made so far, wherever it goes. *)
Lemma copies_grow b out i sh rm w' : Forall (restored_at b) out → Forall (λ o, o.1 < br_fresh b)%nat out →
  NoDup (out.*1) → i = br_fresh b → heap w' = <[i := sh]> (heap (br_world b)) → rehydrated sh = Some (restored rm) →
  ∀ b' out', out' ≡ₚ (i, rm) :: out → br_world b' = w' → br_fresh b' = S (br_fresh b) →
  Forall (restored_at b') out' ∧ Forall (λ o, o.1 < br_fresh b')%nat out' ∧ NoDup (out'.*1).
Proof.
  intros H1 H2 H3 -> Hh Hre b' out' Hperm Hw Hf. symmetry in Hperm. split; [|split].
  - apply (Permutation_Forall Hperm). constructor.
    + exists sh. rewrite Hw, Hh. split; [apply lookup_insert_eq|done].
    + apply list.Forall_forall. intros o Ho. destruct (proj1 (list.Forall_forall _ _) H1 o Ho) as (sh' & E1 & E2).
      pose proof (proj1 (list.Forall_forall _ _) H2 o Ho) as Hlt. cbv beta in Hlt.
      exists sh'. split; [|done]. by rewrite Hw, Hh, lookup_insert_ne by lia.
  - apply (Permutation_Forall Hperm). constructor; [simpl; lia|]. eapply Forall_impl; [|exact H2]. intros o Ho. simpl in Ho. lia.
  - apply (fmap_Permutation fst) in Hperm. rewrite <-Hperm. csimpl. apply list.NoDup_cons. split; [|done].
    intros (o & Heq & Ho)%list_elem_of_fmap. pose proof (proj1 (list.Forall_forall _ _) H2 o Ho) as Hlt. cbv beta in Hlt. lia.
Qed.

Lemma replaying_step b0 d x q sch due later b rd m :
  replaying b0 d x q sch due later b → stored_as (startOf b0) rd m →
  ∃ b' sch' due' later', replayRecord d q rd b = Ok tt b' ∧ replaying b0 d x q sch' due' later' b' ∧
    (due' ++ later').*2 ≡ₚ (rd, m) :: (due ++ later).*2.
Proof.
  intros [B1 B2 B3 B4 B5 B6 B7 B8 B9 B10 B11 B12 B13 B14] (S1 & S2 & S3 & S4 & S5).
  assert (Hd : br_destinations b !! d = Some (set_ds_scheduler sch x)) by (rewrite B1; apply lookup_insert_eq).
  assert (Hs0 : startOf b0 <= startOf b) by (by apply (nowAt_mono Hclock)).
  destruct (replay_one d (set_ds_scheduler sch x) q rd m b Hd B2 B3 (B4 _ (le_n _))) as (w' & sh & R1 & R2 & R3 & R4 & R5); [|done|].
  { split_and!; try done; lia. }
  cbv zeta in R5. set (b1 := set_br_world w' (set_br_fresh (S (br_fresh b)) (ticks 3 b))) in *.
  assert (Hfresh : ∀ i, (S (br_fresh b) <= i)%nat → heap w' !! i = None).
  { intros i Hi. rewrite R4, lookup_insert_ne by lia. apply B4. lia. }
  assert (Hr1 : br_reads b1 = (3 + br_reads b)%nat) by done.
  assert (Hlate : ∀ l, Forall (λ o : replayed_copy, dueTime o.2 <= nowAt (br_reads b)) l → Forall (λ o, dueTime o.2 <= nowAt (br_reads b1)) l).
  { intros l Hl. eapply Forall_impl; [|exact Hl]. intros o Ho. cbv beta in Ho. pose proof (nowAt_mono Hclock (br_reads b) (br_reads b1) ltac:(lia)). lia. }
  pose proof (copies_grow b (due ++ later) _ sh (rd, m) w' B5 B6 B7 eq_refl R4 R1) as Hgrow.
  destruct (deliveryTime (jmsHeaders m) <=? nowAt (S (S (br_reads b)))) eqn:Hdue; destruct R5 as [R5 R6].
  - destruct (Hgrow b1 ((due ++ [(br_fresh b, (rd, m))]) ++ later)) as (G1 & G2 & G3); [|done..|].
    { rewrite <-app_assoc. csimpl. by rewrite Permutation_middle. }
    exists b1, sch, (due ++ [(br_fresh b, (rd, m))]), later. split; [done|]. split.
    + split; try done; [|..].
      * unfold b1, with_scheduler. by rewrite B1.
      * simpl. rewrite R6, B8, fmap_app. unfold inserted. rewrite foldl_app. csimpl. by rewrite insert_prio_by.
      * lia.
      * apply Forall_app. split; [by apply Hlate|]. constructor; [|constructor]. cbn [snd]. unfold dueTime. cbn [snd].
        pose proof (nowAt_mono Hclock (S (S (br_reads b))) (br_reads b1) ltac:(lia)). lia.
    + rewrite <-app_assoc, !fmap_app. csimpl. by rewrite Permutation_middle.
  - set (sch' := arm _ _ _) in R5. set (b2 := with_scheduler d sch' _ b1) in R5.
    destruct (Hgrow b2 (due ++ (later ++ [(br_fresh b, (rd, m))]))) as (G1 & G2 & G3); [|done..|].
    { rewrite app_assoc. by rewrite (Permutation_app_comm (due ++ later)). }
    exists b2, sch', due, (later ++ [(br_fresh b, (rd, m))]). split; [done|]. split.
    + split; try done; [| | | | |].
      * unfold b2, b1, with_scheduler. rewrite B1. unfold set_br_destinations. simpl. by rewrite !insert_insert_eq.
      * simpl. by rewrite R6.
      * unfold sch', arm, armed. simpl. rewrite foldl_app. simpl. by rewrite B9.
      * change (br_reads b2) with (br_reads b1). lia.
      * by apply Hlate.
      * apply Forall_app. split; [done|]. constructor; [|constructor]. cbn [snd]. unfold dueTime. cbn [snd].
        pose proof (nowAt_mono Hclock (br_reads b0) (S (S (br_reads b))) ltac:(lia)). unfold startOf. lia.
    + rewrite app_assoc, !fmap_app. csimpl. by rewrite (Permutation_app_comm (due.*2 ++ later.*2)).
Qed.

Lemma replay_loop b0 d x q ms : Forall (λ rm, stored_as (startOf b0) rm.1 rm.2) ms →
  ∀ sch due later b, replaying b0 d x q sch due later b →
  ∃ b' sch' due' later', for_each (replayRecord d q) ms.*1 b = Ok tt b' ∧ replaying b0 d x q sch' due' later' b' ∧
    (due' ++ later').*2 ≡ₚ ms ++ (due ++ later).*2.
Proof.
  induction 1 as [|[rd m] ms Hrm _ IH]; intros sch due later b Hb.
  { by exists b, sch, due, later. }
  destruct (replaying_step b0 d x q sch due later b rd m Hb Hrm) as (b1 & sch1 & due1 & later1 & R1 & R2 & R3).
  destruct (IH sch1 due1 later1 b1 R2) as (b2 & sch2 & due2 & later2 & E1 & E2 & E3).
  exists b2, sch2, due2, later2. csimpl. rewrite (bind_ok _ _ _ _ _ R1), E1. split; [done|]. split; [done|].
  by rewrite E3, R3, Permutation_middle.
Qed.

(** The queue of a consumer after a replay into it. *)
Lemma replaying_holding b0 d x q sch due later b c cons ss : replaying b0 d x q sch due later b →
  br_consumers b0 !! c = Some cons → cs_queue cons = q → br_sessions b0 !! cs_session cons = Some ss →
  is_Some (br_storages b0 !! cs_storage cons) →
  holding b c cons ss ((λ o, (o.1, restored o.2)) <$> inserted (λ o, band o.2) due).
Proof.
  intros [B1 B2 B3 B4 B5 B6 B7 B8] Hc Hq Hs Hst. apply Forall_app in B5 as [B5 _]. rewrite fmap_app in B7.
  apply list.NoDup_app in B7 as [B7 _]. split; rewrite ?Hq; try done; try (by rewrite B1).
  - rewrite B8, inserted_fmap. rewrite <-!list_fmap_compose. done.
  - rewrite <-list_fmap_compose. rewrite inserted_perm. done.
  - apply Forall_fmap. rewrite inserted_perm. exact B5.
Qed.

(** What a consumer finds after a replay of the messages [ms] that started in [b0]:
    those that are due in its queue, each once and complete, by descending priority,
    the others on the scheduler, under their own delivery time and for this queue. *)
Record replay_result (b0 : broker) (d : nat) (x : Destination) (ms : list ((Rec * bytes) * Message)) (c : nat) (cons : Consumer) (ss : Session)
    (l : list (nat * Message)) (due : list ((Rec * bytes) * Message)) (later : list replayed_copy) (sch : scheduler) (b : broker) : Prop := {
  rr_all : due ++ later.*2 ≡ₚ ms;
  rr_holding : holding b c cons ss l;
  rr_restored : l.*2 = restored <$> due;
  rr_descending : descending band due;
  rr_passed : Forall (λ rm, dueTime rm <= startOf b) due;
  rr_future : Forall (λ o, startOf b0 < dueTime o.2 ∧ restored_at b o) later;
  rr_distinct : NoDup (l.*1 ++ later.*1);
  rr_pending : DeliveryScheduler.pending sch = armed (cs_queue cons) (DeliveryScheduler.pending (ds_scheduler x)) later;
  rr_running : stopped sch = false ∧ (later ≠ [] → is_Some (thread sch));
  rr_storages : br_storages b = br_storages b0
}.

Lemma replaying_result b0 d x q sch due later b c cons ss ms : replaying b0 d x q sch due later b →
  br_consumers b0 !! c = Some cons → cs_queue cons = q → br_sessions b0 !! cs_session cons = Some ss →
  is_Some (br_storages b0 !! cs_storage cons) → (due ++ later).*2 ≡ₚ ms →
  ∃ l due', replay_result b0 d x ms c cons ss l due' later sch b.
Proof.
  intros Hr Hc Hq Hs Hst Hms. pose proof (replaying_holding _ _ _ _ _ _ _ _ c cons ss Hr Hc Hq Hs Hst) as Hh.
  exists ((λ o, (o.1, restored o.2)) <$> inserted (λ o, band o.2) due), (inserted band (due.*2)).
  assert (Hp : inserted band due.*2 ≡ₚ due.*2) by apply inserted_perm.
  destruct Hr as [B1 B2 B3 B4 B5 B6 B7 B8 B9 B10 B11 B12 B13 B14]. split; try done.
  - by rewrite Hp, <-fmap_app.
  - rewrite inserted_fmap, <-!list_fmap_compose. done.
  - apply inserted_descending.
  - apply (Permutation_Forall (symmetry Hp)). by apply Forall_fmap.
  - apply Forall_app in B5 as [_ B5]. apply list.Forall_forall. intros o Ho.
    split; [exact (proj1 (list.Forall_forall _ _) B14 o Ho)|exact (proj1 (list.Forall_forall _ _) B5 o Ho)].
  - rewrite <-list_fmap_compose. rewrite fmap_app in B7. change (fst ∘ _) with (fst (A := nat) (B := (Rec * bytes) * Message)).
    pose proof (fmap_Permutation fst _ _ (inserted_perm (λ o : replayed_copy, band o.2) due)) as Hi. by rewrite Hi.
  - by rewrite Hq.
  - by rewrite B1.
Qed.

(** The consumer a session gets, and the state with it. *)
Lemma newConsumer_ok d s q sid sel b ss : br_sessions b !! s = Some ss → ss_mode ss ≠ SESSION_TRANSACTED →
  newConsumer d s (Some q) sid sel b
    = Ok (br_fresh b) (set_br_consumers (<[br_fresh b := mkConsumer d s q None sid sel []]> (br_consumers b)) (set_br_fresh (S (br_fresh b)) b)).
Proof.
  intros Hs Hm. unfold newConsumer. cbn [require]. rewrite bind_ret, (bind_ok _ _ _ _ _ (bSession_get _ _ _ Hs)).
  by rewrite decide_False.
Qed.

(** A destination gives up its default consumer; its storage stays. *)
Lemma drop_default_ok d x b : br_destinations b !! d = Some x →
  ∃ x1, match ds_defaultConsumer x with
        | Some dc => bDest d (modify (λ x, set_ds_defaultConsumer None (set_ds_consumers (ds_consumers x ∖ {[dc]}) x)))
        | None => mret tt
        end b = Ok tt (set_br_destinations (<[d := x1]> (br_destinations b)) b) ∧
    ds_storage x1 = ds_storage x ∧ ds_scheduler x1 = ds_scheduler x.
Proof.
  intros Hd. destruct (ds_defaultConsumer x); [|exists x; split; [|done]].
  - eexists. split; [unfold bDest; by rewrite (zoom_ok _ _ _ b x tt _ Hd eq_refl)|done].
  - rewrite insert_id by done. by destruct b.
Qed.

(** Where messages can be replayed: a process in which a session of [ss] takes a
    consumer of [x], over the storage [sid] with the records of [ms], into the empty
    queue [q]. *)
Record replayable (b : broker) (d : nat) (x : Destination) (s : nat) (ss : Session) (q sid : nat) (st : Storage)
    (ms : list ((Rec * bytes) * Message)) (n : Z) : Prop := {
  rp_destination : br_destinations b !! d = Some x;
  rp_running : stopped (ds_scheduler x) = false;
  rp_session : br_sessions b !! s = Some ss ∧ ss_mode ss ≠ SESSION_TRANSACTED;
  rp_storage : br_storages b !! sid = Some st;
  rp_stores : stores st ms.*1 n;
  rp_messages : Forall (λ rm, stored_as (startOf b) rm.1 rm.2) ms;
  rp_world : wf_world (br_world b);
  rp_queue : is_Some (queues (br_world b) !! q) ∧ queue_abs (br_world b) q = [];
  rp_fresh : ∀ i, (br_fresh b <= i)%nat → heap (br_world b) !! i = None
}.

(** A new consumer of an empty queue and the replay into it. *)
Lemma new_consumer_replays b d x s ss q sid st ms n sel :
  replayable b d x s ss q sid st ms n →
  let cons := mkConsumer d s q None sid sel [] in
  ∃ b1 b2 l due later sch, newConsumer d s (Some q) sid sel b = Ok (br_fresh b) b1 ∧ replayFromStorage d q sid b1 = Ok tt b2 ∧
    replay_result b d x ms (br_fresh b) cons ss l due later sch b2 ∧ br_destinations b2 = <[d := set_ds_scheduler sch x]> (br_destinations b).
Proof.
  intros [Hd Hrun [Hs Hmode] Hst Hl Hms Hw [Hq Hempty] Hfresh] cons.
  pose proof (newConsumer_ok d s q sid sel b ss Hs Hmode) as Hnew. fold cons in Hnew. set (b1 := set_br_consumers _ _) in Hnew.
  destruct (scan_stores iter_toms iter_toms_ok st _ n Hl) as (records & Hscan & Hperm).
  assert (Hsame : set_br_storages (<[sid := st]> (br_storages b1)) b1 = b1).
  { unfold set_br_storages. rewrite insert_id by done. by destruct b. }
  assert (Hscan1 : bStorage sid (cls_scan iter_toms) b1 = Ok records b1).
  { rewrite <-Hsame at 2. by apply (bStorage_run sid (cls_scan iter_toms) b1 st records st). }
  apply Permutation_map_inv in Hperm as (ms' & Hrecs & Hperm).
  assert (Hms' : Forall (λ rm, stored_as (startOf b1) rm.1 rm.2) ms') by by apply (Permutation_Forall Hperm).
  assert (Hr : replaying b1 d x q (ds_scheduler x) [] [] b1).
  { split; try done; try constructor; [|intros i Hi; apply Hfresh; simpl in Hi; lia].
    unfold with_scheduler. simpl. rewrite insert_id; [by destruct b|]. rewrite Hd. by destruct x. }
  destruct (replay_loop b1 d x q ms' Hms' _ [] [] b1 Hr) as (b2 & sch & due & later & L1 & L2 & L3).
  rewrite app_nil_r, <-Hperm in L3.
  destruct (replaying_result b1 d x q sch due later b2 (br_fresh b) cons ss ms L2) as (l & due' & R); try done.
  { apply lookup_insert_eq. }
  exists b1, b2, l, due', later, sch. split; [done|]. split.
  - unfold replayFromStorage. rewrite (bind_ok _ _ _ _ _ Hscan1), replay_loop_eq, Hrecs. exact L1.
  - split; [by destruct R|]. by rewrite (ry_state _ _ _ _ _ _ _ _ L2).
Qed.

(** A change to a destination does not touch what a consumer holds. *)
Lemma result_other b0 d x ms c cons ss l due later sch b ds : replay_result b0 d x ms c cons ss l due later sch b →
  replay_result b0 d x ms c cons ss l due later sch (set_br_destinations ds b).
Proof. intros [H1 [] H3 H4 H5 H6 H7 H8 H9 H10]. by split. Qed.

(** C9. What was stored is delivered after a restart: creating a consumer, in a session
    that is not transacted, on a queue that is still empty, as it is after a restart, and
    whose storage holds the records of the persistent messages [ms], returns a consumer
    whose queue holds exactly those that are due, each once, with all their contents
    and the place of their record, by descending priority, while the others, each once,
    are on the destination's scheduler under their own delivery time; the storage keeps
    its records. (On a queue that still holds messages they would be replayed a second
    time: [late_consumer_duplicates].) *)
Theorem restart_delivers b d x s ss q st n ms :
  replayable b d x s ss q (ds_storage x) st ms n → isQueueFamily x = true → ds_queue x = Some q →
  ∃ b' c cons l due later sch y, createConsumer d s None b = Ok c b' ∧
    replay_result b d x ms c cons ss l due later sch b' ∧
    br_destinations b' !! d = Some y ∧ ds_scheduler y = sch ∧ c ∈ ds_consumers y.
Proof.
  intros Hrp Hfam Hqx. pose proof (rp_destination _ _ _ _ _ _ _ _ _ _ Hrp) as Hd. unfold createConsumer.
  rewrite (bind_ok _ _ _ _ _ (bDest_get _ _ _ Hd)), Hfam, Hqx.
  destruct (drop_default_ok d x b Hd) as (x1 & Hdrop & Hx1 & Hx2). set (b1 := set_br_destinations _ b) in *.
  assert (Hd1 : br_destinations b1 !! d = Some x1) by apply lookup_insert_eq.
  assert (Hrp1 : replayable b1 d x1 s ss q (ds_storage x) st ms n).
  { destruct Hrp as [R1 R2 R3 R4 R5 R6 R7 R8 R9]. split; try done. by rewrite Hx2. }
  destruct (new_consumer_replays b1 d x1 s ss q (ds_storage x) st ms n None Hrp1) as (b2 & b3 & l & due & later & sch & N1 & N2 & N3 & N4).
  assert (Hd2 : br_destinations b2 !! d = Some x1).
  { rewrite (newConsumer_ok d s q (ds_storage x) None b1 ss) in N1 by apply Hrp1. by injection N1 as <-. }
  assert (Hd3 : br_destinations b3 !! d = Some (set_ds_scheduler sch x1)) by (rewrite N4; apply lookup_insert_eq).
  assert (N2' : replayStoredMessages d q b2 = Ok tt b3).
  { unfold replayStoredMessages. by rewrite (bind_ok _ _ _ _ _ (bDest_get _ _ _ Hd2)), Hx1. }
  erewrite bind_ok by (by rewrite (bind_ok _ _ _ _ _ Hdrop), (bind_ok _ _ _ _ _ N1), (bind_ok _ _ _ _ _ N2')).
  unfold bDest. erewrite (bind_ok _ _ _ _ _ (zoom_ok _ _ _ b3 _ tt _ Hd3 eq_refl)).
  eexists _, _, _, l, due, later, sch, _. split; [done|]. split; [|split; [apply lookup_insert_eq|split; [done|set_solver]]].
  apply result_other. destruct N3 as [H1 H2 H3 H4 H5 H6 H7 H8 H9 H10]. split; try done. by rewrite H8, Hx2.
Qed.
End Restart.
