(* ===== verification/Subscriptions.v ===== *)
(** Persistent messages and the subscriptions of a topic: a persistent send reaches
    the queue and the storage of every consumer it is for, and the storage of every
    offline durable subscription that accepts it; a subscriber that comes back is
    delivered what was stored for it. *)
From S2P Require Import Prelude Property Message JsonInstance MessageFacts StorageRecord PriorityQueue World DeliveryScheduler LinearStorage StorageWorker TransactionBuffer InFlight Broker Consumer Destination Session Connection ConnectionFacts ConsumerFacts SendFacts Durability Replay.
From Stdlib Require Import Lia ZifyBool.

Section Publish.
Context {E : Environment} {EOk : EnvironmentOk E}.

(** The storage [sid] holds the records [l], and no file is longer than [n]. *)
Definition holds (b : broker) (sid : nat) (l : list (Rec * bytes)) (n : Z) : Prop :=
  ∃ s, br_storages b !! sid = Some s ∧ stores s l n.
(** The storage [sid] has room for the record [data], whose uuid is new there. *)
Definition has_room (b : broker) (sid : nat) (u : UUID) (data : bytes) : Prop :=
  ∃ l n, holds b sid l n ∧ u ∉ uuids l ∧ n + 32 + Z.of_nat (length data) <= INT64_MAX.
(** Between [b] and [b'] the storage [sid] gained the record [r] with [data], and
    nothing else. *)
Definition gained (b b' : broker) (sid : nat) (u : UUID) (data : bytes) (r : Rec) : Prop :=
  rec_uuid (rec_header r) = u ∧ rec_tomId r ≠ UINT32_MAX ∧
  ∃ l n, holds b sid l n ∧ holds b' sid ((r, data) :: l) (n + 32 + Z.of_nat (length data)).

Lemma holds_same b b' sid l n : br_storages b' !! sid = br_storages b !! sid → holds b sid l n → holds b' sid l n.
Proof. unfold holds. by intros ->. Qed.
Lemma room_same b b' sid u data : br_storages b' !! sid = br_storages b !! sid → has_room b sid u data → has_room b' sid u data.
Proof. unfold has_room, holds. by intros ->. Qed.
Lemma gained_same b b1 b2 sid u data r : br_storages b2 !! sid = br_storages b1 !! sid → gained b b1 sid u data r → gained b b2 sid u data r.
Proof. unfold gained, holds. by intros ->. Qed.
Lemma gained_after b b1 b2 sid u data r : br_storages b1 !! sid = br_storages b !! sid → gained b1 b2 sid u data r → gained b b2 sid u data r.
Proof. unfold gained, holds. by intros ->. Qed.

(** *** Consumers that are online *)

(** A copy that was queued: where, at which address, and the place of its record. *)
Record delivered : Type := mkDelivered { dv_queue : nat; dv_copy : nat; dv_storage : nat; dv_record : Rec }.

(** The consumers among [cs] that accept the message, and the storages it goes to. *)
Definition accepting (b : broker) (m : Message) (cs : list nat) : list Consumer :=
  cs ≫= λ c, match br_consumers b !! c with
             | Some k => if matchesSelector (cs_selector k) m then [k] else []
             | None => []
             end.
Lemma accepting_app b m cs cs' : accepting b m (cs ++ cs') = accepting b m cs ++ accepting b m cs'.
Proof. apply bind_app. Qed.

(** The state after the persistent copies [out] of [m] were pushed, from [b]. *)
Record published (b : broker) (number : Z) (m : Message) (data : bytes) (out : list delivered) (b' : broker) : Prop := {
  pu_state : b' = set_br_world (br_world b') (set_br_fresh (br_fresh b') (set_br_storages (br_storages b') b));
  pu_world : wf_world (br_world b');
  pu_fresh : ∀ i, (br_fresh b' <= i)%nat → heap (br_world b') !! i = None;
  pu_old : ∀ i, (i < br_fresh b)%nat → heap (br_world b') !! i = heap (br_world b) !! i;
  pu_copies : Forall (λ o, (br_fresh b <= dv_copy o < br_fresh b')%nat ∧
    heap (br_world b') !! dv_copy o = Some (stored_copy number m data (dv_record o))) out;
  pu_nodup : NoDup (dv_copy <$> out);
  pu_queues : ∀ q, queue_abs (br_world b') q
    = joined (bandOf (Some (priority (jmsHeaders m)))) q (queue_abs (br_world b) q) ((λ o, (dv_queue o, dv_copy o)) <$> out);
  pu_open : ∀ q, is_Some (queues (br_world b) !! q) → is_Some (queues (br_world b') !! q);
  pu_stored : Forall (λ o, gained b b' (dv_storage o) (uuid m) data (dv_record o)) out;
  pu_others : ∀ sid, sid ∉ (dv_storage <$> out) → br_storages b' !! sid = br_storages b !! sid;
  pu_mono : (br_fresh b <= br_fresh b')%nat
}.

Lemma published_sender b number m data out b' producer p :
  published b number m data out b' → (p < br_fresh b)%nat →
  persistent_send b producer p m number data → persistent_send b' producer p m number data.
Proof. intros [F1 _ _ F4] Hp [H1 H2 H3 H4 H5 H6]. rewrite F1. split; try done. simpl. by rewrite F4. Qed.

(** One more consumer that accepts the message. *)
Lemma published_push b number producer p m data out b' c cons :
  persistent_send b producer p m number data → (p < br_fresh b)%nat → published b number m data out b' →
  br_consumers b !! c = Some cons → matchesSelector (cs_selector cons) m = true →
  is_Some (queues (br_world b) !! cs_queue cons) → has_room b (cs_storage cons) (uuid m) data →
  cs_storage cons ∉ (dv_storage <$> out) →
  ∃ b'' r, push c number producer p b' = Ok tt b'' ∧
    published b number m data (out ++ [mkDelivered (cs_queue cons) (br_fresh b') (cs_storage cons) r]) b''.
Proof.
  intros Hsend Hp Hf Hc Hm Hq Hacc Hnew. pose proof Hf as [F1 F2 F3 F4 F5 F6 F7 F8 F9 F10 F11].
  pose proof (published_sender _ _ _ _ _ _ _ _ Hf Hp Hsend) as Hsend'.
  destruct (room_same _ _ _ _ _ (F10 _ Hnew) Hacc) as (l & n & (s & Hs & Hl) & Hu & Hroom).
  assert (Hc' : br_consumers b' !! c = Some cons) by (by rewrite F1).
  destruct (push_stores c cons number producer p b' m data s l n Hc' Hm Hsend' Hs Hl Hu Hroom F2 (F8 _ Hq) (F3 _ (le_n _)))
    as (b'' & r & s' & P1 & P2 & P3 & P4 & P5 & P6 & P7 & P8 & P9 & P10 & P11).
  assert (Hfr : br_fresh b'' = S (br_fresh b')) by (by rewrite P4).
  assert (Hst : br_storages b'' = <[cs_storage cons := s']> (br_storages b')) by (by rewrite P4).
  assert (Hr : rec_uuid (rec_header r) = uuid m) by (by destruct P6 as (_ & _ & _ & [Hz|Hz]); [destruct (pp_uuid _ _ _ _ _ _ Hsend)|]).
  exists b'', r. split; [exact P1|]. split.
  - rewrite P4, F1. by destruct b''.
  - exact P9.
  - intros i Hi. rewrite P5, lookup_insert_ne by lia. apply F3. lia.
  - intros i Hi. rewrite P5, lookup_insert_ne by lia. by apply F4.
  - apply Forall_app. split.
    + eapply Forall_impl; [|exact F5]. intros o [Ho1 Ho2]. split; [lia|]. by rewrite P5, lookup_insert_ne by lia.
    + constructor; [|constructor]. cbn [dv_copy dv_record]. split; [lia|]. rewrite P5. apply lookup_insert_eq.
  - rewrite fmap_app. apply list.NoDup_app. split; [done|]. split; [|apply NoDup_singleton].
    intros i (o & -> & Ho)%list_elem_of_fmap Hi. csimpl in Hi. apply list_elem_of_singleton in Hi.
    pose proof (proj1 (list.Forall_forall _ _) F5 o Ho) as [Hx _]. lia.
  - intros q. unfold joined. rewrite fmap_app, foldl_app. cbn [fmap list_fmap foldl fst snd dv_queue dv_copy]. case_decide as Hq'.
    + subst. rewrite P8. f_equal. apply F7.
    + rewrite (queue_abs_other (br_world b') (br_world b'') q) by (by apply P11). apply F7.
  - intros q Hq'. destruct (decide (q = cs_queue cons)) as [->|Hne]; [done|]. rewrite P11 by done. by apply F8.
  - apply Forall_app. split.
    + apply list.Forall_forall. intros o Ho. apply (gained_same b b'); [|exact (proj1 (list.Forall_forall _ _) F9 o Ho)].
      rewrite Hst, lookup_insert_ne; [done|]. intros Heq. apply Hnew. rewrite Heq. by apply list_elem_of_fmap_2.
    + constructor; [|constructor]. cbn [dv_storage dv_record]. apply (gained_after b b'); [by apply F10|].
      split; [done|]. split; [done|]. exists l, n. split; [by exists s|]. exists s'. split; [|done]. rewrite Hst. apply lookup_insert_eq.
  - intros sid Hsid. rewrite fmap_app, not_elem_of_app in Hsid. destruct Hsid as [H1 H2]. csimpl in H2.
    rewrite Hst, lookup_insert_ne by set_solver. by apply F10.
  - lia.
Qed.

Lemma push_rejected c cons number producer p b m :
  br_consumers b !! c = Some cons → heap (br_world b) !! p = Some m → matchesSelector (cs_selector cons) m = false →
  push c number producer p b = Ok tt b.
Proof.
  intros Hc Hp Hm. unfold push. rewrite (bind_ok _ _ _ _ _ (bConsumer_get _ _ _ Hc)), (bind_ok _ _ _ _ _ (message_get _ _ _ Hp)).
  by rewrite Hm.
Qed.

(** Where the copies went, and where they should go. *)
Definition places (out : list delivered) : list (nat * nat) := (λ o, (dv_queue o, dv_storage o)) <$> out.
Definition targetsOf (ks : list Consumer) : list (nat * nat) := (λ k, (cs_queue k, cs_storage k)) <$> ks.
Lemma places_storages out ks : places out = targetsOf ks → (dv_storage <$> out) = cs_storage <$> ks.
Proof.
  intros H. apply (f_equal (fmap snd)) in H. unfold places, targetsOf in H. by rewrite <-!list_fmap_compose in H.
Qed.

Lemma published_pushAll b number producer p m data (qf : bool) cs : ∀ out b',
  persistent_send b producer p m number data → (p < br_fresh b)%nat → published b number m data out b' →
  Forall (λ c, ∃ cons, br_consumers b !! c = Some cons ∧ is_Some (queues (br_world b) !! cs_queue cons) ∧
    (matchesSelector (cs_selector cons) m = true → has_room b (cs_storage cons) (uuid m) data)) cs →
  NoDup ((dv_storage <$> out) ++ (cs_storage <$> accepting b m (if qf then take 1 cs else cs))) →
  ∃ b'' out', pushAll qf number producer p cs b' = Ok tt b'' ∧ published b number m data (out ++ out') b'' ∧
    places out' = targetsOf (accepting b m (if qf then take 1 cs else cs)).
Proof.
  induction cs as [|c cs IH]; intros out b' Hsend Hp Hf Hcs Hnd.
  { exists b', []. rewrite app_nil_r. split; [done|]. split; [done|]. by destruct qf. }
  apply Forall_cons_1 in Hcs as [(cons & Hc & Hq & Hacc) Hcs].
  assert (Hone : accepting b m [c] = if matchesSelector (cs_selector cons) m then [cons] else []).
  { unfold accepting. csimpl. rewrite Hc. by destruct (matchesSelector _ _). }
  assert (Hfirst : accepting b m (if qf then take 1 (c :: cs) else c :: cs)
    = accepting b m [c] ++ accepting b m (if qf then [] else cs)).
  { rewrite <-accepting_app. by destruct qf. }
  rewrite Hfirst, fmap_app in Hnd. rewrite Hfirst.
  assert (Hstep : ∃ b1 o1, push c number producer p b' = Ok tt b1 ∧ published b number m data (out ++ o1) b1 ∧
    places o1 = targetsOf (accepting b m [c])).
  { rewrite Hone in *. destruct (matchesSelector (cs_selector cons) m) eqn:Hm.
    - destruct (published_push b number producer p m data out b' c cons) as (b1 & r & P1 & P2); try done; [by apply Hacc| |by do 2 eexists].
      csimpl in Hnd. apply list.NoDup_app in Hnd as (_ & Hnd & _). intros Hin. apply (Hnd _ Hin). by left.
    - exists b', []. rewrite app_nil_r. split; [|done]. apply push_rejected with cons m; [by rewrite (pu_state _ _ _ _ _ _ Hf)| |done].
      apply (pp_message _ _ _ _ _ _ (published_sender _ _ _ _ _ _ _ _ Hf Hp Hsend)). }
  destruct Hstep as (b1 & o1 & P1 & P2 & P3). cbn [pushAll]. rewrite (bind_ok _ _ _ _ _ P1). destruct qf.
  { exists b1, o1. split; [done|]. split; [done|]. by rewrite P3, app_nil_r. }
  destruct (IH (out ++ o1) b1) as (b2 & o2 & Q1 & Q2 & Q3); try done.
  { cbn iota. rewrite fmap_app, (places_storages _ _ P3), <-app_assoc. exact Hnd. }
  exists b2, (o1 ++ o2). split; [done|]. rewrite app_assoc. split; [done|].
  unfold places, targetsOf in *. by rewrite !fmap_app, P3, Q3.
Qed.

(** *** Subscriptions that are offline *)

(** The offline subscriptions that accept the message, as save walks them. *)
Definition offline (x : Destination) (m : Message) (names : list string) : list DurableSubState :=
  names ≫= λ name, match ds_durableSubs x !! name with
                   | Some sub => if bool_decide (is_Some (sub_active sub)) then []
                                 else if matchesSelector (sub_selector sub) m then [sub] else []
                   | None => []
                   end.
Definition offlineSubs (x : Destination) (m : Message) : list DurableSubState :=
  if isTopicFamily x then offline x m (iter_subs (ds_durableSubs x)) else [].

Lemma persist_ok sub p b m data :
  heap (br_world b) !! p = Some m → length (uuid m) = 16%nat → uuid m ≠ nullUUID → storageBytes (copy m) = Some data →
  has_room b (sub_storage sub) (uuid m) data →
  ∃ r s', persistToOfflineSub sub p b = Ok tt (set_br_storages (<[sub_storage sub := s']> (br_storages b)) b) ∧
    gained b (set_br_storages (<[sub_storage sub := s']> (br_storages b)) b) (sub_storage sub) (uuid m) data r.
Proof.
  intros Hp Hlen Hu Hdata (l & n & (s & Hs & Hl) & Hfresh & Hroom).
  destruct (append_stores iter_toms s l n (uuid m) data Hl Hlen Hu (data_nonempty _ _ Hdata) Hfresh Hroom)
    as (r & s' & A1 & A2 & A3 & A4).
  exists r, s'. split.
  - unfold persistToOfflineSub. rewrite (bind_ok _ _ _ _ _ (message_get _ _ _ Hp)). cbv zeta.
    change (uuid (copy m)) with (uuid m). rewrite decide_False, bind_ret by done. rewrite Hdata. cbn [require].
    rewrite bind_ret. change (uuid (copy m)) with (uuid m).
    by rewrite (bind_ok _ _ _ _ _ (bStorage_run (sub_storage sub) (cls_append iter_toms (uuid m) data) b s r s' Hs A1)).
  - split; [done|]. split; [done|]. exists l, n. split; [by exists s|]. exists s'. split; [|done]. apply lookup_insert_eq.
Qed.

(** The body of the loop of bufferOffline. *)
Definition bufferOne (x : Destination) (p : nat) (name : string) : M broker unit :=
  sub ← require (ds_durableSubs x !! name);
  m ← message p;
  if bool_decide (is_Some (sub_active sub)) then mret tt
  else if negb (matchesSelector (sub_selector sub) m) then mret tt
  else persistToOfflineSub sub p.
(** Between [b] and [b'] the storages of [subs] gained one record each. *)
Record buffered (b : broker) (subs : list DurableSubState) (u : UUID) (data : bytes) (rs : list Rec) (b' : broker) : Prop := {
  bf_state : b' = set_br_storages (br_storages b') b;
  bf_gained : Forall2 (λ sub r, gained b b' (sub_storage sub) u data r) subs rs;
  bf_others : ∀ sid, sid ∉ (sub_storage <$> subs) → br_storages b' !! sid = br_storages b !! sid
}.

Lemma buffered_cons b b1 b2 sub subs u data r rs :
  sub_storage sub ∉ (sub_storage <$> subs) → buffered b [sub] u data [r] b1 → buffered b1 subs u data rs b2 →
  buffered b (sub :: subs) u data (r :: rs) b2.
Proof.
  intros Hnew [B1 B2 B3] [C1 C2 C3]. apply Forall2_cons_1 in B2 as [B2 _]. split.
  - rewrite C1, B1. by destruct b, b2.
  - constructor; [by apply (gained_same b b1); [apply C3|]|].
    apply Forall2_same_length_lookup. split; [by eapply Forall2_length|]. intros i sub' r' H1 H2.
    apply (gained_after b b1); [|exact (Forall2_lookup_lr _ _ _ _ _ _ C2 H1 H2)].
    apply B3. csimpl. intros Heq%list_elem_of_singleton. apply Hnew. rewrite <-Heq.
    by apply list_elem_of_fmap_2, list_elem_of_lookup_2 with i.
  - intros sid Hsid. csimpl in Hsid. rewrite C3 by set_solver. apply B3. csimpl. set_solver.
Qed.

Lemma buffer_loop x p m data names : ∀ b,
  Forall (λ name, is_Some (ds_durableSubs x !! name)) names → heap (br_world b) !! p = Some m →
  length (uuid m) = 16%nat → uuid m ≠ nullUUID → storageBytes (copy m) = Some data →
  Forall (λ sub, has_room b (sub_storage sub) (uuid m) data) (offline x m names) →
  NoDup (sub_storage <$> offline x m names) →
  ∃ b' rs, for_each (bufferOne x p) names b = Ok tt b' ∧ buffered b (offline x m names) (uuid m) data rs b'.
Proof.
  induction names as [|name names IH]; intros b Hn Hp Hlen Hu Hdata Hacc Hnd.
  { exists b, []. split; [done|]. split; [by destruct b|constructor|done]. }
  apply Forall_cons_1 in Hn as [[sub Hsub] Hn]. cbn [for_each]. unfold offline in Hacc, Hnd |- *.
  cbn [mbind list_bind] in Hacc, Hnd |- *. fold (offline x m names) in Hacc, Hnd |- *. rewrite Hsub in Hacc, Hnd |- *.
  assert (Hbody : bufferOne x p name b = (if bool_decide (is_Some (sub_active sub)) then mret tt
    else if negb (matchesSelector (sub_selector sub) m) then mret tt else persistToOfflineSub sub p) b).
  { unfold bufferOne. rewrite Hsub. cbn [require]. by rewrite bind_ret, (bind_ok _ _ _ _ _ (message_get _ _ _ Hp)). }
  destruct (bool_decide (is_Some (sub_active sub))); [rewrite (bind_ok _ _ _ _ _ Hbody); by apply IH|].
  destruct (matchesSelector (sub_selector sub) m); cbn [negb] in Hbody; [|rewrite (bind_ok _ _ _ _ _ Hbody); by apply IH].
  apply Forall_cons_1 in Hacc as [Hacc1 Hacc]. csimpl in Hnd. apply list.NoDup_cons in Hnd as [Hnew Hnd].
  destruct (persist_ok sub p b m data Hp Hlen Hu Hdata Hacc1) as (r & s' & P1 & P2).
  rewrite P1 in Hbody. rewrite (bind_ok _ _ _ _ _ Hbody). set (b1 := set_br_storages _ b) in *.
  assert (H1 : buffered b [sub] (uuid m) data [r] b1).
  { split; [done|by constructor|]. intros sid Hsid. unfold b1. simpl. rewrite lookup_insert_ne; [done|]. set_solver. }
  destruct (IH b1) as (b2 & rs & Q1 & Q2); try done.
  { apply list.Forall_forall. intros sub' Hin. apply (room_same b b1); [|exact (proj1 (list.Forall_forall _ _) Hacc sub' Hin)].
    apply (bf_others _ _ _ _ _ _ H1). csimpl. intros Heq%list_elem_of_singleton. apply Hnew. rewrite <-Heq.
    by apply list_elem_of_fmap_2. }
  exists b2, (r :: rs). split; [done|]. by apply buffered_cons with b1.
Qed.

Lemma iter_subs_known (x : Destination) : Forall (λ name, is_Some (ds_durableSubs x !! name)) (iter_subs (ds_durableSubs x)).
Proof.
  rewrite iter_subs_ok. apply list.Forall_forall. intros name Hin. apply list_elem_of_fmap in Hin as ([k sub] & -> & Hin).
  apply elem_of_map_to_list in Hin. by eexists.
Qed.

(** A message that save has pushed to the consumers, as the offline subscriptions
    are given it. *)
Lemma bufferOffline_ok d x p m data b :
  br_destinations b !! d = Some x → heap (br_world b) !! p = Some m →
  length (uuid m) = 16%nat → uuid m ≠ nullUUID → storageBytes (copy m) = Some data → isTopicFamily x = true →
  Forall (λ sub, has_room b (sub_storage sub) (uuid m) data) (offlineSubs x m) → NoDup (sub_storage <$> offlineSubs x m) →
  ∃ b' rs, bufferOffline d p b = Ok tt b' ∧ buffered b (offlineSubs x m) (uuid m) data rs b'.
Proof.
  intros Hd Hp Hlen Hu Hdata Ht. unfold offlineSubs. rewrite Ht. intros Hacc Hnd.
  unfold bufferOffline. rewrite (bind_ok _ _ _ _ _ (bDest_get _ _ _ Hd)).
  by apply (buffer_loop x p m data); [apply iter_subs_known|..].
Qed.

Lemma published_start b number m data :
  wf_world (br_world b) → (∀ i, (br_fresh b <= i)%nat → heap (br_world b) !! i = None) → published b number m data [] b.
Proof. intros Hw Hf. destruct b. split; try done; constructor. Qed.

(** The end of save, after the consumers. *)
Lemma save_offline d x p producer number m data kept b b' out :
  br_destinations b !! d = Some x → persistent_send b producer p m number data → (p < br_fresh b)%nat →
  storageBytes (copy m) = Some kept → published b number m data out b' →
  Forall (λ sub, has_room b (sub_storage sub) (uuid m) kept) (offlineSubs x m) →
  NoDup (sub_storage <$> offlineSubs x m) → (∀ sid, sid ∈ dv_storage <$> out → sid ∉ sub_storage <$> offlineSubs x m) →
  ∃ b'' rs, (m ← message p; transactionId ← transactionIdOf producer;
      if isTopicFamily x && isPersistent m && bool_decide (transactionId = "") then bufferOffline d p else mret tt) b'
      = Ok tt b'' ∧ buffered b' (offlineSubs x m) (uuid m) kept rs b''.
Proof.
  intros Hd Hsend Hp Hkept P2 Hsubs Hnd Hout.
  pose proof (published_sender _ _ _ _ _ _ _ _ P2 Hp Hsend) as [(pr & s & S1 & S2 & S3) Hm S4 [S5 S6] _ _].
  rewrite (bind_ok _ _ _ _ _ (message_get _ _ _ Hm)), (bind_ok _ _ _ _ _ (transactionIdOf_ok producer b' pr s S1 S2)).
  rewrite S4, S3, bool_decide_true, !andb_true_r by done. destruct (isTopicFamily x) eqn:Ht.
  - apply bufferOffline_ok; try done; [by rewrite (pu_state _ _ _ _ _ _ P2)|].
    apply list.Forall_forall. intros sub Hin. apply (room_same b b'); [|exact (proj1 (list.Forall_forall _ _) Hsubs sub Hin)].
    apply (pu_others _ _ _ _ _ _ P2). intros Hin'. apply (Hout _ Hin'). by apply list_elem_of_fmap_2.
  - exists b', []. unfold offlineSubs. rewrite Ht. split; [done|]. split; [by destruct b'|constructor|done].
Qed.

(** The destination after its counter gave out a number. *)
Definition with_counter (d : nat) (x : Destination) (b : broker) : broker :=
  set_br_destinations (<[d := set_ds_messageCounter (wrapS 64 (ds_messageCounter x + 1)) x]> (br_destinations b)) b.
(** What a persistent send leaves: [out] to the recipients, [rs] to the offline
    subscriptions. *)
Record reached (b : broker) (d : nat) (x : Destination) (m : Message) (data kept : bytes) (out : list delivered) (rs : list Rec)
    (b' : broker) : Prop := {
  rc_state : b' = set_br_world (br_world b') (set_br_fresh (br_fresh b') (set_br_storages (br_storages b') (with_counter d x b)));
  rc_world : wf_world (br_world b');
  rc_fresh : ∀ i, (br_fresh b' <= i)%nat → heap (br_world b') !! i = None;
  rc_places : places out = targetsOf (accepting b m (recipients x));
  rc_nodup : NoDup (dv_copy <$> out);
  rc_copies : Forall (λ o, heap (br_world b) !! dv_copy o = None ∧
    heap (br_world b') !! dv_copy o = Some (stored_copy (ds_messageCounter x) m data (dv_record o)) ∧
    gained b b' (dv_storage o) (uuid m) data (dv_record o)) out;
  rc_queues : ∀ q, queue_abs (br_world b') q = joined (bandOf (Some (priority (jmsHeaders m)))) q (queue_abs (br_world b) q)
    ((λ o, (dv_queue o, dv_copy o)) <$> out);
  rc_offline : Forall2 (λ sub r, gained b b' (sub_storage sub) (uuid m) kept r) (offlineSubs x m) rs;
  rc_others : ∀ sid, sid ∉ (dv_storage <$> out) → sid ∉ (sub_storage <$> offlineSubs x m) →
    br_storages b' !! sid = br_storages b !! sid
}.

(** A persistent send for which everything it needs is there. *)
Record publishable (b : broker) (d : nat) (x : Destination) (producer p : nat) (m : Message) (data kept : bytes) : Prop := {
  sn_destination : br_destinations b !! d = Some x;
  sn_send : persistent_send b producer p m (ds_messageCounter x) data;
  sn_kept : storageBytes (copy m) = Some kept;
  sn_world : wf_world (br_world b);
  sn_fresh : ∀ i, (br_fresh b <= i)%nat → heap (br_world b) !! i = None;
  sn_consumers : Forall (λ c, ∃ cons, br_consumers b !! c = Some cons ∧ is_Some (queues (br_world b) !! cs_queue cons) ∧
    (matchesSelector (cs_selector cons) m = true → has_room b (cs_storage cons) (uuid m) data)) (iter_set (ds_consumers x));
  sn_offline : Forall (λ sub, has_room b (sub_storage sub) (uuid m) kept) (offlineSubs x m);
  sn_apart : NoDup ((cs_storage <$> accepting b m (recipients x)) ++ (sub_storage <$> offlineSubs x m))
}.

Lemma save_reaches b d x producer p m data kept :
  publishable b d x producer p m data kept → ∃ b' out rs, save d producer p b = Ok tt b' ∧ reached b d x m data kept out rs b'.
Proof.
  intros [Hd Hsend Hkept Hw Hfresh Hcons Hsubs Hnd]. unfold save. rewrite (bind_ok _ _ _ _ _ (bDest_get _ _ _ Hd)).
  set (x1 := set_ds_messageCounter (wrapS 64 (ds_messageCounter x + 1)) x). set (b1 := with_counter d x b).
  assert (H1 : bDest d (modify (set_ds_messageCounter (wrapS 64 (ds_messageCounter x + 1)))) b = Ok tt b1).
  { unfold bDest. by rewrite (zoom_ok _ _ _ b x tt x1). }
  cbv zeta. rewrite (bind_ok _ _ _ _ _ H1).
  assert (Hp : (p < br_fresh b1)%nat).
  { destruct (decide (p < br_fresh b)%nat) as [Hp|Hp]; [done|]. pose proof (pp_message _ _ _ _ _ _ Hsend) as Hm.
    by rewrite Hfresh in Hm by lia. }
  assert (Hsend1 : persistent_send b1 producer p m (ds_messageCounter x) data) by (by destruct Hsend; split).
  apply list.NoDup_app in Hnd as (Hnd1 & Hnd2 & Hnd3).
  destruct (published_pushAll b1 (ds_messageCounter x) producer p m data (isQueueFamily x) (iter_set (ds_consumers x)) [] b1)
    as (b2 & out & P1 & P2 & P3); try done; [by apply published_start|].
  rewrite (bind_ok _ _ _ _ _ P1). simpl in P2.
  change (accepting b1 m _) with (accepting b m (recipients x)) in P3.
  assert (Hd1 : br_destinations b1 !! d = Some x1) by apply lookup_insert_eq.
  destruct (save_offline d x1 p producer (ds_messageCounter x) m data kept b1 b2 out) as (b3 & rs & L1 & L2); try done.
  { intros sid Hin. rewrite (places_storages _ _ P3) in Hin. by apply Hnd2. }
  exists b3, out, rs. split; [exact L1|]. destruct P2 as [F1 F2 F3 F4 F5 F6 F7 F8 F9 F10 F11], L2 as [G1 G2 G3].
  split; try done.
  - assert (br_world b3 = br_world b2) as -> by (by rewrite G1). assert (br_fresh b3 = br_fresh b2) as -> by (by rewrite G1).
    etransitivity; [exact G1|]. rewrite F1 at 1. done.
  - by rewrite G1.
  - by rewrite G1.
  - apply list.Forall_forall. intros o Ho. pose proof (proj1 (list.Forall_forall _ _) F5 o Ho) as [Ho1 Ho2].
    split; [apply Hfresh; simpl in Ho1; lia|]. split; [by rewrite G1|].
    apply (gained_same b b2); [|exact (proj1 (list.Forall_forall _ _) F9 o Ho)].
    apply G3. apply Hnd2. rewrite <-(places_storages _ _ P3). by apply list_elem_of_fmap_2.
  - by rewrite G1.
  - apply Forall2_same_length_lookup. split; [by eapply Forall2_length|]. intros i sub r H2 H3.
    apply (gained_after b b2); [|exact (Forall2_lookup_lr _ _ _ _ _ _ G2 H2 H3)].
    apply F10. rewrite (places_storages _ _ P3). intros Hin. apply (Hnd2 _ Hin).
    by apply list_elem_of_fmap_2, list_elem_of_lookup_2 with i.
  - intros sid Hs1 Hs2. rewrite (G3 sid Hs2). by apply (F10 sid).
Qed.

(** C10. A persistent send is on disk, for everyone it is for, before it returns. For a
    message without a delivery time, sent outside a transaction to recipients that each
    have a storage of their own (the first consumer of a queue; on a topic its durable
    consumers and at most one ordinary one, since the ordinary ones share the
    destination's storage): each recipient (every accepting consumer of a topic, the
    first consumer of a queue) has a new live record with exactly the bytes of the
    numbered copy and this copy, which knows the place of its record, in its queue
    behind what is there with its priority; each offline durable subscription that
    accepts the message has a new live record of it; every other queue and storage is
    as it was. *)
Theorem persistent_send_reaches b d x producer p m data kept :
  publishable b d x producer p m data kept →
  ∃ b' out rs, save d producer p b = Ok tt b' ∧ places out = targetsOf (accepting b m (recipients x)) ∧ NoDup (dv_copy <$> out) ∧
    Forall (λ o, heap (br_world b) !! dv_copy o = None ∧
      heap (br_world b') !! dv_copy o = Some (stored_copy (ds_messageCounter x) m data (dv_record o)) ∧
      gained b b' (dv_storage o) (uuid m) data (dv_record o)) out ∧
    (∀ q, queue_abs (br_world b') q = joined (bandOf (Some (priority (jmsHeaders m)))) q (queue_abs (br_world b) q)
      ((λ o, (dv_queue o, dv_copy o)) <$> out)) ∧
    Forall2 (λ sub r, gained b b' (sub_storage sub) (uuid m) kept r) (offlineSubs x m) rs ∧
    ∀ sid, sid ∉ (dv_storage <$> out) → sid ∉ (sub_storage <$> offlineSubs x m) → br_storages b' !! sid = br_storages b !! sid.
Proof. intros H. destruct (save_reaches _ _ _ _ _ _ _ _ H) as (b' & out & rs & H1 & []). by exists b', out, rs. Qed.
End Publish.

(** *** A subscriber that comes back *)
Section Reattach.
Context {E : Environment} {EOk : EnvironmentOk E} {JOk : PocoJsonOk env_json} (Hclock : steady).

Definition with_queue_new (b : broker) : broker :=
  set_br_world (set_queues (<[br_fresh b := Seq.empty_pq]> (queues (br_world b))) (br_world b)) (set_br_fresh (S (br_fresh b)) b).
Lemma newQueue_ok b : newQueue b = Ok (br_fresh b) (with_queue_new b).
Proof. done. Qed.
Lemma with_queue_new_world b : wf_world (br_world b) → wf_world (br_world (with_queue_new b)).
Proof.
  intros [H1 H2]. split; simpl.
  - intros q pq [[<- <-]|[_ Hq]]%lookup_insert_Some; [apply Seq.wf_empty|by eapply H1].
  - intros q pq z p [[<- <-]|[_ Hq]]%lookup_insert_Some Hin; [by apply not_elem_of_nil in Hin|by eapply H2].
Qed.
Lemma with_queue_new_empty b : queue_abs (br_world (with_queue_new b)) (br_fresh b) = [].
Proof. unfold queue_abs. simpl. by rewrite lookup_insert_eq. Qed.

(** An offline durable subscription of the topic [x], whose storage holds the records
    of [ms], and a session that can take it up. *)
Record detached (b : broker) (d : nat) (x : Destination) (s : nat) (ss : Session) (clientID name : string)
    (sub : DurableSubState) (st : Storage) (ms : list ((Rec * bytes) * Message)) (n : Z) : Prop := {
  dt_destination : br_destinations b !! d = Some x;
  dt_topic : isTopicFamily x = true;
  dt_sub : ds_durableSubs x !! durableKey clientID name = Some sub;
  dt_offline : sub_active sub = None;
  dt_running : stopped (ds_scheduler x) = false;
  dt_session : br_sessions b !! s = Some ss ∧ ss_mode ss ≠ SESSION_TRANSACTED;
  dt_storage : br_storages b !! sub_storage sub = Some st;
  dt_stores : stores st ms.*1 n;
  dt_messages : Forall (λ rm, stored_as (startOf b) rm.1 rm.2) ms;
  dt_world : wf_world (br_world b);
  dt_fresh : ∀ i, (br_fresh b <= i)%nat → heap (br_world b) !! i = None
}.
Definition set_active (active : option nat) (sel : option filter_t) (sub : DurableSubState) : DurableSubState :=
  mkSub (sub_name sub) (sub_path sub) (sub_storage sub) active sel.

Lemma reattach b d x s ss clientID name sub st ms n sel :
  detached b d x s ss clientID name sub st ms n →
  ∃ b' c cons l due later sch y, createDurableConsumer d s clientID name sel b = Ok c b' ∧
    replay_result b d x ms c cons ss l due later sch b' ∧ cs_storage cons = sub_storage sub ∧
    br_destinations b' !! d = Some y ∧ ds_scheduler y = sch ∧ ds_consumers y = ds_consumers x ∪ {[c]} ∧
    ds_durableSubs y !! durableKey clientID name = Some (set_active (Some c) sel sub).
Proof.
  intros [Hd Ht Hsub Hoff Hrun Hs Hst Hl Hms Hw Hfresh]. unfold createDurableConsumer.
  rewrite (bind_ok _ _ _ _ _ (bDest_get _ _ _ Hd)), Ht. cbn [negb]. cbv zeta. rewrite Hsub, Hoff, bind_ret.
  set (key := durableKey clientID name) in *.
  change (mkSub (sub_name sub) (sub_path sub) (sub_storage sub) None sel) with (set_active None sel sub).
  set (x1 := set_ds_durableSubs (<[key := set_active None sel sub]> (ds_durableSubs x)) x).
  set (b1 := set_br_destinations (<[d := x1]> (br_destinations b)) b).
  erewrite (bind_ok _ _ b tt b1). 2: { unfold bDest. by rewrite (zoom_ok _ _ _ b x tt x1). }
  rewrite (bind_ok _ _ _ _ _ (newQueue_ok b1)). set (b2 := with_queue_new b1). change (br_fresh b1) with (br_fresh b).
  assert (Hrp : replayable b2 d x1 s ss (br_fresh b) (sub_storage sub) st ms n).
  { split; try done; [apply lookup_insert_eq|by apply (with_queue_new_world b1)| |intros i Hi; apply Hfresh; simpl in Hi; lia].
    split; [simpl; rewrite lookup_insert_eq; by eexists|apply (with_queue_new_empty b1)]. }
  destruct (new_consumer_replays Hclock b2 d x1 s ss _ _ st ms n sel Hrp) as (b3 & b4 & l & due & later & sch & N1 & N2 & N3 & N4).
  cbn [set_active sub_storage]. rewrite (bind_ok _ _ _ _ _ N1), (bind_ok _ _ _ _ _ N2).
  assert (Hd4 : br_destinations b4 !! d = Some (set_ds_scheduler sch x1)) by (rewrite N4; apply lookup_insert_eq).
  unfold bDest. erewrite (bind_ok _ _ _ _ _ (zoom_ok _ _ _ b4 _ tt _ Hd4 eq_refl)).
  eexists _, _, (mkConsumer d s (br_fresh b) None (sub_storage sub) sel []), l, due, later, sch, _. split; [done|]. split; [|split; [done|]].
  - apply result_other. destruct N3 as [H1 H2 H3 H4 H5 H6 H7 H8 H9 H10]. by split.
  - split; [apply lookup_insert_eq|]. do 2 (split; [done|]). apply lookup_insert_eq.
Qed.

(** *** What happens while a subscriber is away *)

(** The subscription [key] of [d] is offline as [sub], over the records of [ms]. *)
Record waiting (b : broker) (d : nat) (key : string) (sub : DurableSubState) (ms : list ((Rec * bytes) * Message)) (n : Z) : Prop := {
  wt_destination : ∃ x, br_destinations b !! d = Some x ∧ isTopicFamily x = true ∧ ds_durableSubs x !! key = Some sub ∧
    stopped (ds_scheduler x) = false;
  wt_offline : sub_active sub = None;
  wt_holds : holds b (sub_storage sub) ms.*1 n;
  wt_messages : Forall (λ rm, stored_as (startOf b) rm.1 rm.2) ms;
  wt_world : wf_world (br_world b);
  wt_fresh : ∀ i, (br_fresh b <= i)%nat → heap (br_world b) !! i = None
}.

(** Something that leaves the subscription and its storage alone. *)
Record elsewhere (d : nat) (key : string) (sub : DurableSubState) (b b' : broker) : Prop := {
  el_destination : ∀ x, br_destinations b !! d = Some x → ∃ x', br_destinations b' !! d = Some x' ∧
    ds_type x' = ds_type x ∧ ds_durableSubs x' !! key = ds_durableSubs x !! key ∧ stopped (ds_scheduler x') = stopped (ds_scheduler x);
  el_storage : br_storages b' !! sub_storage sub = br_storages b !! sub_storage sub;
  el_world : wf_world (br_world b) → wf_world (br_world b');
  el_fresh : (∀ i, (br_fresh b <= i)%nat → heap (br_world b) !! i = None) →
    ∀ i, (br_fresh b' <= i)%nat → heap (br_world b') !! i = None;
  el_reads : (br_reads b <= br_reads b')%nat
}.

(** A run in which [sent] are the persistent messages sent to the topic, between
    which anything else happens elsewhere. *)
Inductive away (d : nat) (key : string) (sub : DurableSubState) : broker → list Message → broker → Prop :=
  | away_end b : away d key sub b [] b
  | away_other b b1 sent b' : elsewhere d key sub b b1 → away d key sub b1 sent b' → away d key sub b sent b'
  | away_send b x producer p m data kept b1 sent b' :
      publishable b d x producer p m data kept → codable_message m →
      (matchesSelector (sub_selector sub) m = false →
        sub_storage sub ∉ (cs_storage <$> accepting b m (recipients x)) ++ (sub_storage <$> offlineSubs x m)) →
      save d producer p b = Ok tt b1 → away d key sub b1 sent b' → away d key sub b (m :: sent) b'.

Lemma stored_later now now' rd m : now <= now' → stored_as now rd m → stored_as now' rd m.
Proof. intros H (H1 & H2 & H3 & H4 & H5). split_and!; try done; lia. Qed.
Lemma stored_all_later b b' ms : (br_reads b <= br_reads b')%nat →
  Forall (λ rm, stored_as (startOf b) rm.1 rm.2) ms → Forall (λ rm, stored_as (startOf b') rm.1 rm.2) ms.
Proof.
  intros Hr. apply Forall_impl. intros rm. apply stored_later. by apply (nowAt_mono Hclock).
Qed.

Lemma waiting_elsewhere b b' d key sub ms n : elsewhere d key sub b b' → waiting b d key sub ms n → waiting b' d key sub ms n.
Proof.
  intros [E1 E2 E3 E4 E5] [(x & Hd & Ht & Hsub & Hrun) H2 H3 H4 H5 H6]. split; [|done|by apply (holds_same b)| |by apply E3|by apply E4].
  - destruct (E1 x Hd) as (x' & F1 & F2 & F3 & F4). exists x'. split; [done|]. rewrite F3, F4. split; [|done].
    unfold isTopicFamily in *. by rewrite F2.
  - by apply (stored_all_later b).
Qed.

Lemma stores_unique s l l' n n' : stores s l n → stores s l' n' → l ≡ₚ l'.
Proof.
  intros H1 H2. destruct (scan_stores iter_toms iter_toms_ok s l n H1) as (l0 & E0 & P0).
  destruct (scan_stores iter_toms iter_toms_ok s l' n' H2) as (l1 & E1 & P1). rewrite E0 in E1. injection E1 as <-.
  by rewrite <-P0.
Qed.
Lemma gained_holds b b' sid u data r l n : gained b b' sid u data r → holds b sid l n → ∃ n', holds b' sid ((r, data) :: l) n'.
Proof.
  intros (_ & _ & l' & n' & (s1 & Hs1 & H1) & (s2 & Hs2 & H2)) (s & Hs & Hl). rewrite Hs1 in Hs. injection Hs as ->.
  eexists. exists s2. split; [done|]. apply (stores_perm _ _ _ _ H2). constructor. by apply (stores_unique s _ _ n' n).
Qed.

Lemma offline_elem x m key sub : isTopicFamily x = true → ds_durableSubs x !! key = Some sub → sub_active sub = None →
  matchesSelector (sub_selector sub) m = true → sub ∈ offlineSubs x m.
Proof.
  intros Ht Hsub Hoff Hm. unfold offlineSubs. rewrite Ht. unfold offline. apply list_elem_of_bind. exists key.
  rewrite Hsub, Hoff, bool_decide_false, Hm by (by intros []). split; [by left|].
  rewrite iter_subs_ok. apply list_elem_of_fmap. exists (key, sub). split; [done|]. by apply elem_of_map_to_list.
Qed.

Lemma codable_copy m : codable_message m → codable_message (copy m).
Proof.
  intros [[W1 W2 W3] H2 H3 H4]. split; [by split|done|done|]. unfold copy. by destruct m as [? ? ? ? ? ? ? ? ? ? []].
Qed.
(** A send to the topic adds the message to what waits, if the subscription accepts
    it. *)
Lemma waiting_send b d key sub ms n x producer p m data kept b1 :
  waiting b d key sub ms n → publishable b d x producer p m data kept → codable_message m →
  (matchesSelector (sub_selector sub) m = false →
    sub_storage sub ∉ (cs_storage <$> accepting b m (recipients x)) ++ (sub_storage <$> offlineSubs x m)) →
  save d producer p b = Ok tt b1 →
  ∃ ms' n', waiting b1 d key sub ms' n' ∧
    ms'.*2 = (if matchesSelector (sub_selector sub) m then [copy m] else []) ++ ms.*2.
Proof.
  intros [(x' & Hd & Ht & Hsub & Hrun) W2 W3 W4 W5 W6] Hs Hcod%codable_copy Hown Hsave.
  pose proof (sn_destination _ _ _ _ _ _ _ _ Hs) as Hd'. rewrite Hd in Hd'. injection Hd' as ->.
  destruct (save_reaches b d x producer p m data kept Hs) as (b1' & out & rs & H1 & R). rewrite Hsave in H1. injection H1 as <-.
  assert (Hdest : ∃ x1, br_destinations b1 !! d = Some x1 ∧ isTopicFamily x1 = true ∧ ds_durableSubs x1 !! key = Some sub ∧
    stopped (ds_scheduler x1) = false).
  { rewrite (rc_state _ _ _ _ _ _ _ _ _ R). eexists. split; [apply lookup_insert_eq|done]. }
  assert (Hreads : br_reads b1 = br_reads b) by (by rewrite (rc_state _ _ _ _ _ _ _ _ _ R)).
  assert (Hstart : startOf b1 = startOf b) by (unfold startOf; by rewrite Hreads).
  pose proof (rc_world _ _ _ _ _ _ _ _ _ R) as Hw. pose proof (rc_fresh _ _ _ _ _ _ _ _ _ R) as Hf.
  destruct (matchesSelector (sub_selector sub) m) eqn:Hm.
  - pose proof (offline_elem x m key sub Ht Hsub W2 Hm) as [i Hi]%list_elem_of_lookup_1.
    destruct (Forall2_lookup_l _ _ _ _ _ (rc_offline _ _ _ _ _ _ _ _ _ R) Hi) as (r & _ & Hg).
    destruct (gained_holds b b1 _ _ kept r _ n Hg W3) as (n' & Hn').
    exists (((r, kept), copy m) :: ms), n'. split; [|done]. split; try done. rewrite Hstart. constructor; [|done].
    pose proof (sn_send _ _ _ _ _ _ _ _ Hs) as [_ _ P3 _ P5 _].
    assert (Hdt : deliveryTime (jmsHeaders (copy m)) = 0) by exact P5. split_and!; try done.
    + exact (sn_kept _ _ _ _ _ _ _ _ Hs).
    + by destruct Hg.
    + cbn [snd]. by rewrite Hdt.
    + cbn [snd]. rewrite Hdt. unfold startOf. pose proof (nowAt_range Hclock (br_reads b)). unfold kMaxFutureHeaderMs. lia.
  - exists ms, n. split; [|done]. split; try done; [|by rewrite Hstart]. apply (holds_same b b1); [|done].
    specialize (Hown eq_refl). apply not_elem_of_app in Hown as [Ho1 Ho2].
    apply (rc_others _ _ _ _ _ _ _ _ _ R); [|done]. by rewrite (places_storages _ _ (rc_places _ _ _ _ _ _ _ _ _ R)).
Qed.

(** What an offline subscription is given of the messages [sent] to its topic. *)
Definition keeps (sub : DurableSubState) (sent : list Message) : list Message :=
  copy <$> filter (λ m, matchesSelector (sub_selector sub) m = true) sent.
Lemma waiting_away d key sub b sent b' : away d key sub b sent b' → ∀ ms n, waiting b d key sub ms n →
  ∃ ms' n', waiting b' d key sub ms' n' ∧ ms'.*2 ≡ₚ ms.*2 ++ keeps sub sent.
Proof.
  induction 1 as [b|b b1 sent b' Hel _ IH|b x producer p m data kept b1 sent b' Hs Hcod Hown Hsave _ IH]; intros ms n Hw.
  - exists ms, n. by rewrite app_nil_r.
  - by apply (IH ms n), (waiting_elsewhere b).
  - destruct (waiting_send b d key sub ms n x producer p m data kept b1 Hw Hs Hcod Hown Hsave) as (ms1 & n1 & Hw1 & E1).
    destruct (IH ms1 n1 Hw1) as (ms' & n' & Hw' & E2). exists ms', n'. split; [done|]. rewrite E2, E1. unfold keeps.
    rewrite filter_cons. destruct (matchesSelector (sub_selector sub) m); [rewrite decide_True by done|by rewrite decide_False].
    csimpl. by rewrite Permutation_middle.
Qed.

(** C11. A durable subscriber misses nothing that is sent to the topic persistently,
    outside a transaction and without a delivery time while it is away (with at most one
    ordinary consumer online beside the durable ones): of these messages exactly those
    that its selector accepts are kept in its storage beside what was there, whatever
    else happens in between that leaves its storage alone, and when it comes back they
    are in its new consumer's queue (or, what was there before and is not yet due, on
    the scheduler), each once and complete, by descending priority. (A transacted send
    keeps nothing for it: [topic_commit_skips_offline].) *)
Theorem durable_misses_nothing d clientID name sub b ms n sent b' s ss sel :
  waiting b d (durableKey clientID name) sub ms n → away d (durableKey clientID name) sub b sent b' →
  br_sessions b' !! s = Some ss → ss_mode ss ≠ SESSION_TRANSACTED →
  ∃ ms' b'' c cons l due later sch x y, ms'.*2 ≡ₚ ms.*2 ++ keeps sub sent ∧ br_destinations b' !! d = Some x ∧
    createDurableConsumer d s clientID name sel b' = Ok c b'' ∧ replay_result b' d x ms' c cons ss l due later sch b'' ∧
    cs_storage cons = sub_storage sub ∧ br_destinations b'' !! d = Some y ∧ ds_scheduler y = sch ∧ c ∈ ds_consumers y ∧
    ds_durableSubs y !! durableKey clientID name = Some (set_active (Some c) sel sub).
Proof.
  intros Hw Ha Hs Hmode. destruct (waiting_away _ _ _ _ _ _ Ha ms n Hw) as (ms' & n' & [(x & Hd & Ht & Hsub & Hrun) W2 (st & W3 & W4) W5 W6 W7] & Hms).
  destruct (reattach b' d x s ss clientID name sub st ms' n' sel) as (b'' & c & cons & l & due & later & sch & y & R1 & R2 & R3 & R4 & R5 & R6 & R7);
    [by split|].
  exists ms', b'', c, cons, l, due, later, sch, x, y. split_and!; try done. rewrite R6. set_solver.
Qed.
End Reattach.
