(* ===== verification/Staging.v ===== *)
(** The sends of a transaction: the copies a producer stages in its queue, and what
    the transaction buffer records of them. *)
From S2P Require Import Prelude Property Message JsonInstance MessageFacts StorageRecord PriorityQueue World DeliveryScheduler LinearStorage StorageWorker TransactionBuffer InFlight Broker Consumer Destination Session ConsumerFacts SendFacts Durability Replay.
From Stdlib Require Import Lia ZifyBool Sorted.

(** *** Staging in a queue keeps the order *)
Section Merge.
Context {A : Type} (key : A → Z).

Lemma insert_by_swap x y l : key x ≠ key y → insert_by key x (insert_by key y l) = insert_by key y (insert_by key x l).
Proof.
  intros Hne. induction l as [|z l IH]; simpl; [by do 2 case_match; try lia|].
  destruct (key z <? key x) eqn:Hx, (key z <? key y) eqn:Hy; simpl; rewrite ?Hx, ?Hy; [| | |by rewrite IH];
    repeat (case_match; try lia); done.
Qed.
Lemma insert_by_swap_all x l q : Forall (λ y, key y < key x) l →
  foldl (λ q y, insert_by key y q) (insert_by key x q) l = insert_by key x (foldl (λ q y, insert_by key y q) q l).
Proof.
  intros Hl. revert q. induction Hl as [|y l Hy _ IH]; intros q; simpl; [done|].
  by rewrite insert_by_swap, IH by lia.
Qed.
Lemma insert_by_merge x l q : descending key l →
  foldl (λ q y, insert_by key y q) q (insert_by key x l) = insert_by key x (foldl (λ q y, insert_by key y q) q l).
Proof.
  intros Hl. revert q. induction Hl as [|y l _ IH Hy]; intros q; simpl; [done|]. case_match; [|apply IH].
  apply (insert_by_swap_all x (y :: l) q). constructor; [lia|].
  eapply Forall_impl; [|exact Hy]. simpl. lia.
Qed.
(** Inserting the elements of a staged queue is inserting them as they were staged. *)
Lemma inserted_merge l q :
  foldl (λ q y, insert_by key y q) q (inserted key l) = foldl (λ q y, insert_by key y q) q l.
Proof.
  induction l as [|x l IH] using rev_ind; [done|].
  assert (E : inserted key (l ++ [x]) = insert_by key x (inserted key l)) by (unfold inserted; by rewrite foldl_app).
  rewrite E, insert_by_merge, foldl_app, IH by apply inserted_descending. done.
Qed.
End Merge.

(** *** A batch in the storage *)
Definition named (rd : Rec * bytes) : UUID * bytes := (rec_uuid (rec_header rd.1), rd.2).
Definition batchSize (items : list (UUID * bytes)) : Z :=
  foldr (λ ud z, 32 + Z.of_nat (length ud.2) + z) 0 items.
(** What the storage can take: items with an identifier of their own and data. *)
Record storable_batch (l : list (Rec * bytes)) (items : list (UUID * bytes)) : Prop := {
  sb_items : Forall (λ ud, length ud.1 = 16%nat ∧ ud.1 ≠ emptyUuid ∧ ud.2 ≠ []) items;
  sb_new : Forall (λ ud, ud.1 ∉ uuids l) items;
  sb_nodup : NoDup items.*1
}.

Section Batch.
Context (order : Storage → list Z).

Lemma batchSize_nonneg items : 0 <= batchSize items.
Proof. induction items as [|ud items IH]; simpl; lia. Qed.

Lemma append_each items : ∀ s l n,
  stores s l n → storable_batch l items → n + batchSize items <= INT64_MAX →
  ∃ recs s', for_each (λ '(uuid, data), _ ← storage_append uuid data; mret tt) items s = Ok tt s' ∧
    stores s' (recs ++ l) (n + batchSize items) ∧ named <$> recs = items.
Proof.
  induction items as [|[u d] items IH]; intros s l n Hs [Hi Hl Hn] Hroom.
  { exists [], s. simpl. rewrite Z.add_0_r. by split_and!. }
  change (batchSize ((u, d) :: items)) with (32 + Z.of_nat (length d) + batchSize items) in *. pose proof (batchSize_nonneg items).
  apply Forall_cons_1 in Hi as [(H1 & H2 & H3) Hi]. apply Forall_cons_1 in Hl as [Hu Hl].
  csimpl in Hn. apply list.NoDup_cons in Hn as [Hu' Hn]. simpl in H1, H2, H3, Hu.
  destruct (storage_append_stores s l n u d Hs H1 H2 H3 Hu) as (r & s1 & A1 & A2 & A3 & _); [lia|].
  destruct (IH s1 ((r, d) :: l) (n + 32 + Z.of_nat (length d)) A2) as (recs & s2 & B1 & B2 & B3); [split; try done|lia|].
  { rewrite list.Forall_forall in Hl |- *. intros ud Hud. unfold uuids. csimpl. rewrite A3. intros [Heq|Hin]%elem_of_cons.
    - apply Hu'. rewrite <-Heq. by apply list_elem_of_fmap_2.
    - by apply (Hl ud Hud). }
  exists ((r, d) :: recs), s2. split; [|split].
  - cbn [for_each]. erewrite bind_ok by (by rewrite (bind_ok _ _ _ _ _ A1)). exact B1.
  - apply (stores_perm _ (recs ++ (r, d) :: l)); [|symmetry; exact (Permutation_middle recs l (r, d))].
    by replace (n + (32 + Z.of_nat (length d) + batchSize items)) with (n + 32 + Z.of_nat (length d) + batchSize items) by lia.
  - csimpl. rewrite B3. unfold named. simpl. by rewrite A3.
Qed.

Lemma appendBatch_stores s l n items :
  stores s l n → storable_batch l items → n + batchSize items <= INT64_MAX →
  ∃ recs s', cls_appendBatch order items s = Ok tt s' ∧ stores s' (recs ++ l) (n + batchSize items) ∧ named <$> recs = items.
Proof.
  intros Hs Hi Hroom. destruct (append_each items s l n Hs Hi Hroom) as (recs & s' & A1 & A2 & A3).
  destruct items as [|ud items].
  { exists [], s. apply fmap_nil_inv in A3 as ->. simpl in *. injection A1 as <-. by split_and!. }
  exists recs, s'. split; [|done]. unfold cls_appendBatch. erewrite (bind_ok _ _ _ _ _ (dispatch_ok order _ s _ s' _)). Unshelve.
  3: { cbn [StorageWorker.perform]. by rewrite (bind_ok _ _ _ _ _ A1). }
  done.
Qed.
End Batch.

(** *** Sends in a transaction *)
Section Staging.
Context {E : Environment} {EOk : EnvironmentOk E} {TU : PocoTextOk env_text env_uuid}.

(** The copy that is staged: a persistent one carries its bytes. *)
Definition staged_copy (number : Z) (m : Message) : option Message :=
  if isPersistent m then data ← storageBytes (pushed number m); Some (set_cachedStorageBytes data (pushed number m))
  else Some (pushed number m).
Lemma staged_copy_ok number m : length (uuid m) = 16%nat →
  ∃ cm, staged_copy number m = Some cm ∧ jmsHeaders cm = jmsHeaders m ∧ uuid cm = uuid m ∧
    isPersistent cm = isPersistent m ∧ pendingDeliveryDelay cm = pendingDeliveryDelay m ∧
    (isPersistent m = true → cachedStorageBytes cm ≠ []).
Proof.
  intros Hu. unfold staged_copy. destruct (isPersistent m) eqn:Hp; [|eexists; by split_and!].
  destruct (toBytes_defined (pushed number m) Hu) as (data & bs & _ & Ht & _).
  destruct (storageBytes (pushed number m)) as [sb|] eqn:Hs; [|unfold storageBytes in Hs; by rewrite Ht in Hs].
  eexists. split; [done|]. split_and!; try done. intros _. simpl. by eapply data_nonempty.
Qed.

(** What a staged copy adds to the transaction [tx] of the buffer. *)
Definition recorded (cm : Message) : list (UUID * bytes) :=
  if isPersistent cm then [(uuid cm, cachedStorageBytes cm)] else [].
Definition record_staged (tx : string) (p : gmap string (list (UUID * bytes))) (cm : Message) : gmap string (list (UUID * bytes)) :=
  match recorded cm with [] => p | l => <[tx := default [] (p !! tx) ++ l]> p end.

Lemma bTB_ok {A} d (op : M TB A) b x a t : br_destinations b !! d = Some x → op (ds_transactionBuffer x) = Ok a t →
  bTB d op b = Ok a (set_br_destinations (<[d := set_ds_transactionBuffer t x]> (br_destinations b)) b).
Proof.
  intros Hd Hop. unfold bTB. rewrite (zoom_ok _ _ op b (ds_transactionBuffer x) a t) by (by rewrite ?Hd).
  do 2 f_equal. apply map_eq. intros i. destruct (decide (i = d)) as [->|Hne].
  - by rewrite lookup_alter_eq, lookup_insert_eq, Hd.
  - by rewrite lookup_alter_ne, lookup_insert_ne.
Qed.

Lemma preparePush_staged c cons number producer p b m pr ss x pend :
  br_consumers b !! c = Some cons → br_destinations b !! cs_destination cons = Some x →
  heap (br_world b) !! p = Some m → br_producers b !! producer = Some pr → br_sessions b !! pr_session pr = Some ss →
  ss_suffix ss ≠ "" → field (ss_suffix ss) → length (uuid m) = 16%nat → uuid m ≠ nullUUID →
  tb_holds (ds_transactionBuffer x) pend → log_ok (ds_transactionBuffer x) → (isPersistent m = true → ¬ buffered pend (uuid m)) →
  ∃ cm t r, staged_copy number m = Some cm ∧
    preparePush c number producer p b = Ok (br_fresh b) (set_br_reads r (set_br_destinations
      (<[cs_destination cons := set_ds_transactionBuffer t x]> (br_destinations b)) (with_copy cm b))) ∧
    tb_holds t (record_staged (ss_suffix ss) pend cm) ∧ log_ok t.
Proof.
  intros Hc Hd Hp Hpr Hs Hsuf Hfield Hlen Hu Htb Hlog Hfresh.
  unfold preparePush, staged_copy.
  rewrite (bind_ok _ _ _ _ _ (bConsumer_get _ _ _ Hc)), (bind_ok _ _ _ _ _ (message_get _ _ _ Hp)).
  rewrite (bind_ok (alloc (copy m)) _ b (br_fresh b) (with_copy (copy m) b) eq_refl). unfold with_copy at 1 2.
  rewrite (bind_ok _ _ _ _ _ (message_get _ _ _ (with_message_at (br_fresh b) (copy m) _))).
  rewrite decide_False, bind_ret by done.
  rewrite (bind_ok _ _ _ _ _ (bWorld_update (br_fresh b) _ _ _ (with_message_at _ _ _))).
  rewrite with_message_twice. fold (pushed number m). fold (with_copy (pushed number m) b).
  set (b1 := with_copy (pushed number m) b).
  erewrite (bind_ok _ _ _ _ _ (transactionIdOf_ok producer b1 pr ss _ _)). Unshelve. 2, 3: done.
  assert (H1 : heap (br_world b1) !! br_fresh b = Some (pushed number m)) by apply lookup_insert_eq.
  rewrite (bind_ok _ _ _ _ _ (message_get _ _ _ H1)). change (isPersistent (pushed number m)) with (isPersistent m).
  destruct (isPersistent m) eqn:Hper.
  - destruct (toBytes_defined (pushed number m) Hlen) as (data & bs & _ & Ht & _).
    destruct (storageBytes (pushed number m)) as [sb|] eqn:Hs'; [|unfold storageBytes in Hs'; by rewrite Ht in Hs'].
    set (cm := set_cachedStorageBytes sb (pushed number m)).
    set (b2 := set_br_reads (S (S (br_reads b))) (with_copy cm b)).
    destruct (add_sim (ds_transactionBuffer x) pend (clock (br_reads b)) (clock (S (br_reads b))) (ss_suffix ss) (uuid m) sb)
      as (t & A1 & A2 & A3); try done; [by apply Hfresh|].
    exists cm, t, (S (S (br_reads b))). split; [done|]. split; [|split; [|done]].
    + assert (Hup : bWorld (update (br_fresh b) (set_cachedStorageBytes sb)) b1 = Ok tt (with_copy cm b))
        by (rewrite (bWorld_update (br_fresh b) _ _ _ H1); unfold b1, with_copy; by rewrite with_message_twice).
      assert (Hadd : bTB (cs_destination cons) (addMessage (clock (br_reads b)) (clock (S (br_reads b))) (ss_suffix ss) (uuid m) sb) b2
        = Ok tt (set_br_destinations (<[cs_destination cons := set_ds_transactionBuffer t x]> (br_destinations b2)) b2))
        by exact (bTB_ok _ _ b2 x tt t Hd A1).
      erewrite bind_ok; [reflexivity|]. cbn [require]. rewrite bind_ret, (bind_ok _ _ _ _ _ Hup), bool_decide_false by done. exact Hadd.
    + unfold record_staged, recorded. change (isPersistent cm) with (isPersistent m). rewrite Hper. exact A2.
  - exists (pushed number m), (ds_transactionBuffer x), (br_reads b). split; [done|]. split; [|split; [|done]].
    + rewrite bind_ret. assert (set_ds_transactionBuffer (ds_transactionBuffer x) x = x) as -> by by destruct x.
      rewrite insert_id by done. unfold b1. by destruct b.
    + unfold record_staged, recorded. change (isPersistent (pushed number m)) with (isPersistent m). by rewrite Hper.
Qed.

Lemma push_staged c cons number producer p b m pr ss tq x pend :
  br_consumers b !! c = Some cons → br_destinations b !! cs_destination cons = Some x →
  heap (br_world b) !! p = Some m → br_producers b !! producer = Some pr → br_sessions b !! pr_session pr = Some ss →
  ss_suffix ss ≠ "" → field (ss_suffix ss) → pr_transactQueue pr = Some tq →
  matchesSelector (cs_selector cons) m = true → length (uuid m) = 16%nat → uuid m ≠ nullUUID →
  tb_holds (ds_transactionBuffer x) pend → log_ok (ds_transactionBuffer x) → (isPersistent m = true → ¬ buffered pend (uuid m)) →
  wf_world (br_world b) → is_Some (queues (br_world b) !! tq) → heap (br_world b) !! br_fresh b = None →
  ∃ cm t r w', staged_copy number m = Some cm ∧
    push c number producer p b = Ok tt (set_br_world w' (set_br_fresh (S (br_fresh b)) (set_br_reads r (set_br_destinations
      (<[cs_destination cons := set_ds_transactionBuffer t x]> (br_destinations b)) b)))) ∧
    tb_holds t (record_staged (ss_suffix ss) pend cm) ∧ log_ok t ∧ wf_world w' ∧
    heap w' = <[br_fresh b := cm]> (heap (br_world b)) ∧
    queue_abs w' tq = requeued (queue_abs (br_world b) tq) [(br_fresh b, cm)] ∧
    (∀ q, q ≠ tq → queues w' !! q = queues (br_world b) !! q) ∧ is_Some (queues w' !! tq).
Proof.
  intros Hc Hd Hp Hpr Hs Hsuf Hfield Htq Hsel Hlen Hu Htb Hlog Hbuf Hw Hq Hnew.
  destruct (preparePush_staged c cons number producer p b m pr ss x pend) as (cm & t & r & S1 & S2 & S3 & S4); try done.
  exists cm, t, r. match type of S2 with _ = Ok _ ?s => set (b1 := s) in S2 end.
  assert (Hw1 : wf_world (br_world b1)) by (by apply wf_world_new).
  assert (Hcm : heap (br_world b1) !! br_fresh b = Some cm) by apply lookup_insert_eq.
  destruct (queue_enqueue_spec (br_world b1) tq (Some (br_fresh b)) Hw1 Hq) as (w' & Q1 & Q2 & Q3 & Q4 & Q5 & Q6);
    [by eexists|].
  exists w'. split; [done|]. split; [|split_and!; try done].
  - unfold push. rewrite (bind_ok _ _ _ _ _ (bConsumer_get _ _ _ Hc)), (bind_ok _ _ _ _ _ (message_get _ _ _ Hp)), Hsel.
    cbn [negb]. rewrite (bind_ok _ _ _ _ _ S2).
    erewrite (bind_ok _ _ _ _ _ (transactionIdOf_ok producer b1 pr ss _ _)). Unshelve. 2, 3: done.
    rewrite (bind_ok _ _ _ _ _ (message_get _ _ _ Hcm)), decide_False by done.
    assert (Hpr1 : br_producers b1 !! producer = Some pr) by done.
    rewrite (bind_ok _ _ _ _ _ (bProducer_get _ _ _ Hpr1)), Htq. cbn [require].
    by rewrite bind_ret, (bWorld_ok _ _ _ _ Q1).
  - rewrite Q4. unfold requeued, prio_of. simpl. by rewrite lookup_insert_eq.
Qed.

(** A producer in a transaction [ss_suffix ss], with its queue of staged messages, on a
    queue destination that the consumer [c] represents. *)
Record transacted (b : broker) (d : nat) (x : Destination) (c : nat) (cons : Consumer) (producer : nat)
    (pr : Producer) (ss : Session) (tq : nat) (pend : gmap string (list (UUID * bytes))) : Prop := {
  tr_destination : br_destinations b !! d = Some x;
  tr_family : isQueueFamily x = true;
  tr_first : ∃ rest, iter_set (ds_consumers x) = c :: rest;
  tr_consumer : br_consumers b !! c = Some cons;
  tr_home : cs_destination cons = d;
  tr_producer : br_producers b !! producer = Some pr;
  tr_to : pr_destination pr = d;
  tr_staging : pr_transactQueue pr = Some tq;
  tr_session : br_sessions b !! pr_session pr = Some ss;
  tr_id : ss_suffix ss ≠ "" ∧ field (ss_suffix ss);
  tr_world : wf_world (br_world b);
  tr_queues : is_Some (queues (br_world b) !! tq) ∧ is_Some (queues (br_world b) !! cs_queue cons);
  tr_apart : cs_queue cons ≠ tq;
  tr_empty : queue_abs (br_world b) tq = [];
  tr_fresh : ∀ i, (br_fresh b <= i)%nat → heap (br_world b) !! i = None;
  tr_buffer : tb_holds (ds_transactionBuffer x) pend;
  tr_log : log_ok (ds_transactionBuffer x);
  tr_new : pend !! ss_suffix ss = None
}.

(** The messages [sent] have been staged since [b], the next number is [number]. *)
Record staging (b : broker) (d : nat) (x : Destination) (tq : nat) (tx : string) (pend : gmap string (list (UUID * bytes)))
    (number : Z) (sent : list (nat * Message)) (b' : broker) : Prop := {
  sg_state : ∃ t, b' = set_br_world (br_world b') (set_br_fresh (br_fresh b') (set_br_reads (br_reads b') (set_br_destinations
      (<[d := set_ds_transactionBuffer t (set_ds_messageCounter number x)]> (br_destinations b)) b))) ∧
    tb_holds t (foldl (record_staged tx) pend sent.*2) ∧ log_ok t;
  sg_world : wf_world (br_world b');
  sg_fresh : ∀ i, (br_fresh b' <= i)%nat → heap (br_world b') !! i = None;
  sg_mono : (br_fresh b <= br_fresh b')%nat;
  sg_old : ∀ i, (i < br_fresh b)%nat → heap (br_world b') !! i = heap (br_world b) !! i;
  sg_copies : Forall (λ s, (br_fresh b <= s.1 < br_fresh b')%nat ∧ at_heap (br_world b') s) sent;
  sg_nodup : NoDup sent.*1;
  sg_staged : queue_abs (br_world b') tq = requeued [] sent;
  sg_open : is_Some (queues (br_world b') !! tq);
  sg_others : ∀ q, q ≠ tq → queues (br_world b') !! q = queues (br_world b) !! q
}.

(** A message that the transaction can take after [sent]. *)
Definition persistent_ids (ms : list Message) : list UUID := uuid <$> filter (λ m, isPersistent m = true) ms.
Record sendable (cons : Consumer) (pend : gmap string (list (UUID * bytes))) (m : Message) : Prop := {
  sd_uuid : length (uuid m) = 16%nat ∧ uuid m ≠ nullUUID;
  sd_accepted : matchesSelector (cs_selector cons) m = true;
  sd_new : isPersistent m = true → ¬ buffered pend (uuid m)
}.

Lemma buffered_record tx p cm u : buffered (record_staged tx p cm) u → buffered p u ∨ isPersistent cm = true ∧ u = uuid cm.
Proof.
  unfold record_staged, recorded. destruct (isPersistent cm); [|by left].
  intros (t & l & [[<- <-]|[_ Hl]]%lookup_insert_Some & Hu); [|left; by exists t, l].
  rewrite fmap_app in Hu. apply elem_of_app in Hu as [Hu|Hu%list_elem_of_singleton]; [left|by right].
  destruct (p !! tx) as [l|] eqn:Hl; [by exists tx, l|by apply not_elem_of_nil in Hu].
Qed.
Lemma buffered_staged tx p ms u : buffered (foldl (record_staged tx) p ms) u → buffered p u ∨ u ∈ persistent_ids ms.
Proof.
  revert p. induction ms as [|m ms IH]; intros p Hu; [by left|]. unfold persistent_ids. rewrite filter_cons.
  destruct (IH _ Hu) as [[Hp|[Hm ->]]%buffered_record|Hin]; [by left| |]; right.
  - rewrite decide_True by done. by left.
  - case_decide; [by right|done].
Qed.

(** The state after a push that has staged the copy [cm] at a fresh address. *)
Lemma staging_extends b d x tq tx pend number number' sent b' cm t' r w' :
  staging b d x tq tx pend number sent b' →
  tb_holds t' (record_staged tx (foldl (record_staged tx) pend sent.*2) cm) → log_ok t' → wf_world w' →
  heap w' = <[br_fresh b' := cm]> (heap (br_world b')) → queue_abs w' tq = requeued (queue_abs (br_world b') tq) [(br_fresh b', cm)] →
  is_Some (queues w' !! tq) → (∀ q, q ≠ tq → queues w' !! q = queues (br_world b') !! q) →
  staging b d x tq tx pend number' (sent ++ [(br_fresh b', cm)])
    (set_br_world w' (set_br_fresh (S (br_fresh b')) (set_br_reads r (set_br_destinations
      (<[d := set_ds_transactionBuffer t' (set_ds_messageCounter number' x)]> (br_destinations b')) b')))).
Proof.
  intros [(t & G1 & G2 & G3) G4 G5 G6 G7 G8 G9 G10 G11 G12] P3 P4 P5 P6 P7 P8 P9.
  split; cbn [br_world br_fresh br_reads br_destinations set_br_world set_br_fresh set_br_reads set_br_destinations].
  - exists t'. split; [|split; [|done]].
    + rewrite G1. unfold set_br_destinations. simpl. by rewrite insert_insert_eq.
    + by rewrite fmap_app, foldl_app.
  - done.
  - intros i Hi. rewrite P6, lookup_insert_ne by lia. apply G5. lia.
  - lia.
  - intros i Hi. rewrite P6, lookup_insert_ne by lia. by apply G7.
  - apply Forall_app. split.
    + eapply Forall_impl; [|exact G8]. intros o [Ho1 Ho2]. split; [lia|]. unfold at_heap in *. simpl. by rewrite P6, lookup_insert_ne by lia.
    + constructor; [|constructor]. split; [simpl; lia|]. unfold at_heap. simpl. rewrite P6. apply lookup_insert_eq.
  - rewrite fmap_app. apply list.NoDup_app. split; [done|]. split; [|apply NoDup_singleton].
    intros i (o & -> & Ho)%list_elem_of_fmap Hi. csimpl in Hi. apply list_elem_of_singleton in Hi.
    pose proof (proj1 (list.Forall_forall _ _) G8 o Ho) as [Hr _]. lia.
  - rewrite P7, G10. unfold requeued. by rewrite foldl_app.
  - done.
  - intros q Hq. rewrite P9 by done. by apply G12.
Qed.

Lemma save_staged b d x c cons producer pr ss tq pend number sent b' p m :
  transacted b d x c cons producer pr ss tq pend → staging b d x tq (ss_suffix ss) pend number sent b' →
  at_heap (br_world b) (p, m) → sendable cons pend m → (isPersistent m = true → uuid m ∉ persistent_ids sent.*2) →
  ∃ cm b'', staged_copy number m = Some cm ∧ save d producer p b' = Ok tt b'' ∧
    staging b d x tq (ss_suffix ss) pend (wrapS 64 (number + 1)) (sent ++ [(br_fresh b', cm)]) b''.
Proof.
  intros [T1 T2 (rest & T3) T4 T5 T6 T7 T8 T9 [T10 T10'] T11 [T12 T13] T14 T15 T16 T17 T18 T19] Hg Hp [[U1 U2] U3 U4] Hn.
  pose proof Hg as [(t & G1 & G2 & G3) G4 G5 G6 G7 G8 G9 G10 G11 G12].
  assert (Hold : (p < br_fresh b)%nat).
  { destruct (decide (p < br_fresh b)%nat) as [|Hge]; [done|]. unfold at_heap in Hp. simpl in Hp. by rewrite T16 in Hp by lia. }
  set (x1 := set_ds_transactionBuffer t (set_ds_messageCounter number x)) in *.
  assert (Hd : br_destinations b' !! d = Some x1) by (rewrite G1; apply lookup_insert_eq).
  set (x2 := set_ds_messageCounter (wrapS 64 (number + 1)) x1). set (b1 := set_br_destinations (<[d := x2]> (br_destinations b')) b').
  assert (H1 : bDest d (modify (set_ds_messageCounter (wrapS 64 (number + 1)))) b' = Ok tt b1).
  { unfold bDest. by rewrite (zoom_ok _ _ _ b' x1 tt x2). }
  assert (Hp1 : heap (br_world b1) !! p = Some m) by (simpl; rewrite G7 by done; exact Hp).
  destruct (push_staged c cons number producer p b1 m pr ss tq x2 (foldl (record_staged (ss_suffix ss)) pend sent.*2))
    as (cm & t' & r & w' & P1 & P2 & P3 & P4 & P5 & P6 & P7 & P8 & P9); try done; try (by simpl; rewrite G1).
  { rewrite T5. apply lookup_insert_eq. }
  { intros Hper [Hb|Hin]%buffered_staged; [by apply U4|by apply Hn]. }
  { simpl. by apply G5. }
  match type of P2 with _ = Ok tt ?s => set (b2 := s) in P2 end. exists cm, b2. split; [done|]. split.
  - unfold save. rewrite (bind_ok _ _ _ _ _ (bDest_get _ _ _ Hd)). cbv zeta.
    change (ds_messageCounter x1) with number. rewrite (bind_ok _ _ _ _ _ H1).
    change (ds_consumers x1) with (ds_consumers x). change (isQueueFamily x1) with (isQueueFamily x). rewrite T3, T2. cbn [pushAll].
    erewrite bind_ok by (by rewrite (bind_ok _ _ _ _ _ P2)).
    assert (Hp2 : heap (br_world b2) !! p = Some m) by (simpl; rewrite P6, lookup_insert_ne; [exact Hp1|simpl; lia]).
    rewrite (bind_ok _ _ _ _ _ (message_get _ _ _ Hp2)).
    erewrite (bind_ok _ _ _ _ _ (transactionIdOf_ok producer b2 pr ss _ _)). Unshelve. 2, 3: simpl; by rewrite G1.
    change (isTopicFamily x1) with (isTopicFamily x).
    assert (isTopicFamily x = false) as -> by (unfold isQueueFamily, isTopicFamily in *; by destruct (ds_type x)). done.
  - assert (Hb2 : b2 = set_br_world w' (set_br_fresh (S (br_fresh b')) (set_br_reads r (set_br_destinations
      (<[d := set_ds_transactionBuffer t' (set_ds_messageCounter (wrapS 64 (number + 1)) x)]> (br_destinations b')) b')))).
    { unfold b2, b1. rewrite T5. unfold set_br_destinations. simpl. by rewrite insert_insert_eq. }
    rewrite Hb2. by apply (staging_extends b d x tq (ss_suffix ss) pend number _ sent b' cm t' r w').
Qed.

(** The messages [ms] with consecutive numbers from [n]. *)
Fixpoint numbered {B} (f : Z → Message → B) (n : Z) (ms : list Message) : list B :=
  match ms with [] => [] | m :: ms => f n m :: numbered f (wrapS 64 (n + 1)) ms end.
(** What a transaction of the messages [ms] hands to the storage. *)
Definition transaction_batch (n : Z) (ms : list Message) : list (UUID * bytes) :=
  omap id (numbered staged_copy n ms) ≫= recorded.

Lemma save_all b d x c cons producer pr ss tq pend msgs : ∀ number sent b',
  transacted b d x c cons producer pr ss tq pend → staging b d x tq (ss_suffix ss) pend number sent b' →
  Forall (at_heap (br_world b)) msgs → Forall (λ pm, sendable cons pend pm.2) msgs →
  NoDup (persistent_ids (sent.*2 ++ msgs.*2)) →
  ∃ more number' b'', for_each (λ p, save d producer p) msgs.*1 b' = Ok tt b'' ∧
    staging b d x tq (ss_suffix ss) pend number' (sent ++ more) b'' ∧ Some <$> more.*2 = numbered staged_copy number msgs.*2.
Proof.
  induction msgs as [|[p m] msgs IH]; intros number sent b' Ht Hg Hh Hs Hn.
  { exists [], number, b'. rewrite app_nil_r. by split_and!. }
  apply Forall_cons_1 in Hh as [Hp Hh]. apply Forall_cons_1 in Hs as [Hm Hs]. csimpl in Hn.
  assert (Hids : ∀ ms ms', persistent_ids (ms ++ ms') = persistent_ids ms ++ persistent_ids ms').
  { intros ms ms'. unfold persistent_ids. by rewrite list.filter_app, fmap_app. }
  destruct (save_staged b d x c cons producer pr ss tq pend number sent b' p m Ht Hg Hp Hm) as (cm & b1 & S1 & S2 & S3).
  { intros Hper Hin. rewrite Hids in Hn. apply list.NoDup_app in Hn as (_ & Hn & _). apply (Hn _ Hin).
    unfold persistent_ids. rewrite filter_cons, decide_True by done. by left. }
  destruct (staged_copy_ok number m (proj1 (sd_uuid _ _ _ Hm))) as (cm' & C1 & _ & C2 & C3 & _).
  rewrite S1 in C1. injection C1 as <-.
  destruct (IH _ _ b1 Ht S3 Hh Hs) as (more & number' & b2 & R1 & R2 & R3).
  { rewrite fmap_app, <-app_assoc. csimpl. rewrite Hids in Hn |- *.
    assert (persistent_ids (cm :: msgs.*2) = persistent_ids (m :: msgs.*2)) as ->; [|done].
    unfold persistent_ids. rewrite !filter_cons. rewrite C3. case_decide; csimpl; [by rewrite C2|done]. }
  exists ((br_fresh b', cm) :: more), number', b2. csimpl. rewrite (bind_ok _ _ _ _ _ S2), S1, R3.
  split; [done|]. split; [|done]. by rewrite <-app_assoc in R2.
Qed.

Lemma record_staged_batch tx p ms :
  default [] (foldl (record_staged tx) p ms !! tx) = default [] (p !! tx) ++ (ms ≫= recorded) ∧
  delete tx (foldl (record_staged tx) p ms) = delete tx p.
Proof.
  revert p. induction ms as [|m ms IH]; intros p; csimpl; [by rewrite app_nil_r|].
  destruct (IH (record_staged tx p m)) as [-> ->]. unfold record_staged. destruct (recorded m) as [|r l]; [done|].
  rewrite lookup_insert_eq, delete_insert_eq. cbn [default from_option id]. by rewrite <-app_assoc.
Qed.

(** The entries of the staged messages in a queue. *)
Definition entry_of (pm : nat * Message) : Z * Ptr := (bandOf (Some (priority (jmsHeaders pm.2))), Some pm.1).
Definition prio (pm : nat * Message) : Z := bandOf (Some (priority (jmsHeaders pm.2))).
Lemma requeued_insert q l : requeued q l = foldl (λ q y, insert_by fst y q) q (entry_of <$> l).
Proof. revert q. induction l as [|pm l IH]; intros q; csimpl; [done|]. rewrite <-IH. by rewrite insert_prio_by. Qed.
Lemma requeued_empty l : requeued [] l = entry_of <$> inserted prio l.
Proof. rewrite requeued_insert. exact (inserted_fmap entry_of fst l). Qed.
Lemma requeued_staged q l : requeued q (inserted prio l) = requeued q l.
Proof.
  assert (E1 : entry_of <$> inserted prio l = inserted fst (entry_of <$> l)) by (symmetry; exact (inserted_fmap entry_of fst l)).
  rewrite !requeued_insert, E1. apply inserted_merge.
Qed.

Lemma numbered_copies (R : Message → Message → Prop) ms : ∀ n cms,
  Some <$> cms = numbered staged_copy n ms → Forall (λ m, length (uuid m) = 16%nat) ms →
  (∀ n m cm, length (uuid m) = 16%nat → staged_copy n m = Some cm → R m cm) → Forall2 R ms cms.
Proof.
  induction ms as [|m ms IH]; intros n [|cm cms] Heq Hl HR; csimpl in Heq; try done; try by constructor.
  injection Heq as H1 H2. apply Forall_cons_1 in Hl as [Hm Hl]. constructor; [by apply (HR n)|by eapply IH].
Qed.

(** What the storage of a destination is asked to take at the commit of [ms]. *)
Lemma batch_storable n ms cms l : Some <$> cms = numbered staged_copy n ms →
  Forall (λ m, length (uuid m) = 16%nat ∧ uuid m ≠ nullUUID) ms → NoDup (persistent_ids ms) →
  Forall (λ u, u ∉ uuids l) (persistent_ids ms) → storable_batch l (cms ≫= recorded).
Proof.
  intros Heq Hms Hn Hl.
  assert (H2 : Forall2 (λ m cm, uuid cm = uuid m ∧ isPersistent cm = isPersistent m ∧
    (isPersistent m = true → cachedStorageBytes cm ≠ [])) ms cms).
  { apply (numbered_copies _ ms n cms Heq); [eapply Forall_impl; [|exact Hms]; by intros m []|].
    intros k m cm Hm Hcm. destruct (staged_copy_ok k m Hm) as (cm' & E1 & _ & E2 & E3 & _ & E4). rewrite Hcm in E1. by injection E1 as <-. }
  clear Heq. assert (Hids : (cms ≫= recorded).*1 = persistent_ids ms).
  { clear Hms Hn Hl. unfold persistent_ids. induction H2 as [|m cm ms cms (E1 & E2 & E3) _ IH]; [done|]. csimpl.
    rewrite fmap_app, IH, filter_cons. unfold recorded. rewrite E2. destruct (isPersistent m).
    - rewrite decide_True by done. csimpl. by rewrite E1.
    - by rewrite decide_False by done. }
  split; [|rewrite <-Hids in Hl; rewrite Forall_fmap in Hl; exact Hl|by rewrite Hids].
  clear Hids Hn Hl. induction H2 as [|m cm ms cms (E1 & E2 & E3) _ IH]; csimpl; [constructor|].
  apply Forall_cons_1 in Hms as [[Hlen Hu] Hms]. apply Forall_app. split; [|by apply IH].
  unfold recorded. rewrite E2. destruct (isPersistent m); [|constructor]. repeat constructor; simpl; rewrite ?E1; auto.
Qed.
End Staging.
