(* ===== verification/Delays.v ===== *)
(** The delays of transacted messages: a delay starts when the transaction commits.
    What Producer::commit makes of a staged message, in the queue and in the
    transaction buffer, and where the destination then puts it. *)
From S2P Require Import Prelude Property Message JsonInstance MessageFacts StorageRecord PriorityQueue World DeliveryScheduler LinearStorage StorageWorker TransactionBuffer InFlight Broker Consumer Destination Session ConsumerFacts SendFacts Durability Replay Staging.
From Stdlib Require Import Lia ZifyBool.

(** *** Resolving a delay *)
(** A message as a transacted send with options leaves it (Producer::applyOptions). *)
Definition delayed (m : Message) : Prop :=
  deliveryTime (jmsHeaders m) = 0 ∧ 0 <= pendingDeliveryDelay m <= kMaxFutureHeaderMs.
(** The message with its delay counted from [now]. *)
Definition started (now : Z) (m : Message) : Message :=
  if 0 <? pendingDeliveryDelay m then
    set_pendingDeliveryDelay 0 (upd_hdr (set_deliveryTime (now + pendingDeliveryDelay m)) m)
  else m.
(** What a commit at [now] makes of the staged copy [cm]: its bytes are patched too. *)
Definition resolved (now : Z) (cm : Message) : Message :=
  if (0 <? pendingDeliveryDelay cm) && isPersistent cm
  then patchCachedDeliveryTime (now + pendingDeliveryDelay cm) (started now cm) else started now cm.

Lemma patchCached_bytes t m :
  patchCachedDeliveryTime t m = set_cachedStorageBytes (patchDeliveryTimeInBytes t (cachedStorageBytes m)) m.
Proof.
  assert (Hid : set_cachedStorageBytes (cachedStorageBytes m) m = m) by by destruct m.
  unfold patchCachedDeliveryTime, patchDeliveryTimeInBytes. case_decide; [done|]. destruct (negb _); [done|].
  by destruct (blit _ _ _).
Qed.
Lemma length_patch t data : length (patchDeliveryTimeInBytes t data) = length data.
Proof.
  unfold patchDeliveryTimeInBytes. case_decide; [done|]. destruct (negb _); [done|].
  destruct (blit _ _ _) as [data'|] eqn:Hb; [|done]. by apply length_blit in Hb.
Qed.

Lemma resolved_fields now m : uuid (resolved now m) = uuid m ∧ isPersistent (resolved now m) = isPersistent m ∧
  priority (jmsHeaders (resolved now m)) = priority (jmsHeaders m) ∧
  cachedStorageBytes (resolved now m)
    = (if (0 <? pendingDeliveryDelay m) && isPersistent m
       then patchDeliveryTimeInBytes (now + pendingDeliveryDelay m) (cachedStorageBytes m) else cachedStorageBytes m) ∧
  deliveryTime (jmsHeaders (resolved now m))
    = (if 0 <? pendingDeliveryDelay m then now + pendingDeliveryDelay m else deliveryTime (jmsHeaders m)).
Proof. unfold resolved, started. rewrite patchCached_bytes. destruct (0 <? pendingDeliveryDelay m); [|done]. by destruct (isPersistent m) eqn:?. Qed.

(** Staging and resolving commute: the bytes that are patched in place are those a send
    with this delivery time would have serialised. *)
Lemma resolved_staged {E : Environment} now n m cm : length (uuid m) = 16%nat → staged_copy n m = Some cm →
  staged_copy n (started now m) = Some (resolved now cm).
Proof.
  intros Hu. unfold staged_copy. destruct (isPersistent m) eqn:Hp.
  - destruct (storageBytes (pushed n m)) as [data|] eqn:Hs; [|done]. simpl. intros [= <-].
    unfold resolved, started. cbn [pendingDeliveryDelay isPersistent reliability set_cachedStorageBytes pushed copy set_number set_body].
    assert (Hp' : isPersistent (set_cachedStorageBytes data (pushed n m)) = true) by exact Hp. rewrite Hp'.
    change (pendingDeliveryDelay (set_cachedStorageBytes data (set_number n (copy m)))) with (pendingDeliveryDelay m).
    change (pendingDeliveryDelay (set_cachedStorageBytes data (pushed n m))) with (pendingDeliveryDelay m).
    destruct (0 <? pendingDeliveryDelay m); cbn [andb].
    + assert (Hp2 : isPersistent (set_pendingDeliveryDelay 0 (upd_hdr (set_deliveryTime (now + pendingDeliveryDelay m)) m)) = true) by exact Hp.
      rewrite Hp2. set (t := now + pendingDeliveryDelay m).
      assert (storageBytes (pushed n (set_pendingDeliveryDelay 0 (upd_hdr (set_deliveryTime t) m))) = Some (patchDeliveryTimeInBytes t data)) as ->.
      { change (storageBytes (upd_hdr (set_deliveryTime t) (pushed n m)) = Some (patchDeliveryTimeInBytes t data)).
        by rewrite (storageBytes_set_deliveryTime (pushed n m) t Hu), Hs. }
      simpl. by rewrite patchCached_bytes.
    + by rewrite Hp, Hs.
  - intros [= <-]. unfold resolved, started. change (isPersistent (pushed n m)) with (isPersistent m). rewrite Hp, andb_false_r.
    change (pendingDeliveryDelay (pushed n m)) with (pendingDeliveryDelay m). destruct (0 <? pendingDeliveryDelay m); [|by rewrite Hp].
    assert (Hp2 : isPersistent (set_pendingDeliveryDelay 0 (upd_hdr (set_deliveryTime (now + pendingDeliveryDelay m)) m)) = false) by exact Hp.
    by rewrite Hp2.
Qed.
Lemma persistent_started now m : isPersistent (started now m) = isPersistent m.
Proof. unfold started. by destruct (0 <? _). Qed.
Lemma uuid_started now m : uuid (started now m) = uuid m.
Proof. unfold started. by destruct (0 <? _). Qed.
Lemma started_ids now ms : persistent_ids (started now <$> ms) = persistent_ids ms.
Proof.
  unfold persistent_ids. induction ms as [|m ms IH]; [done|]. csimpl. rewrite !filter_cons, persistent_started.
  case_decide; csimpl; by rewrite ?IH, ?uuid_started.
Qed.
Lemma numbered_resolved {E : Environment} now ms : ∀ n cms, Some <$> cms = numbered staged_copy n ms → Forall (λ m, length (uuid m) = 16%nat) ms →
  Some <$> (resolved now <$> cms) = numbered staged_copy n (started now <$> ms).
Proof.
  induction ms as [|m ms IH]; intros n [|cm cms] Heq Hl; csimpl in Heq; try done.
  injection Heq as H1 H2. apply Forall_cons_1 in Hl as [Hm Hl]. csimpl.
  by rewrite (resolved_staged now n m cm Hm (eq_sym H1)), (IH _ _ H2 Hl).
Qed.

(** *** The patches of the buffer *)
Definition patch_for (now : Z) (p : gmap string (list (UUID * bytes))) (m : Message) : gmap string (list (UUID * bytes)) :=
  if (0 <? pendingDeliveryDelay m) && isPersistent m then spec_pend p (TPatch (uuid m) (now + pendingDeliveryDelay m)) else p.
Definition patch_item (now : Z) (ud : UUID * bytes) (m : Message) : UUID * bytes :=
  if (0 <? pendingDeliveryDelay m) && isPersistent m then patch_if (uuid m) (now + pendingDeliveryDelay m) ud else ud.

Lemma patches_items now ms : ∀ p, foldl (patch_for now) p ms = (λ l : list (UUID * bytes), (λ ud, foldl (patch_item now) ud ms) <$> l) <$> p.
Proof.
  induction ms as [|m ms IH]; intros p; simpl.
  - symmetry. rewrite <-(map_fmap_id p) at 2. apply map_fmap_ext. intros tx l _. apply list_fmap_id.
  - rewrite IH. unfold patch_for, patch_item at 3. destruct (_ && _); [|done]. simpl. rewrite <-map_fmap_compose.
    apply map_fmap_ext. intros tx l _. simpl. by rewrite <-list_fmap_compose.
Qed.
Lemma patch_item_id now ud m : (patch_item now ud m).1 = ud.1.
Proof. unfold patch_item, patch_if. destruct (_ && _); [|done]. by case_decide. Qed.
Lemma patch_item_other now ud ms : ud.1 ∉ persistent_ids ms → foldl (patch_item now) ud ms = ud.
Proof.
  revert ud. induction ms as [|m ms IH]; intros ud Hn; simpl; [done|]. unfold persistent_ids in Hn. rewrite filter_cons in Hn.
  assert (patch_item now ud m = ud) as ->.
  { unfold patch_item, patch_if. destruct (isPersistent m); [|by rewrite andb_false_r]. rewrite decide_True in Hn by done. csimpl in Hn.
    destruct (_ && _); [|done]. rewrite decide_False; [done|]. set_solver. }
  apply IH. destruct (decide (isPersistent m = true)); [|done]. csimpl in Hn. set_solver.
Qed.
Lemma persistent_ids_app ms ms' : persistent_ids (ms ++ ms') = persistent_ids ms ++ persistent_ids ms'.
Proof. unfold persistent_ids. by rewrite list.filter_app, fmap_app. Qed.
Lemma persistent_ids_cons m ms : isPersistent m = true → persistent_ids (m :: ms) = uuid m :: persistent_ids ms.
Proof. intros H. unfold persistent_ids. by rewrite filter_cons, decide_True by done. Qed.
Lemma persistent_ids_perm ms ms' : ms ≡ₚ ms' → persistent_ids ms ≡ₚ persistent_ids ms'.
Proof. unfold persistent_ids. by intros ->. Qed.
(** A message's own bytes are patched once. *)
Lemma patch_item_own now m data ms : NoDup (persistent_ids ms) → m ∈ ms → isPersistent m = true →
  foldl (patch_item now) (uuid m, data) ms = patch_item now (uuid m, data) m.
Proof.
  intros Hn Hin Hp. apply list_elem_of_split in Hin as (l1 & l2 & ->).
  rewrite persistent_ids_app, (persistent_ids_cons _ _ Hp) in Hn.
  apply list.NoDup_app in Hn as (_ & H1 & [H2 _]%list.NoDup_cons). rewrite foldl_app, (patch_item_other now (uuid m, data) l1). 
  - simpl. rewrite patch_item_other; [done|]. by rewrite patch_item_id.
  - intros Hin. apply (H1 _ Hin). by left.
Qed.

(** The buffered data of the transaction's messages become the resolved copies' data. *)
Lemma recorded_resolved now ms sent : NoDup (persistent_ids ms) → sent ⊆ ms →
  (λ ud, foldl (patch_item now) ud ms) <$> (sent ≫= recorded) = (resolved now <$> sent) ≫= recorded.
Proof.
  intros Hn. induction sent as [|m sent IH]; intros Hin; [done|]. csimpl. rewrite fmap_app, IH by set_solver. f_equal.
  destruct (resolved_fields now m) as (E1 & E2 & _ & E4 & _). unfold recorded. rewrite E1, E2, E4.
  destruct (isPersistent m) eqn:Hp; [|done]. cbn [fmap list_fmap]. rewrite patch_item_own by (done || set_solver).
  unfold patch_item, patch_if. rewrite Hp. destruct (_ && _); [|done]. by rewrite decide_True.
Qed.
Lemma batchSize_resolved now ms : batchSize ((resolved now <$> ms) ≫= recorded) = batchSize (ms ≫= recorded).
Proof.
  assert (Happ : ∀ l l', batchSize (l ++ l') = batchSize l + batchSize l').
  { intros l l'. induction l as [|ud l IH]; [done|]. change (32 + Z.of_nat (length ud.2) + batchSize (l ++ l') = 32 + Z.of_nat (length ud.2) + batchSize l + batchSize l'). lia. }
  induction ms as [|m ms IH]; [done|]. csimpl. rewrite !Happ, IH. f_equal.
  destruct (resolved_fields now m) as (E1 & E2 & _ & E4 & _). unfold recorded. rewrite E1, E2, E4.
  destruct (isPersistent m); [|done]. unfold batchSize. simpl. destruct (_ && _); [|done]. by rewrite length_patch.
Qed.

Section Delays.
Context {E : Environment} {EOk : EnvironmentOk E} {TU : PocoTextOk env_text env_uuid} (Hclock : steady).

Lemma nowAt_room i : 0 <= nowAt i ∧ nowAt i + kMaxFutureHeaderMs <= INT64_MAX.
Proof.
  pose proof (sd_range Hclock i) as H. unfold nowAt. rewrite Z.quot_div_nonneg by lia.
  split; [apply Z.div_pos; lia|]. assert (clock i / 1000 <= INT64_MAX / 1000) by (apply Z.div_le_mono; lia).
  change (INT64_MAX / 1000) with 9223372036854775 in *. unfold kMaxFutureHeaderMs, INT64_MAX. lia.
Qed.

(** The destination with another transaction buffer. *)
Definition with_buffer (d : nat) (t : TB) (x : Destination) (b : broker) : broker :=
  set_br_destinations (<[d := set_ds_transactionBuffer t x]> (br_destinations b)) b.

Lemma resolveDelay_ok d x p m b pend i :
  br_destinations b !! d = Some x → heap (br_world b) !! p = Some m →
  tb_holds (ds_transactionBuffer x) pend → log_ok (ds_transactionBuffer x) → 0 <= pendingDeliveryDelay m <= kMaxFutureHeaderMs →
  ∃ t, resolveDelay d (nowAt i) p b = Ok tt (with_buffer d t x (with_message p (resolved (nowAt i) m) b)) ∧
    tb_holds t (patch_for (nowAt i) pend m) ∧ log_ok t.
Proof.
  intros Hd Hp Htb Hlog Hdelay. pose proof (nowAt_room i) as Hroom. set (now := nowAt i) in *.
  assert (Hsame : ∀ b, br_destinations b !! d = Some x → with_buffer d (ds_transactionBuffer x) x b = b).
  { intros b0 Hd0. unfold with_buffer. assert (set_ds_transactionBuffer (ds_transactionBuffer x) x = x) as -> by by destruct x.
    rewrite insert_id by done. by destruct b0. }
  unfold resolveDelay. rewrite (bind_ok _ _ _ _ _ (message_get _ _ _ Hp)). unfold patch_for, resolved, started.
  destruct (0 <? pendingDeliveryDelay m) eqn:Hpos; cbn [andb].
  2: { exists (ds_transactionBuffer x). rewrite Hsame by done. split; [|done]. unfold with_message. rewrite insert_id by done.
       assert (set_heap (heap (br_world b)) (br_world b) = br_world b) as -> by by destruct (br_world b). by destruct b. }
  set (t := now + pendingDeliveryDelay m).
  assert (Hc : checkS 64 t b = Ok t b).
  { unfold checkS. rewrite decide_True; [done|]. unfold inS, t. change (2 ^ (64 - 1)) with (INT64_MAX + 1). lia. }
  rewrite (bind_ok _ _ _ _ _ Hc), (bind_ok _ _ _ _ _ (bWorld_update p _ _ _ Hp)).
  set (m1 := set_pendingDeliveryDelay 0 (upd_hdr (set_deliveryTime t) m)). destruct (isPersistent m).
  - destruct (patch_sim (ds_transactionBuffer x) pend (uuid m) t Htb Hlog) as (tb & T1 & T2 & T3).
    exists tb. split; [|done]. unfold patchPendingDeliveryTime.
    rewrite (bind_ok _ _ _ _ _ (bTB_ok d _ (with_message p m1 b) x tt tb Hd T1)).
    erewrite bWorld_update by apply with_message_at. unfold with_message. simpl. by rewrite insert_insert_eq.
  - exists (ds_transactionBuffer x). by rewrite Hsame.
Qed.

Lemma wf_world_at w p m m' : heap w !! p = Some m → wf_world w → wf_world (set_heap (<[p := m']> (heap w)) w).
Proof.
  intros Hp Hw. apply wf_world_heap; [|done]. intros j Hj.
  destruct (decide (j = p)) as [->|]; [rewrite lookup_insert_eq; by eexists|by rewrite lookup_insert_ne].
Qed.

(** The staged messages, taken from their queue with their delays resolved. *)
Lemma stage_resolves d tq i ms : ∀ fuel b x pend,
  (length ms < fuel)%nat → wf_world (br_world b) → is_Some (queues (br_world b) !! tq) → br_destinations b !! d = Some x →
  tb_holds (ds_transactionBuffer x) pend → log_ok (ds_transactionBuffer x) →
  queue_abs (br_world b) tq = entry_of <$> ms → NoDup ms.*1 → Forall (λ pm, at_heap (br_world b) pm ∧ delayed pm.2) ms →
  ∃ w t, stage fuel d tq (nowAt i) b = Ok (ms.*1) (with_buffer d t x (set_br_world w b)) ∧ wf_world w ∧
    tb_holds t (foldl (patch_for (nowAt i)) pend ms.*2) ∧ log_ok t ∧
    Forall (λ pm, heap w !! pm.1 = Some (resolved (nowAt i) pm.2)) ms ∧
    (∀ p, p ∉ ms.*1 → heap w !! p = heap (br_world b) !! p) ∧
    is_Some (queues w !! tq) ∧ queue_abs w tq = [] ∧ ∀ q, q ≠ tq → queues w !! q = queues (br_world b) !! q.
Proof.
  induction ms as [|[p m] ms IH]; intros [|fuel] b x pend Hf Hw Hq Hd Htb Hlog Habs Hnd Hms; simpl in Hf; try lia;
    destruct (queue_try_dequeue_spec _ _ Hw Hq) as (r & w & D1 & D2 & D3 & D4 & D5 & D6); rewrite Habs in D6; csimpl in D6;
    destruct D6 as [-> D6]; cbn [stage]; rewrite (bind_ok _ _ _ _ _ (bWorld_ok _ _ _ _ D1)).
  - exists w, (ds_transactionBuffer x). split; [|split_and!; try done; by rewrite D3]. unfold with_buffer.
    assert (set_ds_transactionBuffer (ds_transactionBuffer x) x = x) as -> by by destruct x. rewrite insert_id by done. by destruct b.
  - apply Forall_cons_1 in Hms as [[Hp [_ Hdelay]] Hms]. unfold at_heap in Hp. simpl in Hp, Hdelay. csimpl in Hnd.
    apply list.NoDup_cons in Hnd as [Hnew Hnd].
    assert (Hp1 : heap (br_world (set_br_world w b)) !! p = Some m) by (simpl; by rewrite D3).
    destruct (resolveDelay_ok d x p m (set_br_world w b) pend i Hd Hp1 Htb Hlog Hdelay) as (t & R1 & R2 & R3).
    rewrite (bind_ok _ _ _ _ _ R1). match type of R1 with _ = Ok tt ?s => set (b1 := s) in * end.
    destruct (IH fuel b1 (set_ds_transactionBuffer t x) (patch_for (nowAt i) pend m))
      as (w2 & t2 & S1 & S2 & S3 & S4 & S5 & S6 & S7 & S8 & S9); [lia|by apply (wf_world_at w p m)|done|apply lookup_insert_eq|done..| |].
    { apply list.Forall_forall. intros pm Hin. destruct (proj1 (list.Forall_forall _ _) Hms pm Hin) as [H1 H2]. split; [|done].
      unfold at_heap in *. simpl. rewrite lookup_insert_ne; [by rewrite D3|]. intros ->. apply Hnew. by apply list_elem_of_fmap_2. }
    exists w2, t2. rewrite (bind_ok _ _ _ _ _ S1). split; [|split_and!; try done].
    + cbn [mret M_ret fmap list_fmap fst]. unfold with_buffer, b1. simpl. unfold set_br_destinations. simpl. by rewrite insert_insert_eq.
    + constructor; [|done]. cbn [fst snd]. rewrite S6 by done. apply lookup_insert_eq.
    + intros p' [Hne Hp']%not_elem_of_cons. rewrite S6 by done. simpl. rewrite lookup_insert_ne by done. by rewrite D3.
    + intros q Hne. rewrite S9 by done. by apply D5.
Qed.

(** *** Where the committed messages go *)
(** [ms] parted into what was due by [t1] and what was not yet at [t0], each in order. *)
Record parted (t0 t1 : Z) (ms due later : list (nat * Message)) : Prop := {
  pt_all : due ++ later ≡ₚ ms;
  pt_due : due `sublist_of` ms;
  pt_later : later `sublist_of` ms;
  pt_passed : Forall (λ pm, deliveryTime (jmsHeaders pm.2) <= t1) due;
  pt_future : Forall (λ pm, t0 < deliveryTime (jmsHeaders pm.2)) later
}.
(** The entries of a scheduler after [later] was armed for the queue [q]. *)
Definition scheduled (q : nat) (l : list (Z * Entry)) (later : list (nat * Message)) : list (Z * Entry) :=
  foldl (λ l pm, emplace (deliveryTime (jmsHeaders pm.2)) (DeliveryScheduler.mkEntry q (Some pm.1)) l) l later.
Lemma parted_mono t0 t1 t0' t1' ms due later : t0' <= t0 → t1 <= t1' → parted t0 t1 ms due later → parted t0' t1' ms due later.
Proof.
  intros H2 H3 [P1 P2 P3 P4 P5]. split; [done..| |]; (eapply Forall_impl; [|eassumption]); intros o Ho; cbv beta in Ho |- *; lia.
Qed.
Lemma parted_due t0 t1 ms due later pm : deliveryTime (jmsHeaders pm.2) <= t1 → parted t0 t1 ms due later → parted t0 t1 (pm :: ms) (pm :: due) later.
Proof. intros H1 [P1 P2 P3 P4 P5]. split; [by simpl; f_equiv|by apply sublist_skip|by apply sublist_cons|by constructor|done]. Qed.
Lemma parted_later t0 t1 ms due later pm : t0 < deliveryTime (jmsHeaders pm.2) → parted t0 t1 ms due later → parted t0 t1 (pm :: ms) due (pm :: later).
Proof.
  intros H1 [P1 P2 P3 P4 P5].
  split; [by rewrite <-Permutation_middle; f_equiv|by apply sublist_cons|by apply sublist_skip|done|by constructor].
Qed.

Lemma deliver_each d c rest cons ms : ∀ b x,
  br_destinations b !! d = Some x → isQueueFamily x = true → iter_set (ds_consumers x) = c :: rest →
  br_consumers b !! c = Some cons → wf_world (br_world b) → is_Some (queues (br_world b) !! cs_queue cons) →
  stopped (ds_scheduler x) = false →
  Forall (λ pm, at_heap (br_world b) pm ∧ 0 <= deliveryTime (jmsHeaders pm.2) <= startOf b + kMaxFutureHeaderMs) ms →
  ∃ w n sch due later, for_each (deliverCommitted d) ms.*1 b = Ok tt (with_scheduler d sch x (set_br_world w (ticks n b))) ∧
    wf_world w ∧ heap w = heap (br_world b) ∧ parted (startOf b) (nowAt (n + br_reads b)) ms due later ∧
    queue_abs w (cs_queue cons) = requeued (queue_abs (br_world b) (cs_queue cons)) due ∧
    (∀ q, q ≠ cs_queue cons → queues w !! q = queues (br_world b) !! q) ∧
    DeliveryScheduler.pending sch = scheduled (cs_queue cons) (DeliveryScheduler.pending (ds_scheduler x)) later ∧ stopped sch = false.
Proof.
  induction ms as [|[p m] ms IH]; intros b x Hd Hfam Hiter Hc Hw Hq Hst Hms.
  { exists (br_world b), 0%nat, (ds_scheduler x), [], []. split; [|by split_and!].
    unfold with_scheduler. simpl. rewrite insert_id; [by destruct b|]. rewrite Hd. by destruct x. }
  apply Forall_cons_1 in Hms as [[Hp Ht] Hms]. cbn [snd] in Ht.
  assert (Hone : deliverCommitted d p b = dest_enqueueOrSchedule d (cs_queue cons) (Some p) b).
  { unfold deliverCommitted. by rewrite (bind_ok _ _ _ _ _ (bDest_get _ _ _ Hd)), Hfam, Hiter, (bind_ok _ _ _ _ _ (bConsumer_get _ _ _ Hc)). }
  pose proof (enqueue_or_arm Hclock d x (cs_queue cons) p m b Hd Hw Hq Hp Ht Hst) as Ha. cbv zeta in Ha. rewrite <-Hone in Ha.
  assert (Hmono : ∀ n, startOf b <= nowAt (n + br_reads b)) by (intros n; apply (nowAt_mono Hclock); lia).
  assert (Hms' : ∀ w, heap w = heap (br_world b) → ∀ t2, startOf b <= t2 →
    Forall (λ pm, at_heap w pm ∧ 0 <= deliveryTime (jmsHeaders pm.2) <= t2 + kMaxFutureHeaderMs) ms).
  { intros w Hh t2 Ht2. eapply Forall_impl; [|exact Hms]. intros pm [H1 H2]. unfold at_heap in *. rewrite Hh. split; [done|lia]. }
  destruct (deliveryTime (jmsHeaders m) <=? nowAt (S (br_reads b))) eqn:Hdue.
  - destruct Ha as (w & Q1 & Q2 & Q3 & Q4 & Q5 & Q6). set (b1 := set_br_world w (ticks 2 b)) in *.
    destruct (IH b1 x) as (w2 & n & sch & du & la & R1 & R2 & R3 & R4 & R5 & R6 & R7 & R8); try done.
    { apply Hms'; [done|]. apply (Hmono 2%nat). }
    change (br_reads b1) with (2 + br_reads b)%nat in R4. rewrite Nat.add_assoc in R4.
    exists w2, (n + 2)%nat, sch, ((p, m) :: du), la. csimpl. rewrite (bind_ok _ _ _ _ _ Q1), R1.
    split; [|split_and!; try done].
    + unfold with_scheduler, ticks, b1. simpl. by replace (n + 2 + br_reads b)%nat with (n + S (S (br_reads b)))%nat by lia.
    + by rewrite R3.
    + apply parted_due; [cbn [snd]|exact (parted_mono _ _ _ _ _ _ _ (Hmono 2%nat) (Z.le_refl _) R4)].
      pose proof (nowAt_mono Hclock (S (br_reads b)) (n + 2 + br_reads b) ltac:(lia)). lia.
    + rewrite R5. unfold requeued. simpl. by rewrite Q4.
    + intros q Hne. rewrite R6 by done. by apply Q6.
  - set (sch1 := arm _ _ _) in Ha. set (x1 := set_ds_scheduler sch1 x) in Ha. set (b1 := set_br_destinations _ _) in Ha.
    destruct (IH b1 x1) as (w2 & n & sch & du & la & R1 & R2 & R3 & R4 & R5 & R6 & R7 & R8); try done.
    { apply lookup_insert_eq. }
    { apply Hms'; [done|]. apply (Hmono 2%nat). }
    change (br_reads b1) with (2 + br_reads b)%nat in R4. rewrite Nat.add_assoc in R4.
    exists w2, (n + 2)%nat, sch, du, ((p, m) :: la). csimpl. rewrite (bind_ok _ _ _ _ _ Ha), R1.
    split; [|split_and!; try done].
    + unfold with_scheduler, ticks, b1. unfold set_br_destinations, set_br_world, set_br_reads. simpl. rewrite insert_insert_eq.
      by replace (n + 2 + br_reads b)%nat with (n + S (S (br_reads b)))%nat by lia.
    + apply parted_later; [cbn [snd]|exact (parted_mono _ _ _ _ _ _ _ (Hmono 2%nat) (Z.le_refl _) R4)].
      pose proof (Hmono 1%nat) as H1. simpl in H1. lia.
Qed.
End Delays.
