(* ===== verification/Receives.v ===== *)
(** The receipts of a transacted session: what recv stages, what a commit drops from
    the storage, and what a rollback puts back. *)
From S2P Require Import Prelude Property Message JsonInstance MessageFacts StorageRecord PriorityQueue World DeliveryScheduler LinearStorage StorageWorker TransactionBuffer InFlight Broker Consumer Destination Session ConsumerFacts SendFacts Durability Replay Staging Delays.
From Stdlib Require Import Lia ZifyBool.

Section Receives.
Context {E : Environment} {EOk : EnvironmentOk E}.

(** [n] calls of recv, one after the other. *)
Fixpoint recvs (c : nat) (usec_timeout : Z) (n : nat) : M broker (list received) :=
  match n with
  | O => mret []
  | S n => r ← recv c usec_timeout; rs ← recvs c usec_timeout n; mret (r :: rs)
  end.

(** A consumer of a transacted session with the messages [rest] in its queue and [taken]
    staged in its transacted queue [rq]. *)
Record receiving (b : broker) (c : nat) (cons : Consumer) (s : Session) (rq : nat) (taken rest : list (nat * Message)) : Prop := {
  rv_holding : holding b c cons s rest;
  rv_mode : ss_mode s = SESSION_TRANSACTED;
  rv_staging : cs_transactQueue cons = Some rq;
  rv_open : is_Some (queues (br_world b) !! rq);
  rv_apart : rq ≠ cs_queue cons;
  rv_entries : queue_abs (br_world b) rq = entry_of <$> inserted prio taken;
  rv_taken : Forall (at_heap (br_world b)) taken;
  rv_distinct : NoDup (taken ++ rest).*1
}.
Lemma entry_inserted (l : list (nat * Message)) pm :
  Seq.insert_prio (bandOf (Some (priority (jmsHeaders pm.2)))) (Some pm.1) (entry_of <$> inserted prio l)
  = entry_of <$> inserted prio (l ++ [pm]).
Proof. rewrite <-!requeued_empty. unfold requeued. by rewrite foldl_app. Qed.

Lemma recv_staged b c cons s rq taken p m rest usec : receiving b c cons s rq taken ((p, m) :: rest) → isExpired (startOf b) m = false →
  ∃ w n, (n <= 1)%nat ∧ recv c usec b = Ok (Returned (Some p)) (set_br_world w (ticks n b)) ∧
    receiving (set_br_world w (ticks n b)) c cons s rq (taken ++ [(p, m)]) rest ∧
    ∀ q, q ≠ rq → q ≠ cs_queue cons → queues w !! q = queues (br_world b) !! q.
Proof.
  intros [Hh Hmode Hrq Hopen Hne Habs Htaken Hnd] Hlive.
  destruct (take_one _ _ _ _ _ _ _ Hh) as (w' & T1 & T2 & T3).
  pose proof (hd_consumer _ _ _ _ _ Hh) as Hc. pose proof (hd_session _ _ _ _ _ Hh) as Hs.
  destruct (queue_try_dequeue_spec (br_world b) (cs_queue cons) (hd_world _ _ _ _ _ Hh) (hd_queue _ _ _ _ _ Hh))
    as (r & w0 & D1 & _ & D3 & _ & D5 & _).
  assert (w' = w0) as ->.
  { rewrite (bWorld_ok _ _ _ _ D1) in T1. by injection T1. }
  set (b1 := with_message p m (set_br_world w0 b)) in *. destruct (isExpiredNow_ok m b1) as (n & Hn1 & Hn).
  change (startOf b1) with (startOf b) in Hn. rewrite Hlive in Hn.
  assert (Hq1 : is_Some (queues (br_world b1) !! rq)) by (simpl; by rewrite D5).
  assert (Hw1 : wf_world (br_world b1)) by apply T3.
  assert (Hp1 : heap (br_world b1) !! p = Some m) by apply with_message_at.
  destruct (queue_enqueue_spec (br_world b1) rq (Some p) Hw1 Hq1) as (w & Q1 & Q2 & Q3 & Q4 & Q5 & Q6); [by exists m|].
  exists w, n. split; [done|]. split; [|split].
  - unfold recv. rewrite (bind_ok _ _ _ _ _ (bConsumer_get _ _ _ Hc)), (bind_ok _ _ _ _ _ (queueLength_get _ _)). cbn [recvLoop].
    rewrite (bind_ok _ _ _ _ _ (bConsumer_get _ _ _ Hc)), (bind_ok _ _ _ _ _ T1), (bind_ok _ _ _ _ _ T2), (bind_ok _ _ _ _ _ (message_get _ _ _ Hp1)).
    rewrite (bind_ok _ _ _ _ _ Hn). cbn iota.
    assert (Ht : track c p (ticks n b1) = Ok tt (set_br_world w (ticks n b))).
    { unfold track. assert (Hc1 : br_consumers (ticks n b1) !! c = Some cons) by done. rewrite (bind_ok _ _ _ _ _ (bConsumer_get _ _ _ Hc1)).
      assert (Hs1 : br_sessions (ticks n b1) !! cs_session cons = Some s) by done. rewrite (bind_ok _ _ _ _ _ (bSession_get _ _ _ Hs1)), Hmode, Hrq.
      assert (Hb : bWorld (queue_enqueue rq (Some p)) (ticks n b1) = Ok tt (set_br_world w (ticks n b1))) by by apply bWorld_ok. exact Hb. }
    by rewrite (bind_ok _ _ _ _ _ Ht).
  - destruct T3 as [H1 H2 H3 H4 H5 H6 H7 H8]. rewrite fmap_app in Hnd. csimpl in Hnd.
    split; simpl; try done.
    + split; simpl; try done; [by rewrite Q5|by rewrite (queue_abs_other (br_world b1) w) by (by apply Q5)|].
      eapply Forall_impl; [|exact H8]. intros pm (m0 & E1 & E2). exists m0. by rewrite Q3.
    + rewrite Q4, (queue_abs_other (br_world b) (br_world b1)) by (by apply D5). rewrite Habs.
      unfold prio_of. cbn [mbind option_bind]. rewrite Hp1. cbn [mbind option_bind]. exact (entry_inserted taken (p, m)).
    + apply Forall_app. split; [|constructor; [|constructor]].
      * apply list.NoDup_app in Hnd as (_ & Hnd & _). apply list.Forall_forall. intros pm Hin.
        pose proof (proj1 (list.Forall_forall _ _) Htaken pm Hin) as Hpm. unfold at_heap in *. rewrite Q3. simpl. rewrite lookup_insert_ne; [by rewrite D3|].
        intros ->. apply (Hnd pm.1); [by apply list_elem_of_fmap_2|by left].
      * unfold at_heap. by rewrite Q3.
    + by rewrite <-app_assoc, fmap_app.
  - intros q Hq1' Hq2. rewrite Q5 by done. simpl. by apply D5.
Qed.

Lemma recvs_staged c cons s rq usec last msgs : steady → Forall (λ pm, isExpired (nowAt last) pm.2 = false) msgs →
  ∀ b taken rest, receiving b c cons s rq taken (msgs ++ rest) → (br_reads b + length msgs <= last)%nat →
  ∃ w n, recvs c usec (length msgs) b = Ok ((λ pm, Returned (Some pm.1)) <$> msgs) (set_br_world w (ticks n b)) ∧
    receiving (set_br_world w (ticks n b)) c cons s rq (taken ++ msgs) rest ∧
    ∀ q, q ≠ rq → q ≠ cs_queue cons → queues w !! q = queues (br_world b) !! q.
Proof.
  intros Hclock. induction msgs as [|[p m] msgs IH]; intros Hl b taken rest Hr Hlast.
  { exists (br_world b), 0%nat. assert (set_br_world (br_world b) (ticks 0 b) = b) as -> by by destruct b. rewrite app_nil_r. by split_and!. }
  apply Forall_cons_1 in Hl as [Hm Hl]. simpl in Hm, Hlast.
  assert (isExpired (startOf b) m = false) as Hnow.
  { apply not_true_iff_false. intros Hx. apply (isExpired_mono _ (nowAt last)) in Hx; [by rewrite Hx in Hm|].
    apply (nowAt_mono Hclock). lia. }
  destruct (recv_staged _ _ _ _ _ _ _ _ _ usec Hr Hnow) as (w & n & Hn & R1 & R2 & R3).
  destruct (IH Hl _ _ _ R2) as (w2 & n2 & S1 & S2 & S3); [simpl; lia|]. simpl in S3. rewrite <-app_assoc in S2.
  assert (Heq : set_br_world w2 (ticks n2 (set_br_world w (ticks n b))) = set_br_world w2 (ticks (n2 + n) b)).
  { unfold set_br_world, ticks, set_br_reads. simpl. f_equal. lia. }
  rewrite Heq in S1, S2. exists w2, (n2 + n)%nat. split; [|split; [exact S2|]].
  - cbn [length recvs]. by rewrite (bind_ok _ _ _ _ _ R1), (bind_ok _ _ _ _ _ S1).
  - intros q H1 H2. rewrite S3 by done. by apply R3.
Qed.

(** *** The end of the transaction *)
(** The messages of [ms] that have a record, and these records. *)
Definition persistent_of (ms : list (nat * Message)) : list (nat * Message) := filter (λ pm, isPersistent pm.2 = true) ms.

Lemma commit_drops c cons rq l n (rec_of : nat * Message → Rec * bytes) ms : ∀ fuel b st,
  (length ms < fuel)%nat → br_consumers b !! c = Some cons → wf_world (br_world b) → is_Some (queues (br_world b) !! rq) →
  queue_abs (br_world b) rq = entry_of <$> ms → Forall (at_heap (br_world b)) ms →
  (∀ pm, pm ∈ ms → isPersistent pm.2 = true → locates pm.2 (rec_of pm).1) →
  br_storages b !! cs_storage cons = Some st → stores st ((rec_of <$> persistent_of ms) ++ l) n →
  ∃ w st', commitLoop fuel c rq b = Ok tt (set_br_storages (<[cs_storage cons := st']> (br_storages b)) (set_br_world w b)) ∧
    stores st' l n ∧ wf_world w ∧ heap w = heap (br_world b) ∧ queue_abs w rq = [] ∧
    ∀ q, q ≠ rq → queues w !! q = queues (br_world b) !! q.
Proof.
  induction ms as [|[p m] ms IH]; intros [|fuel] b st Hf Hc Hw Hq Habs Hms Hrec Hst Hl; simpl in Hf; try lia;
    destruct (queue_try_dequeue_spec _ _ Hw Hq) as (r & w & D1 & D2 & D3 & D4 & D5 & D6); rewrite Habs in D6; csimpl in D6;
    destruct D6 as [-> D6]; cbn [commitLoop]; rewrite (bind_ok _ _ _ _ _ (bWorld_ok _ _ _ _ D1)).
  - exists w, st. rewrite insert_id by done. split; [by destruct b|by split_and!].
  - apply Forall_cons_1 in Hms as [Hp Hms]. unfold at_heap in Hp. simpl in Hp. set (b1 := set_br_world w b).
    assert (Hp1 : heap (br_world b1) !! p = Some m) by (simpl; by rewrite D3).
    assert (Hc1 : br_consumers b1 !! c = Some cons) by done.
    rewrite (bind_ok _ _ _ _ _ (message_get _ _ _ Hp1)), (bind_ok _ _ _ _ _ (bConsumer_get _ _ _ Hc1)).
    assert (Hdrop : ∃ st1, (if isPersistent m then removeRecord (cs_storage cons) m else mret tt) b1
        = Ok tt (set_br_storages (<[cs_storage cons := st1]> (br_storages b)) b1) ∧ stores st1 ((rec_of <$> persistent_of ms) ++ l) n).
    { unfold persistent_of in Hl. rewrite filter_cons in Hl. cbn [snd] in Hl. destruct (isPersistent m) eqn:Hper.
      - rewrite decide_True in Hl by done. csimpl in Hl. destruct (rec_of (p, m)) as [r d] eqn:Hr.
        apply (removeRecord_stores (cs_storage cons) m b1 st r d _ n Hst Hl).
        specialize (Hrec (p, m) ltac:(by left) Hper). by rewrite Hr in Hrec.
      - rewrite decide_False in Hl by done. exists st. split; [|done]. rewrite insert_id by done. by destruct b. }
    destruct Hdrop as (st1 & R1 & R2). rewrite (bind_ok _ _ _ _ _ R1). match type of R1 with _ = Ok tt ?x => set (b2 := x) in * end.
    destruct (IH fuel b2 st1) as (w2 & st2 & S1 & S2 & S3 & S4 & S5 & S6); [lia|done..| | |by apply lookup_insert_eq|done|].
    { eapply Forall_impl; [|exact Hms]. intros pm. unfold at_heap. simpl. by rewrite D3. }
    { intros pm Hin. apply Hrec. by right. }
    exists w2, st2. split; [|split_and!; try done].
    + rewrite S1. unfold b2, b1. simpl. by rewrite insert_insert_eq.
    + by rewrite S4.
    + intros q Hne. rewrite S6 by done. by apply D5.
Qed.

Lemma rollback_redelivers c cons x rq closing ms : closing = true ∨ backoffMs (ds_redeliveryPolicy x) <= 0 → rq ≠ cs_queue cons → ∀ fuel b,
  (length ms < fuel)%nat → ready b c cons x → is_Some (queues (br_world b) !! rq) →
  queue_abs (br_world b) rq = entry_of <$> ms → Forall (at_heap (br_world b)) ms → NoDup ms.*1 →
  Forall (λ pm, redeliverable (ds_redeliveryPolicy x) pm.2) ms →
  ∃ w, rollbackLoop fuel c rq closing b = Ok tt (set_br_world w b) ∧ queue_abs w rq = [] ∧
    queue_abs w (cs_queue cons) = requeued (queue_abs (br_world b) (cs_queue cons)) ms ∧
    Forall (λ pm, ∃ m', heap w !! pm.1 = Some m' ∧ refreshCachedStorageBytes (redelivered_once pm.2) = Some m') ms ∧
    (∀ p, p ∉ ms.*1 → heap w !! p = heap (br_world b) !! p) ∧
    ∀ q, q ≠ rq → q ≠ cs_queue cons → queues w !! q = queues (br_world b) !! q.
Proof.
  intros Hback Hne. induction ms as [|[p m] ms IH]; intros [|fuel] b Hf Hr Hq Habs Hms Hnd Hred; simpl in Hf; try lia;
    destruct (queue_try_dequeue_spec _ _ (rd_world _ _ _ _ Hr) Hq) as (r & w & D1 & D2 & D3 & D4 & D5 & D6); rewrite Habs in D6; csimpl in D6;
    destruct D6 as [-> D6]; cbn [rollbackLoop]; rewrite (bind_ok _ _ _ _ _ (bWorld_ok _ _ _ _ D1)).
  - exists w. split; [done|]. split; [done|]. split; [by apply queue_abs_other, D5, not_eq_sym|]. split; [constructor|].
    split; [by intros; rewrite D3|]. intros q H1 _. by apply D5.
  - apply Forall_cons_1 in Hms as [Hp Hms]. apply Forall_cons_1 in Hred as [(Hu & Hcnt & Hlim) Hred]. unfold at_heap in Hp. simpl in Hp, Hu, Hcnt, Hlim.
    csimpl in Hnd. apply list.NoDup_cons in Hnd as [Hnew Hnd]. set (b1 := set_br_world w b).
    assert (Hr1 : ready b1 c cons x) by (destruct Hr; split; try done; simpl; rewrite D5; [done|by apply not_eq_sym]).
    assert (Hp1 : heap (br_world b1) !! p = Some m) by (simpl; by rewrite D3).
    destruct (redeliver_requeues b1 c cons x p m closing Hr1 Hp1 Hu Hcnt Hlim Hback) as (w1 & m' & R1 & R2 & R3 & R4 & R5 & R6 & R7).
    rewrite (bind_ok _ _ _ _ _ R1). set (b2 := set_br_world w1 b1).
    destruct (IH fuel b2) as (w2 & S1 & S2 & S3 & S4 & S5 & S6); [lia| | | | |done|done|].
    { destruct Hr1. by split. }
    { simpl. by rewrite R6. }
    { simpl. by rewrite (queue_abs_other (br_world b1) w1) by (by apply R6). }
    { apply list.Forall_forall. intros pm Hin. pose proof (proj1 (list.Forall_forall _ _) Hms pm Hin) as Hpm. unfold at_heap in *. simpl.
      rewrite R3, lookup_insert_ne; [simpl; by rewrite D3|]. intros ->. apply Hnew. by apply list_elem_of_fmap_2. }
    exists w2. split; [by rewrite S1|]. split; [done|]. split; [|split; [|split]].
    + rewrite S3. unfold requeued. simpl. rewrite R5. do 2 f_equal. apply queue_abs_other. by apply D5, not_eq_sym.
    + constructor; [|done]. exists m'. split; [|done]. cbn [fst]. rewrite S5 by done. simpl. rewrite R3. apply lookup_insert_eq.
    + intros p' [H1 H2]%not_elem_of_cons. rewrite S5 by done. simpl. rewrite R3, lookup_insert_ne by done. simpl. by rewrite D3.
    + intros q H1 H2. rewrite S6 by done. simpl. rewrite R6 by done. by apply D5.
Qed.

(** C15. The receipts of a transaction are all or nothing: in a transacted session recv
    hands out the messages at the front of the queue, none of which expires before the
    last of these calls, one by one, removing no record. A commit then drops exactly the
    records of those that were received, whether the message knows its place or has to
    be looked up, and delivers nothing again. A rollback, with a policy without backoff
    or when the session is closing, of messages that are within their redelivery limit,
    puts every one of them back, once, behind what is in the queue with its priority and
    in the order it was received, marked as redelivered with its count one higher, and
    leaves the storage as it was. Both empty the transacted queue. *)
Theorem receipts_are_atomic b c cons s rq msgs rest usec :
  steady → receiving b c cons s rq [] (msgs ++ rest) →
  Forall (λ pm, isExpired (nowAt (br_reads b + length msgs)) pm.2 = false) msgs →
  ∃ b', recvs c usec (length msgs) b = Ok ((λ pm, Returned (Some pm.1)) <$> msgs) b' ∧
    holding b' c cons s rest ∧ br_storages b' = br_storages b ∧
    (∀ (rec_of : nat * Message → Rec * bytes) st l n, (∀ pm, pm ∈ msgs → isPersistent pm.2 = true → locates pm.2 (rec_of pm).1) →
      br_storages b !! cs_storage cons = Some st → stores st ((rec_of <$> persistent_of msgs) ++ l) n →
      ∃ b'' st', commitConsumer c b' = Ok tt b'' ∧ br_storages b'' = <[cs_storage cons := st']> (br_storages b) ∧ stores st' l n ∧
        holding b'' c cons s rest ∧ queue_abs (br_world b'') rq = []) ∧
    (∀ x closing, br_destinations b !! cs_destination cons = Some x → closing = true ∨ backoffMs (ds_redeliveryPolicy x) <= 0 →
      Forall (λ pm, redeliverable (ds_redeliveryPolicy x) pm.2) msgs →
      ∃ b'', rollbackConsumer c closing b' = Ok tt b'' ∧ br_storages b'' = br_storages b ∧ queue_abs (br_world b'') rq = [] ∧
        queue_abs (br_world b'') (cs_queue cons) = requeued (queue_abs (br_world b') (cs_queue cons)) msgs ∧
        Forall (λ pm, ∃ m', heap (br_world b'') !! pm.1 = Some m' ∧ refreshCachedStorageBytes (redelivered_once pm.2) = Some m') msgs).
Proof.
  intros Hclock Hr Hl. destruct (recvs_staged c cons s rq usec _ msgs Hclock Hl b [] rest Hr ltac:(lia)) as (w & k & R1 & R2 & R3).
  set (b' := set_br_world w (ticks k b)) in *. exists b'. split; [exact R1|]. split; [apply R2|]. split; [done|].
  destruct R2 as [Hh Hmode Hrq Hopen Hne Habs Htaken Hnd]. cbn [app] in *.
  assert (Hp : inserted prio msgs ≡ₚ msgs) by apply inserted_perm. pose proof Hh as [H1 H2 H3 H4 H5 H6 H7 H8].
  assert (Hlen : (length (inserted prio msgs) < S (length (queue_abs (br_world b') rq)))%nat) by (rewrite Habs, length_fmap; lia).
  split.
  - intros rec_of st l n Hrec Hst Hstores.
    destruct (commit_drops c cons rq l n rec_of (inserted prio msgs) (S (length (queue_abs (br_world b') rq))) b' st)
      as (w2 & st' & C1 & C2 & C3 & C4 & C5 & C6); try done; [by rewrite Hp|intros pm Hin; apply Hrec; by rewrite <-Hp| |].
    { apply (stores_perm _ _ _ _ Hstores). unfold persistent_of. by rewrite Hp. }
    exists (set_br_storages (<[cs_storage cons := st']> (br_storages b')) (set_br_world w2 b')), st'.
    split; [|split; [done|split; [done|split; [|exact C5]]]].
    + unfold commitConsumer. by rewrite (bind_ok _ _ _ _ _ (bConsumer_get _ _ _ H1)), Hrq, (bind_ok _ _ _ _ _ (queueLength_get _ _)).
    + split; try done; simpl; [rewrite lookup_insert_eq; by eexists|by rewrite C6 by (by apply not_eq_sym)| |].
      * by rewrite (queue_abs_other (br_world b') w2) by (by apply C6, not_eq_sym).
      * eapply Forall_impl; [|exact H8]. intros pm (m0 & E1 & E2). exists m0. by rewrite C4.
  - intros x closing Hx Hback Hred. rewrite fmap_app in Hnd. apply list.NoDup_app in Hnd as [Hnd _].
    destruct (rollback_redelivers c cons x rq closing (inserted prio msgs) Hback Hne (S (length (queue_abs (br_world b') rq))) b')
      as (w2 & S1 & S2 & S3 & S4 & _); try done; [by rewrite Hp..|].
    exists (set_br_world w2 b'). split; [|split; [|split; [exact S2|split; [|by rewrite <-Hp]]]].
    + unfold rollbackConsumer. rewrite (bind_ok _ _ _ _ _ (bConsumer_get _ _ _ H1)), Hrq, (bind_ok _ _ _ _ _ (queueLength_get _ _)). exact S1.
    + done.
    + simpl. rewrite S3. apply requeued_staged.
Qed.
End Receives.
