(* ===== verification/ProducerFacts.v ===== *)
(** What a send with options hands to the destination: the validation of the options
    and the headers a producer fills (Producer::send, applyOptions, dispatch). *)
From S2P Require Import Prelude Property Message JsonInstance StorageRecord PriorityQueue World DeliveryScheduler LinearStorage StorageWorker TransactionBuffer InFlight Broker Consumer Destination Session ConsumerFacts SendFacts Replay Staging Delays.
From Stdlib Require Import Lia ZifyBool.

(** Options that validateSendOptions lets pass. *)
Definition valid_options (opts : SendOptions) : Prop :=
  0 <= so_priority opts <= 9 ∧ 0 <= so_timeToLive opts <= kMaxFutureHeaderMs ∧ 0 <= so_deliveryDelay opts <= kMaxFutureHeaderMs.
Lemma validate_spec {S} opts (s : S) :
  valid_options opts ∧ validateSendOptions opts s = Ok tt s ∨
  ¬ valid_options opts ∧ ∃ what, validateSendOptions opts s = Exn (StdInvalidArgument what) s.
Proof.
  unfold validateSendOptions, valid_options. destruct ((so_priority opts <? 0) || (9 <? so_priority opts)) eqn:H1; [right|].
  { split; [lia|]. by eexists. }
  destruct ((so_timeToLive opts <? 0) || (so_deliveryDelay opts <? 0)) eqn:H2; [right|].
  { split; [lia|]. by eexists. }
  destruct ((kMaxFutureHeaderMs <? so_timeToLive opts) || (kMaxFutureHeaderMs <? so_deliveryDelay opts)) eqn:H3; [right|left].
  { split; [lia|]. by eexists. }
  split; [lia|done].
Qed.

(** An absolute time [span] from [now], where 0 stands for none. *)
Definition from_now (now span : Z) : Z := if 0 <? span then now + span else 0.

(** [m'] is the message [m] prepared by the producer [pr] with [opts], at clock readings
    between [t0] and [t1], in a transaction or not. *)
Record prepared {E : Environment} (t0 t1 : Z) (transactional : bool) (pr : Producer) (opts : SendOptions) (m m' : Message) : Prop := {
  pd_identity : uuid m' = uuid m ∧ number m' = number m ∧ properties m' = properties m ∧ body m' = body m;
  pd_mode : reliability m' = so_deliveryMode opts;
  pd_priority : priority (jmsHeaders m') = so_priority opts;
  pd_expiration : expiration (jmsHeaders m') = from_now t0 (so_timeToLive opts);
  pd_delay : if transactional then delayed m' ∧ pendingDeliveryDelay m' = so_deliveryDelay opts
    else pendingDeliveryDelay m' = 0 ∧ deliveryTime (jmsHeaders m') = from_now t0 (so_deliveryDelay opts);
  pd_messageId : messageId (jmsHeaders m') =
    if pr_disableMessageID pr then "" else if decide (messageId (jmsHeaders m) = "") then "ID:" +:+ uuid_toString (uuid m) else messageId (jmsHeaders m);
  pd_timestamp : if pr_disableMessageTimestamp pr then timestamp (jmsHeaders m') = 0
    else if decide (timestamp (jmsHeaders m) = 0) then t0 <= timestamp (jmsHeaders m') <= t1 else timestamp (jmsHeaders m') = timestamp (jmsHeaders m);
  pd_others : deliveryCount (jmsHeaders m') = deliveryCount (jmsHeaders m) ∧ redelivered (jmsHeaders m') = redelivered (jmsHeaders m) ∧
    replyTo (jmsHeaders m') = replyTo (jmsHeaders m) ∧ correlationId (jmsHeaders m') = correlationId (jmsHeaders m) ∧
    jmsType (jmsHeaders m') = jmsType (jmsHeaders m)
}.

Section Send.
Context {E : Environment} (Hclock : steady).

(** applyOptions does not overflow on options that were validated. *)
Lemma applyOptions_ok i opts tx m : valid_options opts →
  ∃ m', applyOptions (nowAt i) opts tx m = Ok tt m' ∧ uuid m' = uuid m ∧ number m' = number m ∧ properties m' = properties m ∧ body m' = body m ∧
    reliability m' = so_deliveryMode opts ∧
    jmsHeaders m' = set_deliveryTime (if tx then 0 else from_now (nowAt i) (so_deliveryDelay opts))
      (set_expiration (from_now (nowAt i) (so_timeToLive opts)) (set_priority (so_priority opts) (jmsHeaders m))) ∧
    pendingDeliveryDelay m' = (if tx then so_deliveryDelay opts else 0).
Proof using Hclock.
  intros (V1 & V2 & V3). pose proof (nowAt_room Hclock i) as Hroom.
  assert (Hadd : ∀ span (s : Message), 0 <= span <= kMaxFutureHeaderMs →
    (if 0 <? span then checkS 64 (nowAt i + span) else mret 0) s = Ok (from_now (nowAt i) span) s).
  { intros span s Hs. unfold from_now. destruct (0 <? span) eqn:?; [|done]. unfold checkS. rewrite decide_True; [done|].
    unfold inS. change (2 ^ (64 - 1)) with (INT64_MAX + 1). lia. }
  unfold applyOptions. destruct tx; eexists; split.
  - do 2 (erewrite bind_ok by reflexivity). erewrite bind_ok by by apply Hadd. erewrite bind_ok by reflexivity. reflexivity.
  - by split_and!.
  - do 2 (erewrite bind_ok by reflexivity). erewrite bind_ok by by apply Hadd. erewrite bind_ok by reflexivity.
    erewrite bind_ok by by apply Hadd. reflexivity.
  - by split_and!.
Qed.

(** Filling the headers of what applyOptions leaves prepares the message. *)
Lemma filled_prepared (now t0 t1 : Z) (tx : bool) pr opts m m1 :
  t0 <= now <= t1 → valid_options opts → uuid m1 = uuid m ∧ number m1 = number m ∧ properties m1 = properties m ∧ body m1 = body m →
  reliability m1 = so_deliveryMode opts →
  jmsHeaders m1 = set_deliveryTime (if tx then 0 else from_now t0 (so_deliveryDelay opts))
    (set_expiration (from_now t0 (so_timeToLive opts)) (set_priority (so_priority opts) (jmsHeaders m))) →
  pendingDeliveryDelay m1 = (if tx then so_deliveryDelay opts else 0) →
  prepared t0 t1 tx pr opts m (fillHeaders (pr_disableMessageID pr) (pr_disableMessageTimestamp pr) now m1).
Proof.
  intros Ht (V1 & V2 & V3) (I1 & I2 & I3 & I4) Hmode Hh Hd.
  set (h := set_deliveryTime _ _) in Hh. unfold fillHeaders. rewrite Hh, I1.
  assert (Hn : ∀ h', jmsHeaders (set_jmsHeaders h' m1) = h') by done.
  split; rewrite ?Hn; try done.
  - by destruct (pr_disableMessageID pr), (pr_disableMessageTimestamp pr); repeat case_match.
  - by destruct (pr_disableMessageID pr), (pr_disableMessageTimestamp pr); repeat case_match.
  - destruct tx; [split; [split|]|split]; rewrite ?Hn; simpl; rewrite ?Hd; try done;
      by destruct (pr_disableMessageID pr), (pr_disableMessageTimestamp pr); repeat case_match.
  - destruct (pr_disableMessageID pr), (pr_disableMessageTimestamp pr); repeat case_match; done.
  - destruct (pr_disableMessageID pr), (pr_disableMessageTimestamp pr); repeat case_match; simpl in *; try done; lia.
  - by destruct (pr_disableMessageID pr), (pr_disableMessageTimestamp pr); repeat case_match.
Qed.

(** The state in which the destination is called. *)
Definition handed (b b1 : broker) (p : nat) (m' : Message) : Prop :=
  b1 = with_message p m' (set_br_reads (br_reads b1) b) ∧ (br_reads b < br_reads b1)%nat.
Lemma producer_dispatch_ok b producer pr p m : br_producers b !! producer = Some pr → heap (br_world b) !! p = Some m →
  ∃ k now, dispatchMessage producer p b = save (pr_destination pr) producer p
      (with_message p (fillHeaders (pr_disableMessageID pr) (pr_disableMessageTimestamp pr) now m) (ticks k b)) ∧
    nowAt (br_reads b) <= now <= nowAt (k + br_reads b).
Proof using Hclock.
  intros Hpr Hp. unfold dispatchMessage. rewrite (bind_ok _ _ _ _ _ (bProducer_get _ _ _ Hpr)), (bind_ok _ _ _ _ _ (message_get _ _ _ Hp)).
  destruct (negb (pr_disableMessageTimestamp pr) && (timestamp (jmsHeaders m) =? 0)) eqn:Hneeds.
  - exists 1%nat, (nowAt (br_reads b)). split; [|split; [done|apply (nowAt_mono Hclock); lia]].
    rewrite (bind_ok nowMs _ b (nowAt (br_reads b)) (ticks 1 b) eq_refl). erewrite bind_ok; [reflexivity|]. by apply bWorld_update.
  - exists 0%nat, (nowAt (br_reads b)). split; [|done]. rewrite bind_ret. assert (ticks 0 b = b) as -> by by destruct b.
    erewrite (bind_ok (bWorld _)); [|by apply bWorld_update]. do 2 f_equal. unfold fillHeaders.
    destruct (pr_disableMessageTimestamp pr); [done|]. simpl in Hneeds. destruct (pr_disableMessageID pr); repeat case_match; simpl in *; congruence.
Qed.

Lemma send_options_ok b producer pr ss p m opts :
  br_producers b !! producer = Some pr → br_sessions b !! pr_session pr = Some ss → heap (br_world b) !! p = Some m →
  valid_options opts →
  ∃ m' b1, prepared (startOf b) (startOf b1) (negb (bool_decide (ss_suffix ss = ""))) pr opts m m' ∧ handed b b1 p m' ∧
    (_ ← applyTo producer p opts; dispatchMessage producer p) b = save (pr_destination pr) producer p b1.
Proof using Hclock.
  intros Hpr Hs Hp Hv. set (tx := negb _).
  destruct (applyOptions_ok (br_reads b) opts tx m Hv) as (m1 & A1 & A2 & A3 & A4 & A5 & A6 & A7 & A8).
  assert (Happ : applyTo producer p opts b = Ok tt (with_message p m1 (ticks 1 b))).
  { unfold applyTo. erewrite (bind_ok _ _ _ _ _ (transactionIdOf_ok producer b pr ss _ _)). Unshelve. 2, 3: done.
    rewrite (bind_ok nowMs _ b (nowAt (br_reads b)) (ticks 1 b) eq_refl). apply bWorld_ok. unfold onMessage. simpl. rewrite Hp. fold tx. by rewrite A1. }
  rewrite (bind_ok _ _ _ _ _ Happ). set (b0 := with_message p m1 (ticks 1 b)).
  destruct (producer_dispatch_ok b0 producer pr p m1) as (k & now & D1 & D2); [done|apply lookup_insert_eq|].
  eexists _, _. split; [|split; [split|exact D1]].
  - assert (Ht : startOf b <= nowAt (br_reads b0)) by (apply (nowAt_mono Hclock); simpl; lia).
    apply (filled_prepared now _ _ _ pr opts m m1); try done. unfold startOf in *. simpl in *. lia.
  - unfold b0, with_message, ticks. simpl. by rewrite insert_insert_eq.
  - simpl. lia.
Qed.

(** C17. A send with options checks them and hands the destination the message it
    describes. Options out of range are refused with invalid_argument and nothing
    changes; a producer's defaults were checked when they were set. Otherwise the
    destination gets the same message with the options' delivery mode and priority, an
    expiration and a delivery time counted from the clock of the call without overflow
    (in a transaction the delay itself, whose clock the commit starts), and, unless the
    producer disables them, a message id and a timestamp where it has none; every other
    field is the caller's. A send without options is that of the producer's defaults. *)
Theorem send_applies_options b producer pr ss p m opts :
  br_producers b !! producer = Some pr → br_sessions b !! pr_session pr = Some ss → heap (br_world b) !! p = Some m →
  (¬ valid_options opts → ∃ what, sendWith producer p opts b = Exn (StdInvalidArgument what) b ∧
    setDefault producer opts b = Exn (StdInvalidArgument what) b) ∧
  (valid_options opts → ∃ m' b1, prepared (startOf b) (startOf b1) (negb (bool_decide (ss_suffix ss = ""))) pr opts m m' ∧
    handed b b1 p m' ∧ sendWith producer p opts b = save (pr_destination pr) producer p b1 ∧
    (pr_default pr = Some opts → send producer p b = save (pr_destination pr) producer p b1) ∧
    ∃ b2, setDefault producer opts b = Ok tt b2 ∧ br_producers b2 !! producer = Some (set_default (Some opts) pr)).
Proof.
  intros Hpr Hs Hp. split; intros Hv.
  - destruct (validate_spec opts b) as [[? _]|[_ [what Hw]]]; [done|]. exists what. unfold sendWith, setDefault. unfold mbind, M_bind. by rewrite Hw.
  - destruct (validate_spec opts b) as [[_ Hw]|[? _]]; [|done].
    destruct (send_options_ok b producer pr ss p m opts Hpr Hs Hp Hv) as (m' & b1 & H1 & H2 & H3).
    exists m', b1. split; [exact H1|]. split; [exact H2|]. split; [|split].
    + unfold sendWith. by rewrite (bind_ok _ _ _ _ _ Hw).
    + intros Hd. unfold send. by rewrite (bind_ok _ _ _ _ _ (bProducer_get _ _ _ Hpr)), Hd.
    + eexists. split.
      * unfold setDefault. rewrite (bind_ok _ _ _ _ _ Hw). unfold bProducer. by rewrite (zoom_ok _ _ _ b pr tt _ Hpr eq_refl).
      * apply lookup_insert_eq.
Qed.
End Send.
