(* ===== verification/Commits.v ===== *)
(** The end of a transaction: what a commit delivers and stores of the messages that
    were staged, when the clock of their delays starts, and what a rollback leaves. *)
From S2P Require Import Prelude Property Message JsonInstance MessageFacts StorageRecord PriorityQueue World DeliveryScheduler LinearStorage StorageWorker TransactionBuffer InFlight Broker Consumer Destination Session ConsumerFacts SendFacts Durability Replay Staging Delays.
From Stdlib Require Import Lia ZifyBool Sorted.

Section Commit.
Context {E : Environment} {EOk : EnvironmentOk E} {TU : PocoTextOk env_text env_uuid} (Hclock : steady).

(** *** Commit and rollback *)
Lemma dest_commit_ok d x tx pend b st l n :
  br_destinations b !! d = Some x → tx ≠ "" → tb_holds (ds_transactionBuffer x) pend → log_ok (ds_transactionBuffer x) →
  br_storages b !! ds_storage x = Some st → stores st l n →
  storable_batch l (default [] (pend !! tx)) → n + batchSize (default [] (pend !! tx)) <= INT64_MAX →
  ∃ t st' recs, dest_commitTransaction d tx b = Ok tt (set_br_storages (<[ds_storage x := st']> (br_storages b))
      (set_br_destinations (<[d := set_ds_transactionBuffer t x]> (br_destinations b)) (ticks 1 b))) ∧
    tb_holds t (delete tx pend) ∧ stores st' (recs ++ l) (n + batchSize (default [] (pend !! tx))) ∧
    named <$> recs = default [] (pend !! tx).
Proof.
  intros Hd Htx Htb Hlog Hst Hl Hb Hroom.
  destruct (commit_sim (ds_transactionBuffer x) pend (clock (br_reads b)) tx Htb Hlog) as (t & C1 & C2 & _).
  destruct (appendBatch_stores iter_toms st l n _ Hl Hb Hroom) as (recs & st' & A1 & A2 & A3).
  exists t, st', recs. split; [|done]. unfold dest_commitTransaction. rewrite decide_False by done.
  rewrite (bind_ok readClock _ b (clock (br_reads b)) (ticks 1 b) eq_refl).
  assert (Hd1 : br_destinations (ticks 1 b) !! d = Some x) by done.
  rewrite (bind_ok _ _ _ _ _ (bTB_ok d _ _ x _ t Hd1 C1)).
  set (b2 := set_br_destinations _ (ticks 1 b)).
  assert (Hd2 : br_destinations b2 !! d = Some (set_ds_transactionBuffer t x)) by apply lookup_insert_eq.
  rewrite (bind_ok _ _ _ _ _ (bDest_get _ _ _ Hd2)).
  exact (bStorage_run (ds_storage x) _ b2 st tt st' Hst A1).
Qed.

(** A producer with the messages [sent] staged in its queue, and [pend] buffered. *)
Record committing (b : broker) (d : nat) (x : Destination) (c : nat) (cons : Consumer) (producer : nat) (pr : Producer)
    (tq : nat) (pend : gmap string (list (UUID * bytes))) (sent : list (nat * Message)) : Prop := {
  cm_destination : br_destinations b !! d = Some x;
  cm_family : isQueueFamily x = true;
  cm_first : ∃ rest, iter_set (ds_consumers x) = c :: rest;
  cm_consumer : br_consumers b !! c = Some cons;
  cm_producer : br_producers b !! producer = Some pr;
  cm_to : pr_destination pr = d;
  cm_staging : pr_transactQueue pr = Some tq;
  cm_world : wf_world (br_world b);
  cm_queues : is_Some (queues (br_world b) !! tq) ∧ is_Some (queues (br_world b) !! cs_queue cons);
  cm_apart : cs_queue cons ≠ tq;
  cm_entries : queue_abs (br_world b) tq = entry_of <$> inserted prio sent;
  cm_copies : Forall (at_heap (br_world b)) sent;
  cm_nodup : NoDup sent.*1;
  cm_buffer : tb_holds (ds_transactionBuffer x) pend;
  cm_log : log_ok (ds_transactionBuffer x)
}.
Lemma committing_session b sessions d x c cons producer pr tq pend sent :
  committing b d x c cons producer pr tq pend sent → committing (set_br_sessions sessions b) d x c cons producer pr tq pend sent.
Proof. intros []. by split. Qed.
Lemma committing_staged b d x c cons producer pr ss tq pend number sent b' :
  transacted b d x c cons producer pr ss tq pend → staging b d x tq (ss_suffix ss) pend number sent b' →
  ∃ x1, committing b' d x1 c cons producer pr tq (foldl (record_staged (ss_suffix ss)) pend sent.*2) sent ∧
    ds_storage x1 = ds_storage x ∧ ds_scheduler x1 = ds_scheduler x.
Proof.
  intros [T1 T2 T3 T4 T5 T6 T7 T8 T9 T10 T11 [T12 T13] T14 T15 T16 T17 T18 T19] [(t & G1 & G2 & G3) G4 G5 G6 G7 G8 G9 G10 G11 G12].
  exists (set_ds_transactionBuffer t (set_ds_messageCounter number x)). split; [|done].
  split; try done; try (by rewrite G1).
  - rewrite G1. apply lookup_insert_eq.
  - split; [done|by rewrite G12].
  - by rewrite G10, requeued_empty.
  - eapply Forall_impl; [|exact G8]. by intros pm [].
Qed.

(** What the destination has become of [b] when the transaction is over. *)
Record settled (b : broker) (d tq : nat) (pend : gmap string (list (UUID * bytes))) (b' : broker) : Prop := {
  st_staging : queue_abs (br_world b') tq = [];
  st_buffer : ∃ y, br_destinations b' !! d = Some y ∧ tb_holds (ds_transactionBuffer y) pend;
  st_sessions : br_sessions b' = br_sessions b
}.

(** The order in which the staged copies are taken is that of the resolved ones. *)
Lemma inserted_resolved now sent :
  inserted prio ((λ pm : nat * Message, (pm.1, resolved now pm.2)) <$> sent) = (λ pm, (pm.1, resolved now pm.2)) <$> inserted prio sent.
Proof.
  rewrite inserted_fmap. f_equal. unfold inserted. generalize (@nil (nat * Message)).
  assert (Hp : ∀ pm : nat * Message, prio (pm.1, resolved now pm.2) = prio pm).
  { intros pm. unfold prio. cbn [snd]. by rewrite (proj1 (proj2 (proj2 (resolved_fields now pm.2)))). }
  assert (Hi : ∀ pm l, insert_by (λ x, prio (x.1, resolved now x.2)) pm l = insert_by prio pm l).
  { intros pm l. induction l as [|pm' l IH]; simpl; [done|]. by rewrite !Hp, IH. }
  induction sent as [|pm sent IH]; intros l; simpl; [done|]. by rewrite Hi, IH.
Qed.

(** What a commit that starts in [b] makes of the destination [x] and of the copies
    [out], with their delays resolved; the storage held [l], [n] bytes long. *)
Record committed (b : broker) (d : nat) (x : Destination) (cons : Consumer) (tq : nat) (pend : gmap string (list (UUID * bytes)))
    (now : Z) (out : list (nat * Message)) (l : list (Rec * bytes)) (n : Z) (b' : broker) : Prop := {
  cd_delivered : ∃ due later y, parted now (startOf b') (inserted prio out) due later ∧
    queue_abs (br_world b') (cs_queue cons) = requeued (queue_abs (br_world b) (cs_queue cons)) due ∧
    br_destinations b' !! d = Some y ∧ tb_holds (ds_transactionBuffer y) pend ∧
    DeliveryScheduler.pending (ds_scheduler y) = scheduled (cs_queue cons) (DeliveryScheduler.pending (ds_scheduler x)) later;
  cd_copies : Forall (at_heap (br_world b')) out;
  cd_staging : queue_abs (br_world b') tq = [];
  cd_others : ∀ q, q ≠ tq → q ≠ cs_queue cons → queues (br_world b') !! q = queues (br_world b) !! q;
  cd_stored : ∃ recs st, br_storages b' !! ds_storage x = Some st ∧
    stores st (recs ++ l) (n + batchSize (out.*2 ≫= recorded)) ∧ named <$> recs = out.*2 ≫= recorded
}.

(** The buffered data of the transaction once the delays are resolved. *)
Lemma patched_batch now pend tx sent ms : default [] (pend !! tx) = sent ≫= recorded → NoDup (persistent_ids sent) →
  ms ≡ₚ sent → (∀ u, u ∈ persistent_ids sent → ¬ buffered (delete tx pend) u) →
  default [] (foldl (patch_for now) pend ms !! tx) = (resolved now <$> sent) ≫= recorded ∧
  delete tx (foldl (patch_for now) pend ms) = delete tx pend.
Proof.
  intros Hb Hnd Hp Hfresh. pose proof (persistent_ids_perm _ _ Hp) as Hids. rewrite patches_items. split.
  - rewrite lookup_fmap. transitivity ((λ ud, foldl (patch_item now) ud ms) <$> default [] (pend !! tx)).
    { by destruct (pend !! tx). }
    rewrite Hb. apply recorded_resolved; [by rewrite Hids|]. intros m Hm. by rewrite Hp.
  - rewrite <-fmap_delete. rewrite <-(map_fmap_id (delete tx pend)) at 2. apply map_fmap_ext. intros tx' l Hl. simpl.
    rewrite <-(list_fmap_id l) at 2. apply list_fmap_ext. intros _ ud Hud%list_elem_of_lookup_2. apply patch_item_other.
    rewrite Hids. intros Hin. apply (Hfresh _ Hin). exists tx', l. split; [done|]. by apply list_elem_of_fmap_2.
Qed.

Lemma commit_ok b d x c cons producer pr tq tx pend sent st l n :
  committing b d x c cons producer pr tq pend sent → tx ≠ "" → Forall (λ pm, delayed pm.2) sent →
  NoDup (persistent_ids sent.*2) → stopped (ds_scheduler x) = false →
  default [] (pend !! tx) = sent.*2 ≫= recorded → (∀ u, u ∈ persistent_ids sent.*2 → ¬ buffered (delete tx pend) u) →
  br_storages b !! ds_storage x = Some st → stores st l n →
  let out := (λ pm, (pm.1, resolved (startOf b) pm.2)) <$> sent in
  storable_batch l (out.*2 ≫= recorded) → n + batchSize (out.*2 ≫= recorded) <= INT64_MAX →
  ∃ b', commitProducer producer tx b = Ok tt b' ∧ br_sessions b' = br_sessions b ∧
    committed b d x cons tq (delete tx pend) (startOf b) out l n b'.
Proof.
  intros [C1 C2 (rest & C3) C4 C5 C6 C7 C8 [C9 C10] C11 C12 C13 C13' C14 C15] Htx Hdelay Hids Hrun Hbatch0 Hfresh Hst Hl out Hbatch Hroom.
  set (now := startOf b) in *. pose proof (nowAt_room Hclock (br_reads b)) as Hnow. change (nowAt (br_reads b)) with now in Hnow.
  unfold commitProducer. rewrite (bind_ok _ _ _ _ _ (bProducer_get _ _ _ C5)), C7, C6.
  rewrite (bind_ok nowMs _ b now (ticks 1 b) eq_refl), (bind_ok _ _ _ _ _ (queueLength_get tq (ticks 1 b))).
  set (ms := inserted prio sent) in *. assert (Hp : ms ≡ₚ sent) by apply inserted_perm.
  destruct (stage_resolves Hclock d tq (br_reads b) ms (S (length (queue_abs (br_world (ticks 1 b)) tq))) (ticks 1 b) x pend)
    as (w & t & S1 & S2 & S3 & S4 & S5 & S6 & S7 & S8 & S9); try done.
  { change (br_world (ticks 1 b)) with (br_world b). rewrite C12, length_fmap. lia. }
  { by rewrite Hp. }
  { rewrite Hp. by apply list.Forall_and. }
  change (nowAt (br_reads b)) with now in S1, S3, S5. rewrite (bind_ok _ _ _ _ _ S1). set (x1 := set_ds_transactionBuffer t x) in *. set (b1 := with_buffer d t x _).
  assert (Hd1 : br_destinations b1 !! d = Some x1) by apply lookup_insert_eq.
  destruct (patched_batch now pend tx sent.*2 ms.*2 Hbatch0 Hids (fmap_Permutation snd _ _ Hp) Hfresh) as [Eb Ed].
  assert (Hout : out.*2 = resolved now <$> sent.*2) by (unfold out; by rewrite <-!list_fmap_compose).
  rewrite <-Hout in Eb.
  destruct (dest_commit_ok d x1 tx _ b1 st l n Hd1 Htx S3 S4) as (t' & st' & recs & E1 & E2 & E3 & E4); rewrite ?Eb; [done..|].
  rewrite Eb in E3, E4. rewrite Ed in E2.
  rewrite (bind_ok _ _ _ _ _ E1). match type of E1 with _ = Ok tt ?s => set (b2 := s) in * end.
  assert (Hat : Forall (at_heap w) out) by (unfold out; apply Forall_fmap; rewrite <-Hp; exact S5).
  assert (Hlate : now <= startOf b2) by (apply (nowAt_mono Hclock); simpl; lia).
  destruct (deliver_each Hclock d c rest cons (inserted prio out) b2 (set_ds_transactionBuffer t' x1))
    as (w2 & k & sch & due & later & D1 & D2 & D3 & D4 & D5 & D6 & D7 & D8); try done.
  { apply lookup_insert_eq. }
  { simpl. by rewrite S9. }
  { rewrite inserted_perm. apply list.Forall_and. split; [exact Hat|]. unfold out. apply Forall_fmap.
    eapply Forall_impl; [|exact Hdelay]. intros pm [Hz Hd]. cbn [snd fst compose]. rewrite (proj2 (proj2 (proj2 (proj2 (resolved_fields now pm.2))))), Hz.
    destruct (0 <? _) eqn:?; lia. }
  exists (with_scheduler d sch (set_ds_transactionBuffer t' x1) (set_br_world w2 (ticks k b2))). split; [|split; [done|]].
  - assert (Hfst : ms.*1 = (inserted prio out).*1) by (unfold out; rewrite inserted_resolved, <-list_fmap_compose; done).
    rewrite Hfst. exact D1.
  - split.
    + exists due, later, (set_ds_scheduler sch (set_ds_transactionBuffer t' x1)).
      split; [by apply (parted_mono _ _ _ _ _ _ _ Hlate (Z.le_refl _) D4)|]. split; [|split; [apply lookup_insert_eq|by split]].
      cbn [br_world set_br_world with_scheduler set_br_destinations]. rewrite D5. f_equal. apply queue_abs_other. by apply S9.
    + eapply Forall_impl; [|exact Hat]. intros pm Hpm. unfold at_heap in *. simpl. by rewrite D3.
    + cbn [br_world set_br_world with_scheduler set_br_destinations]. rewrite (queue_abs_other w w2) by (by apply D6). exact S8.
    + intros q H1 H2. cbn [br_world set_br_world with_scheduler set_br_destinations]. rewrite D6 by done. by apply S9.
    + exists recs, st'. split; [apply lookup_insert_eq|done].
Qed.

Lemma discard_all q : ∀ fuel b, (length (queue_abs (br_world b) q) < fuel)%nat → wf_world (br_world b) →
  is_Some (queues (br_world b) !! q) →
  ∃ w, discard fuel q b = Ok tt (set_br_world w b) ∧ heap w = heap (br_world b) ∧ queue_abs w q = [] ∧
    ∀ q', q' ≠ q → queues w !! q' = queues (br_world b) !! q'.
Proof.
  induction fuel as [|fuel IH]; intros b Hf Hw Hq; [lia|].
  destruct (queue_try_dequeue_spec _ _ Hw Hq) as (r & w & D1 & D2 & D3 & D4 & D5 & D6).
  cbn [discard]. rewrite (bind_ok _ _ _ _ _ (bWorld_ok _ _ _ _ D1)).
  destruct (queue_abs (br_world b) q) as [|[z o] l]; destruct D6 as [-> D6]; [by exists w|]. simpl in Hf.
  destruct (IH (set_br_world w b)) as (w2 & R1 & R2 & R3 & R4); [simpl; rewrite D6; lia|done..|].
  exists w2. rewrite R1. split; [by destruct b|]. split_and!; [by rewrite R2|done|].
  intros q' Hne. rewrite R4 by done. by apply D5.
Qed.

Lemma rollback_ok b d x c cons producer pr tq tx pend sent :
  committing b d x c cons producer pr tq pend sent → tx ≠ "" →
  ∃ b', rollbackProducer producer tx b = Ok tt b' ∧ settled b d tq (delete tx pend) b' ∧
    (∀ q, q ≠ tq → queues (br_world b') !! q = queues (br_world b) !! q) ∧ br_storages b' = br_storages b.
Proof.
  intros [C1 C2 _ C4 C5 C6 C7 C8 [C9 C10] C11 C12 C13 _ C14 C15] Htx.
  unfold rollbackProducer, dest_rollbackTransaction. rewrite (bind_ok _ _ _ _ _ (bProducer_get _ _ _ C5)), C7, C6.
  rewrite decide_False by done.
  destruct (rollback_sim (ds_transactionBuffer x) pend (clock (br_reads b)) tx C14 C15) as (t & R1 & R2 & _).
  set (b1 := set_br_destinations (<[d := set_ds_transactionBuffer t x]> (br_destinations (ticks 1 b))) (ticks 1 b)).
  assert (H1 : (now ← readClock; bTB d (rollbackTransaction now tx)) b = Ok tt b1).
  { rewrite (bind_ok readClock _ b (clock (br_reads b)) (ticks 1 b) eq_refl). by apply (bTB_ok d _ _ x tt t). }
  rewrite (bind_ok _ _ _ _ _ H1), (bind_ok _ _ _ _ _ (queueLength_get tq b1)).
  destruct (discard_all tq (S (length (queue_abs (br_world b1) tq))) b1) as (w & D1 & D2 & D3 & D4); [lia|done..|].
  exists (set_br_world w b1). split; [exact D1|]. split; [|split; [exact D4|done]].
  split; [exact D3| |done]. exists (set_ds_transactionBuffer t x). split; [apply lookup_insert_eq|done].
Qed.

Lemma staging_start b d x c cons producer pr ss tq pend :
  transacted b d x c cons producer pr ss tq pend →
  staging b d x tq (ss_suffix ss) pend (ds_messageCounter x) [] b.
Proof.
  intros [T1 T2 _ T4 T5 T6 T7 T8 T9 T10 T11 [T12 T13] T14 T15 T16 T17 T18 T19]. split; try done; try constructor.
  exists (ds_transactionBuffer x). split; [|done].
  assert (set_ds_transactionBuffer (ds_transactionBuffer x) (set_ds_messageCounter (ds_messageCounter x) x) = x) as -> by by destruct x.
  rewrite insert_id by done. by destruct b.
Qed.

(** A session with this one producer ends its transaction as the producer does. *)
Lemma iter_single p : iter_set {[p]} = [p].
Proof. apply Permutation_singleton_r. rewrite iter_set_ok. by rewrite elements_singleton. Qed.
Lemma iter_none : iter_set ∅ = [].
Proof. apply Permutation_nil_r. by rewrite iter_set_ok, elements_empty. Qed.

Definition ended (b : broker) (s : nat) (ss : Session) (b' : broker) : broker :=
  set_br_uuids (S (br_uuids b')) (set_br_sessions (<[s := set_suffix (uuid_toString (randomUUID (br_uuids b'))) ss]> (br_sessions b)) b').
Lemma fresh_suffix s ss b b1 : br_sessions b1 = <[s := set_suffix "" ss]> (br_sessions b) →
  (u ← freshUUID; bSession s (modify (set_suffix (uuid_toString u)))) b1 = Ok tt (ended b s ss b1).
Proof.
  intros Hb1. rewrite (bind_ok freshUUID _ b1 (randomUUID (br_uuids b1)) (set_br_uuids (S (br_uuids b1)) b1) eq_refl).
  assert (Hs1 : br_sessions (set_br_uuids (S (br_uuids b1)) b1) !! s = Some (set_suffix "" ss)) by (simpl; rewrite Hb1; apply lookup_insert_eq).
  unfold bSession. rewrite (zoom_ok _ _ _ _ _ tt _ Hs1 eq_refl). simpl. rewrite Hb1, insert_insert_eq. done.
Qed.
Definition ending (s : nat) (ss : Session) (b : broker) : broker :=
  set_br_sessions (<[s := set_suffix "" ss]> (br_sessions b)) b.
Lemma clear_suffix s ss b : br_sessions b !! s = Some ss → bSession s (modify (set_suffix "")) b = Ok tt (ending s ss b).
Proof. intros Hs. unfold bSession. by rewrite (zoom_ok _ _ _ b ss tt _ Hs eq_refl). Qed.

Lemma commitSession_single s ss producer b b1 :
  br_sessions b !! s = Some ss → ss_producers ss = {[producer]} → ss_consumers ss = ∅ →
  commitProducer producer (ss_suffix ss) (ending s ss b) = Ok tt b1 → br_sessions b1 = br_sessions (ending s ss b) →
  commitSession s b = Ok tt (ended b s ss b1).
Proof.
  intros Hs Hp Hc Hstep Hb1. unfold commitSession.
  rewrite (bind_ok _ _ _ _ _ (bSession_get _ _ _ Hs)), Hp, Hc, iter_single, iter_none. cbn [for_each]. cbv zeta.
  rewrite (bind_ok _ _ _ _ _ (clear_suffix _ _ _ Hs)).
  erewrite bind_ok by (by rewrite (bind_ok _ _ _ _ _ Hstep)). rewrite bind_ret. by apply fresh_suffix.
Qed.
Lemma rollbackSession_single s ss producer b b1 closing :
  br_sessions b !! s = Some ss → ss_producers ss = {[producer]} → ss_consumers ss = ∅ →
  rollbackProducer producer (ss_suffix ss) (ending s ss b) = Ok tt b1 → br_sessions b1 = br_sessions (ending s ss b) →
  rollbackSession s closing b = Ok tt (ended b s ss b1).
Proof.
  intros Hs Hp Hc Hstep Hb1. unfold rollbackSession.
  rewrite (bind_ok _ _ _ _ _ (bSession_get _ _ _ Hs)), Hp, Hc, iter_single, iter_none. cbn [for_each]. cbv zeta.
  rewrite (bind_ok _ _ _ _ _ (clear_suffix _ _ _ Hs)).
  erewrite bind_ok by (by rewrite (bind_ok _ _ _ _ _ Hstep)). rewrite bind_ret. by apply fresh_suffix.
Qed.

Lemma staged_batch n ms cms : Some <$> cms = numbered staged_copy n ms → transaction_batch n ms = cms ≫= recorded.
Proof. intros H. unfold transaction_batch. rewrite <-H. clear. f_equal. induction cms as [|m cms IH]; csimpl; [done|]. by rewrite IH. Qed.
(** What the staged copies share with the messages that were sent. *)
Lemma staged_like n ms cms : Some <$> cms = numbered staged_copy n ms → Forall (λ m, length (uuid m) = 16%nat) ms →
  persistent_ids cms = persistent_ids ms ∧ (Forall delayed ms → Forall delayed cms).
Proof.
  intros Heq Hl.
  assert (H2 : Forall2 (λ m cm, uuid cm = uuid m ∧ isPersistent cm = isPersistent m ∧ (delayed m → delayed cm)) ms cms).
  { apply (numbered_copies _ ms n cms Heq Hl). intros k m cm Hm Hcm.
    destruct (staged_copy_ok k m Hm) as (cm' & E1 & E2 & E3 & E4 & E5 & _). rewrite Hcm in E1. injection E1 as <-.
    split; [done|]. split; [done|]. unfold delayed. by rewrite E2, E5. }
  clear Heq Hl. unfold persistent_ids. induction H2 as [|m cm ms cms (E1 & E2 & E3) _ [IH1 IH2]]; [done|]. rewrite !filter_cons, E2. split.
  - case_decide; csimpl; by rewrite ?E1, ?IH1.
  - intros [? ?]%Forall_cons_1. constructor; auto.
Qed.

(** The sends of a transaction, and the state in which it can be ended. *)
Lemma transaction_sends b d x c cons producer pr ss tq pend msgs :
  transacted b d x c cons producer pr ss tq pend → Forall (at_heap (br_world b)) msgs →
  Forall (λ pm, sendable cons pend pm.2) msgs → NoDup (persistent_ids msgs.*2) →
  ∃ sent b' x1, for_each (λ p, save d producer p) msgs.*1 b = Ok tt b' ∧
    Some <$> sent.*2 = numbered staged_copy (ds_messageCounter x) msgs.*2 ∧
    (∀ q, q ≠ tq → queues (br_world b') !! q = queues (br_world b) !! q) ∧ br_storages b' = br_storages b ∧
    br_sessions b' = br_sessions b ∧ ds_storage x1 = ds_storage x ∧ ds_scheduler x1 = ds_scheduler x ∧
    committing b' d x1 c cons producer pr tq (foldl (record_staged (ss_suffix ss)) pend sent.*2) sent.
Proof.
  intros Ht Hheap Hsend Hn.
  destruct (save_all _ _ _ _ _ _ _ _ _ _ msgs _ [] b Ht (staging_start _ _ _ _ _ _ _ _ _ _ Ht) Hheap Hsend Hn)
    as (sent & number & b' & S1 & S2 & S3). simpl in S2.
  destruct (committing_staged _ _ _ _ _ _ _ _ _ _ _ _ _ Ht S2) as (x1 & X1 & X2 & X3).
  exists sent, b', x1. split; [exact S1|]. split; [exact S3|]. split; [apply (sg_others _ _ _ _ _ _ _ _ _ S2)|].
  destruct (sg_state _ _ _ _ _ _ _ _ _ S2) as (t & Hb' & _). split_and!; [by rewrite Hb'..|done|done|done].
Qed.

(** C14. A transaction on a queue is all or nothing, and its delays start when it commits.
    The session has one producer, to a destination of the queue family with a running
    scheduler, and no consumers, and the messages are accepted by the selector of the
    consumer they go to. While the transaction is open, its sends change no queue of any
    consumer and no storage. A commit of the session takes every message, as a numbered
    copy whose delay is counted from the commit, and puts it, once, into the consumer's
    queue when it is due, by priority and in the order of sending, behind what is there,
    and else on the scheduler under its delivery time; it appends exactly the persistent
    ones to the storage, with the bytes a send with that delivery time stores, and
    changes no other queue. A rollback leaves the queues and the storage as they were.
    Both empty the staging queue and end only this transaction in the buffer. (On a
    topic a commit duplicates, [topic_commit_duplicates], and skips offline
    subscriptions, [topic_commit_skips_offline].) *)
Theorem transaction_is_atomic b d x c cons producer pr ss tq pend msgs st l n closing :
  transacted b d x c cons producer pr ss tq pend → ss_producers ss = {[producer]} → ss_consumers ss = ∅ →
  Forall (at_heap (br_world b)) msgs → Forall (λ pm, sendable cons pend pm.2) msgs → Forall (λ pm, delayed pm.2) msgs →
  NoDup (persistent_ids msgs.*2) → stopped (ds_scheduler x) = false →
  br_storages b !! ds_storage x = Some st → stores st l n → Forall (λ u, u ∉ uuids l) (persistent_ids msgs.*2) →
  n + batchSize (transaction_batch (ds_messageCounter x) msgs.*2) <= INT64_MAX →
  ∃ sent b', for_each (λ p, save d producer p) msgs.*1 b = Ok tt b' ∧
    Some <$> sent.*2 = numbered staged_copy (ds_messageCounter x) msgs.*2 ∧
    (∀ q, q ≠ tq → queues (br_world b') !! q = queues (br_world b) !! q) ∧ br_storages b' = br_storages b ∧
    (∃ b'' out, commitSession (pr_session pr) b' = Ok tt b'' ∧ out.*1 = sent.*1 ∧
      Some <$> out.*2 = numbered staged_copy (ds_messageCounter x) (started (startOf b') <$> msgs.*2) ∧
      committed b d x cons tq pend (startOf b') out l n b'') ∧
    (∃ b'', rollbackSession (pr_session pr) closing b' = Ok tt b'' ∧
      (∀ q', q' ≠ tq → queues (br_world b'') !! q' = queues (br_world b) !! q') ∧ br_storages b'' = br_storages b ∧
      queue_abs (br_world b'') tq = [] ∧ ∃ y, br_destinations b'' !! d = Some y ∧ tb_holds (ds_transactionBuffer y) pend).
Proof.
  intros Ht Hprod Hcons Hheap Hsend Hdelay Hn Hrun Hst Hl Hnew Hroom.
  destruct (transaction_sends _ _ _ _ _ _ _ _ _ _ msgs Ht Hheap Hsend Hn) as (sent & b' & x1 & S1 & S2 & S4 & S5 & S6 & S7 & S7' & S8).
  exists sent, b'. split; [exact S1|]. split; [exact S2|]. split; [exact S4|]. split; [exact S5|].
  assert (Hms : Forall (λ m, length (uuid m) = 16%nat ∧ uuid m ≠ nullUUID) msgs.*2)
    by (apply Forall_fmap; eapply Forall_impl; [|exact Hsend]; intros pm H; apply H).
  assert (Hlen : Forall (λ m, length (uuid m) = 16%nat) msgs.*2) by (eapply Forall_impl; [|exact Hms]; by intros m []).
  destruct (staged_like _ _ _ S2 Hlen) as [Hids Hdel].
  destruct (record_staged_batch (ss_suffix ss) pend sent.*2) as [Eb Ed].
  rewrite (tr_new _ _ _ _ _ _ _ _ _ _ Ht) in Eb. cbn [default from_option app] in Eb.
  rewrite (delete_id pend _ (tr_new _ _ _ _ _ _ _ _ _ _ Ht)) in Ed.
  assert (Hs : br_sessions b' !! pr_session pr = Some ss) by (rewrite S6; apply Ht).
  assert (Hid : ss_suffix ss ≠ "") by apply Ht.
  apply (committing_session _ (<[pr_session pr := set_suffix "" ss]> (br_sessions b'))) in S8. split.
  - set (now := startOf b'). pose proof (numbered_resolved now _ _ _ S2 Hlen) as Hout.
    set (out := (λ pm : nat * Message, (pm.1, resolved now pm.2)) <$> sent).
    assert (Ho : out.*2 = resolved now <$> sent.*2) by (unfold out; by rewrite <-!list_fmap_compose).
    destruct (commit_ok _ d x1 c cons producer pr tq (ss_suffix ss) _ sent st l n S8 Hid) as (b1 & C1 & C2 & C3);
      rewrite ?Hids, ?S7, ?S7', ?Ed; try done.
    + change (Forall (delayed ∘ snd) sent). rewrite <-Forall_fmap. apply Hdel. by apply Forall_fmap.
    + intros u Hu. apply list_elem_of_fmap in Hu as (m & -> & [Hper Hin]%list_elem_of_filter).
      apply list_elem_of_fmap in Hin as (pm & -> & Hin). by apply (proj1 (list.Forall_forall _ _) Hsend pm Hin).
    + simpl. by rewrite S5.
    + change (storable_batch l (out.*2 ≫= recorded)). rewrite Ho.
      apply (batch_storable _ (started now <$> msgs.*2) _ l Hout); rewrite ?started_ids; try done.
      apply Forall_fmap. eapply Forall_impl; [|exact Hms]. intros m. cbn [compose]. by rewrite uuid_started.
    + change (n + batchSize (out.*2 ≫= recorded) <= INT64_MAX). rewrite Ho, batchSize_resolved.
      rewrite (staged_batch _ _ _ S2) in Hroom. exact Hroom.
    + exists (ended b' (pr_session pr) ss b1), out. split; [by apply (commitSession_single _ _ producer)|].
      split; [unfold out; by rewrite <-list_fmap_compose|]. split; [by rewrite Ho|].
      destruct C3 as [(du & la & y & P1 & P2 & P3 & P4 & P5) P6 P7 P8 P9]. rewrite S7 in P9. rewrite S7' in P5. rewrite Ed in P4. split; try done.
      * exists du, la, y. split; [exact P1|]. split; [|done]. change (queue_abs (br_world b1) (cs_queue cons) = requeued (queue_abs (br_world b) (cs_queue cons)) du).
        rewrite P2. f_equal. apply queue_abs_other. apply S4, Ht.
      * intros q H1 H2. change (queues (br_world b1) !! q = queues (br_world b) !! q). rewrite P8 by done. by apply S4.
  - destruct (rollback_ok _ d x1 c cons producer pr tq (ss_suffix ss) _ sent S8 Hid) as (b1 & R1 & [R2 R3 R4] & R5 & R6).
    rewrite Ed in R3. exists (ended b' (pr_session pr) ss b1). split; [by apply (rollbackSession_single _ _ producer)|].
    split_and!; try done.
    + intros q' H1. change (queues (br_world b1) !! q' = queues (br_world b) !! q'). rewrite R5 by done. by apply S4.
    + change (br_storages b1 = br_storages b). by rewrite R6.
Qed.
End Commit.
