(* ===== verification/Scenarios.v ===== *)
(** A concrete process to run the broker in, and the runs that show what some
    sequences of calls do: where the code's behaviour differs from what its comments
    or the JMS specification say, the run is the evidence. *)
From S2P Require Import Prelude Property Message JsonInstance StorageRecord PriorityQueue World DeliveryScheduler LinearStorage StorageWorker TransactionBuffer InFlight Broker Consumer Destination Session Connection ConnectionFacts Selector ConsumerFacts MessageFacts SendFacts Durability Replay Subscriptions Staging Delays Receives ProducerFacts Commits.
From Stdlib Require Import Lia ZifyBool.

Definition sampleClock (n : nat) : Z := Z.min INT64_MAX (1700000000000000 + Z.of_nat n * 1000).
Definition sampleHash (s : string) : Z :=
  foldl (λ h c, wrapU 64 (h * 1000003 + Z.of_nat (Ascii.nat_of_ascii c))) 0 (chars s).
#[export] Instance sampleEnv : Environment := {|
  env_json := tree_json;
  env_uuid := hex_uuid;
  env_text := split_text;
  env_filter := selector_filter;
  clock := sampleClock;
  randomUUID n := encLE 8 (Z.of_nat (S n)) ++ encLE 8 1;
  iter_set X := elements X;
  iter_subs m := (map_to_list m).*1;
  iter_toms := keyOrder;
  iter_transactions := mapOrder;
  poco_hash s := sampleHash s;
  log_opens _ := true
|}.

Definition newDest (t : DestinationType) (name : string) (sid : nat) : Destination :=
  mkDestination t name (TypeName t +:+ ("/" +:+ (name +:+ "/"))) 0 ∅ ∅ None None sid (freshTB true "") newScheduler ∅ ∅ defaultPolicy.
(** A process with a queue 1 and a topic 2. *)
Definition start : broker :=
  mkBroker (mkWorld ∅ ∅) (mkChains ∅ ∅)
    {[1%nat := newDest Queue "q" 10; 2%nat := newDest Topic "t" 11]} ∅ ∅ ∅
    {[10%nat := openStorage ∅; 11%nat := openStorage ∅]} ∅ 100 0 0.

(** A text message made by the application. *)
Definition textMessage (u : nat) (r : Reliability) : Message :=
  set_reliability r (set_uuid (txid u) (newMessage (TextBody "hello"))).

(** What a consumer gets: the uuids of the messages, until a timeout. *)
Fixpoint receiveAll (n : nat) (c : nat) : M broker (list UUID) :=
  match n with
  | O => mret []
  | S n =>
      r ← recv c 0;
      match r with
      | Returned (Some p) => m ← message p; rest ← receiveAll n c; mret (uuid m :: rest)
      | _ => mret []
      end
  end.
Definition outcome {S A} (r : res S A) : option A := match r with Ok a _ => Some a | _ => None end.

Definition is_ub {S A} (r : res S A) : bool := match r with UB => true | _ => false end.
Lemma is_ub_eq {S A} (r : res S A) : is_ub r = true → r = UB.
Proof. by destruct r. Qed.

Definition lateConsumer : M broker (list UUID) :=
  s ← newSession AUTO_ACKNOWLEDGE "";
  _ ← createDefaultConsumer 1 s;
  p ← ss_createProducer s 1;
  m ← alloc (textMessage 1 PERSISTENT);
  _ ← send p m;
  c ← ss_createConsumer s 1;
  receiveAll 5 c.
Definition topicCommit : M broker (list UUID * list UUID) :=
  s ← newSession SESSION_TRANSACTED "";
  c1 ← ss_createConsumer s 2;
  c2 ← ss_createConsumer s 2;
  p ← ss_createProducer s 2;
  m ← alloc (textMessage 1 NOT_PERSISTENT);
  _ ← send p m;
  _ ← commitSession s;
  l1 ← receiveAll 5 c1; l2 ← receiveAll 5 c2; mret (l1, l2).
Definition topicCommitOffline : M broker (list UUID * list UUID) :=
  s ← newSession AUTO_ACKNOWLEDGE "";
  c ← ss_createDurableConsumer s 2 "sub";
  _ ← ss_deleteConsumer s c;
  t ← newSession SESSION_TRANSACTED "";
  p ← ss_createProducer t 2;
  m1 ← alloc (textMessage 1 PERSISTENT);
  _ ← send p m1;
  _ ← commitSession t;
  q ← ss_createProducer s 2;
  m2 ← alloc (textMessage 2 PERSISTENT);
  _ ← send q m2;
  c ← ss_createDurableConsumer s 2 "sub";
  l ← receiveAll 5 c; mret (l, [txid 2]).
Definition plainCommit (rollback : bool) : M broker unit :=
  s ← newSession AUTO_ACKNOWLEDGE "";
  _ ← createDefaultConsumer 1 s;
  p ← ss_createProducer s 1;
  _ ← (if rollback then rollbackSession s false else commitSession s);
  m ← alloc (textMessage 1 NOT_PERSISTENT);
  send p m.
Definition selectorBypass (reopen : bool) : M broker (list UUID) :=
  s ← newSession AUTO_ACKNOWLEDGE "";
  _ ← createDefaultConsumer 1 s;
  _ ← (if reopen then _ ← createDefaultConsumer 1 s; mret tt else mret tt);
  p ← ss_createProducer s 1;
  c ← ss_createConsumerSelector s 1 "color = 'red'";
  m ← alloc (textMessage 1 NOT_PERSISTENT);
  _ ← send p m;
  receiveAll 5 c.

(** A transacted send to a topic is delivered once per pair of consumers: each
    consumer's push stages its own copy, and the commit delivers every staged copy to
    every consumer, so that with two consumers each of them receives the message
    twice. *)
Theorem topic_commit_duplicates :
  outcome (topicCommit start) = Some ([txid 1; txid 1], [txid 1; txid 1]).
Proof. by vm_compute. Qed.

(** A transacted persistent send to a topic is lost to an offline durable
    subscriber when no consumer is online: nothing stages it, so the commit has nothing
    to buffer, while an ordinary send of the same kind is buffered and received. *)
Theorem topic_commit_skips_offline :
  outcome (topicCommitOffline start) = Some ([txid 2], [txid 2]).
Proof. by vm_compute. Qed.

(** Commit() or rollback() on a session that is not transacted breaks its
    producers: it leaves a transaction id behind, so that the next send dereferences
    the null transacted queue. *)
Theorem plain_commit_breaks_send rollback : plainCommit rollback start = UB.
Proof. apply is_ub_eq. by destruct rollback; vm_compute. Qed.

(** A consumer created after persistent messages were sent to its queue receives
    them twice: they are in the queue, and its creation replays them from the
    storage, which still holds every record that was not acknowledged. *)
Theorem late_consumer_duplicates : outcome (lateConsumer start) = Some [txid 1; txid 1].
Proof. by vm_compute. Qed.

(** A selector stops working once the destination was created twice: the second
    call of createDestination leaves the first default consumer registered, sends
    are pushed through it without the selector, and the consumer receives a message
    its selector rejects; with one call it does not. *)
Theorem stale_default_consumer_ignores_selector :
  outcome (selectorBypass true start) = Some [txid 1] ∧ outcome (selectorBypass false start) = Some [].
Proof. split; by vm_compute. Qed.

(** Two durable subscriptions can share one directory: the registry tells the
    client and subscription names apart, the directory name does not. *)
Theorem durable_directories_collide :
  durableKey "a" "b-c" ≠ durableKey "a-b" "c" ∧ durableDir "a" "b-c" = durableDir "a-b" "c".
Proof. split; [by vm_compute|done]. Qed.

(** *** The theorems on consumers at a concrete process *)

(** A consumer 50 of queue 1 in a session 5, its queue 20, and a queue 21 for dead
    letters, which is destination 3. *)
Definition sampleConsumer : Consumer := mkConsumer 1 5 20 None 10 None [].
Definition sampleDest (policy : RedeliveryPolicy) : Destination :=
  set_ds_redeliveryPolicy policy (set_ds_queue (Some 20%nat) (set_ds_consumers {[50%nat]} (newDest Queue "q" 10))).
Definition deadDest : Destination := set_ds_queue (Some 21%nat) (newDest Queue "dead" 12).
Definition emptyQueues (h : gmap nat Message) : world := mkWorld h {[20%nat := Seq.empty_pq; 21%nat := Seq.empty_pq]}.
Definition sampleBroker (policy : RedeliveryPolicy) (mode : AcknowledgeMode) (ch : chains) (w : world) : broker :=
  mkBroker w ch {[1%nat := sampleDest policy; 3%nat := deadDest]} {[50%nat := sampleConsumer]} ∅
    {[5%nat := mkSession mode "" "" ∅ {[50%nat]}]}
    {[10%nat := openStorage ∅; 12%nat := openStorage ∅]} ∅ 200 0 0.

Lemma emptyQueues_wf h : wf_world (emptyQueues h).
Proof.
  split; simpl.
  - intros q b [[<- <-]|[_ [<- <-]%lookup_singleton_Some]]%lookup_insert_Some; apply Seq.wf_empty.
  - intros q b z p [[<- <-]|[_ [<- <-]%lookup_singleton_Some]]%lookup_insert_Some Hin; by apply not_elem_of_nil in Hin.
Qed.
Lemma sampleBroker_ready policy mode ch h :
  ready (sampleBroker policy mode ch (emptyQueues h)) 50 sampleConsumer (sampleDest policy).
Proof. split; [done|done|apply emptyQueues_wf|by eexists|by eexists]. Qed.

Definition sampleText : Message := textMessage 1 NOT_PERSISTENT.
Lemma backoff_is_min_witness :
  backoffDelay 1000 60000 3 = Some 4000 ∧ backoffDelay 1000 60000 2000000000 = Some 60000.
Proof.
  split; [rewrite (backoff_is_min 1000 60000 3) by lia; reflexivity|].
  vm_compute. reflexivity.
Defined.

Lemma redelivery_limit_witness :
  ∃ b', redeliver 50 100 false (sampleBroker defaultPolicy CLIENT_ACKNOWLEDGE (mkChains ∅ ∅)
    (emptyQueues {[100%nat := sampleText]})) = Ok tt b' ∧
    queue_abs (br_world b') 20 = [(4, Some 100%nat)].
Proof.
  destruct (redelivery_limit _ 50 sampleConsumer (sampleDest defaultPolicy) 100 sampleText false
    (sampleBroker_ready defaultPolicy CLIENT_ACKNOWLEDGE (mkChains ∅ ∅) {[100%nat := sampleText]}))
    as (b' & H1 & H2); [reflexivity|reflexivity|by vm_compute|reflexivity|by right|].
  exists b'. split; [exact H1|]. exact (proj1 H2).
Defined.

Definition strictPolicy : RedeliveryPolicy := mkPolicy 0 0 60000 (Some 3%nat).
Lemma recover_in_order_witness :
  ∃ b', recoverConsumer 50 (sampleBroker defaultPolicy CLIENT_ACKNOWLEDGE
      (link 50 101 (link 50 100 (mkChains ∅ ∅)))
      (emptyQueues {[100%nat := sampleText; 101%nat := sampleText]})) = Ok tt b' ∧
    queue_abs (br_world b') 20 = [(4, Some 100%nat); (4, Some 101%nat)].
Proof.
  assert (Hch : chained (link 50 101 (link 50 100 (mkChains ∅ ∅)))
    (upd_list (upd_list (λ _, []) 50 [100%nat]) 50 [100%nat; 101%nat])).
  { refine (link_spec _ _ 50 101 (link_spec _ (λ _, []) 50 100 _ _) _).
    - by split; intros; try done; constructor.
    - intros d. apply not_elem_of_nil.
    - intros d. unfold upd_list. case_decide; set_solver. }
  destruct (recover_in_order _ 50 sampleConsumer (sampleDest defaultPolicy) _ [(100%nat, sampleText); (101%nat, sampleText)]
    (sampleBroker_ready defaultPolicy CLIENT_ACKNOWLEDGE _ {[100%nat := sampleText; 101%nat := sampleText]}) Hch)
    as (b' & H1 & _ & H3 & _); [reflexivity|by repeat constructor| |done|].
  { assert (redeliverable defaultPolicy sampleText) by (by split_and!; vm_compute). by repeat constructor. }
  exists b'. split; [exact H1|exact H3].
Defined.

(** A queue holding an expired message and a live one. *)
Definition expiredText : Message := upd_hdr (set_expiration 1) sampleText.
Definition twoQueued : world :=
  let w := emptyQueues {[100%nat := expiredText; 101%nat := sampleText]} in
  match (_ ← queue_enqueue 20 (Some 100%nat); queue_enqueue 20 (Some 101%nat)) w with Ok _ w' => w' | _ => w end.
Lemma twoQueued_holding ch :
  holding (sampleBroker defaultPolicy CLIENT_ACKNOWLEDGE ch twoQueued) 50 sampleConsumer
    (mkSession CLIENT_ACKNOWLEDGE "" "" ∅ {[50%nat]}) [(100%nat, expiredText); (101%nat, sampleText)].
Proof.
  assert (Hw : wf_world twoQueued).
  { unfold twoQueued. cbn zeta. set (w := emptyQueues _).
    destruct (queue_enqueue_spec w 20 (Some 100%nat)) as (w1 & E1 & W1 & G1 & _ & _ & Q1);
      [apply emptyQueues_wf|by eexists|by eexists|].
    destruct (queue_enqueue_spec w1 20 (Some 101%nat)) as (w2 & E2 & W2 & _); [done|done|simpl; rewrite G1; by eexists|].
    rewrite (bind_ok _ _ _ _ _ E1). by rewrite E2. }
  split; [done|done|by eexists|done|by eexists|done|by apply (bool_decide_unpack _); vm_compute|].
  constructor; [|constructor; [|constructor]]; by eexists.
Qed.

Lemma sampleClock_steady : steady.
Proof. split; intros; unfold clock; simpl; unfold sampleClock; unfold INT64_MAX; lia. Qed.

Lemma recv_delivers_first_live_witness :
  ∃ b', recv 50 (-1) (sampleBroker defaultPolicy CLIENT_ACKNOWLEDGE (mkChains ∅ ∅) twoQueued)
      = Ok (Returned (Some 101%nat)) b' ∧
    br_chains b' = link 50 101 (mkChains ∅ ∅).
Proof.
  destruct (recv_delivers_first_live _ 50 sampleConsumer _ (-1) [(100%nat, expiredText)] 101 sampleText []
    sampleClock_steady (twoQueued_holding (mkChains ∅ ∅))) as (b' & H1 & _ & _ & H4); [done|by left| |by vm_compute|].
  { constructor; [|constructor]. by vm_compute. }
  exists b'. split; [exact H1|exact H4].
Defined.

(** *** The theorems on sends and replays *)
#[local] Existing Instance tree_json_ok.
Lemma replay_restores_witness :
  ∃ sh, (data ← storageBytes sampleMessage; shellOf 0 (mkRec 1 0 (mkHeader (uuid sampleMessage) 0 0)) data) = Some sh ∧
    rehydrated sh = Some (replayed 0 (mkRec 1 0 (mkHeader (uuid sampleMessage) 0 0)) sampleMessage).
Proof.
  destruct (storageBytes sampleMessage) as [data|] eqn:Hd; [|by vm_compute in Hd].
  destruct (replay_restores (E := sampleEnv) (JOk := tree_json_ok) 0 (mkRec 1 0 (mkHeader (uuid sampleMessage) 0 0)) sampleMessage data
    sampleMessage_codable eq_refl Hd eq_refl) as (sh & H1 & H2 & _).
  exists sh. split; [exact H1|exact H2].
Defined.

(** A topic with two consumers, 50 and 51, whose queues are 20 and 21. *)
Definition fanOut : broker :=
  mkBroker (emptyQueues {[100%nat := sampleText]}) (mkChains ∅ ∅)
    {[2%nat := set_ds_consumers {[50%nat; 51%nat]} (newDest Topic "t" 11)]}
    {[50%nat := mkConsumer 2 5 20 None 11 None []; 51%nat := mkConsumer 2 5 21 None 11 None []]}
    {[60%nat := mkProducer 2 5 false None false false None]}
    {[5%nat := mkSession AUTO_ACKNOWLEDGE "" "" {[60%nat]} {[50%nat; 51%nat]}]}
    {[11%nat := openStorage ∅]} ∅ 200 0 0.
Lemma save_fans_out_witness :
  ∃ b' p1 p2, save 2 60 100 fanOut = Ok tt b' ∧ p1 ≠ p2 ∧
    heap (br_world b') !! p1 = Some (pushed 0 sampleText) ∧ heap (br_world b') !! p2 = Some (pushed 0 sampleText) ∧
    queue_abs (br_world b') 20 = [(4, Some p1)] ∧ queue_abs (br_world b') 21 = [(4, Some p2)].
Proof.
  destruct (save_fans_out fanOut 2 (set_ds_consumers {[50%nat; 51%nat]} (newDest Topic "t" 11)) 60 100 sampleText)
    as (b' & out & H1 & H2 & H3 & H4 & H5).
  - exact eq_refl.
  - split; [by do 2 eexists|reflexivity|reflexivity|done|reflexivity].
  - apply emptyQueues_wf.
  - intros i Hi. apply lookup_singleton_ne. simpl in Hi. lia.
  - intros c Hc. assert (Hc' : c = 50%nat ∨ c = 51%nat) by set_solver.
    destruct Hc' as [-> | ->]; eexists; (split; [reflexivity|by eexists]).
  - assert (Hout : out.*1 = [20%nat; 21%nat]) by (rewrite H2; by vm_compute).
    destruct out as [|[q1 p1] [|[q2 p2] [|]]]; [discriminate Hout|discriminate Hout| |discriminate Hout]. injection Hout as -> ->.
    exists b', p1, p2. split; [exact H1|]. split; [intros ->; by apply list.NoDup_cons in H3 as [[] _]; left|].
    apply Forall_cons_1 in H4 as [[_ H41] H4]. apply Forall_cons_1 in H4 as [[_ H42] _].
    split; [exact H41|]. split; [exact H42|]. rewrite !H5. by split.
Defined.

(** *** The theorems on processes *)
Definition newProcess : process := initial "data/" ∅ ∅.
(** One connection with a client id and a session. *)
Definition after (k : call) (p : process) : process :=
  match perform_call k p with Ok _ p' | Exn _ p' => p' | UB => p end.
Definition connected : process :=
  after (CreateSession 0 AUTO_ACKNOWLEDGE) (after (SetClientID 0 "me") (after CreateConnection newProcess)).
Lemma step_after k p : perform_call k p ≠ UB → step p (after k p).
Proof. intros H. exists k. unfold after. destruct (perform_call k p) as [[] p'|e p'|]; [by left|right; by exists e|done]. Qed.
Lemma connected_reached : rtc step newProcess connected.
Proof.
  eapply rtc_l; [apply (step_after CreateConnection); discriminate|].
  eapply rtc_l; [apply (step_after (SetClientID 0 "me")); discriminate|].
  eapply rtc_l; [apply (step_after (CreateSession 0 AUTO_ACKNOWLEDGE)); discriminate|]. constructor.
Qed.
Lemma process_invariant_witness :
  rtc step newProcess connected ∧ ∃ y, br_sessions (pc_broker connected) !! 1%nat = Some y ∧ ss_clientID y = "me".
Proof.
  split; [exact connected_reached|].
  exact (wp_session _ (process_invariant "data/" ∅ ∅ connected connected_reached) 0
    (mkConnection "me" false false None [1%nat]) 1 eq_refl ltac:(left)).
Defined.
Lemma close_is_final_witness :
  ∃ p', close 0 connected = Ok tt p' ∧ br_sessions (pc_broker p') !! 1%nat = None ∧
    perform_call (SetClientID 0 "you") p' = Exn (IllegalStateException "connection is closed") p'.
Proof.
  assert (Hw : wf_process connected).
  { apply (leaves_call (CreateSession 0 AUTO_ACKNOWLEDGE) (after (SetClientID 0 "me") (after CreateConnection newProcess))).
    apply (leaves_call (SetClientID 0 "me") (after CreateConnection newProcess)).
    apply (leaves_call CreateConnection newProcess), wf_initial. }
  destruct (close_is_final 0 connected (mkConnection "me" false false None [1%nat]) Hw eq_refl eq_refl)
    as [H|(p' & H1 & _ & _ & H2 & _ & H3)]; [discriminate H|].
  exists p'. split; [exact H1|]. split; [apply H2; left|exact (H3 (SetClientID 0 "you") eq_refl)].
Defined.
Lemma create_by_hash_witness :
  ∃ d p' x, exchange_create Queue "q" newProcess = Ok d p' ∧ br_destinations (pc_broker p') !! d = Some x ∧
    ds_type x = Queue ∧ ds_name x = "q" ∧ exchange_create Queue "q" p' = Ok d p'.
Proof.
  pose proof (create_by_hash Queue "q" newProcess (wf_initial "data/" ∅ ∅)) as H.
  assert (Hok : is_Some (outcome (exchange_create Queue "q" newProcess))) by (apply (bool_decide_unpack _); by vm_compute).
  destruct (exchange_create Queue "q" newProcess) as [d p'|e p'|] eqn:Hrun; [|by apply is_Some_None in Hok..].
  destruct H as (H1 & x & Hx & _ & H2).
  destruct (H2 (or_introl eq_refl)) as [H3 H4].
  exists d, p', x. split; [reflexivity|]. split; [exact Hx|]. split; [exact H3|]. split; [exact H4|exact (H1 Queue "q" eq_refl)].
Defined.

(** *** The theorems on persistence *)
Lemma foldl_inU {A} (f : Z → A → Z) l h : inU 64 h → (∀ h x, inU 64 (f h x)) → inU 64 (foldl f h l).
Proof. intros Hh Hf. revert h Hh. induction l as [|x l IH]; intros h Hh; simpl; [done|]. by apply IH. Qed.
#[local] Instance sampleEnv_ok : EnvironmentOk sampleEnv.
Proof.
  split; [intros; reflexivity|intros; reflexivity|intros s; unfold iterates; reflexivity|intros; reflexivity| |].
  - intros s. apply foldl_inU; [by vm_compute|]. intros h x. by apply Z.mod_pos_bound.
  - intros n. split; [done|]. intros H. apply (f_equal (drop 8)) in H. discriminate H.
Qed.

Lemma nothing_stored : stores (openStorage ∅) [] 0.
Proof. exists ∅. split; [apply empty_wf|]. split; [by intros id es H|]. split; [done|]. split; [by intros ?%not_elem_of_nil|done]. Qed.
(** The bytes of the sample message, and a storage that holds them. *)
Definition sampleData : bytes := default [] (storageBytes sampleMessage).
Lemma sampleData_stored : storageBytes sampleMessage = Some sampleData.
Proof. by vm_compute. Qed.
Lemma sampleData_fits : 0 + 32 + Z.of_nat (length sampleData) <= INT64_MAX.
Proof. apply (bool_decide_unpack _). by vm_compute. Qed.
Lemma one_stored : ∃ r s n, stores s [(r, sampleData)] n ∧ rec_uuid (rec_header r) = uuid sampleMessage ∧ rec_tomId r ≠ UINT32_MAX.
Proof.
  destruct (append_stores keyOrder (openStorage ∅) [] 0 (uuid sampleMessage) sampleData nothing_stored) as (r & s & _ & H1 & H2 & H3).
  - exact eq_refl.
  - discriminate.
  - exact (data_nonempty _ _ sampleData_stored).
  - apply not_elem_of_nil.
  - exact sampleData_fits.
  - by exists r, s, (0 + 32 + Z.of_nat (length sampleData)).
Qed.

(** Queue 1 with its consumer 50 and a producer 60 in session 5, over storage 10. *)
Definition storingBroker (m : Message) (st : Storage) : broker :=
  mkBroker (emptyQueues {[100%nat := m]}) (mkChains ∅ ∅) {[1%nat := set_ds_messageCounter 42 (sampleDest defaultPolicy)]}
    {[50%nat := sampleConsumer]} {[60%nat := mkProducer 1 5 false None false false None]}
    {[5%nat := mkSession CLIENT_ACKNOWLEDGE "" "" {[60%nat]} {[50%nat]}]} {[10%nat := st]} ∅ 200 0 0.
Lemma sampleData_pushed : storageBytes (pushed 42 sampleMessage) = Some sampleData.
Proof. by vm_compute. Qed.
Lemma send_is_stored_witness :
  ∃ b' r s', save 1 60 100 (storingBroker sampleMessage (openStorage ∅)) = Ok tt b' ∧
    br_storages b' !! 10%nat = Some s' ∧ stores s' [(r, sampleData)] (0 + 32 + Z.of_nat (length sampleData)) ∧
    queue_abs (br_world b') 20 = [(7, Some 200%nat)].
Proof.
  destruct (send_is_stored (storingBroker sampleMessage (openStorage ∅)) 1 (set_ds_messageCounter 42 (sampleDest defaultPolicy)) 50 []
    sampleConsumer 60 100 sampleMessage sampleData (openStorage ∅) [] 0) as (b' & r & s' & H1 & H2 & H3 & _ & _ & _ & H4).
  - exact eq_refl.
  - exact eq_refl.
  - exact eq_refl.
  - exact eq_refl.
  - exact eq_refl.
  - split; [by do 2 eexists|exact eq_refl|exact eq_refl|split; [exact eq_refl|discriminate]|exact eq_refl|exact sampleData_pushed].
  - exact eq_refl.
  - exact nothing_stored.
  - apply not_elem_of_nil.
  - exact sampleData_fits.
  - apply emptyQueues_wf.
  - by eexists.
  - exact eq_refl.
  - exists b', r, s'. split; [exact H1|]. split; [exact H2|]. split; [exact H3|exact H4].
Defined.

(** A persistent message, with its record in storage 10, moves to the storage 12 of the
    dead letter queue. *)
Definition deadBroker (m : Message) (st : Storage) : broker :=
  mkBroker (emptyQueues {[100%nat := m]}) (mkChains ∅ ∅) {[1%nat := sampleDest strictPolicy; 3%nat := deadDest]}
    {[50%nat := sampleConsumer]} ∅ {[5%nat := mkSession CLIENT_ACKNOWLEDGE "" "" ∅ {[50%nat]}]}
    {[10%nat := st; 12%nat := openStorage ∅]} ∅ 200 0 0.
Definition letterData : bytes := default [] (storageBytes (deadLetterOf sampleMessage)).
Lemma dead_letter_moves_witness :
  ∃ r st n b' copy r2 st' st2, stores st [(r, sampleData)] n ∧
    redeliver 50 100 false (deadBroker (stored_copy 42 sampleMessage sampleData r) st) = Ok tt b' ∧
    heap (br_world b') !! 200%nat = Some copy ∧ queue_abs (br_world b') 21 = [(7, Some 200%nat)] ∧
    br_storages b' = <[10%nat := st']> (<[12%nat := st2]> {[10%nat := st; 12%nat := openStorage ∅]}) ∧
    stores st' [] n ∧ rec_offset r2 = storageOffset copy.
Proof.
  destruct one_stored as (r & st & n & H1 & H2 & H3). set (m := stored_copy 42 sampleMessage sampleData r).
  assert (Hn : names (place m) r) by (apply place_names; exact H2).
  destruct (storageBytes (deadLetterOf m)) as [data|] eqn:Hdata; [|exfalso; revert Hdata; by vm_compute].
  destruct (dead_letter_moves (deadBroker m st) 50 sampleConsumer (sampleDest strictPolicy) 100 m false 3 deadDest
    r sampleData [] n [] 0 data) as (b' & copy & D1 & D2 & _ & D3 & r2 & st' & st2 & E1 & E2 & E3 & E4 & _).
  - split; [exact eq_refl|exact eq_refl|apply emptyQueues_wf|by eexists|by eexists].
  - exact eq_refl.
  - apply (bool_decide_unpack _). vm_compute. exact I.
  - exact eq_refl.
  - exact eq_refl.
  - exact eq_refl.
  - intros q [= <-]. by eexists.
  - exact eq_refl.
  - intros _. split.
    + split; [exact eq_refl|discriminate].
    + exact Hdata.
    + discriminate.
    + exists st. split; [exact eq_refl|]. split; [exact H1|left; split; [exact H3|exact Hn]].
    + exists (openStorage ∅). split; [exact eq_refl|exact nothing_stored].
    + apply not_elem_of_nil.
    + assert (Hlen : option_map (λ d, bool_decide (0 + 32 + Z.of_nat (length d) <= INT64_MAX)) (storageBytes (deadLetterOf m)) = Some true) by (by vm_compute).
      rewrite Hdata in Hlen. injection Hlen as Hlen. exact (bool_decide_eq_true_1 _ Hlen).
  - exists r, st, n, b', copy, r2, st', st2. destruct D3 as [D3 _].
    split; [exact H1|]. split; [exact D1|]. split; [exact D2|]. split; [exact D3|]. split; [exact E3|]. split; [exact E4|].
    destruct E2 as (_ & E2 & _). symmetry. exact E2.
Defined.


Lemma sampleStart b : 1700000000000 <= startOf b.
Proof. apply Z.quot_le_lower_bound; [done|]. simpl. unfold sampleClock, INT64_MAX. lia. Qed.
Lemma sample_stored_as b r : rec_uuid (rec_header r) = uuid sampleMessage → stored_as (startOf b) (r, sampleData) sampleMessage.
Proof.
  intros Hr. split; [exact sampleMessage_codable|]. split; [exact eq_refl|]. split; [exact sampleData_stored|]. split; [exact Hr|].
  split; [done|]. pose proof (sampleStart b). change (deliveryTime (jmsHeaders sampleMessage)) with 0. unfold kMaxFutureHeaderMs. lia.
Qed.

Lemma restart_delivers_witness :
  ∃ r st n b' c cons l due later sch, stores st [(r, sampleData)] n ∧
    createConsumer 1 5 None (storingBroker sampleMessage st) = Ok c b' ∧
    replay_result (storingBroker sampleMessage st) 1 (set_ds_messageCounter 42 (sampleDest defaultPolicy)) [((r, sampleData), sampleMessage)]
      c cons (mkSession CLIENT_ACKNOWLEDGE "" "" {[60%nat]} {[50%nat]}) l due later sch b'.
Proof.
  destruct one_stored as (r & st & n & H1 & H2 & H3).
  destruct (restart_delivers (E := sampleEnv) (JOk := tree_json_ok) sampleClock_steady (storingBroker sampleMessage st) 1
    (set_ds_messageCounter 42 (sampleDest defaultPolicy)) 5 (mkSession CLIENT_ACKNOWLEDGE "" "" {[60%nat]} {[50%nat]}) 20 st n
    [((r, sampleData), sampleMessage)]) as (b' & c & cons & l & due & later & sch & y & R1 & R2 & _).
  - split; [exact eq_refl|exact eq_refl|by split|exact eq_refl|exact H1| |apply emptyQueues_wf|by split; [eexists|]|].
    + constructor; [|constructor]. by apply sample_stored_as.
    + intros i Hi. apply lookup_singleton_ne. simpl in Hi. lia.
  - exact eq_refl.
  - exact eq_refl.
  - by exists r, st, n, b', c, cons, l, due, later, sch.
Defined.

(** A topic 2 with a consumer 50 over its storage 11 and an offline durable
    subscription over storage 12. *)
Definition sampleSub : DurableSubState := mkSub "s" "topic/t/durable-s/" 12 None None.
Definition subscribedTopic : Destination :=
  set_ds_messageCounter 42 (set_ds_durableSubs {["s" := sampleSub]} (set_ds_consumers {[50%nat]} (newDest Topic "t" 11))).
Definition topicBroker : broker :=
  mkBroker (emptyQueues {[100%nat := sampleMessage]}) (mkChains ∅ ∅) {[2%nat := subscribedTopic]}
    {[50%nat := mkConsumer 2 5 20 None 11 None []]} {[60%nat := mkProducer 2 5 false None false false None]}
    {[5%nat := mkSession CLIENT_ACKNOWLEDGE "" "" {[60%nat]} {[50%nat]}]}
    {[11%nat := openStorage ∅; 12%nat := openStorage ∅]} ∅ 200 0 0.
Lemma topicBroker_accepts sid : sid = 11%nat ∨ sid = 12%nat → has_room topicBroker sid (uuid sampleMessage) sampleData.
Proof.
  intros H. exists [], 0. split; [|split; [apply not_elem_of_nil|exact sampleData_fits]].
  exists (openStorage ∅). split; [by destruct H as [-> | ->]|exact nothing_stored].
Qed.
Lemma topicBroker_sendable : publishable topicBroker 2 subscribedTopic 60 100 sampleMessage sampleData sampleData.
Proof.
  split; [exact eq_refl| |exact (eq_trans (eq_refl : storageBytes (copy sampleMessage) = storageBytes sampleMessage) sampleData_stored)
    |apply emptyQueues_wf| | | |].
  - split; [by do 2 eexists|exact eq_refl|exact eq_refl|split; [exact eq_refl|discriminate]|exact eq_refl|exact sampleData_pushed].
  - intros i Hi. apply lookup_singleton_ne. simpl in Hi. lia.
  - change (iter_set _) with [50%nat]. constructor; [|constructor]. eexists. split; [exact eq_refl|]. split; [by eexists|].
    intros _. apply topicBroker_accepts. by left.
  - change (offlineSubs _ _) with [sampleSub]. constructor; [|constructor]. apply topicBroker_accepts. by right.
  - change (NoDup [11%nat; 12%nat]). apply list.NoDup_cons. split; [set_solver|]. apply NoDup_singleton.
Qed.
Lemma persistent_send_reaches_witness :
  ∃ b' r r', save 2 60 100 topicBroker = Ok tt b' ∧ gained topicBroker b' 11 (uuid sampleMessage) sampleData r ∧
    gained topicBroker b' 12 (uuid sampleMessage) sampleData r'.
Proof.
  destruct (persistent_send_reaches _ _ _ _ _ _ _ _ topicBroker_sendable) as (b' & out & rs & H1 & H2 & _ & H4 & _ & H6 & _).
  change (offlineSubs subscribedTopic sampleMessage) with [sampleSub] in H6. change (targetsOf _) with [(20%nat, 11%nat)] in H2.
  destruct out as [|[q i sid r] [|]]; [discriminate H2| |discriminate H2]. injection H2 as -> ->.
  destruct rs as [|r' [|]]; [by inversion H6| |by inversion H6; match goal with H : Forall2 _ [] _ |- _ => inversion H end].
  apply Forall_cons_1 in H4 as [(_ & _ & H4) _]. apply Forall2_cons_1 in H6 as [H6 _].
  exists b', r, r'. split; [exact H1|]. split; [exact H4|exact H6].
Defined.

Lemma durable_misses_nothing_witness :
  ∃ b' ms b'' c cons l due later sch x, save 2 60 100 topicBroker = Ok tt b' ∧ createDurableConsumer 2 5 "" "s" None b' = Ok c b'' ∧
    ms.*2 ≡ₚ [copy sampleMessage] ∧
    replay_result b' 2 x ms c cons (mkSession CLIENT_ACKNOWLEDGE "" "" {[60%nat]} {[50%nat]}) l due later sch b''.
Proof.
  destruct (persistent_send_reaches _ _ _ _ _ _ _ _ topicBroker_sendable) as (b' & _ & _ & H1 & _).
  assert (Hw : waiting topicBroker 2 (durableKey "" "s") sampleSub [] 0).
  { split; [exists subscribedTopic; repeat split; exact eq_refl|exact eq_refl| |constructor|apply emptyQueues_wf|].
    - exists (openStorage ∅). split; [exact eq_refl|exact nothing_stored].
    - intros i Hi. apply lookup_singleton_ne. simpl in Hi. lia. }
  assert (Ha : away 2 (durableKey "" "s") sampleSub topicBroker [sampleMessage] b').
  { eapply away_send; [exact topicBroker_sendable|exact sampleMessage_codable|discriminate|exact H1|constructor]. }
  assert (Hs : br_sessions b' !! 5%nat = Some (mkSession CLIENT_ACKNOWLEDGE "" "" {[60%nat]} {[50%nat]})).
  { destruct (save_reaches _ _ _ _ _ _ _ _ topicBroker_sendable) as (b2 & out & rs & H2 & R). rewrite H1 in H2. injection H2 as <-.
    by rewrite (rc_state _ _ _ _ _ _ _ _ _ R). }
  destruct (durable_misses_nothing (E := sampleEnv) (JOk := tree_json_ok) sampleClock_steady 2 "" "s" sampleSub topicBroker [] 0
    [sampleMessage] b' 5 _ None Hw Ha Hs ltac:(discriminate))
    as (ms & b'' & c & cons & l & due & later & sch & x & y & R1 & R2 & R3 & R4 & _).
  exists b', ms, b'', c, cons, l, due, later, sch, x. split; [exact H1|]. split; [exact R3|]. split; [exact R1|exact R4].
Defined.

(** The same queue with a transacted producer, which stages in queue 21. *)
Definition sampleTransacted : Session := mkSession SESSION_TRANSACTED "" "tx" {[60%nat]} ∅.
Definition stagingProducer : Producer := mkProducer 1 5 false (Some 21%nat) false false None.
(** A persistent message that is to be delayed by five seconds. *)
Definition delayedMessage : Message := set_pendingDeliveryDelay 5000 sampleMessage.
Definition transactedBroker : broker :=
  mkBroker (emptyQueues {[100%nat := sampleText; 101%nat := delayedMessage]}) (mkChains ∅ ∅)
    {[1%nat := set_ds_messageCounter 41 (sampleDest defaultPolicy)]}
    {[50%nat := sampleConsumer]} {[60%nat := stagingProducer]} {[5%nat := sampleTransacted]} {[10%nat := openStorage ∅]} ∅ 200 0 0.
Lemma transactedBroker_ok :
  transacted transactedBroker 1 (set_ds_messageCounter 41 (sampleDest defaultPolicy)) 50 sampleConsumer 60 stagingProducer
    sampleTransacted 21 ∅.
Proof.
  split; try exact eq_refl.
  - by exists [].
  - split; [discriminate|split; by repeat constructor].
  - apply emptyQueues_wf.
  - split; by eexists.
  - discriminate.
  - intros i Hi. simpl in Hi. apply lookup_insert_None. split; [apply lookup_singleton_ne; lia|lia].
  - apply (fresh_ok (U := hex_uuid) (T := split_text)).
  - apply (fresh_ok (U := hex_uuid) (T := split_text)).
Qed.
Lemma delayedBatch : 0 + batchSize (transaction_batch 41 [sampleText; delayedMessage]) <= INT64_MAX.
Proof. apply (bool_decide_unpack _). by vm_compute. Qed.
Lemma transaction_is_atomic_witness :
  ∃ b' b'' out due later y b3, for_each (λ p, save 1 60 p) [100%nat; 101%nat] transactedBroker = Ok tt b' ∧
    queue_abs (br_world b') 20 = [] ∧ commitSession 5 b' = Ok tt b'' ∧
    Some <$> out.*2 = numbered staged_copy 41 [sampleText; started (startOf b') delayedMessage] ∧
    parted (startOf b') (startOf b'') (inserted prio out) due later ∧ queue_abs (br_world b'') 20 = requeued [] due ∧
    br_destinations b'' !! 1%nat = Some y ∧ DeliveryScheduler.pending (ds_scheduler y) = scheduled 20 [] later ∧
    rollbackSession 5 false b' = Ok tt b3 ∧ queue_abs (br_world b3) 20 = [] ∧ queue_abs (br_world b3) 21 = [].
Proof.
  destruct (transaction_is_atomic (E := sampleEnv) (TU := split_text_ok) sampleClock_steady transactedBroker 1
    (set_ds_messageCounter 41 (sampleDest defaultPolicy)) 50 sampleConsumer 60 stagingProducer sampleTransacted 21 ∅
    [(100%nat, sampleText); (101%nat, delayedMessage)] (openStorage ∅) [] 0 false)
    as (sent & b' & H1 & _ & H3 & _ & (b'' & out & C1 & _ & C2 & [(due & later & y & C3 & C4 & C5 & _ & C6) _ _ _ _]) & (b3 & R1 & R2 & _ & R3 & _)).
  - exact transactedBroker_ok.
  - exact eq_refl.
  - exact eq_refl.
  - by repeat constructor.
  - constructor; [|constructor; [|constructor]]; (split; [split; [exact eq_refl|discriminate]|exact eq_refl|]);
      intros _ (tx & l & Hl & _); by rewrite lookup_empty in Hl.
  - constructor; [|constructor; [|constructor]]; by split.
  - apply NoDup_singleton.
  - exact eq_refl.
  - exact eq_refl.
  - exact nothing_stored.
  - constructor; [apply not_elem_of_nil|constructor].
  - exact delayedBatch.
  - exists b', b'', out, due, later, y, b3. assert (Hq : queue_abs (br_world transactedBroker) 20 = []) by done.
    split; [exact H1|]. split; [rewrite <-Hq; apply queue_abs_other, H3; discriminate|]. split; [exact C1|]. split; [exact C2|].
    split; [exact C3|]. split; [exact C4|]. split; [exact C5|]. split; [exact C6|]. split; [exact R1|]. split; [|exact R3].
    rewrite <-Hq. apply queue_abs_other, R2. discriminate.
Defined.

(** A transacted consumer whose queue holds one persistent message, which does not know
    the place of its record. *)
Definition eternalMessage : Message := upd_hdr (set_expiration 0) sampleMessage.
Definition queuedMessage : Message := set_cachedStorageBytes (default [] (storageBytes eternalMessage)) eternalMessage.
Definition receivedMessage : Message := default queuedMessage (rehydrated queuedMessage).
Definition oneQueued : world :=
  match queue_enqueue 20 (Some 100%nat) (emptyQueues {[100%nat := queuedMessage]}) with Ok _ w => w | _ => emptyQueues ∅ end.
Definition receiver : Consumer := mkConsumer 1 5 20 (Some 21%nat) 10 None [].
Definition receivingSession : Session := mkSession SESSION_TRANSACTED "" "tx" ∅ {[50%nat]}.
Definition receivingBroker (st : Storage) : broker :=
  mkBroker oneQueued (mkChains ∅ ∅) {[1%nat := sampleDest defaultPolicy]} {[50%nat := receiver]} ∅ {[5%nat := receivingSession]} {[10%nat := st]} ∅ 200 0 0.
Lemma oneQueued_receiving st : receiving (receivingBroker st) 50 receiver receivingSession 21 [] [(100%nat, receivedMessage)].
Proof.
  assert (Hw : wf_world oneQueued).
  { unfold oneQueued. set (w := emptyQueues {[100%nat := queuedMessage]}).
    destruct (queue_enqueue_spec w 20 (Some 100%nat)) as (w1 & E1 & W1 & _); [apply emptyQueues_wf|by eexists|by eexists|]. by rewrite E1. }
  split; [|done|done|by vm_compute; eexists|done|by vm_compute|constructor|apply NoDup_singleton].
  split; [done|done|by eexists|done|by eexists|by vm_compute|apply NoDup_singleton|].
  constructor; [|constructor]. exists queuedMessage. split; [done|by vm_compute].
Qed.
Lemma receipts_are_atomic_witness :
  ∃ r st n b' b'' st' b3, stores st [(r, sampleData)] n ∧
    recvs 50 (-1) 1 (receivingBroker st) = Ok [Returned (Some 100%nat)] b' ∧ commitConsumer 50 b' = Ok tt b'' ∧
    br_storages b'' = <[10%nat := st']> {[10%nat := st]} ∧ stores st' [] n ∧
    rollbackConsumer 50 false b' = Ok tt b3 ∧ queue_abs (br_world b3) 21 = [].
Proof.
  destruct one_stored as (r & st & n & H1 & H2 & _).
  destruct (receipts_are_atomic (E := sampleEnv) (receivingBroker st) 50 receiver receivingSession 21 [(100%nat, receivedMessage)] [] (-1))
    as (b' & R1 & _ & _ & R3 & R4).
  - exact sampleClock_steady.
  - exact (oneQueued_receiving st).
  - constructor; [|constructor]. by vm_compute.
  - destruct (R3 (λ _, (r, sampleData)) st [] n) as (b'' & st' & C1 & C2 & C3 & _).
    + intros pm ->%list_elem_of_singleton _. right. split; [by vm_compute|]. change (rec_uuid (rec_header r) = uuid receivedMessage). rewrite H2. by vm_compute.
    + exact eq_refl.
    + exact H1.
    + destruct (R4 (sampleDest defaultPolicy) false) as (b3 & D1 & _ & D3 & _).
      * exact eq_refl.
      * by right.
      * constructor; [|constructor]. split; [vm_compute; reflexivity|split; [apply (bool_decide_unpack _); vm_compute; exact I|vm_compute; reflexivity]].
      * exists r, st, n, b', b'', st', b3. by split_and!.
Defined.

(** A transacted send with a delay of five seconds, and one with a priority of ten. *)
Lemma send_applies_options_witness :
  (∃ m' b1, sendWith 60 100 (mkSendOptions PERSISTENT 7 60000 5000) transactedBroker = save 1 60 100 b1 ∧
    heap (br_world b1) !! 100%nat = Some m' ∧ delayed m' ∧ pendingDeliveryDelay m' = 5000 ∧ priority (jmsHeaders m') = 7 ∧
    expiration (jmsHeaders m') = startOf transactedBroker + 60000) ∧
  ∃ what, sendWith 60 100 (mkSendOptions PERSISTENT 10 0 0) transactedBroker = Exn (StdInvalidArgument what) transactedBroker.
Proof.
  split.
  - destruct (proj2 (send_applies_options (E := sampleEnv) sampleClock_steady transactedBroker 60 stagingProducer sampleTransacted 100 sampleText
      (mkSendOptions PERSISTENT 7 60000 5000) eq_refl eq_refl eq_refl)) as (m' & b1 & [_ P2 P3 P4 [P5 P5'] _ _ _] & [H1 _] & H2 & _).
    + unfold valid_options, kMaxFutureHeaderMs. simpl. lia.
    + exists m', b1. split; [exact H2|]. split; [rewrite H1; apply lookup_insert_eq|]. split; [exact P5|]. split; [exact P5'|]. by split.
  - destruct (proj1 (send_applies_options (E := sampleEnv) sampleClock_steady transactedBroker 60 stagingProducer sampleTransacted 100 sampleText
      (mkSendOptions PERSISTENT 10 0 0) eq_refl eq_refl eq_refl)) as (what & H & _).
    + intros [[_ H] _]. simpl in H. lia.
    + by exists what.
Defined.

Lemma reopen_keeps_witness :
  ∃ r st n p1 d' p2 y s', stores st [(r, sampleData)] n ∧
    destroyDestination 1 (mkProcess (storingBroker sampleMessage st) "data/" ∅ ∅ ∅) = Ok tt p1 ∧
    newDestination Queue "q" "queue/q/" p1 = Ok d' p2 ∧ br_destinations (pc_broker p2) !! d' = Some y ∧
    br_storages (pc_broker p2) !! ds_storage y = Some s' ∧ stores s' [(r, sampleData)] n.
Proof.
  destruct one_stored as (r & st & n & H1 & H2 & H3).
  destruct (reopen_keeps (E := sampleEnv) (TU := split_text_ok) (mkProcess (storingBroker sampleMessage st) "data/" ∅ ∅ ∅) 1
    (set_ds_messageCounter 42 (sampleDest defaultPolicy)) st [(r, sampleData)] n Queue "q")
    as (p1 & d' & p2 & y & s' & R1 & R2 & R3 & _ & _ & _ & R4 & R5 & _).
  - exact eq_refl.
  - exact eq_refl.
  - exact H1.
  - apply fresh_ok.
  - exact eq_refl.
  - exists r, st, n, p1, d', p2, y, s'. split; [exact H1|]. split; [exact R1|]. split; [exact R2|].
    split; [exact R3|]. split; [exact R4|exact R5].
Defined.
